(* ===== verification/_CoqProject ===== *)
-Q . S2P
Prelude.v
CodedStream.v
Utf8.v
WireFormat.v
WireFormatFacts.v
BaseCmd.v
BaseCmdFacts.v
RepeatedField.v
RepeatedFieldFacts.v
RepeatedFieldUse.v
ScalarField.v
ScalarFieldFacts.v
CodedStreamMore.v
WireTypes.v
WireTypesFacts.v
PackedFields.v
PackedRoundtrip.v
PackedTotal.v
VarintSizes.v
FieldSkippers.v
FieldSkippersFacts.v
ZeroCopyOutput.v
ZeroCopyOutputFacts.v
ZeroCopyInput.v
ZeroCopyInputFacts.v
Messages.v
MessageRoute.v
MessageRouteFacts.v
ServerDispatch.v
ClientDispatch.v
HttpParser.v
HttpParserFacts.v
HttpReply.v
HttpReplyFacts.v
HttpConnection.v
HttpConnectionFacts.v
CallbackList.v
CallbackHeap.v
CallbackListFacts.v
CallbackWalk.v
CallbackCopy.v
EventDispatcher.v
EventDispatcherFacts.v
DispatcherCopy.v
DispatchFacts.v
Removers.v
RemoversFacts.v
RemoversRun.v
TcpConnection.v
TcpConnectionFacts.v
TcpClient.v
TcpClientFacts.v
TcpServer.v
EventQueue.v
EventQueueFacts.v
Demos.v
Singleton.v
