(* ===== verification/Prelude.v ===== *)
(** * MiniProtobufFramework, modelled and verified

    The program is a pair of TCP peers that exchange protobuf messages in a framing
    of their own, a small HTTP server, and the event library the client links.  The
    sources are C++; paths below are under src/.

    ** Parts and files

    - The wire (Shared/protobuf/src/google/protobuf).  [CodedStream] models the integer
      encoders, [CodedInputStream] and the stream adaptors of io/, with
      [CodedStreamMore] for skipping, expected tags, limits and direct buffers; [Utf8]
      the validation of strings (stubs/structurally_valid.cc); [WireFormat] tags, field
      readers and writers, unknown fields and the [MessageLite] entry points, over
      the class [Message] of generated messages and the class [MessageLaws] of what
      such a message owes its users.  [WireFormatFacts] proves the entry points
      against [MessageLaws].
    - Fields.  [RepeatedField] is [RepeatedPtrField] (repeated_field.h) with its array of
      element pointers on a heap and the cleared elements it keeps ([RepeatedFieldFacts],
      [RepeatedFieldUse]); [ScalarField] is [RepeatedField] of scalars with its array of
      slots ([ScalarFieldFacts]).  [WireTypes] has the scalar types of
      wire_format_lite.h with their readers, writers and sizes, and the readers and writers of repeated
      and packed fields; [WireTypesFacts], [PackedFields], [PackedRoundtrip] and
      [PackedTotal] are about them, [VarintSizes] about the sizes computed without
      branches.  [FieldSkippers] ([FieldSkippersFacts]) are the skippers of unknown
      fields as instances of one class, and packed enum fields.
    - Buffers.  [ZeroCopyOutput] and [ZeroCopyInput] are the streams that hand out their
      buffers (io/zero_copy_stream*.{h,cc}) as instances of a class each, and
      [CodedOutputStream] over any output stream; [ZeroCopyOutputFacts] and
      [ZeroCopyInputFacts] state the laws of such streams as classes ([OutputLaws],
      [InputLaws]), prove them of each stream, and prove the clients over the laws.
      Where the other files use a coded stream it is that of [CodedStream], which sees
      the bytes and not the buffers; [coded_stream_to_ostream] relates the two.
    - The messages.  [BaseCmd] holds the ten messages of Shared/code/protobuf/
      BaseCmd.pb.{h,cc}, a record each with its generated operations; [BaseCmdFacts]
      gives each its instance of [MessageLaws]; [Messages] models the pointer to
      [protobuf::Message] as the sum of the ten, with [createMessage] on the
      generated pool.
    - The router.  [MessageRoute] is Shared/code/utility/MessageRoute.{h,cpp}: its
      fields as a record, [Receive], [Send], [ProcessRecv], [ProcessSend] and
      [Process] as functions on it, and [BaseMessageDispatcher::Dispatch].
      [ServerDispatch] and [ClientDispatch] are the processors and dispatchers of
      MiniProtobufServer and MiniProtobufClient, and the client's request loop.
      [Demos] has the other functions of MiniProtobufClient/main.cpp, which show the
      libraries and which [main] does not call, and [Singleton] the template of
      Shared/code/utility/Singleton.h, which nothing instantiates.
    - The connections.  [TcpConnection] is a connection of the server on its event
      loop (MiniProtobufServer/TcpServer.cpp), with asio's composed reads and writes
      (Shared/asio/asio/include/asio); [TcpServer] the accept loop and the
      connections side by side; [TcpClient] the client's connection
      (MiniProtobufClient/TcpClient.cpp) with its application thread.
    - HTTP.  [HttpParser], [HttpReply] and [HttpConnection] are the files of
      MiniProtobufServer/HttpServer: the request state machine, replies and request
      handler, and connections, manager and acceptor as a step relation.
    - Events (Shared/code/eventpp).  [CallbackList] is the callback list as a store of
      nodes with weak handles, where reference counts say what is alive
      ([CallbackHeap]); [CallbackListFacts] relates the store to lists,
      [CallbackWalk] a walk to what an observer of lists expects, for any state that
      has a list as a part (the class [WalkSystem]), and [CallbackCopy] treats copies
      and moves.  [EventDispatcher] is a map of such lists on one heap with a list of
      filters; [EventDispatcherFacts] is about registration, [DispatchFacts] about
      dispatching, by two instances of [WalkSystem], [DispatcherCopy] about copies.
      [EventQueue] is the event queue
      as interleaved threads, a step for each critical section.  [Removers] are the
      counter, conditional and scoped removers (utilities/) over a dispatcher or a
      list, one class for both, with listeners that register, remove and trigger while
      they run ([RemoversFacts], [RemoversRun]).

    A bytes-in, bytes-out chain runs through all of it: [TcpClient] and
    [TcpConnection] move bytes between sockets and the buffers of [MessageRoute],
    which frames and parses with the messages' operations, which are proved over
    [MessageLaws] and the coded streams.

    ** What the theorems show

    - Functional and end-to-end: [delivery_end_to_end] (whatever is sent and however
      the stream is cut and interleaved with processing, each message is dispatched
      once, in order), [server_answers_in_order], [client_session]; over sockets,
      [tcp_session] and [server_serves_all]; [http_serves_file].
    - Round trips and equivalences of the wire: [message_roundtrip],
      [message_serialization] (size, array and stream serializers agree),
      [scalar_field_roundtrip], [repeated_field_roundtrip], [packed_enum_split],
      [fixed_paths_agree] and [vectorised_sizes_agree] (fast paths against plain ones),
      [field_skippers_agree], [utf8_scanner_correct].
    - Totality, bounds and types on arbitrary input: [message_parser_total],
      [receive_buffer_safe], [unchecked_readers_in_bounds], [repeated_readers_safe],
      [dispatch_type_safe], [http_confined].
    - Refinement: [http_parser_exact] (the state machine against a grammar),
      [callback_list_refines] and [callback_walk] (the linked store and a walk that
      is changed under its feet, against lists), [dispatcher_refines] and
      [dispatch_filtered] (the same for lists that share a heap),
      [repeated_fields_are_lists]; [coded_stream_to_ostream],
      [coded_stream_to_memory] and [input_streams_deliver] (streams of buffers against
      lists of bytes).
    - Life cycles: [http_answered_once], [http_no_leak], [lost_connection_released],
      [scoped_remover_releases], [counted_listeners_exact].
    - Interleavings: [event_queue_conserves] (no event is lost or repeated, whatever
      the threads do) and [event_queue_fifo].
    - What the code gets wrong, as theorems on concrete or general inputs:
      [short_length_wedges], [overlapping_sends_duplicate], [lost_wakeup]; the last
      parts of [field_skippers_agree] and [packed_enum_split] are of this kind too.

    ** Conventions, bounds and fuel

    Bytes are [Byte.byte]; machine integers are [Z] with the wrap-around written out
    ([u32], [s32], [u64]); [size_t] has 32 bits, as in the Win32 builds of the
    project; floats are their bit patterns.  The block size of the stream adaptors
    is 8192 unless it is given.  Undefined behaviour of the code, a failed [GOOGLE_CHECK] included,
    is the outcome [Undefined]; the checks of debug builds are left out; running
    out of the model's fuel is [NoFuel], and theorems that a function returns
    exclude both.  Fuel is a structural bound each time: the bytes left for the
    parsers and reading loops (every round consumes one), ten rounds for a varint,
    the recursion budget for nested messages, the nodes and operations for a walk
    over a callback list.  [message_parser_total] and its lemmas show that the
    parsers' fuel is enough.

    Repeated fields hold fewer than 2^28 elements of pointers and 2^27 scalars, and
    output streams are given fewer than 2^27 bytes: below these bounds no [int] of the
    code overflows.  Heaps of elements are described by what a computation owns (the
    [runs] of [RepeatedFieldFacts]): it is given some cells and leaves others, and
    whatever else is on the heap is untouched.

    Mutexes serialise the calls they guard, so a guarded call is one step.  The
    event loops run one handler at a time; what the network does is an event of a
    schedule over which the theorems quantify.  [paced] schedules are those in which
    a write has completed when the next [Send] runs; [overlapping_sends_duplicate]
    shows what happens in others.

    ** Not modelled

    Reflection, descriptors, text format, arenas and the compiler of protobuf, and
    asio apart from the composed operations above: library code the program calls
    through, or does not run.  The streams over file descriptors, whose system calls
    are outside of the sources.  Whether the memory of a buffer handed to a pending
    write is moved by a later append is below the model, which takes the bytes when
    the write starts.  The assignment operators of the event dispatcher, which do not
    compile; no part of the two programs but a demonstration uses eventpp.  The Android project, console output of the
    servers and the start-up of the processes. *)

(** ** Shared vocabulary *)


From Stdlib Require Export ZArith Lia.
From Stdlib Require Import Strings.Byte.
From stdpp Require Export prelude strings gmap list.

#[global] Open Scope Z_scope.

(** ** Bytes *)

(** A C [char]/[uint8] cell is a [Byte.byte]; a [std::string], a streambuf's
    contents and a memory block are lists of them. *)
Abbreviation byte := (Corelib.Init.Byte.byte : Type).
Abbreviation bytes := (list Corelib.Init.Byte.byte).

#[global] Instance byte_eq_dec : EqDecision byte := Byte.byte_eq_dec.

(** The unsigned reading of a byte ([uint8]). *)
Definition b2z (b : byte) : Z := Z.of_N (Byte.to_N b).

(** [static_cast<uint8>]: the low eight bits. *)
Definition z2b (z : Z) : byte :=
  match Byte.of_N (Z.to_N (z mod 256)) with Some b => b | None => Byte.x00 end.

(** The signed reading of a byte ([char] on this platform, [int8]). *)
Definition b2s (b : byte) : Z := if b2z b <? 128 then b2z b else b2z b - 256.

(** The bytes of a string literal. *)
Definition bs (s : string) : bytes := String.list_byte_of_string s.

(** ** Outcomes *)

(** Code that can run into undefined behaviour (a null dereference, a wrong
    downcast), in the model an outcome of its own; [NoFuel] is the model's. *)
Inductive outcome (A : Type) :=
  | Ok (a : A)
  | Undefined
  | NoFuel.
Arguments Ok {A} _.
Arguments Undefined {A}.
Arguments NoFuel {A}.

#[global] Instance outcome_ret : MRet outcome := @Ok.
#[global] Instance outcome_bind : MBind outcome := λ A B k m,
  match m with Ok a => k a | Undefined => Undefined | NoFuel => NoFuel end.

(** ** Machine integers, as [Z] with the wrap-around written out *)

Definition u8 (z : Z) : Z := z mod 2 ^ 8.
Definition u32 (z : Z) : Z := z mod 2 ^ 32.
Definition u64 (z : Z) : Z := z mod 2 ^ 64.
Definition s32 (z : Z) : Z := (z + 2 ^ 31) mod 2 ^ 32 - 2 ^ 31.
Definition s64 (z : Z) : Z := (z + 2 ^ 63) mod 2 ^ 64 - 2 ^ 63.

Definition is_u32 (z : Z) : Prop := 0 <= z < 2 ^ 32.
Definition is_u64 (z : Z) : Prop := 0 <= z < 2 ^ 64.
Definition is_s32 (z : Z) : Prop := - 2 ^ 31 <= z < 2 ^ 31.
Definition is_s64 (z : Z) : Prop := - 2 ^ 63 <= z < 2 ^ 63.

(** [INT_MAX] / [kint32max]. *)
Definition INT_MAX : Z := 2147483647.

(** [int] addition, whose overflow is undefined. *)
Definition add_int (a b : Z) : outcome Z := if (- 2 ^ 31 <=? a + b) && (a + b <=? INT_MAX) then Ok (a + b) else Undefined.

(** [GOOGLE_CHECK]. *)
Definition check (b : bool) : outcome unit := if b then Ok tt else Undefined.

(** The size of a container, as the code's integers see it. *)
Definition zlen {A} (l : list A) : Z := Z.of_nat (length l).

(** ** Automation *)

Create HintDb wire.
Create Rewrite HintDb wire.

Ltac znorm := unfold u32, u64, s32, s64, is_u32, is_u64, is_s32, is_s64, INT_MAX in *.

(** Case analysis on the [match] or [if] the goal is stuck on. *)
Ltac case_goal :=
  match goal with
  | |- context [ match ?x with _ => _ end ] => destruct x eqn:?
  end.

(** Reflect the boolean comparisons of hypotheses and goal into propositions. *)
Ltac zbool :=
  repeat match goal with
  | H : (_ <? _) = true |- _ => apply Z.ltb_lt in H
  | H : (_ <? _) = false |- _ => apply Z.ltb_ge in H
  | H : (_ <=? _) = true |- _ => apply Z.leb_le in H
  | H : (_ <=? _) = false |- _ => apply Z.leb_gt in H
  | H : (_ =? _) = true |- _ => apply Z.eqb_eq in H
  | H : (_ =? _) = false |- _ => apply Z.eqb_neq in H
  | H : (_ >? _) = true |- _ => rewrite Z.gtb_ltb in H
  | H : (_ >? _) = false |- _ => rewrite Z.gtb_ltb in H
  | H : (_ >=? _) = true |- _ => rewrite Z.geb_leb in H
  | H : (_ >=? _) = false |- _ => rewrite Z.geb_leb in H
  | H : (_ && _) = true |- _ => apply andb_true_iff in H; destruct H
  | H : (_ || _) = false |- _ => apply orb_false_iff in H; destruct H
  | H : negb _ = true |- _ => apply negb_true_iff in H
  | H : negb _ = false |- _ => apply negb_false_iff in H
  end.

(** Rewrite a boolean comparison whose truth [lia] can decide. *)
Ltac zdec :=
  repeat match goal with
  | |- context [ ?a <? ?b ] =>
      first [ rewrite (proj2 (Z.ltb_lt a b)) by lia | rewrite (proj2 (Z.ltb_ge a b)) by lia ]
  | |- context [ ?a <=? ?b ] =>
      first [ rewrite (proj2 (Z.leb_le a b)) by lia | rewrite (proj2 (Z.leb_gt a b)) by lia ]
  | |- context [ ?a =? ?b ] =>
      first [ rewrite (proj2 (Z.eqb_eq a b)) by lia | rewrite (proj2 (Z.eqb_neq a b)) by lia ]
  end.

(** ** Lemmas on bytes and widths *)

Lemma b2z_range b : 0 <= b2z b < 256.
Proof. unfold b2z. pose proof (Byte.to_N_bounded b). lia. Qed.

Lemma b2z_z2b z : b2z (z2b z) = z mod 256.
Proof.
  unfold z2b, b2z. pose proof (Z.mod_pos_bound z 256 ltac:(lia)) as Hb.
  destruct (Byte.of_N _) as [b|] eqn:E.
  - apply Byte.to_of_N in E. rewrite E. lia.
  - apply Byte.of_N_None_iff in E. lia.
Qed.

Lemma z2b_b2z b : z2b (b2z b) = b.
Proof.
  unfold z2b, b2z. pose proof (Byte.to_N_bounded b).
  rewrite Z.mod_small by lia. rewrite N2Z.id. by rewrite Byte.of_to_N.
Qed.

Lemma b2z_inj b c : b2z b = b2z c → b = c.
Proof. intros E. by rewrite <-(z2b_b2z b), <-(z2b_b2z c), E. Qed.

Lemma b2z_z2b_small z : 0 <= z < 256 → b2z (z2b z) = z.
Proof. intros. rewrite b2z_z2b. by apply Z.mod_small. Qed.

Lemma u32_range z : is_u32 (u32 z).
Proof. znorm. apply Z.mod_pos_bound. lia. Qed.

Lemma u64_range z : is_u64 (u64 z).
Proof. znorm. apply Z.mod_pos_bound. lia. Qed.

Lemma s32_range z : is_s32 (s32 z).
Proof. znorm. pose proof (Z.mod_pos_bound (z + 2 ^ 31) (2 ^ 32)). lia. Qed.

Lemma u32_small z : is_u32 z → u32 z = z.
Proof. znorm. intros. by apply Z.mod_small. Qed.

Lemma u64_small z : is_u64 z → u64 z = z.
Proof. znorm. intros. by apply Z.mod_small. Qed.

Lemma s32_small z : is_s32 z → s32 z = z.
Proof. znorm. intros. rewrite Z.mod_small; lia. Qed.

(** Converting to unsigned and back is the identity on [int32]. *)
Lemma s32_u32 z : s32 (u32 z) = s32 z.
Proof. znorm. by rewrite Zplus_mod_idemp_l. Qed.

Lemma s64_range z : is_s64 (s64 z).
Proof. znorm. pose proof (Z.mod_pos_bound (z + 2 ^ 63) (2 ^ 64)). lia. Qed.

Lemma s64_small z : is_s64 z → s64 z = z.
Proof. znorm. intros. rewrite Z.mod_small; lia. Qed.

Lemma s64_u64 z : s64 (u64 z) = s64 z.
Proof. znorm. by rewrite Zplus_mod_idemp_l. Qed.

Lemma u32_s32 z : u32 (s32 z) = u32 z.
Proof.
  znorm. rewrite Zminus_mod, Zmod_mod, <-Zminus_mod. f_equal. lia.
Qed.

Lemma u32_u64 z : u32 (u64 z) = u32 z.
Proof.
  znorm. change (2 ^ 64) with (2 ^ 32 * 2 ^ 32).
  rewrite Z.rem_mul_r; [|lia|lia]. rewrite Z.mul_comm, Z_mod_plus_full. apply Zmod_mod.
Qed.

Lemma u32_add_l a b : u32 (u32 a + b) = u32 (a + b).
Proof. apply Zplus_mod_idemp_l. Qed.

Lemma u32_add_r a b : u32 (a + u32 b) = u32 (a + b).
Proof. apply Zplus_mod_idemp_r. Qed.

Lemma u32_mul_l a b : u32 (u32 a * b) = u32 (a * b).
Proof. apply Zmult_mod_idemp_l. Qed.

Lemma u64_add_l a b : u64 (u64 a + b) = u64 (a + b).
Proof. apply Zplus_mod_idemp_l. Qed.

Lemma u32_idemp a : u32 (u32 a) = u32 a.
Proof. apply Zmod_mod. Qed.

Lemma u32_sub_l a b : u32 (u32 a - b) = u32 (a - b).
Proof. apply Zminus_mod_idemp_l. Qed.

(** Equality of [uint32]/[uint64] values from a congruence. *)
Lemma u32_cong k a b : a = b + k * 2 ^ 32 → u32 a = u32 b.
Proof. intros ->. unfold u32. apply Z_mod_plus_full. Qed.

Lemma u64_cong k a b : a = b + k * 2 ^ 64 → u64 a = u64 b.
Proof. intros ->. unfold u64. apply Z_mod_plus_full. Qed.

Lemma testbit_high a n i : 0 <= a < 2 ^ n → n <= i → Z.testbit a i = false.
Proof.
  intros Ha Hi. destruct (Z.eq_dec a 0) as [->|]; [apply Z.testbit_0_l|].
  apply Z.bits_above_log2; [lia|].
  eapply Z.lt_le_trans; [|exact Hi]. apply Z.log2_lt_pow2; lia.
Qed.

(** Disjoint bit fields are glued by [|] as by [+]. *)
Lemma lor_shiftl_add a b n :
  0 <= n → 0 <= a < 2 ^ n → 0 <= b → Z.lor a (Z.shiftl b n) = a + b * 2 ^ n.
Proof.
  intros Hn Ha Hb. rewrite <- Z.shiftl_mul_pow2 by lia.
  symmetry. apply Z.add_nocarry_lor. apply Z.bits_inj'. intros i Hi.
  rewrite Z.land_spec, Z.testbit_0_l.
  destruct (Z.lt_ge_cases i n).
  - rewrite (Z.shiftl_spec_low _ _ i) by lia. apply andb_false_r.
  - rewrite (testbit_high a n) by lia. done.
Qed.

#[global] Program Instance byte_countable : Countable byte := inj_countable' b2z z2b _.
Next Obligation. apply z2b_b2z. Qed.

(** ** Lemmas on lengths *)

Lemma zlen_nonneg {A} (l : list A) : 0 <= zlen l.
Proof. unfold zlen. lia. Qed.

Lemma zlen_app {A} (l k : list A) : zlen (l ++ k) = zlen l + zlen k.
Proof. unfold zlen. rewrite length_app. lia. Qed.

Lemma zlen_cons {A} (x : A) l : zlen (x :: l) = 1 + zlen l.
Proof. unfold zlen. rewrite length_cons. lia. Qed.

Lemma zlen_nil {A} : zlen (@nil A) = 0.
Proof. done. Qed.

Lemma zlen_take {A} (l : list A) n :
  0 <= n <= zlen l → zlen (take (Z.to_nat n) l) = n.
Proof. unfold zlen. rewrite length_take. lia. Qed.

Lemma zlen_drop {A} (l : list A) n :
  0 <= n <= zlen l → zlen (drop (Z.to_nat n) l) = zlen l - n.
Proof. unfold zlen. rewrite length_drop. lia. Qed.

Lemma zlen_zero {A} (l : list A) : zlen l <= 0 → l = [].
Proof. destruct l; [done|]. rewrite zlen_cons. pose proof (zlen_nonneg l). lia. Qed.

Lemma zlen_map {A B} (g : A → B) (l : list A) : zlen (map g l) = zlen l.
Proof. unfold zlen. by rewrite length_map. Qed.

Lemma zlen_fmap {A B} (g : A → B) (l : list A) : zlen (g <$> l) = zlen l.
Proof. apply zlen_map. Qed.

Lemma take_zlen_app {A} (l k : list A) n :
  n = zlen l → take (Z.to_nat n) (l ++ k) = l.
Proof. intros ->. unfold zlen. by rewrite Nat2Z.id, take_app_length. Qed.

Lemma drop_zlen_app {A} (l k : list A) n :
  n = zlen l → drop (Z.to_nat n) (l ++ k) = k.
Proof. intros ->. unfold zlen. by rewrite Nat2Z.id, drop_app_length. Qed.

#[export] Hint Resolve b2z_range u32_range u64_range s32_range zlen_nonneg : wire.
#[export] Hint Rewrite @zlen_app @zlen_cons @zlen_nil : wire.
