(* ===== verification/CodedStream.v ===== *)
(** The wire-level streams of the vendored protobuf runtime
    (src/Shared/protobuf/src/google/protobuf/io): the integer encoders of
    [CodedOutputStream], the whole of [CodedInputStream] that generated parsers
    and [MessageRoute] use (buffer, limits, recursion budget, refill from an
    [IstreamInputStream]), and the proofs that its unrolled and buffer-crossing
    readers all compute one reference varint decoder. *)

From S2P Require Import Prelude.

(** ** Output: the encoders of CodedOutputStream *)

Module CodedOutput.

(** [while (value >= 0x80) { *target = value | 0x80; value >>= 7; ++target; }]
    followed by the last byte.  The fuel is the number of bytes available in the
    scratch array: 5 for 32-bit and 10 for 64-bit values. *)
Fixpoint write_varint (fuel : nat) (value : Z) : bytes :=
  match fuel with
  | O => [z2b value]
  | S fuel =>
      if value >=? 0x80
      then z2b (Z.lor value 0x80) :: write_varint fuel (Z.shiftr value 7)
      else [z2b value]
  end.

Definition WriteVarint32ToArray (value : Z) : bytes := write_varint 5 value.
Definition WriteVarint64ToArray (value : Z) : bytes := write_varint 10 value.

(** [WriteVarint64(static_cast<uint64>(value))]: a negative [int32] is written
    sign-extended, in ten bytes. *)
Definition WriteVarint32SignExtendedToArray (value : Z) : bytes :=
  WriteVarint64ToArray (u64 value).

Definition WriteTagToArray (value : Z) : bytes := WriteVarint32ToArray value.

Definition WriteLittleEndian32ToArray (value : Z) : bytes :=
  [z2b value; z2b (Z.shiftr value 8); z2b (Z.shiftr value 16); z2b (Z.shiftr value 24)].

Definition WriteLittleEndian64ToArray (value : Z) : bytes :=
  let part0 := u32 value in
  let part1 := u32 (Z.shiftr value 32) in
  WriteLittleEndian32ToArray part0 ++ WriteLittleEndian32ToArray part1.

(** [Bits::Log2FloorNonZero] is the position of the highest set bit. *)
Definition VarintSize32 (value : Z) : Z :=
  let log2value := Z.log2 (Z.lor value 0x1) in
  (log2value * 9 + 73) / 64.

Definition VarintSize64 (value : Z) : Z :=
  let log2value := Z.log2 (Z.lor value 0x1) in
  (log2value * 9 + 73) / 64.

Definition VarintSize32SignExtended (value : Z) : Z :=
  if value <? 0 then 10 else VarintSize32 (u32 value).

Definition WriteStringWithSizeToArray (str : bytes) : bytes :=
  WriteVarint32ToArray (u32 (zlen str)) ++ str.

(** A [CodedOutputStream] over an [OstreamOutputStream]: everything written so
    far (which the destructors flush into the underlying streambuf), and the room
    left in the current block ([buffer_size_]).  Blocks have the adaptor's default
    size and writing to memory does not fail. *)
Record CodedOutputStream := COS { written : bytes; buffer_size_ : Z }.

Definition kDefaultBlockSize : Z := 8192.

(** The constructor refreshes eagerly; [sink] is what the streambuf already holds. *)
Definition mk_CodedOutputStream (sink : bytes) : CodedOutputStream := COS sink kDefaultBlockSize.

Definition Advance (data : bytes) (o : CodedOutputStream) : CodedOutputStream :=
  COS (written o ++ data) (buffer_size_ o - zlen data).

(** [while (buffer_size_ < size) { copy what fits; Refresh(); }].  After the
    first round every block takes at least one byte, so [length data + 1] rounds
    are enough. *)
Fixpoint write_raw (fuel : nat) (data : bytes) (o : CodedOutputStream) : CodedOutputStream :=
  if buffer_size_ o <? zlen data then
    match fuel with
    | O => o
    | S fuel =>
        let n := Z.to_nat (buffer_size_ o) in
        write_raw fuel (drop n data) (COS (written o ++ take n data) kDefaultBlockSize)
    end
  else Advance data o.

Definition WriteRaw (data : bytes) (o : CodedOutputStream) : CodedOutputStream :=
  write_raw (length data + 1) data o.

(** Aliasing is not enabled on these streams. *)
Definition WriteRawMaybeAliased (data : bytes) (o : CodedOutputStream) : CodedOutputStream :=
  WriteRaw data o.

Definition WriteLittleEndian32 (value : Z) (o : CodedOutputStream) : CodedOutputStream :=
  if 4 <=? buffer_size_ o then Advance (WriteLittleEndian32ToArray value) o
  else WriteRaw (WriteLittleEndian32ToArray value) o.

Definition WriteLittleEndian64 (value : Z) (o : CodedOutputStream) : CodedOutputStream :=
  if 8 <=? buffer_size_ o then Advance (WriteLittleEndian64ToArray value) o
  else WriteRaw (WriteLittleEndian64ToArray value) o.

Definition WriteVarint32 (value : Z) (o : CodedOutputStream) : CodedOutputStream :=
  if 5 <=? buffer_size_ o then Advance (WriteVarint32ToArray value) o
  else WriteRaw (WriteVarint32ToArray value) o.

Definition WriteVarint64 (value : Z) (o : CodedOutputStream) : CodedOutputStream :=
  if 10 <=? buffer_size_ o then Advance (WriteVarint64ToArray value) o
  else WriteRaw (WriteVarint64ToArray value) o.

Definition WriteVarint32SignExtended (value : Z) (o : CodedOutputStream) : CodedOutputStream :=
  WriteVarint64 (u64 value) o.

Definition WriteTag (value : Z) (o : CodedOutputStream) : CodedOutputStream :=
  WriteVarint32 value o.

(** Statements of a serializer in sequence, and [if (c) { ... }]. *)
Definition seq (f g : CodedOutputStream → CodedOutputStream) (o : CodedOutputStream)
  : CodedOutputStream := g (f o).

Definition when (c : bool) (f : CodedOutputStream → CodedOutputStream) (o : CodedOutputStream)
  : CodedOutputStream := if c then f o else o.

(** [if (c) { target = ...; }] of an array serializer: the bytes it adds. *)
Definition opt_bytes (c : bool) (b : bytes) : bytes := if c then b else [].

End CodedOutput.

Declare Scope stream_scope.
Notation "f >>> g" := (CodedOutput.seq f g) (at level 80, right associativity) : stream_scope.
#[global] Open Scope stream_scope.

(** ** Input: CodedInputStream over an array or an IstreamInputStream *)

Module CodedInput.

(** A [std::istream] over a streambuf: the unread characters, and [eofbit]
    (set together with [failbit] by a short [read]). *)
Record istream := Istream { is_buf : bytes; is_eof : bool }.

(** [input->read(buffer, n)] followed by [gcount()]. *)
Definition istream_read (n : Z) (st : istream) : bytes * istream :=
  if is_eof st then ([], st)
  else (take (Z.to_nat n) (is_buf st),
        Istream (drop (Z.to_nat n) (is_buf st)) (zlen (is_buf st) <? n)).

Definition kDefaultBlockSize : Z := 8192.

(** [IstreamInputStream]/[CopyingInputStreamAdaptor]: the stream it copies from
    and the size of the blocks it copies.  [backup_bytes_] is only written by the
    destructor of the [CodedInputStream] on top, after which no caller reads. *)
Record IstreamInputStream := Adaptor { ad_stream : istream; ad_buffer_size : Z }.

Definition mk_IstreamInputStream (st : istream) (block_size : Z) : IstreamInputStream :=
  Adaptor st (if 0 <? block_size then block_size else kDefaultBlockSize).

(** [CopyingInputStreamAdaptor::Next]: one block, or nothing at end of input. *)
Definition Next (a : IstreamInputStream) : option bytes * IstreamInputStream :=
  let '(got, st) := istream_read (ad_buffer_size a) (ad_stream a) in
  let a := Adaptor st (ad_buffer_size a) in
  match got with
  | [] => (None, a)
  | _ => (Some got, a)
  end.

(** The state of a [CodedInputStream].  [buffer_] stands for the bytes between
    [buffer_] and [buffer_end_], [after_limit_] for the
    [buffer_size_after_limit_] bytes that follow [buffer_end_] in memory;
    [input_] is [None] for a stream over an array ([input_ == NULL]).
    [total_bytes_limit_] keeps its default, [INT_MAX]. *)
Record CodedInputStream := CIS {
  buffer_ : bytes;
  after_limit_ : bytes;
  input_ : option IstreamInputStream;
  total_bytes_read_ : Z;
  last_tag_ : Z;
  legitimate_message_end_ : bool;
  current_limit_ : Z;
  recursion_budget_ : Z
}.

Definition set_buffer (s : CodedInputStream) (b : bytes) : CodedInputStream :=
  CIS b (after_limit_ s) (input_ s) (total_bytes_read_ s) (last_tag_ s)
      (legitimate_message_end_ s) (current_limit_ s) (recursion_budget_ s).

Definition set_last_tag (s : CodedInputStream) (t : Z) : CodedInputStream :=
  CIS (buffer_ s) (after_limit_ s) (input_ s) (total_bytes_read_ s) t
      (legitimate_message_end_ s) (current_limit_ s) (recursion_budget_ s).

Definition set_legitimate (s : CodedInputStream) (b : bool) : CodedInputStream :=
  CIS (buffer_ s) (after_limit_ s) (input_ s) (total_bytes_read_ s) (last_tag_ s)
      b (current_limit_ s) (recursion_budget_ s).

Definition set_budget (s : CodedInputStream) (d : Z) : CodedInputStream :=
  CIS (buffer_ s) (after_limit_ s) (input_ s) (total_bytes_read_ s) (last_tag_ s)
      (legitimate_message_end_ s) (current_limit_ s) d.

Definition total_bytes_limit_ : Z := INT_MAX.
Definition default_recursion_limit_ : Z := 100.
Definition kMaxVarintBytes : nat := 10.

Definition BufferSize (s : CodedInputStream) : Z := zlen (buffer_ s).

Definition Advance (n : Z) (s : CodedInputStream) : CodedInputStream :=
  set_buffer s (drop (Z.to_nat n) (buffer_ s)).

(** [total_bytes_read_ - (BufferSize() + buffer_size_after_limit_)]. *)
Definition CurrentPosition (s : CodedInputStream) : Z :=
  total_bytes_read_ s - (BufferSize s + zlen (after_limit_ s)).

(** [buffer_end_ += buffer_size_after_limit_], then cut again at the closest limit. *)
Definition RecomputeBufferLimits (s : CodedInputStream) : CodedInputStream :=
  let all := buffer_ s ++ after_limit_ s in
  let closest_limit := Z.min (current_limit_ s) total_bytes_limit_ in
  let after :=
    if closest_limit <? total_bytes_read_ s then total_bytes_read_ s - closest_limit else 0 in
  let keep := Z.to_nat (zlen all - after) in
  CIS (take keep all) (drop keep all) (input_ s) (total_bytes_read_ s) (last_tag_ s)
      (legitimate_message_end_ s) (current_limit_ s) (recursion_budget_ s).

Definition set_limit (s : CodedInputStream) (l : Z) : CodedInputStream :=
  CIS (buffer_ s) (after_limit_ s) (input_ s) (total_bytes_read_ s) (last_tag_ s)
      (legitimate_message_end_ s) l (recursion_budget_ s).

(** Returns the old limit, to be given back to [PopLimit]. *)
Definition PushLimit (byte_limit : Z) (s : CodedInputStream) : Z * CodedInputStream :=
  let current_position := CurrentPosition s in
  let old_limit := current_limit_ s in
  if (0 <=? byte_limit) && (byte_limit <=? INT_MAX - current_position)
     && (byte_limit <? current_limit_ s - current_position)
  then (old_limit, RecomputeBufferLimits (set_limit s (current_position + byte_limit)))
  else (old_limit, s).

Definition PopLimit (limit : Z) (s : CodedInputStream) : CodedInputStream :=
  set_legitimate (RecomputeBufferLimits (set_limit s limit)) false.

Definition IncrementRecursionDepthAndPushLimit (byte_limit : Z) (s : CodedInputStream)
  : Z * Z * CodedInputStream :=
  let '(l, s) := PushLimit byte_limit s in
  let s := set_budget s (recursion_budget_ s - 1) in
  (l, recursion_budget_ s, s).

Definition ConsumedEntireMessage (s : CodedInputStream) : bool := legitimate_message_end_ s.

Definition DecrementRecursionDepthAndPopLimit (limit : Z) (s : CodedInputStream)
  : bool * CodedInputStream :=
  let result := ConsumedEntireMessage s in
  let s := PopLimit limit s in
  (result, set_budget s (recursion_budget_ s + 1)).

Definition IncrementRecursionDepth (s : CodedInputStream) : bool * CodedInputStream :=
  let s := set_budget s (recursion_budget_ s - 1) in
  (0 <=? recursion_budget_ s, s).

Definition DecrementRecursionDepth (s : CodedInputStream) : CodedInputStream :=
  if recursion_budget_ s <? default_recursion_limit_
  then set_budget s (recursion_budget_ s + 1) else s.

(** Called with an empty buffer: stop at a limit, otherwise take the next block. *)
Definition Refresh (s : CodedInputStream) : bool * CodedInputStream :=
  if (0 <? zlen (after_limit_ s)) || (total_bytes_read_ s =? current_limit_ s)
  then (false, s)
  else match input_ s with
  | None => (false, set_buffer s [])
  | Some a =>
      match Next a with
      | (Some block, a') =>
          (true, RecomputeBufferLimits
                   (CIS block [] (Some a') (total_bytes_read_ s + zlen block) (last_tag_ s)
                        (legitimate_message_end_ s) (current_limit_ s) (recursion_budget_ s)))
      | (None, a') =>
          (false, CIS [] [] (Some a') (total_bytes_read_ s) (last_tag_ s)
                      (legitimate_message_end_ s) (current_limit_ s) (recursion_budget_ s))
      end
  end.

(** The two constructors: over an array, and over a stream (eager [Refresh]). *)
Definition of_array (data : bytes) : CodedInputStream :=
  CIS data [] None (zlen data) 0 false (zlen data) default_recursion_limit_.

Definition of_stream (a : IstreamInputStream) : CodedInputStream :=
  snd (Refresh (CIS [] [] (Some a) 0 0 false INT_MAX default_recursion_limit_)).

(** [InternalReadRawInline]: copy what the buffer has, refresh, go on.  The
    result carries the bytes stored into the destination, which are there also
    when the read fails.  Every successful refresh brings at least one byte
    unless a limit cuts it off, so [size + 2] rounds are enough. *)
Fixpoint read_raw (fuel : nat) (size : Z) (s : CodedInputStream)
  : bool * bytes * CodedInputStream :=
  if BufferSize s <? size then
    match fuel with
    | O => (false, [], s)
    | S fuel =>
        let chunk := buffer_ s in
        let '(ok, s) := Refresh (set_buffer s []) in
        if ok then
          let '(ok, rest, s) := read_raw fuel (size - zlen chunk) s in
          (ok, chunk ++ rest, s)
        else (false, chunk, s)
    end
  else (true, take (Z.to_nat size) (buffer_ s), Advance size s).

Definition ReadRaw (size : Z) (s : CodedInputStream) : bool * bytes * CodedInputStream :=
  read_raw (Z.to_nat size + 2) size s.

(** [InternalReadStringInline]: on a negative size the string is untouched,
    otherwise it is replaced by the bytes read, also when the input runs out. *)
Definition ReadString (size : Z) (old : bytes) (s : CodedInputStream)
  : bool * bytes * CodedInputStream :=
  if size <? 0 then (false, old, s) else ReadRaw size s.

Definition ReadLittleEndian32FromArray (b : bytes) : Z :=
  match b with
  | b0 :: b1 :: b2 :: b3 :: _ =>
      Z.lor (b2z b0) (Z.lor (Z.shiftl (b2z b1) 8)
        (Z.lor (Z.shiftl (b2z b2) 16) (Z.shiftl (b2z b3) 24)))
  | _ => 0
  end.

Definition ReadLittleEndian32 (s : CodedInputStream) : option Z * CodedInputStream :=
  if 4 <=? BufferSize s
  then (Some (ReadLittleEndian32FromArray (buffer_ s)), Advance 4 s)
  else
    let '(ok, raw, s) := ReadRaw 4 s in
    if ok then (Some (ReadLittleEndian32FromArray raw), s) else (None, s).

Definition ReadLittleEndian64FromArray (b : bytes) : Z :=
  let part0 := ReadLittleEndian32FromArray b in
  let part1 := ReadLittleEndian32FromArray (drop 4 b) in
  Z.lor part0 (Z.shiftl part1 32).

Definition ReadLittleEndian64 (s : CodedInputStream) : option Z * CodedInputStream :=
  if 8 <=? BufferSize s
  then (Some (ReadLittleEndian64FromArray (buffer_ s)), Advance 8 s)
  else
    let '(ok, raw, s) := ReadRaw 8 s in
    if ok then (Some (ReadLittleEndian64FromArray raw), s) else (None, s).

(** *** Varints *)

(** What an unchecked reader of memory can do: run past the buffer, find that
    the encoding is longer than ten bytes, or decode a value and stop at [rest]. *)
Inductive array_read :=
  | OutOfBounds
  | Malformed
  | Decoded (value : Z) (rest : bytes).

(** [b = *(ptr++)]. *)
Definition fetch (ptr : bytes) (k : Z → bytes → array_read) : array_read :=
  match ptr with
  | [] => OutOfBounds
  | b :: ptr => k (b2z b) ptr
  end.

(** [!(b & 0x80)]. *)
Definition is_last (b : Z) : bool := Z.land b 0x80 =? 0.

(** Bytes six to ten of an over-long 32-bit varint: read and discarded. *)
Fixpoint skip_high_bytes (n : nat) (result : Z) (ptr : bytes) : array_read :=
  match n with
  | O => Malformed
  | S n =>
      fetch ptr (λ b ptr,
        if is_last b then Decoded result ptr else skip_high_bytes n result ptr)
  end.

(** The unrolled reader, in [uint32] arithmetic. *)
Definition ReadVarint32FromArray (first_byte : Z) (buffer : bytes) : array_read :=
  let result := u32 (first_byte - 0x80) in
  let ptr := tail buffer in
  fetch ptr (λ b ptr,
  let result := u32 (result + u32 (Z.shiftl b 7)) in
  if is_last b then Decoded result ptr else
  let result := u32 (result - Z.shiftl 0x80 7) in
  fetch ptr (λ b ptr,
  let result := u32 (result + u32 (Z.shiftl b 14)) in
  if is_last b then Decoded result ptr else
  let result := u32 (result - Z.shiftl 0x80 14) in
  fetch ptr (λ b ptr,
  let result := u32 (result + u32 (Z.shiftl b 21)) in
  if is_last b then Decoded result ptr else
  let result := u32 (result - Z.shiftl 0x80 21) in
  fetch ptr (λ b ptr,
  let result := u32 (result + u32 (Z.shiftl b 28)) in
  if is_last b then Decoded result ptr else
  skip_high_bytes 5 result ptr)))).

(** [done:] of the 64-bit reader: three 32-bit parts glued together. *)
Definition glue_parts (part0 part1 part2 : Z) : Z :=
  Z.lor part0 (Z.lor (u64 (Z.shiftl part1 28)) (u64 (Z.shiftl part2 56))).

Definition ReadVarint64FromArray (buffer : bytes) : array_read :=
  fetch buffer (λ b ptr,
  let part0 := b in
  if is_last b then Decoded (glue_parts part0 0 0) ptr else
  let part0 := u32 (part0 - 0x80) in
  fetch ptr (λ b ptr,
  let part0 := u32 (part0 + u32 (Z.shiftl b 7)) in
  if is_last b then Decoded (glue_parts part0 0 0) ptr else
  let part0 := u32 (part0 - Z.shiftl 0x80 7) in
  fetch ptr (λ b ptr,
  let part0 := u32 (part0 + u32 (Z.shiftl b 14)) in
  if is_last b then Decoded (glue_parts part0 0 0) ptr else
  let part0 := u32 (part0 - Z.shiftl 0x80 14) in
  fetch ptr (λ b ptr,
  let part0 := u32 (part0 + u32 (Z.shiftl b 21)) in
  if is_last b then Decoded (glue_parts part0 0 0) ptr else
  let part0 := u32 (part0 - Z.shiftl 0x80 21) in
  fetch ptr (λ b ptr,
  let part1 := b in
  if is_last b then Decoded (glue_parts part0 part1 0) ptr else
  let part1 := u32 (part1 - 0x80) in
  fetch ptr (λ b ptr,
  let part1 := u32 (part1 + u32 (Z.shiftl b 7)) in
  if is_last b then Decoded (glue_parts part0 part1 0) ptr else
  let part1 := u32 (part1 - Z.shiftl 0x80 7) in
  fetch ptr (λ b ptr,
  let part1 := u32 (part1 + u32 (Z.shiftl b 14)) in
  if is_last b then Decoded (glue_parts part0 part1 0) ptr else
  let part1 := u32 (part1 - Z.shiftl 0x80 14) in
  fetch ptr (λ b ptr,
  let part1 := u32 (part1 + u32 (Z.shiftl b 21)) in
  if is_last b then Decoded (glue_parts part0 part1 0) ptr else
  let part1 := u32 (part1 - Z.shiftl 0x80 21) in
  fetch ptr (λ b ptr,
  let part2 := b in
  if is_last b then Decoded (glue_parts part0 part1 part2) ptr else
  let part2 := u32 (part2 - 0x80) in
  fetch ptr (λ b ptr,
  let part2 := u32 (part2 + u32 (Z.shiftl b 7)) in
  if is_last b then Decoded (glue_parts part0 part1 part2) ptr else
  Malformed)))))))))).

(** [while (buffer_ == buffer_end_) if (!Refresh()) ...]: a refresh leaves the
    buffer empty only when it stops at a limit, where the next one fails. *)
Definition refresh_until_nonempty (s : CodedInputStream) : bool * CodedInputStream :=
  match buffer_ s with
  | _ :: _ => (true, s)
  | [] =>
      let '(ok, s) := Refresh s in
      if ok then match buffer_ s with _ :: _ => (true, s) | [] => Refresh s end
      else (false, s)
  end.

(** The byte-at-a-time reader that may cross buffers; [n] counts down from
    [kMaxVarintBytes]. *)
Fixpoint read_varint64_slow (n : nat) (count result : Z) (s : CodedInputStream)
  : option Z * CodedInputStream :=
  match n with
  | O => (None, s)
  | S n =>
      let '(ok, s) := refresh_until_nonempty s in
      if ok then
        match buffer_ s with
        | [] => (None, s)
        | b :: rest =>
            let result := u64 (Z.lor result (Z.shiftl (Z.land (b2z b) 0x7F) (7 * count))) in
            let s := set_buffer s rest in
            if is_last (b2z b) then (Some result, s)
            else read_varint64_slow n (count + 1) result s
        end
      else (None, s)
  end.

Definition ReadVarint64Slow (s : CodedInputStream) : option Z * CodedInputStream :=
  read_varint64_slow kMaxVarintBytes 0 0 s.

(** The guard of the unchecked readers: ten bytes are there, or the last byte
    of the buffer ends a varint. *)
Definition fast_path_safe (s : CodedInputStream) : bool :=
  (10 <=? BufferSize s) ||
  match last (buffer_ s) with Some b => is_last (b2z b) | None => false end.

Definition ReadVarint64Fallback (s : CodedInputStream) : option Z * CodedInputStream :=
  if fast_path_safe s then
    match ReadVarint64FromArray (buffer_ s) with
    | Decoded temp rest => (Some temp, set_buffer s rest)
    | _ => (None, s)
    end
  else ReadVarint64Slow s.

Definition ReadVarint64 (s : CodedInputStream) : option Z * CodedInputStream :=
  match buffer_ s with
  | b :: rest =>
      if b2z b <? 0x80 then (Some (b2z b), set_buffer s rest) else ReadVarint64Fallback s
  | [] => ReadVarint64Fallback s
  end.

Definition ReadVarint32Slow (s : CodedInputStream) : option Z * CodedInputStream :=
  let '(p, s) := ReadVarint64Fallback s in (u32 <$> p, s).

Definition ReadVarint32Fallback (first_byte_or_zero : Z) (s : CodedInputStream)
  : option Z * CodedInputStream :=
  if fast_path_safe s then
    match ReadVarint32FromArray first_byte_or_zero (buffer_ s) with
    | Decoded temp rest => (Some temp, set_buffer s rest)
    | _ => (None, s)
    end
  else ReadVarint32Slow s.

Definition ReadVarint32 (s : CodedInputStream) : option Z * CodedInputStream :=
  match buffer_ s with
  | b :: rest =>
      if b2z b <? 0x80 then (Some (b2z b), set_buffer s rest)
      else ReadVarint32Fallback (b2z b) s
  | [] => ReadVarint32Fallback 0 s
  end.

(** [ReadVarintSizeAsIntFallback]/[Slow]: as 64-bit, rejecting what exceeds [INT_MAX]. *)
Definition ReadVarintSizeAsIntFallback (s : CodedInputStream) : option Z * CodedInputStream :=
  if fast_path_safe s then
    match ReadVarint64FromArray (buffer_ s) with
    | Decoded temp rest =>
        if INT_MAX <? temp then (None, s) else (Some temp, set_buffer s rest)
    | _ => (None, s)
    end
  else
    match ReadVarint64Fallback s with
    | (Some v, s) => if INT_MAX <? v then (None, s) else (Some v, s)
    | (None, s) => (None, s)
    end.

Definition ReadVarintSizeAsInt (s : CodedInputStream) : option Z * CodedInputStream :=
  match buffer_ s with
  | b :: rest =>
      if b2z b <? 0x80 then (Some (b2z b), set_buffer s rest)
      else ReadVarintSizeAsIntFallback s
  | [] => ReadVarintSizeAsIntFallback s
  end.

(** *** Tags *)

Definition ReadTagSlow (s : CodedInputStream) : Z * CodedInputStream :=
  let '(ok, s) := match buffer_ s with [] => Refresh s | _ => (true, s) end in
  if ok then
    match ReadVarint64 s with
    | (Some result, s) => (u32 result, s)
    | (None, s) => (0, s)
    end
  else
    let current_position := total_bytes_read_ s - zlen (after_limit_ s) in
    if total_bytes_limit_ <=? current_position
    then (0, set_legitimate s (current_limit_ s =? total_bytes_limit_))
    else (0, set_legitimate s true).

Definition ReadTagFallback (first_byte_or_zero : Z) (s : CodedInputStream) : Z * CodedInputStream :=
  if fast_path_safe s then
    if first_byte_or_zero =? 0 then (0, Advance 1 s)
    else
      match ReadVarint32FromArray first_byte_or_zero (buffer_ s) with
      | Decoded tag rest => (tag, set_buffer s rest)
      | _ => (0, s)
      end
  else if (BufferSize s =? 0)
          && ((0 <? zlen (after_limit_ s)) || (total_bytes_read_ s =? current_limit_ s))
          && (total_bytes_read_ s - zlen (after_limit_ s) <? total_bytes_limit_)
  then (0, set_legitimate s true)
  else ReadTagSlow s.

Definition ReadTagNoLastTag (s : CodedInputStream) : Z * CodedInputStream :=
  match buffer_ s with
  | b :: rest =>
      if b2z b <? 0x80 then (b2z b, set_buffer s rest) else ReadTagFallback (b2z b) s
  | [] => ReadTagFallback 0 s
  end.

Definition ReadTag (s : CodedInputStream) : Z * CodedInputStream :=
  let '(tag, s) := ReadTagNoLastTag s in (tag, set_last_tag s tag).

(** The second component says the tag is known not to exceed the cutoff. *)
Definition ReadTagWithCutoffNoLastTag (cutoff : Z) (s : CodedInputStream)
  : Z * bool * CodedInputStream :=
  let slow first s :=
    let '(tag, s) := ReadTagFallback first s in
    (tag, u32 (tag - 1) <? cutoff, s) in
  match buffer_ s with
  | [] => slow 0 s
  | b0 :: rest =>
      if 0 <? b2s b0 then
        (b2z b0, (0x7f <=? cutoff) || (b2z b0 <=? cutoff), set_buffer s rest)
      else
        match rest with
        | b1 :: rest' =>
            if (0x80 <=? cutoff) && (0x80 <=? Z.land (b2z b0) (255 - b2z b1)) then
              let tag := 0x80 * b2z b1 + (b2z b0 - 0x80) in
              (tag, (0x3fff <=? cutoff) || (tag <=? cutoff), set_buffer s rest')
            else slow (b2z b0) s
        | [] => slow (b2z b0) s
        end
  end.

Definition LastTagWas (expected : Z) (s : CodedInputStream) : bool := last_tag_ s =? expected.

End CodedInput.

(** ** The reference decoder *)

(** Base-128 little-endian groups, at most [fuel] bytes: the value, unreduced,
    and the rest of the input. *)
Fixpoint varint_ref (fuel : nat) (l : bytes) : option (Z * bytes) :=
  match fuel, l with
  | S fuel, b :: r =>
      if b2z b <? 128 then Some (b2z b, r)
      else '(v, r) ← varint_ref fuel r; Some (b2z b - 128 + 128 * v, r)
  | _, _ => None
  end.

(** What an unchecked reader must answer, given how the value is reduced. *)
Definition array_read_ref (fuel : nat) (conv : Z → Z) (l : bytes) : CodedInput.array_read :=
  match varint_ref fuel l with
  | Some (v, r) => CodedInput.Decoded (conv v) r
  | None => if bool_decide (fuel ≤ length l)%nat then CodedInput.Malformed else CodedInput.OutOfBounds
  end.

(** A stream over an array whose limits are in order. *)
Definition flat (s : CodedInput.CodedInputStream) : Prop :=
  CodedInput.input_ s = None ∧
  CodedInput.current_limit_ s
    = CodedInput.total_bytes_read_ s - zlen (CodedInput.after_limit_ s) ∧
  CodedInput.BufferSize s + zlen (CodedInput.after_limit_ s) <= CodedInput.total_bytes_read_ s ∧
  CodedInput.total_bytes_read_ s < INT_MAX.

Section VarintReaders.
Import CodedInput.

Lemma is_last_spec b : is_last (b2z b) = (b2z b <? 128).
Proof. destruct b; reflexivity. Qed.

Lemma land_7f b : Z.land (b2z b) 0x7F = if b2z b <? 128 then b2z b else b2z b - 128.
Proof. destruct b; reflexivity. Qed.

(** Bytes six to ten only have to be there. *)
Lemma skip_high_bytes_ref n result l :
  skip_high_bytes n result l = array_read_ref n (λ _, result) l.
Proof.
  unfold array_read_ref. revert l. induction n as [|n IH]; intros [|b l]; simpl; try done.
  rewrite is_last_spec. destruct (b2z b <? 128); [done|].
  rewrite IH. destruct (varint_ref n l) as [[v r]|]; simpl; [done|].
  repeat case_bool_decide; try done; lia.
Qed.

(** Simplify a [u32] whose argument [lia] can see to be in range. *)
Ltac u32_exact :=
  repeat match goal with
  | |- context [u32 ?x] =>
      lazymatch x with context [u32 _] => fail | _ => idtac end;
      rewrite (u32_small x) by (znorm; lia)
  end.

Ltac byte_facts :=
  repeat match goal with
  | b : Corelib.Init.Byte.byte |- _ =>
      lazymatch goal with
      | _ : 0 <= b2z b < 256 |- _ => fail
      | _ => pose proof (b2z_range b)
      end
  end; zbool.

(** One byte of an unrolled reader: running out, ending here, or going on. *)
Ltac unroll_byte :=
  match goal with
  | |- context [fetch ?p] => destruct p as [|? p]; simpl; [try done|]
  end;
  rewrite is_last_spec;
  match goal with |- context [b2z ?b <? 128] => destruct (b2z b <? 128) eqn:? end; simpl.

#[local] Arguments skip_high_bytes : simpl never.
Ltac u32_norm :=
  rewrite ?Z.shiftl_mul_pow2 by lia; byte_facts; u32_exact; rewrite ?u32_add_r, ?u32_add_l.
Lemma ReadVarint32FromArray_ref b0 l :
  128 <= b2z b0 →
  ReadVarint32FromArray (b2z b0) (b0 :: l) = array_read_ref 10 u32 (b0 :: l).
Proof.
  intros H0. unfold array_read_ref, ReadVarint32FromArray. cbn [tail varint_ref].
  rewrite (proj2 (Z.ltb_ge _ _) H0). cbv zeta.
  do 4 (unroll_byte; [f_equal; u32_norm; first [lia | f_equal; lia]|]).
  rewrite skip_high_bytes_ref. unfold array_read_ref. simpl.
  destruct (varint_ref 5 l) as [[v r]|] eqn:E; simpl in *; rewrite E; simpl.
  - f_equal. u32_norm. apply (u32_cong (8 - 8 * v)). lia.
  - repeat case_bool_decide; done || lia.
Qed.
Lemma glue_parts_spec p0 p1 p2 :
  0 <= p0 < 2 ^ 28 → 0 <= p1 < 2 ^ 28 → 0 <= p2 →
  glue_parts p0 p1 p2 = u64 (p0 + 2 ^ 28 * p1 + 2 ^ 56 * p2).
Proof.
  intros H0 H1 H2. unfold glue_parts.
  assert (u64 (Z.shiftl p1 28) = Z.shiftl p1 28) as ->.
  { rewrite Z.shiftl_mul_pow2 by lia. apply u64_small. znorm. lia. }
  assert (u64 (Z.shiftl p2 56) = Z.shiftl (p2 mod 2 ^ 8) 56) as ->.
  { rewrite !Z.shiftl_mul_pow2 by lia. unfold u64.
    change (2 ^ 64) with (2 ^ 8 * 2 ^ 56). by rewrite Z.mul_mod_distr_r by lia. }
  pose proof (Z.mod_pos_bound p2 (2 ^ 8) ltac:(lia)).
  rewrite Z.lor_assoc, (lor_shiftl_add p0) by lia. rewrite lor_shiftl_add by lia.
  rewrite <- (u64_small (_ + _ * 2 ^ 56)) by (znorm; lia).
  apply (u64_cong (- (p2 / 2 ^ 8))).
  pose proof (Z.div_mod p2 (2 ^ 8)). lia.
Qed.
Ltac glue := rewrite ?Z.shiftl_mul_pow2 by lia; byte_facts; u32_exact; rewrite glue_parts_spec by lia; f_equal; first [lia | f_equal; lia].
Lemma ReadVarint64FromArray_ref l :
  ReadVarint64FromArray l = array_read_ref 10 u64 l.
Proof.
  unfold array_read_ref, ReadVarint64FromArray. cbv zeta.
  do 10 (unroll_byte; [glue|]).
  done.
Qed.

(** *** Streams over arrays *)

Lemma set_buffer_id s : set_buffer s (buffer_ s) = s.
Proof. by destruct s. Qed.

Lemma flat_set_buffer s b : flat s → zlen b <= zlen (buffer_ s) → flat (set_buffer s b).
Proof. unfold flat, BufferSize. simpl. intros (?&?&?&?) ?. repeat split; auto; lia. Qed.

Lemma flat_refresh s : flat s → Refresh s = (false, s).
Proof.
  intros (_ & Hl & _). unfold Refresh. pose proof (zlen_nonneg (after_limit_ s)).
  destruct (0 <? zlen (after_limit_ s)) eqn:E; [done|]. zbool.
  rewrite (proj2 (Z.eqb_eq (total_bytes_read_ s) (current_limit_ s))) by lia. done.
Qed.

Lemma refresh_until_nonempty_flat s :
  flat s → refresh_until_nonempty s = (match buffer_ s with [] => false | _ => true end, s).
Proof.
  intros F. unfold refresh_until_nonempty. destruct (buffer_ s) eqn:E; [|done].
  by rewrite flat_refresh.
Qed.

(** What a varint reader over an array answers: the reference value, reduced,
    with the buffer at the rest; or a failure somewhere further in the buffer. *)
Definition varint_result (conv : Z → Z) (s : CodedInputStream)
    (r : option Z * CodedInputStream) : Prop :=
  match varint_ref 10 (buffer_ s) with
  | Some (v, rest) => r = (Some (conv v), set_buffer s rest)
  | None => ∃ n, r = (None, set_buffer s (drop n (buffer_ s)))
  end.

Lemma read_varint64_slow_ref n count result s :
  flat s → Z.of_nat n + count = 10 → 0 <= count → 0 <= result < 2 ^ (7 * count) →
  read_varint64_slow n count result s =
    match varint_ref n (buffer_ s) with
    | Some (v, r) => (Some (u64 (result + v * 2 ^ (7 * count))), set_buffer s r)
    | None => (None, set_buffer s (drop n (buffer_ s)))
    end.
Proof.
  revert count result s. induction n as [|n IH]; intros count result s F Hn Hc Hr.
  { destruct s. by rewrite drop_0. }
  simpl. rewrite refresh_until_nonempty_flat by done.
  destruct (buffer_ s) as [|b rest] eqn:E.
  { destruct s. simpl in *. by subst. }
  simpl. rewrite is_last_spec, land_7f. pose proof (b2z_range b) as Hb.
  destruct (b2z b <? 128) eqn:Eb; zbool.
  - by rewrite lor_shiftl_add by lia.
  - rewrite lor_shiftl_add by lia.
    assert (Z.of_nat n = 0 ∨ count <= 8) as [Hz|Hc8] by lia.
    { assert (n = 0%nat) as -> by lia. simpl. by rewrite ?drop_0. }
    assert (H63 : 0 <= result + (b2z b - 128) * 2 ^ (7 * count) < 2 ^ (7 * (count + 1))).
    { replace (7 * (count + 1)) with (7 * count + 7) by lia.
      rewrite Z.pow_add_r by lia. nia. }
    assert (2 ^ (7 * (count + 1)) <= 2 ^ 63) by (apply Z.pow_le_mono_r; lia).
    rewrite u64_small by (znorm; lia).
    assert (flat (set_buffer s rest)) by (apply flat_set_buffer; [done|rewrite E, zlen_cons; lia]).
    rewrite IH by (done || lia). simpl.
    destruct (varint_ref n rest) as [[v r]|]; simpl; [|done].
    do 3 f_equal. replace (7 * (count + 1)) with (7 * count + 7) by lia.
    rewrite Z.pow_add_r by lia. lia.
Qed.

Lemma ReadVarint64Slow_ref s : flat s → varint_result u64 s (ReadVarint64Slow s).
Proof.
  intros F. unfold varint_result, ReadVarint64Slow, kMaxVarintBytes.
  rewrite read_varint64_slow_ref by (done || lia).
  destruct (varint_ref 10 _) as [[v r]|]; [|by eexists].
  do 3 f_equal. lia.
Qed.

Lemma ReadVarint64Fallback_ref s : flat s → varint_result u64 s (ReadVarint64Fallback s).
Proof.
  intros F. unfold ReadVarint64Fallback. destruct (fast_path_safe s); [|by apply ReadVarint64Slow_ref].
  rewrite ReadVarint64FromArray_ref. unfold array_read_ref, varint_result.
  destruct (varint_ref 10 _) as [[v r]|]; [done|].
  exists 0%nat. rewrite drop_0, set_buffer_id. by case_bool_decide.
Qed.

Lemma u64_byte b : u64 (b2z b) = b2z b.
Proof. pose proof (b2z_range b). apply u64_small. znorm. lia. Qed.

Lemma u32_byte b : u32 (b2z b) = b2z b.
Proof. pose proof (b2z_range b). apply u32_small. znorm. lia. Qed.

(** A one-byte varint is the byte. *)
Lemma varint_ref_one n b r : b2z b < 128 → varint_ref (S n) (b :: r) = Some (b2z b, r).
Proof. intros H. simpl. by zdec. Qed.

Lemma ReadVarint64_ref s : flat s → varint_result u64 s (ReadVarint64 s).
Proof.
  intros F. unfold ReadVarint64. destruct (buffer_ s) as [|b r] eqn:E.
  { by apply ReadVarint64Fallback_ref. }
  destruct (b2z b <? 128) eqn:Eb; [|by apply ReadVarint64Fallback_ref]. zbool.
  unfold varint_result. rewrite E, varint_ref_one by done. by rewrite u64_byte.
Qed.

Lemma ReadVarint32Fallback_ref b r s :
  flat s → buffer_ s = b :: r → 128 <= b2z b →
  varint_result u32 s (ReadVarint32Fallback (b2z b) s).
Proof.
  intros F E Hb. unfold ReadVarint32Fallback, ReadVarint32Slow.
  destruct (fast_path_safe s).
  - unfold varint_result. rewrite E, ReadVarint32FromArray_ref by done.
    unfold array_read_ref. destruct (varint_ref 10 _) as [[v k]|]; [done|].
    exists 0%nat. rewrite drop_0, <- E, set_buffer_id. by case_bool_decide.
  - pose proof (ReadVarint64Fallback_ref s F) as H. unfold varint_result in *.
    destruct (varint_ref 10 _) as [[v k]|].
    + rewrite H. simpl. by rewrite u32_u64.
    + destruct H as [n ->]. by eexists.
Qed.

Lemma ReadVarint32_ref s : flat s → varint_result u32 s (ReadVarint32 s).
Proof.
  intros F. unfold ReadVarint32. destruct (buffer_ s) as [|b r] eqn:E.
  - unfold ReadVarint32Fallback, ReadVarint32Slow, fast_path_safe, BufferSize. rewrite E. simpl.
    pose proof (ReadVarint64Fallback_ref s F) as H. unfold varint_result in *. rewrite E in *.
    simpl in *. destruct H as [n ->]. by eexists.
  - destruct (b2z b <? 128) eqn:Eb; zbool.
    + unfold varint_result. rewrite E, varint_ref_one by done. by rewrite u32_byte.
    + by eapply ReadVarint32Fallback_ref.
Qed.
End VarintReaders.

(** ** Encoding and decoding are inverse *)

Section VarintWriters.
Import CodedOutput CodedInput.

Lemma lor_1 q : 0 <= q → Z.lor q 1 = 2 * (q / 2) + 1.
Proof.
  intros Hq. rewrite Z.lor_comm. pose proof (Z.div_mod q 2 ltac:(lia)) as E.
  pose proof (Z.mod_pos_bound q 2 ltac:(lia)).
  assert (Hd : 0 <= q / 2) by (apply Z.div_pos; lia).
  assert (q = Z.lor (q mod 2) (Z.shiftl (q / 2) 1)) as Eq.
  { rewrite lor_shiftl_add by lia. lia. }
  rewrite Eq at 1. rewrite Z.lor_assoc.
  assert (Z.lor 1 (q mod 2) = 1) as ->.
  { assert (q mod 2 = 0 ∨ q mod 2 = 1) as [-> | ->] by lia; done. }
  rewrite lor_shiftl_add by lia. lia.
Qed.

(** The continuation byte: the low seven bits with the top bit set. *)
Lemma continuation_byte v : 0 <= v → b2z (z2b (Z.lor v 0x80)) = v mod 128 + 128.
Proof.
  intros Hv. rewrite b2z_z2b. pose proof (Z.div_mod v 128 ltac:(lia)) as E.
  pose proof (Z.mod_pos_bound v 128 ltac:(lia)) as Hm.
  assert (Hq : 0 <= v / 128) by (apply Z.div_pos; lia).
  assert (Z.lor v 0x80 = v mod 128 + 128 * (2 * (v / 128 / 2) + 1)) as ->.
  { assert (v = Z.lor (v mod 128) (Z.shiftl (v / 128) 7)) as Ev.
    { rewrite lor_shiftl_add by lia. lia. }
    change (Z.lor v 0x80) with (Z.lor v (Z.shiftl 1 7)). rewrite Ev at 1.
    rewrite <- Z.lor_assoc, <- Z.shiftl_lor, lor_1 by lia.
    rewrite lor_shiftl_add; try lia. 
    assert (0 <= v / 128 / 2) by (apply Z.div_pos; lia). lia. }
  replace (v mod 128 + 128 * (2 * (v / 128 / 2) + 1))
    with (v mod 128 + 128 + (v / 128 / 2) * 256) by lia.
  rewrite Z_mod_plus_full. apply Z.mod_small. lia.
Qed.

(** [m] bytes are enough for a value below [128 ^ m]. *)
Lemma varint_ref_write m k fuel v r :
  (1 <= m)%nat → (m <= S k)%nat → (m <= fuel)%nat → 0 <= v < 128 ^ Z.of_nat m →
  varint_ref fuel (write_varint k v ++ r) = Some (v, r).
Proof.
  revert k fuel v. induction m as [|m IH]; intros k fuel v Hm Hk Hf Hv; [lia|].
  destruct fuel as [|fuel]; [lia|].
  assert (Hshort : v < 128 → varint_ref (S fuel) (z2b v :: r) = Some (v, r)).
  { intros ?. rewrite varint_ref_one; rewrite b2z_z2b_small; done || lia. }
  destruct k as [|k]; simpl write_varint.
  - apply Hshort. assert (m = 0%nat) as -> by lia. simpl in Hv. lia.
  - destruct (v >=? 128) eqn:E; zbool; [|apply Hshort; lia].
    cbn [app varint_ref]. rewrite continuation_byte by lia.
    pose proof (Z.mod_pos_bound v 128 ltac:(lia)). zdec.
    rewrite Z.shiftr_div_pow2 by lia. change (2 ^ 7) with 128.
    destruct m as [|m]; [simpl in Hv; lia|].
    rewrite IH; [|lia|lia|lia|].
    + simpl. do 2 f_equal. pose proof (Z.div_mod v 128). lia.
    + split; [apply Z.div_pos; lia|]. apply Z.div_lt_upper_bound; [lia|].
      rewrite (Nat2Z.inj_succ (S m)), Z.pow_succ_r in Hv by lia. lia.
Qed.

Lemma varint_ref_write32 v r : is_u32 v → varint_ref 10 (WriteVarint32ToArray v ++ r) = Some (v, r).
Proof. intros H. apply (varint_ref_write 5); znorm; simpl; lia. Qed.

Lemma varint_ref_write64 v r : is_u64 v → varint_ref 10 (WriteVarint64ToArray v ++ r) = Some (v, r).
Proof. intros H. apply (varint_ref_write 10); znorm; simpl; lia. Qed.

(** *** Sizes *)

Lemma log2_lor_1 v : 0 < v → Z.log2 (Z.lor v 1) = Z.log2 v.
Proof.
  intros Hv. rewrite Z.log2_lor by lia. pose proof (Z.log2_nonneg v).
  change (Z.log2 1) with 0. lia.
Qed.

Lemma write_varint_length k v :
  0 <= v < 128 ^ (Z.of_nat k + 1) → zlen (write_varint k v) = Z.log2 (Z.lor v 1) / 7 + 1.
Proof.
  revert v. induction k as [|k IH]; intros v Hv.
  - simpl in Hv. simpl. rewrite zlen_cons, zlen_nil.
    assert (Z.log2 (Z.lor v 1) < 7).
    { destruct (Z.eq_dec v 0) as [->|]; [done|]. rewrite log2_lor_1 by lia. apply Z.log2_lt_pow2; lia. }
    pose proof (Z.log2_nonneg (Z.lor v 1)). rewrite Z.div_small; lia.
  - simpl. destruct (v >=? 128) eqn:E; zbool; rewrite zlen_cons.
    + assert (0 < Z.shiftr v 7) by (rewrite Z.shiftr_div_pow2 by lia; apply Z.div_str_pos; lia).
      rewrite IH.
      * rewrite !log2_lor_1 by lia. rewrite Z.log2_shiftr by lia.
        assert (7 <= Z.log2 v) by (apply Z.log2_le_pow2; lia).
        rewrite Z.max_r by lia.
        replace (Z.log2 v) with (Z.log2 v - 7 + 1 * 7) at 2 by lia. rewrite Z.div_add by lia. lia.
      * split; [lia|]. rewrite Z.shiftr_div_pow2 by lia. apply Z.div_lt_upper_bound; [lia|].
        replace (Z.of_nat (S k) + 1) with (Z.succ (Z.of_nat k + 1)) in Hv by lia.
        rewrite Z.pow_succ_r in Hv by lia. lia.
    + rewrite zlen_nil. assert (Z.log2 (Z.lor v 1) < 7).
      { destruct (Z.eq_dec v 0) as [->|]; [done|]. rewrite log2_lor_1 by lia. apply Z.log2_lt_pow2; lia. }
      pose proof (Z.log2_nonneg (Z.lor v 1)). rewrite Z.div_small; lia.
Qed.

(** The multiplication that replaces the division by seven. *)
Lemma size_formula n : 0 <= n <= 63 → (n * 9 + 73) / 64 = n / 7 + 1.
Proof.
  intros Hn.
  assert (Hall : forallb (λ n, (n * 9 + 73) / 64 =? n / 7 + 1) (seqZ 0 64) = true)
    by (vm_compute; reflexivity).
  rewrite forallb_forall in Hall. apply Z.eqb_eq, Hall, list_elem_of_In, elem_of_seqZ. lia.
Qed.

Lemma log2_lor_1_bound v n : 0 < n → 0 <= v < 2 ^ n → 0 <= Z.log2 (Z.lor v 1) < n.
Proof.
  intros Hn Hv. split; [apply Z.log2_nonneg|].
  destruct (Z.eq_dec v 0) as [->|]; [done|]. rewrite log2_lor_1 by lia. apply Z.log2_lt_pow2; lia.
Qed.

Lemma VarintSize32_length v : is_u32 v → VarintSize32 v = zlen (WriteVarint32ToArray v).
Proof.
  intros H. unfold VarintSize32, WriteVarint32ToArray.
  rewrite write_varint_length by (znorm; simpl; lia).
  apply size_formula. pose proof (log2_lor_1_bound v 32). znorm. lia.
Qed.

Lemma VarintSize64_length v : is_u64 v → VarintSize64 v = zlen (WriteVarint64ToArray v).
Proof.
  intros H. unfold VarintSize64, WriteVarint64ToArray.
  rewrite write_varint_length by (znorm; simpl; lia).
  apply size_formula. pose proof (log2_lor_1_bound v 64). znorm. lia.
Qed.

Lemma write_varint_nonempty k v : write_varint k v ≠ [].
Proof. destruct k; simpl; [done|]. by case_match. Qed.

(** For small values the encoder does not care how much room it is given. *)
Lemma write_varint_more k k' v :
  0 <= v < 128 ^ (Z.of_nat k + 1) → (k <= k')%nat → write_varint k' v = write_varint k v.
Proof.
  revert k' v. induction k as [|k IH]; intros k' v Hv Hk.
  - destruct k'; [done|]. simpl in *. by rewrite Z.geb_leb, (proj2 (Z.leb_gt 128 v)) by lia.
  - destruct k' as [|k']; [lia|]. simpl. destruct (v >=? 128) eqn:E; [|done]. zbool. f_equal.
    apply IH; [|lia]. rewrite Z.shiftr_div_pow2 by lia. split; [apply Z.div_pos; lia|].
    apply Z.div_lt_upper_bound; [lia|].
    replace (Z.of_nat (S k) + 1) with (Z.succ (Z.of_nat k + 1)) in Hv by lia.
    rewrite Z.pow_succ_r in Hv by lia. lia.
Qed.

Lemma VarintSize32SignExtended_length v :
  is_s32 v → VarintSize32SignExtended v = zlen (WriteVarint32SignExtendedToArray v).
Proof.
  intros H. unfold VarintSize32SignExtended, WriteVarint32SignExtendedToArray.
  destruct (v <? 0) eqn:E; zbool.
  - assert (u64 v = v + 2 ^ 64) as ->.
    { rewrite <- (u64_small (v + 2 ^ 64)) by (znorm; lia). apply (u64_cong (-1)). lia. }
    unfold WriteVarint64ToArray. rewrite write_varint_length by (znorm; simpl; lia).
    znorm. assert (Z.log2 (v + 2 ^ 64) = 63) as Hl by (apply Z.log2_unique; lia).
    rewrite log2_lor_1 by lia. by rewrite Hl.
  - assert (Hv : is_u32 v) by (znorm; lia).
    rewrite u32_small by done. rewrite VarintSize32_length by done.
    rewrite u64_small by (znorm; lia). unfold WriteVarint32ToArray, WriteVarint64ToArray.
    by rewrite (write_varint_more 5 10) by (znorm; simpl; lia).
Qed.

(** *** Fixed-width integers *)

Lemma le32_roundtrip v : is_u32 v → ReadLittleEndian32FromArray (WriteLittleEndian32ToArray v) = v.
Proof.
  intros H. unfold ReadLittleEndian32FromArray, WriteLittleEndian32ToArray. rewrite !b2z_z2b.
  rewrite !Z.shiftr_div_pow2 by lia. znorm.
  change (2 ^ 8) with 256. change (2 ^ 16) with (256 * 256). change (2 ^ 24) with (256 * 256 * 256).
  rewrite <- !Z.div_div by lia.
  set (q1 := v / 256). set (q2 := q1 / 256). set (q3 := q2 / 256).
  pose proof (Z.div_mod v 256 ltac:(lia)). pose proof (Z.div_mod q1 256 ltac:(lia)).
  pose proof (Z.div_mod q2 256 ltac:(lia)).
  pose proof (Z.mod_pos_bound v 256). pose proof (Z.mod_pos_bound q1 256).
  pose proof (Z.mod_pos_bound q2 256).
  rewrite (Z.mod_small q3 256) by lia.
  change 24 with (8 + 8 + 8). change 16 with (8 + 8).
  rewrite <- !Z.shiftl_shiftl by lia.
  rewrite <- !Z.shiftl_lor by lia.
  rewrite (lor_shiftl_add (q2 mod 256)) by lia. rewrite (lor_shiftl_add (q1 mod 256)) by lia.
  rewrite lor_shiftl_add by lia. lia.
Qed.

Lemma le32_app v r :
  ReadLittleEndian32FromArray (WriteLittleEndian32ToArray v ++ r)
  = ReadLittleEndian32FromArray (WriteLittleEndian32ToArray v).
Proof. done. Qed.

End VarintWriters.

(** ** Reading from an array *)

Section FlatStreams.
Import CodedOutput CodedInput.

(** A successful read only moves the buffer pointer (and the tag bookkeeping). *)
Definition advances (s s' : CodedInputStream) : Prop :=
  ∃ n, buffer_ s' = drop n (buffer_ s) ∧ after_limit_ s' = after_limit_ s ∧
    input_ s' = input_ s ∧ total_bytes_read_ s' = total_bytes_read_ s ∧
    current_limit_ s' = current_limit_ s ∧ recursion_budget_ s' = recursion_budget_ s.

#[global] Instance advances_refl : Reflexive advances.
Proof. intros s. exists 0%nat. rewrite drop_0. done. Qed.

#[global] Instance advances_trans : Transitive advances.
Proof.
  intros a b c (n & ? & ? & ? & ? & ? & ?) (m & ? & ? & ? & ? & ? & ?).
  exists (n + m)%nat. rewrite <- drop_drop. repeat split; congruence.
Qed.

Lemma advances_flat s s' : advances s s' → flat s → flat s'.
Proof.
  intros (n & Hb & Ha & Hi & Ht & Hl & _) (F1 & F2 & F3 & F4).
  unfold flat, BufferSize in *. rewrite Hb, Ha, Hi, Ht, Hl.
  assert (zlen (drop n (buffer_ s)) <= zlen (buffer_ s)) by (unfold zlen; rewrite length_drop; lia).
  repeat split; auto; lia.
Qed.

Lemma advances_length s s' : advances s s' → (length (buffer_ s') ≤ length (buffer_ s))%nat.
Proof. intros (n & -> & _). rewrite length_drop. lia. Qed.

Lemma advances_set_buffer s b : (∃ n, b = drop n (buffer_ s)) → advances s (set_buffer s b).
Proof. intros [n ->]. by exists n. Qed.

Lemma advances_app s k b : buffer_ s = k ++ b → advances s (set_buffer s b).
Proof. intros E. apply advances_set_buffer. exists (length k). by rewrite E, drop_app_length. Qed.

Lemma varint_ref_suffix n l v r : varint_ref n l = Some (v, r) → ∃ k, (1 <= k)%nat ∧ r = drop k l ∧ (k <= length l)%nat.
Proof.
  revert l v r. induction n as [|n IH]; intros [|b l] v r; simpl; try done.
  case_match; intros H'.
  - simplify_eq. exists 1%nat. repeat split; [lia|lia].
  - destruct (varint_ref n l) as [[v' r']|] eqn:E; simplify_eq/=.
    apply IH in E as (k & ? & -> & ?). exists (S k). repeat split; simpl; lia.
Qed.

Lemma varint_result_advances conv s r : varint_result conv s r → advances s (snd r).
Proof.
  unfold varint_result. destruct (varint_ref _ _) as [[v k]|] eqn:E.
  - intros ->. apply varint_ref_suffix in E as (n & ? & -> & ?). apply advances_set_buffer. by eexists.
  - intros [n ->]. apply advances_set_buffer. by eexists.
Qed.

Lemma varint_result_app conv s r v k :
  varint_result conv s r → varint_ref 10 (buffer_ s) = Some (v, k) → r = (Some (conv v), set_buffer s k).
Proof. unfold varint_result. intros H E. by rewrite E in H. Qed.

Lemma ReadVarint32_write s v r :
  flat s → is_u32 v → buffer_ s = WriteVarint32ToArray v ++ r → ReadVarint32 s = (Some v, set_buffer s r).
Proof.
  intros F Hv E. rewrite (varint_result_app u32 s _ v r).
  - by rewrite u32_small.
  - by apply ReadVarint32_ref.
  - rewrite E. by apply varint_ref_write32.
Qed.

Lemma ReadVarint64_write s v r :
  flat s → is_u64 v → buffer_ s = WriteVarint64ToArray v ++ r → ReadVarint64 s = (Some v, set_buffer s r).
Proof.
  intros F Hv E. rewrite (varint_result_app u64 s _ v r).
  - by rewrite u64_small.
  - by apply ReadVarint64_ref.
  - rewrite E. by apply varint_ref_write64.
Qed.

(** A sign-extended [int32] read back by the 32-bit reader. *)
Lemma ReadVarint32_write_signed s v r :
  flat s → is_s32 v → buffer_ s = WriteVarint32SignExtendedToArray v ++ r →
  ReadVarint32 s = (Some (u32 v), set_buffer s r).
Proof.
  intros F Hv E. rewrite (varint_result_app u32 s _ (u64 v) r).
  - by rewrite u32_u64.
  - by apply ReadVarint32_ref.
  - rewrite E. apply varint_ref_write64, u64_range.
Qed.

(** The size reader agrees with the 64-bit reader up to [INT_MAX]. *)
Lemma ReadVarintSizeAsInt_ref s :
  flat s →
  match varint_ref 10 (buffer_ s) with
  | Some (v, rest) =>
      if INT_MAX <? u64 v then ∃ s', ReadVarintSizeAsInt s = (None, s')
      else ReadVarintSizeAsInt s = (Some (u64 v), set_buffer s rest)
  | None => ∃ s', ReadVarintSizeAsInt s = (None, s')
  end.
Proof.
  intros F. unfold ReadVarintSizeAsInt.
  assert (Hfb : match varint_ref 10 (buffer_ s) with
    | Some (v, rest) =>
      if INT_MAX <? u64 v then ∃ s', ReadVarintSizeAsIntFallback s = (None, s')
      else ReadVarintSizeAsIntFallback s = (Some (u64 v), set_buffer s rest)
    | None => ∃ s', ReadVarintSizeAsIntFallback s = (None, s') end).
  { unfold ReadVarintSizeAsIntFallback. destruct (fast_path_safe s).
    - rewrite ReadVarint64FromArray_ref. unfold array_read_ref.
      destruct (varint_ref 10 _) as [[v r]|].
      + destruct (INT_MAX <? u64 v); [by eexists|done].
      + exists s. by case_bool_decide.
    - pose proof (ReadVarint64Fallback_ref s F) as H. unfold varint_result in H.
      destruct (varint_ref 10 _) as [[v r]|].
      + rewrite H. destruct (INT_MAX <? u64 v); [by eexists|done].
      + destruct H as [n ->]. by eexists. }
  destruct (buffer_ s) as [|b r] eqn:E; [exact Hfb|].
  destruct (b2z b <? 128) eqn:Eb; [|exact Hfb]. zbool.
  rewrite varint_ref_one, u64_byte by done. pose proof (b2z_range b). znorm. by zdec.
Qed.

Lemma ReadVarintSizeAsInt_write s v r :
  flat s → 0 <= v <= INT_MAX → buffer_ s = WriteVarint32ToArray v ++ r →
  ReadVarintSizeAsInt s = (Some v, set_buffer s r).
Proof.
  intros F Hv E. pose proof (ReadVarintSizeAsInt_ref s F) as H.
  rewrite E, varint_ref_write32 in H by (znorm; lia).
  rewrite u64_small in H by (znorm; lia). by rewrite (proj2 (Z.ltb_ge _ _)) in H by lia.
Qed.

Lemma ReadVarintSizeAsInt_advances s v s' :
  flat s → ReadVarintSizeAsInt s = (Some v, s') → advances s s' ∧ 0 <= v <= INT_MAX.
Proof.
  intros F. pose proof (ReadVarintSizeAsInt_ref s F) as H. intros E. rewrite E in H.
  destruct (varint_ref 10 _) as [[w r]|] eqn:Er; [|by destruct H].
  destruct (INT_MAX <? u64 w) eqn:Ei; [by destruct H|]. simplify_eq. zbool.
  apply varint_ref_suffix in Er as (n & _ & -> & _). split.
  - apply advances_set_buffer. by eexists.
  - pose proof (u64_range w). znorm. lia.
Qed.

(** *** Raw bytes and fixed-width integers *)

Lemma ReadRaw_flat s n :
  flat s → 0 <= n →
  ReadRaw n s = if n <=? BufferSize s
                then (true, take (Z.to_nat n) (buffer_ s), Advance n s)
                else (false, buffer_ s, set_buffer s []).
Proof.
  intros F Hn. unfold ReadRaw. rewrite Nat.add_comm. simpl.
  destruct (n <=? BufferSize s) eqn:E; zbool.
  - by rewrite (proj2 (Z.ltb_ge _ _)) by lia.
  - rewrite (proj2 (Z.ltb_lt _ _)) by lia. rewrite flat_refresh; [done|].
    apply flat_set_buffer; [done|]. rewrite zlen_nil. apply zlen_nonneg.
Qed.

Lemma ReadRaw_app s k r :
  flat s → buffer_ s = k ++ r → ReadRaw (zlen k) s = (true, k, set_buffer s r).
Proof.
  intros F E. rewrite ReadRaw_flat by (done || apply zlen_nonneg). unfold BufferSize, Advance.
  rewrite E, zlen_app. pose proof (zlen_nonneg r). rewrite (proj2 (Z.leb_le _ _)) by lia.
  by rewrite take_zlen_app, drop_zlen_app.
Qed.

Lemma ReadLittleEndian32_write s v r :
  flat s → is_u32 v → buffer_ s = WriteLittleEndian32ToArray v ++ r →
  ReadLittleEndian32 s = (Some v, set_buffer s r).
Proof.
  intros F Hv E. unfold ReadLittleEndian32, BufferSize, Advance. rewrite E, zlen_app.
  change (zlen (WriteLittleEndian32ToArray v)) with 4. pose proof (zlen_nonneg r).
  rewrite (proj2 (Z.leb_le _ _)) by lia. by rewrite le32_app, le32_roundtrip.
Qed.

Lemma ReadRaw_advances s n ok k s' :
  flat s → 0 <= n → ReadRaw n s = (ok, k, s') → advances s s'.
Proof.
  intros F Hn. rewrite ReadRaw_flat by done. case_match; intros; simplify_eq.
  - apply advances_set_buffer. by eexists.
  - apply advances_set_buffer. exists (length (buffer_ s)). by rewrite drop_all.
Qed.

Lemma ReadLittleEndian32_advances s r s' : flat s → ReadLittleEndian32 s = (r, s') → advances s s'.
Proof.
  intros F. unfold ReadLittleEndian32. case_match.
  - intros. simplify_eq. apply advances_set_buffer. by eexists.
  - destruct (ReadRaw 4 s) as [[ok raw] s1] eqn:E. apply ReadRaw_advances in E; [|done|lia].
    case_match; intros; by simplify_eq.
Qed.

Lemma ReadLittleEndian64_advances s r s' : flat s → ReadLittleEndian64 s = (r, s') → advances s s'.
Proof.
  intros F. unfold ReadLittleEndian64. case_match.
  - intros. simplify_eq. apply advances_set_buffer. by eexists.
  - destruct (ReadRaw 8 s) as [[ok raw] s1] eqn:E. apply ReadRaw_advances in E; [|done|lia].
    case_match; intros; by simplify_eq.
Qed.

(** *** Tags *)

(** A one-byte tag of a known field. *)
Lemma ReadTag_one_byte s t r :
  0 < t < 128 → buffer_ s = z2b t :: r → ReadTagWithCutoffNoLastTag 127 s = (t, true, set_buffer s r).
Proof.
  intros Ht E. unfold ReadTagWithCutoffNoLastTag. rewrite E.
  assert (b2z (z2b t) = t) as Et by (apply b2z_z2b_small; lia).
  assert (b2s (z2b t) = t) as Es. { unfold b2s. rewrite Et. by zdec. }
  rewrite Es, Et. by zdec.
Qed.

(** The slow tag readers on a multi-byte tag: the reference decoder again. *)
Lemma ReadTagFallback_ref s b r :
  flat s → buffer_ s = b :: r → 128 <= b2z b →
  match varint_ref 10 (buffer_ s) with
  | Some (v, k) => ReadTagFallback (b2z b) s = (u32 v, set_buffer s k)
  | None => ∃ n, ReadTagFallback (b2z b) s = (0, set_buffer s (drop n (buffer_ s)))
  end.
Proof.
  intros F E Hb. unfold ReadTagFallback. rewrite (proj2 (Z.eqb_neq (b2z b) 0)) by lia.
  destruct (fast_path_safe s).
  - rewrite E, ReadVarint32FromArray_ref by done. unfold array_read_ref.
    destruct (varint_ref 10 _) as [[v k]|]; [done|]. exists 0%nat.
    rewrite drop_0, <- E, set_buffer_id. by case_bool_decide.
  - assert ((BufferSize s =? 0) = false) as ->.
    { unfold BufferSize. rewrite E, zlen_cons. pose proof (zlen_nonneg r). apply Z.eqb_neq. lia. }
    cbn [andb]. unfold ReadTagSlow.
    assert (match buffer_ s with [] => Refresh s | _ => (true, s) end = (true, s)) as -> by by rewrite E.
    pose proof (ReadVarint64_ref s F) as H. unfold varint_result in H.
    destruct (varint_ref 10 _) as [[v k]|].
    + rewrite H. by rewrite u32_u64.
    + destruct H as [n H]. exists n. by rewrite H.
Qed.

(** A zero byte is read as the tag 0. *)
Lemma ReadTagFallback_zero s b r :
  flat s → buffer_ s = b :: r → b2z b = 0 → ReadTagFallback 0 s = (0, set_buffer s r).
Proof.
  intros F E Hb. unfold ReadTagFallback. destruct (fast_path_safe s).
  - simpl. unfold Advance. by rewrite E.
  - assert ((BufferSize s =? 0) = false) as ->.
    { unfold BufferSize. rewrite E, zlen_cons. pose proof (zlen_nonneg r). apply Z.eqb_neq. lia. }
    cbn [andb]. unfold ReadTagSlow. rewrite E. rewrite (varint_result_app u64 s _ 0 r).
    + done.
    + by apply ReadVarint64_ref.
    + rewrite E, varint_ref_one by lia. by rewrite Hb.
Qed.

(** Every read of a nonzero tag consumes at least one byte. *)
Definition tag_read (s : CodedInputStream) (t : Z) (s' : CodedInputStream) : Prop :=
  advances s s' ∧ (t ≠ 0 → (length (buffer_ s') < length (buffer_ s))%nat).

Lemma tag_read_drop s t n :
  buffer_ s ≠ [] → (1 <= n)%nat → tag_read s t (set_buffer s (drop n (buffer_ s))).
Proof.
  intros Hn H1. split; [apply advances_set_buffer; by eexists|]. intros _. simpl.
  rewrite length_drop. destruct (buffer_ s); [done|]. simpl. lia.
Qed.

Lemma ReadTagFallback_progress s b r t s' :
  flat s → buffer_ s = b :: r → 128 <= b2z b → ReadTagFallback (b2z b) s = (t, s') → tag_read s t s'.
Proof.
  intros F E Hb Ht. pose proof (ReadTagFallback_ref s b r F E Hb) as H.
  destruct (varint_ref 10 _) as [[v k]|] eqn:Er.
  - apply varint_ref_suffix in Er as (n & ? & -> & ?). rewrite Ht in H. simplify_eq.
    apply tag_read_drop; [by rewrite E|done].
  - destruct H as [n H]. rewrite Ht in H. simplify_eq. split; [|done].
    apply advances_set_buffer. by eexists.
Qed.

Lemma ReadTag_end_fallback s :
  flat s → buffer_ s = [] → ReadTagFallback 0 s = (0, set_legitimate s true).
Proof.
  intros (_ & Hl & Hb & Ht) E. unfold ReadTagFallback, fast_path_safe, BufferSize.
  rewrite E. simpl. pose proof (zlen_nonneg (after_limit_ s)).
  assert (((0 <? zlen (after_limit_ s)) || (total_bytes_read_ s =? current_limit_ s)) = true) as ->.
  { rewrite Hl. destruct (0 <? zlen (after_limit_ s)) eqn:?; [done|]. zbool. apply Z.eqb_eq. lia. }
  unfold total_bytes_limit_. rewrite (proj2 (Z.ltb_lt _ _)) by lia. done.
Qed.

Lemma advances_legitimate s b : advances s (set_legitimate s b).
Proof. exists 0%nat. by rewrite drop_0. Qed.

Lemma advances_last_tag s t : advances s (set_last_tag s t).
Proof. exists 0%nat. by rewrite drop_0. Qed.

Lemma b2s_pos b : (0 <? b2s b) = (0 <? b2z b) && (b2z b <? 128).
Proof. destruct b; reflexivity. Qed.

Lemma ReadTagWithCutoff_progress s t known s' :
  flat s → ReadTagWithCutoffNoLastTag 127 s = (t, known, s') →
  tag_read s t s' ∧ (known = true → t ≠ 0).
Proof.
  intros F. unfold ReadTagWithCutoffNoLastTag.
  assert (Hk : ∀ t, (u32 (t - 1) <? 127) = true → t ≠ 0).
  { intros ? H ->. vm_compute in H. discriminate. }
  destruct (buffer_ s) as [|b r] eqn:E.
  - rewrite ReadTag_end_fallback by done. intros [= <- <- <-]. split; [|apply Hk].
    split; [apply advances_legitimate|done].
  - rewrite b2s_pos. pose proof (b2z_range b) as Hr.
    destruct (0 <? b2z b) eqn:E0; destruct (b2z b <? 128) eqn:E1; zbool; try lia; simpl.
    + intros [= <- <- <-]. split; [|lia]. replace r with (drop 1 (buffer_ s)) by by rewrite E.
      apply tag_read_drop; [by rewrite E|done].
    + destruct (ReadTagFallback (b2z b) s) as [t0 s0] eqn:Ef.
      apply (ReadTagFallback_progress s b r) in Ef; [|done|done|lia].
      destruct r; intros [= <- <- <-]; (split; [done|apply Hk]).
    + assert (b2z b = 0) as Hb by lia. rewrite Hb, (ReadTagFallback_zero s b r) by done.
      assert (tag_read s 0 (set_buffer s r)).
      { replace r with (drop 1 (buffer_ s)) by by rewrite E. apply tag_read_drop; [by rewrite E|done]. }
      destruct r; intros [= <- <- <-]; (split; [done|apply Hk]).
Qed.

Lemma ReadTag_progress s t s' : flat s → ReadTag s = (t, s') → tag_read s t s'.
Proof.
  intros F. unfold ReadTag, ReadTagNoLastTag.
  assert (Hl : ∀ s1, tag_read s t s1 → tag_read s t (set_last_tag s1 t)).
  { intros s1 [Ha Hb]. split; [|done]. etransitivity; [exact Ha|apply advances_last_tag]. }
  destruct (buffer_ s) as [|b r] eqn:E.
  - rewrite ReadTag_end_fallback by done. intros [= <- <-]. apply Hl. split; [apply advances_legitimate|done].
  - destruct (b2z b <? 128) eqn:Eb; zbool.
    + intros [= <- <-]. apply Hl. replace r with (drop 1 (buffer_ s)) by by rewrite E.
      apply tag_read_drop; [by rewrite E|done].
    + destruct (ReadTagFallback _ s) as [t0 s0] eqn:Ef. intros [= <- <-]. apply Hl.
      by eapply ReadTagFallback_progress.
Qed.

(** A written tag of any length is read back by both tag readers. *)
Lemma ReadTagFallback_write s v b r' r :
  flat s → is_u32 v → buffer_ s = WriteVarint32ToArray v ++ r → buffer_ s = b :: r' → 128 <= b2z b →
  ReadTagFallback (b2z b) s = (v, set_buffer s r).
Proof.
  intros F Hv E Eb Hb. pose proof (ReadTagFallback_ref s b r' F Eb Hb) as H.
  rewrite E, varint_ref_write32 in H by done. by rewrite u32_small in H by done.
Qed.

(** The first byte of a short varint is its value. *)
Lemma write_varint_first s v b r r' :
  is_u32 v → buffer_ s = WriteVarint32ToArray v ++ r → buffer_ s = b :: r' → b2z b < 128 →
  v = b2z b ∧ r' = r.
Proof.
  intros Hv E Eb Hb. assert (varint_ref 10 (buffer_ s) = Some (v, r)) as H1.
  { rewrite E. by apply varint_ref_write32. }
  rewrite Eb, varint_ref_one in H1 by done. by simplify_eq.
Qed.

Lemma ReadTagWithCutoff_write s v r :
  flat s → is_u32 v → v ≠ 0 → buffer_ s = WriteVarint32ToArray v ++ r →
  ∃ known, ReadTagWithCutoffNoLastTag 127 s = (v, known, set_buffer s r).
Proof.
  intros F Hv Hz E. unfold ReadTagWithCutoffNoLastTag. destruct (buffer_ s) as [|b r'] eqn:Eb.
  { symmetry in E. apply app_eq_nil in E as [E _]. by apply write_varint_nonempty in E. }
  rewrite <- Eb in E. rewrite b2s_pos. pose proof (b2z_range b) as Hr.
  destruct (b2z b <? 128) eqn:E1; zbool.
  - destruct (write_varint_first s v b r r' Hv E Eb E1) as [-> ->].
    rewrite (proj2 (Z.ltb_lt 0 (b2z b))) by lia. simpl. by eexists.
  - rewrite andb_false_r. erewrite ReadTagFallback_write by (done || lia). destruct r'; by eexists.
Qed.

Lemma ReadTag_write s v r :
  flat s → is_u32 v → v ≠ 0 → buffer_ s = WriteVarint32ToArray v ++ r →
  ReadTag s = (v, set_last_tag (set_buffer s r) v).
Proof.
  intros F Hv Hz E. unfold ReadTag, ReadTagNoLastTag. destruct (buffer_ s) as [|b r'] eqn:Eb.
  { symmetry in E. apply app_eq_nil in E as [E _]. by apply write_varint_nonempty in E. }
  rewrite <- Eb in E. destruct (b2z b <? 128) eqn:E1; zbool.
  - by destruct (write_varint_first s v b r r' Hv E Eb E1) as [-> ->].
  - by erewrite ReadTagFallback_write by (done || lia).
Qed.

(** At the end of the array (or of the current limit) the message ends legitimately. *)
Lemma ReadTag_end s :
  flat s → buffer_ s = [] → ReadTagWithCutoffNoLastTag 127 s = (0, false, set_legitimate s true).
Proof.
  intros F E. unfold ReadTagWithCutoffNoLastTag. rewrite E. by rewrite ReadTag_end_fallback.
Qed.

(** *** Limits *)

(** A limit of the length of a prefix leaves exactly that prefix readable, and
    the stream flat. *)
Lemma PushLimit_app s k r :
  flat s → buffer_ s = k ++ r →
  ∃ s', PushLimit (zlen k) s = (current_limit_ s, s') ∧ flat s' ∧ buffer_ s' = k ∧
    after_limit_ s' = r ++ after_limit_ s ∧ total_bytes_read_ s' = total_bytes_read_ s ∧
    recursion_budget_ s' = recursion_budget_ s ∧ input_ s' = input_ s ∧
    last_tag_ s' = last_tag_ s.
Proof.
  intros (Hi & Hl & Hb & Ht) E. unfold PushLimit, CurrentPosition, BufferSize in *.
  rewrite E, zlen_app in *.
  pose proof (zlen_nonneg k). pose proof (zlen_nonneg r). pose proof (zlen_nonneg (after_limit_ s)).
  destruct (zlen k <? _) eqn:Ek; zbool.
  - rewrite !(proj2 (Z.leb_le _ _)) by lia. simpl. eexists. split; [done|].
    unfold RecomputeBufferLimits. simpl. rewrite E.
    rewrite Z.min_l by (unfold total_bytes_limit_; lia). rewrite (proj2 (Z.ltb_lt _ _)) by lia.
    rewrite <- app_assoc, take_zlen_app, drop_zlen_app by (rewrite !zlen_app; lia).
    repeat split; simpl; try done; unfold BufferSize; simpl; rewrite ?zlen_app; lia.
  - rewrite andb_false_r. exists s. assert (r = []) as -> by (apply zlen_zero; lia).
    rewrite app_nil_r in *. rewrite zlen_nil in *.
    repeat split; try done. unfold BufferSize. rewrite E. lia.
Qed.

(** Popping the limit gives the rest of the outer buffer back. *)
Lemma PopLimit_app s r a :
  input_ s = None → after_limit_ s = r ++ a → total_bytes_read_ s < INT_MAX →
  PopLimit (total_bytes_read_ s - zlen a) s =
    CIS (buffer_ s ++ r) a None (total_bytes_read_ s) (last_tag_ s) false
        (total_bytes_read_ s - zlen a) (recursion_budget_ s).
Proof.
  intros Hi Ha Ht. unfold PopLimit, RecomputeBufferLimits, set_legitimate. simpl. rewrite Hi, Ha.
  pose proof (zlen_nonneg a). rewrite Z.min_l by (unfold total_bytes_limit_; lia).
  assert ((if total_bytes_read_ s - zlen a <? total_bytes_read_ s
           then total_bytes_read_ s - (total_bytes_read_ s - zlen a) else 0) = zlen a) as ->.
  { case_match; zbool; lia. }
  rewrite app_assoc, (zlen_app (_ ++ _)).
  by rewrite take_zlen_app, drop_zlen_app by lia.
Qed.

(** *** Memory safety of the unchecked readers *)

Lemma varint_ref_last n l b :
  last l = Some b → b2z b < 128 → (length l <= n)%nat → varint_ref n l ≠ None.
Proof.
  revert n. induction l as [|c l IH]; intros n Hl Hb Hn; [done|].
  destruct n as [|n]; simpl in *; [lia|]. case_match; [done|]. zbool.
  destruct l as [|d l]; [simplify_eq/=; lia|].
  rewrite last_cons_cons in Hl. specialize (IH n Hl Hb ltac:(simpl in *; lia)).
  by destruct (varint_ref n _) as [[]|].
Qed.

Lemma array_read_ref_safe conv s :
  fast_path_safe s = true → buffer_ s ≠ [] → array_read_ref 10 conv (buffer_ s) ≠ OutOfBounds.
Proof.
  unfold fast_path_safe, array_read_ref, BufferSize, zlen. intros Hf Hn.
  destruct (varint_ref 10 _) as [[v r]|] eqn:E; [done|]. case_bool_decide as Hl; [done|].
  apply orb_true_iff in Hf as [Hf|Hf]; [zbool; lia|].
  destruct (last (buffer_ s)) as [b|] eqn:El; [|done]. rewrite is_last_spec in Hf. zbool.
  exfalso. apply (varint_ref_last 10 _ b El); [lia|lia|done].
Qed.

End FlatStreams.

(** ** Writing through blocks *)

Section OutputStreams.
Import CodedOutput.

(** [f] appends [b] to the stream, whatever room the current block has. *)
Definition emits (f : CodedOutputStream → CodedOutputStream) (b : bytes) : Prop :=
  ∀ o, 0 <= buffer_size_ o → 0 <= buffer_size_ (f o) ∧ written (f o) = written o ++ b.

Lemma emits_id : emits (λ o, o) [].
Proof. intros o ?. by rewrite app_nil_r. Qed.

Lemma emits_seq f g b c : emits f b → emits g c → emits (f >>> g) (b ++ c).
Proof.
  intros Hf Hg o Ho. destruct (Hf o Ho) as [H1 E1], (Hg _ H1) as [H2 E2].
  split; [done|]. unfold seq. by rewrite E2, E1, app_assoc.
Qed.

Lemma emits_when c f b : emits f b → emits (when c f) (opt_bytes c b).
Proof. destruct c; [done|]. intros _. apply emits_id. Qed.

Lemma write_raw_emits fuel data o :
  0 <= buffer_size_ o → (length data + (if (buffer_size_ o =? 0)%Z then 1 else 0) <= fuel)%nat →
  0 <= buffer_size_ (write_raw fuel data o) ∧ written (write_raw fuel data o) = written o ++ data.
Proof.
  revert data o. induction fuel as [|fuel IH]; intros data o Ho Hf; simpl.
  - assert (data = []) as -> by (destruct data; simpl in *; [done|lia]).
    change (zlen (@nil byte)) with 0. destruct (buffer_size_ o <? 0) eqn:E; zbool; [lia|].
    simpl. change (zlen (@nil byte)) with 0. split; [lia|done].
  - destruct (buffer_size_ o <? zlen data) eqn:E; zbool.
    + destruct (IH (drop (Z.to_nat (buffer_size_ o)) data)
        (COS (written o ++ take (Z.to_nat (buffer_size_ o)) data) kDefaultBlockSize)) as [H1 H2].
      * done.
      * simpl. rewrite length_drop. unfold zlen in E. destruct (buffer_size_ o =? 0) eqn:?; zbool; lia.
      * split; [done|]. rewrite H2. simpl. by rewrite <- app_assoc, take_drop.
    + simpl. split; [lia|done].
Qed.

Lemma WriteRaw_emits data : emits (WriteRaw data) data.
Proof.
  intros o Ho. apply write_raw_emits; [done|]. destruct (_ =? 0); lia.
Qed.

Lemma Advance_emits data o :
  zlen data <= buffer_size_ o →
  0 <= buffer_size_ (Advance data o) ∧ written (Advance data o) = written o ++ data.
Proof. intros. simpl. split; [lia|done]. Qed.

Lemma WriteLittleEndian32_emits v : emits (WriteLittleEndian32 v) (WriteLittleEndian32ToArray v).
Proof.
  intros o Ho. unfold WriteLittleEndian32. case_match; zbool; [by apply Advance_emits|by apply WriteRaw_emits].
Qed.

Lemma WriteLittleEndian64_emits v : emits (WriteLittleEndian64 v) (WriteLittleEndian64ToArray v).
Proof.
  intros o Ho. unfold WriteLittleEndian64. case_match; zbool; [by apply Advance_emits|by apply WriteRaw_emits].
Qed.

Lemma write_varint_bound k v : zlen (write_varint k v) <= Z.of_nat k + 1.
Proof.
  revert v. induction k as [|k IH]; intros v; simpl; [done|].
  case_match; autorewrite with wire; [|lia]. specialize (IH (Z.shiftr v 7)). lia.
Qed.

(** A value of [k] groups does not use the encoder's whole fuel. *)
Lemma write_varint_bound_small k v :
  0 <= v < 128 ^ (Z.of_nat k + 1) → zlen (write_varint (S k) v) <= Z.of_nat k + 1.
Proof.
  intros Hv. rewrite (write_varint_more k (S k)) by (done || lia). apply write_varint_bound.
Qed.

Lemma WriteVarint32_emits v : is_u32 v → emits (WriteVarint32 v) (WriteVarint32ToArray v).
Proof.
  intros Hv o Ho. unfold WriteVarint32. case_match; zbool; [|by apply WriteRaw_emits].
  apply Advance_emits. pose proof (write_varint_bound_small 4 v) as H'. znorm.
  unfold WriteVarint32ToArray. etransitivity; [apply H'; simpl; lia|]. simpl. lia.
Qed.

Lemma WriteVarint64_emits v : is_u64 v → emits (WriteVarint64 v) (WriteVarint64ToArray v).
Proof.
  intros Hv o Ho. unfold WriteVarint64. case_match; zbool; [|by apply WriteRaw_emits].
  apply Advance_emits. pose proof (write_varint_bound_small 9 v) as H'. znorm.
  unfold WriteVarint64ToArray. etransitivity; [apply H'; simpl; lia|]. simpl. lia.
Qed.

Lemma WriteVarint32SignExtended_emits v :
  emits (WriteVarint32SignExtended v) (WriteVarint32SignExtendedToArray v).
Proof. apply WriteVarint64_emits, u64_range. Qed.

End OutputStreams.

#[export] Hint Resolve emits_id WriteRaw_emits WriteLittleEndian32_emits WriteLittleEndian64_emits
  WriteVarint32_emits WriteVarint64_emits WriteVarint32SignExtended_emits : wire.

(** ** What the streams promise *)

Section StreamProperties.
Import CodedOutput CodedInput.

(** An encoded 32-bit varint is read back exactly, by whichever of the
    reader's paths the buffer selects, the buffer is left at the byte after it,
    and [VarintSize32] predicts the number of bytes written. *)
Theorem varint32_roundtrip s v r :
  flat s → is_u32 v → buffer_ s = WriteVarint32ToArray v ++ r →
  ReadVarint32 s = (Some v, set_buffer s r) ∧
  ReadVarint64 s = (Some v, set_buffer s r) ∧
  VarintSize32 v = zlen (WriteVarint32ToArray v).
Proof.
  intros F Hv E. split_and!.
  - by apply ReadVarint32_write.
  - rewrite (varint_result_app u64 s _ v r).
    + rewrite u64_small by (znorm; lia). done.
    + by apply ReadVarint64_ref.
    + rewrite E. by apply varint_ref_write32.
  - by apply VarintSize32_length.
Qed.

Lemma varint32_roundtrip_witness :
  ReadVarint32 (of_array (WriteVarint32ToArray 300 ++ [Byte.x07]))
  = (Some 300, set_buffer (of_array (WriteVarint32ToArray 300 ++ [Byte.x07])) [Byte.x07]).
Proof.
  apply (varint32_roundtrip (of_array (WriteVarint32ToArray 300 ++ [Byte.x07])) 300 [Byte.x07]).
  - vm_compute. repeat split; intros H; discriminate H.
  - vm_compute. split; [intros H; discriminate H|reflexivity].
  - reflexivity.
Defined.

(** An [int32] field value survives the ten-byte sign-extended encoding and
    the 32-bit reader, for every value including the negative ones, and
    [VarintSize32SignExtended] predicts the length. *)
Theorem int32_roundtrip s v r :
  flat s → is_s32 v → buffer_ s = WriteVarint32SignExtendedToArray v ++ r →
  ∃ u, ReadVarint32 s = (Some u, set_buffer s r) ∧ s32 u = v ∧
    VarintSize32SignExtended v = zlen (WriteVarint32SignExtendedToArray v).
Proof.
  intros F Hv E. exists (u32 v). split_and!.
  - by apply ReadVarint32_write_signed.
  - rewrite s32_u32. by apply s32_small.
  - by apply VarintSize32SignExtended_length.
Qed.

Lemma int32_roundtrip_witness :
  ∃ u, ReadVarint32 (of_array (WriteVarint32SignExtendedToArray (-5)))
       = (Some u, set_buffer (of_array (WriteVarint32SignExtendedToArray (-5))) []) ∧ s32 u = -5 ∧
    VarintSize32SignExtended (-5) = zlen (WriteVarint32SignExtendedToArray (-5)).
Proof.
  apply (int32_roundtrip (of_array (WriteVarint32SignExtendedToArray (-5))) (-5) []).
  - vm_compute. repeat split; intros H; discriminate H.
  - vm_compute. split; [intros H; discriminate H|reflexivity].
  - reflexivity.
Defined.

(** C30: the guard of the unrolled readers is enough: whenever ten bytes are in
    the buffer or its last byte ends a varint, neither the 64-bit nor the 32-bit
    reader dereferences a byte past [buffer_end_], whatever the bytes are. *)
Theorem unchecked_readers_in_bounds s b r :
  fast_path_safe s = true → buffer_ s = b :: r →
  ReadVarint64FromArray (buffer_ s) ≠ OutOfBounds ∧
  (128 <= b2z b → ReadVarint32FromArray (b2z b) (buffer_ s) ≠ OutOfBounds).
Proof.
  intros Hf E. assert (Hn : buffer_ s ≠ []) by by rewrite E. split.
  - rewrite ReadVarint64FromArray_ref. by apply array_read_ref_safe.
  - intros Hb. pose proof (array_read_ref_safe u32 s Hf Hn) as H.
    rewrite E in *. by rewrite ReadVarint32FromArray_ref.
Qed.

Lemma unchecked_readers_in_bounds_witness :
  ReadVarint64FromArray [Byte.xff; Byte.x01] ≠ OutOfBounds ∧
  (128 <= 255 → ReadVarint32FromArray 255 [Byte.xff; Byte.x01] ≠ OutOfBounds).
Proof.
  apply (unchecked_readers_in_bounds (of_array [Byte.xff; Byte.x01]) Byte.xff [Byte.x01]);
    reflexivity.
Defined.

(** On a stream over an array the optimised 64-bit reader (one-byte fast
    path, unrolled path, slow path) and the byte-at-a-time reader give the same
    answer, and on success leave the same stream. *)
Theorem fast_varint_is_slow_varint s :
  flat s →
  fst (ReadVarint64 s) = fst (ReadVarint64Slow s) ∧
  (is_Some (fst (ReadVarint64 s)) → ReadVarint64 s = ReadVarint64Slow s).
Proof.
  intros F. pose proof (ReadVarint64_ref s F) as H1. pose proof (ReadVarint64Slow_ref s F) as H2.
  unfold varint_result in *. destruct (varint_ref 10 _) as [[v r]|].
  - by rewrite H1, H2.
  - destruct H1 as [n ->], H2 as [m ->]. split; [done|]. by intros [? ?].
Qed.

Lemma fast_varint_is_slow_varint_witness :
  fst (ReadVarint64 (of_array [Byte.xac; Byte.x02])) = fst (ReadVarint64Slow (of_array [Byte.xac; Byte.x02])).
Proof.
  apply (fast_varint_is_slow_varint (of_array [Byte.xac; Byte.x02])).
  vm_compute. repeat split; intros H; discriminate H.
Defined.

(** Pushing a limit of the length of a prefix of an array stream hides all
    bytes after the prefix, and popping it after any reads inside restores the
    outer stream's unread bytes, limit and recursion budget. *)
Theorem limit_bracket s k r :
  flat s → buffer_ s = k ++ r →
  ∃ s1, PushLimit (zlen k) s = (current_limit_ s, s1) ∧ flat s1 ∧ buffer_ s1 = k ∧
    ∀ s2, advances s1 s2 →
      let s3 := PopLimit (current_limit_ s) s2 in
      flat s3 ∧ buffer_ s3 = buffer_ s2 ++ r ∧ after_limit_ s3 = after_limit_ s ∧
      current_limit_ s3 = current_limit_ s ∧ recursion_budget_ s3 = recursion_budget_ s.
Proof.
  intros F E. destruct (PushLimit_app s k r F E) as (s1 & HP & F1 & Hb & Ha & Ht & Hr & Hi & _).
  exists s1. split_and!; [done..|]. intros s2 (n & Hb2 & Ha2 & Hi2 & Ht2 & Hl2 & Hr2).
  destruct F as (G1 & G2 & G3 & G4). unfold BufferSize in G3. rewrite E, zlen_app in G3.
  assert (current_limit_ s = total_bytes_read_ s2 - zlen (after_limit_ s)) as -> by (rewrite Ht2, Ht; done).
  assert (zlen (buffer_ s2) <= zlen k).
  { rewrite Hb2, Hb. unfold zlen. rewrite length_drop. lia. }
  assert (input_ s2 = None) by congruence. assert (total_bytes_read_ s2 = total_bytes_read_ s) by congruence.
  cbv zeta. rewrite (PopLimit_app s2 r (after_limit_ s)) by (congruence || lia).
  unfold flat, BufferSize. simpl. rewrite zlen_app.
  repeat split; try congruence; try lia.
Qed.

Lemma limit_bracket_witness :
  ∃ s1, PushLimit (zlen (bs "ab")) (of_array (bs "abc")) = (3, s1) ∧ flat s1 ∧ buffer_ s1 = bs "ab" ∧
    ∀ s2, advances s1 s2 →
      let s3 := PopLimit 3 s2 in
      flat s3 ∧ buffer_ s3 = buffer_ s2 ++ bs "c" ∧ after_limit_ s3 = [] ∧
      current_limit_ s3 = 3 ∧ recursion_budget_ s3 = 100.
Proof.
  apply (limit_bracket (of_array (bs "abc")) (bs "ab") (bs "c")).
  - vm_compute. repeat split; intros H; discriminate H.
  - reflexivity.
Defined.

End StreamProperties.
