(* ===== verification/Utf8.v ===== *)
(** UTF-8 validation of string fields
    (src/Shared/protobuf/src/google/protobuf/stubs/structurally_valid.cc): the
    table-driven scanner with its word-at-a-time shortcuts, and the proof that
    it accepts exactly the encodings of sequences of Unicode scalar values,
    wherever in memory the string lies. *)

From S2P Require Import Prelude.

Module Utf8.

Definition kExitIllegalStructure : Z := 240.
Definition kExitOK : Z := 241.
Definition kExitReject : Z := 242.
Definition kExitDoAgain : Z := 253.

Definition in_range (lo hi c : Z) : bool := (lo <=? c) && (c <=? hi).

(** [utf8acceptnonsurrogates]: nine states of 256 entries, written as the ranges
    of equal entries.  An entry is the next state or an exit code; none is
    [kExitDoAgain], so the [DoAgain] loops around the scan run once. *)
Definition state_table (state c : Z) : Z :=
  let X := kExitIllegalStructure in
  match state with
  | 0 => if c <=? 0x7f then 0 else if c <=? 0xc1 then X else if c <=? 0xdf then 1
         else if c <=? 0xe0 then 2 else if c <=? 0xec then 3 else if c <=? 0xed then 7
         else if c <=? 0xef then 3 else if c <=? 0xf0 then 4 else if c <=? 0xf3 then 5
         else if c <=? 0xf4 then 6 else X
  | 1 => if in_range 0x80 0xbf c then 0 else X
  | 2 => if in_range 0xa0 0xbf c then 1 else X
  | 3 => if in_range 0x80 0xbf c then 1 else X
  | 4 => if in_range 0x90 0xbf c then 3 else X
  | 5 => if in_range 0x80 0xbf c then 3 else X
  | 6 => if in_range 0x80 0x8f c then 3 else X
  | 7 => if in_range 0x80 0x9f c then 1 else if in_range 0xa0 0xbf c then 8 else X
  | 8 => if in_range 0x80 0xbf c then kExitReject else X
  | _ => X
  end.

(** [utf8acceptnonsurrogates_fast]. *)
Definition fast_state (c : Z) : Z := if c <? 0x80 then 0 else 1.

(** [losub] and [hiadd] of [utf8acceptnonsurrogates_obj]. *)
Definition losub : Z := 0x20202020.
Definition hiadd : Z := 0x00000000.

Definition InStateZero (Tbl : Z) : bool := Tbl =? 0.

(** [((uintptr_t)src & 0x07) == 0]. *)
Definition aligned (src : Z) : bool := Z.land src 0x07 =? 0.

(** How many bytes the first loop skips: up to an aligned address, while the
    predicate (the fast table, or [src[0] < 0x80]) holds. *)
Fixpoint skip_unaligned (ok : Z → bool) (src : Z) (str : bytes) : nat :=
  match str with
  | c :: str =>
      if negb (aligned src) && ok (b2z c) then S (skip_unaligned ok (src + 1) str) else 0%nat
  | [] => 0%nat
  end.

(** A little-endian [uint32] load. *)
Definition load32 (b0 b1 b2 b3 : byte) : Z :=
  Z.lor (b2z b0) (Z.lor (Z.shiftl (b2z b1) 8)
    (Z.lor (Z.shiftl (b2z b2) 16) (Z.shiftl (b2z b3) 24))).

(** The loop of [UTF8GenericScan] over groups of eight identity bytes
    ([src < srclimit8]: at least eight bytes are left). *)
Fixpoint skip_groups (str : bytes) : nat :=
  match str with
  | b0 :: b1 :: b2 :: b3 :: b4 :: b5 :: b6 :: b7 :: rest =>
      let s0123 := load32 b0 b1 b2 b3 in
      let s4567 := load32 b4 b5 b6 b7 in
      let temp := Z.lor (Z.lor (u32 (s0123 - losub)) (u32 (s0123 + hiadd)))
                        (Z.lor (u32 (s4567 - losub)) (u32 (s4567 + hiadd))) in
      if negb (Z.land temp 0x80808080 =? 0) then
        if negb (Z.lor (Z.lor (fast_state (b2z b0)) (fast_state (b2z b1)))
                       (Z.lor (fast_state (b2z b2)) (fast_state (b2z b3))) =? 0) then 0%nat
        else if negb (Z.lor (Z.lor (fast_state (b2z b4)) (fast_state (b2z b5)))
                            (Z.lor (fast_state (b2z b6)) (fast_state (b2z b7))) =? 0) then 4%nat
        else (8 + skip_groups rest)%nat
      else (8 + skip_groups rest)%nat
  | _ => 0%nat
  end.

(** The byte-at-a-time loop: last entry, state, and position of [src]. *)
Fixpoint table_scan (e Tbl : Z) (src : nat) (str : bytes) : Z * Z * nat :=
  match str with
  | [] => (e, Tbl, src)
  | c :: str =>
      let e := state_table Tbl (b2z c) in
      if kExitIllegalStructure <=? e then (e, Tbl, S src) else table_scan e e (S src) str
  end.

(** [do { src--; } while ((src > isrc) && ((src[0] & 0xc0) == 0x80));], which is
    only entered after at least one byte of the character was taken. *)
Fixpoint back_up (str : bytes) (src : nat) : nat :=
  match src with
  | O => O
  | S src =>
      if (0 <? src)%nat && (Z.land (b2z (nth src str Byte.x00)) 0xc0 =? 0x80)
      then back_up str src else src
  end.

(** [isrc] is the address of the string; the result is the exit reason and
    [*bytes_consumed]. *)
Definition UTF8GenericScan (isrc : Z) (str : bytes) : Z * nat :=
  match str with
  | [] => (kExitOK, 0%nat)
  | _ =>
      let src := skip_unaligned (λ c, fast_state c =? 0) isrc str in
      let src := if aligned (isrc + Z.of_nat src)
                 then (src + skip_groups (drop src str))%nat else src in
      let '(e, Tbl, src) := table_scan 0 0 src (drop src str) in
      if kExitIllegalStructure <=? e then
        let src := (src - 1)%nat in
        (e, if negb (InStateZero Tbl) then back_up str src else src)
      else if negb (InStateZero Tbl) then (kExitIllegalStructure, back_up str src)
      else (kExitOK, src)
  end.

(** The eight-byte ASCII loop of [UTF8GenericScanFastAscii]. *)
Fixpoint skip_ascii_groups (str : bytes) : nat :=
  match str with
  | b0 :: b1 :: b2 :: b3 :: b4 :: b5 :: b6 :: b7 :: rest =>
      if Z.land (Z.lor (load32 b0 b1 b2 b3) (load32 b4 b5 b6 b7)) 0x80808080 =? 0
      then (8 + skip_ascii_groups rest)%nat else 0%nat
  | _ => 0%nat
  end.

(** [while ((src < srclimit) && (src[0] < 0x80)) src++;]. *)
Fixpoint skip_ascii (str : bytes) : nat :=
  match str with
  | c :: str => if b2z c <? 0x80 then S (skip_ascii str) else 0%nat
  | [] => 0%nat
  end.

Definition UTF8GenericScanFastAscii (isrc : Z) (str : bytes) : Z * nat :=
  match str with
  | [] => (kExitOK, 0%nat)
  | _ =>
      let src := skip_unaligned (λ c, c <? 0x80) isrc str in
      let src := if aligned (isrc + Z.of_nat src)
                 then (src + skip_ascii_groups (drop src str))%nat else src in
      let n := (src + skip_ascii (drop src str))%nat in
      let '(exit_reason, rest_consumed) := UTF8GenericScan (isrc + Z.of_nat n) (drop n str) in
      (exit_reason, (n + rest_consumed)%nat)
  end.

(** With the module initialised, for a string at address [isrc]. *)
Definition IsStructurallyValidUTF8_at (isrc : Z) (buf : bytes) : bool :=
  Nat.eqb (snd (UTF8GenericScanFastAscii isrc buf)) (length buf).

(** The answer does not depend on the address ([utf8_address_irrelevant]), so
    the model's callers use an arbitrary one. *)
Definition IsStructurallyValidUTF8 (buf : bytes) : bool := IsStructurallyValidUTF8_at 0 buf.

End Utf8.

(** ** Specification: UTF-8 by code points *)

Definition scalar_value (cp : Z) : Prop := 0 <= cp < 0xD800 ∨ 0xDFFF < cp <= 0x10FFFF.

Definition utf8_encode (cp : Z) : bytes :=
  if cp <? 0x80 then [z2b cp]
  else if cp <? 0x800 then [z2b (0xC0 + cp / 64); z2b (0x80 + cp mod 64)]
  else if cp <? 0x10000 then
    [z2b (0xE0 + cp / 4096); z2b (0x80 + (cp / 64) mod 64); z2b (0x80 + cp mod 64)]
  else
    [z2b (0xF0 + cp / 262144); z2b (0x80 + (cp / 4096) mod 64);
     z2b (0x80 + (cp / 64) mod 64); z2b (0x80 + cp mod 64)].

Section Scanner.
Import Utf8.

Definition ascii (c : byte) : Prop := b2z c < 128.

(** The automaton alone: run the table and end in state 0. *)
Fixpoint dfa (state : Z) (str : bytes) : bool :=
  match str with
  | [] => state =? 0
  | c :: str =>
      let e := state_table state (b2z c) in
      if kExitIllegalStructure <=? e then false else dfa e str
  end.

(** *** The shortcuts only skip ASCII *)

Definition skips (n : nat) (str : bytes) : Prop := Forall ascii (take n str) ∧ (n <= length str)%nat.

Lemma skips_0 str : skips 0 str.
Proof. split; [by rewrite take_0|lia]. Qed.

Lemma skips_cons n c str : ascii c → skips n str → skips (S n) (c :: str).
Proof. intros ? []. split; simpl; [by constructor|lia]. Qed.

Lemma skips_add n m str : skips n str → skips m (drop n str) → skips (n + m) str.
Proof.
  intros [? ?] [? Hm]. rewrite length_drop in Hm. split; [|lia].
  rewrite <- (take_drop n str), take_app_add', Forall_app by (rewrite length_take; lia). done.
Qed.

#[local] Hint Resolve skips_0 skips_cons : core.

Lemma skip_unaligned_skips ok src str :
  (∀ c, ok (b2z c) = true → ascii c) → skips (skip_unaligned ok src str) str.
Proof.
  intros Hok. revert src. induction str as [|c str IH]; intros src; simpl; [auto|].
  case_match eqn:E; [|auto]. zbool. auto.
Qed.

Lemma skip_ascii_skips str : skips (skip_ascii str) str.
Proof. induction str as [|c str IH]; simpl; [auto|]. case_match; zbool; auto. Qed.

Lemma fast_state_ascii c : fast_state (b2z c) = 0 → ascii c.
Proof. unfold fast_state, ascii. case_match; zbool; [done|done]. Qed.

Lemma lor_zero a b : Z.lor a b = 0 → a = 0 ∧ b = 0.
Proof. apply Z.lor_eq_0_iff. Qed.

(** A clear bit 7, 15, 23 or 31 of a load is a clear top bit of a byte. *)
Lemma load32_ascii b0 b1 b2 b3 :
  Z.land (load32 b0 b1 b2 b3) 0x80808080 = 0 → ascii b0 ∧ ascii b1 ∧ ascii b2 ∧ ascii b3.
Proof.
  intros H. unfold load32 in H. rewrite !Z.land_lor_distr_l in H.
  apply lor_zero in H as [H0 H]. apply lor_zero in H as [H1 H]. apply lor_zero in H as [H2 H3].
  split_and!; unfold ascii.
  - revert H0. clear. destruct b0; vm_compute; done.
  - revert H1. clear. destruct b1; vm_compute; done.
  - revert H2. clear. destruct b2; vm_compute; done.
  - revert H3. clear. destruct b3; vm_compute; done.
Qed.

Lemma load32_range b0 b1 b2 b3 : is_u32 (load32 b0 b1 b2 b3).
Proof.
  unfold load32. pose proof (b2z_range b0). pose proof (b2z_range b1).
  pose proof (b2z_range b2). pose proof (b2z_range b3).
  change 24 with (8 + 8 + 8). change 16 with (8 + 8).
  rewrite <- !Z.shiftl_shiftl by lia. rewrite <- !Z.shiftl_lor by lia.
  rewrite (lor_shiftl_add (b2z b2)) by lia. rewrite (lor_shiftl_add (b2z b1)) by lia.
  rewrite lor_shiftl_add by lia. znorm. lia.
Qed.

Lemma skips_8 n b0 b1 b2 b3 b4 b5 b6 b7 str :
  ascii b0 ∧ ascii b1 ∧ ascii b2 ∧ ascii b3 → ascii b4 ∧ ascii b5 ∧ ascii b6 ∧ ascii b7 →
  skips n str → skips (8 + n) (b0 :: b1 :: b2 :: b3 :: b4 :: b5 :: b6 :: b7 :: str).
Proof. intros (?&?&?&?) (?&?&?&?) ?. simpl. auto 10. Qed.

Lemma fast_states_ascii b0 b1 b2 b3 :
  Z.lor (Z.lor (fast_state (b2z b0)) (fast_state (b2z b1)))
        (Z.lor (fast_state (b2z b2)) (fast_state (b2z b3))) = 0 →
  ascii b0 ∧ ascii b1 ∧ ascii b2 ∧ ascii b3.
Proof.
  intros [[? ?]%lor_zero [? ?]%lor_zero]%lor_zero. auto using fast_state_ascii.
Qed.

(** Induction by groups of eight bytes. *)
Lemma groups_of_8 (P : bytes → Prop) :
  (∀ str, (length str < 8)%nat → P str) →
  (∀ b0 b1 b2 b3 b4 b5 b6 b7 str, P str →
     P (b0 :: b1 :: b2 :: b3 :: b4 :: b5 :: b6 :: b7 :: str)) →
  ∀ str, P str.
Proof.
  intros H0 H8 str. induction str as [str IH] using (induction_ltof1 _ (@length byte)).
  unfold ltof in IH.
  do 8 (destruct str as [|? str]; [apply H0; simpl; lia|]).
  apply H8, IH. simpl. lia.
Qed.

Lemma skip_ascii_groups_skips str : skips (skip_ascii_groups str) str.
Proof.
  induction str as [str Hl|b0 b1 b2 b3 b4 b5 b6 b7 str IH] using groups_of_8.
  - do 8 (destruct str as [|? str]; [apply skips_0|]). simpl in Hl. lia.
  - cbn -[load32 Nat.add]. case_match eqn:E; [|auto]. zbool.
    rewrite Z.land_lor_distr_l in E. apply lor_zero in E as [E1 E2].
    apply skips_8; auto using load32_ascii.
Qed.

Lemma skip_groups_skips str : skips (skip_groups str) str.
Proof.
  induction str as [str Hl|b0 b1 b2 b3 b4 b5 b6 b7 str IH] using groups_of_8.
  - do 8 (destruct str as [|? str]; [apply skips_0|]). simpl in Hl. lia.
  - cbn -[load32 Nat.add fast_state]. unfold hiadd. rewrite !Z.add_0_r.
    rewrite !(u32_small (load32 _ _ _ _)) by apply load32_range.
    case_match eqn:E; zbool.
    + case_match eqn:E1; zbool; [auto|]. apply fast_states_ascii in E1 as (?&?&?&?).
      case_match eqn:E2; zbool; [auto 8|]. apply fast_states_ascii in E2. by apply skips_8.
    + rewrite !Z.land_lor_distr_l in E.
      apply lor_zero in E as [[_ E1]%lor_zero [_ E2]%lor_zero].
      apply skips_8; auto using load32_ascii.
Qed.

(** *** The scan computes the automaton *)

Lemma dfa_skips n str : skips n str → dfa 0 (drop n str) = dfa 0 str.
Proof.
  revert str. induction n as [|n IH]; intros str [Ha Hl]; [done|].
  destruct str as [|c str]; [done|]. simpl in *. apply Forall_cons in Ha as [Hc Ha].
  rewrite IH by (split; [done|lia]). unfold ascii in Hc.
  by rewrite (proj2 (Z.leb_le (b2z c) 127)) by lia.
Qed.

Lemma table_scan_spec e Tbl src str e' Tbl' src' :
  e < kExitIllegalStructure →
  table_scan e Tbl src str = (e', Tbl', src') →
  if dfa Tbl str
  then e' < kExitIllegalStructure ∧ Tbl' = 0 ∧ src' = (src + length str)%nat
  else (kExitIllegalStructure <= e' ∧ (src < src' <= src + length str)%nat) ∨
       (e' < kExitIllegalStructure ∧ Tbl' ≠ 0 ∧ src' = (src + length str)%nat).
Proof.
  revert e Tbl src. induction str as [|c str IH]; intros e Tbl src He; simpl.
  - intros [= -> -> ->]. case_match; zbool; [|right]; repeat split; auto; lia.
  - case_match eqn:E; zbool; intros H.
    + simplify_eq. left. split; [done|lia].
    + apply IH in H; [|done]. case_match; [|destruct H as [H|H]; [left|right]];
        repeat split; try apply H; lia.
Qed.

Lemma back_up_lt str src : (0 < src)%nat → (back_up str src < src)%nat.
Proof.
  induction src as [|src IH]; [lia|]. intros _. simpl. case_match eqn:E; [|lia].
  apply andb_true_iff in E as [E _]. apply Nat.ltb_lt in E. lia.
Qed.

Lemma back_up_le str src : (back_up str src <= src)%nat.
Proof. destruct src; [done|]. pose proof (back_up_lt str (S src)). lia. Qed.

Lemma UTF8GenericScan_dfa isrc str :
  if dfa 0 str then snd (UTF8GenericScan isrc str) = length str
  else (snd (UTF8GenericScan isrc str) < length str)%nat.
Proof.
  unfold UTF8GenericScan. destruct str as [|c0 str0] eqn:Es; [done|]. rewrite <- Es.
  assert (Hlen : (0 < length str)%nat) by (rewrite Es; simpl; lia). clear Es.
  set (n := if aligned _ then _ else _).
  assert (Hn : skips n str).
  { assert (skips (skip_unaligned (λ c, fast_state c =? 0) isrc str) str).
    { apply skip_unaligned_skips. intros c Hc. zbool. by apply fast_state_ascii. }
    subst n. case_match; [|done]. apply skips_add; [done|apply skip_groups_skips]. }
  destruct (table_scan 0 0 n (drop n str)) as [[e Tbl] src] eqn:Et.
  apply table_scan_spec in Et; [|unfold kExitIllegalStructure; lia].
  rewrite dfa_skips, length_drop in Et by done. destruct Hn as [_ Hn].
  unfold InStateZero. destruct (dfa 0 str).
  - destruct Et as (He & -> & ->). rewrite (proj2 (Z.leb_gt _ _)) by done. simpl. lia.
  - destruct Et as [[He Hs]|(He & HT & Hs)].
    + rewrite (proj2 (Z.leb_le _ _)) by done. simpl. case_match; [|lia].
      pose proof (back_up_le str (src - 1)). lia.
    + rewrite (proj2 (Z.leb_gt _ _)), (proj2 (Z.eqb_neq _ _)) by done. simpl.
      pose proof (back_up_lt str src). lia.
Qed.

Lemma IsStructurallyValidUTF8_dfa isrc str : IsStructurallyValidUTF8_at isrc str = dfa 0 str.
Proof.
  unfold IsStructurallyValidUTF8_at, UTF8GenericScanFastAscii.
  destruct str as [|c0 str0] eqn:Es; [done|]. rewrite <- Es. clear Es.
  set (n1 := if aligned _ then _ else _).
  assert (H1 : skips n1 str).
  { assert (skips (skip_unaligned (λ c, c <? 128) isrc str) str).
    { apply skip_unaligned_skips. unfold ascii. intros c Hc. by zbool. }
    subst n1. case_match; [|done]. apply skips_add; [done|apply skip_ascii_groups_skips]. }
  set (n := (n1 + _)%nat). assert (Hn : skips n str) by (apply skips_add; [done|apply skip_ascii_skips]).
  clearbody n. clear n1 H1.
  pose proof (UTF8GenericScan_dfa (isrc + Z.of_nat n) (drop n str)) as H.
  rewrite dfa_skips, length_drop in H by done. destruct Hn as [_ Hn].
  destruct (UTF8GenericScan _ _) as [e m]. simpl in *. destruct (dfa 0 str).
  - apply Nat.eqb_eq. lia.
  - apply Nat.eqb_neq. lia.
Qed.

(** *** The automaton accepts the encodings *)

Lemma dfa_cons st c str :
  dfa st (c :: str) = if kExitIllegalStructure <=? state_table st (b2z c) then false
                      else dfa (state_table st (b2z c)) str.
Proof. done. Qed.

(** Evaluate the table on a byte whose range is known. *)
Ltac table_step :=
  rewrite dfa_cons; cbn [state_table]; unfold in_range, kExitIllegalStructure, kExitReject;
  rewrite ?b2z_z2b_small by lia; zdec; cbn [andb Z.leb Z.compare Pos.compare Pos.compare_cont].

Lemma dfa_encode cp str : scalar_value cp → dfa 0 (utf8_encode cp ++ str) = dfa 0 str.
Proof.
  unfold scalar_value, utf8_encode. intros H.
  pose proof (Z.mod_pos_bound cp 64 ltac:(lia)).
  pose proof (Z.mod_pos_bound (cp / 64) 64 ltac:(lia)).
  pose proof (Z.mod_pos_bound (cp / 4096) 64 ltac:(lia)).
  repeat case_match; zbool; cbn [app].
  - by table_step.
  - assert (2 <= cp / 64 < 32) by (Z.to_euclidean_division_equations; lia).
    table_step. by table_step.
  - assert (0 <= cp / 4096 < 16) by (Z.to_euclidean_division_equations; lia).
    assert (cp / 4096 = 0 ∨ 1 <= cp / 4096 < 13 ∨ cp / 4096 = 13 ∨ 14 <= cp / 4096)
      as [E|[E|[E|E]]] by lia.
    + assert (32 <= (cp / 64) mod 64) by (Z.to_euclidean_division_equations; lia).
      do 2 table_step. by table_step.
    + do 2 table_step. by table_step.
    + assert ((cp / 64) mod 64 < 32) by (Z.to_euclidean_division_equations; lia).
      do 2 table_step. by table_step.
    + do 2 table_step. by table_step.
  - assert (0 <= cp / 262144 < 5) by (Z.to_euclidean_division_equations; lia).
    assert (cp / 262144 = 0 ∨ 1 <= cp / 262144 < 4 ∨ cp / 262144 = 4) as [E|[E|E]] by lia.
    + assert (16 <= (cp / 4096) mod 64) by (Z.to_euclidean_division_equations; lia).
      do 3 table_step. by table_step.
    + do 3 table_step. by table_step.
    + assert ((cp / 4096) mod 64 < 16) by (Z.to_euclidean_division_equations; lia).
      do 3 table_step. by table_step.
Qed.

(** Reading a state's continuation off the table. *)
Lemma dfa_0 c str :
  dfa 0 (c :: str) = true →
  (b2z c <= 0x7f ∧ dfa 0 str = true) ∨
  (0xc2 <= b2z c <= 0xdf ∧ dfa 1 str = true) ∨
  (b2z c = 0xe0 ∧ dfa 2 str = true) ∨
  ((0xe1 <= b2z c <= 0xec ∨ 0xee <= b2z c <= 0xef) ∧ dfa 3 str = true) ∨
  (b2z c = 0xed ∧ dfa 7 str = true) ∨
  (b2z c = 0xf0 ∧ dfa 4 str = true) ∨
  (0xf1 <= b2z c <= 0xf3 ∧ dfa 5 str = true) ∨
  (b2z c = 0xf4 ∧ dfa 6 str = true).
Proof.
  rewrite dfa_cons. cbn [state_table]. intros H. repeat case_match; simplify_eq; zbool;
    try discriminate.
  all: first [ left; split; [lia|done] | right; left; split; [lia|done]
    | do 2 right; left; split; [lia|done] | do 3 right; left; split; [lia|done]
    | do 4 right; left; split; [lia|done] | do 5 right; left; split; [lia|done]
    | do 6 right; left; split; [lia|done] | do 7 right; split; [lia|done] ].
Qed.

Lemma dfa_range st next lo hi str :
  (∀ c, state_table st c = if in_range lo hi c then next else kExitIllegalStructure) → st ≠ 0 →
  dfa st str = true → ∃ c rest, str = c :: rest ∧ lo <= b2z c <= hi ∧ dfa next rest = true.
Proof.
  intros Ht Hst. destruct str as [|c rest]; simpl.
  - intros. by zbool.
  - rewrite Ht. unfold in_range. repeat case_match; zbool; try done.
    intros. exists c, rest. split_and!; auto; lia.
Qed.

Lemma dfa_1 str : dfa 1 str = true →
  ∃ c rest, str = c :: rest ∧ 0x80 <= b2z c <= 0xbf ∧ dfa 0 rest = true.
Proof. by apply dfa_range. Qed.

Lemma dfa_3 str : dfa 3 str = true →
  ∃ c d rest, str = c :: d :: rest ∧ 0x80 <= b2z c <= 0xbf ∧ 0x80 <= b2z d <= 0xbf ∧ dfa 0 rest = true.
Proof.
  intros (c & r & -> & ? & (d & r' & -> & ? & ?)%dfa_1)%(dfa_range 3 1 0x80 0xbf); [|done|done].
  by exists c, d, r'.
Qed.

(** State 8 rejects whatever follows. *)
Lemma dfa_7 str : dfa 7 str = true →
  ∃ c rest, str = c :: rest ∧ 0x80 <= b2z c <= 0x9f ∧ dfa 1 rest = true.
Proof.
  destruct str as [|c rest]; [done|]. rewrite dfa_cons. cbn [state_table]. unfold in_range.
  repeat case_match; zbool; try done; intros H'.
  - exists c, rest. split_and!; auto; lia.
  - exfalso. destruct rest as [|d rest]; [done|]. rewrite dfa_cons in H'. cbn [state_table] in H'.
    by destruct (in_range _ _ _).
Qed.

Lemma z2b_eq b z : z = b2z b → b = z2b z.
Proof. intros ->. by rewrite z2b_b2z. Qed.

Ltac encode_as :=
  unfold utf8_encode; zdec; cbn [app];
  repeat (apply f_equal2; [apply z2b_eq; Z.to_euclidean_division_equations; lia|]); done.

(** One character off the front of an accepted string. *)
Lemma dfa_decode_one c str :
  dfa 0 (c :: str) = true →
  ∃ cp rest, scalar_value cp ∧ c :: str = utf8_encode cp ++ rest ∧ dfa 0 rest = true.
Proof.
  intros H. pose proof (b2z_range c). unfold scalar_value.
  apply dfa_0 in H as [[Hc H]|[[Hc H]|[[Hc H]|[[Hc H]|[[Hc H]|[[Hc H]|[[Hc H]|[Hc H]]]]]]]].
  - exists (b2z c), str. split_and!; [lia| |done]. encode_as.
  - apply dfa_1 in H as (d & r & -> & Hd & H).
    exists ((b2z c - 0xC0) * 64 + (b2z d - 0x80)), r. split_and!; [lia| |done]. encode_as.
  - apply (dfa_range 2 1 0xa0 0xbf) in H as (d & r & -> & Hd & H); [|done|done].
    apply dfa_1 in H as (e & r' & -> & He & H).
    exists ((b2z c - 0xE0) * 4096 + (b2z d - 0x80) * 64 + (b2z e - 0x80)), r'.
    split_and!; [lia| |done]. encode_as.
  - apply dfa_3 in H as (d & e & r & -> & Hd & He & H).
    exists ((b2z c - 0xE0) * 4096 + (b2z d - 0x80) * 64 + (b2z e - 0x80)), r.
    split_and!; [lia| |done]. encode_as.
  - apply dfa_7 in H as (d & r & -> & Hd & H). apply dfa_1 in H as (e & r' & -> & He & H).
    exists ((b2z c - 0xE0) * 4096 + (b2z d - 0x80) * 64 + (b2z e - 0x80)), r'.
    split_and!; [lia| |done]. encode_as.
  - apply (dfa_range 4 3 0x90 0xbf) in H as (d & r & -> & Hd & H); [|done|done].
    apply dfa_3 in H as (e & f & r' & -> & He & Hf & H).
    exists ((b2z c - 0xF0) * 262144 + (b2z d - 0x80) * 4096 + (b2z e - 0x80) * 64 + (b2z f - 0x80)), r'.
    split_and!; [lia| |done]. encode_as.
  - apply (dfa_range 5 3 0x80 0xbf) in H as (d & r & -> & Hd & H); [|done|done].
    apply dfa_3 in H as (e & f & r' & -> & He & Hf & H).
    exists ((b2z c - 0xF0) * 262144 + (b2z d - 0x80) * 4096 + (b2z e - 0x80) * 64 + (b2z f - 0x80)), r'.
    split_and!; [lia| |done]. encode_as.
  - apply (dfa_range 6 3 0x80 0x8f) in H as (d & r & -> & Hd & H); [|done|done].
    apply dfa_3 in H as (e & f & r' & -> & He & Hf & H).
    exists ((b2z c - 0xF0) * 262144 + (b2z d - 0x80) * 4096 + (b2z e - 0x80) * 64 + (b2z f - 0x80)), r'.
    split_and!; [lia| |done]. encode_as.
Qed.

Lemma utf8_encode_nonempty cp : (0 < length (utf8_encode cp))%nat.
Proof. unfold utf8_encode. repeat case_match; simpl; lia. Qed.

Lemma dfa_spec str :
  dfa 0 str = true ↔ ∃ cps, Forall scalar_value cps ∧ str = concat (map utf8_encode cps).
Proof.
  split.
  - induction str as [str IH] using (induction_ltof1 _ (@length byte)). unfold ltof in IH.
    destruct str as [|c str]; intros H; [by exists []|].
    apply dfa_decode_one in H as (cp & rest & Hcp & E & H).
    apply IH in H as (cps & Hcps & ->).
    + exists (cp :: cps). split; [by constructor|]. by rewrite E.
    + rewrite E, length_app. pose proof (utf8_encode_nonempty cp). lia.
  - intros (cps & H & ->). induction H as [|cp cps Hcp _ IH]; simpl; [done|].
    by rewrite dfa_encode.
Qed.

(** ASCII strings are accepted. *)
Lemma ascii_valid str : Forall ascii str → IsStructurallyValidUTF8 str = true.
Proof.
  intros H. unfold IsStructurallyValidUTF8. rewrite IsStructurallyValidUTF8_dfa.
  rewrite <- (dfa_skips (length str)); [by rewrite drop_all|].
  split; [by rewrite firstn_all|done].
Qed.

(** C29: the scanner accepts exactly the UTF-8 encodings of sequences of Unicode
    scalar values (no overlong forms, no surrogates, nothing above U+10FFFF, no
    truncated character), at whatever address the string lies: the alignment
    loop, the eight-byte loops and the backing up never change the verdict. *)
Theorem utf8_scanner_correct isrc str :
  IsStructurallyValidUTF8_at isrc str = true ↔
  ∃ cps, Forall scalar_value cps ∧ str = concat (map utf8_encode cps).
Proof. rewrite IsStructurallyValidUTF8_dfa. apply dfa_spec. Qed.

Lemma utf8_address_irrelevant isrc str :
  IsStructurallyValidUTF8_at isrc str = IsStructurallyValidUTF8 str.
Proof. unfold IsStructurallyValidUTF8. by rewrite !IsStructurallyValidUTF8_dfa. Qed.

End Scanner.
