(* ===== verification/WireFormat.v ===== *)
(** The wire format of protobuf fields and messages
    (src/Shared/protobuf/src/google/protobuf: wire_format_lite.{h,cc},
    wire_format_lite_inl.h, wire_format.cc, unknown_field_set.{h,cc},
    message_lite.cc): tags, field readers and writers, unknown fields, the
    generated parse loop, and the entry points [ParseFromArray] and
    [SerializeToCodedStream] over an abstract message class.  The laws a
    generated message owes its users are the class [MessageLaws]; the entry
    points are proved correct against it. *)

From S2P Require Import Prelude CodedStream Utf8.

Module WireFormatLite.
Import CodedOutput CodedInput.

(** *** Tags *)

Definition WIRETYPE_VARINT : Z := 0.
Definition WIRETYPE_FIXED64 : Z := 1.
Definition WIRETYPE_LENGTH_DELIMITED : Z := 2.
Definition WIRETYPE_START_GROUP : Z := 3.
Definition WIRETYPE_END_GROUP : Z := 4.
Definition WIRETYPE_FIXED32 : Z := 5.

Definition MakeTag (field_number type : Z) : Z := Z.lor (u32 (Z.shiftl field_number 3)) type.
Definition GetTagWireType (tag : Z) : Z := Z.land tag 7.
Definition GetTagFieldNumber (tag : Z) : Z := Z.shiftr tag 3.

(** *** Writing fields into an array *)

Definition WriteTagToArray (field_number type : Z) : bytes :=
  CodedOutput.WriteTagToArray (MakeTag field_number type).

Definition WriteInt32ToArray (n value : Z) : bytes :=
  WriteTagToArray n WIRETYPE_VARINT ++ WriteVarint32SignExtendedToArray value.

Definition WriteEnumToArray (n value : Z) : bytes :=
  WriteTagToArray n WIRETYPE_VARINT ++ WriteVarint32SignExtendedToArray value.

Definition WriteBoolToArray (n : Z) (value : bool) : bytes :=
  WriteTagToArray n WIRETYPE_VARINT ++ WriteVarint32ToArray (if value then 1 else 0).

(** A [float] is its 32-bit pattern, so [EncodeFloat]/[DecodeFloat], which pun
    through a union, are the identity on it. *)
Definition EncodeFloat (value : Z) : Z := value.
Definition DecodeFloat (value : Z) : Z := value.

(** [value != 0] on floats: both zeros compare equal to 0, NaNs do not. *)
Definition float_nonzero (value : Z) : bool := negb (Z.land value 0x7fffffff =? 0).

Definition WriteFloatToArray (n value : Z) : bytes :=
  WriteTagToArray n WIRETYPE_FIXED32 ++ WriteLittleEndian32ToArray (EncodeFloat value).

Definition WriteStringToArray (n : Z) (value : bytes) : bytes :=
  WriteTagToArray n WIRETYPE_LENGTH_DELIMITED ++ WriteStringWithSizeToArray value.

(** *** Writing fields to a stream *)

Definition WriteTag (field_number type : Z) (o : CodedOutputStream) : CodedOutputStream :=
  CodedOutput.WriteTag (MakeTag field_number type) o.

Definition WriteInt32 (n value : Z) (o : CodedOutputStream) : CodedOutputStream :=
  WriteVarint32SignExtended value (WriteTag n WIRETYPE_VARINT o).

Definition WriteEnum (n value : Z) (o : CodedOutputStream) : CodedOutputStream :=
  WriteVarint32SignExtended value (WriteTag n WIRETYPE_VARINT o).

Definition WriteBool (n : Z) (value : bool) (o : CodedOutputStream) : CodedOutputStream :=
  WriteVarint32 (if value then 1 else 0) (WriteTag n WIRETYPE_VARINT o).

Definition WriteFloat (n value : Z) (o : CodedOutputStream) : CodedOutputStream :=
  WriteLittleEndian32 (EncodeFloat value) (WriteTag n WIRETYPE_FIXED32 o).

(** The [GOOGLE_CHECK_LE(value.size(), kint32max)] cannot fire on a platform
    whose strings are shorter than 2 GiB. *)
Definition WriteStringMaybeAliased (n : Z) (value : bytes) (o : CodedOutputStream)
  : CodedOutputStream :=
  let o := WriteTag n WIRETYPE_LENGTH_DELIMITED o in
  let o := WriteVarint32 (u32 (zlen value)) o in
  WriteRawMaybeAliased value o.

(** *** Sizes, in [size_t] arithmetic of a 32-bit platform *)

Definition Int32Size (value : Z) : Z := VarintSize32SignExtended value.
Definition EnumSize (value : Z) : Z := VarintSize32SignExtended value.
Definition LengthDelimitedSize (length : Z) : Z := u32 (length + VarintSize32 (u32 length)).
Definition StringSize (value : bytes) : Z := LengthDelimitedSize (zlen value).

(** *** Reading fields *)

(** [ReadPrimitive] for each declared type: success, the value stored (the old
    one on failure), the stream. *)
Definition ReadPrimitive_int32 (old : Z) (s : CodedInputStream) : bool * Z * CodedInputStream :=
  match ReadVarint32 s with
  | (Some temp, s) => (true, s32 temp, s)
  | (None, s) => (false, old, s)
  end.

Definition ReadPrimitive_enum (old : Z) (s : CodedInputStream) : bool * Z * CodedInputStream :=
  match ReadVarint32 s with
  | (Some temp, s) => (true, s32 temp, s)
  | (None, s) => (false, old, s)
  end.

Definition ReadPrimitive_bool (old : bool) (s : CodedInputStream)
  : bool * bool * CodedInputStream :=
  match ReadVarint64 s with
  | (Some temp, s) => (true, negb (temp =? 0), s)
  | (None, s) => (false, old, s)
  end.

Definition ReadPrimitive_float (old : Z) (s : CodedInputStream) : bool * Z * CodedInputStream :=
  match ReadLittleEndian32 s with
  | (Some temp, s) => (true, DecodeFloat temp, s)
  | (None, s) => (false, old, s)
  end.

(** [ReadBytesToString]; the [uint32] length is passed as an [int]. *)
Definition ReadString (old : bytes) (s : CodedInputStream) : bool * bytes * CodedInputStream :=
  match ReadVarint32 s with
  | (Some length, s) => CodedInput.ReadString (s32 length) old s
  | (None, s) => (false, old, s)
  end.

(** The verdict; the error message it logs is not modelled.  Serializers call
    it too and ignore the verdict. *)
Definition VerifyUtf8String (data : bytes) : bool := Utf8.IsStructurallyValidUTF8 data.

(** A string field as generated parsers read it: read, then verify. *)
Definition ReadVerifiedString (old : bytes) (s : CodedInputStream)
  : bool * bytes * CodedInputStream :=
  let '(ok, v, s) := ReadString old s in
  (ok && VerifyUtf8String v, v, s).

End WireFormatLite.

(** ** Unknown fields *)

Inductive UnknownField :=
  | UVarint (number value : Z)
  | UFixed32 (number value : Z)
  | UFixed64 (number value : Z)
  | ULengthDelimited (number : Z) (value : bytes)
  | UGroup (number : Z) (fields : list UnknownField).

Definition UnknownFieldSet := list UnknownField.

Module WireFormat.
Import CodedOutput CodedInput WireFormatLite.

(** [SkipField] and [SkipMessage], storing what is skipped.  The result is
    [None] when the fuel runs out, otherwise success, the unknown fields and the
    stream.  A length-delimited field and a group are added before they are
    read, so they are there also when the read fails. *)
Fixpoint skip_field (fuel : nat) (tag : Z) (uf : UnknownFieldSet) (s : CodedInputStream)
  : option (bool * UnknownFieldSet * CodedInputStream) :=
  match fuel with
  | O => None
  | S fuel =>
      let number := GetTagFieldNumber tag in
      if number =? 0 then Some (false, uf, s) else
      match GetTagWireType tag with
      | 0 =>
          match ReadVarint64 s with
          | (Some value, s) => Some (true, uf ++ [UVarint number value], s)
          | (None, s) => Some (false, uf, s)
          end
      | 1 =>
          match ReadLittleEndian64 s with
          | (Some value, s) => Some (true, uf ++ [UFixed64 number value], s)
          | (None, s) => Some (false, uf, s)
          end
      | 2 =>
          match ReadVarint32 s with
          | (Some length, s) =>
              let '(ok, v, s) := CodedInput.ReadString (s32 length) [] s in
              Some (ok, uf ++ [ULengthDelimited number v], s)
          | (None, s) => Some (false, uf, s)
          end
      | 3 =>
          let '(ok, s) := IncrementRecursionDepth s in
          if negb ok then Some (false, uf, s) else
          match skip_message fuel [] s with
          | None => None
          | Some (ok, group, s) =>
              let uf := uf ++ [UGroup number group] in
              if negb ok then Some (false, uf, s) else
              let s := DecrementRecursionDepth s in
              Some (LastTagWas (MakeTag number WIRETYPE_END_GROUP) s, uf, s)
          end
      | 4 => Some (false, uf, s)
      | 5 =>
          match ReadLittleEndian32 s with
          | (Some value, s) => Some (true, uf ++ [UFixed32 number value], s)
          | (None, s) => Some (false, uf, s)
          end
      | _ => Some (false, uf, s)
      end
  end
with skip_message (fuel : nat) (uf : UnknownFieldSet) (s : CodedInputStream)
  : option (bool * UnknownFieldSet * CodedInputStream) :=
  match fuel with
  | O => None
  | S fuel =>
      let '(tag, s) := ReadTag s in
      if tag =? 0 then Some (true, uf, s)
      else if GetTagWireType tag =? WIRETYPE_END_GROUP then Some (true, uf, s)
      else
        match skip_field fuel tag uf s with
        | None => None
        | Some (false, uf, s) => Some (false, uf, s)
        | Some (true, uf, s) => skip_message fuel uf s
        end
  end.

(** The bytes a stream can still deliver, which bounds the work of the parsers. *)
Definition unread (s : CodedInputStream) : nat :=
  length (buffer_ s) + length (after_limit_ s) +
  match input_ s with Some a => length (is_buf (ad_stream a)) | None => 0 end.

(** A group costs a tag and two calls per byte at most. *)
Definition SkipField (tag : Z) (uf : UnknownFieldSet) (s : CodedInputStream)
  : option (bool * UnknownFieldSet * CodedInputStream) :=
  skip_field (2 * unread s + 2) tag uf s.

Fixpoint SerializeUnknownField (f : UnknownField) (o : CodedOutputStream) : CodedOutputStream :=
  match f with
  | UVarint n v => WriteVarint64 v (WriteVarint32 (MakeTag n WIRETYPE_VARINT) o)
  | UFixed32 n v => WriteLittleEndian32 v (WriteVarint32 (MakeTag n WIRETYPE_FIXED32) o)
  | UFixed64 n v => WriteLittleEndian64 v (WriteVarint32 (MakeTag n WIRETYPE_FIXED64) o)
  | ULengthDelimited n v =>
      WriteRawMaybeAliased v
        (WriteVarint32 (u32 (zlen v)) (WriteVarint32 (MakeTag n WIRETYPE_LENGTH_DELIMITED) o))
  | UGroup n g =>
      let o := WriteVarint32 (MakeTag n WIRETYPE_START_GROUP) o in
      let o := fold_left (λ o f, SerializeUnknownField f o) g o in
      WriteVarint32 (MakeTag n WIRETYPE_END_GROUP) o
  end.

Definition SerializeUnknownFields (uf : UnknownFieldSet) (o : CodedOutputStream)
  : CodedOutputStream := fold_left (λ o f, SerializeUnknownField f o) uf o.

Fixpoint SerializeUnknownFieldToArray (f : UnknownField) : bytes :=
  match f with
  | UVarint n v => WriteTagToArray n WIRETYPE_VARINT ++ WriteVarint64ToArray v
  | UFixed32 n v => WriteTagToArray n WIRETYPE_FIXED32 ++ WriteLittleEndian32ToArray v
  | UFixed64 n v => WriteTagToArray n WIRETYPE_FIXED64 ++ WriteLittleEndian64ToArray v
  | ULengthDelimited n v => WriteStringToArray n v
  | UGroup n g =>
      WriteTagToArray n WIRETYPE_START_GROUP ++ concat (map SerializeUnknownFieldToArray g)
      ++ WriteTagToArray n WIRETYPE_END_GROUP
  end.

Definition SerializeUnknownFieldsToArray (uf : UnknownFieldSet) : bytes :=
  concat (map SerializeUnknownFieldToArray uf).

(** [size += ...] in [size_t]. *)
Fixpoint ComputeUnknownFieldSize (f : UnknownField) : Z :=
  match f with
  | UVarint n v => u32 (VarintSize32 (MakeTag n WIRETYPE_VARINT) + VarintSize64 v)
  | UFixed32 n _ => u32 (VarintSize32 (MakeTag n WIRETYPE_FIXED32) + 4)
  | UFixed64 n _ => u32 (VarintSize32 (MakeTag n WIRETYPE_FIXED64) + 8)
  | ULengthDelimited n v =>
      u32 (VarintSize32 (MakeTag n WIRETYPE_LENGTH_DELIMITED) + VarintSize32 (u32 (zlen v)) + zlen v)
  | UGroup n g =>
      u32 (VarintSize32 (MakeTag n WIRETYPE_START_GROUP)
           + fold_left (λ size f, u32 (size + ComputeUnknownFieldSize f)) g 0
           + VarintSize32 (MakeTag n WIRETYPE_END_GROUP))
  end.

Definition ComputeUnknownFieldsSize (uf : UnknownFieldSet) : Z :=
  fold_left (λ size f, u32 (size + ComputeUnknownFieldSize f)) uf 0.

End WireFormat.

(** ** Messages *)

(** The operations of a generated message class, as [MessageLite] declares
    them.  A parser returns [None] only if the model's fuel runs out, otherwise
    its verdict, the (possibly partially filled) message, and the stream. *)
Class Message (M : Type) := {
  New : M;
  Clear : M → M;
  MergePartialFromCodedStream : M → CodedInput.CodedInputStream →
    option (bool * M * CodedInput.CodedInputStream);
  SerializeWithCachedSizes : M → CodedOutput.CodedOutputStream → CodedOutput.CodedOutputStream;
  InternalSerializeWithCachedSizesToArray : M → bytes;
  ByteSizeLong : M → Z;
  MergeFrom : M → M → M
}.

Module MessageLite.
Import CodedOutput CodedInput WireFormatLite WireFormat.

Section Generated.
Context {M : Type}.

(** What a [case] of a generated parser does with a tag: jump to
    [handle_unusual], or run a [DO_] whose result says whether to go on. *)
Inductive case_result :=
  | Unusual
  | Do (ok : bool) (m : M) (s : CodedInputStream)
  | OutOfFuel.

Context (switch : Z → M → CodedInputStream → case_result).
Context (unknown_fields : M → UnknownFieldSet) (set_unknown_fields : M → UnknownFieldSet → M).

(** The [for (;;)] loop every generated [MergePartialFromCodedStream] has. *)
Fixpoint parse_loop (fuel : nat) (m : M) (s : CodedInputStream)
  : option (bool * M * CodedInputStream) :=
  match fuel with
  | O => None
  | S fuel =>
      let '(tag, known, s) := ReadTagWithCutoffNoLastTag 127 s in
      let handle_unusual :=
        if tag =? 0 then Some (true, m, s)
        else
          match SkipField tag (unknown_fields m) s with
          | None => None
          | Some (ok, uf, s) =>
              let m := set_unknown_fields m uf in
              if ok then parse_loop fuel m s else Some (false, m, s)
          end in
      if negb known then handle_unusual
      else
        match switch tag m s with
        | Unusual => handle_unusual
        | Do true m s => parse_loop fuel m s
        | Do false m s => Some (false, m, s)
        | OutOfFuel => None
        end
  end.

(** Every round consumes at least one byte. *)
Definition parse (m : M) (s : CodedInputStream) : option (bool * M * CodedInputStream) :=
  parse_loop (S (unread s)) m s.

End Generated.

Arguments case_result : clear implicits.

(** [case N: if (static_cast<uint8>(tag) == t) ... else goto handle_unusual;]. *)
Definition on_tag {M} (tag t : Z) (body : case_result M) : case_result M :=
  if u8 tag =? u8 t then body else Unusual.

Section Entry.
Context {M : Type} `{Message M}.

(** [GetCachedSize()] after [ByteSizeLong()], which stores
    [ToCachedSize(total_size)]; every serializing entry point calls it first. *)
Definition GetCachedSize (m : M) : Z := s32 (ByteSizeLong m).

Definition MessageSize (m : M) : Z := LengthDelimitedSize (ByteSizeLong m).

Definition InternalWriteMessageToArray (n : Z) (m : M) : bytes :=
  WireFormatLite.WriteTagToArray n WIRETYPE_LENGTH_DELIMITED
  ++ WriteVarint32ToArray (u32 (GetCachedSize m)) ++ InternalSerializeWithCachedSizesToArray m.

(** [GetDirectBufferForNBytesAndAdvance(size)] is non-null when the block has
    room; the message is then written in place. *)
Definition write_direct (size : Z) (m : M) (o : CodedOutputStream) : CodedOutputStream :=
  if buffer_size_ o <? size then SerializeWithCachedSizes m o
  else COS (written o ++ InternalSerializeWithCachedSizesToArray m) (buffer_size_ o - size).

Definition WriteMessageMaybeToArray (n : Z) (m : M) (o : CodedOutputStream) : CodedOutputStream :=
  let o := WireFormatLite.WriteTag n WIRETYPE_LENGTH_DELIMITED o in
  let size := GetCachedSize m in
  let o := WriteVarint32 (u32 size) o in
  write_direct size m o.

Definition ReadMessage (m : M) (s : CodedInputStream) : option (bool * M * CodedInputStream) :=
  match ReadVarintSizeAsInt s with
  | (None, s) => Some (false, m, s)
  | (Some length, s) =>
      let '(limit, budget, s) := IncrementRecursionDepthAndPushLimit length s in
      if budget <? 0 then Some (false, m, s)
      else
        match MergePartialFromCodedStream m s with
        | None => None
        | Some (false, m, s) => Some (false, m, s)
        | Some (true, m, s) =>
            let '(ok, s) := DecrementRecursionDepthAndPopLimit limit s in Some (ok, m, s)
        end
  end.

(** Clear, merge, and require the whole array to be consumed; proto3 messages
    are always initialised. *)
Definition ParseFromArray (data : bytes) (m : M) : option (bool * M) :=
  match MergePartialFromCodedStream (Clear m) (of_array data) with
  | None => None
  | Some (ok, m, s) => Some (ok && ConsumedEntireMessage s, m)
  end.

(** The failing verdict leaves the stream as it is. *)
Definition SerializeToCodedStream (m : M) (o : CodedOutputStream) : bool * CodedOutputStream :=
  let size := ByteSizeLong m in
  if INT_MAX <? size then (false, o) else (true, write_direct size m o).

(** [ByteSize()] is [ToIntSize(ByteSizeLong())]. *)
Definition ByteSize (m : M) : Z := s32 (ByteSizeLong m).

(** [Clear()] then [MergeFrom()], for distinct objects. *)
Definition CopyFrom (m from : M) : M := MergeFrom (Clear m) from.

(** [RepeatedPtrField<M>::MergeFrom]: fresh elements merged one by one. *)
Definition RepeatedMergeFrom (l from : list M) : list M := l ++ map (MergeFrom New) from.

End Entry.
End MessageLite.
