(* ===== verification/WireFormatFacts.v ===== *)
(** Correctness of the wire format: block-wise writing emits the array
    encoding, sizes predict lengths, unknown fields survive a round trip, the
    skipping and parsing loops terminate, and the composition lemmas from which
    the generated messages' round trips are assembled. *)

From S2P Require Import Prelude CodedStream Utf8 WireFormat.

(** ** Unknown fields *)

Section UnknownInduction.
Context (P : UnknownField → Prop).
Context (Hv : ∀ n v, P (UVarint n v)) (H32 : ∀ n v, P (UFixed32 n v))
  (H64 : ∀ n v, P (UFixed64 n v)) (Hl : ∀ n v, P (ULengthDelimited n v))
  (Hg : ∀ n g, Forall P g → P (UGroup n g)).

Fixpoint unknown_ind (f : UnknownField) : P f :=
  match f with
  | UVarint n v => Hv n v
  | UFixed32 n v => H32 n v
  | UFixed64 n v => H64 n v
  | ULengthDelimited n v => Hl n v
  | UGroup n g =>
      Hg n g ((fix go (l : list UnknownField) : Forall P l :=
        match l with
        | [] => List.Forall_nil P
        | f :: l => List.Forall_cons P f l (unknown_ind f) (go l)
        end) g)
  end.
End UnknownInduction.

Definition field_number_ok (n : Z) : Prop := 0 < n < 2 ^ 29.

(** The unknown fields a parser with [budget] levels of recursion left can have
    stored: the C types hold the values, and groups nest no deeper. *)
Fixpoint unknown_ok (budget : Z) (f : UnknownField) : Prop :=
  match f with
  | UVarint n v => field_number_ok n ∧ is_u64 v
  | UFixed32 n v => field_number_ok n ∧ is_u32 v
  | UFixed64 n v => field_number_ok n ∧ is_u64 v
  | ULengthDelimited n v => field_number_ok n ∧ zlen v <= INT_MAX
  | UGroup n g =>
      field_number_ok n ∧ 0 < budget ∧
      fold_right (λ f P, unknown_ok (budget - 1) f ∧ P) True g
  end.

Lemma unknown_ok_group budget n g :
  unknown_ok budget (UGroup n g) ↔
  field_number_ok n ∧ 0 < budget ∧ Forall (unknown_ok (budget - 1)) g.
Proof.
  cbn [unknown_ok]. do 2 (apply and_iff_compat_l).
  induction g as [|f g IH]; cbn [fold_right]; [split; [constructor|done]|].
  rewrite IH, Forall_cons. done.
Qed.

(** The C types hold the values, whatever the depth. *)
Definition unknown_typed (f : UnknownField) : Prop := ∃ budget, unknown_ok budget f.

Lemma unknown_ok_mono b b' f : b <= b' → unknown_ok b f → unknown_ok b' f.
Proof.
  revert b b'. induction f as [n v|n v|n v|n v|n g IH] using unknown_ind; intros b b' Hb; try done.
  rewrite !unknown_ok_group. intros (Hn & Hp & Hg). split_and!; [done|lia|].
  rewrite Forall_forall in *. intros f Hf. eapply IH; [done| |by apply Hg]. lia.
Qed.

Lemma unknown_ok_typed b uf : Forall (unknown_ok b) uf → Forall unknown_typed uf.
Proof. intros H. eapply Forall_impl; [exact H|]. intros f Hf. by exists b. Qed.

Section Tags.
Import WireFormatLite.

Lemma MakeTag_add n t : field_number_ok n → 0 <= t < 8 → MakeTag n t = t + n * 8.
Proof.
  unfold field_number_ok, MakeTag. intros Hn Ht. rewrite Z.shiftl_mul_pow2 by lia.
  rewrite u32_small by (znorm; lia). rewrite Z.lor_comm.
  rewrite <- (Z.shiftl_mul_pow2 n 3) by lia. rewrite lor_shiftl_add by lia. lia.
Qed.

Lemma MakeTag_u32 n t : field_number_ok n → 0 <= t < 8 → is_u32 (MakeTag n t) ∧ MakeTag n t ≠ 0.
Proof.
  intros Hn Ht. rewrite MakeTag_add by done. unfold field_number_ok in Hn. znorm. lia.
Qed.

Lemma GetTagFieldNumber_MakeTag n t :
  field_number_ok n → 0 <= t < 8 → GetTagFieldNumber (MakeTag n t) = n.
Proof.
  intros. rewrite MakeTag_add by done. unfold GetTagFieldNumber.
  rewrite Z.shiftr_div_pow2 by lia. change (2 ^ 3) with 8.
  rewrite Z.div_add by lia. rewrite Z.div_small by lia. lia.
Qed.

Lemma GetTagWireType_MakeTag n t :
  field_number_ok n → 0 <= t < 8 → GetTagWireType (MakeTag n t) = t.
Proof.
  intros. rewrite MakeTag_add by done. unfold GetTagWireType. change 7 with (Z.ones 3).
  rewrite Z.land_ones by lia. change (2 ^ 3) with 8. rewrite Z_mod_plus_full. apply Z.mod_small. lia.
Qed.
End Tags.

(** ** Writing *)

Section Writing.
Import CodedOutput WireFormatLite WireFormat.

Lemma fold_left_emits {A} (f : CodedOutputStream → A → CodedOutputStream) (g : A → bytes) l :
  Forall (λ x, emits (λ o, f o x) (g x)) l → emits (fold_left f l) (concat (map g l)).
Proof.
  induction 1 as [|x l Hx _ IH]; cbn [fold_left map concat]; [apply emits_id|].
  apply (emits_seq (λ o, f o x) (fold_left f l)); done.
Qed.

Lemma WriteTag_emits n t :
  field_number_ok n → 0 <= t < 8 → emits (WriteTag n t) (WriteTagToArray n t).
Proof. intros. apply WriteVarint32_emits. by apply MakeTag_u32. Qed.

Lemma WriteInt32_emits n v : field_number_ok n → emits (WriteInt32 n v) (WriteInt32ToArray n v).
Proof.
  intros. apply (emits_seq (WriteTag n WIRETYPE_VARINT) (WriteVarint32SignExtended v)); [by apply WriteTag_emits|].
  apply WriteVarint32SignExtended_emits.
Qed.

Lemma WriteEnum_emits n v : field_number_ok n → emits (WriteEnum n v) (WriteEnumToArray n v).
Proof. apply WriteInt32_emits. Qed.

Lemma WriteBool_emits n v : field_number_ok n → emits (WriteBool n v) (WriteBoolToArray n v).
Proof.
  intros. apply (emits_seq (WriteTag n WIRETYPE_VARINT) (WriteVarint32 (if v then 1 else 0))).
  { by apply WriteTag_emits. }
  apply WriteVarint32_emits. znorm. destruct v; lia.
Qed.

Lemma WriteFloat_emits n v : field_number_ok n → emits (WriteFloat n v) (WriteFloatToArray n v).
Proof.
  intros. apply (emits_seq (WriteTag n WIRETYPE_FIXED32) (WriteLittleEndian32 (EncodeFloat v))); [by apply WriteTag_emits|].
  apply WriteLittleEndian32_emits.
Qed.

Lemma WriteString_emits n v :
  field_number_ok n → emits (WriteStringMaybeAliased n v) (WriteStringToArray n v).
Proof.
  intros. apply (emits_seq (WriteTag n WIRETYPE_LENGTH_DELIMITED)
    (λ o, WriteRawMaybeAliased v (WriteVarint32 (u32 (zlen v)) o))); [by apply WriteTag_emits|].
  apply (emits_seq (WriteVarint32 (u32 (zlen v))) (WriteRawMaybeAliased v)).
  - apply WriteVarint32_emits, u32_range.
  - apply WriteRaw_emits.
Qed.

Lemma SerializeUnknownField_emits budget f :
  unknown_ok budget f → emits (SerializeUnknownField f) (SerializeUnknownFieldToArray f).
Proof.
  revert budget. induction f as [n v|n v|n v|n v|n g IH] using unknown_ind; intros budget Hok.
  - destruct Hok as [Hn Hv]. apply (emits_seq (WriteTag n WIRETYPE_VARINT) (WriteVarint64 v)).
    + apply WriteVarint32_emits. by apply MakeTag_u32.
    + by apply WriteVarint64_emits.
  - destruct Hok as [Hn Hv]. apply (emits_seq (WriteTag n WIRETYPE_FIXED32) (WriteLittleEndian32 v)).
    + apply WriteVarint32_emits. by apply MakeTag_u32.
    + apply WriteLittleEndian32_emits.
  - destruct Hok as [Hn Hv]. apply (emits_seq (WriteTag n WIRETYPE_FIXED64) (WriteLittleEndian64 v)).
    + apply WriteVarint32_emits. by apply MakeTag_u32.
    + apply WriteLittleEndian64_emits.
  - destruct Hok as [Hn Hv]. by apply WriteString_emits.
  - apply unknown_ok_group in Hok as (Hn & _ & Hg). cbn [SerializeUnknownField SerializeUnknownFieldToArray].
    apply (emits_seq (WriteTag n WIRETYPE_START_GROUP)
      (fold_left (λ o f, SerializeUnknownField f o) g >>> WriteTag n WIRETYPE_END_GROUP)).
    { by apply WriteTag_emits. }
    apply emits_seq; [|by apply WriteTag_emits].
    apply fold_left_emits. rewrite Forall_forall in *. intros f Hf. eapply IH; eauto.
Qed.

Lemma SerializeUnknownFields_emits uf :
  Forall unknown_typed uf →
  emits (SerializeUnknownFields uf) (SerializeUnknownFieldsToArray uf).
Proof.
  intros H. apply fold_left_emits. eapply Forall_impl; [exact H|].
  intros f [budget Hf]. by eapply SerializeUnknownField_emits.
Qed.

(** *** Sizes *)

Lemma zlen_WriteVarint32 v : is_u32 v → zlen (WriteVarint32ToArray v) = VarintSize32 v.
Proof. intros. by rewrite VarintSize32_length. Qed.

Lemma u32_sum {A} (size : A → Z) (bytes_of : A → bytes) l init :
  Forall (λ x, size x = u32 (zlen (bytes_of x))) l →
  fold_left (λ acc x, u32 (acc + size x)) l (u32 init) = u32 (init + zlen (concat (map bytes_of l))).
Proof.
  intros H. revert init. induction H as [|x l Hx _ IH]; intros init; cbn [fold_left map concat].
  - by rewrite zlen_nil, Z.add_0_r.
  - rewrite u32_add_l, Hx, u32_add_r, IH, zlen_app. f_equal. lia.
Qed.

Lemma zlen_tag n t :
  field_number_ok n → 0 <= t < 8 → zlen (WriteTagToArray n t) = VarintSize32 (MakeTag n t).
Proof. intros. apply zlen_WriteVarint32. by apply MakeTag_u32. Qed.

Lemma ComputeUnknownFieldSize_length budget f :
  unknown_ok budget f → ComputeUnknownFieldSize f = u32 (zlen (SerializeUnknownFieldToArray f)).
Proof.
  revert budget. induction f as [n v|n v|n v|n v|n g IH] using unknown_ind; intros budget Hok;
    cbn [ComputeUnknownFieldSize SerializeUnknownFieldToArray].
  - destruct Hok as [Hn Hv]. rewrite zlen_app, zlen_tag by done. by rewrite (VarintSize64_length v).
  - destruct Hok as [Hn Hv]. by rewrite zlen_app, zlen_tag.
  - destruct Hok as [Hn Hv]. by rewrite zlen_app, zlen_tag.
  - destruct Hok as [Hn Hv]. unfold WriteStringToArray, WriteStringWithSizeToArray.
    rewrite !zlen_app, zlen_tag, zlen_WriteVarint32 by (done || apply u32_range).
    by rewrite Z.add_assoc.
  - apply unknown_ok_group in Hok as (Hn & _ & Hg). rewrite !zlen_app, !zlen_tag by done.
    rewrite (u32_sum _ SerializeUnknownFieldToArray g 0).
    + rewrite Z.add_0_l. rewrite <- u32_add_l, u32_add_r, u32_add_l. f_equal. lia.
    + rewrite Forall_forall in *. intros f Hf. eapply IH; eauto.
Qed.

Lemma ComputeUnknownFieldsSize_length uf :
  Forall unknown_typed uf →
  ComputeUnknownFieldsSize uf = u32 (zlen (SerializeUnknownFieldsToArray uf)).
Proof.
  intros H. unfold ComputeUnknownFieldsSize. apply (u32_sum _ SerializeUnknownFieldToArray uf 0).
  eapply Forall_impl; [exact H|]. intros f [budget Hf]. by eapply ComputeUnknownFieldSize_length.
Qed.

Lemma LengthDelimitedSize_length v :
  StringSize v = u32 (zlen (WriteStringWithSizeToArray v)).
Proof.
  unfold StringSize, LengthDelimitedSize, WriteStringWithSizeToArray.
  rewrite zlen_app, zlen_WriteVarint32 by apply u32_range. f_equal. lia.
Qed.
End Writing.

(** ** Skipping *)

Section Skipping.
Import CodedOutput CodedInput WireFormatLite WireFormat.

(** An array stream as the parsers see it: its limits and budget are in order. *)
Definition ready (s : CodedInputStream) : Prop :=
  flat s ∧ recursion_budget_ s <= default_recursion_limit_.

Lemma advances_ready s s' : advances s s' → ready s → ready s'.
Proof.
  intros Ha [F Hb]. split; [by eapply advances_flat|].
  destruct Ha as (n & _ & _ & _ & _ & _ & ->). done.
Qed.

Lemma advances_budget s s' : advances s s' → recursion_budget_ s' = recursion_budget_ s.
Proof. intros (n & _ & _ & _ & _ & _ & ->). done. Qed.

Lemma ready_set_buffer s r k : ready s → buffer_ s = k ++ r → ready (set_buffer s r).
Proof. intros R E. eapply advances_ready; [|exact R]. by eapply advances_app. Qed.

Lemma ReadVarint64_advances s r s' : flat s → ReadVarint64 s = (r, s') → advances s s'.
Proof.
  intros F E. pose proof (varint_result_advances u64 s _ (ReadVarint64_ref s F)) as H. by rewrite E in H.
Qed.

Lemma ReadVarint32_advances s r s' : flat s → ReadVarint32 s = (r, s') → advances s s'.
Proof.
  intros F E. pose proof (varint_result_advances u32 s _ (ReadVarint32_ref s F)) as H. by rewrite E in H.
Qed.

Lemma ReadString_advances s n old ok v s' :
  flat s → CodedInput.ReadString n old s = (ok, v, s') → advances s s'.
Proof.
  intros F. unfold CodedInput.ReadString. case_match; zbool; intros E; [by simplify_eq|].
  by eapply ReadRaw_advances.
Qed.

(** Going one level down and back up. *)
Lemma descend_ready s : ready s → ready (set_budget s (recursion_budget_ s - 1)).
Proof. intros [F Hb]. split; [exact F|simpl; lia]. Qed.

Lemma ascend_advances s s' :
  ready s → advances (set_budget s (recursion_budget_ s - 1)) s' →
  advances s (DecrementRecursionDepth s').
Proof.
  intros [_ Hb] (n & H1 & H2 & H3 & H4 & H5 & H6). simpl in *. unfold DecrementRecursionDepth.
  rewrite (proj2 (Z.ltb_lt _ _)) by lia. exists n. simpl. split_and!; auto. lia.
Qed.

(** *** More fuel never changes a result *)

Lemma skip_mono f :
  (∀ tag uf s r, skip_field f tag uf s = Some r →
     ∀ f', (f <= f')%nat → skip_field f' tag uf s = Some r) ∧
  (∀ uf s r, skip_message f uf s = Some r →
     ∀ f', (f <= f')%nat → skip_message f' uf s = Some r).
Proof.
  induction f as [|f [IH1 IH2]]; [done|]. split.
  - intros tag uf s r E [|f'] Hf; [lia|]. cbn [skip_field] in *.
    destruct (GetTagFieldNumber tag =? 0); [done|].
    destruct (GetTagWireType tag) as [|[[p|p|]|[p|p|]|]|p]; try done.
    destruct (IncrementRecursionDepth s) as [ok s1]. destruct (negb ok); [done|].
    destruct (skip_message f [] s1) as [[[ok2 g] s2]|] eqn:Em; [|done].
    by rewrite (IH2 _ _ _ Em) by lia.
  - intros uf s r E [|f'] Hf; [lia|]. cbn [skip_message] in *.
    destruct (ReadTag s) as [tag s1]. destruct (tag =? 0); [done|].
    destruct (GetTagWireType tag =? WIRETYPE_END_GROUP); [done|].
    destruct (skip_field f tag uf s1) as [[[ok uf1] s2]|] eqn:Ef; [|done].
    rewrite (IH1 _ _ _ _ Ef) by lia. destruct ok; [|done]. apply (IH2 _ _ _ E). lia.
Qed.

(** *** Termination *)

(** A skip that returns, and whose success only advances the stream. *)
Definition skips_to (s : CodedInputStream)
    (r : option (bool * UnknownFieldSet * CodedInputStream)) : Prop :=
  ∃ ok uf s', r = Some (ok, uf, s') ∧ (ok = true → advances s s').

Lemma skips_fail s uf s' : skips_to s (Some (false, uf, s')).
Proof. by exists false, uf, s'. Qed.

Lemma skips_ok s ok uf s' : advances s s' → skips_to s (Some (ok, uf, s')).
Proof. intros. by exists ok, uf, s'. Qed.

Lemma skips_trans s s1 r : advances s s1 → skips_to s1 r → skips_to s r.
Proof.
  intros Ha (ok & uf & s' & -> & H). exists ok, uf, s'. split; [done|].
  intros Hok. etransitivity; [exact Ha|auto].
Qed.

#[local] Hint Resolve skips_fail skips_ok : core.

Lemma skip_total f :
  (∀ tag uf s, ready s → (2 * length (buffer_ s) + 2 <= f)%nat → skips_to s (skip_field f tag uf s)) ∧
  (∀ uf s, ready s → (2 * length (buffer_ s) + 1 <= f)%nat → skips_to s (skip_message f uf s)).
Proof.
  induction f as [|f [IH1 IH2]]; [split; intros; lia|]. split.
  - intros tag uf s R Hf. pose proof (proj1 R) as F. cbn [skip_field].
    destruct (GetTagFieldNumber tag =? 0); [auto|].
    destruct (GetTagWireType tag) as [|[[p|[p|p|]|]|[p|[p|p|]|]|]|p]; auto.
    + destruct (ReadVarint64 s) as [[v|] s1] eqn:E; eauto using ReadVarint64_advances.
    + destruct (ReadLittleEndian32 s) as [[v|] s1] eqn:E; eauto using ReadLittleEndian32_advances.
    + unfold IncrementRecursionDepth. cbn [fst snd]. destruct (negb _); [auto|].
      destruct (IH2 [] (set_budget s (recursion_budget_ s - 1))) as (ok & g & s' & -> & Ha).
      * by apply descend_ready.
      * simpl. lia.
      * destruct ok; simpl; [|auto]. apply skips_ok, ascend_advances; auto.
    + destruct (ReadVarint32 s) as [[v|] s1] eqn:E; [|auto].
      destruct (CodedInput.ReadString (s32 v) [] s1) as [[ok w] s2] eqn:E2.
      apply ReadVarint32_advances in E; [|done].
      apply ReadString_advances in E2; [|by eapply advances_flat].
      apply skips_ok. by etransitivity.
    + destruct (ReadLittleEndian64 s) as [[v|] s1] eqn:E; eauto using ReadLittleEndian64_advances.
  - intros uf s R Hf. cbn [skip_message]. destruct (ReadTag s) as [tag s1] eqn:E.
    apply ReadTag_progress in E as [Ha Hp]; [|apply R].
    destruct (tag =? 0) eqn:E0; zbool; [auto|].
    destruct (GetTagWireType tag =? WIRETYPE_END_GROUP); [auto|].
    specialize (Hp E0). pose proof (advances_ready _ _ Ha R) as R1.
    destruct (IH1 tag uf s1 R1) as (ok & uf1 & s2 & -> & Ha2); [lia|].
    destruct ok; [|auto]. specialize (Ha2 eq_refl). pose proof (advances_length _ _ Ha2).
    apply (skips_trans s s2); [by etransitivity|].
    apply IH2; [by eapply advances_ready|lia].
Qed.

Lemma SkipField_total tag uf s : ready s → skips_to s (SkipField tag uf s).
Proof. intros R. apply skip_total; [done|]. unfold unread. lia. Qed.

(** A skip computed with any fuel is the one [SkipField] computes. *)
Lemma SkipField_any_fuel f tag uf s r :
  ready s → skip_field f tag uf s = Some r → SkipField tag uf s = Some r.
Proof.
  intros R E. destruct (SkipField_total tag uf s R) as (ok & uf' & s' & Hs & _).
  pose proof Hs as Hs'. unfold SkipField in Hs'.
  destruct (Nat.le_ge_cases f (2 * unread s + 2)) as [Hl|Hl].
  - unfold SkipField. eapply (skip_mono f); eauto.
  - rewrite Hs, <- E. symmetry. apply (proj1 (skip_mono _) _ _ _ _ Hs'). done.
Qed.

(** *** Unknown fields survive *)

Definition wire_type (f : UnknownField) : Z :=
  match f with
  | UVarint _ _ => WIRETYPE_VARINT
  | UFixed32 _ _ => WIRETYPE_FIXED32
  | UFixed64 _ _ => WIRETYPE_FIXED64
  | ULengthDelimited _ _ => WIRETYPE_LENGTH_DELIMITED
  | UGroup _ _ => WIRETYPE_START_GROUP
  end.

Definition number (f : UnknownField) : Z :=
  match f with
  | UVarint n _ | UFixed32 n _ | UFixed64 n _ | ULengthDelimited n _ | UGroup n _ => n
  end.

Definition field_tag (f : UnknownField) : Z := MakeTag (number f) (wire_type f).

(** What follows the tag. *)
Definition field_body (f : UnknownField) : bytes :=
  match f with
  | UVarint _ v => WriteVarint64ToArray v
  | UFixed32 _ v => WriteLittleEndian32ToArray v
  | UFixed64 _ v => WriteLittleEndian64ToArray v
  | ULengthDelimited _ v => WriteStringWithSizeToArray v
  | UGroup n g =>
      SerializeUnknownFieldsToArray g ++ WriteTagToArray n WIRETYPE_END_GROUP
  end.

Lemma unknown_split f :
  SerializeUnknownFieldToArray f = WriteVarint32ToArray (field_tag f) ++ field_body f.
Proof. by destruct f. Qed.

Lemma unknown_ok_number budget f : unknown_ok budget f → field_number_ok (number f).
Proof. by destruct f; intros []. Qed.

Lemma wire_type_range f : 0 <= wire_type f < 8.
Proof. by destruct f. Qed.

(** Skipping a body with the field's own tag stores the field. *)
Definition skips_back (f : UnknownField) : Prop :=
  ∀ uf s r, ready s → unknown_ok (recursion_budget_ s) f → buffer_ s = field_body f ++ r →
  ∃ fuel s', skip_field fuel (field_tag f) uf s = Some (true, uf ++ [f], s') ∧
    advances s s' ∧ buffer_ s' = r.

Lemma le64_roundtrip v r :
  is_u64 v → ReadLittleEndian64FromArray (WriteLittleEndian64ToArray v ++ r) = v.
Proof.
  intros Hv. unfold ReadLittleEndian64FromArray, WriteLittleEndian64ToArray.
  rewrite <- app_assoc, le32_app, le32_roundtrip by apply u32_range.
  change (drop 4 (WriteLittleEndian32ToArray (u32 v) ++ WriteLittleEndian32ToArray (u32 (Z.shiftr v 32)) ++ r))
    with (WriteLittleEndian32ToArray (u32 (Z.shiftr v 32)) ++ r).
  rewrite le32_app, le32_roundtrip by apply u32_range.
  rewrite Z.shiftr_div_pow2 by lia. pose proof (u32_range v).
  assert (0 <= v / 2 ^ 32 < 2 ^ 32).
  { znorm. split; [apply Z.div_pos; lia|apply Z.div_lt_upper_bound; lia]. }
  rewrite (u32_small (v / 2 ^ 32)) by (znorm; lia). rewrite lor_shiftl_add by (znorm; lia).
  unfold u32. pose proof (Z.div_mod v (2 ^ 32) ltac:(lia)). lia.
Qed.

Lemma ReadLittleEndian64_write s v r :
  is_u64 v → buffer_ s = WriteLittleEndian64ToArray v ++ r →
  ReadLittleEndian64 s = (Some v, set_buffer s r).
Proof.
  intros Hv E. unfold ReadLittleEndian64, BufferSize, CodedInput.Advance. rewrite E, zlen_app.
  change (zlen (WriteLittleEndian64ToArray v)) with 8. pose proof (zlen_nonneg r).
  rewrite (proj2 (Z.leb_le _ _)) by lia. by rewrite le64_roundtrip.
Qed.

(** A length-prefixed string is read back. *)
Lemma ReadVarint32_ReadString s v old r :
  flat s → zlen v <= INT_MAX → buffer_ s = WriteStringWithSizeToArray v ++ r →
  ReadVarint32 s = (Some (zlen v), set_buffer s (v ++ r)) ∧
  CodedInput.ReadString (s32 (zlen v)) old (set_buffer s (v ++ r)) = (true, v, set_buffer s r).
Proof.
  intros F Hv E. pose proof (zlen_nonneg v) as Hp.
  unfold WriteStringWithSizeToArray in E. rewrite u32_small, <- app_assoc in E by (znorm; lia).
  split.
  - apply ReadVarint32_write; [done|znorm; lia|done].
  - unfold CodedInput.ReadString. rewrite s32_small by (znorm; lia).
    rewrite (proj2 (Z.ltb_ge _ _)) by lia. rewrite (ReadRaw_app _ v r); [done| |done].
    eapply advances_flat; [|exact F]. by eapply advances_app.
Qed.

Lemma skip_message_back n g : field_number_ok n → Forall skips_back g →
  ∀ uf s r, ready s → Forall (unknown_ok (recursion_budget_ s)) g →
  buffer_ s = SerializeUnknownFieldsToArray g ++ WriteTagToArray n WIRETYPE_END_GROUP ++ r →
  ∃ fuel s', skip_message fuel uf s = Some (true, uf ++ g, s') ∧ advances s s' ∧ buffer_ s' = r ∧
    last_tag_ s' = MakeTag n WIRETYPE_END_GROUP.
Proof.
  intros Hn Hg. induction Hg as [|f g Hf _ IH]; intros uf s r R Hok E.
  - destruct (MakeTag_u32 n WIRETYPE_END_GROUP) as [Hu Hz]; [done|done|].
    exists 1%nat. eexists. cbn [skip_message].
    rewrite (ReadTag_write s (MakeTag n WIRETYPE_END_GROUP) r) by (apply R || done).
    rewrite (proj2 (Z.eqb_neq _ _)) by done. rewrite GetTagWireType_MakeTag by done.
    rewrite app_nil_r. cbn [Z.eqb]. split; [done|]. split; [|done].
    etransitivity; [|apply advances_last_tag]. apply (advances_app s (WriteTagToArray n WIRETYPE_END_GROUP) r E).
  - inversion Hok as [|? ? Hokf Hokg]; subst.
    cbn [SerializeUnknownFieldsToArray map concat] in E. unfold SerializeUnknownFieldsToArray in E.
    cbn [map concat] in E. rewrite unknown_split, <- !app_assoc in E.
    pose proof (unknown_ok_number _ _ Hokf) as Hnf. pose proof (wire_type_range f) as Hw.
    destruct (MakeTag_u32 (number f) (wire_type f)) as [Hu Hz]; [done|done|].
    set (k := field_body f ++ _) in E.
    assert (R1 : ready (set_last_tag (set_buffer s k) (field_tag f))).
    { eapply advances_ready; [|exact R]. etransitivity; [|apply advances_last_tag].
      by eapply advances_app. }
    destruct (Hf uf _ _ R1 Hokf eq_refl) as (f1 & s1 & E1 & A1 & B1).
    pose proof (advances_ready _ _ A1 R1) as R2.
    destruct (IH (uf ++ [f]) s1 r R2) as (f2 & s2 & E2 & A2 & B2 & L2).
    { by rewrite (advances_budget _ _ A1). }
    { done. }
    exists (S (f1 + f2)). exists s2. cbn [skip_message].
    rewrite (ReadTag_write s (field_tag f) k) by (apply R || done).
    rewrite (proj2 (Z.eqb_neq _ _)) by done. unfold field_tag at 1.
    rewrite GetTagWireType_MakeTag by done.
    assert ((wire_type f =? WIRETYPE_END_GROUP) = false) as -> by by destruct f.
    rewrite (proj1 (skip_mono _) _ _ _ _ E1) by lia.
    rewrite (proj2 (skip_mono _) _ _ _ E2) by lia. rewrite <- app_assoc.
    split_and!; auto. etransitivity; [|exact A2]. etransitivity; [|exact A1].
    etransitivity; [|apply advances_last_tag]. by eapply advances_app.
Qed.

(** Enter a wire type's branch of [SkipField]. *)
Ltac enter_branch Hn :=
  exists 1%nat; cbn [skip_field]; unfold field_tag; cbn [number wire_type];
  rewrite GetTagFieldNumber_MakeTag, GetTagWireType_MakeTag by done;
  rewrite (proj2 (Z.eqb_neq _ 0)) by (unfold field_number_ok in Hn; lia).

Lemma skip_field_back f : skips_back f.
Proof.
  induction f as [n v|n v|n v|n v|n g IH] using unknown_ind; intros uf s r R Hok E;
    cbn [field_body] in E; pose proof (proj1 R) as F.
  - destruct Hok as [Hn Hv]. enter_branch Hn. exists (set_buffer s r).
    split; [|split; [by eapply advances_app|done]].
    unfold WIRETYPE_VARINT. by rewrite (ReadVarint64_write s v r).
  - destruct Hok as [Hn Hv]. enter_branch Hn. exists (set_buffer s r).
    split; [|split; [by eapply advances_app|done]].
    unfold WIRETYPE_FIXED32. by rewrite (ReadLittleEndian32_write s v r).
  - destruct Hok as [Hn Hv]. enter_branch Hn. exists (set_buffer s r).
    split; [|split; [by eapply advances_app|done]].
    unfold WIRETYPE_FIXED64. by rewrite (ReadLittleEndian64_write s v r).
  - destruct Hok as [Hn Hv]. enter_branch Hn. exists (set_buffer s r).
    split; [|split; [by eapply advances_app|done]].
    destruct (ReadVarint32_ReadString s v [] r F Hv E) as [E1 E2].
    unfold WIRETYPE_LENGTH_DELIMITED. by rewrite E1, E2.
  - apply unknown_ok_group in Hok as (Hn & Hb & Hg). rewrite <- app_assoc in E.
    destruct (skip_message_back n g Hn IH [] (set_budget s (recursion_budget_ s - 1)) r)
      as (f1 & s1 & E1 & A1 & B1 & L1); [by apply descend_ready|done|done|].
    exists (S f1), (DecrementRecursionDepth s1). cbn [skip_field]. unfold field_tag.
    cbn [number wire_type]. rewrite GetTagFieldNumber_MakeTag, GetTagWireType_MakeTag by done.
    rewrite (proj2 (Z.eqb_neq _ 0)) by (unfold field_number_ok in Hn; lia).
    unfold WIRETYPE_START_GROUP, IncrementRecursionDepth. cbn [recursion_budget_ set_budget].
    rewrite (proj2 (Z.leb_le _ _)) by lia. cbn [negb]. rewrite E1. cbn [negb app].
    assert (HL : last_tag_ (DecrementRecursionDepth s1) = last_tag_ s1 ∧
                 buffer_ (DecrementRecursionDepth s1) = buffer_ s1).
    { unfold DecrementRecursionDepth. by case_match. }
    unfold LastTagWas. rewrite (proj1 HL), L1, Z.eqb_refl. split; [done|].
    split; [by apply ascend_advances|]. by rewrite (proj2 HL).
Qed.

End Skipping.

(** ** Nested messages *)

Section Nested.
Import CodedInput.

Lemma PushLimit_beyond s n :
  flat s → zlen (buffer_ s) <= n → PushLimit n s = (current_limit_ s, s).
Proof.
  intros (_ & Hl & _) Hn. unfold PushLimit, CurrentPosition, BufferSize.
  rewrite (proj2 (Z.ltb_ge n _)) by lia. by rewrite andb_false_r.
Qed.

(** Entering a length-delimited field confines the reads to its bytes (or to the
    rest of the outer buffer, when it claims more); leaving gives back what
    follows. *)
Lemma nested_enter s n :
  ready s → 0 <= n →
  ∃ k r s1, buffer_ s = k ++ r ∧
    IncrementRecursionDepthAndPushLimit n s = (current_limit_ s, recursion_budget_ s - 1, s1) ∧
    ready s1 ∧ buffer_ s1 = k ∧ recursion_budget_ s1 = recursion_budget_ s - 1 ∧
    (n <= zlen (buffer_ s) → zlen k = n) ∧
    ∀ s2, advances s1 s2 →
      ∃ s3, DecrementRecursionDepthAndPopLimit (current_limit_ s) s2
              = (legitimate_message_end_ s2, s3) ∧
            advances s s3 ∧ buffer_ s3 = buffer_ s2 ++ r.
Proof.
  intros [F Hb] Hn.
  assert (∃ k r s1, buffer_ s = k ++ r ∧ PushLimit n s = (current_limit_ s, s1) ∧ flat s1 ∧
    buffer_ s1 = k ∧ after_limit_ s1 = r ++ after_limit_ s ∧ total_bytes_read_ s1 = total_bytes_read_ s ∧
    recursion_budget_ s1 = recursion_budget_ s ∧ input_ s1 = input_ s ∧
    (n <= zlen (buffer_ s) → zlen k = n)) as (k & r & s1 & E & HP & F1 & B1 & A1 & T1 & R1 & I1 & L1).
  { destruct (Z.le_ge_cases (zlen (buffer_ s)) n) as [Hz|Hz].
    - exists (buffer_ s), [], s. rewrite app_nil_r. rewrite PushLimit_beyond by done.
      split_and!; auto. lia.
    - exists (take (Z.to_nat n) (buffer_ s)), (drop (Z.to_nat n) (buffer_ s)).
      assert (Hk : zlen (take (Z.to_nat n) (buffer_ s)) = n) by (apply zlen_take; lia).
      destruct (PushLimit_app s (take (Z.to_nat n) (buffer_ s)) (drop (Z.to_nat n) (buffer_ s)))
        as (s1 & HP & ? & ? & ? & ? & ? & ? & _); [done|by rewrite take_drop|].
      exists s1. rewrite take_drop. rewrite Hk in HP. split_and!; auto. }
  exists k, r, (set_budget s1 (recursion_budget_ s - 1)). split; [done|].
  unfold IncrementRecursionDepthAndPushLimit. rewrite HP, R1. split; [done|].
  split; [split; [exact F1|simpl; lia]|]. split_and!; [done|done|done|].
  intros s2 (m & B2 & A2 & I2 & T2 & _ & R2). simpl in *.
  unfold DecrementRecursionDepthAndPopLimit, ConsumedEntireMessage. eexists. split; [done|].
  destruct F as (G1 & G2 & _ & G4). rewrite G2.
  assert (total_bytes_read_ s2 = total_bytes_read_ s) as Ht by congruence.
  rewrite <- Ht. rewrite (PopLimit_app s2 r (after_limit_ s)) by (congruence || lia).
  split; [|done]. exists (Nat.min m (length k)). simpl. split_and!; [|congruence..|lia|lia].
  rewrite E, B2, B1, skipn_app.
  replace (Nat.min m (length k) - length k)%nat with 0%nat by lia. rewrite drop_0. f_equal.
  destruct (Nat.le_ge_cases m (length k)).
  - by rewrite Nat.min_l.
  - rewrite Nat.min_r by done. rewrite drop_all. by apply drop_ge.
Qed.
End Nested.

(** ** The generated parse loop *)

(** Access to the unknown fields of a message. *)
Class UnknownLens {M} (unknown_fields : M → UnknownFieldSet)
    (set_unknown_fields : M → UnknownFieldSet → M) : Prop := {
  lens_get : ∀ m uf, unknown_fields (set_unknown_fields m uf) = uf;
  lens_set : ∀ m uf uf', set_unknown_fields (set_unknown_fields m uf) uf' = set_unknown_fields m uf';
  lens_id : ∀ m, set_unknown_fields m (unknown_fields m) = m
}.

Section ParseLoop.
Import CodedOutput CodedInput WireFormatLite WireFormat MessageLite.
Context {M : Type} (switch : Z → M → CodedInputStream → case_result M).
Context (unknown_fields : M → UnknownFieldSet) (set_unknown_fields : M → UnknownFieldSet → M).
Context `{!UnknownLens unknown_fields set_unknown_fields}.

#[local] Abbreviation loop := (parse_loop switch unknown_fields set_unknown_fields).

(** A [case] that finishes, and whose success only advances the stream. *)
Definition case_total (s : CodedInputStream) (r : case_result M) : Prop :=
  match r with
  | Unusual => True
  | Do ok _ s' => ok = true → advances s s'
  | OutOfFuel => False
  end.

(** A parser that returns, and whose success only advances the stream. *)
Definition returns (s : CodedInputStream) (r : option (bool * M * CodedInputStream)) : Prop :=
  ∃ ok m s', r = Some (ok, m, s') ∧ (ok = true → advances s s').

Lemma returns_trans s s1 r : advances s s1 → returns s1 r → returns s r.
Proof.
  intros Ha (ok & m & s' & -> & H). exists ok, m, s'. split; [done|].
  intros Hok. etransitivity; [exact Ha|auto].
Qed.

Lemma returns_some s ok m s' : (ok = true → advances s s') → returns s (Some (ok, m, s')).
Proof. intros. by exists ok, m, s'. Qed.

Lemma parse_loop_total :
  (∀ t m s, ready s → case_total s (switch t m s)) →
  ∀ fuel m s, ready s → (length (buffer_ s) < fuel)%nat → returns s (loop fuel m s).
Proof.
  intros Hsw. induction fuel as [|fuel IH]; intros m s R Hf; [lia|]. cbn [parse_loop].
  destruct (ReadTagWithCutoffNoLastTag 127 s) as [[t known] s1] eqn:Et.
  apply ReadTagWithCutoff_progress in Et as [[Ha Hp] Hk]; [|apply R].
  pose proof (advances_ready _ _ Ha R) as R1.
  assert (Hnext : ∀ m' s', t ≠ 0 → advances s1 s' → returns s (loop fuel m' s')).
  { intros m' s' Ht Ha'. apply (returns_trans s s'); [by etransitivity|].
    apply IH; [by eapply advances_ready|]. specialize (Hp Ht).
    pose proof (advances_length _ _ Ha'). lia. }
  set (unusual := if t =? 0 then _ else _).
  assert (Hu : returns s unusual).
  { subst unusual. destruct (t =? 0) eqn:E0; zbool; [by apply returns_some|].
    destruct (SkipField_total t (unknown_fields m) s1 R1) as (ok & uf & s' & -> & Ha').
    destruct ok; [|by apply returns_some]. by apply Hnext; auto. }
  destruct known; [|exact Hu]. cbn [negb]. specialize (Hsw t m s1 R1).
  destruct (switch t m s1) as [|ok m' s'|]; [exact Hu| |done].
  destruct ok; [|by apply returns_some]. by apply Hnext; auto.
Qed.

Lemma parse_loop_mono f f' m s r : loop f m s = Some r → (f <= f')%nat → loop f' m s = Some r.
Proof.
  revert f' m s. induction f as [|f IH]; intros [|f'] m s E Hf; [done..|lia|]. cbn [parse_loop] in *.
  destruct (ReadTagWithCutoffNoLastTag 127 s) as [[t known] s1].
  destruct (negb known); [|destruct (switch t m s1) as [|[] m' s'|]; try done].
  3: by apply IH; [|lia].
  all: destruct (t =? 0); [done|];
    destruct (SkipField _ _ _) as [[[[] uf] s2]|]; try done; apply IH; [done|lia].
Qed.

Lemma parse_any_fuel f m s r :
  (∀ t m s, ready s → case_total s (switch t m s)) → ready s →
  loop f m s = Some r → parse switch unknown_fields set_unknown_fields m s = Some r.
Proof.
  intros Hsw R E. unfold parse.
  destruct (parse_loop_total Hsw (S (unread s)) m s R) as (ok & m' & s' & Hs & _).
  { unfold unread. lia. }
  destruct (Nat.le_ge_cases f (S (unread s))) as [Hl|Hl].
  - by eapply parse_loop_mono.
  - rewrite Hs, <- E. symmetry. by eapply parse_loop_mono.
Qed.

(** *** Composing what the loop reads *)

(** From message [m], the loop consumes [b] and is left with [m']. *)
Definition parses (budget : Z) (m : M) (b : bytes) (m' : M) : Prop :=
  ∀ s r, ready s → budget <= recursion_budget_ s → buffer_ s = b ++ r →
  ∃ n s', advances s s' ∧ buffer_ s' = r ∧ ∀ f, loop (n + f) m s = loop f m' s'.

Lemma parses_nil budget m : parses budget m [] m.
Proof. intros s r _ _ E. exists 0%nat, s. by split_and!. Qed.

Lemma parses_app budget m1 m2 m3 b c :
  parses budget m1 b m2 → parses budget m2 c m3 → parses budget m1 (b ++ c) m3.
Proof.
  intros H1 H2 s r R Hb E. rewrite <- app_assoc in E.
  destruct (H1 s _ R Hb E) as (n1 & s1 & A1 & B1 & E1).
  pose proof (advances_ready _ _ A1 R) as R1.
  destruct (H2 s1 r R1) as (n2 & s2 & A2 & B2 & E2); [by rewrite (advances_budget _ _ A1)|done|].
  exists (n1 + n2)%nat, s2. split_and!; [by etransitivity|done|].
  intros f. by rewrite <- Nat.add_assoc, E1, E2.
Qed.

(** A field written only when [c] holds, in which case it changes the message. *)
Lemma parses_opt budget m m' (c : bool) b :
  (c = true → parses budget m b m') → (c = false → m' = m) →
  parses budget m (opt_bytes c b) m'.
Proof. intros Ht Hf. destruct c; [by apply Ht|]. rewrite Hf by done. apply parses_nil. Qed.

(** A known field with a one-byte tag. *)
Lemma parses_known budget m m' t b :
  0 < t < 128 →
  (∀ s r, ready s → budget <= recursion_budget_ s → buffer_ s = b ++ r →
     ∃ s', switch t m s = Do true m' s' ∧ advances s s' ∧ buffer_ s' = r) →
  parses budget m (z2b t :: b) m'.
Proof.
  intros Ht Hsw s r R Hb E. exists 1%nat. rewrite <- app_comm_cons in E.
  assert (A1 : advances s (set_buffer s (b ++ r))) by by apply (advances_app s [z2b t]).
  destruct (Hsw (set_buffer s (b ++ r)) r) as (s' & Es & A2 & B2).
  { by eapply advances_ready. }
  { by rewrite (advances_budget _ _ A1). }
  { done. }
  exists s'. split_and!; [by etransitivity|done|]. intros f. cbn [Nat.add parse_loop].
  rewrite (ReadTag_one_byte s t (b ++ r)) by done. cbn [negb]. by rewrite Es.
Qed.

(** An unknown field: every way the loop can read its tag ends in [SkipField]. *)
Lemma parses_unknown budget m f :
  unknown_ok budget f → (∀ m s, switch (field_tag f) m s = Unusual) →
  parses budget m (SerializeUnknownFieldToArray f)
    (set_unknown_fields m (unknown_fields m ++ [f])).
Proof.
  intros Hok Hsw s r R Hb E. rewrite unknown_split, <- app_assoc in E.
  pose proof (unknown_ok_number _ _ Hok) as Hn. pose proof (wire_type_range f) as Hw.
  destruct (MakeTag_u32 (number f) (wire_type f)) as [Hu Hz]; [done|done|].
  destruct (ReadTagWithCutoff_write s (field_tag f) (field_body f ++ r)) as [known Et];
    [apply R|done|done|done|].
  assert (A1 : advances s (set_buffer s (field_body f ++ r))) by by eapply advances_app.
  pose proof (advances_ready _ _ A1 R) as R1.
  destruct (skip_field_back f (unknown_fields m) (set_buffer s (field_body f ++ r)) r R1)
    as (fu & s' & Es & A2 & B2).
  { eapply unknown_ok_mono; [|exact Hok]. done. }
  { done. }
  apply SkipField_any_fuel in Es; [|done].
  exists 1%nat, s'. split_and!; [by etransitivity|done|]. intros k. cbn [Nat.add parse_loop].
  rewrite Et, Hsw, Es. rewrite (proj2 (Z.eqb_neq _ _)) by done. by destruct known.
Qed.

Lemma parses_unknowns budget m uf :
  Forall (unknown_ok budget) uf → Forall (λ f, ∀ m s, switch (field_tag f) m s = Unusual) uf →
  parses budget m (SerializeUnknownFieldsToArray uf)
    (set_unknown_fields m (unknown_fields m ++ uf)).
Proof.
  intros Hok. revert m. induction Hok as [|f uf Hf _ IH]; intros m Hu.
  - rewrite app_nil_r, lens_id. apply parses_nil.
  - inversion Hu; subst. unfold SerializeUnknownFieldsToArray. cbn [map concat].
    eapply parses_app; [by apply parses_unknown|].
    specialize (IH (set_unknown_fields m (unknown_fields m ++ [f]))).
    rewrite lens_get, lens_set, <- app_assoc in IH. by apply IH.
Qed.

(** A repeated field, one element after the other. *)
Lemma parses_repeat {A} budget (put : M → A → M) (b : A → bytes) l m :
  Forall (λ x, ∀ m, parses budget m (b x) (put m x)) l →
  parses budget m (concat (map b l)) (fold_left put l m).
Proof.
  intros H. revert m. induction H as [|x l Hx _ IH]; intros m; cbn [map concat fold_left].
  - apply parses_nil.
  - eapply parses_app; [apply Hx|apply IH].
Qed.

(** The whole message: the loop stops at the end of the buffer, legitimately. *)
Lemma parse_complete budget m b m' s :
  (∀ t m s, ready s → case_total s (switch t m s)) →
  parses budget m b m' → ready s → budget <= recursion_budget_ s → buffer_ s = b →
  ∃ s', parse switch unknown_fields set_unknown_fields m s = Some (true, m', s') ∧
    advances s s' ∧ buffer_ s' = [] ∧ legitimate_message_end_ s' = true.
Proof.
  intros Hsw Hp R Hb E. destruct (Hp s [] R Hb) as (n & s1 & A1 & B1 & E1); [by rewrite app_nil_r|].
  exists (set_legitimate s1 true). split; [|split_and!; [|done|done]].
  - apply (parse_any_fuel (n + 1)); [done|done|]. rewrite E1. cbn [parse_loop].
    rewrite ReadTag_end; [done| |done]. eapply advances_flat; [done|apply R].
  - etransitivity; [done|apply advances_legitimate].
Qed.

End ParseLoop.

Arguments case_total {M} _ _.
Arguments returns {M} _ _.

(** ** The contract of a generated message *)

(** [message_typed]: the C++ fields can hold the values; [message_ok budget]:
    moreover the wire format carries them and a parser with [budget] levels of
    recursion left reads them. *)
Class MessageLaws (M : Type) `{Message M} := {
  message_typed : M → Prop;
  message_ok : Z → M → Prop;
  law_typed : ∀ b m, message_ok b m → message_typed m;
  law_clear : ∀ m, Clear m = New;
  law_total : ∀ m s, ready s → returns s (MergePartialFromCodedStream m s);
  law_emits : ∀ m, message_typed m →
    emits (SerializeWithCachedSizes m) (InternalSerializeWithCachedSizesToArray m);
  law_size : ∀ m, message_typed m →
    ByteSizeLong m = u32 (zlen (InternalSerializeWithCachedSizesToArray m));
  law_roundtrip : ∀ b m s, message_ok b m → ready s → b <= CodedInput.recursion_budget_ s →
    CodedInput.buffer_ s = InternalSerializeWithCachedSizesToArray m →
    ∃ s', MergePartialFromCodedStream New s = Some (true, m, s') ∧ advances s s' ∧
      CodedInput.buffer_ s' = [] ∧ CodedInput.legitimate_message_end_ s' = true
}.

Section Entry.
Import CodedOutput CodedInput WireFormatLite WireFormat MessageLite.
Context {M : Type} `{MessageLaws M}.

Lemma of_array_ready data : zlen data < INT_MAX → ready (of_array data).
Proof.
  intros Hd. pose proof (zlen_nonneg data). split; [|done]. unfold flat, BufferSize. simpl.
  rewrite zlen_nil. repeat split; lia.
Qed.

Lemma ParseFromArray_total data m :
  zlen data < INT_MAX → ∃ ok m', ParseFromArray data m = Some (ok, m').
Proof.
  intros Hd. unfold ParseFromArray.
  destruct (law_total (Clear m) (of_array data)) as (ok & m' & s' & -> & _).
  { by apply of_array_ready. }
  by eexists _, _.
Qed.

Lemma ParseFromArray_roundtrip m old :
  message_ok default_recursion_limit_ m →
  zlen (InternalSerializeWithCachedSizesToArray m) < INT_MAX →
  ParseFromArray (InternalSerializeWithCachedSizesToArray m) old = Some (true, m).
Proof.
  intros Hm Hl. unfold ParseFromArray. rewrite law_clear.
  destruct (law_roundtrip default_recursion_limit_ m
    (of_array (InternalSerializeWithCachedSizesToArray m))) as (s' & -> & _ & _ & Hleg);
    [done|by apply of_array_ready|done|done|].
  unfold ConsumedEntireMessage. by rewrite Hleg.
Qed.

Lemma write_direct_emits m : message_typed m →
  emits (write_direct (GetCachedSize m) m) (InternalSerializeWithCachedSizesToArray m).
Proof.
  intros Hm o Ho. unfold write_direct. case_match eqn:E; zbool; [by apply law_emits|].
  simpl. split; [lia|done].
Qed.

Lemma WriteMessage_emits n m : field_number_ok n → message_typed m →
  emits (WriteMessageMaybeToArray n m) (InternalWriteMessageToArray n m).
Proof.
  intros Hn Hm. apply (emits_seq (WireFormatLite.WriteTag n WIRETYPE_LENGTH_DELIMITED)
    (WriteVarint32 (u32 (GetCachedSize m)) >>> write_direct (GetCachedSize m) m)).
  - by apply WriteTag_emits.
  - apply emits_seq; [apply WriteVarint32_emits, u32_range|by apply write_direct_emits].
Qed.

(** The cached size is the true length below 2 GiB. *)
Lemma GetCachedSize_length m : message_typed m →
  u32 (GetCachedSize m) = u32 (zlen (InternalSerializeWithCachedSizesToArray m)).
Proof. intros Hm. unfold GetCachedSize. rewrite u32_s32, law_size by done. apply u32_idemp. Qed.

Lemma MessageSize_length n m : message_typed m → field_number_ok n →
  VarintSize32 (MakeTag n WIRETYPE_LENGTH_DELIMITED) = 1 →
  u32 (1 + MessageSize m) = u32 (zlen (InternalWriteMessageToArray n m)).
Proof.
  intros Hm Hn Ht. unfold MessageSize, LengthDelimitedSize, InternalWriteMessageToArray.
  rewrite !zlen_app, zlen_tag, Ht by done. rewrite GetCachedSize_length by done.
  rewrite zlen_WriteVarint32 by apply u32_range. rewrite law_size by done.
  rewrite u32_add_r, u32_idemp. set (z := zlen _). set (v := VarintSize32 _).
  replace (1 + (u32 z + v)) with (u32 z + (1 + v)) by lia. rewrite u32_add_l. f_equal. lia.
Qed.

Lemma SerializeToCodedStream_emits m :
  message_typed m → zlen (InternalSerializeWithCachedSizesToArray m) <= INT_MAX →
  ∀ o, 0 <= buffer_size_ o →
  ∃ o', SerializeToCodedStream m o = (true, o') ∧ 0 <= buffer_size_ o' ∧
    written o' = written o ++ InternalSerializeWithCachedSizesToArray m.
Proof.
  intros Hm Hl o Ho. unfold SerializeToCodedStream.
  pose proof (zlen_nonneg (InternalSerializeWithCachedSizesToArray m)).
  assert (Hs : ByteSizeLong m = zlen (InternalSerializeWithCachedSizesToArray m)).
  { rewrite law_size by done. apply u32_small. znorm. lia. }
  assert (Hc : GetCachedSize m = ByteSizeLong m).
  { unfold GetCachedSize. rewrite Hs. apply s32_small. znorm. lia. }
  rewrite (proj2 (Z.ltb_ge _ _)) by lia. eexists. split; [done|]. rewrite <- Hc.
  by apply write_direct_emits.
Qed.

Lemma ReadMessage_total m s : ready s → returns s (ReadMessage m s).
Proof.
  intros R. unfold ReadMessage. destruct (ReadVarintSizeAsInt s) as [[n|] s1] eqn:E.
  2:{ by apply returns_some. }
  apply ReadVarintSizeAsInt_advances in E as [A1 Hn]; [|apply R].
  pose proof (advances_ready _ _ A1 R) as R1.
  destruct (nested_enter s1 n R1) as (k & r & s2 & _ & -> & R2 & _ & _ & _ & Hleave); [lia|].
  destruct (_ <? 0); [by apply returns_some|].
  destruct (law_total m s2 R2) as (ok & m' & s3 & -> & A3).
  destruct ok; [|by apply returns_some]. destruct (Hleave s3) as (s4 & -> & A4 & _); [auto|].
  apply returns_some. intros _. by etransitivity.
Qed.

Lemma ReadMessage_roundtrip b m s r :
  message_ok b m → ready s → b + 1 <= recursion_budget_ s → 0 <= b →
  zlen (InternalSerializeWithCachedSizesToArray m) <= INT_MAX →
  buffer_ s = WriteVarint32ToArray (u32 (GetCachedSize m))
              ++ InternalSerializeWithCachedSizesToArray m ++ r →
  ∃ s', ReadMessage New s = Some (true, m, s') ∧ advances s s' ∧ buffer_ s' = r.
Proof.
  intros Hm R Hb Hb0 Hl E. pose proof (law_typed _ _ Hm) as Ht.
  set (body := InternalSerializeWithCachedSizesToArray m) in *.
  pose proof (zlen_nonneg body) as Hp.
  rewrite GetCachedSize_length, u32_small in E by (done || (fold body; znorm; lia)). fold body in E.
  unfold ReadMessage. rewrite (ReadVarintSizeAsInt_write s (zlen body) (body ++ r)) by (apply R || done).
  assert (A1 : advances s (set_buffer s (body ++ r))) by by eapply advances_app.
  pose proof (advances_ready _ _ A1 R) as R1.
  destruct (nested_enter (set_buffer s (body ++ r)) (zlen body) R1 Hp)
    as (k & r' & s2 & Ek & -> & R2 & B2 & G2 & Lk & Hleave).
  cbn [buffer_ current_limit_ recursion_budget_ set_buffer] in Ek, G2, Lk, Hleave |- *. rewrite zlen_app in Lk. pose proof (zlen_nonneg r) as Hr.
  specialize (Lk ltac:(lia)). apply app_inj_1 in Ek as [<- <-]; [|unfold zlen in Lk; lia].
  rewrite (proj2 (Z.ltb_ge _ _)) by lia.
  destruct (law_roundtrip b m s2 Hm R2) as (s3 & -> & A3 & B3 & L3); [lia|done|].
  destruct (Hleave s3 A3) as (s4 & -> & A4 & B4). rewrite L3.
  exists s4. split_and!; [done|by etransitivity|]. by rewrite B4, B3.
Qed.

End Entry.

(** ** Fields *)

Section Fields.
Import CodedOutput CodedInput WireFormatLite MessageLite.

(** A string the wire format carries. *)
Definition string_ok (v : bytes) : Prop :=
  zlen v <= INT_MAX ∧ Utf8.IsStructurallyValidUTF8 v = true.

Lemma ReadVerifiedString_back s v old r :
  ready s → string_ok v → buffer_ s = WriteStringWithSizeToArray v ++ r →
  ReadVerifiedString old s = (true, v, set_buffer s r) ∧ advances s (set_buffer s r).
Proof.
  intros [F _] [Hl Hu] E. unfold ReadVerifiedString, ReadString.
  destruct (ReadVarint32_ReadString s v old r F Hl E) as [-> ->]. unfold VerifyUtf8String.
  rewrite Hu. split; [done|by eapply advances_app].
Qed.

Lemma ReadPrimitive_int32_back s v old r :
  ready s → is_s32 v → buffer_ s = WriteVarint32SignExtendedToArray v ++ r →
  ReadPrimitive_int32 old s = (true, v, set_buffer s r) ∧ advances s (set_buffer s r).
Proof.
  intros [F _] Hv E. unfold ReadPrimitive_int32. rewrite (ReadVarint32_write_signed s v r) by done.
  rewrite s32_u32, s32_small by done. split; [done|by eapply advances_app].
Qed.

Lemma ReadPrimitive_enum_back s v old r :
  ready s → is_s32 v → buffer_ s = WriteVarint32SignExtendedToArray v ++ r →
  ReadPrimitive_enum old s = (true, v, set_buffer s r) ∧ advances s (set_buffer s r).
Proof. apply ReadPrimitive_int32_back. Qed.

Lemma ReadPrimitive_bool_back s (v : bool) old r :
  ready s → buffer_ s = WriteVarint32ToArray (if v then 1 else 0) ++ r →
  ReadPrimitive_bool old s = (true, v, set_buffer s r) ∧ advances s (set_buffer s r).
Proof.
  intros [F _] E. unfold ReadPrimitive_bool.
  rewrite (varint_result_app u64 s _ (if v then 1 else 0) r).
  - split; [by destruct v|by eapply advances_app].
  - by apply ReadVarint64_ref.
  - rewrite E. apply varint_ref_write32. znorm. destruct v; lia.
Qed.

Lemma ReadPrimitive_float_back s v old r :
  ready s → is_u32 v → buffer_ s = WriteLittleEndian32ToArray v ++ r →
  ReadPrimitive_float old s = (true, v, set_buffer s r) ∧ advances s (set_buffer s r).
Proof.
  intros [F _] Hv E. unfold ReadPrimitive_float, DecodeFloat.
  rewrite (ReadLittleEndian32_write s v r) by done. split; [done|by eapply advances_app].
Qed.

(** *** Reads only advance *)

Lemma ReadVerifiedString_advances s old ok v s' :
  ready s → ReadVerifiedString old s = (ok, v, s') → advances s s'.
Proof.
  intros [F _]. unfold ReadVerifiedString, ReadString. destruct (ReadVarint32 s) as [[n|] s1] eqn:E.
  - apply ReadVarint32_advances in E; [|done].
    destruct (CodedInput.ReadString _ _ _) as [[ok' v'] s2] eqn:E2. intros. simplify_eq.
    apply ReadString_advances in E2; [|by eapply advances_flat]. by etransitivity.
  - intros. simplify_eq. by eapply ReadVarint32_advances.
Qed.

Lemma ReadPrimitive_int32_advances s old ok v s' :
  ready s → ReadPrimitive_int32 old s = (ok, v, s') → advances s s'.
Proof.
  intros [F _]. unfold ReadPrimitive_int32. destruct (ReadVarint32 s) as [[n|] s1] eqn:E;
    intros; simplify_eq; by eapply ReadVarint32_advances.
Qed.

Lemma ReadPrimitive_enum_advances s old ok v s' :
  ready s → ReadPrimitive_enum old s = (ok, v, s') → advances s s'.
Proof. apply ReadPrimitive_int32_advances. Qed.

Lemma ReadPrimitive_bool_advances s old ok v s' :
  ready s → ReadPrimitive_bool old s = (ok, v, s') → advances s s'.
Proof.
  intros [F _]. unfold ReadPrimitive_bool. destruct (ReadVarint64 s) as [[n|] s1] eqn:E;
    intros; simplify_eq; by eapply ReadVarint64_advances.
Qed.

Lemma ReadPrimitive_float_advances s old ok v s' :
  ready s → ReadPrimitive_float old s = (ok, v, s') → advances s s'.
Proof.
  intros [F _]. unfold ReadPrimitive_float. destruct (ReadLittleEndian32 s) as [[n|] s1] eqn:E;
    intros; simplify_eq; by eapply ReadLittleEndian32_advances.
Qed.

End Fields.
