(* ===== verification/BaseCmd.v ===== *)
(** The messages of BaseCmd.proto, as protoc generated them
    (src/Shared/code/protobuf/BaseCmd.pb.{h,cc}): per message a record of its
    fields with its unknown fields, the accessors, and the generated operations
    statement by statement.  [have_unknown_fields() && ...] guards are not
    repeated: the guarded calls do nothing on an empty set and
    [GetProto3PreserveUnknownsDefault()] is true.  [SetCachedSize] has no field of
    its own: [GetCachedSize] is read only after [ByteSizeLong]. *)

From S2P Require Import Prelude CodedStream WireFormat.
Import CodedOutput CodedInput WireFormatLite WireFormat MessageLite.

(** ** CmdType: the head of every frame: the type name of the body and its size, and two unused addresses *)

Record CmdType := mk_CmdType {
  CmdType_type : bytes;
  CmdType_size : Z;
  CmdType_fromip : bytes;
  CmdType_toip : bytes;
  CmdType_unknown_fields : UnknownFieldSet
}.

Definition set_CmdType_type (m : CmdType) (value : bytes) : CmdType :=
  mk_CmdType value (CmdType_size m) (CmdType_fromip m) (CmdType_toip m) (CmdType_unknown_fields m).

Definition set_CmdType_size (m : CmdType) (value : Z) : CmdType :=
  mk_CmdType (CmdType_type m) value (CmdType_fromip m) (CmdType_toip m) (CmdType_unknown_fields m).

Definition set_CmdType_fromip (m : CmdType) (value : bytes) : CmdType :=
  mk_CmdType (CmdType_type m) (CmdType_size m) value (CmdType_toip m) (CmdType_unknown_fields m).

Definition set_CmdType_toip (m : CmdType) (value : bytes) : CmdType :=
  mk_CmdType (CmdType_type m) (CmdType_size m) (CmdType_fromip m) value (CmdType_unknown_fields m).

Definition set_CmdType_unknown_fields (m : CmdType) (value : UnknownFieldSet) : CmdType :=
  mk_CmdType (CmdType_type m) (CmdType_size m) (CmdType_fromip m) (CmdType_toip m) value.

Definition CmdType_New : CmdType := mk_CmdType [] 0 [] [] [].

(** The copy constructor. *)
Definition CmdType_copy (from : CmdType) : CmdType :=
  mk_CmdType (if 0 <? zlen (CmdType_type from) then CmdType_type from else [])
    (CmdType_size from)
    (if 0 <? zlen (CmdType_fromip from) then CmdType_fromip from else [])
    (if 0 <? zlen (CmdType_toip from) then CmdType_toip from else []) ([] ++ CmdType_unknown_fields from).

Definition CmdType_Clear (m : CmdType) : CmdType :=
  let m := set_CmdType_type m [] in
  let m := set_CmdType_fromip m [] in
  let m := set_CmdType_toip m [] in
  let m := set_CmdType_size m 0 in
  set_CmdType_unknown_fields m [].

Definition CmdType_switch (tag : Z) (m : CmdType) (s : CodedInputStream) : case_result CmdType :=
  match GetTagFieldNumber tag with
  | 1 => on_tag tag 10
      (let '(ok, v, s) := ReadVerifiedString (CmdType_type m) s in Do ok (set_CmdType_type m v) s)
  | 2 => on_tag tag 16
      (let '(ok, v, s) := ReadPrimitive_int32 (CmdType_size m) s in Do ok (set_CmdType_size m v) s)
  | 3 => on_tag tag 26
      (let '(ok, v, s) := ReadVerifiedString (CmdType_fromip m) s in Do ok (set_CmdType_fromip m v) s)
  | 4 => on_tag tag 34
      (let '(ok, v, s) := ReadVerifiedString (CmdType_toip m) s in Do ok (set_CmdType_toip m v) s)
  | _ => Unusual
  end.

Definition CmdType_MergePartialFromCodedStream (m : CmdType) (s : CodedInputStream)
  : option (bool * CmdType * CodedInputStream) :=
  parse CmdType_switch CmdType_unknown_fields set_CmdType_unknown_fields m s.

Definition CmdType_SerializeWithCachedSizes (m : CmdType) : CodedOutputStream → CodedOutputStream :=
  when (0 <? zlen (CmdType_type m)) (WriteStringMaybeAliased 1 (CmdType_type m)) >>>
  when (negb (CmdType_size m =? 0)) (WriteInt32 2 (CmdType_size m)) >>>
  when (0 <? zlen (CmdType_fromip m)) (WriteStringMaybeAliased 3 (CmdType_fromip m)) >>>
  when (0 <? zlen (CmdType_toip m)) (WriteStringMaybeAliased 4 (CmdType_toip m)) >>>
  SerializeUnknownFields (CmdType_unknown_fields m).

Definition CmdType_InternalSerializeWithCachedSizesToArray (m : CmdType) : bytes :=
  opt_bytes (0 <? zlen (CmdType_type m)) (WriteStringToArray 1 (CmdType_type m)) ++
  opt_bytes (negb (CmdType_size m =? 0)) (WriteInt32ToArray 2 (CmdType_size m)) ++
  opt_bytes (0 <? zlen (CmdType_fromip m)) (WriteStringToArray 3 (CmdType_fromip m)) ++
  opt_bytes (0 <? zlen (CmdType_toip m)) (WriteStringToArray 4 (CmdType_toip m)) ++
  SerializeUnknownFieldsToArray (CmdType_unknown_fields m).

Definition CmdType_ByteSizeLong (m : CmdType) : Z :=
  let total_size := u32 (0 + ComputeUnknownFieldsSize (CmdType_unknown_fields m)) in
  let total_size := if 0 <? zlen (CmdType_type m) then u32 (total_size + u32 (1 + StringSize (CmdType_type m))) else total_size in
  let total_size := if 0 <? zlen (CmdType_fromip m) then u32 (total_size + u32 (1 + StringSize (CmdType_fromip m))) else total_size in
  let total_size := if 0 <? zlen (CmdType_toip m) then u32 (total_size + u32 (1 + StringSize (CmdType_toip m))) else total_size in
  let total_size := if negb (CmdType_size m =? 0) then u32 (total_size + u32 (1 + Int32Size (CmdType_size m))) else total_size in
  total_size.

Definition CmdType_MergeFrom (m from : CmdType) : CmdType :=
  let m := set_CmdType_unknown_fields m (CmdType_unknown_fields m ++ CmdType_unknown_fields from) in
  let m := if 0 <? zlen (CmdType_type from) then set_CmdType_type m (CmdType_type from) else m in
  let m := if 0 <? zlen (CmdType_fromip from) then set_CmdType_fromip m (CmdType_fromip from) else m in
  let m := if 0 <? zlen (CmdType_toip from) then set_CmdType_toip m (CmdType_toip from) else m in
  let m := if negb (CmdType_size from =? 0) then set_CmdType_size m (CmdType_size from) else m in
  m.

(** For distinct objects. *)
Definition CmdType_CopyFrom (m from : CmdType) : CmdType := CmdType_MergeFrom (CmdType_Clear m) from.

(** Returns the new values of [*this] and [*other]. *)
Definition CmdType_InternalSwap (m other : CmdType) : CmdType * CmdType :=
  let '(m, other) := (set_CmdType_type m (CmdType_type other), set_CmdType_type other (CmdType_type m)) in
  let '(m, other) := (set_CmdType_fromip m (CmdType_fromip other), set_CmdType_fromip other (CmdType_fromip m)) in
  let '(m, other) := (set_CmdType_toip m (CmdType_toip other), set_CmdType_toip other (CmdType_toip m)) in
  let '(m, other) := (set_CmdType_size m (CmdType_size other), set_CmdType_size other (CmdType_size m)) in
  let '(m, other) := (set_CmdType_unknown_fields m (CmdType_unknown_fields other), set_CmdType_unknown_fields other (CmdType_unknown_fields m)) in
  (m, other).

#[export] Instance CmdType_Message : Message CmdType := {
  New := CmdType_New;
  Clear := CmdType_Clear;
  MergePartialFromCodedStream := CmdType_MergePartialFromCodedStream;
  SerializeWithCachedSizes := CmdType_SerializeWithCachedSizes;
  InternalSerializeWithCachedSizesToArray := CmdType_InternalSerializeWithCachedSizesToArray;
  ByteSizeLong := CmdType_ByteSizeLong;
  MergeFrom := CmdType_MergeFrom
}.

(** ** notifyConnectionStatus: connection status pushed to the client application *)

Record notifyConnectionStatus := mk_notifyConnectionStatus {
  notifyConnectionStatus_status : Z;
  notifyConnectionStatus_unknown_fields : UnknownFieldSet
}.

Definition set_notifyConnectionStatus_status (m : notifyConnectionStatus) (value : Z) : notifyConnectionStatus :=
  mk_notifyConnectionStatus value (notifyConnectionStatus_unknown_fields m).

Definition set_notifyConnectionStatus_unknown_fields (m : notifyConnectionStatus) (value : UnknownFieldSet) : notifyConnectionStatus :=
  mk_notifyConnectionStatus (notifyConnectionStatus_status m) value.

Definition notifyConnectionStatus_New : notifyConnectionStatus := mk_notifyConnectionStatus 0 [].

(** The copy constructor. *)
Definition notifyConnectionStatus_copy (from : notifyConnectionStatus) : notifyConnectionStatus :=
  mk_notifyConnectionStatus (notifyConnectionStatus_status from) ([] ++ notifyConnectionStatus_unknown_fields from).

Definition notifyConnectionStatus_Clear (m : notifyConnectionStatus) : notifyConnectionStatus :=
  let m := set_notifyConnectionStatus_status m 0 in
  set_notifyConnectionStatus_unknown_fields m [].

Definition notifyConnectionStatus_switch (tag : Z) (m : notifyConnectionStatus) (s : CodedInputStream) : case_result notifyConnectionStatus :=
  match GetTagFieldNumber tag with
  | 1 => on_tag tag 8
      (let '(ok, v, s) := ReadPrimitive_enum (notifyConnectionStatus_status m) s in Do ok (set_notifyConnectionStatus_status m v) s)
  | _ => Unusual
  end.

Definition notifyConnectionStatus_MergePartialFromCodedStream (m : notifyConnectionStatus) (s : CodedInputStream)
  : option (bool * notifyConnectionStatus * CodedInputStream) :=
  parse notifyConnectionStatus_switch notifyConnectionStatus_unknown_fields set_notifyConnectionStatus_unknown_fields m s.

Definition notifyConnectionStatus_SerializeWithCachedSizes (m : notifyConnectionStatus) : CodedOutputStream → CodedOutputStream :=
  when (negb (notifyConnectionStatus_status m =? 0)) (WriteEnum 1 (notifyConnectionStatus_status m)) >>>
  SerializeUnknownFields (notifyConnectionStatus_unknown_fields m).

Definition notifyConnectionStatus_InternalSerializeWithCachedSizesToArray (m : notifyConnectionStatus) : bytes :=
  opt_bytes (negb (notifyConnectionStatus_status m =? 0)) (WriteEnumToArray 1 (notifyConnectionStatus_status m)) ++
  SerializeUnknownFieldsToArray (notifyConnectionStatus_unknown_fields m).

Definition notifyConnectionStatus_ByteSizeLong (m : notifyConnectionStatus) : Z :=
  let total_size := u32 (0 + ComputeUnknownFieldsSize (notifyConnectionStatus_unknown_fields m)) in
  let total_size := if negb (notifyConnectionStatus_status m =? 0) then u32 (total_size + u32 (1 + EnumSize (notifyConnectionStatus_status m))) else total_size in
  total_size.

Definition notifyConnectionStatus_MergeFrom (m from : notifyConnectionStatus) : notifyConnectionStatus :=
  let m := set_notifyConnectionStatus_unknown_fields m (notifyConnectionStatus_unknown_fields m ++ notifyConnectionStatus_unknown_fields from) in
  let m := if negb (notifyConnectionStatus_status from =? 0) then set_notifyConnectionStatus_status m (notifyConnectionStatus_status from) else m in
  m.

(** For distinct objects. *)
Definition notifyConnectionStatus_CopyFrom (m from : notifyConnectionStatus) : notifyConnectionStatus := notifyConnectionStatus_MergeFrom (notifyConnectionStatus_Clear m) from.

(** Returns the new values of [*this] and [*other]. *)
Definition notifyConnectionStatus_InternalSwap (m other : notifyConnectionStatus) : notifyConnectionStatus * notifyConnectionStatus :=
  let '(m, other) := (set_notifyConnectionStatus_status m (notifyConnectionStatus_status other), set_notifyConnectionStatus_status other (notifyConnectionStatus_status m)) in
  let '(m, other) := (set_notifyConnectionStatus_unknown_fields m (notifyConnectionStatus_unknown_fields other), set_notifyConnectionStatus_unknown_fields other (notifyConnectionStatus_unknown_fields m)) in
  (m, other).

#[export] Instance notifyConnectionStatus_Message : Message notifyConnectionStatus := {
  New := notifyConnectionStatus_New;
  Clear := notifyConnectionStatus_Clear;
  MergePartialFromCodedStream := notifyConnectionStatus_MergePartialFromCodedStream;
  SerializeWithCachedSizes := notifyConnectionStatus_SerializeWithCachedSizes;
  InternalSerializeWithCachedSizesToArray := notifyConnectionStatus_InternalSerializeWithCachedSizesToArray;
  ByteSizeLong := notifyConnectionStatus_ByteSizeLong;
  MergeFrom := notifyConnectionStatus_MergeFrom
}.

(** ** sUser_ePhoneNumber: a phone number of a user *)

Record sUser_ePhoneNumber := mk_sUser_ePhoneNumber {
  sUser_ePhoneNumber_number : bytes;
  sUser_ePhoneNumber_type : Z;
  sUser_ePhoneNumber_unknown_fields : UnknownFieldSet
}.

Definition set_sUser_ePhoneNumber_number (m : sUser_ePhoneNumber) (value : bytes) : sUser_ePhoneNumber :=
  mk_sUser_ePhoneNumber value (sUser_ePhoneNumber_type m) (sUser_ePhoneNumber_unknown_fields m).

Definition set_sUser_ePhoneNumber_type (m : sUser_ePhoneNumber) (value : Z) : sUser_ePhoneNumber :=
  mk_sUser_ePhoneNumber (sUser_ePhoneNumber_number m) value (sUser_ePhoneNumber_unknown_fields m).

Definition set_sUser_ePhoneNumber_unknown_fields (m : sUser_ePhoneNumber) (value : UnknownFieldSet) : sUser_ePhoneNumber :=
  mk_sUser_ePhoneNumber (sUser_ePhoneNumber_number m) (sUser_ePhoneNumber_type m) value.

Definition sUser_ePhoneNumber_New : sUser_ePhoneNumber := mk_sUser_ePhoneNumber [] 0 [].

(** The copy constructor. *)
Definition sUser_ePhoneNumber_copy (from : sUser_ePhoneNumber) : sUser_ePhoneNumber :=
  mk_sUser_ePhoneNumber (if 0 <? zlen (sUser_ePhoneNumber_number from) then sUser_ePhoneNumber_number from else [])
    (sUser_ePhoneNumber_type from) ([] ++ sUser_ePhoneNumber_unknown_fields from).

Definition sUser_ePhoneNumber_Clear (m : sUser_ePhoneNumber) : sUser_ePhoneNumber :=
  let m := set_sUser_ePhoneNumber_number m [] in
  let m := set_sUser_ePhoneNumber_type m 0 in
  set_sUser_ePhoneNumber_unknown_fields m [].

Definition sUser_ePhoneNumber_switch (tag : Z) (m : sUser_ePhoneNumber) (s : CodedInputStream) : case_result sUser_ePhoneNumber :=
  match GetTagFieldNumber tag with
  | 1 => on_tag tag 10
      (let '(ok, v, s) := ReadVerifiedString (sUser_ePhoneNumber_number m) s in Do ok (set_sUser_ePhoneNumber_number m v) s)
  | 2 => on_tag tag 16
      (let '(ok, v, s) := ReadPrimitive_enum (sUser_ePhoneNumber_type m) s in Do ok (set_sUser_ePhoneNumber_type m v) s)
  | _ => Unusual
  end.

Definition sUser_ePhoneNumber_MergePartialFromCodedStream (m : sUser_ePhoneNumber) (s : CodedInputStream)
  : option (bool * sUser_ePhoneNumber * CodedInputStream) :=
  parse sUser_ePhoneNumber_switch sUser_ePhoneNumber_unknown_fields set_sUser_ePhoneNumber_unknown_fields m s.

Definition sUser_ePhoneNumber_SerializeWithCachedSizes (m : sUser_ePhoneNumber) : CodedOutputStream → CodedOutputStream :=
  when (0 <? zlen (sUser_ePhoneNumber_number m)) (WriteStringMaybeAliased 1 (sUser_ePhoneNumber_number m)) >>>
  when (negb (sUser_ePhoneNumber_type m =? 0)) (WriteEnum 2 (sUser_ePhoneNumber_type m)) >>>
  SerializeUnknownFields (sUser_ePhoneNumber_unknown_fields m).

Definition sUser_ePhoneNumber_InternalSerializeWithCachedSizesToArray (m : sUser_ePhoneNumber) : bytes :=
  opt_bytes (0 <? zlen (sUser_ePhoneNumber_number m)) (WriteStringToArray 1 (sUser_ePhoneNumber_number m)) ++
  opt_bytes (negb (sUser_ePhoneNumber_type m =? 0)) (WriteEnumToArray 2 (sUser_ePhoneNumber_type m)) ++
  SerializeUnknownFieldsToArray (sUser_ePhoneNumber_unknown_fields m).

Definition sUser_ePhoneNumber_ByteSizeLong (m : sUser_ePhoneNumber) : Z :=
  let total_size := u32 (0 + ComputeUnknownFieldsSize (sUser_ePhoneNumber_unknown_fields m)) in
  let total_size := if 0 <? zlen (sUser_ePhoneNumber_number m) then u32 (total_size + u32 (1 + StringSize (sUser_ePhoneNumber_number m))) else total_size in
  let total_size := if negb (sUser_ePhoneNumber_type m =? 0) then u32 (total_size + u32 (1 + EnumSize (sUser_ePhoneNumber_type m))) else total_size in
  total_size.

Definition sUser_ePhoneNumber_MergeFrom (m from : sUser_ePhoneNumber) : sUser_ePhoneNumber :=
  let m := set_sUser_ePhoneNumber_unknown_fields m (sUser_ePhoneNumber_unknown_fields m ++ sUser_ePhoneNumber_unknown_fields from) in
  let m := if 0 <? zlen (sUser_ePhoneNumber_number from) then set_sUser_ePhoneNumber_number m (sUser_ePhoneNumber_number from) else m in
  let m := if negb (sUser_ePhoneNumber_type from =? 0) then set_sUser_ePhoneNumber_type m (sUser_ePhoneNumber_type from) else m in
  m.

(** For distinct objects. *)
Definition sUser_ePhoneNumber_CopyFrom (m from : sUser_ePhoneNumber) : sUser_ePhoneNumber := sUser_ePhoneNumber_MergeFrom (sUser_ePhoneNumber_Clear m) from.

(** Returns the new values of [*this] and [*other]. *)
Definition sUser_ePhoneNumber_InternalSwap (m other : sUser_ePhoneNumber) : sUser_ePhoneNumber * sUser_ePhoneNumber :=
  let '(m, other) := (set_sUser_ePhoneNumber_number m (sUser_ePhoneNumber_number other), set_sUser_ePhoneNumber_number other (sUser_ePhoneNumber_number m)) in
  let '(m, other) := (set_sUser_ePhoneNumber_type m (sUser_ePhoneNumber_type other), set_sUser_ePhoneNumber_type other (sUser_ePhoneNumber_type m)) in
  let '(m, other) := (set_sUser_ePhoneNumber_unknown_fields m (sUser_ePhoneNumber_unknown_fields other), set_sUser_ePhoneNumber_unknown_fields other (sUser_ePhoneNumber_unknown_fields m)) in
  (m, other).

#[export] Instance sUser_ePhoneNumber_Message : Message sUser_ePhoneNumber := {
  New := sUser_ePhoneNumber_New;
  Clear := sUser_ePhoneNumber_Clear;
  MergePartialFromCodedStream := sUser_ePhoneNumber_MergePartialFromCodedStream;
  SerializeWithCachedSizes := sUser_ePhoneNumber_SerializeWithCachedSizes;
  InternalSerializeWithCachedSizesToArray := sUser_ePhoneNumber_InternalSerializeWithCachedSizesToArray;
  ByteSizeLong := sUser_ePhoneNumber_ByteSizeLong;
  MergeFrom := sUser_ePhoneNumber_MergeFrom
}.

(** ** sUser: a user with its phone numbers *)

Record sUser := mk_sUser {
  sUser_name : bytes;
  sUser_id : Z;
  sUser_email : bytes;
  sUser_phones : list sUser_ePhoneNumber;
  sUser_unknown_fields : UnknownFieldSet
}.

Definition set_sUser_name (m : sUser) (value : bytes) : sUser :=
  mk_sUser value (sUser_id m) (sUser_email m) (sUser_phones m) (sUser_unknown_fields m).

Definition set_sUser_id (m : sUser) (value : Z) : sUser :=
  mk_sUser (sUser_name m) value (sUser_email m) (sUser_phones m) (sUser_unknown_fields m).

Definition set_sUser_email (m : sUser) (value : bytes) : sUser :=
  mk_sUser (sUser_name m) (sUser_id m) value (sUser_phones m) (sUser_unknown_fields m).

Definition set_sUser_phones (m : sUser) (value : list sUser_ePhoneNumber) : sUser :=
  mk_sUser (sUser_name m) (sUser_id m) (sUser_email m) value (sUser_unknown_fields m).

Definition set_sUser_unknown_fields (m : sUser) (value : UnknownFieldSet) : sUser :=
  mk_sUser (sUser_name m) (sUser_id m) (sUser_email m) (sUser_phones m) value.

Definition sUser_New : sUser := mk_sUser [] 0 [] [] [].

(** The copy constructor. *)
Definition sUser_copy (from : sUser) : sUser :=
  mk_sUser (if 0 <? zlen (sUser_name from) then sUser_name from else [])
    (sUser_id from)
    (if 0 <? zlen (sUser_email from) then sUser_email from else [])
    (RepeatedMergeFrom [] (sUser_phones from)) ([] ++ sUser_unknown_fields from).

Definition sUser_Clear (m : sUser) : sUser :=
  let m := set_sUser_phones m [] in
  let m := set_sUser_name m [] in
  let m := set_sUser_email m [] in
  let m := set_sUser_id m 0 in
  set_sUser_unknown_fields m [].

Definition sUser_switch (tag : Z) (m : sUser) (s : CodedInputStream) : case_result sUser :=
  match GetTagFieldNumber tag with
  | 1 => on_tag tag 10
      (let '(ok, v, s) := ReadVerifiedString (sUser_name m) s in Do ok (set_sUser_name m v) s)
  | 2 => on_tag tag 16
      (let '(ok, v, s) := ReadPrimitive_int32 (sUser_id m) s in Do ok (set_sUser_id m v) s)
  | 3 => on_tag tag 26
      (let '(ok, v, s) := ReadVerifiedString (sUser_email m) s in Do ok (set_sUser_email m v) s)
  | 4 => on_tag tag 34
      match ReadMessage sUser_ePhoneNumber_New s with
      | Some (ok, x, s) => Do ok (set_sUser_phones m (sUser_phones m ++ [x])) s
      | None => OutOfFuel
      end
  | _ => Unusual
  end.

Definition sUser_MergePartialFromCodedStream (m : sUser) (s : CodedInputStream)
  : option (bool * sUser * CodedInputStream) :=
  parse sUser_switch sUser_unknown_fields set_sUser_unknown_fields m s.

Definition sUser_SerializeWithCachedSizes (m : sUser) : CodedOutputStream → CodedOutputStream :=
  when (0 <? zlen (sUser_name m)) (WriteStringMaybeAliased 1 (sUser_name m)) >>>
  when (negb (sUser_id m =? 0)) (WriteInt32 2 (sUser_id m)) >>>
  when (0 <? zlen (sUser_email m)) (WriteStringMaybeAliased 3 (sUser_email m)) >>>
  fold_left (λ o x, WriteMessageMaybeToArray 4 x o) (sUser_phones m) >>>
  SerializeUnknownFields (sUser_unknown_fields m).

Definition sUser_InternalSerializeWithCachedSizesToArray (m : sUser) : bytes :=
  opt_bytes (0 <? zlen (sUser_name m)) (WriteStringToArray 1 (sUser_name m)) ++
  opt_bytes (negb (sUser_id m =? 0)) (WriteInt32ToArray 2 (sUser_id m)) ++
  opt_bytes (0 <? zlen (sUser_email m)) (WriteStringToArray 3 (sUser_email m)) ++
  concat (map (InternalWriteMessageToArray 4) (sUser_phones m)) ++
  SerializeUnknownFieldsToArray (sUser_unknown_fields m).

Definition sUser_ByteSizeLong (m : sUser) : Z :=
  let total_size := u32 (0 + ComputeUnknownFieldsSize (sUser_unknown_fields m)) in
  let total_size := u32 (total_size + u32 (zlen (sUser_phones m))) in
  let total_size := fold_left (λ size x, u32 (size + MessageSize x)) (sUser_phones m) total_size in
  let total_size := if 0 <? zlen (sUser_name m) then u32 (total_size + u32 (1 + StringSize (sUser_name m))) else total_size in
  let total_size := if 0 <? zlen (sUser_email m) then u32 (total_size + u32 (1 + StringSize (sUser_email m))) else total_size in
  let total_size := if negb (sUser_id m =? 0) then u32 (total_size + u32 (1 + Int32Size (sUser_id m))) else total_size in
  total_size.

Definition sUser_MergeFrom (m from : sUser) : sUser :=
  let m := set_sUser_unknown_fields m (sUser_unknown_fields m ++ sUser_unknown_fields from) in
  let m := set_sUser_phones m (RepeatedMergeFrom (sUser_phones m) (sUser_phones from)) in
  let m := if 0 <? zlen (sUser_name from) then set_sUser_name m (sUser_name from) else m in
  let m := if 0 <? zlen (sUser_email from) then set_sUser_email m (sUser_email from) else m in
  let m := if negb (sUser_id from =? 0) then set_sUser_id m (sUser_id from) else m in
  m.

(** For distinct objects. *)
Definition sUser_CopyFrom (m from : sUser) : sUser := sUser_MergeFrom (sUser_Clear m) from.

(** Returns the new values of [*this] and [*other]. *)
Definition sUser_InternalSwap (m other : sUser) : sUser * sUser :=
  let '(m, other) := (set_sUser_phones m (sUser_phones other), set_sUser_phones other (sUser_phones m)) in
  let '(m, other) := (set_sUser_name m (sUser_name other), set_sUser_name other (sUser_name m)) in
  let '(m, other) := (set_sUser_email m (sUser_email other), set_sUser_email other (sUser_email m)) in
  let '(m, other) := (set_sUser_id m (sUser_id other), set_sUser_id other (sUser_id m)) in
  let '(m, other) := (set_sUser_unknown_fields m (sUser_unknown_fields other), set_sUser_unknown_fields other (sUser_unknown_fields m)) in
  (m, other).

#[export] Instance sUser_Message : Message sUser := {
  New := sUser_New;
  Clear := sUser_Clear;
  MergePartialFromCodedStream := sUser_MergePartialFromCodedStream;
  SerializeWithCachedSizes := sUser_SerializeWithCachedSizes;
  InternalSerializeWithCachedSizesToArray := sUser_InternalSerializeWithCachedSizesToArray;
  ByteSizeLong := sUser_ByteSizeLong;
  MergeFrom := sUser_MergeFrom
}.

(** ** reqSignin: sign-in request *)

Record reqSignin := mk_reqSignin {
  reqSignin_user : list sUser;
  reqSignin_unknown_fields : UnknownFieldSet
}.

Definition set_reqSignin_user (m : reqSignin) (value : list sUser) : reqSignin :=
  mk_reqSignin value (reqSignin_unknown_fields m).

Definition set_reqSignin_unknown_fields (m : reqSignin) (value : UnknownFieldSet) : reqSignin :=
  mk_reqSignin (reqSignin_user m) value.

Definition reqSignin_New : reqSignin := mk_reqSignin [] [].

(** The copy constructor. *)
Definition reqSignin_copy (from : reqSignin) : reqSignin :=
  mk_reqSignin (RepeatedMergeFrom [] (reqSignin_user from)) ([] ++ reqSignin_unknown_fields from).

Definition reqSignin_Clear (m : reqSignin) : reqSignin :=
  let m := set_reqSignin_user m [] in
  set_reqSignin_unknown_fields m [].

Definition reqSignin_switch (tag : Z) (m : reqSignin) (s : CodedInputStream) : case_result reqSignin :=
  match GetTagFieldNumber tag with
  | 1 => on_tag tag 10
      match ReadMessage sUser_New s with
      | Some (ok, x, s) => Do ok (set_reqSignin_user m (reqSignin_user m ++ [x])) s
      | None => OutOfFuel
      end
  | _ => Unusual
  end.

Definition reqSignin_MergePartialFromCodedStream (m : reqSignin) (s : CodedInputStream)
  : option (bool * reqSignin * CodedInputStream) :=
  parse reqSignin_switch reqSignin_unknown_fields set_reqSignin_unknown_fields m s.

Definition reqSignin_SerializeWithCachedSizes (m : reqSignin) : CodedOutputStream → CodedOutputStream :=
  fold_left (λ o x, WriteMessageMaybeToArray 1 x o) (reqSignin_user m) >>>
  SerializeUnknownFields (reqSignin_unknown_fields m).

Definition reqSignin_InternalSerializeWithCachedSizesToArray (m : reqSignin) : bytes :=
  concat (map (InternalWriteMessageToArray 1) (reqSignin_user m)) ++
  SerializeUnknownFieldsToArray (reqSignin_unknown_fields m).

Definition reqSignin_ByteSizeLong (m : reqSignin) : Z :=
  let total_size := u32 (0 + ComputeUnknownFieldsSize (reqSignin_unknown_fields m)) in
  let total_size := u32 (total_size + u32 (zlen (reqSignin_user m))) in
  let total_size := fold_left (λ size x, u32 (size + MessageSize x)) (reqSignin_user m) total_size in
  total_size.

Definition reqSignin_MergeFrom (m from : reqSignin) : reqSignin :=
  let m := set_reqSignin_unknown_fields m (reqSignin_unknown_fields m ++ reqSignin_unknown_fields from) in
  let m := set_reqSignin_user m (RepeatedMergeFrom (reqSignin_user m) (reqSignin_user from)) in
  m.

(** For distinct objects. *)
Definition reqSignin_CopyFrom (m from : reqSignin) : reqSignin := reqSignin_MergeFrom (reqSignin_Clear m) from.

(** Returns the new values of [*this] and [*other]. *)
Definition reqSignin_InternalSwap (m other : reqSignin) : reqSignin * reqSignin :=
  let '(m, other) := (set_reqSignin_user m (reqSignin_user other), set_reqSignin_user other (reqSignin_user m)) in
  let '(m, other) := (set_reqSignin_unknown_fields m (reqSignin_unknown_fields other), set_reqSignin_unknown_fields other (reqSignin_unknown_fields m)) in
  (m, other).

#[export] Instance reqSignin_Message : Message reqSignin := {
  New := reqSignin_New;
  Clear := reqSignin_Clear;
  MergePartialFromCodedStream := reqSignin_MergePartialFromCodedStream;
  SerializeWithCachedSizes := reqSignin_SerializeWithCachedSizes;
  InternalSerializeWithCachedSizesToArray := reqSignin_InternalSerializeWithCachedSizesToArray;
  ByteSizeLong := reqSignin_ByteSizeLong;
  MergeFrom := reqSignin_MergeFrom
}.

(** ** rspSignin: sign-in response *)

Record rspSignin := mk_rspSignin {
  rspSignin_name : bytes;
  rspSignin_succ : bool;
  rspSignin_unknown_fields : UnknownFieldSet
}.

Definition set_rspSignin_name (m : rspSignin) (value : bytes) : rspSignin :=
  mk_rspSignin value (rspSignin_succ m) (rspSignin_unknown_fields m).

Definition set_rspSignin_succ (m : rspSignin) (value : bool) : rspSignin :=
  mk_rspSignin (rspSignin_name m) value (rspSignin_unknown_fields m).

Definition set_rspSignin_unknown_fields (m : rspSignin) (value : UnknownFieldSet) : rspSignin :=
  mk_rspSignin (rspSignin_name m) (rspSignin_succ m) value.

Definition rspSignin_New : rspSignin := mk_rspSignin [] false [].

(** The copy constructor. *)
Definition rspSignin_copy (from : rspSignin) : rspSignin :=
  mk_rspSignin (if 0 <? zlen (rspSignin_name from) then rspSignin_name from else [])
    (rspSignin_succ from) ([] ++ rspSignin_unknown_fields from).

Definition rspSignin_Clear (m : rspSignin) : rspSignin :=
  let m := set_rspSignin_name m [] in
  let m := set_rspSignin_succ m false in
  set_rspSignin_unknown_fields m [].

Definition rspSignin_switch (tag : Z) (m : rspSignin) (s : CodedInputStream) : case_result rspSignin :=
  match GetTagFieldNumber tag with
  | 1 => on_tag tag 10
      (let '(ok, v, s) := ReadVerifiedString (rspSignin_name m) s in Do ok (set_rspSignin_name m v) s)
  | 2 => on_tag tag 16
      (let '(ok, v, s) := ReadPrimitive_bool (rspSignin_succ m) s in Do ok (set_rspSignin_succ m v) s)
  | _ => Unusual
  end.

Definition rspSignin_MergePartialFromCodedStream (m : rspSignin) (s : CodedInputStream)
  : option (bool * rspSignin * CodedInputStream) :=
  parse rspSignin_switch rspSignin_unknown_fields set_rspSignin_unknown_fields m s.

Definition rspSignin_SerializeWithCachedSizes (m : rspSignin) : CodedOutputStream → CodedOutputStream :=
  when (0 <? zlen (rspSignin_name m)) (WriteStringMaybeAliased 1 (rspSignin_name m)) >>>
  when (rspSignin_succ m) (WriteBool 2 (rspSignin_succ m)) >>>
  SerializeUnknownFields (rspSignin_unknown_fields m).

Definition rspSignin_InternalSerializeWithCachedSizesToArray (m : rspSignin) : bytes :=
  opt_bytes (0 <? zlen (rspSignin_name m)) (WriteStringToArray 1 (rspSignin_name m)) ++
  opt_bytes (rspSignin_succ m) (WriteBoolToArray 2 (rspSignin_succ m)) ++
  SerializeUnknownFieldsToArray (rspSignin_unknown_fields m).

Definition rspSignin_ByteSizeLong (m : rspSignin) : Z :=
  let total_size := u32 (0 + ComputeUnknownFieldsSize (rspSignin_unknown_fields m)) in
  let total_size := if 0 <? zlen (rspSignin_name m) then u32 (total_size + u32 (1 + StringSize (rspSignin_name m))) else total_size in
  let total_size := if rspSignin_succ m then u32 (total_size + u32 (1 + 1)) else total_size in
  total_size.

Definition rspSignin_MergeFrom (m from : rspSignin) : rspSignin :=
  let m := set_rspSignin_unknown_fields m (rspSignin_unknown_fields m ++ rspSignin_unknown_fields from) in
  let m := if 0 <? zlen (rspSignin_name from) then set_rspSignin_name m (rspSignin_name from) else m in
  let m := if rspSignin_succ from then set_rspSignin_succ m (rspSignin_succ from) else m in
  m.

(** For distinct objects. *)
Definition rspSignin_CopyFrom (m from : rspSignin) : rspSignin := rspSignin_MergeFrom (rspSignin_Clear m) from.

(** Returns the new values of [*this] and [*other]. *)
Definition rspSignin_InternalSwap (m other : rspSignin) : rspSignin * rspSignin :=
  let '(m, other) := (set_rspSignin_name m (rspSignin_name other), set_rspSignin_name other (rspSignin_name m)) in
  let '(m, other) := (set_rspSignin_succ m (rspSignin_succ other), set_rspSignin_succ other (rspSignin_succ m)) in
  let '(m, other) := (set_rspSignin_unknown_fields m (rspSignin_unknown_fields other), set_rspSignin_unknown_fields other (rspSignin_unknown_fields m)) in
  (m, other).

#[export] Instance rspSignin_Message : Message rspSignin := {
  New := rspSignin_New;
  Clear := rspSignin_Clear;
  MergePartialFromCodedStream := rspSignin_MergePartialFromCodedStream;
  SerializeWithCachedSizes := rspSignin_SerializeWithCachedSizes;
  InternalSerializeWithCachedSizesToArray := rspSignin_InternalSerializeWithCachedSizesToArray;
  ByteSizeLong := rspSignin_ByteSizeLong;
  MergeFrom := rspSignin_MergeFrom
}.

(** ** reqMove: move request; floats are their 32-bit patterns *)

Record reqMove := mk_reqMove {
  reqMove_forward : Z;
  reqMove_angle : Z;
  reqMove_unknown_fields : UnknownFieldSet
}.

Definition set_reqMove_forward (m : reqMove) (value : Z) : reqMove :=
  mk_reqMove value (reqMove_angle m) (reqMove_unknown_fields m).

Definition set_reqMove_angle (m : reqMove) (value : Z) : reqMove :=
  mk_reqMove (reqMove_forward m) value (reqMove_unknown_fields m).

Definition set_reqMove_unknown_fields (m : reqMove) (value : UnknownFieldSet) : reqMove :=
  mk_reqMove (reqMove_forward m) (reqMove_angle m) value.

Definition reqMove_New : reqMove := mk_reqMove 0 0 [].

(** The copy constructor. *)
Definition reqMove_copy (from : reqMove) : reqMove :=
  mk_reqMove (reqMove_forward from)
    (reqMove_angle from) ([] ++ reqMove_unknown_fields from).

Definition reqMove_Clear (m : reqMove) : reqMove :=
  let m := set_reqMove_forward m 0 in
  let m := set_reqMove_angle m 0 in
  set_reqMove_unknown_fields m [].

Definition reqMove_switch (tag : Z) (m : reqMove) (s : CodedInputStream) : case_result reqMove :=
  match GetTagFieldNumber tag with
  | 1 => on_tag tag 13
      (let '(ok, v, s) := ReadPrimitive_float (reqMove_forward m) s in Do ok (set_reqMove_forward m v) s)
  | 2 => on_tag tag 21
      (let '(ok, v, s) := ReadPrimitive_float (reqMove_angle m) s in Do ok (set_reqMove_angle m v) s)
  | _ => Unusual
  end.

Definition reqMove_MergePartialFromCodedStream (m : reqMove) (s : CodedInputStream)
  : option (bool * reqMove * CodedInputStream) :=
  parse reqMove_switch reqMove_unknown_fields set_reqMove_unknown_fields m s.

Definition reqMove_SerializeWithCachedSizes (m : reqMove) : CodedOutputStream → CodedOutputStream :=
  when (float_nonzero (reqMove_forward m)) (WriteFloat 1 (reqMove_forward m)) >>>
  when (float_nonzero (reqMove_angle m)) (WriteFloat 2 (reqMove_angle m)) >>>
  SerializeUnknownFields (reqMove_unknown_fields m).

Definition reqMove_InternalSerializeWithCachedSizesToArray (m : reqMove) : bytes :=
  opt_bytes (float_nonzero (reqMove_forward m)) (WriteFloatToArray 1 (reqMove_forward m)) ++
  opt_bytes (float_nonzero (reqMove_angle m)) (WriteFloatToArray 2 (reqMove_angle m)) ++
  SerializeUnknownFieldsToArray (reqMove_unknown_fields m).

Definition reqMove_ByteSizeLong (m : reqMove) : Z :=
  let total_size := u32 (0 + ComputeUnknownFieldsSize (reqMove_unknown_fields m)) in
  let total_size := if float_nonzero (reqMove_forward m) then u32 (total_size + u32 (1 + 4)) else total_size in
  let total_size := if float_nonzero (reqMove_angle m) then u32 (total_size + u32 (1 + 4)) else total_size in
  total_size.

Definition reqMove_MergeFrom (m from : reqMove) : reqMove :=
  let m := set_reqMove_unknown_fields m (reqMove_unknown_fields m ++ reqMove_unknown_fields from) in
  let m := if float_nonzero (reqMove_forward from) then set_reqMove_forward m (reqMove_forward from) else m in
  let m := if float_nonzero (reqMove_angle from) then set_reqMove_angle m (reqMove_angle from) else m in
  m.

(** For distinct objects. *)
Definition reqMove_CopyFrom (m from : reqMove) : reqMove := reqMove_MergeFrom (reqMove_Clear m) from.

(** Returns the new values of [*this] and [*other]. *)
Definition reqMove_InternalSwap (m other : reqMove) : reqMove * reqMove :=
  let '(m, other) := (set_reqMove_forward m (reqMove_forward other), set_reqMove_forward other (reqMove_forward m)) in
  let '(m, other) := (set_reqMove_angle m (reqMove_angle other), set_reqMove_angle other (reqMove_angle m)) in
  let '(m, other) := (set_reqMove_unknown_fields m (reqMove_unknown_fields other), set_reqMove_unknown_fields other (reqMove_unknown_fields m)) in
  (m, other).

#[export] Instance reqMove_Message : Message reqMove := {
  New := reqMove_New;
  Clear := reqMove_Clear;
  MergePartialFromCodedStream := reqMove_MergePartialFromCodedStream;
  SerializeWithCachedSizes := reqMove_SerializeWithCachedSizes;
  InternalSerializeWithCachedSizesToArray := reqMove_InternalSerializeWithCachedSizesToArray;
  ByteSizeLong := reqMove_ByteSizeLong;
  MergeFrom := reqMove_MergeFrom
}.

(** ** rspMove: move response *)

Record rspMove := mk_rspMove {
  rspMove_error : bytes;
  rspMove_unknown_fields : UnknownFieldSet
}.

Definition set_rspMove_error (m : rspMove) (value : bytes) : rspMove :=
  mk_rspMove value (rspMove_unknown_fields m).

Definition set_rspMove_unknown_fields (m : rspMove) (value : UnknownFieldSet) : rspMove :=
  mk_rspMove (rspMove_error m) value.

Definition rspMove_New : rspMove := mk_rspMove [] [].

(** The copy constructor. *)
Definition rspMove_copy (from : rspMove) : rspMove :=
  mk_rspMove (if 0 <? zlen (rspMove_error from) then rspMove_error from else []) ([] ++ rspMove_unknown_fields from).

Definition rspMove_Clear (m : rspMove) : rspMove :=
  let m := set_rspMove_error m [] in
  set_rspMove_unknown_fields m [].

Definition rspMove_switch (tag : Z) (m : rspMove) (s : CodedInputStream) : case_result rspMove :=
  match GetTagFieldNumber tag with
  | 1 => on_tag tag 10
      (let '(ok, v, s) := ReadVerifiedString (rspMove_error m) s in Do ok (set_rspMove_error m v) s)
  | _ => Unusual
  end.

Definition rspMove_MergePartialFromCodedStream (m : rspMove) (s : CodedInputStream)
  : option (bool * rspMove * CodedInputStream) :=
  parse rspMove_switch rspMove_unknown_fields set_rspMove_unknown_fields m s.

Definition rspMove_SerializeWithCachedSizes (m : rspMove) : CodedOutputStream → CodedOutputStream :=
  when (0 <? zlen (rspMove_error m)) (WriteStringMaybeAliased 1 (rspMove_error m)) >>>
  SerializeUnknownFields (rspMove_unknown_fields m).

Definition rspMove_InternalSerializeWithCachedSizesToArray (m : rspMove) : bytes :=
  opt_bytes (0 <? zlen (rspMove_error m)) (WriteStringToArray 1 (rspMove_error m)) ++
  SerializeUnknownFieldsToArray (rspMove_unknown_fields m).

Definition rspMove_ByteSizeLong (m : rspMove) : Z :=
  let total_size := u32 (0 + ComputeUnknownFieldsSize (rspMove_unknown_fields m)) in
  let total_size := if 0 <? zlen (rspMove_error m) then u32 (total_size + u32 (1 + StringSize (rspMove_error m))) else total_size in
  total_size.

Definition rspMove_MergeFrom (m from : rspMove) : rspMove :=
  let m := set_rspMove_unknown_fields m (rspMove_unknown_fields m ++ rspMove_unknown_fields from) in
  let m := if 0 <? zlen (rspMove_error from) then set_rspMove_error m (rspMove_error from) else m in
  m.

(** For distinct objects. *)
Definition rspMove_CopyFrom (m from : rspMove) : rspMove := rspMove_MergeFrom (rspMove_Clear m) from.

(** Returns the new values of [*this] and [*other]. *)
Definition rspMove_InternalSwap (m other : rspMove) : rspMove * rspMove :=
  let '(m, other) := (set_rspMove_error m (rspMove_error other), set_rspMove_error other (rspMove_error m)) in
  let '(m, other) := (set_rspMove_unknown_fields m (rspMove_unknown_fields other), set_rspMove_unknown_fields other (rspMove_unknown_fields m)) in
  (m, other).

#[export] Instance rspMove_Message : Message rspMove := {
  New := rspMove_New;
  Clear := rspMove_Clear;
  MergePartialFromCodedStream := rspMove_MergePartialFromCodedStream;
  SerializeWithCachedSizes := rspMove_SerializeWithCachedSizes;
  InternalSerializeWithCachedSizesToArray := rspMove_InternalSerializeWithCachedSizesToArray;
  ByteSizeLong := rspMove_ByteSizeLong;
  MergeFrom := rspMove_MergeFrom
}.

(** ** reqAlarm: alarm request *)

Record reqAlarm := mk_reqAlarm {
  reqAlarm_infomessage : bytes;
  reqAlarm_unknown_fields : UnknownFieldSet
}.

Definition set_reqAlarm_infomessage (m : reqAlarm) (value : bytes) : reqAlarm :=
  mk_reqAlarm value (reqAlarm_unknown_fields m).

Definition set_reqAlarm_unknown_fields (m : reqAlarm) (value : UnknownFieldSet) : reqAlarm :=
  mk_reqAlarm (reqAlarm_infomessage m) value.

Definition reqAlarm_New : reqAlarm := mk_reqAlarm [] [].

(** The copy constructor. *)
Definition reqAlarm_copy (from : reqAlarm) : reqAlarm :=
  mk_reqAlarm (if 0 <? zlen (reqAlarm_infomessage from) then reqAlarm_infomessage from else []) ([] ++ reqAlarm_unknown_fields from).

Definition reqAlarm_Clear (m : reqAlarm) : reqAlarm :=
  let m := set_reqAlarm_infomessage m [] in
  set_reqAlarm_unknown_fields m [].

Definition reqAlarm_switch (tag : Z) (m : reqAlarm) (s : CodedInputStream) : case_result reqAlarm :=
  match GetTagFieldNumber tag with
  | 1 => on_tag tag 10
      (let '(ok, v, s) := ReadVerifiedString (reqAlarm_infomessage m) s in Do ok (set_reqAlarm_infomessage m v) s)
  | _ => Unusual
  end.

Definition reqAlarm_MergePartialFromCodedStream (m : reqAlarm) (s : CodedInputStream)
  : option (bool * reqAlarm * CodedInputStream) :=
  parse reqAlarm_switch reqAlarm_unknown_fields set_reqAlarm_unknown_fields m s.

Definition reqAlarm_SerializeWithCachedSizes (m : reqAlarm) : CodedOutputStream → CodedOutputStream :=
  when (0 <? zlen (reqAlarm_infomessage m)) (WriteStringMaybeAliased 1 (reqAlarm_infomessage m)) >>>
  SerializeUnknownFields (reqAlarm_unknown_fields m).

Definition reqAlarm_InternalSerializeWithCachedSizesToArray (m : reqAlarm) : bytes :=
  opt_bytes (0 <? zlen (reqAlarm_infomessage m)) (WriteStringToArray 1 (reqAlarm_infomessage m)) ++
  SerializeUnknownFieldsToArray (reqAlarm_unknown_fields m).

Definition reqAlarm_ByteSizeLong (m : reqAlarm) : Z :=
  let total_size := u32 (0 + ComputeUnknownFieldsSize (reqAlarm_unknown_fields m)) in
  let total_size := if 0 <? zlen (reqAlarm_infomessage m) then u32 (total_size + u32 (1 + StringSize (reqAlarm_infomessage m))) else total_size in
  total_size.

Definition reqAlarm_MergeFrom (m from : reqAlarm) : reqAlarm :=
  let m := set_reqAlarm_unknown_fields m (reqAlarm_unknown_fields m ++ reqAlarm_unknown_fields from) in
  let m := if 0 <? zlen (reqAlarm_infomessage from) then set_reqAlarm_infomessage m (reqAlarm_infomessage from) else m in
  m.

(** For distinct objects. *)
Definition reqAlarm_CopyFrom (m from : reqAlarm) : reqAlarm := reqAlarm_MergeFrom (reqAlarm_Clear m) from.

(** Returns the new values of [*this] and [*other]. *)
Definition reqAlarm_InternalSwap (m other : reqAlarm) : reqAlarm * reqAlarm :=
  let '(m, other) := (set_reqAlarm_infomessage m (reqAlarm_infomessage other), set_reqAlarm_infomessage other (reqAlarm_infomessage m)) in
  let '(m, other) := (set_reqAlarm_unknown_fields m (reqAlarm_unknown_fields other), set_reqAlarm_unknown_fields other (reqAlarm_unknown_fields m)) in
  (m, other).

#[export] Instance reqAlarm_Message : Message reqAlarm := {
  New := reqAlarm_New;
  Clear := reqAlarm_Clear;
  MergePartialFromCodedStream := reqAlarm_MergePartialFromCodedStream;
  SerializeWithCachedSizes := reqAlarm_SerializeWithCachedSizes;
  InternalSerializeWithCachedSizesToArray := reqAlarm_InternalSerializeWithCachedSizesToArray;
  ByteSizeLong := reqAlarm_ByteSizeLong;
  MergeFrom := reqAlarm_MergeFrom
}.

(** ** rspAlarm: alarm response *)

Record rspAlarm := mk_rspAlarm {
  rspAlarm_error : bytes;
  rspAlarm_unknown_fields : UnknownFieldSet
}.

Definition set_rspAlarm_error (m : rspAlarm) (value : bytes) : rspAlarm :=
  mk_rspAlarm value (rspAlarm_unknown_fields m).

Definition set_rspAlarm_unknown_fields (m : rspAlarm) (value : UnknownFieldSet) : rspAlarm :=
  mk_rspAlarm (rspAlarm_error m) value.

Definition rspAlarm_New : rspAlarm := mk_rspAlarm [] [].

(** The copy constructor. *)
Definition rspAlarm_copy (from : rspAlarm) : rspAlarm :=
  mk_rspAlarm (if 0 <? zlen (rspAlarm_error from) then rspAlarm_error from else []) ([] ++ rspAlarm_unknown_fields from).

Definition rspAlarm_Clear (m : rspAlarm) : rspAlarm :=
  let m := set_rspAlarm_error m [] in
  set_rspAlarm_unknown_fields m [].

Definition rspAlarm_switch (tag : Z) (m : rspAlarm) (s : CodedInputStream) : case_result rspAlarm :=
  match GetTagFieldNumber tag with
  | 1 => on_tag tag 10
      (let '(ok, v, s) := ReadVerifiedString (rspAlarm_error m) s in Do ok (set_rspAlarm_error m v) s)
  | _ => Unusual
  end.

Definition rspAlarm_MergePartialFromCodedStream (m : rspAlarm) (s : CodedInputStream)
  : option (bool * rspAlarm * CodedInputStream) :=
  parse rspAlarm_switch rspAlarm_unknown_fields set_rspAlarm_unknown_fields m s.

Definition rspAlarm_SerializeWithCachedSizes (m : rspAlarm) : CodedOutputStream → CodedOutputStream :=
  when (0 <? zlen (rspAlarm_error m)) (WriteStringMaybeAliased 1 (rspAlarm_error m)) >>>
  SerializeUnknownFields (rspAlarm_unknown_fields m).

Definition rspAlarm_InternalSerializeWithCachedSizesToArray (m : rspAlarm) : bytes :=
  opt_bytes (0 <? zlen (rspAlarm_error m)) (WriteStringToArray 1 (rspAlarm_error m)) ++
  SerializeUnknownFieldsToArray (rspAlarm_unknown_fields m).

Definition rspAlarm_ByteSizeLong (m : rspAlarm) : Z :=
  let total_size := u32 (0 + ComputeUnknownFieldsSize (rspAlarm_unknown_fields m)) in
  let total_size := if 0 <? zlen (rspAlarm_error m) then u32 (total_size + u32 (1 + StringSize (rspAlarm_error m))) else total_size in
  total_size.

Definition rspAlarm_MergeFrom (m from : rspAlarm) : rspAlarm :=
  let m := set_rspAlarm_unknown_fields m (rspAlarm_unknown_fields m ++ rspAlarm_unknown_fields from) in
  let m := if 0 <? zlen (rspAlarm_error from) then set_rspAlarm_error m (rspAlarm_error from) else m in
  m.

(** For distinct objects. *)
Definition rspAlarm_CopyFrom (m from : rspAlarm) : rspAlarm := rspAlarm_MergeFrom (rspAlarm_Clear m) from.

(** Returns the new values of [*this] and [*other]. *)
Definition rspAlarm_InternalSwap (m other : rspAlarm) : rspAlarm * rspAlarm :=
  let '(m, other) := (set_rspAlarm_error m (rspAlarm_error other), set_rspAlarm_error other (rspAlarm_error m)) in
  let '(m, other) := (set_rspAlarm_unknown_fields m (rspAlarm_unknown_fields other), set_rspAlarm_unknown_fields other (rspAlarm_unknown_fields m)) in
  (m, other).

#[export] Instance rspAlarm_Message : Message rspAlarm := {
  New := rspAlarm_New;
  Clear := rspAlarm_Clear;
  MergePartialFromCodedStream := rspAlarm_MergePartialFromCodedStream;
  SerializeWithCachedSizes := rspAlarm_SerializeWithCachedSizes;
  InternalSerializeWithCachedSizesToArray := rspAlarm_InternalSerializeWithCachedSizesToArray;
  ByteSizeLong := rspAlarm_ByteSizeLong;
  MergeFrom := rspAlarm_MergeFrom
}.

