(* ===== verification/BaseCmdFacts.v ===== *)
(** Every message of BaseCmd.proto keeps the contract [MessageLaws]: its parser
    always returns, its two serializers write the same bytes, [ByteSizeLong]
    predicts their number, and parsing what was serialized gives the message
    back, unknown fields included. *)

From S2P Require Import Prelude CodedStream Utf8 WireFormat WireFormatFacts BaseCmd.
Import CodedOutput CodedInput WireFormatLite WireFormat MessageLite.

(** ** Shared by all messages *)

(** A float the wire format carries: [-0.0] is not written, since it compares
    equal to 0. *)
Definition float_ok (v : Z) : Prop := is_u32 v ∧ (float_nonzero v = false → v = 0).

(** Unknown fields a parser that knows [tags] can have stored. *)
Definition unknowns_ok (b : Z) (tags : list Z) (uf : UnknownFieldSet) : Prop :=
  Forall (λ f, unknown_ok b f ∧ (field_tag f ∉ tags)) uf.

(** An element of a repeated message field. *)
Definition element_ok `{MessageLaws M} (b : Z) (x : M) : Prop :=
  1 <= b ∧ message_ok (b - 1) x ∧ zlen (InternalSerializeWithCachedSizesToArray x) <= INT_MAX.

Section Cases.
Context {M : Type}.

Lemma unknowns_ok_elem b tags uf f :
  unknowns_ok b tags uf → f ∈ uf → (field_tag f ∉ tags) ∧ 0 <= field_tag f.
Proof.
  intros H Hf. unfold unknowns_ok in H. rewrite Forall_forall in H.
  apply H in Hf as [Hok Ht]. split; [done|].
  destruct (MakeTag_u32 (number f) (wire_type f)) as [Hu _].
  - by eapply unknown_ok_number.
  - apply wire_type_range.
  - unfold field_tag. znorm. lia.
Qed.

Lemma unknowns_ok_typed b tags uf : unknowns_ok b tags uf → Forall unknown_typed uf.
Proof. intros H. eapply Forall_impl; [exact H|]. intros f [Hf _]. by exists b. Qed.

(** A tag of a known field number but another wire type is unusual. *)
Lemma on_tag_other tag t n (body : case_result M) :
  GetTagFieldNumber tag = n → 0 <= tag → n < 16 → tag ≠ t → 0 <= t < 128 → on_tag tag t body = Unusual.
Proof.
  unfold GetTagFieldNumber, on_tag, u8. intros <- H0 Hn Hne Ht.
  rewrite Z.shiftr_div_pow2 in Hn by lia. change (2 ^ 3) with 8 in Hn. change (2 ^ 8) with 256.
  assert (tag < 128) by (Z.to_euclidean_division_equations; lia).
  rewrite !Z.mod_small by lia. by rewrite (proj2 (Z.eqb_neq _ _)).
Qed.

Lemma case_total_on_tag s tag t (body : case_result M) :
  case_total s body → case_total s (on_tag tag t body).
Proof. unfold on_tag. by case_match. Qed.

Lemma case_total_read {A} s (r : bool * A * CodedInputStream) (put : A → M) :
  (∀ ok v s', r = (ok, v, s') → advances s s') →
  case_total s (let '(ok, v, s) := r in Do ok (put v) s).
Proof. destruct r as [[ok v] s']. simpl. eauto. Qed.

Lemma case_total_message {A} s (r : option (bool * A * CodedInputStream)) (put : A → M) :
  returns s r →
  case_total s (match r with Some (ok, x, s) => Do ok (put x) s | None => OutOfFuel end).
Proof. by intros (ok & x & s' & -> & H). Qed.

(** Appending elements one by one. *)
Lemma fold_left_append {A} (put : M → list A → M) (get : M → list A) l m :
  (∀ m v, get (put m v) = v) → (∀ m v v', put (put m v) v' = put m v') → (∀ m, put m (get m) = m) →
  fold_left (λ m x, put m (get m ++ [x])) l m = put m (get m ++ l).
Proof.
  intros H1 H2 H3. revert m. induction l as [|x l IH]; intros m; cbn [fold_left].
  - by rewrite app_nil_r, H3.
  - by rewrite IH, H1, H2, <- app_assoc.
Qed.

End Cases.

Section Shared.
Context {M : Type} (switch : Z → M → CodedInputStream → case_result M).
Context (unknown_fields : M → UnknownFieldSet) (set_unknown_fields : M → UnknownFieldSet → M).
Context `{!UnknownLens unknown_fields set_unknown_fields}.

#[local] Abbreviation parses_to := (parses switch unknown_fields set_unknown_fields).

Lemma parse_returns m s :
  (∀ t m s, ready s → case_total s (switch t m s)) → ready s →
  returns s (parse switch unknown_fields set_unknown_fields m s).
Proof. intros Hsw R. apply parse_loop_total; [done|done|]. unfold unread. lia. Qed.

(** *** Reading one field back *)

Section Field.
Context {A : Type} (read : A → CodedInputStream → bool * A * CodedInputStream) (enc : A → bytes).

(** [read] inverts [enc] on [v]. *)
Definition reads_back (v : A) : Prop :=
  ∀ s old r, ready s → buffer_ s = enc v ++ r →
  read old s = (true, v, set_buffer s r) ∧ advances s (set_buffer s r).

Lemma parses_field b m (put : A → M) old t v :
  0 < t < 128 → reads_back v →
  (∀ s, switch t m s = let '(ok, v, s) := read old s in Do ok (put v) s) →
  parses_to b m (z2b t :: enc v) (put v).
Proof.
  intros Ht Hb Hsw. apply parses_known; [done|]. intros s r R _ E.
  destruct (Hb s old r R E) as [Er Ha]. exists (set_buffer s r). by rewrite Hsw, Er.
Qed.
End Field.

Lemma parses_string b n t m (put : bytes → M) old v :
  WireFormatLite.WriteTagToArray n WIRETYPE_LENGTH_DELIMITED = [z2b t] → 0 < t < 128 → string_ok v →
  (∀ s, switch t m s = let '(ok, v, s) := ReadVerifiedString old s in Do ok (put v) s) →
  parses_to b m (WriteStringToArray n v) (put v).
Proof.
  intros Etag Ht Hv Hsw. unfold WriteStringToArray. rewrite Etag.
  eapply (parses_field ReadVerifiedString WriteStringWithSizeToArray); [done| |exact Hsw]. intros s o r R E.
  by apply ReadVerifiedString_back.
Qed.

Lemma parses_int32 b n t m (put : Z → M) old v :
  WireFormatLite.WriteTagToArray n WIRETYPE_VARINT = [z2b t] → 0 < t < 128 → is_s32 v →
  (∀ s, switch t m s = let '(ok, v, s) := ReadPrimitive_int32 old s in Do ok (put v) s) →
  parses_to b m (WriteInt32ToArray n v) (put v).
Proof.
  intros Etag Ht Hv Hsw. unfold WriteInt32ToArray. rewrite Etag.
  eapply (parses_field ReadPrimitive_int32 WriteVarint32SignExtendedToArray); [done| |exact Hsw]. intros s o r R E.
  by apply ReadPrimitive_int32_back.
Qed.

Lemma parses_enum b n t m (put : Z → M) old v :
  WireFormatLite.WriteTagToArray n WIRETYPE_VARINT = [z2b t] → 0 < t < 128 → is_s32 v →
  (∀ s, switch t m s = let '(ok, v, s) := ReadPrimitive_enum old s in Do ok (put v) s) →
  parses_to b m (WriteEnumToArray n v) (put v).
Proof. apply parses_int32. Qed.

Lemma parses_bool b n t m (put : bool → M) old v :
  WireFormatLite.WriteTagToArray n WIRETYPE_VARINT = [z2b t] → 0 < t < 128 →
  (∀ s, switch t m s = let '(ok, v, s) := ReadPrimitive_bool old s in Do ok (put v) s) →
  parses_to b m (WriteBoolToArray n v) (put v).
Proof.
  intros Etag Ht Hsw. unfold WriteBoolToArray. rewrite Etag.
  eapply (parses_field ReadPrimitive_bool (λ v : bool, WriteVarint32ToArray (if v then 1 else 0)));
    [done| |exact Hsw].
  intros s o r R E. by apply ReadPrimitive_bool_back.
Qed.

Lemma parses_float b n t m (put : Z → M) old v :
  WireFormatLite.WriteTagToArray n WIRETYPE_FIXED32 = [z2b t] → 0 < t < 128 → float_ok v →
  (∀ s, switch t m s = let '(ok, v, s) := ReadPrimitive_float old s in Do ok (put v) s) →
  parses_to b m (WriteFloatToArray n v) (put v).
Proof.
  intros Etag Ht [Hv _] Hsw. unfold WriteFloatToArray. rewrite Etag.
  eapply (parses_field ReadPrimitive_float WriteLittleEndian32ToArray); [done| |exact Hsw]. intros s o r R E.
  by apply ReadPrimitive_float_back.
Qed.

(** A field that is skipped exactly when it has its default value. *)
Lemma parses_opt_set {A} b (put : M → A → M) m v (c : bool) bs :
  parses_to b m bs (put m v) → (c = false → put m v = m) →
  parses_to b m (opt_bytes c bs) (put m v).
Proof. intros. by apply parses_opt. Qed.

Lemma parses_unknowns_ok b tags m uf m' :
  unknowns_ok b tags uf → (∀ f m s, f ∈ uf → switch (field_tag f) m s = Unusual) →
  m' = set_unknown_fields m (unknown_fields m ++ uf) →
  parses_to b m (SerializeUnknownFieldsToArray uf) m'.
Proof.
  intros Hu Hsw ->. apply parses_unknowns; [done| |].
  - eapply Forall_impl; [exact Hu|]. by intros f [].
  - rewrite Forall_forall. intros. auto.
Qed.

Lemma parses_element `{MessageLaws E} b n t m (put : E → M) (x : E) :
  WireFormatLite.WriteTagToArray n WIRETYPE_LENGTH_DELIMITED = [z2b t] → 0 < t < 128 → element_ok b x →
  (∀ s, switch t m s =
     match ReadMessage New s with Some (ok, x, s) => Do ok (put x) s | None => OutOfFuel end) →
  parses_to b m (InternalWriteMessageToArray n x) (put x).
Proof.
  intros Etag Ht (Hb & Hx & Hl) Hsw. unfold InternalWriteMessageToArray. rewrite Etag.
  apply parses_known; [done|]. intros s r R Hbud Eb. rewrite <- app_assoc in Eb.
  destruct (ReadMessage_roundtrip (b - 1) x s r) as (s' & Er & A & B); [done|done|lia|lia|done|done|].
  exists s'. by rewrite Hsw, Er.
Qed.

End Shared.

(** *** Adding up sizes *)

Lemma size_unknown uf :
  Forall unknown_typed uf →
  u32 (0 + ComputeUnknownFieldsSize uf) = u32 (zlen (SerializeUnknownFieldsToArray uf)).
Proof. intros. rewrite Z.add_0_l, ComputeUnknownFieldsSize_length by done. apply u32_idemp. Qed.

Lemma size_count {A} (l : list A) x t :
  x = u32 t → u32 (x + u32 (zlen l)) = u32 (t + zlen l).
Proof. intros ->. by rewrite u32_add_r, u32_add_l. Qed.

Lemma size_opt (c : bool) size b x t :
  x = u32 t → (c = true → u32 (1 + size) = u32 (zlen b)) →
  (if c then u32 (x + u32 (1 + size)) else x) = u32 (t + zlen (opt_bytes c b)).
Proof.
  intros -> Hc. destruct c; simpl.
  - by rewrite Hc, u32_add_r, u32_add_l.
  - rewrite zlen_nil. f_equal. lia.
Qed.

Lemma size_string n v :
  zlen (WireFormatLite.WriteTagToArray n WIRETYPE_LENGTH_DELIMITED) = 1 →
  u32 (1 + StringSize v) = u32 (zlen (WriteStringToArray n v)).
Proof.
  intros Ht. unfold WriteStringToArray. rewrite zlen_app, Ht, LengthDelimitedSize_length.
  by rewrite u32_add_r.
Qed.

Lemma size_int32 n v : zlen (WireFormatLite.WriteTagToArray n WIRETYPE_VARINT) = 1 → is_s32 v →
  u32 (1 + Int32Size v) = u32 (zlen (WriteInt32ToArray n v)).
Proof.
  intros Ht Hv. unfold WriteInt32ToArray, Int32Size. by rewrite zlen_app, Ht, VarintSize32SignExtended_length.
Qed.

Lemma size_enum n v : zlen (WireFormatLite.WriteTagToArray n WIRETYPE_VARINT) = 1 → is_s32 v →
  u32 (1 + EnumSize v) = u32 (zlen (WriteEnumToArray n v)).
Proof. apply size_int32. Qed.

Lemma size_repeated `{MessageLaws E} n (l : list E) x t :
  field_number_ok n → VarintSize32 (MakeTag n WIRETYPE_LENGTH_DELIMITED) = 1 → Forall message_typed l →
  x = u32 (t + zlen l) →
  fold_left (λ size y, u32 (size + MessageSize y)) l x
  = u32 (t + zlen (concat (map (InternalWriteMessageToArray n) l))).
Proof.
  intros Hn Ht Hl. revert x t. induction Hl as [|y l Hy _ IH]; intros x t ->; cbn [fold_left map concat].
  - by rewrite !zlen_nil.
  - rewrite (IH _ (t + zlen (InternalWriteMessageToArray n y))).
    + rewrite zlen_app. f_equal. lia.
    + rewrite u32_add_l, zlen_cons. pose proof (MessageSize_length n y Hy Hn Ht) as Hs.
      replace (t + (1 + zlen l) + MessageSize y) with (t + zlen l + (1 + MessageSize y)) by lia.
      rewrite <- u32_add_r, Hs, u32_add_r. f_equal. lia.
Qed.

(** ** Automation for the generated operations *)

(** Every [case] of a [switch] returns and only advances. *)
Ltac switch_total :=
  intros R;
  match goal with |- context [ GetTagFieldNumber ?t ] => destruct (GetTagFieldNumber t) end;
  try exact I; repeat (match goal with p : positive |- _ => destruct p end; try exact I);
  apply case_total_on_tag;
  first
    [ apply case_total_message, ReadMessage_total; exact R
    | apply case_total_read; intros ? ? ?;
      first [ by apply ReadVerifiedString_advances | by apply ReadPrimitive_int32_advances
            | by apply ReadPrimitive_enum_advances | by apply ReadPrimitive_bool_advances
            | by apply ReadPrimitive_float_advances ] ].

(** A tag outside the list of known tags is unusual. *)
Ltac switch_unusual Hn Hr :=
  match goal with |- context [ GetTagFieldNumber ?t ] =>
    destruct (GetTagFieldNumber t) eqn:? end;
  try reflexivity; repeat (match goal with p : positive |- _ => destruct p end; try reflexivity);
  (eapply on_tag_other; [eassumption|exact Hr|lia| |lia];
   intros Heq; apply Hn; rewrite Heq; by apply (bool_decide_unpack _)).

(** A skipped field has its default value. *)
Ltac opt_default :=
  let Hc := fresh "Hc" in intros Hc;
  first
    [ apply Z.ltb_ge in Hc; apply zlen_zero in Hc; rewrite Hc; reflexivity
    | apply negb_false_iff, Z.eqb_eq in Hc; rewrite Hc; reflexivity
    | match goal with H : float_ok ?v |- _ => rewrite (proj2 H Hc); reflexivity end
    | rewrite Hc; reflexivity ].

(** A conjunct of the hypotheses. *)
Ltac typed_hyp :=
  repeat match goal with H : _ ∧ _ |- _ => destruct H end; eassumption.

Ltac emits_message :=
  repeat lazymatch goal with
  | |- emits (_ >>> _) (_ ++ _) => apply emits_seq
  | |- emits (when _ _) (opt_bytes _ _) => apply emits_when
  | |- emits (WriteStringMaybeAliased _ _) _ => apply WriteString_emits
  | |- emits (WriteInt32 _ _) _ => apply WriteInt32_emits
  | |- emits (WriteEnum _ _) _ => apply WriteEnum_emits
  | |- emits (WriteBool _ _) _ => apply WriteBool_emits
  | |- emits (WriteFloat _ _) _ => apply WriteFloat_emits
  | |- emits (SerializeUnknownFields _) _ => apply SerializeUnknownFields_emits
  | |- emits (fold_left _ _) _ =>
      apply fold_left_emits; eapply Forall_impl; [typed_hyp|];
      let H := fresh "H" in intros ? H; apply WriteMessage_emits
  | |- field_number_ok _ => split; reflexivity
  | |- Forall unknown_typed _ => typed_hyp
  | |- message_typed _ => assumption
  end.

(** One field; its number is read off the serializer's side, kept in [HA]. *)
Ltac size_field :=
  match goal with
  | HA : context [WriteStringToArray ?n ?v] |- u32 (1 + StringSize ?v) = _ => by apply (size_string n v)
  | HA : context [WriteInt32ToArray ?n ?v] |- u32 (1 + Int32Size ?v) = _ =>
      apply (size_int32 n v); [done|typed_hyp]
  | HA : context [WriteEnumToArray ?n ?v] |- u32 (1 + EnumSize ?v) = _ =>
      apply (size_enum n v); [done|typed_hyp]
  | HA : context [WriteBoolToArray ?n ?v], Hc : ?v = true |- _ =>
      instantiate (1 := WriteBoolToArray n v); by rewrite Hc
  | HA : context [WriteFloatToArray ?n ?v], Hc : float_nonzero ?v = true |- _ =>
      instantiate (1 := WriteFloatToArray n v); reflexivity
  end.

(** The running total, from the last statement back to the first. *)
Ltac size_total :=
  lazymatch goal with
  | |- (if _ then u32 (_ + u32 (1 + _)) else _) = _ =>
      eapply size_opt;
      [ size_total
      | let Hc := fresh "Hc" in intros Hc; size_field ]
  | HA : context [InternalWriteMessageToArray ?n] |- fold_left _ _ _ = _ =>
      eapply (size_repeated n); [split; reflexivity|reflexivity|typed_hyp|size_total]
  | |- u32 (_ + u32 (zlen _)) = _ => apply size_count; size_total
  | |- u32 (0 + ComputeUnknownFieldsSize _) = _ => apply size_unknown; typed_hyp
  end.

Ltac size_message :=
  match goal with |- _ = u32 (zlen ?A) =>
    let HA := fresh "HA" in assert (HA : A = A) by reflexivity end;
  eapply eq_trans; [size_total|f_equal; autorewrite with wire; lia].

Ltac typed_from_ok :=
  repeat match goal with H : _ ∧ _ |- _ => destruct H end;
  repeat match goal with |- _ ∧ _ => split end;
  first
    [ assumption
    | by eapply unknowns_ok_typed
    | match goal with H : float_ok ?v |- is_u32 ?v => exact (proj1 H) end
    | eapply Forall_impl; [eassumption|]; intros ? (? & ? & ?); by eapply law_typed ].

(** ** The messages *)

(** *** CmdType *)

Definition CmdType_tags : list Z := [10; 16; 26; 34].

Definition CmdType_typed (m : CmdType) : Prop :=
  is_s32 (CmdType_size m) ∧ Forall unknown_typed (CmdType_unknown_fields m).

Definition CmdType_ok (b : Z) (m : CmdType) : Prop :=
  string_ok (CmdType_type m) ∧ is_s32 (CmdType_size m) ∧ string_ok (CmdType_fromip m) ∧ string_ok (CmdType_toip m) ∧ unknowns_ok b CmdType_tags (CmdType_unknown_fields m).

#[export] Instance CmdType_lens : UnknownLens CmdType_unknown_fields set_CmdType_unknown_fields.
Proof. by split; intros []. Qed.

Lemma CmdType_switch_total t m s : ready s → case_total s (CmdType_switch t m s).
Proof. unfold CmdType_switch. switch_total. Qed.

Lemma CmdType_switch_unusual f b uf m s :
  unknowns_ok b CmdType_tags uf → f ∈ uf → CmdType_switch (field_tag f) m s = Unusual.
Proof. intros Hu Hf. pose proof (unknowns_ok_elem _ _ _ _ Hu Hf) as [Hn Hr]. unfold CmdType_switch. switch_unusual Hn Hr. Qed.

Lemma CmdType_parses b m : CmdType_ok b m →
  parses CmdType_switch CmdType_unknown_fields set_CmdType_unknown_fields b CmdType_New
    (CmdType_InternalSerializeWithCachedSizesToArray m) m.
Proof.
  intros (Htype & Hsize & Hfromip & Htoip & Hu).
  unfold CmdType_InternalSerializeWithCachedSizesToArray.
  eapply parses_app.
  { apply (parses_opt_set _ _ _ b set_CmdType_type); [by eapply (parses_string _ _ _ b 1 10)|opt_default]. }
  eapply parses_app.
  { apply (parses_opt_set _ _ _ b set_CmdType_size); [by eapply (parses_int32 _ _ _ b 2 16)|opt_default]. }
  eapply parses_app.
  { apply (parses_opt_set _ _ _ b set_CmdType_fromip); [by eapply (parses_string _ _ _ b 3 26)|opt_default]. }
  eapply parses_app.
  { apply (parses_opt_set _ _ _ b set_CmdType_toip); [by eapply (parses_string _ _ _ b 4 34)|opt_default]. }
  eapply (parses_unknowns_ok _ _ _ b CmdType_tags); [exact Hu| |by destruct m].
  intros f m0 s Hf. by eapply CmdType_switch_unusual.
Qed.

Lemma CmdType_law_typed b m : CmdType_ok b m → CmdType_typed m.
Proof. intros Hm. unfold CmdType_ok, CmdType_typed in *. typed_from_ok. Qed.

Lemma CmdType_law_emits m : CmdType_typed m →
  emits (CmdType_SerializeWithCachedSizes m) (CmdType_InternalSerializeWithCachedSizesToArray m).
Proof.
  intros Hm. unfold CmdType_typed in Hm.
  unfold CmdType_SerializeWithCachedSizes, CmdType_InternalSerializeWithCachedSizesToArray. emits_message.
Qed.

Lemma CmdType_law_size m : CmdType_typed m →
  CmdType_ByteSizeLong m = u32 (zlen (CmdType_InternalSerializeWithCachedSizesToArray m)).
Proof.
  intros Hm. unfold CmdType_typed in Hm.
  unfold CmdType_ByteSizeLong, CmdType_InternalSerializeWithCachedSizesToArray. size_message.
Qed.

#[export] Instance CmdType_laws : MessageLaws CmdType := {
  message_typed := CmdType_typed;
  message_ok := CmdType_ok;
  law_typed := CmdType_law_typed;
  law_clear := λ m, eq_refl;
  law_total := λ m s R, parse_returns _ _ _ m s CmdType_switch_total R;
  law_emits := CmdType_law_emits;
  law_size := CmdType_law_size;
  law_roundtrip := λ b m s Hm R Hb E, parse_complete _ _ _ b _ _ m s CmdType_switch_total (CmdType_parses b m Hm) R Hb E
}.

(** *** notifyConnectionStatus *)

Definition notifyConnectionStatus_tags : list Z := [8].

Definition notifyConnectionStatus_typed (m : notifyConnectionStatus) : Prop :=
  is_s32 (notifyConnectionStatus_status m) ∧ Forall unknown_typed (notifyConnectionStatus_unknown_fields m).

Definition notifyConnectionStatus_ok (b : Z) (m : notifyConnectionStatus) : Prop :=
  is_s32 (notifyConnectionStatus_status m) ∧ unknowns_ok b notifyConnectionStatus_tags (notifyConnectionStatus_unknown_fields m).

#[export] Instance notifyConnectionStatus_lens : UnknownLens notifyConnectionStatus_unknown_fields set_notifyConnectionStatus_unknown_fields.
Proof. by split; intros []. Qed.

Lemma notifyConnectionStatus_switch_total t m s : ready s → case_total s (notifyConnectionStatus_switch t m s).
Proof. unfold notifyConnectionStatus_switch. switch_total. Qed.

Lemma notifyConnectionStatus_switch_unusual f b uf m s :
  unknowns_ok b notifyConnectionStatus_tags uf → f ∈ uf → notifyConnectionStatus_switch (field_tag f) m s = Unusual.
Proof. intros Hu Hf. pose proof (unknowns_ok_elem _ _ _ _ Hu Hf) as [Hn Hr]. unfold notifyConnectionStatus_switch. switch_unusual Hn Hr. Qed.

Lemma notifyConnectionStatus_parses b m : notifyConnectionStatus_ok b m →
  parses notifyConnectionStatus_switch notifyConnectionStatus_unknown_fields set_notifyConnectionStatus_unknown_fields b notifyConnectionStatus_New
    (notifyConnectionStatus_InternalSerializeWithCachedSizesToArray m) m.
Proof.
  intros (Hstatus & Hu).
  unfold notifyConnectionStatus_InternalSerializeWithCachedSizesToArray.
  eapply parses_app.
  { apply (parses_opt_set _ _ _ b set_notifyConnectionStatus_status); [by eapply (parses_enum _ _ _ b 1 8)|opt_default]. }
  eapply (parses_unknowns_ok _ _ _ b notifyConnectionStatus_tags); [exact Hu| |by destruct m].
  intros f m0 s Hf. by eapply notifyConnectionStatus_switch_unusual.
Qed.

Lemma notifyConnectionStatus_law_typed b m : notifyConnectionStatus_ok b m → notifyConnectionStatus_typed m.
Proof. intros Hm. unfold notifyConnectionStatus_ok, notifyConnectionStatus_typed in *. typed_from_ok. Qed.

Lemma notifyConnectionStatus_law_emits m : notifyConnectionStatus_typed m →
  emits (notifyConnectionStatus_SerializeWithCachedSizes m) (notifyConnectionStatus_InternalSerializeWithCachedSizesToArray m).
Proof.
  intros Hm. unfold notifyConnectionStatus_typed in Hm.
  unfold notifyConnectionStatus_SerializeWithCachedSizes, notifyConnectionStatus_InternalSerializeWithCachedSizesToArray. emits_message.
Qed.

Lemma notifyConnectionStatus_law_size m : notifyConnectionStatus_typed m →
  notifyConnectionStatus_ByteSizeLong m = u32 (zlen (notifyConnectionStatus_InternalSerializeWithCachedSizesToArray m)).
Proof.
  intros Hm. unfold notifyConnectionStatus_typed in Hm.
  unfold notifyConnectionStatus_ByteSizeLong, notifyConnectionStatus_InternalSerializeWithCachedSizesToArray. size_message.
Qed.

#[export] Instance notifyConnectionStatus_laws : MessageLaws notifyConnectionStatus := {
  message_typed := notifyConnectionStatus_typed;
  message_ok := notifyConnectionStatus_ok;
  law_typed := notifyConnectionStatus_law_typed;
  law_clear := λ m, eq_refl;
  law_total := λ m s R, parse_returns _ _ _ m s notifyConnectionStatus_switch_total R;
  law_emits := notifyConnectionStatus_law_emits;
  law_size := notifyConnectionStatus_law_size;
  law_roundtrip := λ b m s Hm R Hb E, parse_complete _ _ _ b _ _ m s notifyConnectionStatus_switch_total (notifyConnectionStatus_parses b m Hm) R Hb E
}.

(** *** sUser_ePhoneNumber *)

Definition sUser_ePhoneNumber_tags : list Z := [10; 16].

Definition sUser_ePhoneNumber_typed (m : sUser_ePhoneNumber) : Prop :=
  is_s32 (sUser_ePhoneNumber_type m) ∧ Forall unknown_typed (sUser_ePhoneNumber_unknown_fields m).

Definition sUser_ePhoneNumber_ok (b : Z) (m : sUser_ePhoneNumber) : Prop :=
  string_ok (sUser_ePhoneNumber_number m) ∧ is_s32 (sUser_ePhoneNumber_type m) ∧ unknowns_ok b sUser_ePhoneNumber_tags (sUser_ePhoneNumber_unknown_fields m).

#[export] Instance sUser_ePhoneNumber_lens : UnknownLens sUser_ePhoneNumber_unknown_fields set_sUser_ePhoneNumber_unknown_fields.
Proof. by split; intros []. Qed.

Lemma sUser_ePhoneNumber_switch_total t m s : ready s → case_total s (sUser_ePhoneNumber_switch t m s).
Proof. unfold sUser_ePhoneNumber_switch. switch_total. Qed.

Lemma sUser_ePhoneNumber_switch_unusual f b uf m s :
  unknowns_ok b sUser_ePhoneNumber_tags uf → f ∈ uf → sUser_ePhoneNumber_switch (field_tag f) m s = Unusual.
Proof. intros Hu Hf. pose proof (unknowns_ok_elem _ _ _ _ Hu Hf) as [Hn Hr]. unfold sUser_ePhoneNumber_switch. switch_unusual Hn Hr. Qed.

Lemma sUser_ePhoneNumber_parses b m : sUser_ePhoneNumber_ok b m →
  parses sUser_ePhoneNumber_switch sUser_ePhoneNumber_unknown_fields set_sUser_ePhoneNumber_unknown_fields b sUser_ePhoneNumber_New
    (sUser_ePhoneNumber_InternalSerializeWithCachedSizesToArray m) m.
Proof.
  intros (Hnumber & Htype & Hu).
  unfold sUser_ePhoneNumber_InternalSerializeWithCachedSizesToArray.
  eapply parses_app.
  { apply (parses_opt_set _ _ _ b set_sUser_ePhoneNumber_number); [by eapply (parses_string _ _ _ b 1 10)|opt_default]. }
  eapply parses_app.
  { apply (parses_opt_set _ _ _ b set_sUser_ePhoneNumber_type); [by eapply (parses_enum _ _ _ b 2 16)|opt_default]. }
  eapply (parses_unknowns_ok _ _ _ b sUser_ePhoneNumber_tags); [exact Hu| |by destruct m].
  intros f m0 s Hf. by eapply sUser_ePhoneNumber_switch_unusual.
Qed.

Lemma sUser_ePhoneNumber_law_typed b m : sUser_ePhoneNumber_ok b m → sUser_ePhoneNumber_typed m.
Proof. intros Hm. unfold sUser_ePhoneNumber_ok, sUser_ePhoneNumber_typed in *. typed_from_ok. Qed.

Lemma sUser_ePhoneNumber_law_emits m : sUser_ePhoneNumber_typed m →
  emits (sUser_ePhoneNumber_SerializeWithCachedSizes m) (sUser_ePhoneNumber_InternalSerializeWithCachedSizesToArray m).
Proof.
  intros Hm. unfold sUser_ePhoneNumber_typed in Hm.
  unfold sUser_ePhoneNumber_SerializeWithCachedSizes, sUser_ePhoneNumber_InternalSerializeWithCachedSizesToArray. emits_message.
Qed.

Lemma sUser_ePhoneNumber_law_size m : sUser_ePhoneNumber_typed m →
  sUser_ePhoneNumber_ByteSizeLong m = u32 (zlen (sUser_ePhoneNumber_InternalSerializeWithCachedSizesToArray m)).
Proof.
  intros Hm. unfold sUser_ePhoneNumber_typed in Hm.
  unfold sUser_ePhoneNumber_ByteSizeLong, sUser_ePhoneNumber_InternalSerializeWithCachedSizesToArray. size_message.
Qed.

#[export] Instance sUser_ePhoneNumber_laws : MessageLaws sUser_ePhoneNumber := {
  message_typed := sUser_ePhoneNumber_typed;
  message_ok := sUser_ePhoneNumber_ok;
  law_typed := sUser_ePhoneNumber_law_typed;
  law_clear := λ m, eq_refl;
  law_total := λ m s R, parse_returns _ _ _ m s sUser_ePhoneNumber_switch_total R;
  law_emits := sUser_ePhoneNumber_law_emits;
  law_size := sUser_ePhoneNumber_law_size;
  law_roundtrip := λ b m s Hm R Hb E, parse_complete _ _ _ b _ _ m s sUser_ePhoneNumber_switch_total (sUser_ePhoneNumber_parses b m Hm) R Hb E
}.

(** *** sUser *)

Definition sUser_tags : list Z := [10; 16; 26; 34].

Definition sUser_typed (m : sUser) : Prop :=
  is_s32 (sUser_id m) ∧ Forall message_typed (sUser_phones m) ∧ Forall unknown_typed (sUser_unknown_fields m).

Definition sUser_ok (b : Z) (m : sUser) : Prop :=
  string_ok (sUser_name m) ∧ is_s32 (sUser_id m) ∧ string_ok (sUser_email m) ∧ Forall (element_ok b) (sUser_phones m) ∧ unknowns_ok b sUser_tags (sUser_unknown_fields m).

#[export] Instance sUser_lens : UnknownLens sUser_unknown_fields set_sUser_unknown_fields.
Proof. by split; intros []. Qed.

Lemma sUser_switch_total t m s : ready s → case_total s (sUser_switch t m s).
Proof. unfold sUser_switch. switch_total. Qed.

Lemma sUser_switch_unusual f b uf m s :
  unknowns_ok b sUser_tags uf → f ∈ uf → sUser_switch (field_tag f) m s = Unusual.
Proof. intros Hu Hf. pose proof (unknowns_ok_elem _ _ _ _ Hu Hf) as [Hn Hr]. unfold sUser_switch. switch_unusual Hn Hr. Qed.

Lemma sUser_parses b m : sUser_ok b m →
  parses sUser_switch sUser_unknown_fields set_sUser_unknown_fields b sUser_New
    (sUser_InternalSerializeWithCachedSizesToArray m) m.
Proof.
  intros (Hname & Hid & Hemail & Hphones & Hu).
  unfold sUser_InternalSerializeWithCachedSizesToArray.
  eapply parses_app.
  { apply (parses_opt_set _ _ _ b set_sUser_name); [by eapply (parses_string _ _ _ b 1 10)|opt_default]. }
  eapply parses_app.
  { apply (parses_opt_set _ _ _ b set_sUser_id); [by eapply (parses_int32 _ _ _ b 2 16)|opt_default]. }
  eapply parses_app.
  { apply (parses_opt_set _ _ _ b set_sUser_email); [by eapply (parses_string _ _ _ b 3 26)|opt_default]. }
  eapply parses_app.
  { apply (parses_repeat _ _ _ b (λ m x, set_sUser_phones m (sUser_phones m ++ [x]))).
    eapply Forall_impl; [exact Hphones|]. intros x Hx m0.
    by apply (parses_element _ _ _ b 4 34 m0 (λ x, set_sUser_phones m0 (sUser_phones m0 ++ [x]))). }
  rewrite (fold_left_append set_sUser_phones sUser_phones) by (done || by intros []).
  eapply (parses_unknowns_ok _ _ _ b sUser_tags); [exact Hu| |by destruct m].
  intros f m0 s Hf. by eapply sUser_switch_unusual.
Qed.

Lemma sUser_law_typed b m : sUser_ok b m → sUser_typed m.
Proof. intros Hm. unfold sUser_ok, sUser_typed in *. typed_from_ok. Qed.

Lemma sUser_law_emits m : sUser_typed m →
  emits (sUser_SerializeWithCachedSizes m) (sUser_InternalSerializeWithCachedSizesToArray m).
Proof.
  intros Hm. unfold sUser_typed in Hm.
  unfold sUser_SerializeWithCachedSizes, sUser_InternalSerializeWithCachedSizesToArray. emits_message.
Qed.

Lemma sUser_law_size m : sUser_typed m →
  sUser_ByteSizeLong m = u32 (zlen (sUser_InternalSerializeWithCachedSizesToArray m)).
Proof.
  intros Hm. unfold sUser_typed in Hm.
  unfold sUser_ByteSizeLong, sUser_InternalSerializeWithCachedSizesToArray. size_message.
Qed.

#[export] Instance sUser_laws : MessageLaws sUser := {
  message_typed := sUser_typed;
  message_ok := sUser_ok;
  law_typed := sUser_law_typed;
  law_clear := λ m, eq_refl;
  law_total := λ m s R, parse_returns _ _ _ m s sUser_switch_total R;
  law_emits := sUser_law_emits;
  law_size := sUser_law_size;
  law_roundtrip := λ b m s Hm R Hb E, parse_complete _ _ _ b _ _ m s sUser_switch_total (sUser_parses b m Hm) R Hb E
}.

(** *** reqSignin *)

Definition reqSignin_tags : list Z := [10].

Definition reqSignin_typed (m : reqSignin) : Prop :=
  Forall message_typed (reqSignin_user m) ∧ Forall unknown_typed (reqSignin_unknown_fields m).

Definition reqSignin_ok (b : Z) (m : reqSignin) : Prop :=
  Forall (element_ok b) (reqSignin_user m) ∧ unknowns_ok b reqSignin_tags (reqSignin_unknown_fields m).

#[export] Instance reqSignin_lens : UnknownLens reqSignin_unknown_fields set_reqSignin_unknown_fields.
Proof. by split; intros []. Qed.

Lemma reqSignin_switch_total t m s : ready s → case_total s (reqSignin_switch t m s).
Proof. unfold reqSignin_switch. switch_total. Qed.

Lemma reqSignin_switch_unusual f b uf m s :
  unknowns_ok b reqSignin_tags uf → f ∈ uf → reqSignin_switch (field_tag f) m s = Unusual.
Proof. intros Hu Hf. pose proof (unknowns_ok_elem _ _ _ _ Hu Hf) as [Hn Hr]. unfold reqSignin_switch. switch_unusual Hn Hr. Qed.

Lemma reqSignin_parses b m : reqSignin_ok b m →
  parses reqSignin_switch reqSignin_unknown_fields set_reqSignin_unknown_fields b reqSignin_New
    (reqSignin_InternalSerializeWithCachedSizesToArray m) m.
Proof.
  intros (Huser & Hu).
  unfold reqSignin_InternalSerializeWithCachedSizesToArray.
  eapply parses_app.
  { apply (parses_repeat _ _ _ b (λ m x, set_reqSignin_user m (reqSignin_user m ++ [x]))).
    eapply Forall_impl; [exact Huser|]. intros x Hx m0.
    by apply (parses_element _ _ _ b 1 10 m0 (λ x, set_reqSignin_user m0 (reqSignin_user m0 ++ [x]))). }
  rewrite (fold_left_append set_reqSignin_user reqSignin_user) by (done || by intros []).
  eapply (parses_unknowns_ok _ _ _ b reqSignin_tags); [exact Hu| |by destruct m].
  intros f m0 s Hf. by eapply reqSignin_switch_unusual.
Qed.

Lemma reqSignin_law_typed b m : reqSignin_ok b m → reqSignin_typed m.
Proof. intros Hm. unfold reqSignin_ok, reqSignin_typed in *. typed_from_ok. Qed.

Lemma reqSignin_law_emits m : reqSignin_typed m →
  emits (reqSignin_SerializeWithCachedSizes m) (reqSignin_InternalSerializeWithCachedSizesToArray m).
Proof.
  intros Hm. unfold reqSignin_typed in Hm.
  unfold reqSignin_SerializeWithCachedSizes, reqSignin_InternalSerializeWithCachedSizesToArray. emits_message.
Qed.

Lemma reqSignin_law_size m : reqSignin_typed m →
  reqSignin_ByteSizeLong m = u32 (zlen (reqSignin_InternalSerializeWithCachedSizesToArray m)).
Proof.
  intros Hm. unfold reqSignin_typed in Hm.
  unfold reqSignin_ByteSizeLong, reqSignin_InternalSerializeWithCachedSizesToArray. size_message.
Qed.

#[export] Instance reqSignin_laws : MessageLaws reqSignin := {
  message_typed := reqSignin_typed;
  message_ok := reqSignin_ok;
  law_typed := reqSignin_law_typed;
  law_clear := λ m, eq_refl;
  law_total := λ m s R, parse_returns _ _ _ m s reqSignin_switch_total R;
  law_emits := reqSignin_law_emits;
  law_size := reqSignin_law_size;
  law_roundtrip := λ b m s Hm R Hb E, parse_complete _ _ _ b _ _ m s reqSignin_switch_total (reqSignin_parses b m Hm) R Hb E
}.

(** *** rspSignin *)

Definition rspSignin_tags : list Z := [10; 16].

Definition rspSignin_typed (m : rspSignin) : Prop :=
  Forall unknown_typed (rspSignin_unknown_fields m).

Definition rspSignin_ok (b : Z) (m : rspSignin) : Prop :=
  string_ok (rspSignin_name m) ∧ unknowns_ok b rspSignin_tags (rspSignin_unknown_fields m).

#[export] Instance rspSignin_lens : UnknownLens rspSignin_unknown_fields set_rspSignin_unknown_fields.
Proof. by split; intros []. Qed.

Lemma rspSignin_switch_total t m s : ready s → case_total s (rspSignin_switch t m s).
Proof. unfold rspSignin_switch. switch_total. Qed.

Lemma rspSignin_switch_unusual f b uf m s :
  unknowns_ok b rspSignin_tags uf → f ∈ uf → rspSignin_switch (field_tag f) m s = Unusual.
Proof. intros Hu Hf. pose proof (unknowns_ok_elem _ _ _ _ Hu Hf) as [Hn Hr]. unfold rspSignin_switch. switch_unusual Hn Hr. Qed.

Lemma rspSignin_parses b m : rspSignin_ok b m →
  parses rspSignin_switch rspSignin_unknown_fields set_rspSignin_unknown_fields b rspSignin_New
    (rspSignin_InternalSerializeWithCachedSizesToArray m) m.
Proof.
  intros (Hname & Hu).
  unfold rspSignin_InternalSerializeWithCachedSizesToArray.
  eapply parses_app.
  { apply (parses_opt_set _ _ _ b set_rspSignin_name); [by eapply (parses_string _ _ _ b 1 10)|opt_default]. }
  eapply parses_app.
  { apply (parses_opt_set _ _ _ b set_rspSignin_succ); [by eapply (parses_bool _ _ _ b 2 16)|opt_default]. }
  eapply (parses_unknowns_ok _ _ _ b rspSignin_tags); [exact Hu| |by destruct m].
  intros f m0 s Hf. by eapply rspSignin_switch_unusual.
Qed.

Lemma rspSignin_law_typed b m : rspSignin_ok b m → rspSignin_typed m.
Proof. intros Hm. unfold rspSignin_ok, rspSignin_typed in *. typed_from_ok. Qed.

Lemma rspSignin_law_emits m : rspSignin_typed m →
  emits (rspSignin_SerializeWithCachedSizes m) (rspSignin_InternalSerializeWithCachedSizesToArray m).
Proof.
  intros Hm. unfold rspSignin_typed in Hm.
  unfold rspSignin_SerializeWithCachedSizes, rspSignin_InternalSerializeWithCachedSizesToArray. emits_message.
Qed.

Lemma rspSignin_law_size m : rspSignin_typed m →
  rspSignin_ByteSizeLong m = u32 (zlen (rspSignin_InternalSerializeWithCachedSizesToArray m)).
Proof.
  intros Hm. unfold rspSignin_typed in Hm.
  unfold rspSignin_ByteSizeLong, rspSignin_InternalSerializeWithCachedSizesToArray. size_message.
Qed.

#[export] Instance rspSignin_laws : MessageLaws rspSignin := {
  message_typed := rspSignin_typed;
  message_ok := rspSignin_ok;
  law_typed := rspSignin_law_typed;
  law_clear := λ m, eq_refl;
  law_total := λ m s R, parse_returns _ _ _ m s rspSignin_switch_total R;
  law_emits := rspSignin_law_emits;
  law_size := rspSignin_law_size;
  law_roundtrip := λ b m s Hm R Hb E, parse_complete _ _ _ b _ _ m s rspSignin_switch_total (rspSignin_parses b m Hm) R Hb E
}.

(** *** reqMove *)

Definition reqMove_tags : list Z := [13; 21].

Definition reqMove_typed (m : reqMove) : Prop :=
  is_u32 (reqMove_forward m) ∧ is_u32 (reqMove_angle m) ∧ Forall unknown_typed (reqMove_unknown_fields m).

Definition reqMove_ok (b : Z) (m : reqMove) : Prop :=
  float_ok (reqMove_forward m) ∧ float_ok (reqMove_angle m) ∧ unknowns_ok b reqMove_tags (reqMove_unknown_fields m).

#[export] Instance reqMove_lens : UnknownLens reqMove_unknown_fields set_reqMove_unknown_fields.
Proof. by split; intros []. Qed.

Lemma reqMove_switch_total t m s : ready s → case_total s (reqMove_switch t m s).
Proof. unfold reqMove_switch. switch_total. Qed.

Lemma reqMove_switch_unusual f b uf m s :
  unknowns_ok b reqMove_tags uf → f ∈ uf → reqMove_switch (field_tag f) m s = Unusual.
Proof. intros Hu Hf. pose proof (unknowns_ok_elem _ _ _ _ Hu Hf) as [Hn Hr]. unfold reqMove_switch. switch_unusual Hn Hr. Qed.

Lemma reqMove_parses b m : reqMove_ok b m →
  parses reqMove_switch reqMove_unknown_fields set_reqMove_unknown_fields b reqMove_New
    (reqMove_InternalSerializeWithCachedSizesToArray m) m.
Proof.
  intros (Hforward & Hangle & Hu).
  unfold reqMove_InternalSerializeWithCachedSizesToArray.
  eapply parses_app.
  { apply (parses_opt_set _ _ _ b set_reqMove_forward); [by eapply (parses_float _ _ _ b 1 13)|opt_default]. }
  eapply parses_app.
  { apply (parses_opt_set _ _ _ b set_reqMove_angle); [by eapply (parses_float _ _ _ b 2 21)|opt_default]. }
  eapply (parses_unknowns_ok _ _ _ b reqMove_tags); [exact Hu| |by destruct m].
  intros f m0 s Hf. by eapply reqMove_switch_unusual.
Qed.

Lemma reqMove_law_typed b m : reqMove_ok b m → reqMove_typed m.
Proof. intros Hm. unfold reqMove_ok, reqMove_typed in *. typed_from_ok. Qed.

Lemma reqMove_law_emits m : reqMove_typed m →
  emits (reqMove_SerializeWithCachedSizes m) (reqMove_InternalSerializeWithCachedSizesToArray m).
Proof.
  intros Hm. unfold reqMove_typed in Hm.
  unfold reqMove_SerializeWithCachedSizes, reqMove_InternalSerializeWithCachedSizesToArray. emits_message.
Qed.

Lemma reqMove_law_size m : reqMove_typed m →
  reqMove_ByteSizeLong m = u32 (zlen (reqMove_InternalSerializeWithCachedSizesToArray m)).
Proof.
  intros Hm. unfold reqMove_typed in Hm.
  unfold reqMove_ByteSizeLong, reqMove_InternalSerializeWithCachedSizesToArray. size_message.
Qed.

#[export] Instance reqMove_laws : MessageLaws reqMove := {
  message_typed := reqMove_typed;
  message_ok := reqMove_ok;
  law_typed := reqMove_law_typed;
  law_clear := λ m, eq_refl;
  law_total := λ m s R, parse_returns _ _ _ m s reqMove_switch_total R;
  law_emits := reqMove_law_emits;
  law_size := reqMove_law_size;
  law_roundtrip := λ b m s Hm R Hb E, parse_complete _ _ _ b _ _ m s reqMove_switch_total (reqMove_parses b m Hm) R Hb E
}.

(** *** rspMove *)

Definition rspMove_tags : list Z := [10].

Definition rspMove_typed (m : rspMove) : Prop :=
  Forall unknown_typed (rspMove_unknown_fields m).

Definition rspMove_ok (b : Z) (m : rspMove) : Prop :=
  string_ok (rspMove_error m) ∧ unknowns_ok b rspMove_tags (rspMove_unknown_fields m).

#[export] Instance rspMove_lens : UnknownLens rspMove_unknown_fields set_rspMove_unknown_fields.
Proof. by split; intros []. Qed.

Lemma rspMove_switch_total t m s : ready s → case_total s (rspMove_switch t m s).
Proof. unfold rspMove_switch. switch_total. Qed.

Lemma rspMove_switch_unusual f b uf m s :
  unknowns_ok b rspMove_tags uf → f ∈ uf → rspMove_switch (field_tag f) m s = Unusual.
Proof. intros Hu Hf. pose proof (unknowns_ok_elem _ _ _ _ Hu Hf) as [Hn Hr]. unfold rspMove_switch. switch_unusual Hn Hr. Qed.

Lemma rspMove_parses b m : rspMove_ok b m →
  parses rspMove_switch rspMove_unknown_fields set_rspMove_unknown_fields b rspMove_New
    (rspMove_InternalSerializeWithCachedSizesToArray m) m.
Proof.
  intros (Herror & Hu).
  unfold rspMove_InternalSerializeWithCachedSizesToArray.
  eapply parses_app.
  { apply (parses_opt_set _ _ _ b set_rspMove_error); [by eapply (parses_string _ _ _ b 1 10)|opt_default]. }
  eapply (parses_unknowns_ok _ _ _ b rspMove_tags); [exact Hu| |by destruct m].
  intros f m0 s Hf. by eapply rspMove_switch_unusual.
Qed.

Lemma rspMove_law_typed b m : rspMove_ok b m → rspMove_typed m.
Proof. intros Hm. unfold rspMove_ok, rspMove_typed in *. typed_from_ok. Qed.

Lemma rspMove_law_emits m : rspMove_typed m →
  emits (rspMove_SerializeWithCachedSizes m) (rspMove_InternalSerializeWithCachedSizesToArray m).
Proof.
  intros Hm. unfold rspMove_typed in Hm.
  unfold rspMove_SerializeWithCachedSizes, rspMove_InternalSerializeWithCachedSizesToArray. emits_message.
Qed.

Lemma rspMove_law_size m : rspMove_typed m →
  rspMove_ByteSizeLong m = u32 (zlen (rspMove_InternalSerializeWithCachedSizesToArray m)).
Proof.
  intros Hm. unfold rspMove_typed in Hm.
  unfold rspMove_ByteSizeLong, rspMove_InternalSerializeWithCachedSizesToArray. size_message.
Qed.

#[export] Instance rspMove_laws : MessageLaws rspMove := {
  message_typed := rspMove_typed;
  message_ok := rspMove_ok;
  law_typed := rspMove_law_typed;
  law_clear := λ m, eq_refl;
  law_total := λ m s R, parse_returns _ _ _ m s rspMove_switch_total R;
  law_emits := rspMove_law_emits;
  law_size := rspMove_law_size;
  law_roundtrip := λ b m s Hm R Hb E, parse_complete _ _ _ b _ _ m s rspMove_switch_total (rspMove_parses b m Hm) R Hb E
}.

(** *** reqAlarm *)

Definition reqAlarm_tags : list Z := [10].

Definition reqAlarm_typed (m : reqAlarm) : Prop :=
  Forall unknown_typed (reqAlarm_unknown_fields m).

Definition reqAlarm_ok (b : Z) (m : reqAlarm) : Prop :=
  string_ok (reqAlarm_infomessage m) ∧ unknowns_ok b reqAlarm_tags (reqAlarm_unknown_fields m).

#[export] Instance reqAlarm_lens : UnknownLens reqAlarm_unknown_fields set_reqAlarm_unknown_fields.
Proof. by split; intros []. Qed.

Lemma reqAlarm_switch_total t m s : ready s → case_total s (reqAlarm_switch t m s).
Proof. unfold reqAlarm_switch. switch_total. Qed.

Lemma reqAlarm_switch_unusual f b uf m s :
  unknowns_ok b reqAlarm_tags uf → f ∈ uf → reqAlarm_switch (field_tag f) m s = Unusual.
Proof. intros Hu Hf. pose proof (unknowns_ok_elem _ _ _ _ Hu Hf) as [Hn Hr]. unfold reqAlarm_switch. switch_unusual Hn Hr. Qed.

Lemma reqAlarm_parses b m : reqAlarm_ok b m →
  parses reqAlarm_switch reqAlarm_unknown_fields set_reqAlarm_unknown_fields b reqAlarm_New
    (reqAlarm_InternalSerializeWithCachedSizesToArray m) m.
Proof.
  intros (Hinfomessage & Hu).
  unfold reqAlarm_InternalSerializeWithCachedSizesToArray.
  eapply parses_app.
  { apply (parses_opt_set _ _ _ b set_reqAlarm_infomessage); [by eapply (parses_string _ _ _ b 1 10)|opt_default]. }
  eapply (parses_unknowns_ok _ _ _ b reqAlarm_tags); [exact Hu| |by destruct m].
  intros f m0 s Hf. by eapply reqAlarm_switch_unusual.
Qed.

Lemma reqAlarm_law_typed b m : reqAlarm_ok b m → reqAlarm_typed m.
Proof. intros Hm. unfold reqAlarm_ok, reqAlarm_typed in *. typed_from_ok. Qed.

Lemma reqAlarm_law_emits m : reqAlarm_typed m →
  emits (reqAlarm_SerializeWithCachedSizes m) (reqAlarm_InternalSerializeWithCachedSizesToArray m).
Proof.
  intros Hm. unfold reqAlarm_typed in Hm.
  unfold reqAlarm_SerializeWithCachedSizes, reqAlarm_InternalSerializeWithCachedSizesToArray. emits_message.
Qed.

Lemma reqAlarm_law_size m : reqAlarm_typed m →
  reqAlarm_ByteSizeLong m = u32 (zlen (reqAlarm_InternalSerializeWithCachedSizesToArray m)).
Proof.
  intros Hm. unfold reqAlarm_typed in Hm.
  unfold reqAlarm_ByteSizeLong, reqAlarm_InternalSerializeWithCachedSizesToArray. size_message.
Qed.

#[export] Instance reqAlarm_laws : MessageLaws reqAlarm := {
  message_typed := reqAlarm_typed;
  message_ok := reqAlarm_ok;
  law_typed := reqAlarm_law_typed;
  law_clear := λ m, eq_refl;
  law_total := λ m s R, parse_returns _ _ _ m s reqAlarm_switch_total R;
  law_emits := reqAlarm_law_emits;
  law_size := reqAlarm_law_size;
  law_roundtrip := λ b m s Hm R Hb E, parse_complete _ _ _ b _ _ m s reqAlarm_switch_total (reqAlarm_parses b m Hm) R Hb E
}.

(** *** rspAlarm *)

Definition rspAlarm_tags : list Z := [10].

Definition rspAlarm_typed (m : rspAlarm) : Prop :=
  Forall unknown_typed (rspAlarm_unknown_fields m).

Definition rspAlarm_ok (b : Z) (m : rspAlarm) : Prop :=
  string_ok (rspAlarm_error m) ∧ unknowns_ok b rspAlarm_tags (rspAlarm_unknown_fields m).

#[export] Instance rspAlarm_lens : UnknownLens rspAlarm_unknown_fields set_rspAlarm_unknown_fields.
Proof. by split; intros []. Qed.

Lemma rspAlarm_switch_total t m s : ready s → case_total s (rspAlarm_switch t m s).
Proof. unfold rspAlarm_switch. switch_total. Qed.

Lemma rspAlarm_switch_unusual f b uf m s :
  unknowns_ok b rspAlarm_tags uf → f ∈ uf → rspAlarm_switch (field_tag f) m s = Unusual.
Proof. intros Hu Hf. pose proof (unknowns_ok_elem _ _ _ _ Hu Hf) as [Hn Hr]. unfold rspAlarm_switch. switch_unusual Hn Hr. Qed.

Lemma rspAlarm_parses b m : rspAlarm_ok b m →
  parses rspAlarm_switch rspAlarm_unknown_fields set_rspAlarm_unknown_fields b rspAlarm_New
    (rspAlarm_InternalSerializeWithCachedSizesToArray m) m.
Proof.
  intros (Herror & Hu).
  unfold rspAlarm_InternalSerializeWithCachedSizesToArray.
  eapply parses_app.
  { apply (parses_opt_set _ _ _ b set_rspAlarm_error); [by eapply (parses_string _ _ _ b 1 10)|opt_default]. }
  eapply (parses_unknowns_ok _ _ _ b rspAlarm_tags); [exact Hu| |by destruct m].
  intros f m0 s Hf. by eapply rspAlarm_switch_unusual.
Qed.

Lemma rspAlarm_law_typed b m : rspAlarm_ok b m → rspAlarm_typed m.
Proof. intros Hm. unfold rspAlarm_ok, rspAlarm_typed in *. typed_from_ok. Qed.

Lemma rspAlarm_law_emits m : rspAlarm_typed m →
  emits (rspAlarm_SerializeWithCachedSizes m) (rspAlarm_InternalSerializeWithCachedSizesToArray m).
Proof.
  intros Hm. unfold rspAlarm_typed in Hm.
  unfold rspAlarm_SerializeWithCachedSizes, rspAlarm_InternalSerializeWithCachedSizesToArray. emits_message.
Qed.

Lemma rspAlarm_law_size m : rspAlarm_typed m →
  rspAlarm_ByteSizeLong m = u32 (zlen (rspAlarm_InternalSerializeWithCachedSizesToArray m)).
Proof.
  intros Hm. unfold rspAlarm_typed in Hm.
  unfold rspAlarm_ByteSizeLong, rspAlarm_InternalSerializeWithCachedSizesToArray. size_message.
Qed.

#[export] Instance rspAlarm_laws : MessageLaws rspAlarm := {
  message_typed := rspAlarm_typed;
  message_ok := rspAlarm_ok;
  law_typed := rspAlarm_law_typed;
  law_clear := λ m, eq_refl;
  law_total := λ m s R, parse_returns _ _ _ m s rspAlarm_switch_total R;
  law_emits := rspAlarm_law_emits;
  law_size := rspAlarm_law_size;
  law_roundtrip := λ b m s Hm R Hb E, parse_complete _ _ _ b _ _ m s rspAlarm_switch_total (rspAlarm_parses b m Hm) R Hb E
}.
