(* ===== verification/RepeatedField.v ===== *)
(** The repeated fields of the protobuf runtime
    (Shared/protobuf/src/google/protobuf/repeated_field.{h,cc}): [RepeatedPtrField], the
    array of pointers that holds the phones of an [sUser] and the users of a
    [reqSignin].

    Elements are objects on a heap; the array keeps, behind its [current_size_] live
    elements, cleared ones it will hand out again.  Code that reads a slot nothing was
    written to, leaves the array, uses or deletes an object that is not there, or
    overflows an [int], is [Undefined], and so is a failed [GOOGLE_CHECK], which ends
    the process.  Fields are not on an arena (no message of the program is). *)

From S2P Require Import Prelude.

(** *** The heap *)

Section Heap.
Context {E : Type}.

Record Heap := mk_Heap { objects : gmap nat E; next_object : nat }.

Definition new_Heap : Heap := mk_Heap ∅ 0.

(** Code that works on the heap. *)
Definition M (A : Type) : Type := Heap → outcome (A * Heap).

#[global] Instance M_ret : MRet M := λ A a h, Ok (a, h).
#[global] Instance M_bind : MBind M := λ A B k m h, match m h with Ok (a, h) => k a h | Undefined => Undefined | NoFuel => NoFuel end.

Definition lift {A} (o : outcome A) : M A := λ h, match o with Ok a => Ok (a, h) | Undefined => Undefined | NoFuel => NoFuel end.

(** [new], [delete], and the use of an object through a pointer. *)
Definition alloc (x : E) : M nat := λ h,
  Ok (next_object h, mk_Heap (<[next_object h := x]> (objects h)) (S (next_object h))).
Definition delete_object (p : nat) : M unit := λ h,
  match objects h !! p with Some _ => Ok (tt, mk_Heap (delete p (objects h)) (next_object h)) | None => Undefined end.
Definition load (p : nat) : M E := λ h, match objects h !! p with Some x => Ok (x, h) | None => Undefined end.
Definition update (p : nat) (f : E → E) : M unit := λ h,
  match objects h !! p with
  | Some x => Ok (tt, mk_Heap (<[p := f x]> (objects h)) (next_object h))
  | None => Undefined
  end.
End Heap.
Arguments Heap : clear implicits.
Arguments M : clear implicits.

(** [GenericTypeHandler<Type>], [StringTypeHandler]: [Merge to from]. *)
Class TypeHandler (E : Type) := {
  handler_New : E;
  handler_Clear : E → E;
  handler_Merge : E → E → E
}.

Definition kMinRepeatedFieldAllocationSize : Z := 4.

(** [(numeric_limits<size_t>::max() - kRepHeaderSize) / sizeof(void * )]. *)
Definition max_elements : Z := (2 ^ 32 - 1 - 4) / 4.

Module RepeatedPtrField.
Section RepeatedPtrField.
Context {E : Type} `{TypeHandler E}.

(** [Rep]; a slot nothing was written to is [None]. *)
Record Rep := mk_Rep { allocated_size : Z; elements : list (option nat) }.

Record RepeatedPtrField := mk_RepeatedPtrField { current_size_ : Z; total_size_ : Z; rep_ : option Rep }.

Definition new_RepeatedPtrField : RepeatedPtrField := mk_RepeatedPtrField 0 0 None.

Definition set_current_size (v : Z) (f : RepeatedPtrField) : RepeatedPtrField := mk_RepeatedPtrField v (total_size_ f) (rep_ f).
Definition set_rep (r : Rep) (f : RepeatedPtrField) : RepeatedPtrField :=
  mk_RepeatedPtrField (current_size_ f) (total_size_ f) (Some r).
Definition set_allocated_size (v : Z) (r : Rep) : Rep := mk_Rep v (elements r).

(** [rep_->...], [rep_->elements[i]] and assignment to it. *)
Definition the_rep (f : RepeatedPtrField) : outcome Rep := match rep_ f with Some r => Ok r | None => Undefined end.

Definition element (r : Rep) (i : Z) : outcome nat :=
  if i <? 0 then Undefined
  else match elements r !! Z.to_nat i with Some (Some p) => Ok p | _ => Undefined end.

Definition put_element (i : Z) (p : nat) (r : Rep) : outcome Rep :=
  if (0 <=? i) && (i <? zlen (elements r)) then Ok (mk_Rep (allocated_size r) (<[Z.to_nat i := Some p]> (elements r)))
  else Undefined.

Definition element_at (f : RepeatedPtrField) (i : Z) : outcome nat := r ← the_rep f; element r i.

(** *** Room *)

Definition InternalExtend (extend_amount : Z) (f : RepeatedPtrField) : outcome RepeatedPtrField :=
  new_size ← add_int (current_size_ f) extend_amount;
  if new_size <=? total_size_ f then Ok f
  else
    doubled ← add_int (total_size_ f) (total_size_ f);
    let new_size := Z.max kMinRepeatedFieldAllocationSize (Z.max doubled new_size) in
    if max_elements <? new_size then Undefined
    else
      let old := match rep_ f with Some r => if 0 <? allocated_size r then take (Z.to_nat (allocated_size r)) (elements r) else [] | None => [] end in
      Ok (mk_RepeatedPtrField (current_size_ f) new_size
            (Some (mk_Rep (zlen old) (old ++ replicate (Z.to_nat new_size - length old) None)))).

Definition Reserve (new_size : Z) (f : RepeatedPtrField) : outcome RepeatedPtrField :=
  if current_size_ f <? new_size then InternalExtend (new_size - current_size_ f) f else Ok f.

(** [if (!rep_ || rep_->allocated_size == total_size_) Reserve(total_size_ + 1);] *)
Definition make_room (f : RepeatedPtrField) : outcome RepeatedPtrField :=
  match rep_ f with
  | Some r => if allocated_size r =? total_size_ f then n ← add_int (total_size_ f) 1; Reserve n f else Ok f
  | None => n ← add_int (total_size_ f) 1; Reserve n f
  end.

Definition Capacity (f : RepeatedPtrField) : Z := total_size_ f.
Definition size (f : RepeatedPtrField) : Z := current_size_ f.
Definition empty (f : RepeatedPtrField) : bool := current_size_ f =? 0.

Definition ClearedCount (f : RepeatedPtrField) : Z :=
  match rep_ f with Some r => allocated_size r - current_size_ f | None => 0 end.

(** *** Elements *)

Definition Get (i : Z) (f : RepeatedPtrField) : M E E := p ← lift (element_at f i); load p.
Definition Mutable (i : Z) (f : RepeatedPtrField) : outcome nat := element_at f i.

(** The reuse of a cleared element, if there is one. *)
Definition AddFromCleared (f : RepeatedPtrField) : outcome (option nat * RepeatedPtrField) :=
  if 0 <? ClearedCount f then p ← element_at f (current_size_ f); Ok (Some p, set_current_size (current_size_ f + 1) f)
  else Ok (None, f).

(** What the two [Add]s do with an element made for the field. *)
Definition add_new (p : nat) (f : RepeatedPtrField) : outcome RepeatedPtrField :=
  r ← the_rep f;
  r ← put_element (current_size_ f) p (set_allocated_size (allocated_size r + 1) r);
  Ok (set_current_size (current_size_ f + 1) (set_rep r f)).

Definition Add (f : RepeatedPtrField) : M E (nat * RepeatedPtrField) :=
  '(reused, f) ← lift (AddFromCleared f);
  match reused with
  | Some p => mret (p, f)
  | None => f ← lift (make_room f); p ← alloc handler_New; f ← lift (add_new p f); mret (p, f)
  end.

(** [Add(Element&& value)]. *)
Definition Add_move (value : E) (f : RepeatedPtrField) : M E RepeatedPtrField :=
  '(reused, f) ← lift (AddFromCleared f);
  match reused with
  | Some p => _ ← update p (λ _, value); mret f
  | None => f ← lift (make_room f); p ← alloc value; lift (add_new p f)
  end.

Definition RemoveLast (f : RepeatedPtrField) : M E RepeatedPtrField :=
  p ← lift (element_at f (current_size_ f - 1)); _ ← update p handler_Clear;
  mret (set_current_size (current_size_ f - 1) f).

(** The loop of [Clear]: [n] elements from [i] on. *)
Fixpoint clear_elements (n : nat) (i : Z) (f : RepeatedPtrField) : M E unit :=
  match n with
  | O => mret tt
  | S n => p ← lift (element_at f i); _ ← update p handler_Clear; clear_elements n (i + 1) f
  end.

Definition Clear (f : RepeatedPtrField) : M E RepeatedPtrField :=
  if 0 <? current_size_ f then _ ← clear_elements (Z.to_nat (current_size_ f)) 0 f; mret (set_current_size 0 f) else mret f.

Definition SwapElements (index1 index2 : Z) (f : RepeatedPtrField) : outcome RepeatedPtrField :=
  r ← the_rep f;
  p1 ← element r index1; p2 ← element r index2;
  r ← put_element index1 p2 r; r ← put_element index2 p1 r;
  Ok (set_rep r f).

(** *** Merging, copying, swapping *)

(** [MergeFromInnerLoop]: the elements [i], ... of [other] into those of [r] from [at]
    on; the first [already_allocated] of them are there, to be reused. *)
Fixpoint merge_existing (n : nat) (i at_ : Z) (other r : Rep) : M E unit :=
  match n with
  | O => mret tt
  | S n =>
      q ← lift (element other i); x ← load q; p ← lift (element r (at_ + i)); _ ← update p (λ y, handler_Merge y x);
      merge_existing n (i + 1) at_ other r
  end.

Fixpoint merge_new (n : nat) (i at_ : Z) (other r : Rep) : M E Rep :=
  match n with
  | O => mret r
  | S n =>
      q ← lift (element other i); p ← alloc handler_New; x ← load q; _ ← update p (λ y, handler_Merge y x);
      r ← lift (put_element (at_ + i) p r); merge_new n (i + 1) at_ other r
  end.

Definition MergeFromInnerLoop (at_ : Z) (other r : Rep) (length already_allocated : Z) : M E Rep :=
  _ ← merge_existing (Z.to_nat (Z.min already_allocated length)) 0 at_ other r;
  merge_new (Z.to_nat (length - already_allocated)) already_allocated at_ other r.

(** [MergeFromInternal], from another field. *)
Definition MergeFrom (other f : RepeatedPtrField) : M E RepeatedPtrField :=
  if current_size_ other =? 0 then mret f
  else
    let other_size := current_size_ other in
    other_rep ← lift (the_rep other);
    f ← lift (InternalExtend other_size f);
    r ← lift (the_rep f);
    r ← MergeFromInnerLoop (current_size_ f) other_rep r other_size (allocated_size r - current_size_ f);
    n ← lift (add_int (current_size_ f) other_size);
    mret (set_current_size n (set_rep (if allocated_size r <? n then set_allocated_size n r else r) f)).

Definition CopyFrom (other f : RepeatedPtrField) : M E RepeatedPtrField := f ← Clear f; MergeFrom other f.

(** The copy constructor, the move constructor and move assignment. *)
Definition copy_RepeatedPtrField (other : RepeatedPtrField) : M E RepeatedPtrField := MergeFrom other new_RepeatedPtrField.
Definition InternalSwap (f other : RepeatedPtrField) : RepeatedPtrField * RepeatedPtrField := (other, f).
Definition move_RepeatedPtrField (other : RepeatedPtrField) : RepeatedPtrField * RepeatedPtrField :=
  InternalSwap new_RepeatedPtrField other.

(** *** Elements of the user's *)

Definition UnsafeArenaAddAllocated (value : nat) (f : RepeatedPtrField) : M E RepeatedPtrField :=
  f ← (if bool_decide (rep_ f = None) || (current_size_ f =? total_size_ f) then
         n ← lift (add_int (total_size_ f) 1); f ← lift (Reserve n f);
         r ← lift (the_rep f); mret (set_rep (set_allocated_size (allocated_size r + 1) r) f)
       else
         r ← lift (the_rep f);
         if allocated_size r =? total_size_ f then
           p ← lift (element r (current_size_ f)); _ ← delete_object p; mret f
         else if current_size_ f <? allocated_size r then
           p ← lift (element r (current_size_ f));
           r ← lift (put_element (allocated_size r) p r);
           mret (set_rep (set_allocated_size (allocated_size r + 1) r) f)
         else mret (set_rep (set_allocated_size (allocated_size r + 1) r) f));
  r ← lift (the_rep f);
  r ← lift (put_element (current_size_ f) value r);
  mret (set_current_size (current_size_ f + 1) (set_rep r f)).

(** [AddAllocatedInternal] off the arenas: the fast path, and the slow one, where
    neither copying nor owning is needed. *)
Definition AddAllocated (value : nat) (f : RepeatedPtrField) : M E RepeatedPtrField :=
  match rep_ f with
  | Some r =>
      if allocated_size r <? total_size_ f then
        r ← (if current_size_ f <? allocated_size r then
               p ← lift (element r (current_size_ f)); lift (put_element (allocated_size r) p r)
             else mret r);
        r ← lift (put_element (current_size_ f) value r);
        mret (set_current_size (current_size_ f + 1) (set_rep (set_allocated_size (allocated_size r + 1) r) f))
      else UnsafeArenaAddAllocated value f
  | None => UnsafeArenaAddAllocated value f
  end.

(** [ReleaseLast] and [UnsafeArenaReleaseLast]. *)
Definition ReleaseLast (f : RepeatedPtrField) : outcome (nat * RepeatedPtrField) :=
  r ← the_rep f;
  let current := current_size_ f - 1 in
  result ← element r current;
  let r := set_allocated_size (allocated_size r - 1) r in
  r ← (if current <? allocated_size r then p ← element r (allocated_size r); put_element current p r else Ok r);
  Ok (result, set_current_size current (set_rep r f)).

Definition AddCleared (value : nat) (f : RepeatedPtrField) : outcome RepeatedPtrField :=
  f ← make_room f;
  r ← the_rep f;
  r ← put_element (allocated_size r) value r;
  Ok (set_rep (set_allocated_size (allocated_size r + 1) r) f).

Definition ReleaseCleared (f : RepeatedPtrField) : outcome (nat * RepeatedPtrField) :=
  r ← the_rep f;
  let allocated := allocated_size r - 1 in
  p ← element r allocated;
  Ok (p, set_rep (set_allocated_size allocated r) f).

(** *** Ranges *)

(** The loop of [CloseGap]: [n] elements from [i] on move [num] down. *)
Fixpoint shift_down (n : nat) (i num : Z) (r : Rep) : outcome Rep :=
  match n with
  | O => Ok r
  | S n => p ← element r i; r ← put_element (i - num) p r; shift_down n (i + 1) num r
  end.

Definition CloseGap (start num : Z) (f : RepeatedPtrField) : outcome RepeatedPtrField :=
  match rep_ f with
  | None => Ok f
  | Some r =>
      r ← shift_down (Z.to_nat (allocated_size r - (start + num))) (start + num) num r;
      Ok (mk_RepeatedPtrField (current_size_ f - num) (total_size_ f) (Some (set_allocated_size (allocated_size r - num) r)))
  end.

(** The pointers [Mutable(i)], ... that are handed out. *)
Fixpoint elements_from (n : nat) (i : Z) (f : RepeatedPtrField) : outcome (list nat) :=
  match n with
  | O => Ok []
  | S n => p ← Mutable i f; ps ← elements_from n (i + 1) f; Ok (p :: ps)
  end.

(** [wanted]: whether the caller passes an array for the elements. *)
Definition ExtractSubrange (start num : Z) (wanted : bool) (f : RepeatedPtrField) : outcome (list nat * RepeatedPtrField) :=
  if 0 <? num then
    ps ← (if wanted then elements_from (Z.to_nat num) start f else Ok []);
    f ← CloseGap start num f; Ok (ps, f)
  else Ok ([], f).

(** [Delete] of [n] elements from [i] on. *)
Fixpoint delete_elements (n : nat) (i : Z) (f : RepeatedPtrField) : M E unit :=
  match n with
  | O => mret tt
  | S n => p ← lift (element_at f i); _ ← delete_object p; delete_elements n (i + 1) f
  end.

Definition DeleteSubrange (start num : Z) (f : RepeatedPtrField) : M E RepeatedPtrField :=
  _ ← delete_elements (Z.to_nat num) start f;
  '(_, f) ← lift (ExtractSubrange start num false f); mret f.

(** [erase(first, last)], for positions. *)
Definition erase (first last : Z) (f : RepeatedPtrField) : M E RepeatedPtrField := DeleteSubrange first (last - first) f.

(** The destructor. *)
Definition Destroy (f : RepeatedPtrField) : M E unit :=
  match rep_ f with Some r => delete_elements (Z.to_nat (allocated_size r)) 0 f | None => mret tt end.
End RepeatedPtrField.
End RepeatedPtrField.
