(* ===== verification/RepeatedFieldFacts.v ===== *)
(** Repeated fields are lists (RepeatedField.v): every operation does on the objects of
    a field what the list operation does on their values, no operation reaches outside
    of the array or uses an object that is not there, and each object is deleted once.

    The proofs are in a small separation logic: [runs m l post] says that the code [m],
    given the objects [l] and whatever else is on the heap, returns, leaves the rest
    alone and turns [l] into objects that satisfy [post]. *)

From S2P Require Import Prelude RepeatedField.

Section Logic.
Context {E : Type}.
Implicit Types (h : Heap E) (l fr : list (nat * E)).

(** ** Objects *)

Record heap_is h l : Prop := {
  hp_nodup : NoDup l.*1;
  hp_objects : objects h = list_to_map l;
  hp_old p : p ∈ l.*1 → (p < next_object h)%nat
}.

#[global] Instance heap_is_perm h : Proper ((≡ₚ) ==> iff) (heap_is h).
Proof.
  assert (Hw : ∀ l l', l ≡ₚ l' → heap_is h l → heap_is h l').
  { intros l l' E' [Hn Ho Hp]. split.
    - by rewrite <- E'.
    - rewrite Ho. by apply list_to_map_proper.
    - intros p. rewrite <- E'. apply Hp. }
  intros l l' E'. split; [by apply Hw|by apply Hw; symmetry].
Qed.

Lemma heap_new : heap_is new_Heap [].
Proof. split; [constructor|done|]. intros p Hp. by apply not_elem_of_nil in Hp. Qed.

Lemma heap_lookup h l p x : heap_is h ((p, x) :: l) → objects h !! p = Some x.
Proof. intros Hh. rewrite (hp_objects _ _ Hh). cbn. apply lookup_insert_eq. Qed.

(** ** Code that keeps to its objects *)

Definition runs {A} (m : M E A) l (post : A → list (nat * E) → Prop) : Prop :=
  ∀ h fr, heap_is h (l ++ fr) → ∃ a h' l', m h = Ok (a, h') ∧ heap_is h' (l' ++ fr) ∧ post a l'.

Lemma runs_ret {A} (a : A) l (post : A → list (nat * E) → Prop) : post a l → runs (mret a) l post.
Proof. intros Hp h fr Hh. by exists a, h, l. Qed.

Lemma runs_bind {A B} (m : M E A) (k : A → M E B) l (mid : A → list (nat * E) → Prop) post :
  runs m l mid → (∀ a l', mid a l' → runs (k a) l' post) → runs (m ≫= k) l post.
Proof.
  intros Hm Hk h fr Hh. destruct (Hm h fr Hh) as (a & h1 & l1 & E1 & Hh1 & Ha).
  destruct (Hk a l1 Ha h1 fr Hh1) as (b & h2 & l2 & E2 & Hh2 & Hb). exists b, h2, l2.
  unfold mbind, M_bind. by rewrite E1.
Qed.

Lemma runs_lift {A B} (o : outcome A) (a : A) (k : A → M E B) l post : o = Ok a → runs (k a) l post → runs (lift o ≫= k) l post.
Proof. intros -> Hk h fr Hh. apply (Hk h fr Hh). Qed.

Lemma runs_perm {A} (m : M E A) l l' post : l ≡ₚ l' → runs m l' post → runs m l post.
Proof. intros El Hm h fr Hh. apply Hm. by rewrite <- El. Qed.

Lemma runs_post {A} (m : M E A) l (post post' : A → list (nat * E) → Prop) :
  (∀ a l', post a l' → post' a l') → runs m l post → runs m l post'.
Proof. intros Hp Hm h fr Hh. destruct (Hm h fr Hh) as (a & h' & l' & ? & ? & ?). exists a, h', l'. auto. Qed.

Lemma runs_frame {A} (m : M E A) l fr (post : A → list (nat * E) → Prop) :
  runs m l post → runs m (l ++ fr) (λ a l', ∃ l0, l' = l0 ++ fr ∧ post a l0).
Proof.
  intros Hm h fr' Hh. rewrite <- app_assoc in Hh. destruct (Hm h _ Hh) as (a & h' & l' & E' & Hh' & Hp).
  exists a, h', (l' ++ fr). rewrite <- app_assoc. split_and!; [done|done|]. by exists l'.
Qed.

Lemma runs_alloc {A} x (k : nat → M E A) l post : (∀ p, runs (k p) ((p, x) :: l) post) → runs (alloc x ≫= k) l post.
Proof.
  intros Hk h fr [Hn Ho Hp]. set (p := next_object h). apply (Hk p (mk_Heap (<[p := x]> (objects h)) (S p)) fr).
  split; cbn [app fmap list_fmap fst objects next_object].
  - constructor; [|done]. intros Hin. specialize (Hp _ Hin). subst p. lia.
  - by rewrite Ho.
  - intros q [->|Hq]%elem_of_cons; [lia|]. specialize (Hp _ Hq). subst p. lia.
Qed.

Lemma runs_update {A} p f x (k : unit → M E A) l post : runs (k tt) ((p, f x) :: l) post → runs (update p f ≫= k) ((p, x) :: l) post.
Proof.
  intros Hk h fr Hh. cbn [app] in Hh. unfold mbind, M_bind, update. rewrite (heap_lookup _ _ _ _ Hh).
  apply (Hk (mk_Heap (<[p := f x]> (objects h)) (next_object h)) fr). destruct Hh as [Hn Ho Hp].
  split; [done| |done]. cbn. rewrite Ho. cbn. by rewrite insert_insert_eq.
Qed.

Lemma runs_load {A} p x (k : E → M E A) l post : runs (k x) ((p, x) :: l) post → runs (load p ≫= k) ((p, x) :: l) post.
Proof.
  intros Hk h fr Hh. cbn [app] in Hh. unfold mbind, M_bind, load. rewrite (heap_lookup _ _ _ _ Hh). by apply Hk.
Qed.

Lemma runs_delete {A} p x (k : unit → M E A) l post : runs (k tt) l post → runs (delete_object p ≫= k) ((p, x) :: l) post.
Proof.
  intros Hk h fr Hh. cbn [app] in Hh. unfold mbind, M_bind, delete_object. rewrite (heap_lookup _ _ _ _ Hh).
  apply (Hk (mk_Heap (delete p (objects h)) (next_object h)) fr). destruct Hh as [Hn Ho Hp].
  cbn [fmap list_fmap fst] in Hn, Hp. apply NoDup_cons in Hn as [Hpn Hn]. split; [done| |intros q Hq; apply Hp; by right].
  cbn. rewrite Ho. cbn. rewrite delete_insert_id; [done|]. by apply not_elem_of_list_to_map_1.
Qed.

(** Any object of those at hand may be the one used. *)
Lemma pick_perm l a p x b : l = a ++ (p, x) :: b → l ≡ₚ (p, x) :: a ++ b.
Proof. intros ->. symmetry. apply Permutation_middle. Qed.
End Logic.

(** ** The array *)

Section Field.
Import RepeatedField.RepeatedPtrField.
Context {E : Type} `{!TypeHandler E}.
Implicit Types (f : RepeatedPtrField) (r : Rep) (p : nat) (ps cs qs : list nat).

Lemma ptr_element_here r a p b g i : elements r = map Some (a ++ p :: b) ++ g → i = zlen a → element r i = Ok p.
Proof.
  intros Er ->. unfold element. pose proof (zlen_nonneg a). zdec. rewrite Er. unfold zlen. rewrite Nat2Z.id.
  rewrite lookup_app_l by (rewrite length_map, length_app; cbn; lia).
  by rewrite list_lookup_fmap, list_lookup_middle.
Qed.

Lemma ptr_put_here r xs y ys i p : elements r = xs ++ y :: ys → i = zlen xs →
  put_element i p r = Ok (mk_Rep (allocated_size r) (xs ++ Some p :: ys)).
Proof.
  intros Er ->. unfold put_element. rewrite Er. pose proof (zlen_nonneg xs). pose proof (zlen_nonneg ys).
  rewrite zlen_app, zlen_cons. zdec. cbn [andb]. unfold zlen. by rewrite Nat2Z.id, insert_app_r_alt, Nat.sub_diag by lia.
Qed.

(** The most elements the theorems speak of: far below what overflows. *)
Definition most : Z := 2 ^ 28.

(** The array holds the live elements [ps], then the cleared ones [cs], then slots
    that are not in use. *)
Definition slots r ps cs : Prop := allocated_size r = zlen (ps ++ cs) ∧ ∃ g, elements r = map Some (ps ++ cs) ++ g.

Record shape f ps cs : Prop := {
  sh_current : current_size_ f = zlen ps;
  sh_total : 0 <= total_size_ f <= 2 * most;
  sh_rep : match rep_ f with
           | None => ps = [] ∧ cs = [] ∧ total_size_ f = 0
           | Some r => slots r ps cs ∧ zlen (elements r) = total_size_ f
           end
}.

Lemma ptr_shape_new : shape new_RepeatedPtrField [] [].
Proof. by split. Qed.

Lemma shape_rep f ps cs r : shape f ps cs → rep_ f = Some r →
  slots r ps cs ∧ zlen (elements r) = total_size_ f ∧ zlen (ps ++ cs) <= total_size_ f.
Proof.
  intros Hs Er. pose proof (sh_rep _ _ _ Hs) as Hr. rewrite Er in Hr. destruct Hr as [[Ha (g & Eg)] Hl].
  split_and!; [by split; [|exists g]|done|]. rewrite <- Hl, Eg, (zlen_app (map _ _)), zlen_map.
  pose proof (zlen_nonneg g). lia.
Qed.

Lemma shape_cons_rep f ps cs : shape f ps cs → ps ++ cs ≠ [] → ∃ r, rep_ f = Some r.
Proof.
  intros Hs Hne. pose proof (sh_rep _ _ _ Hs) as Hr. destruct (rep_ f) as [r|]; [by exists r|]. by destruct Hr as (-> & -> & _).
Qed.

Lemma element_at_here f ps cs a p b i : shape f ps cs → ps ++ cs = a ++ p :: b → i = zlen a → element_at f i = Ok p.
Proof.
  intros Hs El Ei. destruct (shape_cons_rep f ps cs Hs) as (r & Er); [by rewrite El; destruct a|].
  destruct (shape_rep _ _ _ _ Hs Er) as ((_ & g & Eg) & _). unfold element_at, the_rep. rewrite Er. cbn.
  eapply ptr_element_here; [by rewrite Eg, El|done].
Qed.

(** *** Growing *)

Lemma InternalExtend_spec n f ps cs : shape f ps cs → 0 < n → zlen ps + n <= most →
  ∃ f' r, InternalExtend n f = Ok f' ∧ shape f' ps cs ∧ rep_ f' = Some r ∧ zlen ps + n <= total_size_ f' ∧ total_size_ f <= total_size_ f'.
Proof.
  intros Hs Hn Hb. pose proof (zlen_nonneg ps). pose proof (sh_total _ _ _ Hs) as Ht. unfold InternalExtend, add_int.
  rewrite (sh_current _ _ _ Hs). unfold most, INT_MAX in *. zdec. cbn [andb mbind outcome_bind].
  destruct (Z.leb_spec (zlen ps + n) (total_size_ f)) as [Hle|Hgt].
  { pose proof (sh_rep _ _ _ Hs) as Hr. destruct (rep_ f) as [r|] eqn:Er; [by exists f, r|]. destruct Hr as (_ & _ & Et). lia. }
  zdec. cbn [andb mbind outcome_bind]. unfold kMinRepeatedFieldAllocationSize.
  change max_elements with 1073741822. set (size' := Z.max 4 (Z.max (total_size_ f + total_size_ f) (zlen ps + n))).
  assert (Hsz : zlen ps + n <= size' <= 2 * 2 ^ 28 ∧ total_size_ f <= size') by lia. zdec.
  set (old := match rep_ f with Some r => _ | None => [] end).
  assert (Eo : old = map Some (ps ++ cs) ∧ zlen (ps ++ cs) <= total_size_ f).
  { subst old. destruct (rep_ f) as [r|] eqn:Er.
    - destruct (shape_rep _ _ _ _ Hs Er) as ((Ea & g & Eg) & _ & Hle). split; [|done]. rewrite Ea.
      destruct (Z.ltb_spec 0 (zlen (ps ++ cs))) as [Hp|Hp]; [|by rewrite (zlen_zero _ Hp)].
      rewrite Eg. apply take_zlen_app. by rewrite zlen_map.
    - pose proof (sh_rep _ _ _ Hs) as Hr. rewrite Er in Hr. by destruct Hr as (-> & -> & ->). }
  destruct Eo as [-> Hle]. eexists _, _. split; [done|]. cbn [rep_ total_size_ current_size_]. split_and!; [|done|lia|lia].
  split; cbn [rep_ total_size_ current_size_]; [done|unfold most; lia|]. split.
  - split; [cbn; by rewrite zlen_map|]. by eexists.
  - cbn [elements]. rewrite zlen_app. unfold zlen in *. rewrite length_replicate, length_map in *. lia.
Qed.

Lemma ptr_Reserve_spec n f ps cs : shape f ps cs → n <= most → ∃ f', Reserve n f = Ok f' ∧ shape f' ps cs ∧
  Z.max n (total_size_ f) <= Z.max (zlen ps) (total_size_ f') ∧ (zlen ps < n → ∃ r, rep_ f' = Some r).
Proof.
  intros Hs Hn. unfold Reserve. rewrite (sh_current _ _ _ Hs). destruct (Z.ltb_spec (zlen ps) n) as [Hlt|Hge].
  - destruct (InternalExtend_spec (n - zlen ps) f ps cs Hs) as (f' & r & -> & Hs' & Hr & Ht & Ht'); [lia|lia|].
    exists f'. split_and!; [done|done|lia|]. by exists r.
  - exists f. split_and!; [done|done|lia|]. intros Hlt. exfalso. clear -Hlt Hge. apply (Z.lt_irrefl (zlen ps)). lia.
Qed.

Lemma ptr_make_room_spec f ps cs : shape f ps cs → zlen (ps ++ cs) < most →
  ∃ f' r, make_room f = Ok f' ∧ shape f' ps cs ∧ rep_ f' = Some r ∧ zlen (ps ++ cs) < total_size_ f'.
Proof.
  intros Hs Hb. pose proof (sh_total _ _ _ Hs) as Ht. unfold make_room.
  assert (Hgrow : total_size_ f = zlen (ps ++ cs) → ∃ f' r, (n ← add_int (total_size_ f) 1; Reserve n f) = Ok f' ∧
    shape f' ps cs ∧ rep_ f' = Some r ∧ zlen (ps ++ cs) < total_size_ f').
  { intros Et. unfold add_int. unfold most, INT_MAX in *. zdec. cbn [andb mbind outcome_bind].
    destruct (ptr_Reserve_spec (total_size_ f + 1) f ps cs Hs) as (f' & -> & Hs' & Ht' & Hr); [unfold most; lia|].
    rewrite zlen_app in *. pose proof (zlen_nonneg cs). destruct Hr as (r & Hr); [lia|]. exists f', r. split_and!; [done|done|done|lia]. }
  destruct (rep_ f) as [r|] eqn:Er.
  - destruct (shape_rep _ _ _ _ Hs Er) as ((Ea & _) & _ & Hle). destruct (Z.eqb_spec (allocated_size r) (total_size_ f)) as [E'|E'].
    + apply Hgrow. congruence.
    + exists f, r. split_and!; [done..|]. lia.
  - apply Hgrow. pose proof (sh_rep _ _ _ Hs) as Hr. rewrite Er in Hr. by destruct Hr as (-> & -> & ->).
Qed.

(** *** Writing *)

Lemma write_slot r qs g p : elements r = map Some qs ++ g → zlen qs < zlen (elements r) →
  ∃ r', put_element (zlen qs) p r = Ok r' ∧ allocated_size r' = allocated_size r ∧ zlen (elements r') = zlen (elements r) ∧
    ∃ g', elements r' = map Some (qs ++ [p]) ++ g'.
Proof.
  intros Eg Hl. rewrite Eg, zlen_app, zlen_map in Hl. destruct g as [|y g]; [rewrite zlen_nil in Hl; lia|].
  rewrite (ptr_put_here r (map Some qs) y g) by (done || by rewrite zlen_map). eexists. split; [done|]. cbn [allocated_size elements].
  rewrite Eg, !zlen_app, !zlen_cons. split_and!; [done|done|]. exists g. by rewrite map_app, <- app_assoc.
Qed.

Lemma write_over r a q b g p : elements r = map Some (a ++ q :: b) ++ g →
  ∃ r', put_element (zlen a) p r = Ok r' ∧ allocated_size r' = allocated_size r ∧ zlen (elements r') = zlen (elements r) ∧
    elements r' = map Some (a ++ p :: b) ++ g.
Proof.
  intros Eg. assert (Eg' : elements r = map Some a ++ Some q :: (map Some b ++ g)) by (by rewrite Eg, map_app, <- app_assoc).
  rewrite (ptr_put_here r (map Some a) (Some q) (map Some b ++ g)) by (done || by rewrite zlen_map).
  eexists. split; [done|]. cbn [allocated_size elements].
  split_and!; [done| |by rewrite map_app, <- app_assoc]. rewrite Eg', !zlen_app, !zlen_cons. done.
Qed.

Lemma put_allocated i p r r' v : put_element i p r = Ok r' → put_element i p (set_allocated_size v r) = Ok (set_allocated_size v r').
Proof. unfold put_element. cbn. destruct (_ && _); [|done]. by intros [= <-]. Qed.

(** A field whose array is known. *)
Lemma shape_intro n t r ps cs : n = zlen ps → slots r ps cs → zlen (elements r) = t → t <= 2 * most →
  shape (mk_RepeatedPtrField n t (Some r)) ps cs.
Proof. intros -> Hr El Ht. pose proof (zlen_nonneg (elements r)). split; cbn; [done|lia|done]. Qed.

Lemma field_eta f r : rep_ f = Some r → f = mk_RepeatedPtrField (current_size_ f) (total_size_ f) (Some r).
Proof. by destruct f; cbn; intros ->. Qed.

(** ** Adding and removing *)

(** The objects of a field: the live ones with their values, and cleared ones. *)
Definition cleared cs : list (nat * E) := map (λ c, (c, handler_New)) cs.
Definition own (ls : list (nat * E)) cs : list (nat * E) := ls ++ cleared cs.

Lemma AddFromCleared_some f ps c cs : shape f ps (c :: cs) → zlen ps < most →
  ∃ f', AddFromCleared f = Ok (Some c, f') ∧ shape f' (ps ++ [c]) cs.
Proof.
  intros Hs Hb. destruct (shape_cons_rep _ _ _ Hs) as (r & Er); [by destruct ps|].
  destruct (shape_rep _ _ _ _ Hs Er) as ((Ea & g & Eg) & El & _). unfold AddFromCleared, ClearedCount. rewrite Er, Ea, (sh_current _ _ _ Hs).
  rewrite zlen_app, zlen_cons. pose proof (zlen_nonneg cs). zdec.
  rewrite (element_at_here f ps (c :: cs) ps c cs _ Hs eq_refl eq_refl). cbn [mbind outcome_bind]. eexists. split; [done|].
  rewrite (field_eta f r Er). apply shape_intro; [|split|done|apply (sh_total _ _ _ Hs)].
  - cbn. by rewrite zlen_app, zlen_cons, zlen_nil.
  - by rewrite <- app_assoc.
  - exists g. by rewrite <- app_assoc.
Qed.

Lemma AddFromCleared_none f ps : shape f ps [] → AddFromCleared f = Ok (None, f).
Proof.
  intros Hs. unfold AddFromCleared, ClearedCount. rewrite (sh_current _ _ _ Hs). destruct (rep_ f) as [r|] eqn:Er; [|done].
  destruct (shape_rep _ _ _ _ Hs Er) as ((Ea & _) & _). rewrite Ea, app_nil_r, Z.sub_diag. done.
Qed.

Lemma add_new_spec p f r ps : shape f ps [] → rep_ f = Some r → zlen ps < total_size_ f → ∃ f', add_new p f = Ok f' ∧ shape f' (ps ++ [p]) [].
Proof.
  intros Hs Er Ht. destruct (shape_rep _ _ _ _ Hs Er) as ((Ea & g & Eg) & El & _). rewrite app_nil_r in *.
  destruct (write_slot (set_allocated_size (allocated_size r + 1) r) ps g p) as (r' & Ep & Ea' & El' & g' & Eg'); [done|cbn; lia|].
  unfold add_new, the_rep. rewrite Er, (sh_current _ _ _ Hs). cbn [mbind outcome_bind]. rewrite Ep. cbn [mbind outcome_bind]. eexists. split; [done|].
  apply shape_intro; [cbn; by rewrite zlen_app, zlen_cons, zlen_nil| |cbn in *; lia|apply (sh_total _ _ _ Hs)].
  split; [|exists g'; by rewrite app_nil_r]. rewrite Ea', app_nil_r, zlen_app, zlen_cons, zlen_nil. cbn. lia.
Qed.

(** [Add]: an element with the value of a new one, whether made or reused. *)
Lemma ptr_Add_spec f ls cs : shape f ls.*1 cs → zlen ls < most →
  runs (Add f) (own ls cs) (λ '(p, f') l', ∃ cs', l' ≡ₚ own (ls ++ [(p, handler_New)]) cs' ∧ shape f' (ls ++ [(p, handler_New)]).*1 cs').
Proof.
  intros Hs Hb. assert (Hb' : zlen ls.*1 < most) by (unfold zlen in *; by rewrite length_fmap). unfold Add. destruct cs as [|c cs].
  - eapply runs_lift; [by apply (AddFromCleared_none f ls.*1)|].
    destruct (ptr_make_room_spec f ls.*1 []) as (f1 & r & E1 & Hs1 & Er & Ht); [done|by rewrite app_nil_r|]. rewrite app_nil_r in Ht.
    eapply runs_lift; [exact E1|]. apply runs_alloc. intros p. destruct (add_new_spec p f1 r _ Hs1 Er Ht) as (f2 & E2 & Hs2).
    eapply runs_lift; [exact E2|]. apply runs_ret. exists []. split; [|by rewrite fmap_app]. unfold own. cbn. rewrite !app_nil_r. apply Permutation_cons_append.
  - destruct (AddFromCleared_some f _ c cs Hs Hb') as (f1 & E1 & Hs1). eapply runs_lift; [exact E1|]. apply runs_ret.
    exists cs. split; [|by rewrite fmap_app]. unfold own. cbn. by rewrite <- app_assoc.
Qed.

(** [Add] of a value that is moved in. *)
Lemma Add_move_spec x f ls cs : shape f ls.*1 cs → zlen ls < most →
  runs (Add_move x f) (own ls cs) (λ f' l', ∃ p cs', l' ≡ₚ own (ls ++ [(p, x)]) cs' ∧ shape f' (ls ++ [(p, x)]).*1 cs').
Proof.
  intros Hs Hb. assert (Hb' : zlen ls.*1 < most) by (by rewrite zlen_fmap). unfold Add_move. destruct cs as [|c cs].
  - eapply runs_lift; [by apply (AddFromCleared_none f ls.*1)|].
    destruct (ptr_make_room_spec f ls.*1 []) as (f1 & r & E1 & Hs1 & Er & Ht); [done|by rewrite app_nil_r|]. rewrite app_nil_r in Ht.
    eapply runs_lift; [exact E1|]. apply runs_alloc. intros p. destruct (add_new_spec p f1 r _ Hs1 Er Ht) as (f2 & E2 & Hs2).
    intros h fr Hh. exists f2, h, ((p, x) :: own ls []). unfold lift. rewrite E2. split_and!; [done|done|].
    exists p, []. split; [|by rewrite fmap_app]. unfold own. cbn. rewrite !app_nil_r. apply Permutation_cons_append.
  - destruct (AddFromCleared_some f _ c cs Hs Hb') as (f1 & E1 & Hs1). eapply runs_lift; [exact E1|].
    eapply (runs_perm _ _ ((c, handler_New) :: ls ++ cleared cs)); [unfold own; cbn [cleared map]; solve_Permutation|].
    apply runs_update, runs_ret. exists c, cs. split; [|by rewrite fmap_app]. unfold own. solve_Permutation.
Qed.

(** Where live elements end and cleared ones begin is [current_size_]. *)
Lemma shape_move f a b cs n : shape f (a ++ b) cs → n = zlen a → shape (set_current_size n f) a (b ++ cs).
Proof.
  intros Hs ->. pose proof (sh_total _ _ _ Hs) as Ht. pose proof (sh_rep _ _ _ Hs) as Hr. split; [done|done|].
  cbn. destruct (rep_ f) as [r|]; [unfold slots in *; by rewrite (app_assoc a b cs)|]. destruct Hr as (E1 & -> & ->). by apply app_eq_nil in E1 as [-> ->].
Qed.

(** *** Clearing *)

Context (clears : ∀ x : E, handler_Clear x = handler_New).

Lemma clear_elements_spec f qs : ∀ b a, shape f (a ++ b.*1) qs →
  runs (clear_elements (length b) (zlen a) f) b (λ _ l', l' ≡ₚ cleared b.*1).
Proof.
  intros b. induction b as [|[p x] b IH]; intros a Hs; [by apply runs_ret|]. cbn [length clear_elements].
  eapply runs_lift; [eapply (element_at_here f _ _ a p (b.*1 ++ qs)); [exact Hs|by rewrite <- app_assoc|done]|].
  apply runs_update. rewrite clears. specialize (IH (a ++ [p])). rewrite zlen_app, zlen_cons, zlen_nil, <- app_assoc in IH.
  eapply runs_perm; [apply Permutation_cons_append|]. eapply runs_post; [|apply runs_frame, (IH Hs)].
  cbn. intros _ l' (l0 & -> & E0). rewrite E0. symmetry. apply Permutation_cons_append.
Qed.

Lemma RemoveLast_spec f ls p x cs : shape f (ls ++ [(p, x)]).*1 cs →
  runs (RemoveLast f) (own (ls ++ [(p, x)]) cs) (λ f' l', l' ≡ₚ own ls (p :: cs) ∧ shape f' ls.*1 (p :: cs)).
Proof.
  rewrite fmap_app. cbn [fmap list_fmap fst]. intros Hs. unfold RemoveLast. rewrite (sh_current _ _ _ Hs), zlen_app, zlen_cons, zlen_nil.
  eapply runs_lift; [eapply (element_at_here f _ _ ls.*1 p cs); [exact Hs|by rewrite <- app_assoc|lia]|].
  eapply runs_perm; [unfold own; rewrite <- app_assoc; symmetry; apply Permutation_middle|].
  apply runs_update. rewrite clears. apply runs_ret. split.
  - unfold own. cbn. apply Permutation_middle.
  - apply (shape_move f ls.*1 [p] cs); [done|lia].
Qed.

Lemma ptr_Clear_spec f ls cs : shape f ls.*1 cs →
  runs (Clear f) (own ls cs) (λ f' l', l' ≡ₚ own [] (ls.*1 ++ cs) ∧ shape f' [] (ls.*1 ++ cs)).
Proof.
  intros Hs. unfold Clear. rewrite (sh_current _ _ _ Hs). destruct (Z.ltb_spec 0 (zlen ls.*1)) as [Hp|Hp].
  - pose proof (clear_elements_spec f cs ls [] Hs) as Hc.
    replace (Z.to_nat (zlen ls.*1)) with (length ls) by (unfold zlen; rewrite length_fmap; lia).
    eapply runs_bind; [apply runs_frame, Hc|]. cbn. intros _ l' (l0 & -> & E0). apply runs_ret. split.
    + rewrite E0. unfold own, cleared. by rewrite map_app.
    + by apply (shape_move f [] ls.*1 cs).
  - apply zlen_zero in Hp. destruct ls; [|done]. by apply runs_ret.
Qed.

(** *** Merging *)

Lemma merge_existing_spec other r at_ : ∀ (b : list ((nat * E) * nat)) qa qc g pa pc g',
  elements other = map Some (qa ++ map (λ x, x.1.1) b ++ qc) ++ g → elements r = map Some (pa ++ map snd b ++ pc) ++ g' →
  at_ + zlen qa = zlen pa →
  runs (merge_existing (length b) (zlen qa) at_ other r) (map fst b ++ map (λ x, (x.2, handler_New)) b)
    (λ _ l', l' ≡ₚ map fst b ++ map (λ x, (x.2, handler_Merge handler_New x.1.2)) b).
Proof.
  intros b. induction b as [|[[q y] p] b IH]; intros qa qc g pa pc g' Eo Er Ei; [by apply runs_ret|].
  cbn [length merge_existing map fst snd] in *.
  eapply runs_lift; [by eapply (ptr_element_here other qa q (map (λ x, x.1.1) b ++ qc) g)|]. cbn [app].
  apply runs_load. eapply runs_lift; [by eapply (ptr_element_here r pa p (map snd b ++ pc) g')|].
  eapply runs_perm; [apply (pick_perm _ ((q, y) :: map fst b) p handler_New (map (λ x, (x.2, handler_New)) b)); done|].
  apply runs_update. rewrite <- app_comm_cons.
  eapply runs_perm; [symmetry; apply (Permutation_app_comm (map fst b ++ map (λ x, (x.2, handler_New)) b) [(p, _); (q, y)])|].
  replace (zlen qa + 1) with (zlen (qa ++ [q])) by (rewrite zlen_app; done).
  eapply runs_post; [|apply runs_frame, (IH (qa ++ [q]) qc g (pa ++ [p]) pc g')].
  - intros _ l' (l0 & -> & ->). rewrite (Permutation_app_comm _ [_; _]). cbn [app]. rewrite perm_swap. f_equiv. apply Permutation_middle.
  - by rewrite <- app_assoc.
  - by rewrite <- app_assoc.
  - rewrite !zlen_app, !zlen_cons, !zlen_nil. lia.
Qed.

Lemma merge_new_spec other at_ : ∀ (b : list (nat * E)) qa g pa r g',
  elements other = map Some (qa ++ b.*1) ++ g → elements r = map Some pa ++ g' → at_ + zlen qa = zlen pa →
  zlen pa + zlen b <= zlen (elements r) →
  runs (merge_new (length b) (zlen qa) at_ other r) b
    (λ r' l', ∃ made, made.*2 = map (handler_Merge handler_New) b.*2 ∧ l' ≡ₚ b ++ made ∧ (∃ g'', elements r' = map Some (pa ++ made.*1) ++ g'') ∧
       allocated_size r' = allocated_size r ∧ zlen (elements r') = zlen (elements r)).
Proof.
  intros b. induction b as [|[q y] b IH]; intros qa g pa r g' Eo Er Ei Hroom.
  { apply runs_ret. exists []. cbn. rewrite !app_nil_r. split_and!; [done|done|by exists g'|done|done]. }
  cbn [length merge_new fmap list_fmap fst snd] in *. rewrite zlen_cons in Hroom. pose proof (zlen_nonneg b).
  eapply runs_lift; [by eapply (ptr_element_here other qa q b.*1 g)|]. apply runs_alloc. intros p.
  eapply runs_perm; [apply perm_swap|]. apply runs_load. eapply runs_perm; [apply perm_swap|]. apply runs_update.
  destruct (write_slot r pa g' p Er) as (r1 & Ep & Ea & El & g1 & Eg1); [lia|]. rewrite Ei. eapply runs_lift; [exact Ep|].
  replace (zlen qa + 1) with (zlen (qa ++ [q])) by (rewrite zlen_app; done).
  eapply runs_perm; [apply (Permutation_app_comm [_; _] b)|].
  eapply runs_post; [|apply runs_frame, (IH (qa ++ [q]) g (pa ++ [p]) r1 g1)].
  - intros r' l' (l0 & -> & made & Em & E0 & (g2 & Eg2) & Ea' & El'). exists ((p, handler_Merge handler_New y) :: made).
    cbn [fmap list_fmap fst snd map]. split_and!; [by rewrite Em| | |congruence|congruence].
    + rewrite E0. solve_Permutation.
    + exists g2. by rewrite Eg2, <- (app_assoc pa).
  - by rewrite <- app_assoc.
  - done.
  - rewrite !zlen_app, !zlen_cons, !zlen_nil. lia.
  - rewrite El, zlen_app, zlen_cons, zlen_nil. lia.
Qed.

(** The cleared elements that are reused, and the elements merged into them. *)
Lemma split_reuse {A B} (cs : list A) (ys : list B) : ∃ c1 c2 y1 y2, cs = c1 ++ c2 ∧ ys = y1 ++ y2 ∧ length c1 = length y1 ∧ (c2 = [] ∨ y2 = []).
Proof.
  exists (take (length ys) cs), (drop (length ys) cs), (take (length cs) ys), (drop (length cs) ys).
  rewrite !take_drop, !length_take. split_and!; [done|done|lia|]. destruct (decide (length cs <= length ys)%nat).
  - left. apply drop_ge. lia.
  - right. apply drop_ge. lia.
Qed.

Lemma MergeFromInnerLoop_spec other r ls cs (ys : list (nat * E)) ds :
  slots other ys.*1 ds → slots r ls cs → zlen ls + zlen ys <= zlen (elements r) → zlen (ls ++ cs) <= zlen (elements r) →
  runs (MergeFromInnerLoop (zlen ls) other r (zlen ys) (zlen cs)) (cleared cs ++ ys)
    (λ r' l', ∃ made cs', made.*2 = map (handler_Merge handler_New) ys.*2 ∧ l' ≡ₚ made ++ cleared cs' ++ ys ∧
       (∃ g, elements r' = map Some ((ls ++ made.*1) ++ cs') ++ g) ∧
       zlen ((ls ++ made.*1) ++ cs') = Z.max (zlen ls + zlen ys) (zlen (ls ++ cs)) ∧
       allocated_size r' = allocated_size r ∧ zlen (elements r') = zlen (elements r)).
Proof.
  intros [_ (g & Eo)] [_ (g' & Er)] Hroom Hroom'. destruct (split_reuse cs ys) as (c1 & c2 & y1 & y2 & -> & -> & Elen & Hend).
  assert (Ey1 : map fst (zip y1 c1) = y1) by (apply fst_zip; lia). assert (Ec1 : map snd (zip y1 c1) = c1) by (apply snd_zip; lia).
  assert (Ez : length (zip y1 c1) = length y1) by (rewrite length_zip; lia).
  unfold MergeFromInnerLoop. rewrite (fmap_app fst y1 y2) in Eo. rewrite !zlen_app in Hroom. rewrite !zlen_app in Hroom'.
  replace (Z.to_nat (Z.min (zlen (c1 ++ c2)) (zlen (y1 ++ y2)))) with (length (zip y1 c1))
    by (rewrite Ez, !zlen_app; unfold zlen; destruct Hend as [-> | ->]; cbn; lia).
  eapply runs_bind.
  { eapply (runs_perm _ _ ((map fst (zip y1 c1) ++ map (λ x, (x.2, handler_New)) (zip y1 c1)) ++ (cleared c2 ++ y2))).
    - rewrite Ey1. assert (En : cleared c1 = map (λ x, (x.2, handler_New)) (zip y1 c1)) by (unfold cleared; by rewrite <- Ec1, map_map, Ec1).
      rewrite <- En. unfold cleared. rewrite map_app. solve_Permutation.
    - apply runs_frame. apply (merge_existing_spec other r (zlen ls) (zip y1 c1) [] (y2.*1 ++ ds) g ls c2 g').
      + cbn [app]. rewrite <- (map_map fst fst), Ey1. by rewrite Eo, <- app_assoc.
      + by rewrite Er, Ec1.
      + rewrite zlen_nil. lia. }
  intros _ l' (l0 & -> & E0).
  eapply (runs_perm _ _ (y2 ++ (y1 ++ map (λ x, (x.2, handler_Merge handler_New x.1.2)) (zip y1 c1) ++ cleared c2))).
  { rewrite E0, Ey1. solve_Permutation. }
  replace (Z.to_nat (zlen (y1 ++ y2) - zlen (c1 ++ c2))) with (length y2)
    by (rewrite !zlen_app; unfold zlen; destruct Hend as [-> | ->]; cbn; lia).
  set (reused := map (λ x, (x.2, handler_Merge handler_New x.1.2)) (zip y1 c1)).
  assert (Er1 : reused.*1 = c1) by (unfold reused; change (map fst (map (λ x : nat * E * nat, (x.2, handler_Merge handler_New x.1.2)) (zip y1 c1)) = c1);
    rewrite map_map; exact Ec1).
  assert (Er2 : reused.*2 = map (handler_Merge handler_New) y1.*2).
  { unfold reused. change (map snd (map (λ x : nat * E * nat, (x.2, handler_Merge handler_New x.1.2)) (zip y1 c1)) = map (handler_Merge handler_New) (map snd y1)).
    rewrite <- Ey1 at 2. by rewrite !map_map. }
  assert (El1 : zlen c1 = zlen y1) by (unfold zlen; by rewrite Elen).
  destruct Hend as [-> | ->].
  - rewrite !app_nil_r in *. replace (zlen c1) with (zlen y1.*1) by (rewrite El1; apply zlen_fmap).
    eapply runs_post; [|apply runs_frame, (merge_new_spec other (zlen ls) y2 y1.*1 (map Some ds ++ g) (ls ++ c1) r g')].
    + intros r' l' (l1 & -> & made & Em & E1 & (g2 & Eg2) & Ea & El). exists (reused ++ made), []. rewrite (fmap_app fst reused made), (fmap_app snd reused made), (fmap_app snd y1 y2), map_app, Er1, Er2, Em.
      assert (Elm : zlen made.*1 = zlen y2) by (rewrite zlen_fmap, <- (zlen_fmap snd made), Em, zlen_map; apply zlen_fmap).
      split_and!; [done|rewrite E1; cbn [cleared map]; solve_Permutation|exists g2; rewrite app_nil_r, app_assoc; exact Eg2| |done|done].
      rewrite app_nil_r, !zlen_app. rewrite Elm. pose proof (zlen_nonneg y2). lia.
    + by rewrite Eo, map_app, <- app_assoc.
    + done.
    + rewrite zlen_app, El1. by rewrite zlen_fmap.
    + rewrite zlen_app, El1. lia.
  - apply runs_ret. exists reused, c2. rewrite !app_nil_r in *. rewrite Er1, Er2.
    split_and!; [done|solve_Permutation|exists g'; by rewrite <- app_assoc| |done|done].
    rewrite !zlen_app, El1. pose proof (zlen_nonneg c2). lia.
Qed.

Lemma fst_made {A} (made : list (nat * E)) (g : A → E) (ys : list A) : made.*2 = map g ys → zlen made.*1 = zlen ys.
Proof. intros Em. by rewrite zlen_fmap, <- (zlen_fmap snd made), Em, zlen_map. Qed.

Lemma ptr_MergeFrom_spec other f ls cs (ys : list (nat * E)) ds : shape other ys.*1 ds → shape f ls.*1 cs → zlen ls + zlen ys <= most →
  runs (MergeFrom other f) (own ls cs ++ ys) (λ f' l', ∃ made cs', made.*2 = map (handler_Merge handler_New) ys.*2 ∧
    l' ≡ₚ own (ls ++ made) cs' ++ ys ∧ shape f' (ls ++ made).*1 cs').
Proof.
  intros Ho Hs Hb. unfold MergeFrom. rewrite (sh_current _ _ _ Ho), zlen_fmap. destruct (Z.eqb_spec (zlen ys) 0) as [E0|Hne].
  { assert (ys = []) as -> by (apply zlen_zero; lia). apply runs_ret. exists [], cs. by rewrite !app_nil_r. }
  assert (Hpos : 0 < zlen ys) by (pose proof (zlen_nonneg ys); lia). cbv zeta.
  destruct (shape_cons_rep other ys.*1 ds Ho) as (orep & Eor); [intros [E1 _]%app_eq_nil; apply fmap_nil_inv in E1 as ->; unfold zlen in Hpos; cbn in Hpos; lia|].
  destruct (shape_rep _ _ _ _ Ho Eor) as (Hos & _). eapply (runs_lift _ orep); [unfold the_rep; by rewrite Eor|].
  destruct (InternalExtend_spec (zlen ys) f _ _ Hs Hpos) as (f1 & r & E1 & Hs1 & Er & Ht & _); [by rewrite zlen_fmap|].
  eapply runs_lift; [exact E1|]. eapply (runs_lift _ r); [unfold the_rep; by rewrite Er|].
  destruct (shape_rep _ _ _ _ Hs1 Er) as (Hsl & El & Hle). pose proof Hsl as [Ea _].
  rewrite Ea, (sh_current _ _ _ Hs1), zlen_app, zlen_fmap. replace (zlen ls + zlen cs - zlen ls) with (zlen cs) by lia.
  rewrite zlen_fmap in Ht. eapply runs_bind.
  { eapply (runs_perm _ _ ((cleared cs ++ ys) ++ ls)); [unfold own; solve_Permutation|]. rewrite <- (zlen_fmap fst ls).
    apply runs_frame. apply (MergeFromInnerLoop_spec orep r ls.*1 cs ys ds Hos Hsl); rewrite El; [by rewrite zlen_fmap|done]. }
  cbn beta. intros r' l' (l0 & -> & made & cs' & Em & E0 & (g & Eg) & Elen & Ea' & El').
  pose proof (fst_made _ _ _ Em) as Efm. rewrite (zlen_fmap snd) in Efm.
  eapply (runs_lift _ (zlen ls + zlen ys)).
  { unfold add_int, most, INT_MAX in *. pose proof (zlen_nonneg ls). by zdec. }
  apply runs_ret. exists made, cs'. split_and!; [done|rewrite E0; unfold own; solve_Permutation|].
  pose proof (zlen_nonneg ds). rewrite fmap_app. apply shape_intro.
  - rewrite zlen_app, Efm, zlen_fmap. done.
  - rewrite zlen_fmap, (zlen_app ls.*1 cs), zlen_fmap in Elen. rewrite Ea', Ea, zlen_app, zlen_fmap. split.
    + rewrite Elen. destruct (Z.ltb_spec (zlen ls + zlen cs) (zlen ls + zlen ys)); cbn; [|rewrite Ea', Ea, zlen_app, zlen_fmap]; lia.
    + exists g. by destruct (_ <? _).
  - destruct (_ <? _); cbn; lia.
  - apply (sh_total _ _ _ Hs1).
Qed.

Lemma ptr_CopyFrom_spec other f ls cs (ys : list (nat * E)) ds : shape other ys.*1 ds → shape f ls.*1 cs → zlen ys <= most →
  runs (CopyFrom other f) (own ls cs ++ ys) (λ f' l', ∃ made cs', made.*2 = map (handler_Merge handler_New) ys.*2 ∧
    l' ≡ₚ own made cs' ++ ys ∧ shape f' made.*1 cs').
Proof.
  intros Ho Hs Hb. unfold CopyFrom. eapply runs_bind; [apply runs_frame, (ptr_Clear_spec f ls cs Hs)|].
  cbn beta. intros f1 l' (l0 & -> & E0 & Hs1). eapply (runs_perm _ _ (own [] (ls.*1 ++ cs) ++ ys)); [by rewrite E0|].
  by apply (ptr_MergeFrom_spec other f1 [] (ls.*1 ++ cs) ys ds).
Qed.

(** *** Elements of the user's *)

Lemma add_new_runs p f r ps l (post : RepeatedPtrField → list (nat * E) → Prop) : shape f ps [] → rep_ f = Some r → zlen ps < total_size_ f →
  (∀ f', shape f' (ps ++ [p]) [] → post f' l) →
  runs (r ← lift (the_rep (set_rep (set_allocated_size (allocated_size r + 1) r) f));
        r ← lift (put_element (current_size_ f) p r); mret (set_current_size (current_size_ f + 1) (set_rep r f))) l post.
Proof.
  intros Hs Er Ht Hp. destruct (add_new_spec p f r ps Hs Er Ht) as (f' & E1 & Hs'). unfold add_new, the_rep in E1. rewrite Er in E1.
  cbn [mbind outcome_bind] in E1. cbn [the_rep set_rep rep_]. eapply runs_lift; [done|].
  destruct (put_element _ p _) as [r'| |] eqn:Ep; cbn [mbind outcome_bind] in E1; [|done..]. injection E1 as <-.
  eapply runs_lift; [done|]. apply runs_ret. by apply Hp.
Qed.

(** The first cleared element moves to the end to make place. *)
Lemma displace f ps c cs r p g : elements r = map Some (ps ++ c :: cs) ++ g → zlen (ps ++ c :: cs) < zlen (elements r) →
  ∃ r1 r2, put_element (zlen (ps ++ c :: cs)) c r = Ok r1 ∧ put_element (zlen ps) p r1 = Ok r2 ∧
    allocated_size r1 = allocated_size r ∧ allocated_size r2 = allocated_size r ∧ zlen (elements r2) = zlen (elements r) ∧
    ∃ g', elements r2 = map Some ((ps ++ [p]) ++ cs ++ [c]) ++ g'.
Proof.
  intros Eg Hlt. destruct (write_slot r (ps ++ c :: cs) g c Eg Hlt) as (r1 & E1 & Ea1 & El1 & g1 & Eg1).
  destruct (write_over r1 ps c (cs ++ [c]) g1 p) as (r2 & E2 & Ea2 & El2 & Eg2); [by rewrite Eg1, <- app_assoc|].
  exists r1, r2. split_and!; [done|done|done|congruence|congruence|]. exists g1. by rewrite Eg2, <- app_assoc.
Qed.

Definition added p x ls (f' : RepeatedPtrField) l' : Prop :=
  ∃ cs', l' ≡ₚ own (ls ++ [(p, x)]) cs' ∧ shape f' (ls ++ [(p, x)]).*1 cs'.

Lemma added_none p x ls f' : shape f' (ls.*1 ++ [p]) [] → added p x ls f' (own ls [] ++ [(p, x)]).
Proof. intros Hs. exists []. unfold own. cbn. rewrite !app_nil_r, fmap_app. by split. Qed.

Lemma UnsafeArenaAddAllocated_spec p x f ls cs : shape f ls.*1 cs → zlen ls < most →
  runs (UnsafeArenaAddAllocated p f) (own ls cs ++ [(p, x)]) (added p x ls).
Proof.
  intros Hs Hb. unfold UnsafeArenaAddAllocated. pose proof (sh_total _ _ _ Hs) as Ht.
  destruct (bool_decide (rep_ f = None) || (current_size_ f =? total_size_ f)) eqn:Efull.
  - assert (Efl : cs = [] ∧ total_size_ f = zlen ls).
    { apply orb_true_iff in Efull as [E1%bool_decide_eq_true|E1%Z.eqb_eq].
      - pose proof (sh_rep _ _ _ Hs) as Hr. rewrite E1 in Hr. destruct Hr as (El%fmap_nil_inv & -> & ->). by subst.
      - rewrite (sh_current _ _ _ Hs), zlen_fmap in E1. split; [|done]. pose proof (sh_rep _ _ _ Hs) as Hr.
        destruct (rep_ f) as [r|] eqn:Er; [|by destruct Hr as (_ & -> & _)].
        destruct (shape_rep _ _ _ _ Hs Er) as (_ & _ & Hle). rewrite zlen_app, zlen_fmap in Hle. apply zlen_zero. lia. }
    destruct Efl as [-> Et]. eapply runs_bind.
    + eapply (runs_lift _ (zlen ls + 1)); [unfold add_int, most, INT_MAX in *; rewrite Et; pose proof (zlen_nonneg ls); by zdec|].
      destruct (ptr_Reserve_spec (zlen ls + 1) f _ _ Hs) as (f1 & E1 & Hs1 & Ht1 & Hr1); [lia|]. rewrite zlen_fmap in Ht1, Hr1.
      destruct Hr1 as (r & Er); [lia|]. eapply runs_lift; [exact E1|]. eapply (runs_lift _ r); [unfold the_rep; by rewrite Er|].
      apply (runs_ret _ _ (λ f2 l', ∃ f1 r, f2 = set_rep (set_allocated_size (allocated_size r + 1) r) f1 ∧ shape f1 ls.*1 [] ∧
        rep_ f1 = Some r ∧ zlen ls < total_size_ f1 ∧ l' = own ls [] ++ [(p, x)])). exists f1, r. split_and!; [done..|lia|done].
    + intros f2 l' (f1 & r & -> & Hs1 & Er & Ht1 & ->). apply (add_new_runs p f1 r ls.*1); [done|done|by rewrite zlen_fmap|].
      intros f'. apply added_none.
  - apply orb_false_iff in Efull as [E1%bool_decide_eq_false E2%Z.eqb_neq]. destruct (rep_ f) as [r|] eqn:Er; [|done].
    destruct (shape_rep _ _ _ _ Hs Er) as ((Ea & g & Eg) & El & Hle). pose proof (sh_current _ _ _ Hs) as Ec.
    assert (Ethe : the_rep f = Ok r) by (unfold the_rep; by rewrite Er).
    destruct cs as [|c cs].
    + rewrite app_nil_r in *. eapply runs_bind.
      * eapply runs_lift; [exact Ethe|]. zdec.
        apply (runs_ret _ _ (λ f2 l', f2 = set_rep (set_allocated_size (allocated_size r + 1) r) f ∧ l' = own ls [] ++ [(p, x)])).
        done.
      * intros f2 l' (-> & ->). apply (add_new_runs p f r ls.*1); [done|done|lia|]. intros f'. apply added_none.
    + rewrite zlen_app, zlen_cons in Hle. rewrite zlen_app, zlen_cons in Ea. pose proof (zlen_nonneg cs).
      destruct (Z.eqb_spec (allocated_size r) (total_size_ f)) as [Eat|Hat].
      * destruct (write_over r ls.*1 c cs g p Eg) as (r2 & E3 & Ea2 & El2 & Eg2). eapply runs_bind.
        { eapply runs_lift; [exact Ethe|]. zdec. eapply runs_lift; [eapply (ptr_element_here r ls.*1 c cs g); [exact Eg|exact Ec]|].
          eapply (runs_perm _ _ ((c, handler_New) :: ls ++ cleared cs ++ [(p, x)])); [unfold own; cbn [cleared map]; solve_Permutation|].
          apply runs_delete. by apply (runs_ret _ _ (λ f2 l', f2 = f ∧ l' = ls ++ cleared cs ++ [(p, x)])). }
        intros f2 l' (-> & ->). eapply runs_lift; [exact Ethe|]. rewrite Ec. eapply runs_lift; [exact E3|]. apply runs_ret. exists cs.
        split; [unfold own; solve_Permutation|]. rewrite fmap_app. change ([(p, x)].*1) with [p].
        apply shape_intro; [by rewrite zlen_app, zlen_cons, zlen_nil| |cbn; lia|cbn; lia].
        split; [rewrite Ea2, !zlen_app, zlen_cons, zlen_nil; lia|exists g; by rewrite Eg2, <- app_assoc].
      * destruct (displace f ls.*1 c cs r p g Eg) as (r1 & r2 & E3 & E4 & Ea1 & Ea2 & El2 & g2 & Eg2).
        { rewrite zlen_app, zlen_cons. lia. }
        assert (Eal : allocated_size r = zlen (ls.*1 ++ c :: cs)) by (by rewrite zlen_app, zlen_cons). eapply runs_bind.
        { eapply runs_lift; [exact Ethe|]. zdec. eapply runs_lift; [eapply (ptr_element_here r ls.*1 c cs g); [exact Eg|exact Ec]|].
          rewrite Eal. eapply runs_lift; [exact E3|].
          by apply (runs_ret _ _ (λ f2 l', f2 = set_rep (set_allocated_size (allocated_size r1 + 1) r1) f ∧ l' = own ls (c :: cs) ++ [(p, x)])). }
        intros f2 l' (-> & ->). eapply runs_lift; [done|]. cbn [current_size_ set_rep]. rewrite Ec.
        eapply runs_lift; [by apply put_allocated|]. apply runs_ret. exists (cs ++ [c]).
        split; [unfold own, cleared; rewrite map_app; cbn [map]; solve_Permutation|]. rewrite fmap_app. change ([(p, x)].*1) with [p].
        apply shape_intro; [cbn; by rewrite zlen_app, zlen_cons, zlen_nil| |cbn; lia|cbn; lia].
        split; [cbn; rewrite Ea1, !zlen_app, !zlen_cons, zlen_nil; lia|by exists g2].
Qed.

(** [AddAllocated]. *)
Lemma AddAllocated_spec p x f ls cs : shape f ls.*1 cs → zlen ls < most → runs (AddAllocated p f) (own ls cs ++ [(p, x)]) (added p x ls).
Proof.
  intros Hs Hb. unfold AddAllocated. destruct (rep_ f) as [r|] eqn:Er; [|by apply UnsafeArenaAddAllocated_spec].
  destruct (Z.ltb_spec (allocated_size r) (total_size_ f)) as [Hlt|_]; [|by apply UnsafeArenaAddAllocated_spec].
  destruct (shape_rep _ _ _ _ Hs Er) as ((Ea & g & Eg) & El & Hle). pose proof (sh_current _ _ _ Hs) as Ec. pose proof (sh_total _ _ _ Hs) as Ht.
  destruct cs as [|c cs].
  - rewrite app_nil_r in *. eapply runs_bind.
    + zdec. by apply (runs_ret _ _ (λ r1 l', r1 = r ∧ l' = own ls [] ++ [(p, x)])).
    + intros r1 l' (-> & ->). rewrite Ec. destruct (write_slot r ls.*1 g p Eg) as (r2 & E2 & Ea2 & El2 & g2 & Eg2); [lia|].
      eapply runs_lift; [exact E2|]. apply runs_ret, added_none. apply shape_intro; [cbn; by rewrite zlen_app, zlen_cons, zlen_nil| |cbn; lia|cbn; lia].
      split; [cbn; rewrite app_nil_r, Ea2, zlen_app, zlen_cons, zlen_nil; lia|exists g2; by rewrite app_nil_r].
  - assert (Eal : allocated_size r = zlen (ls.*1 ++ c :: cs)) by done. rewrite zlen_app, zlen_cons in Ea. pose proof (zlen_nonneg cs).
    destruct (displace f ls.*1 c cs r p g Eg) as (r1 & r2 & E3 & E4 & Ea1 & Ea2 & El2 & g2 & Eg2); [lia|].
    eapply runs_bind.
    + zdec. eapply runs_lift; [eapply (ptr_element_here r ls.*1 c cs g); [exact Eg|exact Ec]|]. rewrite Eal, E3.
      by apply (runs_ret _ _ (λ r' l', r' = r1 ∧ l' = own ls (c :: cs) ++ [(p, x)])).
    + intros r' l' (-> & ->). rewrite Ec. eapply runs_lift; [exact E4|]. apply runs_ret. exists (cs ++ [c]).
      split; [unfold own, cleared; rewrite map_app; cbn [map]; solve_Permutation|]. rewrite fmap_app. change ([(p, x)].*1) with [p].
      apply shape_intro; [cbn; by rewrite zlen_app, zlen_cons, zlen_nil| |cbn; lia|cbn; lia].
      split; [cbn; rewrite Ea2, !zlen_app, !zlen_cons, zlen_nil; lia|by exists g2].
Qed.

Lemma ReleaseLast_spec f ps p cs : shape f (ps ++ [p]) cs →
  ∃ f' cs', ReleaseLast f = Ok (p, f') ∧ cs' ≡ₚ cs ∧ shape f' ps cs'.
Proof.
  intros Hs. destruct (shape_cons_rep _ _ _ Hs) as (r & Er); [by destruct ps|].
  destruct (shape_rep _ _ _ _ Hs Er) as ((Ea & g & Eg) & El & Hle). pose proof (sh_total _ _ _ Hs) as Ht.
  assert (Ec : current_size_ f - 1 = zlen ps) by (rewrite (sh_current _ _ _ Hs), zlen_app, zlen_cons, zlen_nil; lia).
  rewrite !zlen_app, zlen_cons, zlen_nil in Ea. rewrite <- app_assoc in Eg. unfold ReleaseLast, the_rep. rewrite Er, Ec. cbn [mbind outcome_bind].
  rewrite (ptr_element_here r ps p cs g _ Eg eq_refl). cbn [mbind outcome_bind set_allocated_size allocated_size].
  destruct cs as [|c cs _] using rev_ind.
  - change (zlen (@nil nat)) with 0 in Ea. zdec. cbn [mbind outcome_bind]. eexists _, []. split_and!; [done|done|].
    apply shape_intro; [done| |done|apply Ht]. rewrite !app_nil_r in *. split; [cbn; rewrite app_nil_r; lia|].
    exists (Some p :: g). cbn [set_allocated_size elements]. rewrite app_nil_r, Eg, map_app, <- app_assoc. done.
  - rewrite zlen_app, zlen_cons in Ea. change (zlen (@nil nat)) with 0 in Ea. pose proof (zlen_nonneg cs). zdec. cbn [mbind outcome_bind].
    assert (Eg' : elements r = map Some ((ps ++ p :: cs) ++ c :: []) ++ g) by (by rewrite Eg, <- app_assoc).
    rewrite (ptr_element_here (set_allocated_size (allocated_size r - 1) r) (ps ++ p :: cs) c [] g) by (done || rewrite zlen_app, zlen_cons; lia).
    cbn [mbind outcome_bind]. destruct (write_over (set_allocated_size (allocated_size r - 1) r) ps p (cs ++ [c]) g c) as (r2 & -> & Ea2 & El2 & Eg2).
    { exact Eg. }
    cbn [mbind outcome_bind]. eexists _, (c :: cs). split_and!; [done|apply Permutation_cons_append|].
    apply shape_intro; [done| |cbn in *; lia|apply Ht]. split; [rewrite Ea2; cbn; rewrite zlen_app, zlen_cons; lia|].
    exists (Some c :: g). rewrite Eg2, app_comm_cons, app_assoc, map_app, <- app_assoc. done.
Qed.

Lemma AddCleared_spec p f ps cs : shape f ps cs → zlen (ps ++ cs) < most → ∃ f', AddCleared p f = Ok f' ∧ shape f' ps (cs ++ [p]).
Proof.
  intros Hs Hb. unfold AddCleared. destruct (ptr_make_room_spec f ps cs Hs Hb) as (f1 & r & -> & Hs1 & Er & Ht). cbn [mbind outcome_bind].
  destruct (shape_rep _ _ _ _ Hs1 Er) as ((Ea & g & Eg) & El & _). unfold the_rep. rewrite Er. cbn [mbind outcome_bind].
  destruct (write_slot r (ps ++ cs) g p Eg) as (r2 & E2 & Ea2 & El2 & g2 & Eg2); [lia|]. rewrite Ea, E2. cbn [mbind outcome_bind]. eexists. split; [done|].
  apply shape_intro; [apply Hs1| |cbn; lia|apply (sh_total _ _ _ Hs1)].
  split; [cbn; rewrite Ea2, Ea, !zlen_app, zlen_cons, zlen_nil; lia|exists g2; by rewrite app_assoc].
Qed.

Lemma ReleaseCleared_spec f ps cs c : shape f ps (cs ++ [c]) → ∃ f', ReleaseCleared f = Ok (c, f') ∧ shape f' ps cs.
Proof.
  intros Hs. destruct (shape_cons_rep _ _ _ Hs) as (r & Er); [by destruct ps, cs|].
  destruct (shape_rep _ _ _ _ Hs Er) as ((Ea & g & Eg) & El & _). unfold ReleaseCleared, the_rep. rewrite Er. cbn [mbind outcome_bind].
  rewrite app_assoc in Ea, Eg. rewrite zlen_app, zlen_cons, zlen_nil in Ea. rewrite (ptr_element_here r (ps ++ cs) c [] g) by (done || lia).
  cbn [mbind outcome_bind]. eexists. split; [done|]. apply shape_intro; [apply Hs| |done|apply (sh_total _ _ _ Hs)].
  split; [cbn; lia|]. exists (Some c :: g). cbn [set_allocated_size elements]. rewrite Eg, map_app, <- app_assoc. done.
Qed.

Lemma ptr_SwapElements_spec f a p b q c cs : shape f (a ++ p :: b ++ q :: c) cs →
  ∃ f', SwapElements (zlen a) (zlen (a ++ p :: b)) f = Ok f' ∧ shape f' (a ++ q :: b ++ p :: c) cs.
Proof.
  intros Hs. destruct (shape_cons_rep _ _ _ Hs) as (r & Er); [by destruct a|].
  destruct (shape_rep _ _ _ _ Hs Er) as ((Ea & g & Eg) & El & _). unfold SwapElements, the_rep. rewrite Er. cbn [mbind outcome_bind].
  assert (E0 : (a ++ p :: b ++ q :: c) ++ cs = a ++ p :: b ++ q :: c ++ cs) by by simplify_list_eq.
  rewrite E0 in Eg. rewrite (ptr_element_here r a p (b ++ q :: c ++ cs) g (zlen a)) by done. cbn [mbind outcome_bind].
  rewrite (ptr_element_here r (a ++ p :: b) q (c ++ cs) g _) by (done || by simplify_list_eq). cbn [mbind outcome_bind].
  destruct (write_over r a p (b ++ q :: c ++ cs) g q Eg) as (r1 & -> & Ea1 & El1 & Eg1). cbn [mbind outcome_bind].
  destruct (write_over r1 (a ++ q :: b) q (c ++ cs) g p) as (r2 & E2 & Ea2 & El2 & Eg2); [by rewrite Eg1, <- app_assoc|].
  replace (zlen (a ++ p :: b)) with (zlen (a ++ q :: b)) by (by rewrite !zlen_app, !zlen_cons). rewrite E2. cbn [mbind outcome_bind].
  eexists. split; [done|]. apply shape_intro; [|split|by rewrite El2, El1|apply (sh_total _ _ _ Hs)].
  - rewrite (sh_current _ _ _ Hs). by rewrite !zlen_app, !zlen_cons, !zlen_app, !zlen_cons.
  - rewrite Ea2, Ea1, Ea, !zlen_app, !zlen_cons, !zlen_app, !zlen_cons. done.
  - exists g. rewrite Eg2. f_equal. f_equal. by simplify_list_eq.
Qed.

(** *** Ranges *)

Lemma ptr_shift_down_spec num : ∀ d a b g r, b ≠ [] → num = zlen b → elements r = map Some (a ++ b ++ d) ++ g →
  ∃ r', shift_down (length d) (zlen (a ++ b)) num r = Ok r' ∧ allocated_size r' = allocated_size r ∧ zlen (elements r') = zlen (elements r) ∧
    ∃ g', elements r' = map Some (a ++ d) ++ g'.
Proof.
  intros d. induction d as [|x d IH]; intros a b g r Hb En Eg.
  { exists r. split_and!; [done|done|done|]. exists (map Some b ++ g). by rewrite Eg, !app_nil_r, map_app, <- app_assoc. }
  destruct b as [|y b]; [done|]. cbn [length shift_down].
  rewrite (ptr_element_here r (a ++ y :: b) x d g) by (done || by rewrite Eg, <- app_assoc). cbn [mbind outcome_bind].
  replace (zlen (a ++ y :: b) - num) with (zlen a) by (rewrite zlen_app; lia).
  destruct (write_over r a y (b ++ x :: d) g x) as (r1 & -> & Ea1 & El1 & Eg1); [by rewrite Eg|]. cbn [mbind outcome_bind].
  replace (zlen (a ++ y :: b) + 1) with (zlen ((a ++ [x]) ++ b ++ [x])) by (rewrite !zlen_app, !zlen_cons, zlen_nil; lia).
  destruct (IH (a ++ [x]) (b ++ [x]) g r1) as (r' & -> & Ea' & El' & g' & Eg').
  - by destruct b.
  - rewrite En, zlen_app, !zlen_cons, zlen_nil. lia.
  - rewrite Eg1. f_equal. f_equal. by rewrite <- !app_assoc.
  - exists r'. split_and!; [done|congruence|congruence|]. exists g'. by rewrite Eg', <- app_assoc.
Qed.

Lemma CloseGap_spec f a b c cs : shape f (a ++ b ++ c) cs → b ≠ [] →
  ∃ f', CloseGap (zlen a) (zlen b) f = Ok f' ∧ shape f' (a ++ c) cs.
Proof.
  intros Hs Hb. destruct (shape_cons_rep _ _ _ Hs) as (r & Er); [by destruct a, b|].
  destruct (shape_rep _ _ _ _ Hs Er) as ((Ea & g & Eg) & El & _). unfold CloseGap. rewrite Er.
  rewrite !zlen_app in Ea. rewrite <- !app_assoc in Eg.
  destruct (ptr_shift_down_spec (zlen b) (c ++ cs) a b g r Hb eq_refl Eg) as (r' & E1 & Ea' & El' & g' & Eg').
  replace (Z.to_nat (allocated_size r - (zlen a + zlen b))) with (length (c ++ cs)) by (rewrite length_app; unfold zlen in *; lia).
  rewrite zlen_app in E1. rewrite E1. cbn [mbind outcome_bind]. eexists. split; [done|].
  apply shape_intro; [rewrite (sh_current _ _ _ Hs), !zlen_app; lia| |cbn; lia|apply (sh_total _ _ _ Hs)].
  split; [cbn; rewrite Ea', Ea, !zlen_app; lia|]. exists g'. by rewrite <- app_assoc.
Qed.

Lemma ptr_elements_from_spec f ps cs d : shape f ps cs → ∀ b a, ps ++ cs = a ++ b ++ d → elements_from (length b) (zlen a) f = Ok b.
Proof.
  intros Hs b. induction b as [|p b IH]; intros a El; [done|]. cbn [length elements_from]. unfold Mutable.
  rewrite (element_at_here f ps cs a p (b ++ d) _ Hs El eq_refl). cbn [mbind outcome_bind].
  replace (zlen a + 1) with (zlen (a ++ [p])) by (rewrite zlen_app; done). by rewrite IH by (by rewrite El, <- app_assoc).
Qed.

Lemma delete_elements_spec f ps cs d : shape f ps cs → ∀ (b : list (nat * E)) a, ps ++ cs = a ++ b.*1 ++ d →
  runs (delete_elements (length b) (zlen a) f) b (λ _ l', l' = []).
Proof.
  intros Hs b. induction b as [|[p x] b IH]; intros a El; [by apply runs_ret|]. cbn [length delete_elements].
  eapply runs_lift; [eapply (element_at_here f ps cs a p (b.*1 ++ d)); [exact Hs|exact El|done]|]. apply runs_delete.
  replace (zlen a + 1) with (zlen (a ++ [p])) by (rewrite zlen_app; done). apply IH. by rewrite El, <- app_assoc.
Qed.

(** The destructor deletes every element, once. *)
Lemma Destroy_spec f ls cs : shape f ls.*1 cs → runs (Destroy f) (own ls cs) (λ _ l', l' = []).
Proof.
  intros Hs. unfold Destroy. destruct (rep_ f) as [r|] eqn:Er.
  - destruct (shape_rep _ _ _ _ Hs Er) as ((Ea & _) & _). assert (Eo : (own ls cs).*1 = ls.*1 ++ cs).
    { unfold own, cleared. rewrite fmap_app. f_equal. rewrite <- list_fmap_compose. apply list_fmap_id. }
    replace (Z.to_nat (allocated_size r)) with (length (own ls cs)).
    + apply (delete_elements_spec f ls.*1 cs [] Hs (own ls cs) []). by rewrite app_nil_r, Eo.
    + rewrite Ea, <- Eo. unfold zlen. rewrite length_fmap. lia.
  - pose proof (sh_rep _ _ _ Hs) as Hr. rewrite Er in Hr. destruct Hr as (->%fmap_nil_inv & -> & _). by apply runs_ret.
Qed.

Lemma ptr_ExtractSubrange_spec f a b c cs wanted : shape f (a ++ b ++ c) cs →
  ∃ f', ExtractSubrange (zlen a) (zlen b) wanted f = Ok (if wanted then b else [], f') ∧ shape f' (a ++ c) cs.
Proof.
  intros Hs. unfold ExtractSubrange. destruct b as [|p b].
  - exists f. by destruct wanted.
  - destruct (Z.ltb_spec 0 (zlen (p :: b))) as [_|Hz]; [|rewrite zlen_cons in Hz; pose proof (zlen_nonneg b); lia].
    destruct (CloseGap_spec f a (p :: b) c cs Hs) as (f' & E1 & Hs'); [done|]. exists f'. split; [|done].
    assert (Ee : elements_from (Z.to_nat (zlen (p :: b))) (zlen a) f = Ok (p :: b)).
    { replace (Z.to_nat (zlen (p :: b))) with (length (p :: b)) by (unfold zlen; lia).
      apply (ptr_elements_from_spec f _ cs (c ++ cs) Hs). by rewrite <- !app_assoc. }
    destruct wanted; [rewrite Ee|]; cbn [mbind outcome_bind]; by rewrite E1.
Qed.

Lemma DeleteSubrange_spec f a (b : list (nat * E)) c cs : shape f (a ++ b ++ c).*1 cs →
  runs (DeleteSubrange (zlen a) (zlen b) f) (own (a ++ b ++ c) cs) (λ f' l', l' ≡ₚ own (a ++ c) cs ∧ shape f' (a ++ c).*1 cs).
Proof.
  rewrite !fmap_app. intros Hs. unfold DeleteSubrange. rewrite <- (zlen_fmap fst a).
  replace (Z.to_nat (zlen b)) with (length b) by (unfold zlen; lia).
  eapply runs_bind; [eapply (runs_perm _ _ (b ++ a ++ c ++ cleared cs)); [unfold own; solve_Permutation|]; apply runs_frame|].
  { apply (delete_elements_spec f _ cs (c.*1 ++ cs) Hs). by rewrite <- !app_assoc. }
  intros _ l' (l0 & -> & ->). rewrite <- (zlen_fmap fst b).
  destruct (ptr_ExtractSubrange_spec f a.*1 b.*1 c.*1 cs false Hs) as (f' & E1 & Hs'). eapply runs_lift; [exact E1|]. apply runs_ret.
  split; [unfold own; solve_Permutation|done].
Qed.

Lemma update_spec g ls p x ls' cs : runs (update p g) (own (ls ++ (p, x) :: ls') cs) (λ _ l', l' ≡ₚ own (ls ++ (p, g x) :: ls') cs).
Proof.
  eapply (runs_perm _ _ ((p, x) :: ls ++ ls' ++ cleared cs)); [unfold own; solve_Permutation|].
  intros h fr Hh. destruct (runs_update p g x (λ _, mret tt) (ls ++ ls' ++ cleared cs) (λ _ l', l' ≡ₚ own (ls ++ (p, g x) :: ls') cs)) with (h := h) (fr := fr) as (a & h' & l' & E1 & H1 & H2).
  - apply runs_ret. unfold own. solve_Permutation.
  - done.
  - exists a, h', l'. split_and!; [|done|done]. destruct a. unfold mbind, M_bind in E1. by destruct (update p g h) as [[[] ?]| |].
Qed.
End Field.
