(* ===== verification/RepeatedFieldUse.v ===== *)
(** Programs that use repeated fields (RepeatedField.v): fields that are filled, merged,
    copied, swapped and cut, and elements that pass between them and the user.  They
    behave as lists, and destroying the fields deletes each element once and leaves
    what the user owns. *)

From S2P Require Import Prelude RepeatedField RepeatedFieldFacts WireFormat WireFormatFacts BaseCmd BaseCmdFacts.

(** What a type handler owes a field: cleared elements are as good as new ones. *)
Class HandlerLaws (E : Type) `{TypeHandler E} := handler_clears : ∀ x : E, handler_Clear x = handler_New.

(** [GenericTypeHandler] of a message, and [StringTypeHandler]. *)
#[export] Instance message_handler {M} `{Message M} : TypeHandler M := {
  handler_New := New;
  handler_Clear := Clear;
  handler_Merge := MergeFrom
}.
#[export] Instance message_handler_laws {M} `{MessageLaws M} : HandlerLaws M := law_clear.

#[export] Instance string_handler : TypeHandler bytes := {
  handler_New := [];
  handler_Clear _ := [];
  handler_Merge _ from := from
}.
#[export] Instance string_handler_laws : HandlerLaws bytes.
Proof. done. Qed.

(** ** Programs *)

Section Use.
Import RepeatedField.RepeatedPtrField.
Context {E : Type} `{HandlerLaws E}.

(** The fields, and the elements the user has pointers to and must delete. *)
Record Sys := mk_Sys { fields : list RepeatedPtrField; loose : list nat }.

Inductive use :=
  | UAdd (i : nat) (g : E → E)
  | UMutable (i k : nat) (g : E → E)
  | URemoveLast (i : nat)
  | UClear (i : nat)
  | UReserve (i : nat) (n : Z)
  | USwapElements (i k1 k2 : nat)
  | UMergeFrom (i j : nat)
  | UCopyFrom (i j : nat)
  | USwap (i j : nat)
  | UAddAllocated (i k : nat)
  | UReleaseLast (i : nat)
  | UExtractSubrange (i start num : nat)
  | UDeleteSubrange (i start num : nat)
  | UNew (x : E)
  | UDelete (k : nat).

Definition the {A} (o : option A) : outcome A := match o with Some a => Ok a | None => Undefined end.
Definition set_field (i : nat) (f : RepeatedPtrField) (s : Sys) : Sys := mk_Sys (<[i := f]> (fields s)) (loose s).
Definition set_loose (ps : list nat) (s : Sys) : Sys := mk_Sys (fields s) ps.

(** [*field.Add() = ...], [*field.Mutable(k) = ...]. *)
Definition add_filled (g : E → E) (f : RepeatedPtrField) : M E RepeatedPtrField := '(p, f) ← Add f; _ ← update p g; mret f.
Definition edit (k : Z) (g : E → E) (f : RepeatedPtrField) : M E RepeatedPtrField := p ← lift (Mutable k f); _ ← update p g; mret f.

Definition do_use (u : use) (s : Sys) : M E Sys :=
  match u with
  | UAdd i g => f ← lift (the (fields s !! i)); f ← add_filled g f; mret (set_field i f s)
  | UMutable i k g => f ← lift (the (fields s !! i)); f ← edit (Z.of_nat k) g f; mret (set_field i f s)
  | URemoveLast i => f ← lift (the (fields s !! i)); f ← RemoveLast f; mret (set_field i f s)
  | UClear i => f ← lift (the (fields s !! i)); f ← RepeatedPtrField.Clear f; mret (set_field i f s)
  | UReserve i n => f ← lift (the (fields s !! i)); f ← lift (Reserve n f); mret (set_field i f s)
  | USwapElements i k1 k2 => f ← lift (the (fields s !! i)); f ← lift (SwapElements (Z.of_nat k1) (Z.of_nat k2) f); mret (set_field i f s)
  | UMergeFrom i j => f ← lift (the (fields s !! i)); other ← lift (the (fields s !! j)); f ← RepeatedPtrField.MergeFrom other f; mret (set_field i f s)
  | UCopyFrom i j => f ← lift (the (fields s !! i)); other ← lift (the (fields s !! j)); f ← RepeatedPtrField.CopyFrom other f; mret (set_field i f s)
  | USwap i j =>
      f ← lift (the (fields s !! i)); other ← lift (the (fields s !! j));
      let '(f, other) := InternalSwap f other in mret (set_field j other (set_field i f s))
  | UAddAllocated i k =>
      f ← lift (the (fields s !! i)); p ← lift (the (loose s !! k)); f ← AddAllocated p f;
      mret (set_loose (delete k (loose s)) (set_field i f s))
  | UReleaseLast i => f ← lift (the (fields s !! i)); '(p, f) ← lift (ReleaseLast f); mret (set_loose (loose s ++ [p]) (set_field i f s))
  | UExtractSubrange i start num =>
      f ← lift (the (fields s !! i)); '(ps, f) ← lift (ExtractSubrange (Z.of_nat start) (Z.of_nat num) true f);
      mret (set_loose (loose s ++ ps) (set_field i f s))
  | UDeleteSubrange i start num => f ← lift (the (fields s !! i)); f ← DeleteSubrange (Z.of_nat start) (Z.of_nat num) f; mret (set_field i f s)
  | UNew x => p ← alloc x; mret (set_loose (loose s ++ [p]) s)
  | UDelete k => p ← lift (the (loose s !! k)); _ ← delete_object p; mret (set_loose (delete k (loose s)) s)
  end.

Fixpoint do_uses (us : list use) (s : Sys) : M E Sys := match us with [] => mret s | u :: us => s ← do_use u s; do_uses us s end.

Fixpoint destroy_all (fs : list RepeatedPtrField) : M E unit :=
  match fs with [] => mret tt | f :: fs => _ ← Destroy f; destroy_all fs end.

(** ** The same on lists *)

Definition Abs : Type := list (list E) * list E.

(** [None]: the caller breaks a precondition, or a field grows beyond [most]. *)
Definition abs_use (u : use) (A : Abs) : option Abs :=
  let '(xss, ys) := A in
  match u with
  | UAdd i g => xs ← xss !! i; if zlen xs <? most then Some (<[i := xs ++ [g handler_New]]> xss, ys) else None
  | UMutable i k g => xs ← xss !! i; x ← xs !! k; Some (<[i := <[k := g x]> xs]> xss, ys)
  | URemoveLast i => xs ← xss !! i; match xs with [] => None | _ => Some (<[i := take (pred (length xs)) xs]> xss, ys) end
  | UClear i => xs ← xss !! i; Some (<[i := []]> xss, ys)
  | UReserve i n => xs ← xss !! i; if n <=? most then Some (xss, ys) else None
  | USwapElements i k1 k2 =>
      xs ← xss !! i; x1 ← xs !! k1; x2 ← xs !! k2;
      if (k1 <? k2)%nat then Some (<[i := <[k2 := x1]> (<[k1 := x2]> xs)]> xss, ys) else None
  | UMergeFrom i j =>
      xs ← xss !! i; xs' ← xss !! j;
      if bool_decide (i ≠ j) && (zlen xs + zlen xs' <=? most) then Some (<[i := xs ++ map (handler_Merge handler_New) xs']> xss, ys) else None
  | UCopyFrom i j =>
      xs ← xss !! i; xs' ← xss !! j;
      if bool_decide (i ≠ j) && (zlen xs' <=? most) then Some (<[i := map (handler_Merge handler_New) xs']> xss, ys) else None
  | USwap i j => xs ← xss !! i; xs' ← xss !! j; if bool_decide (i ≠ j) then Some (<[j := xs]> (<[i := xs']> xss), ys) else None
  | UAddAllocated i k => xs ← xss !! i; y ← ys !! k; if zlen xs <? most then Some (<[i := xs ++ [y]]> xss, delete k ys) else None
  | UReleaseLast i => xs ← xss !! i; x ← last xs; Some (<[i := take (pred (length xs)) xs]> xss, ys ++ [x])
  | UExtractSubrange i start num =>
      xs ← xss !! i;
      if (start + num <=? length xs)%nat then Some (<[i := take start xs ++ drop (start + num) xs]> xss, ys ++ take num (drop start xs)) else None
  | UDeleteSubrange i start num =>
      xs ← xss !! i;
      if (start + num <=? length xs)%nat then Some (<[i := take start xs ++ drop (start + num) xs]> xss, ys) else None
  | UNew x => Some (xss, ys ++ [x])
  | UDelete k => y ← ys !! k; Some (xss, delete k ys)
  end.

Fixpoint abs_uses (us : list use) (A : Abs) : option Abs := match us with [] => Some A | u :: us => A ← abs_use u A; abs_uses us A end.

(** ** Fields as lists *)

Implicit Types (f : RepeatedPtrField) (xs : list E) (l : list (nat * E)).

Definition field_is f xs l : Prop := ∃ ls cs, xs = ls.*2 ∧ shape f ls.*1 cs ∧ l ≡ₚ own ls cs.

Lemma field_is_perm f xs l l' : l ≡ₚ l' → field_is f xs l → field_is f xs l'.
Proof. intros El (ls & cs & Ex & Hs & Eo). exists ls, cs. by rewrite <- El. Qed.

Lemma field_new : field_is new_RepeatedPtrField [] [].
Proof. by exists [], []. Qed.

Lemma field_new_nil xs l : field_is new_RepeatedPtrField xs l → l = [].
Proof.
  intros (ls & cs & _ & Hs & Eo). destruct (sh_rep _ _ _ Hs) as (->%fmap_nil_inv & -> & _).
  by apply Permutation_nil.
Qed.

Lemma zlen_snd xs (ls : list (nat * E)) : xs = ls.*2 → zlen xs = zlen ls.
Proof. intros ->. apply zlen_fmap. Qed.

Lemma runs_lift_ret {A} (o : outcome A) a l (post : A → list (nat * E) → Prop) : o = Ok a → post a l → runs (lift o) l post.
Proof. intros -> Hp h fr Hh. by exists a, h, l. Qed.

(** A specification of an operation for the list it makes. *)
Definition does (m : M E RepeatedPtrField) f xs xs' : Prop :=
  ∀ l, field_is f xs l → runs m l (λ f' l', field_is f' xs' l').

Lemma does_intro m f xs xs' :
  (∀ ls cs, xs = ls.*2 → shape f ls.*1 cs → runs m (own ls cs) (λ f' l', field_is f' xs' l')) → does m f xs xs'.
Proof. intros Hm l (ls & cs & Ex & Hs & Eo). by eapply runs_perm; [exact Eo|apply Hm]. Qed.

Lemma add_filled_does g f xs : zlen xs < most → does (add_filled g f) f xs (xs ++ [g handler_New]).
Proof.
  intros Hb. apply does_intro. intros ls cs -> Hs. rewrite zlen_fmap in Hb. unfold add_filled.
  eapply runs_bind; [by apply ptr_Add_spec|]. intros [p f'] l' (cs' & El & Hs'). eapply runs_perm; [exact El|].
  eapply runs_bind; [apply update_spec|]. cbn beta. intros _ l2 El2. apply runs_ret.
  exists (ls ++ [(p, g handler_New)]), cs'. split_and!; [by rewrite fmap_app|by rewrite fmap_app in *|done].
Qed.

Lemma snd_split (ls : list (nat * E)) k x : ls.*2 !! k = Some x → ∃ a p b, ls = a ++ (p, x) :: b ∧ k = length a.
Proof.
  rewrite list_lookup_fmap, fmap_Some. intros ([p x'] & Hk & ->). apply list_elem_of_split_length in Hk as (a & b & -> & ->).
  by exists a, p, b.
Qed.

Lemma insert_at {A} (a b : list A) x y : <[length a := y]> (a ++ x :: b) = a ++ y :: b.
Proof. by rewrite insert_app_r_alt, Nat.sub_diag by lia. Qed.

Lemma edit_does k g f xs x : xs !! k = Some x → does (edit (Z.of_nat k) g f) f xs (<[k := g x]> xs).
Proof.
  intros Hk. apply does_intro. intros ls cs -> Hs. apply snd_split in Hk as (a & p & b & -> & ->). unfold edit, Mutable.
  rewrite fmap_app in Hs. cbn [fmap list_fmap fst] in Hs.
  eapply runs_lift; [eapply (element_at_here f _ cs a.*1 p (b.*1 ++ cs)); [exact Hs|by rewrite <- app_assoc|by rewrite zlen_fmap]|].
  eapply runs_bind; [apply update_spec|]. cbn beta. intros _ l2 El2. apply runs_ret. exists (a ++ (p, g x) :: b), cs.
  split_and!; [|by rewrite fmap_app|done]. rewrite !fmap_app. cbn [fmap list_fmap snd]. rewrite <- (length_fmap snd a). apply insert_at.
Qed.

Lemma take_pred_snoc {A} (l : list A) x : take (pred (length (l ++ [x]))) (l ++ [x]) = l.
Proof. rewrite length_app. cbn. rewrite Nat.add_1_r. cbn. apply take_app_length. Qed.

Lemma RemoveLast_does f xs : xs ≠ [] → does (RemoveLast f) f xs (take (pred (length xs)) xs).
Proof.
  intros Hne. apply does_intro. intros ls cs -> Hs. destruct ls as [|[p x] ls _] using rev_ind; [done|].
  eapply runs_post; [|by apply RemoveLast_spec; [apply handler_clears|]]. intros f' l' [El Hs']. exists ls, (p :: cs).
  split_and!; [|done|done]. rewrite fmap_app. cbn [fmap list_fmap snd]. apply take_pred_snoc.
Qed.

Lemma Clear_does f xs : does (RepeatedPtrField.Clear f) f xs [].
Proof.
  apply does_intro. intros ls cs -> Hs. eapply runs_post; [|by apply ptr_Clear_spec; [apply handler_clears|]].
  intros f' l' [El Hs']. by exists [], (ls.*1 ++ cs).
Qed.

Lemma Reserve_does n f xs : n <= most → does (lift (Reserve n f)) f xs xs.
Proof.
  intros Hn. apply does_intro. intros ls cs -> Hs. destruct (ptr_Reserve_spec n f _ _ Hs Hn) as (f' & E1 & Hs' & _).
  eapply runs_lift_ret; [exact E1|]. by exists ls, cs.
Qed.

Lemma SwapElements_does k1 k2 f xs x1 x2 : xs !! k1 = Some x1 → xs !! k2 = Some x2 → (k1 < k2)%nat →
  does (lift (SwapElements (Z.of_nat k1) (Z.of_nat k2) f)) f xs (<[k2 := x1]> (<[k1 := x2]> xs)).
Proof.
  intros H1 H2 Hlt. apply does_intro. intros ls cs -> Hs. apply snd_split in H1 as (a & p & b & -> & ->).
  rewrite fmap_app, lookup_app_r in H2 by (rewrite length_fmap; lia). rewrite length_fmap in H2. cbn [fmap list_fmap snd] in H2.
  destruct (k2 - length a)%nat as [|k] eqn:Ek; [lia|]. apply snd_split in H2 as (b' & q & c & -> & ->).
  rewrite fmap_app in Hs. cbn [fmap list_fmap fst] in Hs. rewrite fmap_app in Hs. cbn [fmap list_fmap fst] in Hs.
  destruct (ptr_SwapElements_spec f a.*1 p b'.*1 q c.*1 cs Hs) as (f' & E1 & Hs'). eapply runs_lift_ret.
  { rewrite <- E1. f_equal; [by rewrite <- (length_fmap fst a)|]. unfold zlen. rewrite length_app. cbn. rewrite !length_fmap. lia. }
  exists (a ++ (q, x2) :: b' ++ (p, x1) :: c), cs. split_and!.
  - rewrite !fmap_app. cbn [fmap list_fmap snd]. rewrite !fmap_app. cbn [fmap list_fmap snd]. rewrite <- (length_fmap snd a), insert_at.
    rewrite insert_app_r_alt by (rewrite length_fmap; lia). f_equal. rewrite length_fmap, Ek. cbn. f_equal.
    rewrite <- (length_fmap snd b'). apply insert_at.
  - rewrite fmap_app. cbn [fmap list_fmap fst]. by rewrite fmap_app.
  - unfold own. solve_Permutation.
Qed.

Lemma cut_spec (ls : list (nat * E)) start num : (start + num <= length ls)%nat → ∃ a b c, ls = a ++ b ++ c ∧ length a = start ∧ length b = num.
Proof.
  intros Hl. exists (take start ls), (take num (drop start ls)), (drop num (drop start ls)). rewrite !take_drop.
  rewrite !length_take, length_drop. split_and!; [done|lia|lia].
Qed.

Lemma cut_lists {A} (a b c : list A) : take (length a) (a ++ b ++ c) ++ drop (length a + length b) (a ++ b ++ c) = a ++ c ∧
  take (length b) (drop (length a) (a ++ b ++ c)) = b.
Proof.
  rewrite take_app_length, drop_app_length, take_app_length. split; [|done]. f_equal.
  rewrite app_assoc, <- length_app. apply drop_app_length.
Qed.

Lemma DeleteSubrange_does start num f xs : (start + num <= length xs)%nat →
  does (DeleteSubrange (Z.of_nat start) (Z.of_nat num) f) f xs (take start xs ++ drop (start + num) xs).
Proof.
  intros Hl. apply does_intro. intros ls cs -> Hs. rewrite length_fmap in Hl. destruct (cut_spec ls start num Hl) as (a & b & c & -> & <- & <-).
  eapply runs_post; [|by apply DeleteSubrange_spec]. intros f' l' [El Hs']. exists (a ++ c), cs. split_and!; [|done|done].
  rewrite !fmap_app, <- (length_fmap snd a), <- (length_fmap snd b). apply cut_lists.
Qed.

(** *** Two fields, and elements that change hands *)

Definition joins (m : M E RepeatedPtrField) f other xs xs' ys : Prop :=
  ∀ l k, field_is f xs l → field_is other ys k → runs m (l ++ k) (λ f' l', ∃ l0, l' ≡ₚ l0 ++ k ∧ field_is f' xs' l0).

Lemma joins_intro (m : M E RepeatedPtrField) f other xs xs' ys :
  (∀ ls cs ks ds, xs = ls.*2 → ys = ks.*2 → shape f ls.*1 cs → shape other ks.*1 ds → runs m (own ls cs ++ ks)
    (λ f' l', ∃ made cs', made.*2 = xs' ∧ l' ≡ₚ own made cs' ++ ks ∧ shape f' made.*1 cs')) → joins m f other xs xs' ys.
Proof.
  intros Hm l k (ls & cs & Ex & Hs & El) (ks & ds & Ey & Ho & Ek).
  eapply (runs_perm _ _ ((own ls cs ++ ks) ++ cleared ds)); [rewrite El, Ek; unfold own; solve_Permutation|].
  eapply runs_post; [|apply runs_frame, (Hm ls cs ks ds Ex Ey Hs Ho)].
  intros f' l' (l0 & -> & made & cs' & Em & E0 & Hs'). exists (own made cs'). split; [rewrite E0, Ek; unfold own; solve_Permutation|].
  by exists made, cs'.
Qed.

Lemma MergeFrom_joins f other xs ys : zlen xs + zlen ys <= most →
  joins (RepeatedPtrField.MergeFrom other f) f other xs (xs ++ map (handler_Merge handler_New) ys) ys.
Proof.
  intros Hb. apply joins_intro. intros ls cs ks ds -> -> Hs Ho. rewrite !zlen_fmap in Hb.
  eapply runs_post; [|by apply (ptr_MergeFrom_spec other f ls cs ks ds)]. intros f' l' (made & cs' & Em & El & Hs').
  exists (ls ++ made), cs'. split_and!; [|done|done]. by rewrite fmap_app, Em.
Qed.

Lemma CopyFrom_joins f other xs ys : zlen ys <= most →
  joins (RepeatedPtrField.CopyFrom other f) f other xs (map (handler_Merge handler_New) ys) ys.
Proof.
  intros Hb. apply joins_intro. intros ls cs ks ds -> -> Hs Ho. rewrite zlen_fmap in Hb.
  eapply runs_post; [|by apply (ptr_CopyFrom_spec handler_clears other f ls cs ks ds)]. eauto.
Qed.

Lemma AddAllocated_takes p y f xs l : zlen xs < most → field_is f xs l →
  runs (AddAllocated p f) (l ++ [(p, y)]) (λ f' l', field_is f' (xs ++ [y]) l').
Proof.
  intros Hb (ls & cs & -> & Hs & El). rewrite zlen_fmap in Hb. eapply runs_perm; [by rewrite El|].
  eapply runs_post; [|by apply AddAllocated_spec]. intros f' l' (cs' & El' & Hs'). exists (ls ++ [(p, y)]), cs'.
  split_and!; [by rewrite fmap_app|done|done].
Qed.

Lemma ReleaseLast_gives f xs x l : last xs = Some x → field_is f xs l →
  ∃ p f' l', ReleaseLast f = Ok (p, f') ∧ l ≡ₚ l' ++ [(p, x)] ∧ field_is f' (take (pred (length xs)) xs) l'.
Proof.
  intros Hx (ls & cs & -> & Hs & El). destruct ls as [|[p x'] ls _] using rev_ind; [done|].
  rewrite fmap_app in Hx. rewrite fmap_app in Hs. rewrite fmap_app. cbn [fmap list_fmap fst snd] in Hx, Hs |- *. rewrite last_snoc in Hx. injection Hx as ->.
  destruct (ReleaseLast_spec f ls.*1 p cs Hs) as (f' & cs' & E1 & Ec & Hs'). exists p, f', (own ls cs'). split_and!; [done| |].
  - rewrite El. unfold own, cleared. rewrite Ec. solve_Permutation.
  - exists ls, cs'. split_and!; [by rewrite take_pred_snoc|done|done].
Qed.

Lemma ExtractSubrange_gives f xs start num l : (start + num <= length xs)%nat → field_is f xs l →
  ∃ b f' l', ExtractSubrange (Z.of_nat start) (Z.of_nat num) true f = Ok (b.*1, f') ∧ b.*2 = take num (drop start xs) ∧ l ≡ₚ l' ++ b ∧
    field_is f' (take start xs ++ drop (start + num) xs) l'.
Proof.
  intros Hl (ls & cs & -> & Hs & El). rewrite length_fmap in Hl. destruct (cut_spec ls start num Hl) as (a & b & c & -> & <- & <-).
  rewrite !fmap_app in Hs. destruct (ptr_ExtractSubrange_spec f a.*1 b.*1 c.*1 cs true Hs) as (f' & E1 & Hs').
  exists b, f', (own (a ++ c) cs). rewrite !zlen_fmap in E1. pose proof (cut_lists a.*2 b.*2 c.*2) as [Hc1 Hc2].
  rewrite !length_fmap in Hc1, Hc2. rewrite !fmap_app. split_and!; [exact E1|by rewrite Hc2|rewrite El; unfold own; solve_Permutation|].
  exists (a ++ c), cs. rewrite !fmap_app. by split_and!.
Qed.

(** ** All fields *)

Inductive fields_are : list RepeatedPtrField → list (list E) → list (nat * E) → Prop :=
  | fields_nil : fields_are [] [] []
  | fields_cons f fs xs xss l k m : field_is f xs l → fields_are fs xss k → m ≡ₚ l ++ k → fields_are (f :: fs) (xs :: xss) m.

Lemma fields_are_perm fs xss l l' : l ≡ₚ l' → fields_are fs xss l → fields_are fs xss l'.
Proof.
  intros El Hf. destruct Hf as [|f fs xs xss l0 k m Hf Hfs Em]; [apply Permutation_nil in El as ->; constructor|].
  eapply fields_cons; [done|done|by rewrite <- El].
Qed.

(** One field can be taken out and a new one put in its place. *)
Lemma take_field fs xss l i xs : fields_are fs xss l → xss !! i = Some xs →
  ∃ f l1 l2, fs !! i = Some f ∧ field_is f xs l1 ∧ l ≡ₚ l1 ++ l2 ∧
    ∀ f' xs' l1', field_is f' xs' l1' → fields_are (<[i := f']> fs) (<[i := xs']> xss) (l1' ++ l2).
Proof.
  intros Hf. revert i. induction Hf as [|f fs xs0 xss l0 k m Hf Hfs IH Em]; intros i Hi; [done|]. destruct i as [|i]; cbn in *.
  - injection Hi as ->. exists f, l0, k. split_and!; [done..|]. intros f' xs' l1' Hf'. by eapply fields_cons.
  - destruct (IH i Hi) as (f1 & l1 & l2 & Ef & Hf1 & El & Hput). exists f1, l1, (l0 ++ l2). split_and!; [done|done| |].
    + rewrite Em, El. solve_Permutation.
    + intros f' xs' l1' Hf'. eapply fields_cons; [done|by apply Hput|solve_Permutation].
Qed.

(** Two of them. *)
Lemma take_two fs xss l i j xs ys : fields_are fs xss l → i ≠ j → xss !! i = Some xs → xss !! j = Some ys →
  ∃ f other l1 l2 l3, fs !! i = Some f ∧ fs !! j = Some other ∧ field_is f xs l1 ∧ field_is other ys l2 ∧ l ≡ₚ l1 ++ l2 ++ l3 ∧
    ∀ f' other' xs' ys' l1' l2', field_is f' xs' l1' → field_is other' ys' l2' →
      fields_are (<[j := other']> (<[i := f']> fs)) (<[j := ys']> (<[i := xs']> xss)) (l1' ++ l2' ++ l3).
Proof.
  intros Hf Hne Hi Hj. destruct (take_field fs xss l i xs Hf Hi) as (f & l1 & lr & Ef & Hf1 & El & Hput).
  assert (Hilt : (i < length xss)%nat) by (by eapply lookup_lt_Some). assert (Hift : (i < length fs)%nat) by (by eapply lookup_lt_Some).
  destruct (take_field _ _ _ j ys (Hput _ _ _ field_new)) as (other & l2 & l3 & Eo & Ho & El2 & Hput2); [by rewrite list_lookup_insert_ne|].
  exists f, other, l1, l2, l3. rewrite list_lookup_insert_ne in Eo by done. split_and!; [done..| |].
  - rewrite El. cbn [app] in El2. by rewrite El2.
  - intros f' other' xs' ys' l1' l2' Hf' Ho'. specialize (Hput2 _ _ _ Ho').
    destruct (take_field _ _ _ i [] Hput2) as (f0 & n0 & lr2 & Ef0 & Hn0 & El3 & Hput3).
    { rewrite list_lookup_insert_ne by done. by apply list_lookup_insert_eq. }
    rewrite list_lookup_insert_ne, list_lookup_insert_eq in Ef0 by done. injection Ef0 as <-. apply field_new_nil in Hn0 as ->.
    specialize (Hput3 _ _ _ Hf'). rewrite !(list_insert_insert_ne _ i j), !list_insert_insert_eq in Hput3 by done.
    eapply fields_are_perm; [|exact Hput3]. rewrite <- El3. done.
Qed.

(** What a program holds: the fields, as lists, and its own elements. *)
Definition holds (s : Sys) (A : Abs) l : Prop := ∃ lf lo, fields_are (fields s) A.1 lf ∧ loose s = lo.*1 ∧ A.2 = lo.*2 ∧ l ≡ₚ lf ++ lo.

Lemma holds_intro fs ps A lf lo l : fields_are fs A.1 lf → ps = lo.*1 → A.2 = lo.*2 → l ≡ₚ lf ++ lo → holds (mk_Sys fs ps) A l.
Proof. intros. by exists lf, lo. Qed.

Lemma one_field s xss ys l i xs xs' (m : RepeatedPtrField → M E RepeatedPtrField) : holds s (xss, ys) l → xss !! i = Some xs →
  (∀ f, does (m f) f xs xs') →
  runs (f ← lift (the (fields s !! i)); f ← m f; mret (set_field i f s)) l (λ s' l', holds s' (<[i := xs']> xss, ys) l').
Proof.
  intros (lf & lo & Hf & Ep & Ey & El) Hi Hm. destruct (take_field _ _ _ _ _ Hf Hi) as (f & l1 & l2 & Ef & Hf1 & Elf & Hput).
  eapply runs_lift; [by rewrite Ef|]. eapply runs_bind.
  { eapply (runs_perm _ _ (l1 ++ l2 ++ lo)); [rewrite El, Elf; solve_Permutation|]. apply runs_frame, (Hm f _ Hf1). }
  cbn beta. intros f' l' (l0 & -> & Hf'). apply runs_ret. eapply holds_intro; [by apply Hput|done|done|solve_Permutation].
Qed.

Lemma two_fields s xss ys l i j xs xs0 xs' (m : RepeatedPtrField → RepeatedPtrField → M E RepeatedPtrField) : holds s (xss, ys) l →
  i ≠ j → xss !! i = Some xs → xss !! j = Some xs0 → (∀ f other, joins (m other f) f other xs xs' xs0) →
  runs (f ← lift (the (fields s !! i)); other ← lift (the (fields s !! j)); f ← m other f; mret (set_field i f s)) l
    (λ s' l', holds s' (<[i := xs']> xss, ys) l').
Proof.
  intros (lf & lo & Hf & Ep & Ey & El) Hne Hi Hj Hm.
  destruct (take_two _ _ _ i j _ _ Hf Hne Hi Hj) as (f & other & l1 & l2 & l3 & Ef & Eo & Hf1 & Ho & Elf & Hput).
  eapply runs_lift; [by rewrite Ef|]. eapply runs_lift; [by rewrite Eo|]. eapply runs_bind.
  { eapply (runs_perm _ _ ((l1 ++ l2) ++ l3 ++ lo)); [rewrite El, Elf; solve_Permutation|]. apply runs_frame, (Hm f other _ _ Hf1 Ho). }
  cbn beta. intros f' l' (l0 & -> & l1' & El0 & Hf'). apply runs_ret. specialize (Hput _ _ _ _ _ _ Hf' Ho).
  rewrite (list_insert_insert_ne (fields s)), (list_insert_insert_ne xss), (list_insert_id (fields s)), (list_insert_id xss) in Hput by done.
  eapply holds_intro; [exact Hput|done|done|rewrite El0; solve_Permutation].
Qed.

Lemma loose_split s xss ys l k y : holds s (xss, ys) l → ys !! k = Some y →
  ∃ p lf la lb, loose s !! k = Some p ∧ fields_are (fields s) xss lf ∧ l ≡ₚ (p, y) :: lf ++ la ++ lb ∧
    delete k (loose s) = (la ++ lb).*1 ∧ delete k ys = (la ++ lb).*2.
Proof.
  intros (lf & lo & Hf & Ep & Ey & El) Hk. cbn in Ey. subst ys. apply snd_split in Hk as (la & p & lb & -> & ->).
  exists p, lf, la, lb. rewrite Ep, !fmap_app. cbn [fmap list_fmap fst snd]. split_and!.
  - rewrite <- (length_fmap fst la). by rewrite list_lookup_middle.
  - done.
  - rewrite El. solve_Permutation.
  - rewrite <- (length_fmap fst la). apply delete_middle.
  - rewrite <- (length_fmap snd la). apply delete_middle.
Qed.

(** Elements that pass between a field and the user. *)
Lemma allocated_in s xss ys l i k xs y : holds s (xss, ys) l → xss !! i = Some xs → ys !! k = Some y → zlen xs < most →
  runs (do_use (UAddAllocated i k) s) l (λ s' l', holds s' (<[i := xs ++ [y]]> xss, delete k ys) l').
Proof.
  intros Hh Hi Hk Hb. destruct (loose_split _ _ _ _ _ _ Hh Hk) as (p & lf & la & lb & Ek & Hf & El & Ed1 & Ed2). cbn [do_use].
  destruct (take_field _ _ _ _ _ Hf Hi) as (f & l1 & l2 & Ef & Hf1 & Elf & Hput).
  eapply runs_lift; [by rewrite Ef|]. eapply runs_lift; [by rewrite Ek|]. eapply runs_bind.
  { eapply (runs_perm _ _ ((l1 ++ [(p, y)]) ++ l2 ++ la ++ lb)); [rewrite El, Elf; solve_Permutation|].
    apply runs_frame, (AddAllocated_takes p y f xs l1 Hb Hf1). }
  cbn beta. intros f' l' (l0 & -> & Hf'). apply runs_ret. eapply holds_intro; [by apply Hput|exact Ed1|exact Ed2|solve_Permutation].
Qed.

Lemma last_out s xss ys l i xs x : holds s (xss, ys) l → xss !! i = Some xs → last xs = Some x →
  runs (do_use (UReleaseLast i) s) l (λ s' l', holds s' (<[i := take (pred (length xs)) xs]> xss, ys ++ [x]) l').
Proof.
  intros (lf & lo & Hf & Ep & Ey & El) Hi Hx. cbn [do_use]. destruct (take_field _ _ _ _ _ Hf Hi) as (f & l1 & l2 & Ef & Hf1 & Elf & Hput).
  eapply runs_lift; [by rewrite Ef|]. destruct (ReleaseLast_gives f xs x l1 Hx Hf1) as (p & f' & l' & E1 & El1 & Hf').
  eapply runs_lift; [exact E1|]. apply runs_ret. eapply (holds_intro _ _ _ _ (lo ++ [(p, x)])); [by apply Hput| | |].
  - by rewrite fmap_app, Ep.
  - cbn in *. by rewrite fmap_app, Ey.
  - rewrite El, Elf, El1. solve_Permutation.
Qed.

Lemma range_out s xss ys l i xs start num : holds s (xss, ys) l → xss !! i = Some xs → (start + num <= length xs)%nat →
  runs (do_use (UExtractSubrange i start num) s) l
    (λ s' l', holds s' (<[i := take start xs ++ drop (start + num) xs]> xss, ys ++ take num (drop start xs)) l').
Proof.
  intros (lf & lo & Hf & Ep & Ey & El) Hi Hx. cbn [do_use]. destruct (take_field _ _ _ _ _ Hf Hi) as (f & l1 & l2 & Ef & Hf1 & Elf & Hput).
  eapply runs_lift; [by rewrite Ef|]. destruct (ExtractSubrange_gives f xs start num l1 Hx Hf1) as (b & f' & l' & E1 & Eb & El1 & Hf').
  eapply runs_lift; [exact E1|]. apply runs_ret. eapply (holds_intro _ _ _ _ (lo ++ b)); [by apply Hput| | |].
  - by rewrite fmap_app, Ep.
  - cbn in *. by rewrite fmap_app, Ey, Eb.
  - rewrite El, Elf, El1. solve_Permutation.
Qed.

Lemma swapped s xss ys l i j xs xs0 : holds s (xss, ys) l → i ≠ j → xss !! i = Some xs → xss !! j = Some xs0 →
  runs (do_use (USwap i j) s) l (λ s' l', holds s' (<[j := xs]> (<[i := xs0]> xss), ys) l').
Proof.
  intros (lf & lo & Hf & Ep & Ey & El) Hne Hi Hj. cbn [do_use].
  destruct (take_two _ _ _ i j _ _ Hf Hne Hi Hj) as (f & other & l1 & l2 & l3 & Ef & Eo & Hf1 & Ho & Elf & Hput).
  eapply runs_lift; [by rewrite Ef|]. eapply runs_lift; [by rewrite Eo|]. apply runs_ret.
  eapply holds_intro; [by apply Hput|done|done|rewrite El, Elf; solve_Permutation].
Qed.

Lemma deleted s xss ys l k y : holds s (xss, ys) l → ys !! k = Some y → runs (do_use (UDelete k) s) l (λ s' l', holds s' (xss, delete k ys) l').
Proof.
  intros Hh Hk. destruct (loose_split _ _ _ _ _ _ Hh Hk) as (p & lf & la & lb & Ek & Hf & El & Ed1 & Ed2). cbn [do_use].
  eapply runs_lift; [by rewrite Ek|]. eapply runs_perm; [exact El|]. apply runs_delete, runs_ret. by eapply holds_intro.
Qed.

Lemma made s xss ys l x : holds s (xss, ys) l → runs (do_use (UNew x) s) l (λ s' l', holds s' (xss, ys ++ [x]) l').
Proof.
  intros (lf & lo & Hf & Ep & Ey & El). cbn [do_use]. apply runs_alloc. intros p. apply runs_ret.
  eapply (holds_intro _ _ _ _ (lo ++ [(p, x)])); [done| | |rewrite El; solve_Permutation].
  - by rewrite fmap_app, Ep.
  - cbn in *. by rewrite fmap_app, Ey.
Qed.

(** Each use does on the fields what it does on the lists. *)
Lemma use_runs u s A A' l : holds s A l → abs_use u A = Some A' → runs (do_use u s) l (λ s' l', holds s' A' l').
Proof.
  destruct A as [xss ys]. intros Hh HA.
  destruct u as [i g|i k g|i|i|i n|i k1 k2|i j|i j|i j|i k|i|i start num|i start num|x|k]; cbn [abs_use] in HA;
    repeat match goal with H : (_ ≫= _) = Some _ |- _ => apply bind_Some in H as (? & ? & ?) end;
    repeat match goal with H : (if ?b then _ else None) = Some _ |- _ => destruct b eqn:?; [|done] end;
    repeat match goal with H : Some _ = Some _ |- _ => injection H as <- end; zbool;
    repeat match goal with
    | H : bool_decide _ = true |- _ => apply bool_decide_eq_true in H
    | H : (_ <? _)%nat = true |- _ => apply Nat.ltb_lt in H
    | H : (_ <=? _)%nat = true |- _ => apply Nat.leb_le in H
    end.
  - eapply one_field; [done|done|]. intros f. by apply add_filled_does.
  - eapply one_field; [done|done|]. intros f. by apply edit_does.
  - destruct x; [done|]. match goal with H : Some _ = Some _ |- _ => injection H as <- end.
    eapply one_field; [done|done|]. intros f. by apply RemoveLast_does.
  - eapply one_field; [done|done|]. intros f. apply Clear_does.
  - rewrite <- (list_insert_id xss i x) by done. apply (one_field s xss ys l i x x (λ f, lift (Reserve n f)) Hh); [done|]. intros f. by apply Reserve_does.
  - eapply (one_field s xss ys l i _ _ (λ f, lift (SwapElements (Z.of_nat k1) (Z.of_nat k2) f)) Hh); [done|]. intros f. by apply SwapElements_does.
  - eapply two_fields; [done..|]. intros f other. by apply MergeFrom_joins.
  - eapply two_fields; [done..|]. intros f other. by apply CopyFrom_joins.
  - by apply swapped.
  - by apply allocated_in.
  - by apply last_out.
  - by apply range_out.
  - eapply one_field; [done|done|]. intros f. by apply DeleteSubrange_does.
  - by apply made.
  - by eapply deleted.
Qed.

Lemma uses_run us : ∀ s A A' l, holds s A l → abs_uses us A = Some A' → runs (do_uses us s) l (λ s' l', holds s' A' l').
Proof.
  induction us as [|u us IH]; intros s A A' l Hh HA; cbn [abs_uses do_uses] in *; [injection HA as <-; by apply runs_ret|].
  apply bind_Some in HA as (A1 & H1 & H2). eapply runs_bind; [exact (use_runs _ _ _ _ _ Hh H1)|]. intros s1 l1 Hh1. exact (IH _ _ _ _ Hh1 H2).
Qed.

Lemma destroy_runs fs xss l : fields_are fs xss l → runs (destroy_all fs) l (λ _ l', l' = []).
Proof.
  induction 1 as [|f fs xs xss l k m (ls & cs & -> & Hs & El) Hfs IH Em]; cbn [destroy_all]; [by apply runs_ret|].
  eapply runs_perm; [rewrite Em, El; reflexivity|]. eapply runs_bind; [apply runs_frame, (Destroy_spec f ls cs Hs)|].
  cbn beta. intros _ l' (l0 & -> & ->). exact IH.
Qed.

Lemma fields_start n : fields_are (replicate n new_RepeatedPtrField) (replicate n []) [].
Proof. induction n as [|n IH]; [constructor|]. eapply fields_cons; [apply field_new|exact IH|done]. Qed.

(** C13: repeated fields are lists.  Whatever a program does with its fields - add and
    fill elements, edit, remove, clear, merge, copy and swap fields, hand elements in
    and take them out, cut ranges - as long as it keeps the preconditions and no field
    grows beyond 2^28 elements: nothing it does is undefined, each field has the
    elements the list operations make (a reused element is as good as a new one, and
    merging appends [Merge] of new elements, as the generated messages take it), and
    when the fields are destroyed, every element has been deleted exactly once but
    those the program itself owns, which are intact. *)
Theorem repeated_fields_are_lists n us xss ys : abs_uses us (replicate n [], []) = Some (xss, ys) →
  ∃ s h h', do_uses us (mk_Sys (replicate n new_RepeatedPtrField) []) new_Heap = Ok (s, h) ∧
    length (fields s) = length xss ∧
    (∀ i xs, xss !! i = Some xs → ∃ f, fields s !! i = Some f ∧ size f = zlen xs ∧
       ∀ k x, xs !! k = Some x → Get (Z.of_nat k) f h = Ok (x, h)) ∧
    destroy_all (fields s) h = Ok (tt, h') ∧
    NoDup (loose s) ∧ objects h' = list_to_map (zip (loose s) ys) ∧ length (loose s) = length ys.
Proof.
  intros HA. assert (Hstart : holds (mk_Sys (replicate n new_RepeatedPtrField) []) (replicate n [], []) []).
  { eapply (holds_intro _ _ _ [] []); [apply fields_start|done..]. }
  destruct (uses_run us _ _ _ [] Hstart HA new_Heap [] heap_new) as (s & h & l & E1 & Hh & lf & lo & Hf & Ep & Ey & El). cbn in Ey.
  rewrite app_nil_r, El in Hh. destruct (destroy_runs _ _ _ Hf h lo Hh) as ([] & h' & l' & E2 & Hh' & ->).
  exists s, h, h'. split_and!; [done| | |done| | |].
  - clear -Hf. cbn in Hf. induction Hf as [|f fs xs xss l k m Hf1 Hfs IH Em]; [done|]. cbn. by rewrite IH.
  - intros i xs Hi. destruct (take_field _ _ _ _ _ Hf Hi) as (f & l1 & l2 & Ef & (ls & cs & -> & Hs & El1) & Elf & _). exists f.
    split_and!; [done|unfold size; rewrite (sh_current _ _ _ Hs), !zlen_fmap; done|].
    intros k x Hk. apply snd_split in Hk as (a & p & b & -> & ->). unfold Get. rewrite fmap_app in Hs. cbn [fmap list_fmap fst] in Hs.
    assert (Hx : objects h !! p = Some x).
    { apply (heap_lookup _ (a ++ b ++ cleared cs ++ l2 ++ lo)). eapply heap_is_perm; [|exact Hh]. rewrite Elf, El1. unfold own. solve_Permutation. }
    unfold mbind, M_bind, lift. rewrite (element_at_here f _ cs a.*1 p (b.*1 ++ cs)) by (exact Hs || (by rewrite <- app_assoc) || by rewrite zlen_fmap).
    unfold load. by rewrite Hx.
  - rewrite Ep. apply Hh'.
  - rewrite (hp_objects _ _ Hh'), Ep, Ey. cbn. by rewrite zip_fst_snd.
  - by rewrite Ep, Ey, !length_fmap.
Qed.
End Use.

(** Two fields of phone numbers: added, cleared and added again, merged, and one taken
    out. *)
Definition phone (n : Z) : sUser_ePhoneNumber := set_sUser_ePhoneNumber_type New n.

Definition phones_program : list (use (E := sUser_ePhoneNumber)) :=
  [UAdd 0 (λ m, set_sUser_ePhoneNumber_type m 1); UAdd 0 (λ m, set_sUser_ePhoneNumber_type m 2); UClear 0;
   UAdd 0 (λ m, set_sUser_ePhoneNumber_type m 3); UAdd 1 (λ m, set_sUser_ePhoneNumber_type m 4); UMergeFrom 0 1; UReleaseLast 0;
   UNew (phone 5); UAddAllocated 1 1; USwap 0 1].

Lemma repeated_fields_are_lists_witness : ∃ s h h',
  do_uses phones_program (mk_Sys (replicate 2 RepeatedPtrField.new_RepeatedPtrField) []) new_Heap = Ok (s, h) ∧
  length (fields s) = 2%nat ∧
  (∀ i xs, [[phone 4; phone 5]; [phone 3]] !! i = Some xs → ∃ f, fields s !! i = Some f ∧ RepeatedPtrField.size f = zlen xs ∧
     ∀ k x, xs !! k = Some x → RepeatedPtrField.Get (Z.of_nat k) f h = Ok (x, h)) ∧
  destroy_all (fields s) h = Ok (tt, h') ∧
  NoDup (loose s) ∧ objects h' = list_to_map (zip (loose s) [phone 4]) ∧ length (loose s) = 1%nat.
Proof.
  apply (repeated_fields_are_lists 2 phones_program [[phone 4; phone 5]; [phone 3]] [phone 4]). by vm_compute.
Defined.
