(* ===== verification/ScalarField.v ===== *)
(** [RepeatedField], the repeated fields of the protobuf runtime whose elements are
    plain values (Shared/protobuf/src/google/protobuf/repeated_field.h), with the lists
    they stand for.

    The array is a list of slots; a slot nothing was written to is [None], and what a
    removed element leaves behind stays there.  Code that leaves the array, reads such a
    slot, reads freed memory or overflows an [int] is [Undefined].  The checks of debug
    builds are not part of the model: the lemmas show where they hold.  Fields are not
    on an arena. *)

From S2P Require Import Prelude RepeatedField.

Module ScalarField.
Section ScalarField.
Context {E : Type}.

(** [elements] is [rep()->elements], empty as long as nothing is allocated. *)
Record RepeatedField := mk_RepeatedField {
  current_size_ : Z;
  total_size_ : Z;
  elements : list (option E)
}.

Definition new_RepeatedField : RepeatedField := mk_RepeatedField 0 0 [].

Definition set_current_size (v : Z) (f : RepeatedField) : RepeatedField := mk_RepeatedField v (total_size_ f) (elements f).
Definition set_elements (l : list (option E)) (f : RepeatedField) : RepeatedField :=
  mk_RepeatedField (current_size_ f) (total_size_ f) l.

(** [rep()->elements[i]], and assignment to it. *)
Definition element (f : RepeatedField) (i : Z) : outcome E :=
  if i <? 0 then Undefined
  else match elements f !! Z.to_nat i with Some (Some v) => Ok v | _ => Undefined end.

Definition put_element (i : Z) (v : E) (f : RepeatedField) : outcome RepeatedField :=
  if (0 <=? i) && (i <? zlen (elements f)) then Ok (set_elements (<[Z.to_nat i := Some v]> (elements f)) f) else Undefined.

(** Bytes copied over [n] slots from [i] on. *)
Definition put_slots (i : Z) (l : list (option E)) (f : RepeatedField) : outcome RepeatedField :=
  if (0 <=? i) && (i + zlen l <=? zlen (elements f))
  then Ok (set_elements (take (Z.to_nat i) (elements f) ++ l ++ drop (Z.to_nat i + length l) (elements f)) f)
  else Undefined.

Definition size (f : RepeatedField) : Z := current_size_ f.
Definition empty (f : RepeatedField) : bool := current_size_ f =? 0.
Definition Capacity (f : RepeatedField) : Z := total_size_ f.
Definition Get (i : Z) (f : RepeatedField) : outcome E := element f i.
Definition Set_ (i : Z) (v : E) (f : RepeatedField) : outcome RepeatedField := put_element i v f.

(** A [const Element&] argument: a value elsewhere, or an element of this very field. *)
Inductive argument := Value (v : E) | Own (i : Z).

Definition read_argument (reallocated : bool) (a : argument) (f : RepeatedField) : outcome E :=
  match a with
  | Value v => Ok v
  | Own i => if reallocated then Undefined else element f i
  end.

(** *** Room *)

Section Room.
(** [sizeof(Element)]; the header is a pointer, padded to the alignment. *)
Context (size_of : Z).

Definition kRepHeaderSize : Z := Z.max 4 size_of.

(** A size that does not fit into [size_t] wraps around: the array is then too small for
    what follows. *)
Definition Reserve (new_size : Z) (f : RepeatedField) : outcome RepeatedField :=
  if new_size <=? total_size_ f then Ok f
  else
    doubled ← add_int (total_size_ f) (total_size_ f);
    let new_size := Z.max kMinRepeatedFieldAllocationSize (Z.max doubled new_size) in
    if 2 ^ 32 <=? kRepHeaderSize + size_of * new_size then Undefined
    else
      let kept := take (Z.to_nat (current_size_ f)) (elements f) in
      Ok (mk_RepeatedField (current_size_ f) new_size (kept ++ replicate (Z.to_nat new_size - length kept) None)).

Definition make_room (f : RepeatedField) : outcome RepeatedField :=
  if current_size_ f =? total_size_ f then n ← add_int (total_size_ f) 1; Reserve n f else Ok f.

Definition reallocated (f f' : RepeatedField) : bool := negb (total_size_ f =? total_size_ f').

Definition Add (value : argument) (f : RepeatedField) : outcome RepeatedField :=
  f' ← make_room f;
  v ← read_argument (reallocated f f') value f';
  f' ← put_element (current_size_ f') v f';
  Ok (set_current_size (current_size_ f' + 1) f').

(** [Add()]: the index of the element, whose value is what the slot held. *)
Definition Add_new (f : RepeatedField) : outcome (Z * RepeatedField) :=
  f ← make_room f; Ok (current_size_ f, set_current_size (current_size_ f + 1) f).

Definition AddAlreadyReserved (v : E) (f : RepeatedField) : outcome RepeatedField :=
  f ← put_element (current_size_ f) v f; Ok (set_current_size (current_size_ f + 1) f).

Definition AddNAlreadyReserved (n : Z) (f : RepeatedField) : Z * RepeatedField :=
  (current_size_ f, set_current_size (current_size_ f + n) f).

(** [std::fill] from [current_size_] to [new_size]. *)
Definition Resize (new_size : Z) (value : argument) (f : RepeatedField) : outcome RepeatedField :=
  if current_size_ f <? new_size then
    f' ← Reserve new_size f;
    v ← read_argument (reallocated f f') value f';
    f' ← put_slots (current_size_ f') (replicate (Z.to_nat (new_size - current_size_ f')) (Some v)) f';
    Ok (set_current_size new_size f')
  else Ok (set_current_size new_size f).

Definition RemoveLast (f : RepeatedField) : RepeatedField := set_current_size (current_size_ f - 1) f.
Definition Clear (f : RepeatedField) : RepeatedField := set_current_size 0 f.
Definition Truncate (new_size : Z) (f : RepeatedField) : RepeatedField :=
  if 0 <? current_size_ f then set_current_size new_size f else f.

(** *** Merging, copying, swapping *)

(** The [n] slots from the front on, as [memcpy] reads them. *)
Definition slots (n : Z) (f : RepeatedField) : outcome (list (option E)) :=
  if n <=? zlen (elements f) then Ok (take (Z.to_nat n) (elements f)) else Undefined.

(** [MergeFrom], from another field. *)
Definition MergeFrom (other f : RepeatedField) : outcome RepeatedField :=
  if current_size_ other =? 0 then Ok f
  else
    let existing_size := size f in
    n ← add_int existing_size (size other);
    f ← Reserve n f;
    let '(_, f) := AddNAlreadyReserved (size other) f in
    l ← slots (size other) other;
    put_slots existing_size l f.

Definition CopyFrom (other f : RepeatedField) : outcome RepeatedField := MergeFrom other (Clear f).

(** The copy constructor. *)
Definition copy_RepeatedField (other : RepeatedField) : outcome RepeatedField :=
  if current_size_ other =? 0 then Ok new_RepeatedField
  else
    f ← Reserve (size other) new_RepeatedField;
    let '(_, f) := AddNAlreadyReserved (size other) f in
    l ← slots (size other) other;
    put_slots 0 l f.
End Room.

Definition InternalSwap (f other : RepeatedField) : RepeatedField * RepeatedField := (other, f).
Definition move_RepeatedField (other : RepeatedField) : RepeatedField * RepeatedField := InternalSwap new_RepeatedField other.

Definition SwapElements (index1 index2 : Z) (f : RepeatedField) : outcome RepeatedField :=
  v1 ← element f index1; v2 ← element f index2;
  f ← put_element index1 v2 f; put_element index2 v1 f.

(** *** Ranges *)

(** [Get(i)], ... for [n] elements. *)
Fixpoint elements_from (n : nat) (i : Z) (f : RepeatedField) : outcome (list E) :=
  match n with
  | O => Ok []
  | S n => v ← Get i f; vs ← elements_from n (i + 1) f; Ok (v :: vs)
  end.

(** [n] elements from [i] on move [num] down. *)
Fixpoint shift_down (n : nat) (i num : Z) (f : RepeatedField) : outcome RepeatedField :=
  match n with
  | O => Ok f
  | S n => v ← Get i f; f ← Set_ (i - num) v f; shift_down n (i + 1) num f
  end.

Definition ExtractSubrange (start num : Z) (wanted : bool) (f : RepeatedField) : outcome (list E * RepeatedField) :=
  vs ← (if wanted then elements_from (Z.to_nat num) start f else Ok []);
  if 0 <? num then
    f ← shift_down (Z.to_nat (current_size_ f - (start + num))) (start + num) num f;
    Ok (vs, Truncate (current_size_ f - num) f)
  else Ok (vs, f).

(** [erase(first, last)], for positions: [std::copy(last, cend(), first)]. *)
Definition erase (first last : Z) (f : RepeatedField) : outcome RepeatedField :=
  if first =? last then Ok f
  else
    f ← shift_down (Z.to_nat (current_size_ f - last)) last (last - first) f;
    Ok (Truncate (first + (current_size_ f - last)) f).
End ScalarField.
Arguments RepeatedField : clear implicits.
Arguments argument : clear implicits.
End ScalarField.
