(* ===== verification/ScalarFieldFacts.v ===== *)
(** Repeated fields of plain values are lists (ScalarField.v): every operation does to
    the live elements what the list operation does, within the array, whatever removed
    elements have left behind in it; and what happens when an element of the field is
    handed to a method that reallocates the array. *)

From S2P Require Import Prelude RepeatedField ScalarField.
Import ScalarField.

Section Facts.
Context {E : Type}.
Implicit Types (f : RepeatedField E) (l vs : list E) (g : list (option E)).

(** The most elements the theorems speak of: no size of the array overflows. *)
Definition most : Z := 2 ^ 27.

(** The array holds the live elements [l], then what is left over. *)
Record shape f l : Prop := {
  sh_current : current_size_ f = zlen l;
  sh_total : total_size_ f = zlen (elements f);
  sh_bound : total_size_ f <= 2 * most;
  sh_elements : ∃ g, elements f = (Some <$> l) ++ g
}.

Lemma shape_new : shape new_RepeatedField [].
Proof. split; [done..|]. by exists []. Qed.

Lemma shape_capacity f l : shape f l → zlen l <= Capacity f.
Proof.
  intros Hs. destruct (sh_elements _ _ Hs) as (g & Eg). pose proof (zlen_nonneg g).
  unfold Capacity. rewrite (sh_total _ _ Hs), Eg, zlen_app, zlen_fmap. lia.
Qed.

(** *** Slots *)

(** Room for [n] more elements, in the array. *)
Lemma shape_room f l n : shape f l → 0 <= n → zlen l + n <= Capacity f →
  ∃ m g, elements f = (Some <$> l) ++ m ++ g ∧ zlen m = n.
Proof.
  intros Hs Hn Hle. destruct (sh_elements _ _ Hs) as (g & Eg). unfold Capacity in Hle.
  rewrite (sh_total _ _ Hs), Eg, zlen_app, zlen_fmap in Hle. exists (take (Z.to_nat n) g), (drop (Z.to_nat n) g).
  rewrite take_drop. split; [done|]. rewrite zlen_take; lia.
Qed.

(** The live elements become [l'], which are as many as [current_size_] says. *)
Lemma shape_set f l l' g c : shape f l → zlen (elements f) = zlen l' + zlen g → c = zlen l' →
  shape (set_current_size c (set_elements ((Some <$> l') ++ g) f)) l'.
Proof.
  intros Hs Hl ->. split; cbn; [done| |exact (sh_bound _ _ Hs)|by exists g].
  by rewrite (sh_total _ _ Hs), zlen_app, zlen_fmap.
Qed.

Lemma shape_cut f l l' vs : shape f l → l = l' ++ vs → shape (set_current_size (zlen l') f) l'.
Proof.
  intros Hs ->. destruct (sh_elements _ _ Hs) as (g & Eg). split; cbn; [done|exact (sh_total _ _ Hs)|exact (sh_bound _ _ Hs)|].
  exists ((Some <$> vs) ++ g). by rewrite Eg, fmap_app, <- app_assoc.
Qed.

Lemma element_here f l x g i : elements f = (Some <$> l) ++ Some x :: g → i = zlen l → element f i = Ok x.
Proof.
  intros Ef ->. unfold element. pose proof (zlen_nonneg l). zdec. unfold zlen. rewrite Nat2Z.id, Ef.
  by rewrite lookup_app_r, length_fmap, Nat.sub_diag by (by rewrite length_fmap).
Qed.

Lemma put_here f l x g i v : elements f = (Some <$> l) ++ x :: g → i = zlen l →
  put_element i v f = Ok (set_elements ((Some <$> l) ++ Some v :: g) f).
Proof.
  intros Ef ->. unfold put_element. rewrite Ef, zlen_app, zlen_cons, zlen_fmap. pose proof (zlen_nonneg l). pose proof (zlen_nonneg g).
  zdec. cbn [andb]. unfold zlen. by rewrite Nat2Z.id, insert_app_r_alt, length_fmap, Nat.sub_diag by (by rewrite length_fmap).
Qed.

Lemma put_slots_here f l m g i vs : elements f = (Some <$> l) ++ m ++ g → i = zlen l → zlen m = zlen vs →
  put_slots i (Some <$> vs) f = Ok (set_elements ((Some <$> l ++ vs) ++ g) f).
Proof.
  intros Ef -> Hm. unfold put_slots. rewrite Ef, !zlen_app, !zlen_fmap. pose proof (zlen_nonneg l). pose proof (zlen_nonneg g).
  zdec. cbn [andb]. unfold zlen in Hm. assert (length m = length vs) as Hm' by lia.
  rewrite take_zlen_app by (by rewrite zlen_fmap). rewrite length_fmap. unfold zlen. rewrite Nat2Z.id, <- Hm'.
  rewrite (app_assoc _ m g), (drop_app_length' ((Some <$> l) ++ m)) by (by rewrite length_app, length_fmap).
  by rewrite fmap_app, <- app_assoc.
Qed.

Lemma lookup_split l k x : l !! k = Some x → ∃ a b, l = a ++ x :: b ∧ zlen a = Z.of_nat k.
Proof.
  intros Hk. exists (take k l), (drop (S k) l). split; [by rewrite take_drop_middle|].
  apply lookup_lt_Some in Hk. unfold zlen. rewrite length_take. lia.
Qed.

Lemma Get_here f l k x : shape f l → l !! k = Some x → Get (Z.of_nat k) f = Ok x.
Proof.
  intros Hs Hk. destruct (sh_elements _ _ Hs) as (g & Eg). destruct (lookup_split _ _ _ Hk) as (a & b & -> & Ea).
  eapply element_here; [|done]. rewrite Eg, fmap_app. by rewrite <- app_assoc.
Qed.

(** *** Growing *)

Section Room.
Context (size_of : Z) (Hsize : 0 < size_of <= 8).

Lemma Reserve_spec n f l : shape f l → n <= most →
  ∃ f', Reserve size_of n f = Ok f' ∧ shape f' l ∧ n <= Capacity f' ∧ (n <= Capacity f → f' = f).
Proof using Hsize.
  intros Hs Hn. pose proof (shape_capacity _ _ Hs) as Hc. pose proof (zlen_nonneg l). pose proof (sh_bound _ _ Hs). unfold Reserve, Capacity in *.
  destruct (Z.leb_spec n (total_size_ f)) as [Hle|Hgt]; [by exists f|].
  unfold add_int, most, INT_MAX, kMinRepeatedFieldAllocationSize, kRepHeaderSize in *. zdec. cbn [andb mbind outcome_bind].
  set (n' := Z.max 4 (Z.max _ _)). assert (n <= n' <= 2 * 2 ^ 27 ∧ zlen l <= n') as [? ?] by lia.
  assert (size_of * n' <= 8 * (2 * 2 ^ 27)) by nia. zdec.
  destruct (sh_elements _ _ Hs) as (g & Eg). rewrite Eg, (sh_current _ _ Hs), take_zlen_app by (by rewrite zlen_fmap).
  eexists. split; [done|]. split_and!; [|cbn; lia|intros Hle; lia].
  split; cbn; [done| |unfold most; lia|by eexists].
  rewrite zlen_app. unfold zlen in *. rewrite length_replicate, length_fmap. lia.
Qed.

Lemma make_room_spec f l : shape f l → zlen l < most →
  ∃ f', make_room size_of f = Ok f' ∧ shape f' l ∧ zlen l < Capacity f' ∧ (zlen l < Capacity f → f' = f).
Proof using Hsize.
  intros Hs Hl. pose proof (shape_capacity _ _ Hs) as Hc. pose proof (sh_bound _ _ Hs). pose proof (zlen_nonneg l). unfold make_room, Capacity in *. rewrite (sh_current _ _ Hs).
  destruct (Z.eqb_spec (zlen l) (total_size_ f)) as [Eq|Ne]; [|exists f; split_and!; [done..|lia|done]].
  unfold add_int, most, INT_MAX in *. zdec. cbn [andb mbind outcome_bind].
  destruct (Reserve_spec (total_size_ f + 1) f l Hs) as (f' & E1 & Hs' & Hc' & _); [unfold most; lia|].
  exists f'. unfold Capacity in Hc'. split_and!; [done|done|lia|]. intros Hlt. lia.
Qed.

Lemma AddAlreadyReserved_spec v f l : shape f l → zlen l < Capacity f →
  ∃ f', AddAlreadyReserved v f = Ok f' ∧ shape f' (l ++ [v]) ∧ Capacity f' = Capacity f.
Proof.
  intros Hs Hl. destruct (shape_room f l 1 Hs) as (m & g & Ef & Em); [lia..|]. destruct m as [|x m]; [done|].
  unfold AddAlreadyReserved. rewrite (put_here f l x (m ++ g) _ v Ef (sh_current _ _ Hs)). eexists. split; [done|]. split; [|done].
  assert (m = []) as -> by (apply zlen_zero; rewrite zlen_cons in Em; lia).
  change (Some v :: [] ++ g) with ([Some v] ++ g). rewrite app_assoc. change [Some v] with (Some <$> [v]).
  rewrite <- fmap_app. apply (shape_set f l).
  - done.
  - rewrite Ef, !zlen_app, zlen_fmap, Em. rewrite zlen_cons, zlen_nil. lia.
  - cbn. rewrite (sh_current _ _ Hs), zlen_app. done.
Qed.

Lemma put_element_same i v f f' : put_element i v f = Ok f' → current_size_ f' = current_size_ f.
Proof. unfold put_element. destruct (_ && _); [|done]. by intros [= <-]. Qed.

(** [Add], once the array has room and the value has been read. *)
Lemma put_is_Add v f : (f' ← put_element (current_size_ f) v f; Ok (set_current_size (current_size_ f' + 1) f')) = AddAlreadyReserved v f.
Proof.
  unfold AddAlreadyReserved. destruct (put_element _ v f) as [f'| |] eqn:E1; [|done..]. cbn.
  by rewrite (put_element_same _ _ _ _ E1).
Qed.

Lemma Add_spec v f l : shape f l → zlen l < most → ∃ f', Add size_of (Value v) f = Ok f' ∧ shape f' (l ++ [v]).
Proof using Hsize.
  intros Hs Hl. destruct (make_room_spec f l Hs Hl) as (f1 & E1 & Hs1 & Hc1 & _). unfold Add. rewrite E1.
  cbn [mbind outcome_bind read_argument]. rewrite put_is_Add. destruct (AddAlreadyReserved_spec v f1 l Hs1 Hc1) as (f2 & E2 & Hs2 & _). by exists f2.
Qed.

(** An element of the field itself is added if there is room, and read after it has been
    freed if there is none. *)
Theorem Add_own i v f l : shape f l → zlen l < most → l !! i = Some v →
  if zlen l <? Capacity f then ∃ f', Add size_of (Own (Z.of_nat i)) f = Ok f' ∧ shape f' (l ++ [v])
  else Add size_of (Own (Z.of_nat i)) f = Undefined.
Proof using Hsize.
  intros Hs Hl Hv. destruct (make_room_spec f l Hs Hl) as (f1 & E1 & Hs1 & Hc1 & Hk). unfold Add. rewrite E1.
  cbn [mbind outcome_bind]. pose proof (shape_capacity _ _ Hs). unfold reallocated, read_argument.
  destruct (Z.ltb_spec (zlen l) (Capacity f)) as [Hlt|Hge].
  - rewrite (Hk Hlt), Z.eqb_refl. cbn [negb]. rewrite (Get_here f l i v Hs Hv : element f _ = _). cbn [mbind outcome_bind]. rewrite put_is_Add.
    destruct (AddAlreadyReserved_spec v f l Hs Hlt) as (f2 & E2 & Hs2 & _). by exists f2.
  - unfold Capacity in *. by assert (total_size_ f =? total_size_ f1 = false) as -> by lia.
Qed.

Lemma Resize_grow v n f l : shape f l → 0 <= n → zlen l + n <= most →
  ∃ f', Resize size_of (zlen l + n) (Value v) f = Ok f' ∧ shape f' (l ++ replicate (Z.to_nat n) v).
Proof using Hsize.
  intros Hs Hn Hm. unfold Resize. rewrite (sh_current _ _ Hs). destruct (Z.ltb_spec (zlen l) (zlen l + n)) as [Hlt|Hge].
  - destruct (Reserve_spec (zlen l + n) f l Hs Hm) as (f1 & E1 & Hs1 & Hc1 & _). rewrite E1. cbn [mbind outcome_bind read_argument].
    destruct (shape_room f1 l n Hs1 Hn Hc1) as (m & g & Ef & Em). rewrite (sh_current _ _ Hs1).
    replace (zlen l + n - zlen l) with n by lia. rewrite <- fmap_replicate.
    assert (Hr : zlen m = zlen (replicate (Z.to_nat n) v)) by (unfold zlen at 2; rewrite length_replicate; lia).
    rewrite (put_slots_here f1 l m g) by done. eexists. split; [done|]. apply (shape_set f1 l); [done| |].
    + rewrite Ef, !zlen_app, zlen_fmap. lia.
    + rewrite zlen_app. lia.
  - assert (n = 0) as -> by lia. rewrite Z.add_0_r, app_nil_r. eexists. split; [done|]. eapply shape_cut; [done|by rewrite app_nil_r].
Qed.

(** Both copies are the same: [n] slots of [other] go behind the elements. *)
Lemma copy_in other vs f l : shape other vs → shape f l → zlen l + zlen vs <= most →
  ∃ f', (f ← Reserve size_of (zlen l + zlen vs) f;
         l' ← slots (zlen vs) other;
         put_slots (zlen l) l' (set_current_size (current_size_ f + zlen vs) f)) = Ok f' ∧ shape f' (l ++ vs).
Proof using Hsize.
  intros Ho Hs Hm. pose proof (zlen_nonneg vs). pose proof (shape_capacity _ _ Ho) as Hc. unfold Capacity in Hc. rewrite (sh_total _ _ Ho) in Hc.
  destruct (Reserve_spec (zlen l + zlen vs) f l Hs Hm) as (f1 & E1 & Hs1 & Hc1 & _). rewrite E1. cbn [mbind outcome_bind].
  unfold slots. zdec. cbn [mbind outcome_bind]. destruct (sh_elements _ _ Ho) as (go & Eo).
  rewrite Eo, take_zlen_app by (by rewrite zlen_fmap).
  destruct (shape_room f1 l (zlen vs) Hs1) as (m & g & Ef & Em); [lia|lia|].
  rewrite (put_slots_here (set_current_size _ f1) l m g) by done. eexists. split; [done|].
  apply (shape_set f1 l); [done| |].
  - rewrite Ef, !zlen_app, zlen_fmap. lia.
  - rewrite (sh_current _ _ Hs1), zlen_app. done.
Qed.

Lemma MergeFrom_spec other vs f l : shape other vs → shape f l → zlen l + zlen vs <= most →
  ∃ f', MergeFrom size_of other f = Ok f' ∧ shape f' (l ++ vs).
Proof using Hsize.
  intros Ho Hs Hm. pose proof (zlen_nonneg l). pose proof (zlen_nonneg vs). unfold MergeFrom, size. rewrite (sh_current _ _ Ho), (sh_current _ _ Hs).
  destruct (Z.eqb_spec (zlen vs) 0) as [E0|_].
  { assert (vs = []) as -> by (apply zlen_zero; lia). exists f. by rewrite app_nil_r. }
  unfold add_int, most, INT_MAX in *. zdec. cbn [andb mbind outcome_bind AddNAlreadyReserved].
  apply (copy_in other vs f l Ho Hs Hm).
Qed.

Lemma Clear_spec f l : shape f l → shape (Clear f) [].
Proof. intros Hs. by apply (shape_cut f l [] l). Qed.

Lemma CopyFrom_spec other vs f l : shape other vs → shape f l → zlen vs <= most →
  ∃ f', CopyFrom size_of other f = Ok f' ∧ shape f' vs.
Proof using Hsize. intros Ho Hs Hm. apply (MergeFrom_spec other vs (Clear f) [] Ho (Clear_spec _ _ Hs) Hm). Qed.

Lemma copy_spec other vs : shape other vs → zlen vs <= most → ∃ f', copy_RepeatedField size_of other = Ok f' ∧ shape f' vs.
Proof using Hsize.
  intros Ho Hm. unfold copy_RepeatedField, size. rewrite (sh_current _ _ Ho). destruct (Z.eqb_spec (zlen vs) 0) as [E0|_].
  { assert (vs = []) as -> by (apply zlen_zero; lia). eexists. split; [done|apply shape_new]. }
  apply (copy_in other vs new_RepeatedField [] Ho shape_new Hm).
Qed.
End Room.

(** *** Within the array *)

Lemma Truncate_spec f l l' vs : shape f l → l = l' ++ vs → shape (Truncate (zlen l') f) l'.
Proof.
  intros Hs El. unfold Truncate. rewrite (sh_current _ _ Hs). destruct (Z.ltb_spec 0 (zlen l)) as [_|Hz]; [by eapply shape_cut|].
  pose proof (zlen_nonneg vs). rewrite El, zlen_app in Hz. assert (l' = []) as -> by (apply zlen_zero; lia).
  assert (vs = []) as -> by (apply zlen_zero; rewrite zlen_nil in Hz; lia). by subst l.
Qed.

Lemma Set_spec f a x b v : shape f (a ++ x :: b) → ∃ f', Set_ (zlen a) v f = Ok f' ∧ shape f' (a ++ v :: b).
Proof.
  intros Hs. destruct (sh_elements _ _ Hs) as (g & Eg). unfold Set_. rewrite fmap_app in Eg. cbn [fmap list_fmap] in Eg. rewrite <- app_assoc in Eg.
  change ((Some x :: (Some <$> b)) ++ g) with (Some x :: (Some <$> b) ++ g) in Eg. erewrite (put_here f a _ _ _ v) by (exact Eg || done). eexists. split; [done|]. split; cbn.
  - rewrite (sh_current _ _ Hs), !zlen_app. done.
  - rewrite (sh_total _ _ Hs), Eg, zlen_app, !zlen_cons. by rewrite (zlen_app (Some <$> a)), zlen_cons.
  - exact (sh_bound _ _ Hs).
  - exists g. rewrite fmap_app. cbn. by rewrite <- app_assoc.
Qed.

Lemma Get_split f a x b : shape f (a ++ x :: b) → Get (zlen a) f = Ok x.
Proof. intros Hs. rewrite <- (Get_here f _ (length a) x Hs); [done|]. by rewrite lookup_app_r, Nat.sub_diag. Qed.

Lemma SwapElements_spec f a x b y c : shape f (a ++ x :: b ++ y :: c) →
  ∃ f', SwapElements (zlen a) (zlen (a ++ x :: b)) f = Ok f' ∧ shape f' (a ++ y :: b ++ x :: c).
Proof.
  intros Hs. assert (Ea : ∀ u, a ++ u :: b ++ y :: c = (a ++ u :: b) ++ y :: c) by (intros u; by rewrite <- app_assoc).
  assert (Hs' := Hs). rewrite Ea in Hs'. unfold SwapElements.
  rewrite (Get_split f a x _ Hs : element f _ = _), (Get_split f _ y _ Hs' : element f _ = _). cbn [mbind outcome_bind].
  destruct (Set_spec f a x _ y Hs) as (f1 & E1 & Hs1). unfold Set_ in E1. rewrite E1. cbn [mbind outcome_bind]. rewrite Ea in Hs1.
  destruct (Set_spec f1 (a ++ y :: b) y c x Hs1) as (f2 & E2 & Hs2). exists f2. rewrite <- app_assoc in Hs2. split; [|exact Hs2].
  rewrite <- E2. unfold Set_. by rewrite !zlen_app, !zlen_cons.
Qed.

Lemma elements_from_spec f a vs b : shape f (a ++ vs ++ b) → elements_from (length vs) (zlen a) f = Ok vs.
Proof.
  revert a. induction vs as [|v vs IH]; intros a Hs; [done|]. cbn [elements_from length]. rewrite (Get_split f a v (vs ++ b) Hs).
  cbn [mbind outcome_bind]. replace (zlen a + 1) with (zlen (a ++ [v])) by (rewrite zlen_app; done).
  rewrite IH; [done|]. by rewrite <- app_assoc.
Qed.

(** The elements [b] behind a gap move down over it; what is left at the end is not
    looked at again. *)
Lemma shift_down_spec f a gap b : shape f (a ++ gap ++ b) →
  ∃ f' rest, shift_down (length b) (zlen a + zlen gap) (zlen gap) f = Ok f' ∧ shape f' (a ++ b ++ rest) ∧ length rest = length gap.
Proof.
  revert f a gap. induction b as [|y b IH]; intros f a gap Hs.
  - exists f, gap. rewrite app_nil_r in Hs. done.
  - cbn [shift_down length]. assert (Hg : Get (zlen a + zlen gap) f = Ok y).
    { rewrite <- zlen_app. apply (Get_split f (a ++ gap) y b). by rewrite <- app_assoc. }
    rewrite Hg. cbn [mbind outcome_bind]. replace (zlen a + zlen gap - zlen gap) with (zlen a) by lia.
    destruct gap as [|x gap].
    + destruct (Set_spec f a y b y Hs) as (f1 & E1 & Hs1). rewrite E1. cbn [mbind outcome_bind].
      destruct (IH f1 (a ++ [y]) []) as (f2 & rest & E2 & Hs2 & Hl); [by rewrite <- app_assoc|].
      exists f2, rest. rewrite <- app_assoc in Hs2. split_and!; [|exact Hs2|done]. rewrite <- E2. f_equal. rewrite !zlen_app, zlen_cons, zlen_nil. lia.
    + destruct (Set_spec f a x (gap ++ y :: b) y Hs) as (f1 & E1 & Hs1). rewrite E1. cbn [mbind outcome_bind].
      destruct (IH f1 (a ++ [y]) (gap ++ [y])) as (f2 & rest & E2 & Hs2 & Hl); [by rewrite <- !app_assoc|].
      exists f2, rest. rewrite <- app_assoc in Hs2. split_and!; [|exact Hs2|]; [|rewrite Hl, length_app; cbn; lia].
      rewrite <- E2. f_equal; rewrite !zlen_app, !zlen_cons, zlen_nil; lia.
Qed.

Lemma shift_and_cut f a gap b : shape f (a ++ gap ++ b) →
  ∃ f', shift_down (length b) (zlen a + zlen gap) (zlen gap) f = Ok f' ∧ shape (Truncate (zlen (a ++ b)) f') (a ++ b) ∧
    current_size_ f' = zlen (a ++ gap ++ b).
Proof.
  intros Hs. destruct (shift_down_spec f a gap b Hs) as (f' & rest & E1 & Hs' & Hl). exists f'. split_and!; [done| |].
  - eapply Truncate_spec; [exact Hs'|]. by rewrite app_assoc.
  - rewrite (sh_current _ _ Hs'), !zlen_app. unfold zlen. lia.
Qed.

Lemma ExtractSubrange_spec f a vs b wanted : shape f (a ++ vs ++ b) →
  ∃ f', ExtractSubrange (zlen a) (zlen vs) wanted f = Ok (if wanted then vs else [], f') ∧ shape f' (a ++ b).
Proof.
  intros Hs. unfold ExtractSubrange. replace (Z.to_nat (zlen vs)) with (length vs) by (unfold zlen; lia).
  rewrite (elements_from_spec f a vs b Hs).
  assert (Ew : (if wanted then Ok vs else Ok []) = Ok (if wanted then vs else [])) by (by destruct wanted). rewrite Ew.
  cbn [mbind outcome_bind]. destruct (Z.ltb_spec 0 (zlen vs)) as [_|Hz].
  - rewrite (sh_current _ _ Hs). replace (Z.to_nat (zlen (a ++ vs ++ b) - (zlen a + zlen vs))) with (length b) by (rewrite !zlen_app; unfold zlen; lia).
    destruct (shift_and_cut f a vs b Hs) as (f' & E1 & Hs' & Ec). rewrite E1. cbn [mbind outcome_bind]. eexists. split; [done|].
    rewrite Ec. replace (zlen (a ++ vs ++ b) - zlen vs) with (zlen (a ++ b)) by (rewrite !zlen_app; lia). done.
  - apply zlen_zero in Hz as ->. by exists f.
Qed.

Lemma erase_spec f a vs b : shape f (a ++ vs ++ b) → ∃ f', erase (zlen a) (zlen a + zlen vs) f = Ok f' ∧ shape f' (a ++ b).
Proof.
  intros Hs. unfold erase. destruct (Z.eqb_spec (zlen a) (zlen a + zlen vs)) as [E0|_].
  - assert (vs = []) as -> by (apply zlen_zero; lia). by exists f.
  - rewrite (sh_current _ _ Hs). replace (Z.to_nat (zlen (a ++ vs ++ b) - (zlen a + zlen vs))) with (length b) by (rewrite !zlen_app; unfold zlen; lia).
    replace (zlen a + zlen vs - zlen a) with (zlen vs) by lia.
    destruct (shift_and_cut f a vs b Hs) as (f' & E1 & Hs' & Ec). rewrite E1. cbn [mbind outcome_bind]. eexists. split; [done|].
    rewrite Ec. replace (zlen a + (zlen (a ++ vs ++ b) - (zlen a + zlen vs))) with (zlen (a ++ b)) by (rewrite !zlen_app; lia). done.
Qed.
End Facts.
