(* ===== verification/CodedStreamMore.v ===== *)
(** The operations of [CodedInputStream] that the ten messages of the program do not
    use, but the readers of repeated and unknown fields do
    (Shared/protobuf/src/google/protobuf/io/coded_stream.{h,cc}): skipping, expecting a
    tag, asking how far a limit is, and the limits read from the stream itself; with
    [Skip] of the stream below (io/zero_copy_stream_impl_lite.cc). *)

From S2P Require Import Prelude CodedStream WireFormat WireFormatFacts.

Module CodedInputMore.
Import CodedInput.

(** [CopyingInputStream::Skip]: read and forget, 4096 bytes at a time; the result is the
    number of bytes skipped.  Every round but the last skips a byte. *)
Fixpoint skip_copying (fuel : nat) (count : Z) (skipped : Z) (st : istream) : Z * istream :=
  match fuel with
  | O => (skipped, st)
  | S fuel =>
      if skipped <? count then
        let '(junk, st) := istream_read (Z.min (count - skipped) 4096) st in
        match junk with [] => (skipped, st) | _ => skip_copying fuel count (skipped + zlen junk) st end
      else (skipped, st)
  end.

(** [CopyingInputStreamAdaptor::Skip], with nothing backed up. *)
Definition skip_stream (count : Z) (a : IstreamInputStream) : Z * IstreamInputStream :=
  let '(skipped, st) := skip_copying (S (length (is_buf (ad_stream a)))) count 0 (ad_stream a) in
  (skipped, Adaptor st (ad_buffer_size a)).

Definition set_input (s : CodedInputStream) (a : IstreamInputStream) (total : Z) : CodedInputStream :=
  CIS (buffer_ s) (after_limit_ s) (Some a) total (last_tag_ s) (legitimate_message_end_ s) (current_limit_ s) (recursion_budget_ s).

(** When the stream below ends first, [total_bytes_read_] becomes its [ByteCount()],
    which is what has been read of it since the coded stream was made on it. *)
Definition SkipFallback (count original_buffer_size : Z) (s : CodedInputStream) : bool * CodedInputStream :=
  if 0 <? zlen (after_limit_ s) then (false, Advance original_buffer_size s)
  else
    let count := count - original_buffer_size in
    let s := set_buffer s [] in
    let closest_limit := Z.min (current_limit_ s) total_bytes_limit_ in
    let bytes_until_limit := closest_limit - total_bytes_read_ s in
    match input_ s with
    | None => (false, s)
    | Some a =>
        if bytes_until_limit <? count then
          if 0 <? bytes_until_limit then (false, set_input s (snd (skip_stream bytes_until_limit a)) closest_limit)
          else (false, s)
        else
          let '(skipped, a) := skip_stream count a in
          if skipped =? count then (true, set_input s a (total_bytes_read_ s + count))
          else (false, set_input s a (total_bytes_read_ s + skipped))
    end.

Definition Skip (count : Z) (s : CodedInputStream) : bool * CodedInputStream :=
  if count <? 0 then (false, s)
  else
    let original_buffer_size := BufferSize s in
    if count <=? original_buffer_size then (true, Advance count s) else SkipFallback count original_buffer_size s.

(** [GetDirectBufferPointerInline], and [GetDirectBufferPointer], which refreshes. *)
Definition GetDirectBufferPointerInline (s : CodedInputStream) : bytes := buffer_ s.

Definition GetDirectBufferPointer (s : CodedInputStream) : option bytes * CodedInputStream :=
  let '(ok, s) := match buffer_ s with [] => Refresh s | _ => (true, s) end in
  if ok then (Some (buffer_ s), s) else (None, s).

(** The bytes [static_cast<uint8>(expected | 0x80)] and [static_cast<uint8>(expected >> 7)]. *)
Definition tag_byte0 (expected : Z) : byte := z2b (Z.lor expected 0x80).
Definition tag_byte1 (expected : Z) : byte := z2b (Z.shiftr expected 7).

(** Reads the bytes it compares: the first always, the second when the first is right. *)
Definition ExpectTagFromArray (buffer : bytes) (expected : Z) : outcome (option bytes) :=
  if expected <? Z.shiftl 1 7 then
    match buffer with
    | b0 :: rest => Ok (if b2z b0 =? expected then Some rest else None)
    | [] => Undefined
    end
  else if expected <? Z.shiftl 1 14 then
    match buffer with
    | b0 :: rest =>
        if decide (b0 = tag_byte0 expected) then
          match rest with
          | b1 :: rest => Ok (if decide (b1 = tag_byte1 expected) then Some rest else None)
          | [] => Undefined
          end
        else Ok None
    | [] => Undefined
    end
  else Ok None.

Definition ExpectTag (expected : Z) (s : CodedInputStream) : bool * CodedInputStream :=
  if expected <? Z.shiftl 1 7 then
    match buffer_ s with
    | b0 :: _ => if b2z b0 =? expected then (true, Advance 1 s) else (false, s)
    | [] => (false, s)
    end
  else if expected <? Z.shiftl 1 14 then
    match buffer_ s with
    | b0 :: b1 :: _ =>
        if bool_decide (b0 = tag_byte0 expected) && bool_decide (b1 = tag_byte1 expected) then (true, Advance 2 s) else (false, s)
    | _ => (false, s)
    end
  else (false, s).

Definition ExpectAtEnd (s : CodedInputStream) : bool * CodedInputStream :=
  match buffer_ s with
  | [] =>
      if negb (zlen (after_limit_ s) =? 0) || (total_bytes_read_ s =? current_limit_ s)
      then (true, set_legitimate (set_last_tag s 0) true) else (false, s)
  | _ => (false, s)
  end.

(** -1 for no limit. *)
Definition BytesUntilLimit (s : CodedInputStream) : Z :=
  if current_limit_ s =? INT_MAX then -1 else current_limit_ s - CurrentPosition s.
Definition BytesUntilTotalBytesLimit (s : CodedInputStream) : Z :=
  if total_bytes_limit_ =? INT_MAX then -1 else total_bytes_limit_ - CurrentPosition s.

Definition ReadLengthAndPushLimit (s : CodedInputStream) : Z * CodedInputStream :=
  let '(length, s) := ReadVarint32 s in
  PushLimit (match length with Some length => s32 length | None => 0 end) s.

Definition CheckEntireMessageConsumedAndPopLimit (limit : Z) (s : CodedInputStream) : bool * CodedInputStream :=
  (ConsumedEntireMessage s, PopLimit limit s).

Definition UnsafeDecrementRecursionDepth (s : CodedInputStream) : CodedInputStream := set_budget s (recursion_budget_ s + 1).
End CodedInputMore.

(** ** Over an array *)

Section Flat.
Import CodedOutput CodedInput CodedInputMore.

Lemma Skip_flat n s : flat s → 0 <= n →
  Skip n s = if n <=? BufferSize s then (true, Advance n s) else (false, set_buffer s []).
Proof.
  intros (Hi & Hl & _ & Hm) Hn. unfold Skip. zdec. destruct (n <=? BufferSize s); [done|]. unfold SkipFallback.
  destruct (0 <? zlen (after_limit_ s)); [|cbn; by rewrite Hi].
  unfold Advance, BufferSize, zlen. by rewrite Nat2Z.id, drop_all.
Qed.

Lemma Skip_advances n s b s' : flat s → 0 <= n → Skip n s = (b, s') → advances s s'.
Proof.
  intros F Hn. rewrite Skip_flat by done. destruct (_ <=? _); intros [= <- <-].
  - apply advances_set_buffer. by exists (Z.to_nat n).
  - apply advances_set_buffer. exists (length (buffer_ s)). by rewrite drop_all.
Qed.

Lemma BytesUntilLimit_flat s : flat s → BytesUntilLimit s = BufferSize s.
Proof.
  intros (_ & Hl & Hb & Hm). unfold BytesUntilLimit, CurrentPosition. pose proof (zlen_nonneg (after_limit_ s)). zdec. lia.
Qed.

(** What a tag of one or two bytes looks like. *)
Lemma tag_bytes t : 0 <= t < 2 ^ 14 →
  WriteVarint32ToArray t = if t <? 2 ^ 7 then [z2b t] else [tag_byte0 t; tag_byte1 t].
Proof.
  intros Ht. unfold WriteVarint32ToArray, tag_byte0, tag_byte1. change 5%nat with (S (S 3)). cbn [write_varint].
  rewrite Z.geb_leb. change (2 ^ 7) with 128. rewrite Z.ltb_antisym. change 0x80 with 128.
  destruct (Z.leb_spec 128 t) as [Hge|Hlt]; [|done]. cbn [negb]. rewrite Z.geb_leb.
  rewrite (Z.shiftr_div_pow2 t 7) by lia. rewrite (proj2 (Z.leb_gt 128 (t / 2 ^ 7))); [done|].
  apply Z.div_lt_upper_bound; lia.
Qed.

Lemma byte_is t b : 0 <= t < 256 → (b2z b =? t) = bool_decide (b = z2b t).
Proof.
  intros Ht. destruct (Z.eqb_spec (b2z b) t) as [<-|Hn].
  - by rewrite z2b_b2z, bool_decide_true.
  - rewrite bool_decide_false; [done|]. intros ->. by rewrite b2z_z2b_small in Hn.
Qed.

(** [ExpectTag] finds a tag of at most two bytes where there is one, and consumes it. *)
Lemma ExpectTag_here t s r : 0 <= t < 2 ^ 14 → buffer_ s = WriteVarint32ToArray t ++ r → ExpectTag t s = (true, set_buffer s r).
Proof.
  intros Ht. rewrite (tag_bytes t Ht). unfold ExpectTag. change (Z.shiftl 1 7) with (2 ^ 7). change (Z.shiftl 1 14) with (2 ^ 14).
  destruct (Z.ltb_spec t (2 ^ 7)) as [Hlt|Hge]; intros E.
  - rewrite E. cbn [app]. rewrite b2z_z2b_small, Z.eqb_refl by lia. unfold Advance. by rewrite E.
  - zdec. rewrite E. cbn [app]. rewrite !bool_decide_true by done. unfold Advance. by rewrite E.
Qed.

Lemma ExpectTag_true t s s' : 0 <= t → ExpectTag t s = (true, s') →
  ∃ r, t < 2 ^ 14 ∧ buffer_ s = WriteVarint32ToArray t ++ r ∧ s' = set_buffer s r.
Proof.
  intros H0. unfold ExpectTag. change (Z.shiftl 1 7) with (2 ^ 7). change (Z.shiftl 1 14) with (2 ^ 14).
  destruct (Z.ltb_spec t (2 ^ 7)) as [Hlt|Hge].
  - destruct (buffer_ s) as [|b r] eqn:E; [done|]. destruct (Z.eqb_spec (b2z b) t) as [<-|]; intros [= <-]. exists r.
    rewrite tag_bytes by lia. zdec. rewrite z2b_b2z. unfold Advance. rewrite E. split_and!; [lia|done..].
  - destruct (Z.ltb_spec t (2 ^ 14)) as [Hlt|]; [|done]. destruct (buffer_ s) as [|b0 [|b1 r]] eqn:E; [done..|].
    destruct (decide (b0 = tag_byte0 t)) as [->|?]; [|by rewrite bool_decide_false by done].
    destruct (decide (b1 = tag_byte1 t)) as [->|?]; [|by rewrite bool_decide_true, bool_decide_false by done].
    rewrite !bool_decide_true by done. intros [= <-]. exists r. rewrite tag_bytes by lia. zdec. unfold Advance. by rewrite E.
Qed.

Lemma ExpectTag_false t s s' : ExpectTag t s = (false, s') → s' = s.
Proof.
  unfold ExpectTag. destruct (_ <? _); [|destruct (_ <? _)].
  - destruct (buffer_ s); [by intros [= <-]|]. destruct (_ =? _); [done|by intros [= <-]].
  - destruct (buffer_ s) as [|? [|? ?]]; [by intros [= <-]..|]. destruct (_ && _); [done|by intros [= <-]].
  - by intros [= <-].
Qed.

(** The check on an array does not leave it if a tag fits, and agrees. *)
Lemma ExpectTagFromArray_spec t l : 0 <= t → (length (WriteVarint32ToArray t) <= length l)%nat →
  ∃ o, ExpectTagFromArray l t = Ok o ∧
    match o with Some r => t < 2 ^ 14 ∧ l = WriteVarint32ToArray t ++ r
               | None => t < 2 ^ 14 → ∀ r, l ≠ WriteVarint32ToArray t ++ r end.
Proof.
  intros H0. unfold ExpectTagFromArray. change (Z.shiftl 1 7) with (2 ^ 7). change (Z.shiftl 1 14) with (2 ^ 14).
  destruct (Z.ltb_spec t (2 ^ 14)) as [Hlt|Hge]; [|intros _; zdec; exists None; split; [done|lia]].
  rewrite (tag_bytes t) by lia. destruct (t <? 2 ^ 7) eqn:E7; zbool; cbn [length]; intros Hl.
  - destruct l as [|b r]; [cbn in Hl; lia|]. eexists. split; [done|]. destruct (Z.eqb_spec (b2z b) t) as [<-|Hn]; [by rewrite z2b_b2z|].
    intros _ r' [= -> _]. by rewrite b2z_z2b_small in Hn by lia.
  - destruct l as [|b0 [|b1 r]]; [cbn in Hl; lia..|]. destruct (decide (b0 = tag_byte0 t)) as [->|Hn].
    + eexists. split; [done|]. destruct (decide (b1 = tag_byte1 t)) as [->|Hn]; [done|]. by intros _ r' [= -> _].
    + eexists. split; [done|]. by intros _ r' [= -> _].
Qed.
End Flat.
