(* ===== verification/WireTypes.v ===== *)
(** The types of the wire format (Shared/protobuf/src/google/protobuf/
    wire_format_lite.{h,cc}, wire_format_lite_inl.h): the scalar types a schema can
    declare, each with its reader, its writers and its size; and repeated and packed
    fields of them.

    A template over the declared type is a definition over the class [Primitive], whose
    instances are the specialisations.  Floating-point values are their bit patterns.
    The platform is little-endian. *)

From S2P Require Import Prelude CodedStream WireFormat RepeatedField ScalarField CodedStreamMore.

Module WireTypes.
Import CodedOutput CodedInput CodedInputMore WireFormatLite.

(** ** Types *)

Inductive FieldType :=
  | TYPE_DOUBLE | TYPE_FLOAT | TYPE_INT64 | TYPE_UINT64 | TYPE_INT32 | TYPE_FIXED64 | TYPE_FIXED32 | TYPE_BOOL | TYPE_STRING
  | TYPE_GROUP | TYPE_MESSAGE | TYPE_BYTES | TYPE_UINT32 | TYPE_ENUM | TYPE_SFIXED32 | TYPE_SFIXED64 | TYPE_SINT32 | TYPE_SINT64.

Inductive CppType :=
  | CPPTYPE_INT32 | CPPTYPE_INT64 | CPPTYPE_UINT32 | CPPTYPE_UINT64 | CPPTYPE_DOUBLE | CPPTYPE_FLOAT | CPPTYPE_BOOL
  | CPPTYPE_ENUM | CPPTYPE_STRING | CPPTYPE_MESSAGE.

Definition kFieldTypeToCppTypeMap (t : FieldType) : CppType :=
  match t with
  | TYPE_DOUBLE => CPPTYPE_DOUBLE
  | TYPE_FLOAT => CPPTYPE_FLOAT
  | TYPE_INT64 => CPPTYPE_INT64
  | TYPE_UINT64 => CPPTYPE_UINT64
  | TYPE_INT32 => CPPTYPE_INT32
  | TYPE_FIXED64 => CPPTYPE_UINT64
  | TYPE_FIXED32 => CPPTYPE_UINT32
  | TYPE_BOOL => CPPTYPE_BOOL
  | TYPE_STRING => CPPTYPE_STRING
  | TYPE_GROUP => CPPTYPE_MESSAGE
  | TYPE_MESSAGE => CPPTYPE_MESSAGE
  | TYPE_BYTES => CPPTYPE_STRING
  | TYPE_UINT32 => CPPTYPE_UINT32
  | TYPE_ENUM => CPPTYPE_ENUM
  | TYPE_SFIXED32 => CPPTYPE_INT32
  | TYPE_SFIXED64 => CPPTYPE_INT64
  | TYPE_SINT32 => CPPTYPE_INT32
  | TYPE_SINT64 => CPPTYPE_INT64
  end.

Definition kWireTypeForFieldType (t : FieldType) : Z :=
  match t with
  | TYPE_DOUBLE => WIRETYPE_FIXED64
  | TYPE_FLOAT => WIRETYPE_FIXED32
  | TYPE_INT64 => WIRETYPE_VARINT
  | TYPE_UINT64 => WIRETYPE_VARINT
  | TYPE_INT32 => WIRETYPE_VARINT
  | TYPE_FIXED64 => WIRETYPE_FIXED64
  | TYPE_FIXED32 => WIRETYPE_FIXED32
  | TYPE_BOOL => WIRETYPE_VARINT
  | TYPE_STRING => WIRETYPE_LENGTH_DELIMITED
  | TYPE_GROUP => WIRETYPE_START_GROUP
  | TYPE_MESSAGE => WIRETYPE_LENGTH_DELIMITED
  | TYPE_BYTES => WIRETYPE_LENGTH_DELIMITED
  | TYPE_UINT32 => WIRETYPE_VARINT
  | TYPE_ENUM => WIRETYPE_VARINT
  | TYPE_SFIXED32 => WIRETYPE_FIXED32
  | TYPE_SFIXED64 => WIRETYPE_FIXED64
  | TYPE_SINT32 => WIRETYPE_VARINT
  | TYPE_SINT64 => WIRETYPE_VARINT
  end.

(** The C++ type of a field ([CType] of the templates), and the values of it. *)
Definition CValue (c : CppType) : Type :=
  match c with CPPTYPE_BOOL => bool | CPPTYPE_STRING => bytes | CPPTYPE_MESSAGE => Empty_set | _ => Z end.
Definition CType (t : FieldType) : Type := CValue (kFieldTypeToCppTypeMap t).

Definition representable (c : CppType) : CValue c → Prop :=
  match c with
  | CPPTYPE_INT32 | CPPTYPE_ENUM => is_s32
  | CPPTYPE_INT64 => is_s64
  | CPPTYPE_UINT32 | CPPTYPE_FLOAT => is_u32
  | CPPTYPE_UINT64 | CPPTYPE_DOUBLE => is_u64
  | CPPTYPE_BOOL | CPPTYPE_STRING => λ _, True
  | CPPTYPE_MESSAGE => λ _, False
  end.
Definition in_range (t : FieldType) : CType t → Prop := representable (kFieldTypeToCppTypeMap t).

(** Groups have a start and an end tag. *)
Definition TagSize (field_number : Z) (t : FieldType) : Z :=
  let result := VarintSize32 (u32 (Z.shiftl field_number 3)) in
  match t with TYPE_GROUP => result * 2 | _ => result end.

(** *** ZigZag: the shift right of [n] is arithmetic, the shift left unsigned *)

Definition ZigZagEncode32 (n : Z) : Z := Z.lxor (u32 (Z.shiftl (u32 n) 1)) (u32 (Z.shiftr n 31)).
Definition ZigZagDecode32 (n : Z) : Z := s32 (Z.lxor (Z.shiftr n 1) (u32 (u32 (Z.lnot (Z.land n 1)) + 1))).
Definition ZigZagEncode64 (n : Z) : Z := Z.lxor (u64 (Z.shiftl (u64 n) 1)) (u64 (Z.shiftr n 63)).
Definition ZigZagDecode64 (n : Z) : Z := s64 (Z.lxor (Z.shiftr n 1) (u64 (u64 (Z.lnot (Z.land n 1)) + 1))).

Definition EncodeDouble (value : Z) : Z := value.
Definition DecodeDouble (value : Z) : Z := value.

(** ** Scalars *)

(** [ReadPrimitive<CType, DeclaredType>]; a failed read stores nothing. *)
Definition ReadPrimitive_int64 (s : CodedInputStream) : option Z * CodedInputStream :=
  let '(temp, s) := ReadVarint64 s in (s64 <$> temp, s).
Definition ReadPrimitive_uint32 (s : CodedInputStream) : option Z * CodedInputStream := ReadVarint32 s.
Definition ReadPrimitive_uint64 (s : CodedInputStream) : option Z * CodedInputStream := ReadVarint64 s.
Definition ReadPrimitive_sint32 (s : CodedInputStream) : option Z * CodedInputStream :=
  let '(temp, s) := ReadVarint32 s in (ZigZagDecode32 <$> temp, s).
Definition ReadPrimitive_sint64 (s : CodedInputStream) : option Z * CodedInputStream :=
  let '(temp, s) := ReadVarint64 s in (ZigZagDecode64 <$> temp, s).
Definition ReadPrimitive_fixed32 (s : CodedInputStream) : option Z * CodedInputStream := ReadLittleEndian32 s.
Definition ReadPrimitive_fixed64 (s : CodedInputStream) : option Z * CodedInputStream := ReadLittleEndian64 s.
Definition ReadPrimitive_sfixed32 (s : CodedInputStream) : option Z * CodedInputStream :=
  let '(temp, s) := ReadLittleEndian32 s in (s32 <$> temp, s).
Definition ReadPrimitive_sfixed64 (s : CodedInputStream) : option Z * CodedInputStream :=
  let '(temp, s) := ReadLittleEndian64 s in (s64 <$> temp, s).
Definition ReadPrimitive_double (s : CodedInputStream) : option Z * CodedInputStream :=
  let '(temp, s) := ReadLittleEndian64 s in (DecodeDouble <$> temp, s).

(** The readers of WireFormat.v keep the old value on failure. *)
Definition stored {A} (r : bool * A * CodedInputStream) : option A * CodedInputStream :=
  let '(ok, v, s) := r in (if ok : bool then Some v else None, s).

(** [Write...NoTag]. *)
Definition WriteInt32NoTag (value : Z) : CodedOutputStream → CodedOutputStream := WriteVarint32SignExtended value.
Definition WriteInt64NoTag (value : Z) : CodedOutputStream → CodedOutputStream := WriteVarint64 (u64 value).
Definition WriteUInt32NoTag (value : Z) : CodedOutputStream → CodedOutputStream := WriteVarint32 value.
Definition WriteUInt64NoTag (value : Z) : CodedOutputStream → CodedOutputStream := WriteVarint64 value.
Definition WriteSInt32NoTag (value : Z) : CodedOutputStream → CodedOutputStream := WriteVarint32 (ZigZagEncode32 value).
Definition WriteSInt64NoTag (value : Z) : CodedOutputStream → CodedOutputStream := WriteVarint64 (ZigZagEncode64 value).
Definition WriteFixed32NoTag (value : Z) : CodedOutputStream → CodedOutputStream := WriteLittleEndian32 value.
Definition WriteFixed64NoTag (value : Z) : CodedOutputStream → CodedOutputStream := WriteLittleEndian64 value.
Definition WriteSFixed32NoTag (value : Z) : CodedOutputStream → CodedOutputStream := WriteLittleEndian32 (u32 value).
Definition WriteSFixed64NoTag (value : Z) : CodedOutputStream → CodedOutputStream := WriteLittleEndian64 (u64 value).
Definition WriteFloatNoTag (value : Z) : CodedOutputStream → CodedOutputStream := WriteLittleEndian32 (EncodeFloat value).
Definition WriteDoubleNoTag (value : Z) : CodedOutputStream → CodedOutputStream := WriteLittleEndian64 (EncodeDouble value).
Definition WriteBoolNoTag (value : bool) : CodedOutputStream → CodedOutputStream := WriteVarint32 (if value then 1 else 0).
Definition WriteEnumNoTag (value : Z) : CodedOutputStream → CodedOutputStream := WriteVarint32SignExtended value.

(** [Write...NoTagToArray]. *)
Definition WriteInt32NoTagToArray (value : Z) : bytes := WriteVarint32SignExtendedToArray value.
Definition WriteInt64NoTagToArray (value : Z) : bytes := WriteVarint64ToArray (u64 value).
Definition WriteUInt32NoTagToArray (value : Z) : bytes := WriteVarint32ToArray value.
Definition WriteUInt64NoTagToArray (value : Z) : bytes := WriteVarint64ToArray value.
Definition WriteSInt32NoTagToArray (value : Z) : bytes := WriteVarint32ToArray (ZigZagEncode32 value).
Definition WriteSInt64NoTagToArray (value : Z) : bytes := WriteVarint64ToArray (ZigZagEncode64 value).
Definition WriteFixed32NoTagToArray (value : Z) : bytes := WriteLittleEndian32ToArray value.
Definition WriteFixed64NoTagToArray (value : Z) : bytes := WriteLittleEndian64ToArray value.
Definition WriteSFixed32NoTagToArray (value : Z) : bytes := WriteLittleEndian32ToArray (u32 value).
Definition WriteSFixed64NoTagToArray (value : Z) : bytes := WriteLittleEndian64ToArray (u64 value).
Definition WriteFloatNoTagToArray (value : Z) : bytes := WriteLittleEndian32ToArray (EncodeFloat value).
Definition WriteDoubleNoTagToArray (value : Z) : bytes := WriteLittleEndian64ToArray (EncodeDouble value).
Definition WriteBoolNoTagToArray (value : bool) : bytes := WriteVarint32ToArray (if value then 1 else 0).
Definition WriteEnumNoTagToArray (value : Z) : bytes := WriteVarint32SignExtendedToArray value.

(** Sizes; [Int32Size] and [EnumSize] are in WireFormat.v. *)
Definition Int64Size (value : Z) : Z := VarintSize64 (u64 value).
Definition UInt32Size (value : Z) : Z := VarintSize32 value.
Definition UInt64Size (value : Z) : Z := VarintSize64 value.
Definition SInt32Size (value : Z) : Z := VarintSize32 (ZigZagEncode32 value).
Definition SInt64Size (value : Z) : Z := VarintSize64 (ZigZagEncode64 value).
Definition kFixed32Size : Z := 4.
Definition kFixed64Size : Z := 8.
Definition kBoolSize : Z := 1.

(** [ReadPrimitiveFromArray], on a buffer that is long enough. *)
Definition ReadPrimitiveFromArray_fixed32 (buffer : bytes) : Z := ReadLittleEndian32FromArray buffer.
Definition ReadPrimitiveFromArray_fixed64 (buffer : bytes) : Z := ReadLittleEndian64FromArray buffer.
Definition ReadPrimitiveFromArray_sfixed32 (buffer : bytes) : Z := s32 (ReadLittleEndian32FromArray buffer).
Definition ReadPrimitiveFromArray_sfixed64 (buffer : bytes) : Z := s64 (ReadLittleEndian64FromArray buffer).
Definition ReadPrimitiveFromArray_float (buffer : bytes) : Z := DecodeFloat (ReadLittleEndian32FromArray buffer).
Definition ReadPrimitiveFromArray_double (buffer : bytes) : Z := DecodeDouble (ReadLittleEndian64FromArray buffer).

(** What the templates use of a declared type; [size_of] is the size of its values in
    memory, and [kSize] that of its encoding. *)
Class Primitive (t : FieldType) := {
  ReadPrimitive : CodedInputStream → option (CType t) * CodedInputStream;
  WriteNoTag : CType t → CodedOutputStream → CodedOutputStream;
  WriteNoTagToArray : CType t → bytes;
  kSize : CType t → Z;
  size_of : Z
}.
Arguments ReadPrimitive t {_} s.
Arguments WriteNoTag t {_} value o.
Arguments WriteNoTagToArray t {_} value.
Arguments kSize t {_} value.
Arguments size_of t {_}.

#[export] Instance int32_primitive : Primitive TYPE_INT32 := {
  ReadPrimitive s := stored (ReadPrimitive_int32 0 s); WriteNoTag := WriteInt32NoTag;
  WriteNoTagToArray := WriteInt32NoTagToArray; kSize := Int32Size; size_of := 4 }.
#[export] Instance int64_primitive : Primitive TYPE_INT64 := {
  ReadPrimitive := ReadPrimitive_int64; WriteNoTag := WriteInt64NoTag;
  WriteNoTagToArray := WriteInt64NoTagToArray; kSize := Int64Size; size_of := 8 }.
#[export] Instance uint32_primitive : Primitive TYPE_UINT32 := {
  ReadPrimitive := ReadPrimitive_uint32; WriteNoTag := WriteUInt32NoTag;
  WriteNoTagToArray := WriteUInt32NoTagToArray; kSize := UInt32Size; size_of := 4 }.
#[export] Instance uint64_primitive : Primitive TYPE_UINT64 := {
  ReadPrimitive := ReadPrimitive_uint64; WriteNoTag := WriteUInt64NoTag;
  WriteNoTagToArray := WriteUInt64NoTagToArray; kSize := UInt64Size; size_of := 8 }.
#[export] Instance sint32_primitive : Primitive TYPE_SINT32 := {
  ReadPrimitive := ReadPrimitive_sint32; WriteNoTag := WriteSInt32NoTag;
  WriteNoTagToArray := WriteSInt32NoTagToArray; kSize := SInt32Size; size_of := 4 }.
#[export] Instance sint64_primitive : Primitive TYPE_SINT64 := {
  ReadPrimitive := ReadPrimitive_sint64; WriteNoTag := WriteSInt64NoTag;
  WriteNoTagToArray := WriteSInt64NoTagToArray; kSize := SInt64Size; size_of := 8 }.
#[export] Instance fixed32_primitive : Primitive TYPE_FIXED32 := {
  ReadPrimitive := ReadPrimitive_fixed32; WriteNoTag := WriteFixed32NoTag;
  WriteNoTagToArray := WriteFixed32NoTagToArray; kSize _ := kFixed32Size; size_of := 4 }.
#[export] Instance fixed64_primitive : Primitive TYPE_FIXED64 := {
  ReadPrimitive := ReadPrimitive_fixed64; WriteNoTag := WriteFixed64NoTag;
  WriteNoTagToArray := WriteFixed64NoTagToArray; kSize _ := kFixed64Size; size_of := 8 }.
#[export] Instance sfixed32_primitive : Primitive TYPE_SFIXED32 := {
  ReadPrimitive := ReadPrimitive_sfixed32; WriteNoTag := WriteSFixed32NoTag;
  WriteNoTagToArray := WriteSFixed32NoTagToArray; kSize _ := kFixed32Size; size_of := 4 }.
#[export] Instance sfixed64_primitive : Primitive TYPE_SFIXED64 := {
  ReadPrimitive := ReadPrimitive_sfixed64; WriteNoTag := WriteSFixed64NoTag;
  WriteNoTagToArray := WriteSFixed64NoTagToArray; kSize _ := kFixed64Size; size_of := 8 }.
#[export] Instance float_primitive : Primitive TYPE_FLOAT := {
  ReadPrimitive s := stored (ReadPrimitive_float 0 s); WriteNoTag := WriteFloatNoTag;
  WriteNoTagToArray := WriteFloatNoTagToArray; kSize _ := kFixed32Size; size_of := 4 }.
#[export] Instance double_primitive : Primitive TYPE_DOUBLE := {
  ReadPrimitive := ReadPrimitive_double; WriteNoTag := WriteDoubleNoTag;
  WriteNoTagToArray := WriteDoubleNoTagToArray; kSize _ := kFixed64Size; size_of := 8 }.
#[export] Instance bool_primitive : Primitive TYPE_BOOL := {
  ReadPrimitive s := stored (ReadPrimitive_bool false s); WriteNoTag := WriteBoolNoTag;
  WriteNoTagToArray := WriteBoolNoTagToArray; kSize _ := kBoolSize; size_of := 1 }.
#[export] Instance enum_primitive : Primitive TYPE_ENUM := {
  ReadPrimitive s := stored (ReadPrimitive_enum 0 s); WriteNoTag := WriteEnumNoTag;
  WriteNoTagToArray := WriteEnumNoTagToArray; kSize := EnumSize; size_of := 4 }.

(** Types of fixed size on the wire, which are read from arrays; [to_memory] and
    [of_memory] relate a value and its representation in memory. *)
Class FixedPrimitive (t : FieldType) `{Primitive t} := {
  ReadPrimitiveFromArray : bytes → CType t;
  to_memory : CType t → bytes;
  of_memory : bytes → CType t;
  zero : CType t
}.
Arguments ReadPrimitiveFromArray t {_ _} buffer.
Arguments to_memory t {_ _} value.
Arguments of_memory t {_ _} raw.
Arguments zero t {_ _}.

Definition memory32 (value : Z) : bytes := map (λ k, z2b (Z.shiftr (u32 value) k)) [0; 8; 16; 24].
Definition memory64 (value : Z) : bytes := map (λ k, z2b (Z.shiftr (u64 value) k)) [0; 8; 16; 24; 32; 40; 48; 56].

(** The number bytes in memory stand for, the lowest first. *)
Definition from_memory (raw : bytes) : Z := fold_right (λ b acc, b2z b + 256 * acc) 0 raw.

#[export] Instance fixed32_fixed : FixedPrimitive TYPE_FIXED32 := {
  ReadPrimitiveFromArray := ReadPrimitiveFromArray_fixed32; to_memory := memory32; of_memory := from_memory; zero := 0 }.
#[export] Instance fixed64_fixed : FixedPrimitive TYPE_FIXED64 := {
  ReadPrimitiveFromArray := ReadPrimitiveFromArray_fixed64; to_memory := memory64; of_memory := from_memory; zero := 0 }.
#[export] Instance sfixed32_fixed : FixedPrimitive TYPE_SFIXED32 := {
  ReadPrimitiveFromArray := ReadPrimitiveFromArray_sfixed32; to_memory := memory32; of_memory raw := s32 (from_memory raw); zero := 0 }.
#[export] Instance sfixed64_fixed : FixedPrimitive TYPE_SFIXED64 := {
  ReadPrimitiveFromArray := ReadPrimitiveFromArray_sfixed64; to_memory := memory64; of_memory raw := s64 (from_memory raw); zero := 0 }.
#[export] Instance float_fixed : FixedPrimitive TYPE_FLOAT := {
  ReadPrimitiveFromArray := ReadPrimitiveFromArray_float; to_memory := memory32; of_memory := from_memory; zero := 0 }.
#[export] Instance double_fixed : FixedPrimitive TYPE_DOUBLE := {
  ReadPrimitiveFromArray := ReadPrimitiveFromArray_double; to_memory := memory64; of_memory := from_memory; zero := 0 }.

(** *** Fields with their tags *)

Section Fields.
Context (t : FieldType) `{Primitive t}.

(** [WriteInt32], ..., [WriteEnum], and the [...ToArray] ones. *)
Definition WritePrimitive (field_number : Z) (value : CType t) (o : CodedOutputStream) : CodedOutputStream :=
  WriteNoTag t value (WireFormatLite.WriteTag field_number (kWireTypeForFieldType t) o).
Definition WriteToArray (field_number : Z) (value : CType t) : bytes :=
  WireFormatLite.WriteTagToArray field_number (kWireTypeForFieldType t) ++ WriteNoTagToArray t value.
End Fields.

(** ** Repeated fields: writing *)

Section Repeated.
Import ScalarField.
Context (t : FieldType) `{Primitive t}.

(** [target = Writer(ii[i], target)] for [n] elements from [i] on. *)
Fixpoint write_elements (Writer : CType t → bytes) (n : nat) (i : Z) (value : RepeatedField (CType t)) : outcome bytes :=
  match n with
  | O => Ok []
  | S n => v ← element value i; rest ← write_elements Writer n (i + 1) value; Ok (Writer v ++ rest)
  end.

(** The loop looks at the first element before it looks at the number of them. *)
Definition WritePrimitiveNoTagToArray (value : RepeatedField (CType t)) : outcome bytes :=
  write_elements (WriteNoTagToArray t) (Z.to_nat (Z.max 1 (size value))) 0 value.

Definition WritePrimitiveToArray (field_number : Z) (value : RepeatedField (CType t)) : outcome bytes :=
  if size value =? 0 then Ok []
  else write_elements (WriteToArray t field_number) (Z.to_nat (Z.max 1 (size value))) 0 value.

(** [Int32Size(const RepeatedField<int32>&)] and its siblings, element by element. *)
Fixpoint sum_sizes (n : nat) (i out : Z) (value : RepeatedField (CType t)) : outcome Z :=
  match n with
  | O => Ok out
  | S n => v ← Get i value; sum_sizes n (i + 1) (u32 (out + kSize t v)) value
  end.
Definition RepeatedSize (value : RepeatedField (CType t)) : outcome Z := sum_sizes (Z.to_nat (size value)) 0 0 value.
End Repeated.

(** [VarintSize] and [VarintSize64], the versions without branches for the compilers
    that vectorise them: [data] is the array. *)
Definition over (x bound : Z) : Z := if bound <? x then 1 else 0.

Definition VarintSize (ZigZag SignExtended : bool) (data : list Z) : Z :=
  let '(sum, msb_sum) :=
    fold_left (λ '(sum, msb_sum) x,
      let x := u32 x in
      let msb_sum := if negb ZigZag && SignExtended then u32 (msb_sum + Z.shiftr x 31) else msb_sum in
      let x := if ZigZag then ZigZagEncode32 (s32 x) else x in
      (u32 (sum + over x 0x7F + over x 0x3FFF + over x 0x1FFFFF + over x 0xFFFFFFF), msb_sum)) data (u32 (zlen data), 0) in
  if SignExtended then u32 (sum + u32 (msb_sum * 5)) else sum.

Definition VarintSize64Array (ZigZag : bool) (data : list Z) : Z :=
  u32 (fold_left (λ sum x,
    let x := u64 x in
    let x := if ZigZag then ZigZagEncode64 (s64 x) else x in
    let tmp := if Z.shiftl 1 35 <=? x then 2 ^ 64 - 1 else 0 in
    let sum := u64 (sum + Z.land 5 tmp) in
    let x := Z.shiftr x (Z.land 35 tmp) in
    u64 (sum + over x 0x7F + over x 0x3FFF + over x 0x1FFFFF + over x 0xFFFFFFF)) data (u64 (zlen data))).

(** The memory of the elements is the wire format. *)
Section Fixed.
Import ScalarField.
Context (t : FieldType) `{FixedPrimitive t}.

Definition WriteFixedNoTagToArray (value : RepeatedField (CType t)) : outcome bytes :=
  if INT_MAX <? size value * size_of t then Undefined
  else write_elements t (to_memory t) (Z.to_nat (size value)) 0 value.

(** [WriteArray], on the elements of an array. *)
Definition WriteArray (a : list (CType t)) (o : CodedOutputStream) : CodedOutputStream := WriteRaw (concat (map (to_memory t) a)) o.
End Fixed.

(** ** Repeated fields: reading *)

Section ReadRepeated.
Import ScalarField.
Context (t : FieldType) `{Primitive t}.

(** The loop of [ReadRepeatedPrimitive]: [n] is [elements_already_reserved]. *)
Fixpoint read_repeated (n : nat) (tag : Z) (input : CodedInputStream) (values : RepeatedField (CType t))
  : outcome (bool * CodedInputStream * RepeatedField (CType t)) :=
  match n with
  | O => Ok (true, input, values)
  | S n =>
      let '(expected, input) := ExpectTag tag input in
      if expected then
        match ReadPrimitive t input with
        | (Some value, input) => values ← AddAlreadyReserved value values; read_repeated n tag input values
        | (None, input) => Ok (false, input, values)
        end
      else Ok (true, input, values)
  end.

Definition ReadRepeatedPrimitive (tag : Z) (input : CodedInputStream) (values : RepeatedField (CType t))
  : outcome (bool * CodedInputStream * RepeatedField (CType t)) :=
  match ReadPrimitive t input with
  | (Some value, input) =>
      values ← Add (size_of t) (Value value) values;
      read_repeated (Z.to_nat (Capacity values - size values)) tag input values
  | (None, input) => Ok (false, input, values)
  end.

(** [while (input->BytesUntilLimit() > 0)]: every value takes a byte. *)
Fixpoint read_packed (fuel : nat) (limit : Z) (input : CodedInputStream) (values : RepeatedField (CType t))
  : outcome (bool * CodedInputStream * RepeatedField (CType t)) :=
  if 0 <? BytesUntilLimit input then
    match fuel with
    | O => NoFuel
    | S fuel =>
        match ReadPrimitive t input with
        | (Some value, input) => values ← Add (size_of t) (Value value) values; read_packed fuel limit input values
        | (None, input) => Ok (false, input, values)
        end
    end
  else Ok (true, PopLimit limit input, values).

Definition ReadPackedPrimitive (input : CodedInputStream) (values : RepeatedField (CType t))
  : outcome (bool * CodedInputStream * RepeatedField (CType t)) :=
  match ReadVarintSizeAsInt input with
  | (Some length, input) =>
      let '(limit, input) := PushLimit length input in
      read_packed (WireFormat.unread input) limit input values
  | (None, input) => Ok (false, input, values)
  end.
End ReadRepeated.

Section ReadFixed.
Import ScalarField.
Context (t : FieldType) `{FixedPrimitive t}.

(** The loop over the buffer: the number of values read, which stay within the
    [elements_available]. *)
Fixpoint read_from_buffer (elements_available : nat) (tag : Z) (buffer : bytes) (values : RepeatedField (CType t))
  : outcome (Z * RepeatedField (CType t)) :=
  match elements_available with
  | O => Ok (0, values)
  | S n =>
      r ← ExpectTagFromArray buffer tag;
      match r with
      | None => Ok (0, values)
      | Some buffer =>
          if zlen buffer <? size_of t then Undefined
          else
            values ← AddAlreadyReserved (ReadPrimitiveFromArray t buffer) values;
            '(num_read, values) ← read_from_buffer n tag (drop (Z.to_nat (size_of t)) buffer) values;
            Ok (num_read + 1, values)
      end
  end.

Definition ReadRepeatedFixedSizePrimitive (tag_size tag : Z) (input : CodedInputStream) (values : RepeatedField (CType t))
  : outcome (bool * CodedInputStream * RepeatedField (CType t)) :=
  match ReadPrimitive t input with
  | (None, input) => Ok (false, input, values)
  | (Some value, input) =>
      values ← Add (size_of t) (Value value) values;
      let buffer := GetDirectBufferPointerInline input in
      if 0 <? zlen buffer then
        let per_value_size := tag_size + size_of t in
        let elements_available := Z.min (Capacity values - size values) (zlen buffer / per_value_size) in
        '(num_read, values) ← read_from_buffer (Z.to_nat elements_available) tag buffer values;
        let read_bytes := num_read * per_value_size in
        Ok (true, if 0 <? read_bytes then snd (Skip read_bytes input) else input, values)
      else Ok (true, input, values)
  end.

(** The values in a piece of memory. *)
Fixpoint of_raw (n : nat) (raw : bytes) : list (CType t) :=
  match n with
  | O => []
  | S n => of_memory t (take (Z.to_nat (size_of t)) raw) :: of_raw n (drop (Z.to_nat (size_of t)) raw)
  end.

(** The path without allocation in advance. *)
Fixpoint read_values (n : nat) (input : CodedInputStream) (values : RepeatedField (CType t))
  : outcome (bool * CodedInputStream * RepeatedField (CType t)) :=
  match n with
  | O => Ok (true, input, values)
  | S n =>
      match ReadPrimitive t input with
      | (Some value, input) => values ← Add (size_of t) (Value value) values; read_values n input values
      | (None, input) => Ok (false, input, values)
      end
  end.

(** [ReadRaw] fills the elements that [Resize] has made.  When it fails these are
    removed again; what it has put into their slots is not modelled. *)
Definition ReadPackedFixedSizePrimitive (input : CodedInputStream) (values : RepeatedField (CType t))
  : outcome (bool * CodedInputStream * RepeatedField (CType t)) :=
  match ReadVarintSizeAsInt input with
  | (None, input) => Ok (false, input, values)
  | (Some length, input) =>
      let old_entries := size values in
      let new_entries := length / size_of t in
      let new_bytes := new_entries * size_of t in
      if negb (new_bytes =? length) then Ok (false, input, values)
      else
        let bytes_limit := BytesUntilTotalBytesLimit input in
        let bytes_limit := if bytes_limit =? -1 then BytesUntilLimit input else Z.min bytes_limit (BytesUntilLimit input) in
        if new_bytes <=? bytes_limit then
          n ← add_int old_entries new_entries;
          values ← Resize (size_of t) n (Value (zero t)) values;
          let '(ok, raw, input) := ReadRaw new_bytes input in
          if ok then
            values ← put_slots old_entries (map Some (of_raw (Z.to_nat new_entries) raw)) values;
            Ok (true, input, values)
          else Ok (false, input, Truncate old_entries values)
        else read_values (Z.to_nat new_entries) input values
  end.
End ReadFixed.
End WireTypes.
