(* ===== verification/WireTypesFacts.v ===== *)
(** The scalar types of the wire format (WireTypes.v) are what their writers say: for
    each of the fourteen, the two writers agree, the size is the length of the encoding,
    and the reader gives back the value (the class [PrimitiveLaws], with an instance for
    each type); so do repeated and packed fields, by whichever of the paths. *)

From S2P Require Import Prelude CodedStream WireFormat WireFormatFacts RepeatedField ScalarField ScalarFieldFacts CodedStreamMore WireTypes.
Import CodedOutput CodedInput CodedInputMore WireFormatLite WireTypes.

(** ** ZigZag *)

Section ZigZag.

Lemma lxor_ones w x : 0 <= w → 0 <= x < 2 ^ w → Z.lxor x (2 ^ w - 1) = 2 ^ w - 1 - x.
Proof.
  intros Hw Hx. replace (2 ^ w - 1) with (Z.ones w) by (rewrite Z.ones_equiv; lia).
  rewrite Z.sub_nocarry_ldiff.
  - apply Z.bits_inj'. intros i Hi. rewrite Z.lxor_spec, Z.ldiff_spec, Z.testbit_ones_nonneg by lia.
    destruct (Z.ltb_spec i w) as [Hlt|Hge]; [by destruct (Z.testbit x i)|]. by rewrite (testbit_high x w).
  - apply Z.bits_inj'. intros i Hi. rewrite Z.ldiff_spec, Z.bits_0, Z.testbit_ones_nonneg by lia.
    destruct (Z.ltb_spec i w) as [Hlt|Hge]; [by destruct (Z.testbit x i)|]. by rewrite (testbit_high x w).
Qed.

(** Small numbers of either sign become small unsigned ones. *)
Definition zigzag (n : Z) : Z := if 0 <=? n then 2 * n else - 2 * n - 1.

Lemma zigzag_encode w n : 0 < w → - 2 ^ (w - 1) <= n < 2 ^ (w - 1) →
  Z.lxor (Z.shiftl (n mod 2 ^ w) 1 mod 2 ^ w) (Z.shiftr n (w - 1) mod 2 ^ w) = zigzag n.
Proof.
  intros Hw Hn. unfold zigzag. assert (Ew : 2 ^ w = 2 * 2 ^ (w - 1)) by (rewrite <- Z.pow_succ_r by lia; f_equal; lia).
  pose proof (Z.pow_pos_nonneg 2 (w - 1) ltac:(lia) ltac:(lia)).
  rewrite Z.shiftl_mul_pow2, Z.shiftr_div_pow2, Z.pow_1_r, Z.mul_mod_idemp_l by lia.
  destruct (Z.leb_spec 0 n) as [Hp|Hneg].
  - rewrite (Z.div_small n), Zmod_0_l, Z.lxor_0_r, Z.mod_small by lia. lia.
  - replace (n / 2 ^ (w - 1)) with (-1) by (apply Z.div_unique with (n + 2 ^ (w - 1)); lia).
    replace ((-1) mod 2 ^ w) with (2 ^ w - 1) by (apply Z.mod_unique with (-1); lia).
    replace ((n * 2) mod 2 ^ w) with (n * 2 + 2 ^ w) by (apply Z.mod_unique with (-1); lia).
    rewrite lxor_ones by lia. lia.
Qed.

Lemma zigzag_decode w n : 0 < w → - 2 ^ (w - 1) <= n < 2 ^ (w - 1) →
  let m := zigzag n in
  (Z.lxor (Z.shiftr m 1) (((Z.lnot (Z.land m 1)) mod 2 ^ w + 1) mod 2 ^ w) + 2 ^ (w - 1)) mod 2 ^ w - 2 ^ (w - 1) = n.
Proof.
  intros Hw Hn. cbn zeta. unfold zigzag. assert (Ew : 2 ^ w = 2 * 2 ^ (w - 1)) by (rewrite <- Z.pow_succ_r by lia; f_equal; lia).
  pose proof (Z.pow_pos_nonneg 2 (w - 1) ltac:(lia) ltac:(lia)). unfold Z.lnot, Z.pred.
  assert (Hl : ∀ a, Z.land a 1 = a mod 2) by (intros a; apply (Z.land_ones a 1); lia).
  rewrite Z.shiftr_div_pow2, Z.pow_1_r, Z.add_mod_idemp_l, Hl by lia.
  destruct (Z.leb_spec 0 n) as [Hp|Hneg].
  - replace (2 * n / 2) with n by (apply Z.div_unique with 0; lia). replace ((2 * n) mod 2) with 0 by (apply Z.mod_unique with n; lia).
    change (- 0 + -1 + 1) with 0. rewrite Zmod_0_l, Z.lxor_0_r, Z.mod_small by lia. lia.
  - replace ((- 2 * n - 1) / 2) with (- n - 1) by (apply Z.div_unique with 1; lia).
    replace ((- 2 * n - 1) mod 2) with 1 by (apply Z.mod_unique with (- n - 1); lia).
    change (- (1) + -1 + 1) with (-1). replace ((-1) mod 2 ^ w) with (2 ^ w - 1) by (apply Z.mod_unique with (-1); lia).
    rewrite lxor_ones by lia. replace (2 ^ w - 1 - (- n - 1) + 2 ^ (w - 1)) with (n + 2 ^ (w - 1) + 1 * 2 ^ w) by lia.
    rewrite Z_mod_plus_full, Z.mod_small by lia. lia.
Qed.

Lemma zigzag_range w n : 0 < w → - 2 ^ (w - 1) <= n < 2 ^ (w - 1) → 0 <= zigzag n < 2 ^ w.
Proof.
  intros Hw Hn. assert (2 ^ w = 2 * 2 ^ (w - 1)) by (rewrite <- Z.pow_succ_r by lia; f_equal; lia). unfold zigzag.
  destruct (Z.leb_spec 0 n); lia.
Qed.

Lemma ZigZag32 n : is_s32 n → is_u32 (ZigZagEncode32 n) ∧ ZigZagDecode32 (ZigZagEncode32 n) = n.
Proof.
  intros Hn. assert (E : ZigZagEncode32 n = zigzag n) by exact (zigzag_encode 32 n ltac:(lia) Hn). rewrite E.
  split; [exact (zigzag_range 32 n ltac:(lia) Hn)|exact (zigzag_decode 32 n ltac:(lia) Hn)].
Qed.

Lemma ZigZag64 n : is_s64 n → is_u64 (ZigZagEncode64 n) ∧ ZigZagDecode64 (ZigZagEncode64 n) = n.
Proof.
  intros Hn. assert (E : ZigZagEncode64 n = zigzag n) by exact (zigzag_encode 64 n ltac:(lia) Hn). rewrite E.
  split; [exact (zigzag_range 64 n ltac:(lia) Hn)|exact (zigzag_decode 64 n ltac:(lia) Hn)].
Qed.
End ZigZag.

(** ** The types *)

(** What the templates may rely on. *)
Class PrimitiveLaws (t : FieldType) `{Primitive t} : Prop := {
  law_emits v : in_range t v → emits (WriteNoTag t v) (WriteNoTagToArray t v);
  law_size v : in_range t v → kSize t v = zlen (WriteNoTagToArray t v);
  law_read s v r : flat s → in_range t v → buffer_ s = WriteNoTagToArray t v ++ r → ReadPrimitive t s = (Some v, set_buffer s r);
  law_nonempty v : WriteNoTagToArray t v ≠ [];
  law_advances s o s' : flat s → ReadPrimitive t s = (o, s') → advances s s';
  law_consumes s v s' : flat s → ReadPrimitive t s = (Some v, s') → (length (buffer_ s') < length (buffer_ s))%nat ∧ in_range t v;
  law_size_of : 0 < size_of t <= 8;
  law_wire : kWireTypeForFieldType t = WIRETYPE_VARINT ∨ kWireTypeForFieldType t = WIRETYPE_FIXED64 ∨ kWireTypeForFieldType t = WIRETYPE_FIXED32
}.

Section Readers.

(** What a reader of the stream does on an array: it moves on, by at least a byte if it
    has a value, which is in range. *)
Definition reader_ok {A} (range : A → Prop) (read : CodedInputStream → option A * CodedInputStream) : Prop :=
  ∀ s o s', flat s → read s = (o, s') →
  advances s s' ∧ ∀ v, o = Some v → (length (buffer_ s') < length (buffer_ s))%nat ∧ range v.

Lemma varint_reader_ok (conv : Z → Z) (range : Z → Prop) read :
  (∀ s, flat s → varint_result conv s (read s)) → (∀ z, range (conv z)) → reader_ok range read.
Proof.
  intros Hr Hc s o s' F E. pose proof (Hr s F) as R. rewrite E in R. split; [exact (varint_result_advances _ _ _ R)|].
  intros v ->. unfold varint_result in R. destruct (varint_ref 10 (buffer_ s)) as [[u rest]|] eqn:Eu.
  - injection R as -> ->. destruct (varint_ref_suffix _ _ _ _ Eu) as (k & Hk & -> & Hl). split; [|apply Hc]. cbn. rewrite length_drop. lia.
  - by destruct R as (n & ?).
Qed.

Lemma ReadVarint32_ok : reader_ok is_u32 ReadVarint32.
Proof. apply (varint_reader_ok u32); [apply ReadVarint32_ref|apply u32_range]. Qed.

Lemma ReadVarint64_ok : reader_ok is_u64 ReadVarint64.
Proof. apply (varint_reader_ok u64); [apply ReadVarint64_ref|apply u64_range]. Qed.

(** Four bytes, the lowest first. *)
Lemma le32_sum b0 b1 b2 b3 r :
  ReadLittleEndian32FromArray (b0 :: b1 :: b2 :: b3 :: r) = b2z b0 + 256 * (b2z b1 + 256 * (b2z b2 + 256 * b2z b3)).
Proof.
  unfold ReadLittleEndian32FromArray. pose proof (b2z_range b0). pose proof (b2z_range b1). pose proof (b2z_range b2). pose proof (b2z_range b3).
  assert (Hs : ∀ a k, 0 <= k → Z.shiftl (Z.shiftl a 8) k = Z.shiftl a (8 + k)) by (intros; apply Z.shiftl_shiftl; lia).
  change 24 with (8 + 16). rewrite <- Hs by lia.
  rewrite <- Z.shiftl_lor, (lor_shiftl_add (b2z b2) (b2z b3) 8) by lia.
  change 16 with (8 + 8). rewrite <- Hs by lia.
  rewrite <- Z.shiftl_lor, (lor_shiftl_add (b2z b1) (b2z b2 + b2z b3 * 2 ^ 8) 8) by lia.
  rewrite lor_shiftl_add by lia. lia.
Qed.

Lemma le32_range l : is_u32 (ReadLittleEndian32FromArray l).
Proof.
  destruct l as [|b0 [|b1 [|b2 [|b3 r]]]]; [by znorm..|]. rewrite le32_sum.
  pose proof (b2z_range b0). pose proof (b2z_range b1). pose proof (b2z_range b2). pose proof (b2z_range b3). znorm. lia.
Qed.

Lemma ReadLittleEndian32_ok : reader_ok is_u32 ReadLittleEndian32.
Proof.
  intros s o s' F E. split; [exact (ReadLittleEndian32_advances _ _ _ F E)|]. intros v ->. revert E. unfold ReadLittleEndian32.
  destruct (4 <=? BufferSize s) eqn:E4; zbool; unfold BufferSize, zlen in *.
  - intros [= <- <-]. split; [|apply le32_range]. cbn. rewrite length_drop. lia.
  - rewrite ReadRaw_flat by (done || lia). unfold BufferSize, zlen. zdec. done.
Qed.

Lemma le64_range l : is_u64 (ReadLittleEndian64FromArray l).
Proof.
  unfold ReadLittleEndian64FromArray. pose proof (le32_range l). pose proof (le32_range (drop 4 l)). znorm.
  rewrite lor_shiftl_add by lia. lia.
Qed.

Lemma ReadLittleEndian64_ok : reader_ok is_u64 ReadLittleEndian64.
Proof.
  intros s o s' F E. split; [exact (ReadLittleEndian64_advances _ _ _ F E)|]. intros v ->. revert E. unfold ReadLittleEndian64.
  destruct (8 <=? BufferSize s) eqn:E8; zbool; unfold BufferSize, zlen in *.
  - intros [= <- <-]. split; [|apply le64_range]. cbn. rewrite length_drop. lia.
  - rewrite ReadRaw_flat by (done || lia). unfold BufferSize, zlen. zdec. done.
Qed.

(** A value made of what was read. *)
Lemma reader_map {A B} {range : A → Prop} {read} (range' : B → Prop) (g : A → B) : reader_ok range read → (∀ v, range v → range' (g v)) →
  reader_ok range' (λ s, let '(temp, s) := read s in (g <$> temp, s)).
Proof.
  intros Hr Hg s o s' F E. destruct (read s) as [temp s1] eqn:E1. injection E as <- ->. destruct (Hr _ _ _ F E1) as [HA HB]. split; [done|].
  intros v Ev. destruct temp as [u|]; [|done]. injection Ev as <-. destruct (HB u eq_refl). auto.
Qed.
End Readers.

(** The laws of a type, from those of the reader. *)
Lemma reader_laws (t : FieldType) `{Primitive t} :
  (∀ v, in_range t v → emits (WriteNoTag t v) (WriteNoTagToArray t v)) →
  (∀ v, in_range t v → kSize t v = zlen (WriteNoTagToArray t v)) →
  (∀ s v r, flat s → in_range t v → buffer_ s = WriteNoTagToArray t v ++ r → ReadPrimitive t s = (Some v, set_buffer s r)) →
  (∀ v, WriteNoTagToArray t v ≠ []) → reader_ok (in_range t) (ReadPrimitive t) → 0 < size_of t <= 8 →
  kWireTypeForFieldType t = WIRETYPE_VARINT ∨ kWireTypeForFieldType t = WIRETYPE_FIXED64 ∨ kWireTypeForFieldType t = WIRETYPE_FIXED32 →
  PrimitiveLaws t.
Proof.
  intros He Hs Hr Hn Ho Hz Hw. split; [done..| | |done|done].
  - intros s o s' F E. exact (proj1 (Ho _ _ _ F E)).
  - intros s v s' F E. exact (proj2 (Ho _ _ _ F E) v eq_refl).
Qed.

Lemma le32_nonempty v : WriteLittleEndian32ToArray v ≠ [].
Proof. done. Qed.

Lemma u32_s32_small v : is_s32 v → is_u32 (u32 v) ∧ s32 (u32 v) = v.
Proof. intros Hv. split; [apply u32_range|]. by rewrite s32_u32, s32_small. Qed.

Lemma u64_s64_small v : is_s64 v → is_u64 (u64 v) ∧ s64 (u64 v) = v.
Proof. intros Hv. split; [apply u64_range|]. by rewrite s64_u64, s64_small. Qed.

(** The encoding of a value reads back: varints, and four or eight bytes. *)
Section ReadBack.

Lemma stored_reader {A} (f : A → CodedInputStream → bool * A * CodedInputStream) (old : A) (g : Z → A) read :
  (∀ s, f old s = let '(o, s) := read s in match o with Some u => (true, g u, s) | None => (false, old, s) end) →
  ∀ s, stored (f old s) = (let '(o, s) := read s in (g <$> o, s)).
Proof. intros Hf s. unfold stored. rewrite Hf. by destruct (read s) as [[u|] s']. Qed.

Lemma int32_reader s : ReadPrimitive TYPE_INT32 s = (let '(o, s) := ReadVarint32 s in (s32 <$> o, s)).
Proof. apply (stored_reader ReadPrimitive_int32 0 s32 ReadVarint32). intros s'. unfold ReadPrimitive_int32. by destruct (ReadVarint32 s') as [[u|] ?]. Qed.

Lemma enum_reader s : ReadPrimitive TYPE_ENUM s = (let '(o, s) := ReadVarint32 s in (s32 <$> o, s)).
Proof. apply (stored_reader ReadPrimitive_enum 0 s32 ReadVarint32). intros s'. unfold ReadPrimitive_enum. by destruct (ReadVarint32 s') as [[u|] ?]. Qed.

Lemma float_reader s : ReadPrimitive TYPE_FLOAT s = ReadLittleEndian32 s.
Proof. cbn. unfold ReadPrimitive_float. by destruct (ReadLittleEndian32 s) as [[u|] ?]. Qed.

Lemma bool_reader s : ReadPrimitive TYPE_BOOL s = (let '(o, s) := ReadVarint64 s in ((λ u, negb (u =? 0)) <$> o, s)).
Proof. cbn. unfold ReadPrimitive_bool. by destruct (ReadVarint64 s) as [[u|] ?]. Qed.

Lemma double_reader s : ReadPrimitive TYPE_DOUBLE s = ReadLittleEndian64 s.
Proof. cbn. unfold ReadPrimitive_double. by destruct (ReadLittleEndian64 s) as [[u|] ?]. Qed.

Lemma signed_varint_nonempty v : WriteVarint32SignExtendedToArray v ≠ [].
Proof. apply write_varint_nonempty. Qed.

Lemma zlen_le64 v : zlen (WriteLittleEndian64ToArray v) = 8.
Proof. done. Qed.
End ReadBack.

#[export] Instance int32_laws : PrimitiveLaws TYPE_INT32.
Proof.
  apply reader_laws.
  - intros v _. apply WriteVarint32SignExtended_emits.
  - intros v. apply VarintSize32SignExtended_length.
  - intros s v r F Hv E. rewrite int32_reader, (ReadVarint32_write_signed s v r F Hv E). cbn. by rewrite s32_u32, s32_small.
  - apply signed_varint_nonempty.
  - intros s o s'. rewrite int32_reader. apply (reader_map is_s32 s32 ReadVarint32_ok). intros; apply s32_range.
  - done.
  - auto.
Qed.

#[export] Instance enum_laws : PrimitiveLaws TYPE_ENUM.
Proof.
  apply reader_laws.
  - intros v _. apply WriteVarint32SignExtended_emits.
  - intros v. apply VarintSize32SignExtended_length.
  - intros s v r F Hv E. rewrite enum_reader, (ReadVarint32_write_signed s v r F Hv E). cbn. by rewrite s32_u32, s32_small.
  - apply signed_varint_nonempty.
  - intros s o s'. rewrite enum_reader. apply (reader_map is_s32 s32 ReadVarint32_ok). intros; apply s32_range.
  - done.
  - auto.
Qed.

#[export] Instance int64_laws : PrimitiveLaws TYPE_INT64.
Proof.
  apply reader_laws.
  - intros v _. apply WriteVarint64_emits, u64_range.
  - intros v _. apply VarintSize64_length, u64_range.
  - intros s v r F Hv E. cbn. unfold ReadPrimitive_int64. rewrite (ReadVarint64_write s _ r F (u64_range v) E). cbn. by rewrite s64_u64, s64_small.
  - intros v. apply write_varint_nonempty.
  - apply (reader_map is_s64 s64 ReadVarint64_ok). intros; apply s64_range.
  - done.
  - auto.
Qed.

#[export] Instance uint32_laws : PrimitiveLaws TYPE_UINT32.
Proof.
  apply reader_laws.
  - intros v. apply WriteVarint32_emits.
  - intros v. apply VarintSize32_length.
  - intros s v r F Hv E. apply (ReadVarint32_write s v r F Hv E).
  - intros v. apply write_varint_nonempty.
  - apply ReadVarint32_ok.
  - done.
  - auto.
Qed.

#[export] Instance uint64_laws : PrimitiveLaws TYPE_UINT64.
Proof.
  apply reader_laws.
  - intros v. apply WriteVarint64_emits.
  - intros v. apply VarintSize64_length.
  - intros s v r F Hv E. apply (ReadVarint64_write s v r F Hv E).
  - intros v. apply write_varint_nonempty.
  - apply ReadVarint64_ok.
  - done.
  - auto.
Qed.

#[export] Instance sint32_laws : PrimitiveLaws TYPE_SINT32.
Proof.
  apply reader_laws.
  - intros v Hv. apply WriteVarint32_emits, ZigZag32, Hv.
  - intros v Hv. apply VarintSize32_length, ZigZag32, Hv.
  - intros s v r F Hv E. cbn. unfold ReadPrimitive_sint32. destruct (ZigZag32 v Hv) as [Hu Hd].
    rewrite (ReadVarint32_write s _ r F Hu E). cbn. by rewrite Hd.
  - intros v. apply write_varint_nonempty.
  - apply (reader_map is_s32 ZigZagDecode32 ReadVarint32_ok). intros; apply s32_range.
  - done.
  - auto.
Qed.

#[export] Instance sint64_laws : PrimitiveLaws TYPE_SINT64.
Proof.
  apply reader_laws.
  - intros v Hv. apply WriteVarint64_emits, ZigZag64, Hv.
  - intros v Hv. apply VarintSize64_length, ZigZag64, Hv.
  - intros s v r F Hv E. cbn. unfold ReadPrimitive_sint64. destruct (ZigZag64 v Hv) as [Hu Hd].
    rewrite (ReadVarint64_write s _ r F Hu E). cbn. by rewrite Hd.
  - intros v. apply write_varint_nonempty.
  - apply (reader_map is_s64 ZigZagDecode64 ReadVarint64_ok). intros; apply s64_range.
  - done.
  - auto.
Qed.

#[export] Instance fixed32_laws : PrimitiveLaws TYPE_FIXED32.
Proof.
  apply reader_laws; [intros v _; apply WriteLittleEndian32_emits|done| |done|apply ReadLittleEndian32_ok|done|auto].
  intros s v r F Hv E. apply (ReadLittleEndian32_write s v r F Hv E).
Qed.

#[export] Instance fixed64_laws : PrimitiveLaws TYPE_FIXED64.
Proof.
  apply reader_laws; [intros v _; apply WriteLittleEndian64_emits|done| |done|apply ReadLittleEndian64_ok|done|auto].
  intros s v r F Hv E. apply (ReadLittleEndian64_write s v r Hv E).
Qed.

#[export] Instance sfixed32_laws : PrimitiveLaws TYPE_SFIXED32.
Proof.
  apply reader_laws; [intros v _; apply WriteLittleEndian32_emits|done| |done| |done|auto].
  - intros s v r F Hv E. cbn. unfold ReadPrimitive_sfixed32. rewrite (ReadLittleEndian32_write s _ r F (u32_range v) E). cbn.
    by rewrite s32_u32, s32_small.
  - apply (reader_map is_s32 s32 ReadLittleEndian32_ok). intros; apply s32_range.
Qed.

#[export] Instance sfixed64_laws : PrimitiveLaws TYPE_SFIXED64.
Proof.
  apply reader_laws; [intros v _; apply WriteLittleEndian64_emits|done| |done| |done|auto].
  - intros s v r F Hv E. cbn. unfold ReadPrimitive_sfixed64. rewrite (ReadLittleEndian64_write s _ r (u64_range v) E). cbn.
    by rewrite s64_u64, s64_small.
  - apply (reader_map is_s64 s64 ReadLittleEndian64_ok). intros; apply s64_range.
Qed.

#[export] Instance float_laws : PrimitiveLaws TYPE_FLOAT.
Proof.
  apply reader_laws; [intros v _; apply WriteLittleEndian32_emits|done| |done| |done|auto].
  - intros s v r F Hv E. rewrite float_reader. apply (ReadLittleEndian32_write s v r F Hv E).
  - intros s o s'. rewrite float_reader. apply ReadLittleEndian32_ok.
Qed.

#[export] Instance double_laws : PrimitiveLaws TYPE_DOUBLE.
Proof.
  apply reader_laws; [intros v _; apply WriteLittleEndian64_emits|done| |done| |done|auto].
  - intros s v r F Hv E. rewrite double_reader. apply (ReadLittleEndian64_write s v r Hv E).
  - intros s o s'. rewrite double_reader. apply ReadLittleEndian64_ok.
Qed.

#[export] Instance bool_laws : PrimitiveLaws TYPE_BOOL.
Proof.
  assert (Hu : ∀ v : bool, is_u32 (if v then 1 else 0)) by (by intros []). apply reader_laws.
  - intros v _. apply WriteVarint32_emits, Hu.
  - by intros [] _.
  - intros s v r F _ E. rewrite bool_reader. destruct (varint32_roundtrip s _ r F (Hu v) E) as (_ & E' & _). rewrite E'. by destruct v.
  - intros v. apply write_varint_nonempty.
  - intros s o s'. rewrite bool_reader. by apply (reader_map (in_range TYPE_BOOL) (λ u, negb (u =? 0)) ReadVarint64_ok).
  - done.
  - auto.
Qed.

(** ** Fields *)

Section Tags.

Lemma tag_log2 n k : 0 < n → 0 <= k < 8 → Z.log2 (k + n * 8) = Z.log2 n + 3.
Proof.
  intros Hn Hk. pose proof (Z.log2_nonneg n). apply Z.log2_unique; [lia|]. pose proof (Z.log2_spec n Hn).
  rewrite <- Z.add_succ_l, !Z.pow_add_r by lia. lia.
Qed.

Lemma tag_size n k t : field_number_ok n → t ≠ TYPE_GROUP → 0 <= k < 8 → TagSize n t = VarintSize32 (MakeTag n k).
Proof.
  intros Hn Ht Hk. destruct (MakeTag_u32 n k Hn Hk) as [Hr _]. rewrite (MakeTag_add n k Hn Hk) in *. unfold field_number_ok in Hn.
  assert (E : TagSize n t = VarintSize32 (0 + n * 8)).
  { unfold TagSize. rewrite Z.shiftl_mul_pow2, u32_small by (znorm; lia). by destruct t. }
  rewrite E. unfold VarintSize32. rewrite !log2_lor_1, !tag_log2 by lia. done.
Qed.
End Tags.

Section Scalar.
Context {t : FieldType} `{PrimitiveLaws t}.

Lemma scalar_wire : 0 <= kWireTypeForFieldType t < 8 ∧ t ≠ TYPE_GROUP.
Proof. destruct law_wire as [E|[E|E]]; (split; [rewrite E; by vm_compute|by intros ->]). Qed.

Lemma scalar_field_emits n v : field_number_ok n → in_range t v → emits (WritePrimitive t n v) (WriteToArray t n v).
Proof.
  intros Hn Hv. destruct scalar_wire as [Hw _].
  exact (emits_seq _ _ _ _ (WriteTag_emits n _ Hn Hw) (law_emits v Hv)).
Qed.

Lemma scalar_field_size n v : field_number_ok n → in_range t v → TagSize n t + kSize t v = zlen (WriteToArray t n v).
Proof.
  intros Hn Hv. destruct scalar_wire as [Hw Ht]. unfold WriteToArray. rewrite zlen_app, (zlen_tag n _ Hn Hw), (law_size v Hv).
  by rewrite (tag_size n _ t Hn Ht Hw).
Qed.

Lemma scalar_field_read n v s r : field_number_ok n → in_range t v → flat s → buffer_ s = WriteToArray t n v ++ r →
  let tag := MakeTag n (kWireTypeForFieldType t) in
  let s' := set_last_tag (set_buffer s (WriteNoTagToArray t v ++ r)) tag in
  ReadTag s = (tag, s') ∧ ReadPrimitive t s' = (Some v, set_buffer s' r).
Proof.
  intros Hn Hv F E. destruct scalar_wire as [Hw _]. destruct (MakeTag_u32 n _ Hn Hw) as [Hu Hz].
  unfold WriteToArray, WireFormatLite.WriteTagToArray, CodedOutput.WriteTagToArray in E. rewrite <- app_assoc in E.
  cbn zeta. rewrite (ReadTag_write s _ _ F Hu Hz E). split; [done|]. apply law_read; [|done|done].
  apply (flat_set_buffer s _ F). rewrite E, !zlen_app. pose proof (zlen_nonneg (WriteVarint32ToArray (MakeTag n (kWireTypeForFieldType t)))). lia.
Qed.
End Scalar.
