(* ===== verification/PackedFields.v ===== *)
(** Repeated fields of scalars on the wire (WireTypes.v): what the writers of packed and
    of unpacked fields write is read back by either reader, the readers for types of
    fixed size do what the generic ones do, and on arbitrary input every reader stays
    within the array and returns. *)

From S2P Require Import Prelude CodedStream WireFormat WireFormatFacts RepeatedField ScalarField ScalarFieldFacts CodedStreamMore WireTypes WireTypesFacts.
Import CodedOutput CodedInput CodedInputMore WireFormatLite WireTypes ScalarField.

(** *** Writing *)

Section Writing.
Context (t : FieldType) `{PrimitiveLaws t}.
Implicit Types (f : RepeatedField (CType t)) (vs l : list (CType t)).

(** The elements, one after the other. *)
Definition encoding vs : bytes := concat (map (WriteNoTagToArray t) vs).
Definition fields_encoding (n : Z) vs : bytes := concat (map (WriteToArray t n) vs).

Lemma write_elements_spec (W : CType t → bytes) f a vs b : shape f (a ++ vs ++ b) →
  write_elements t W (length vs) (zlen a) f = Ok (concat (map W vs)).
Proof.
  revert a. induction vs as [|v vs IH]; intros a Hs; [done|]. cbn [length write_elements map concat].
  rewrite (Get_split f a v (vs ++ b) Hs : element f _ = _). cbn [mbind outcome_bind].
  replace (zlen a + 1) with (zlen (a ++ [v])) by (rewrite zlen_app; done). rewrite IH; [done|]. by rewrite <- app_assoc.
Qed.

Lemma shape_all f vs : shape f vs → shape f ([] ++ vs ++ []).
Proof. by rewrite app_nil_r. Qed.

Lemma shape_length f vs : shape f vs → Z.to_nat (size f) = length vs.
Proof. intros Hs. unfold size. rewrite (sh_current _ _ Hs). unfold zlen. lia. Qed.

Lemma WritePrimitiveNoTagToArray_spec f vs : shape f vs → vs ≠ [] → WritePrimitiveNoTagToArray t f = Ok (encoding vs).
Proof.
  intros Hs Hn. unfold WritePrimitiveNoTagToArray. replace (Z.to_nat (Z.max 1 (size f))) with (length vs).
  - exact (write_elements_spec _ f [] vs [] (shape_all f vs Hs)).
  - unfold size. rewrite (sh_current _ _ Hs). destruct vs; [done|]. unfold zlen. cbn [length]. lia.
Qed.

Lemma WritePrimitiveToArray_spec n f vs : shape f vs → WritePrimitiveToArray t n f = Ok (fields_encoding n vs).
Proof.
  intros Hs. unfold WritePrimitiveToArray, size. rewrite (sh_current _ _ Hs). destruct vs as [|v vs]; [done|]. rewrite zlen_cons.
  pose proof (zlen_nonneg vs). zdec. replace (Z.to_nat (Z.max 1 (1 + zlen vs))) with (length (v :: vs)) by (unfold zlen; cbn [length]; lia).
  exact (write_elements_spec _ f [] (v :: vs) [] (shape_all f _ Hs)).
Qed.

Lemma RepeatedSize_spec f vs : shape f vs → Forall (in_range t) vs → RepeatedSize t f = Ok (u32 (zlen (encoding vs))).
Proof.
  intros Hs Hv. unfold RepeatedSize. rewrite (shape_length f vs Hs).
  assert (Hg : ∀ a b k, vs = a ++ b → sum_sizes t (length b) (zlen a) (u32 k) f = Ok (u32 (k + zlen (encoding b)))); [|exact (Hg [] vs 0 eq_refl)].
  intros a b. revert a. induction b as [|v b IH]; intros a k E; [by rewrite Z.add_0_r|]. cbn [length sum_sizes]. rewrite E in Hs, Hv.
  rewrite (Get_split f a v b Hs). cbn [mbind outcome_bind]. apply Forall_app in Hv as [_ Hv]. apply Forall_cons in Hv as [Hv _].
  rewrite (law_size v Hv), u32_add_l. replace (zlen a + 1) with (zlen (a ++ [v])) by (rewrite zlen_app; done).
  rewrite IH by (by rewrite <- app_assoc). unfold encoding. cbn [map concat]. rewrite zlen_app. f_equal. f_equal. lia.
Qed.

(** The stream writers write the same, element by element. *)
Lemma elements_emit vs : Forall (in_range t) vs → emits (fold_left (λ o v, WriteNoTag t v o) vs) (encoding vs).
Proof. intros Hv. apply fold_left_emits. eapply Forall_impl; [exact Hv|]. intros v. apply law_emits. Qed.

Lemma encoding_cons v vs : encoding (v :: vs) = WriteNoTagToArray t v ++ encoding vs.
Proof. done. Qed.

Lemma encoding_length vs : (length vs <= length (encoding vs))%nat.
Proof.
  induction vs as [|v vs IH]; [done|]. rewrite encoding_cons, length_app. pose proof (law_nonempty v) as Hne.
  destruct (WriteNoTagToArray t v); [done|]. cbn [length]. lia.
Qed.
End Writing.

(** *** Reading packed fields *)

Section Packed.
Context (t : FieldType) `{PrimitiveLaws t}.
Implicit Types (f : RepeatedField (CType t)) (vs l : list (CType t)).

Lemma Add_more f l v n : shape f l → 0 <= n → zlen l + (1 + n) <= most →
  ∃ f', Add (size_of t) (Value v) f = Ok f' ∧ shape f' (l ++ [v]) ∧ zlen (l ++ [v]) + n <= most.
Proof.
  intros Hs Hn Hm. destruct (Add_spec (size_of t) law_size_of v f l Hs) as (f' & E & Hs'); [lia|]. exists f'.
  split_and!; [done|done|]. rewrite zlen_app, zlen_cons, zlen_nil. lia.
Qed.

Lemma read_packed_spec limit vs : ∀ fuel s f l, flat s → buffer_ s = encoding t vs → Forall (in_range t) vs → shape f l →
  zlen l + zlen vs <= most → (length vs <= fuel)%nat →
  ∃ f', read_packed t fuel limit s f = Ok (true, PopLimit limit (set_buffer s []), f') ∧ shape f' (l ++ vs).
Proof.
  induction vs as [|v vs IH]; intros fuel s f l F E Hv Hs Hm Hf.
  - exists f. rewrite app_nil_r. split; [|done]. change (encoding t []) with (@nil byte) in E.
    assert (Es : set_buffer s [] = s) by (rewrite <- E; apply set_buffer_id). rewrite Es.
    by destruct fuel; cbn [read_packed]; rewrite BytesUntilLimit_flat by done; unfold BufferSize; rewrite E.
  - destruct fuel as [|fuel]; [cbn in Hf; lia|]. cbn [read_packed]. rewrite BytesUntilLimit_flat by done. unfold BufferSize.
    rewrite encoding_cons in E. apply Forall_cons in Hv as [Hv Hvs]. assert (0 <? zlen (buffer_ s) = true) as ->.
    { rewrite E, zlen_app. pose proof (law_nonempty v) as Hne. destruct (WriteNoTagToArray t v) as [|b k]; [done|]. rewrite zlen_cons.
      pose proof (zlen_nonneg k). pose proof (zlen_nonneg (encoding t vs)). lia. }
    rewrite (law_read s v _ F Hv E). rewrite zlen_cons in Hm. destruct (Add_more f l v (zlen vs) Hs (zlen_nonneg _) Hm) as (f1 & E1 & Hs1 & Hm1). rewrite E1. cbn [mbind outcome_bind].
    destruct (IH fuel (set_buffer s (encoding t vs)) f1 (l ++ [v])) as (f2 & E2 & Hs2); [|done|done|done|done|cbn in Hf; lia|].
    + apply flat_set_buffer; [done|]. rewrite E, zlen_app. pose proof (zlen_nonneg (WriteNoTagToArray t v)). lia.
    + exists f2. rewrite <- app_assoc in Hs2. split; [|done]. by rewrite E2.
Qed.

Lemma unread_flat s : flat s → WireFormat.unread s = (length (buffer_ s) + length (after_limit_ s))%nat.
Proof. intros (Hi & _). unfold WireFormat.unread. rewrite Hi. lia. Qed.

(** Inside a length that has been read: the limit is set and lifted again. *)
Lemma packed_bracket s k r : flat s → buffer_ s = k ++ r →
  ∃ s1, PushLimit (zlen k) s = (current_limit_ s, s1) ∧ flat s1 ∧ buffer_ s1 = k ∧
    advances s (PopLimit (current_limit_ s) (set_buffer s1 [])) ∧ buffer_ (PopLimit (current_limit_ s) (set_buffer s1 [])) = r.
Proof.
  intros F E. destruct (PushLimit_app s k r F E) as (s1 & E1 & F1 & B1 & A1 & T1 & R1 & I1 & L1). exists s1.
  destruct F as (Fi & Fl & _ & Fm).
  pose proof (PopLimit_app (set_buffer s1 []) r (after_limit_ s) ltac:(cbn; congruence) A1 ltac:(cbn; congruence)) as EP.
  change (total_bytes_read_ (set_buffer s1 [])) with (total_bytes_read_ s1) in EP. rewrite T1, <- Fl in EP. rewrite EP.
  split_and!; [done..| |done]. exists (length k). cbn. rewrite E, drop_app_length. split_and!; congruence || done.
Qed.

Lemma ReadPackedPrimitive_spec s r f l vs : flat s → zlen (encoding t vs) <= INT_MAX →
  buffer_ s = WriteVarint32ToArray (zlen (encoding t vs)) ++ encoding t vs ++ r → Forall (in_range t) vs → shape f l →
  zlen l + zlen vs <= most →
  ∃ s' f', ReadPackedPrimitive t s f = Ok (true, s', f') ∧ shape f' (l ++ vs) ∧ advances s s' ∧ buffer_ s' = r.
Proof.
  intros F Hl E Hv Hs Hm. unfold ReadPackedPrimitive. pose proof (zlen_nonneg (encoding t vs)).
  rewrite (ReadVarintSizeAsInt_write s _ _ F (conj H1 Hl) E). set (s0 := set_buffer s (encoding t vs ++ r)).
  assert (A0 : advances s s0) by exact (advances_app s _ _ E).
  destruct (packed_bracket s0 (encoding t vs) r (advances_flat _ _ A0 F) eq_refl) as (s1 & E1 & F1 & B1 & A1 & R1). rewrite E1.
  destruct (read_packed_spec (current_limit_ s0) vs (WireFormat.unread s1) s1 f l F1 B1 Hv Hs Hm) as (f' & E2 & Hs').
  { rewrite (unread_flat s1 F1), B1. pose proof (encoding_length t vs). lia. }
  eexists _, f'. split; [exact E2|]. split_and!; [done|by etransitivity|done].
Qed.

(** On any input: the values read are in range, and the array is never left. *)
Lemma read_packed_total limit : ∀ fuel s f l, flat s → shape f l → (length (buffer_ s) <= fuel)%nat → zlen l + zlen (buffer_ s) <= most →
  ∃ ok s' f' vs, read_packed t fuel limit s f = Ok (ok, s', f') ∧ shape f' (l ++ vs) ∧ Forall (in_range t) vs.
Proof.
  assert (Hstop : ∀ (ok : bool) (s' : CodedInputStream) f l, shape f l → ∃ ok' s'' f' vs, Ok (ok, s', f) = Ok (ok', s'', f') ∧ shape f' (l ++ vs) ∧ Forall (in_range t) vs).
  { intros ok s' f l Hs. exists ok, s', f, []. by rewrite app_nil_r. }
  induction fuel as [|fuel IH]; intros s f l F Hs Hf Hm; cbn [read_packed]; rewrite BytesUntilLimit_flat by done; unfold BufferSize.
  - rewrite (zlen_zero (buffer_ s)) by (unfold zlen; lia). apply Hstop, Hs.
  - destruct (0 <? zlen (buffer_ s)) eqn:E0; [zbool|apply Hstop, Hs]. destruct (ReadPrimitive t s) as [[v|] s1] eqn:E1; [|apply Hstop, Hs].
    destruct (law_consumes _ _ _ F E1) as [Hlt Hv]. pose proof (law_advances _ _ _ F E1) as A1.
    destruct (Add_more f l v (zlen (buffer_ s1)) Hs (zlen_nonneg _)) as (f1 & E2 & Hs1 & Hm1); [unfold zlen in *; lia|].
    rewrite E2. cbn [mbind outcome_bind].
    destruct (IH s1 f1 (l ++ [v])) as (ok & s' & f' & vs & E3 & Hs' & Hvs); [by eapply advances_flat|done|lia|done|].
    exists ok, s', f', (v :: vs). rewrite <- app_assoc in Hs'. split_and!; [done|done|by constructor].
Qed.

Lemma PushLimit_flat s n : flat s → 0 <= n → ∃ s1, PushLimit n s = (current_limit_ s, s1) ∧ flat s1 ∧ (length (buffer_ s1) <= length (buffer_ s))%nat.
Proof.
  intros F Hn. destruct (Z.leb_spec (zlen (buffer_ s)) n) as [Hge|Hlt].
  - exists s. split_and!; [by apply PushLimit_beyond|done|done].
  - pose proof (take_drop (Z.to_nat n) (buffer_ s)) as Ed.
    destruct (PushLimit_app s (take (Z.to_nat n) (buffer_ s)) (drop (Z.to_nat n) (buffer_ s)) F) as (s1 & E1 & F1 & B1 & _); [by rewrite Ed|].
    rewrite zlen_take in E1 by lia. exists s1. split_and!; [done|done|]. rewrite B1, length_take. lia.
Qed.

Lemma ReadPackedPrimitive_total s f l : flat s → shape f l → zlen l + zlen (buffer_ s) <= most →
  ∃ ok s' f' vs, ReadPackedPrimitive t s f = Ok (ok, s', f') ∧ shape f' (l ++ vs) ∧ Forall (in_range t) vs.
Proof.
  intros F Hs Hm. unfold ReadPackedPrimitive. destruct (ReadVarintSizeAsInt s) as [[n|] s0] eqn:E0.
  - destruct (ReadVarintSizeAsInt_advances _ _ _ F E0) as [A0 Hn]. pose proof (advances_flat _ _ A0 F) as F0. pose proof (advances_length _ _ A0).
    destruct (PushLimit_flat s0 n F0) as (s1 & E1 & F1 & L1); [lia|]. rewrite E1.
    apply read_packed_total; [done|done|rewrite (unread_flat s1 F1); lia|unfold zlen in *; lia].
  - exists false, s0, f, []. by rewrite app_nil_r.
Qed.
End Packed.

(** *** Reading repeated fields *)

Section Unpacked.
Context (t : FieldType) `{PrimitiveLaws t}.
Implicit Types (f : RepeatedField (CType t)) (vs l : list (CType t)).

Definition tag_of (n : Z) : Z := MakeTag n (kWireTypeForFieldType t).

(** The input does not go on with the tag. *)
Definition other_tag (tag : Z) (r : bytes) : Prop := ∀ r', r ≠ WriteVarint32ToArray tag ++ r'.

Lemma fields_encoding_cons n v vs : fields_encoding t n (v :: vs) = WriteVarint32ToArray (tag_of n) ++ WriteNoTagToArray t v ++ fields_encoding t n vs.
Proof. unfold fields_encoding. cbn [map concat]. unfold WriteToArray, WireFormatLite.WriteTagToArray, CodedOutput.WriteTagToArray. by rewrite <- app_assoc. Qed.

Lemma tag_of_ok n : field_number_ok n → is_u32 (tag_of n) ∧ tag_of n ≠ 0.
Proof. intros Hn. destruct scalar_wire as [Hw _]. by apply MakeTag_u32. Qed.

(** The loop takes the values that follow, as long as there is room; it cannot see tags
    of more than two bytes. *)
Lemma read_repeated_spec n r : field_number_ok n → other_tag (tag_of n) r → ∀ k vs s f l, flat s → buffer_ s = fields_encoding t n vs ++ r →
  Forall (in_range t) vs → shape f l → Z.of_nat k = Capacity f - zlen l →
  ∃ a b s' f', vs = a ++ b ∧ read_repeated t k (tag_of n) s f = Ok (true, s', f') ∧ shape f' (l ++ a) ∧ Capacity f' = Capacity f ∧
    s' = set_buffer s (fields_encoding t n b ++ r) ∧ (b = [] ∨ zlen (l ++ a) = Capacity f ∨ a = [] ∧ 2 ^ 14 <= tag_of n).
Proof.
  intros Hn Ho. destruct (tag_of_ok n Hn) as [Hu Hz]. induction k as [|k IH]; intros vs s f l F E Hv Hs Hk.
  - exists [], vs, s, f. rewrite app_nil_r. split_and!; [done..|by rewrite <- E, set_buffer_id|]. right. left. lia.
  - cbn [read_repeated]. destruct (ExpectTag (tag_of n) s) as [found s1] eqn:Et. destruct found.
    + apply ExpectTag_true in Et as (r1 & Ht & E1 & ->); [|znorm; lia]. destruct vs as [|v vs]; [by exfalso; eapply Ho; rewrite <- E1|].
      rewrite fields_encoding_cons, <- !app_assoc in E. rewrite E in E1. apply app_inv_head in E1 as <-.
      apply Forall_cons in Hv as [Hv Hvs]. set (s1 := set_buffer s _). assert (A1 : advances s s1) by exact (advances_app _ _ _ E).
      pose proof (advances_flat _ _ A1 F) as F1. rewrite (law_read s1 v _ F1 Hv eq_refl).
      destruct (AddAlreadyReserved_spec v f l Hs) as (f1 & E2 & Hs1 & Hc1); [lia|]. rewrite E2. cbn [mbind outcome_bind].
      set (s2 := set_buffer s1 _). assert (A2 : advances s1 s2) by exact (advances_app s1 (WriteNoTagToArray t v) _ eq_refl).
      destruct (IH vs s2 f1 (l ++ [v]) (advances_flat _ _ A2 F1) eq_refl Hvs Hs1) as (a & b & s' & f' & -> & E3 & Hs' & Hc' & -> & Hend).
      { rewrite Hc1, zlen_app, zlen_cons, zlen_nil. lia. }
      exists (v :: a), b, (set_buffer s2 (fields_encoding t n b ++ r)), f'. rewrite <- app_assoc in Hs', Hend. split_and!; [done|done|done|congruence|done|].
      rewrite Hc1 in Hend. destruct Hend as [?|[?|(-> & ?)]]; [auto..|]. lia.
    + pose proof (ExpectTag_false _ _ _ Et) as ->. exists [], vs, s, f. rewrite app_nil_r. split_and!; [done..|by rewrite <- E, set_buffer_id|].
      destruct vs as [|v vs]; [by left|]. right. right. split; [done|]. rewrite fields_encoding_cons, <- !app_assoc in E.
      destruct (Z.leb_spec (2 ^ 14) (tag_of n)) as [|Hlt]; [done|]. znorm. rewrite (ExpectTag_here (tag_of n) s _ ltac:(lia) E) in Et. done.
Qed.

Lemma ReadRepeatedPrimitive_spec n r s f l v vs : field_number_ok n → other_tag (tag_of n) r → flat s →
  buffer_ s = WriteNoTagToArray t v ++ fields_encoding t n vs ++ r → Forall (in_range t) (v :: vs) → shape f l → zlen l < most →
  ∃ a b s' f', vs = a ++ b ∧ ReadRepeatedPrimitive t (tag_of n) s f = Ok (true, s', f') ∧ shape f' (l ++ v :: a) ∧
    s' = set_buffer s (fields_encoding t n b ++ r) ∧ (b = [] ∨ zlen (l ++ v :: a) = Capacity f' ∨ 2 ^ 14 <= tag_of n).
Proof.
  intros Hn Ho F E Hv Hs Hm. apply Forall_cons in Hv as [Hv Hvs]. unfold ReadRepeatedPrimitive. rewrite (law_read s v _ F Hv E).
  destruct (Add_spec (size_of t) law_size_of v f l Hs Hm) as (f1 & E1 & Hs1). rewrite E1. cbn [mbind outcome_bind].
  set (s1 := set_buffer s _). assert (A1 : advances s s1) by exact (advances_app s _ _ E).
  pose proof (shape_capacity _ _ Hs1) as Hc. unfold size. rewrite (sh_current _ _ Hs1).
  destruct (read_repeated_spec n r Hn Ho (Z.to_nat (Capacity f1 - zlen (l ++ [v]))) vs s1 f1 (l ++ [v]) (advances_flat _ _ A1 F) eq_refl Hvs Hs1)
    as (a & b & s' & f' & -> & E2 & Hs' & Hc' & -> & Hend); [lia|].
  exists a, b, (set_buffer s1 (fields_encoding t n b ++ r)), f'. rewrite <- app_assoc in Hs', Hend. cbn [app] in Hs', Hend.
  split_and!; [done|done|done|done|]. rewrite Hc'. tauto.
Qed.
End Unpacked.

(** *** Types of fixed size *)

(** What the paths for these types rely on: the bytes of a value in memory are its
    encoding. *)
Class FixedLaws (t : FieldType) `{FixedPrimitive t} `{!PrimitiveLaws t} := {
  fixed_reader s : flat s → ReadPrimitive t s =
    if size_of t <=? BufferSize s then (Some (ReadPrimitiveFromArray t (buffer_ s)), Advance (size_of t) s) else (None, set_buffer s []);
  fixed_width v : zlen (WriteNoTagToArray t v) = size_of t;
  fixed_memory v : in_range t v → to_memory t v = WriteNoTagToArray t v;
  fixed_value v : in_range t v → of_memory t (WriteNoTagToArray t v) = v;
  fixed_any raw : zlen raw = size_of t → in_range t (of_memory t raw)
}.

Section FixedInstances.

Lemma le32_reader_flat s : flat s → ReadLittleEndian32 s =
  if 4 <=? BufferSize s then (Some (ReadLittleEndian32FromArray (buffer_ s)), Advance 4 s) else (None, set_buffer s []).
Proof. intros F. unfold ReadLittleEndian32. destruct (4 <=? BufferSize s) eqn:E; [done|]. zbool. rewrite ReadRaw_flat by (done || lia). by zdec. Qed.

Lemma le64_reader_flat s : flat s → ReadLittleEndian64 s =
  if 8 <=? BufferSize s then (Some (ReadLittleEndian64FromArray (buffer_ s)), Advance 8 s) else (None, set_buffer s []).
Proof. intros F. unfold ReadLittleEndian64. destruct (8 <=? BufferSize s) eqn:E; [done|]. zbool. rewrite ReadRaw_flat by (done || lia). by zdec. Qed.

(** [from_memory] is the little-endian reading. *)
Lemma from_memory32 v : is_u32 v → from_memory (WriteLittleEndian32ToArray v) = v.
Proof. intros Hv. rewrite <- (le32_roundtrip v Hv) at 2. unfold WriteLittleEndian32ToArray. rewrite le32_sum. cbn. lia. Qed.

Lemma from_memory_app l k : from_memory (l ++ k) = from_memory l + 256 ^ zlen l * from_memory k.
Proof.
  induction l as [|b l IH]; [change (from_memory k = 0 + 1 * from_memory k); lia|]. cbn [app from_memory fold_right]. rewrite zlen_cons, Z.pow_add_r by (lia || apply zlen_nonneg).
  fold (from_memory (l ++ k)). fold (from_memory l). rewrite IH, Z.pow_1_r. ring.
Qed.

Lemma from_memory64 v : is_u64 v → from_memory (WriteLittleEndian64ToArray v) = v.
Proof.
  intros Hv. unfold WriteLittleEndian64ToArray. rewrite from_memory_app, !from_memory32 by apply u32_range.
  change (zlen _) with 4. rewrite Z.shiftr_div_pow2 by lia. znorm. pose proof (Z.div_mod v (2 ^ 32) ltac:(lia)).
  rewrite (Z.mod_small (v / 2 ^ 32)); [lia|]. split; [apply Z.div_pos; lia|apply Z.div_lt_upper_bound; lia].
Qed.

Lemma memory32_wire v : memory32 v = WriteLittleEndian32ToArray (u32 v).
Proof. unfold memory32, WriteLittleEndian32ToArray. cbn [map]. by rewrite Z.shiftr_0_r. Qed.

Lemma z2b_mod v k : z2b (v mod 2 ^ (8 + Z.of_nat k)) = z2b v.
Proof.
  unfold z2b. f_equal. f_equal. change 256 with (2 ^ 8). rewrite Z.pow_add_r by lia. rewrite Z.rem_mul_r by lia.
  by rewrite Z.mul_comm, Z_mod_plus_full, Zmod_mod.
Qed.

Lemma memory64_wire v : memory64 v = WriteLittleEndian64ToArray (u64 v).
Proof.
  unfold memory64, WriteLittleEndian64ToArray, WriteLittleEndian32ToArray. cbn [map app]. rewrite Z.shiftr_0_r.
  assert (Hs : ∀ a k, 0 <= a → 0 <= k <= 24 → z2b (Z.shiftr (u32 a) k) = z2b (Z.shiftr a k)).
  { intros a k Ha Hk. unfold u32. rewrite <- (Z.land_ones a 32), Z.shiftr_land by lia.
    replace (Z.shiftr (Z.ones 32) k) with (Z.ones (8 + Z.of_nat (Z.to_nat (24 - k)))) by (rewrite Z.shiftr_div_pow2, Z.ones_div_pow2 by lia; f_equal; lia).
    rewrite Z.land_ones by lia. apply z2b_mod. }
  pose proof (u64_range v) as Hr. assert (Hp : 0 <= u64 v) by (znorm; lia).
  rewrite <- (Hs (u64 v) 8), <- (Hs (u64 v) 16), <- (Hs (u64 v) 24) by lia.
  assert (Hu : z2b (u32 (u64 v)) = z2b (u64 v)) by (rewrite <- (Z.shiftr_0_r (u32 _)), Hs, Z.shiftr_0_r by lia; done). rewrite Hu.
  assert (Hq : 0 <= Z.shiftr (u64 v) 32) by (by apply Z.shiftr_nonneg).
  assert (Hh : ∀ k, 0 <= k <= 24 → z2b (Z.shiftr (u64 v) (32 + k)) = z2b (Z.shiftr (u32 (Z.shiftr (u64 v) 32)) k)).
  { intros k Hk. rewrite Hs, Z.shiftr_shiftr by lia. done. }
  rewrite <- (Hh 8), <- (Hh 16), <- (Hh 24) by lia. rewrite (Hh 0 ltac:(lia) : z2b (Z.shiftr (u64 v) 32) = _), Z.shiftr_0_r. done.
Qed.
End FixedInstances.

Lemma from_memory_range raw : 0 <= from_memory raw < 256 ^ zlen raw.
Proof.
  induction raw as [|b raw IH]; [done|]. rewrite zlen_cons, Z.pow_add_r, Z.pow_1_r by (lia || apply zlen_nonneg). cbn. fold (from_memory raw).
  pose proof (b2z_range b). lia.
Qed.

Lemma from_memory_any w raw : zlen raw = w → 0 <= from_memory raw < 256 ^ w.
Proof. intros <-. apply from_memory_range. Qed.

#[export] Instance fixed32_fixed_laws : FixedLaws TYPE_FIXED32.
Proof.
  split; [apply le32_reader_flat|done| |apply from_memory32|apply (from_memory_any 4)].
  intros v Hv. change (memory32 v = WriteLittleEndian32ToArray v). by rewrite memory32_wire, (u32_small v Hv).
Qed.
#[export] Instance fixed64_fixed_laws : FixedLaws TYPE_FIXED64.
Proof.
  split; [apply le64_reader_flat|done| |apply from_memory64|apply (from_memory_any 8)].
  intros v Hv. change (memory64 v = WriteLittleEndian64ToArray v). by rewrite memory64_wire, (u64_small v Hv).
Qed.
#[export] Instance sfixed32_fixed_laws : FixedLaws TYPE_SFIXED32.
Proof.
  split; [|done|intros v _; apply memory32_wire| |intros raw _; apply s32_range].
  - intros s F. cbn. unfold ReadPrimitive_sfixed32. rewrite le32_reader_flat by done. by destruct (_ <=? _).
  - intros v Hv. change (s32 (from_memory (WriteLittleEndian32ToArray (u32 v))) = v). rewrite from_memory32 by apply u32_range. by apply u32_s32_small.
Qed.
#[export] Instance sfixed64_fixed_laws : FixedLaws TYPE_SFIXED64.
Proof.
  split; [|done|intros v _; apply memory64_wire| |intros raw _; apply s64_range].
  - intros s F. cbn. unfold ReadPrimitive_sfixed64. rewrite le64_reader_flat by done. by destruct (_ <=? _).
  - intros v Hv. change (s64 (from_memory (WriteLittleEndian64ToArray (u64 v))) = v). rewrite from_memory64 by apply u64_range. by apply u64_s64_small.
Qed.
#[export] Instance float_fixed_laws : FixedLaws TYPE_FLOAT.
Proof.
  split; [|done| |apply from_memory32|apply (from_memory_any 4)].
  - intros s F. rewrite float_reader. by apply le32_reader_flat.
  - intros v Hv. change (memory32 v = WriteLittleEndian32ToArray v). by rewrite memory32_wire, (u32_small v Hv).
Qed.
#[export] Instance double_fixed_laws : FixedLaws TYPE_DOUBLE.
Proof.
  split; [|done| |apply from_memory64|apply (from_memory_any 8)].
  - intros s F. rewrite double_reader. by apply le64_reader_flat.
  - intros v Hv. change (memory64 v = WriteLittleEndian64ToArray v). by rewrite memory64_wire, (u64_small v Hv).
Qed.

Section Fixed.
Context (t : FieldType) `{FixedLaws t}.
Implicit Types (f : RepeatedField (CType t)) (vs l : list (CType t)).

(** The loop over the buffer does what the generic loop does to the stream, as long as
    that does not run into the end of the input. *)
Lemma read_from_buffer_spec tag tag_size : 0 <= tag → tag_size = zlen (WriteVarint32ToArray tag) → ∀ k s f s' f', flat s →
  read_repeated t k tag s f = Ok (true, s', f') →
  ∃ j, read_from_buffer t (Z.to_nat (Z.min (Z.of_nat k) (zlen (buffer_ s) / (tag_size + size_of t)))) tag (buffer_ s) f = Ok (j, f') ∧
    0 <= j * (tag_size + size_of t) <= BufferSize s ∧ s' = Advance (j * (tag_size + size_of t)) s.
Proof.
  intros Htag Ets. pose proof law_size_of as Hsz. pose proof (zlen_nonneg (WriteVarint32ToArray tag)) as Hts. rewrite <- Ets in Hts.
  set (per := tag_size + size_of t).
  assert (Hnone : ∀ s f, ∃ j, Ok (0, f) = Ok (j, f) ∧ 0 <= j * per <= BufferSize s ∧ s = Advance (j * per) s).
  { intros s f. exists 0. pose proof (zlen_nonneg (buffer_ s)). unfold BufferSize, Advance. cbn. rewrite set_buffer_id. split_and!; [done|lia..|done]. }
  induction k as [|k IH]; intros s f s' f' F E.
  - injection E as <- <-. rewrite Z.min_l by (apply Z.div_pos; [apply zlen_nonneg|lia]). apply Hnone.
  - cbn [read_repeated] in E. destruct (ExpectTag tag s) as [[] s1] eqn:Et.
    + apply ExpectTag_true in Et as (r1 & Ht & B & ->); [|done]. set (s1 := set_buffer s r1) in *.
      assert (A1 : advances s s1) by exact (advances_app _ _ _ B). pose proof (advances_flat _ _ A1 F) as F1.
      rewrite (fixed_reader s1 F1) in E. destruct (size_of t <=? BufferSize s1) eqn:Esz; [|done]. zbool. unfold BufferSize in Esz. cbn [buffer_] in Esz.
      change (buffer_ s1) with r1 in *. set (s2 := Advance (size_of t) s1) in *.
      destruct (AddAlreadyReserved (ReadPrimitiveFromArray t r1) f) as [f1| |] eqn:E1; [|done..]. cbn [mbind outcome_bind] in E.
      assert (A2 : advances s1 s2) by (apply advances_set_buffer; by eexists).
      destruct (IH s2 f1 s' f' (advances_flat _ _ A2 F1) E) as (j & E2 & Hj & ->).
      assert (Hb : zlen (buffer_ s) = per + zlen (buffer_ s2)).
      { rewrite B, zlen_app, <- Ets. unfold s2, Advance. cbn. rewrite zlen_drop by lia. lia. }
      assert (Hdiv : zlen (buffer_ s) / per = 1 + zlen (buffer_ s2) / per).
      { rewrite Hb, <- (Z.mul_1_l per) at 1. rewrite Z.add_comm, Z_div_plus by lia. lia. }
      rewrite Hdiv. pose proof (zlen_nonneg (buffer_ s2)). assert (0 <= zlen (buffer_ s2) / per) by (apply Z.div_pos; lia).
      replace (Z.to_nat (Z.min (Z.of_nat (S k)) (1 + zlen (buffer_ s2) / per))) with (S (Z.to_nat (Z.min (Z.of_nat k) (zlen (buffer_ s2) / per)))) by lia.
      cbn [read_from_buffer]. destruct (ExpectTagFromArray_spec tag (buffer_ s) Htag) as (o & Eo & Ho).
      { rewrite B, length_app. lia. }
      rewrite Eo. cbn [mbind outcome_bind]. destruct o as [r|]; [|exfalso; by eapply Ho]. destruct Ho as [_ B']. rewrite B in B'. apply app_inv_head in B' as <-.
      assert (zlen r1 <? size_of t = false) as -> by lia. rewrite E1. cbn [mbind outcome_bind].
      change (drop (Z.to_nat (size_of t)) r1) with (buffer_ s2). rewrite E2. cbn [mbind outcome_bind]. exists (j + 1).
      unfold BufferSize in *. split_and!; [done|lia..|]. unfold Advance. unfold s2 at 2. unfold s1, Advance. cbn [buffer_ set_buffer]. rewrite B.
      unfold set_buffer. cbn. f_equal. rewrite drop_drop. replace (Z.to_nat ((j + 1) * per)) with (length (WriteVarint32ToArray tag) + (Z.to_nat (size_of t) + Z.to_nat (j * per)))%nat.
      * by rewrite drop_app_add.
      * assert (Hl : length (WriteVarint32ToArray tag) = Z.to_nat tag_size) by (rewrite Ets; unfold zlen; lia). rewrite Hl. unfold per. lia.
    + pose proof (ExpectTag_false _ _ _ Et) as ->. injection E as <- <-.
      destruct (Z.to_nat _) as [|m] eqn:Em; [apply Hnone|]. cbn [read_from_buffer].
      assert (Hlong : per <= zlen (buffer_ s)).
      { destruct (Z.le_gt_cases per (zlen (buffer_ s))) as [|Hlt]; [done|]. rewrite Z.div_small in Em by (pose proof (zlen_nonneg (buffer_ s)); lia). lia. }
      destruct (ExpectTagFromArray_spec tag (buffer_ s) Htag) as (o & Eo & Ho); [rewrite Ets in *; unfold zlen in *; lia|].
      rewrite Eo. cbn [mbind outcome_bind]. destruct o as [r|]; [|apply Hnone]. destruct Ho as [Ht B].
      by rewrite (ExpectTag_here tag s r (conj Htag Ht) B) in Et.
Qed.

Theorem fixed_repeated_agrees tag s f s' f' : 0 <= tag → flat s → ReadRepeatedPrimitive t tag s f = Ok (true, s', f') →
  ReadRepeatedFixedSizePrimitive t (zlen (WriteVarint32ToArray tag)) tag s f = Ok (true, s', f').
Proof.
  intros Htag F E. unfold ReadRepeatedPrimitive in E. unfold ReadRepeatedFixedSizePrimitive.
  destruct (ReadPrimitive t s) as [[v|] s1] eqn:E1; [|done]. pose proof (advances_flat _ _ (law_advances _ _ _ F E1) F) as F1.
  destruct (Add (size_of t) (Value v) f) as [f1| |]; [|done..]. cbn [mbind outcome_bind] in *. unfold GetDirectBufferPointerInline.
  set (per := zlen (WriteVarint32ToArray tag) + size_of t).
  destruct (read_from_buffer_spec tag _ Htag eq_refl _ s1 f1 s' f' F1 E) as (j & E2 & Hj & ->). fold per in E2, Hj |- *.
  pose proof law_size_of as Hsz. pose proof (zlen_nonneg (WriteVarint32ToArray tag)). pose proof (zlen_nonneg (buffer_ s1)).
  assert (Hcap : Z.to_nat (Z.min (Z.of_nat (Z.to_nat (Capacity f1 - size f1))) (zlen (buffer_ s1) / per)) = Z.to_nat (Z.min (Capacity f1 - size f1) (zlen (buffer_ s1) / per))).
  { pose proof (Z.div_pos (zlen (buffer_ s1)) per). lia. }
  rewrite Hcap in E2. destruct (0 <? zlen (buffer_ s1)) eqn:Eb; zbool.
  - rewrite E2. cbn [mbind outcome_bind]. destruct (Z.ltb_spec 0 (j * per)) as [Hp|Hp].
    + rewrite Skip_flat by (done || lia). by zdec.
    + replace (j * per) with 0 by lia. unfold Advance. cbn. by rewrite set_buffer_id.
  - unfold BufferSize in Hj. replace (j * per) with 0 by lia. rewrite (Z.div_small (zlen (buffer_ s1))) in E2 by lia.
    replace (Z.to_nat (Z.min (Capacity f1 - size f1) 0)) with O in E2 by lia. injection E2 as _ <-. unfold Advance. cbn. by rewrite set_buffer_id.
Qed.

(** *** Packed fields of fixed size *)

Lemma of_raw_spec vs : Forall (in_range t) vs → of_raw t (length vs) (encoding t vs) = vs.
Proof.
  induction vs as [|v vs IH]; intros Hv; [done|]. apply Forall_cons in Hv as [Hv Hvs]. cbn [length of_raw].
  rewrite encoding_cons, take_zlen_app, drop_zlen_app, (fixed_value v Hv), (IH Hvs) by (by rewrite fixed_width). done.
Qed.

Lemma encoding_width vs : zlen (encoding t vs) = zlen vs * size_of t.
Proof. induction vs as [|v vs IH]; [done|]. rewrite encoding_cons, zlen_app, zlen_cons, IH, fixed_width. lia. Qed.

Lemma memory_encoding vs : Forall (in_range t) vs → concat (map (to_memory t) vs) = encoding t vs.
Proof. induction 1 as [|v vs Hv _ IH]; [done|]. cbn [map concat]. by rewrite IH, (fixed_memory v Hv). Qed.

Lemma WriteFixedNoTagToArray_spec f vs : shape f vs → zlen vs <= most → Forall (in_range t) vs → WriteFixedNoTagToArray t f = Ok (encoding t vs).
Proof.
  intros Hs Hm Hv. unfold WriteFixedNoTagToArray. rewrite (shape_length t f vs Hs). unfold size. rewrite (sh_current _ _ Hs).
  pose proof law_size_of. pose proof (zlen_nonneg vs). unfold most, INT_MAX in *. assert (zlen vs * size_of t <= 2 ^ 27 * 8) by nia. zdec.
  by rewrite (write_elements_spec t (to_memory t) f [] vs [] (shape_all t f vs Hs)), memory_encoding.
Qed.

Lemma WriteArray_emits vs : Forall (in_range t) vs → emits (WriteArray t vs) (encoding t vs).
Proof.
  intros Hv. unfold WriteArray. rewrite (memory_encoding vs Hv). apply WriteRaw_emits.
Qed.

(** The elements [Resize] has made are overwritten. *)
Lemma refilled f1 l vs g v0 : shape f1 (l ++ replicate (Z.to_nat (zlen vs)) v0) →
  elements f1 = (Some <$> l) ++ (Some <$> replicate (Z.to_nat (zlen vs)) v0) ++ g → shape (set_elements ((Some <$> l ++ vs) ++ g) f1) (l ++ vs).
Proof.
  intros Hs1 Eg. split; cbn.
  - rewrite (sh_current _ _ Hs1), !zlen_app. f_equal. unfold zlen. rewrite length_replicate. lia.
  - rewrite (sh_total _ _ Hs1), Eg, !zlen_app, !zlen_fmap, zlen_app. unfold zlen. rewrite length_replicate. lia.
  - exact (sh_bound _ _ Hs1).
  - by exists g.
Qed.

Lemma ReadPackedFixedSizePrimitive_spec s r f l vs : flat s → zlen (encoding t vs) <= INT_MAX →
  buffer_ s = WriteVarint32ToArray (zlen (encoding t vs)) ++ encoding t vs ++ r → Forall (in_range t) vs → shape f l →
  zlen l + zlen vs <= most →
  ∃ s' f', ReadPackedFixedSizePrimitive t s f = Ok (true, s', f') ∧ shape f' (l ++ vs) ∧ advances s s' ∧ buffer_ s' = r.
Proof.
  intros F Hl E Hv Hs Hm. pose proof law_size_of as Hsz. pose proof (zlen_nonneg vs). pose proof (zlen_nonneg l). unfold ReadPackedFixedSizePrimitive.
  rewrite (ReadVarintSizeAsInt_write s _ _ F (conj (zlen_nonneg _) Hl) E). set (s0 := set_buffer s (encoding t vs ++ r)).
  assert (A0 : advances s s0) by exact (advances_app s _ _ E). pose proof (advances_flat _ _ A0 F) as F0.
  pose proof (encoding_width vs) as Ew. rewrite Ew, Z.div_mul, Z.eqb_refl by lia. cbn [negb]. unfold BytesUntilTotalBytesLimit. cbn [Z.eqb].
  change (total_bytes_limit_ =? INT_MAX) with true. cbn [Z.eqb]. rewrite BytesUntilLimit_flat by done. unfold BufferSize.
  change (buffer_ s0) with (encoding t vs ++ r). rewrite zlen_app, Ew. pose proof (zlen_nonneg r). change (1 =? 1)%positive with true. cbn iota. zdec.
  unfold size. rewrite (sh_current _ _ Hs). unfold add_int. unfold most, INT_MAX in *. zdec. cbn [andb mbind outcome_bind].
  destruct (Resize_grow (size_of t) Hsz (zero t) (zlen vs) f l Hs) as (f1 & E1 & Hs1); [lia|unfold most; lia|]. rewrite E1. cbn [mbind outcome_bind].
  rewrite <- Ew, (ReadRaw_app s0 (encoding t vs) r F0 eq_refl).
  replace (Z.to_nat (zlen vs)) with (length vs) by (unfold zlen; lia). rewrite (of_raw_spec vs Hv).
  destruct (sh_elements _ _ Hs1) as (g & Eg). rewrite fmap_app, <- app_assoc in Eg.
  change (map Some vs) with (Some <$> vs). rewrite (put_slots_here f1 l _ g (zlen l) vs Eg eq_refl) by (rewrite zlen_fmap; unfold zlen; rewrite length_replicate; lia). cbn [mbind outcome_bind].
  eexists _, _. split; [done|]. split_and!; [|etransitivity; [exact A0|exact (advances_app s0 _ _ eq_refl)]|done].
  by apply (refilled f1 l vs g (zero t)).
Qed.
End Fixed.
