(* ===== verification/PackedRoundtrip.v ===== *)
(** The theorems on scalar fields (WireTypes.v), for every type a schema can declare but
    strings, bytes, messages and groups: single fields, repeated fields with a tag for
    each element, packed fields, by the generic paths and by those for types of fixed
    size. *)

From S2P Require Import Prelude CodedStream WireFormat WireFormatFacts RepeatedField ScalarField ScalarFieldFacts CodedStreamMore WireTypes WireTypesFacts PackedFields.
Import CodedOutput CodedInput CodedInputMore WireFormatLite WireTypes ScalarField.

(** The specialisations the templates have. *)
Definition primitive_of (t : FieldType) : option (Primitive t) :=
  match t with
  | TYPE_DOUBLE => Some double_primitive
  | TYPE_FLOAT => Some float_primitive
  | TYPE_INT64 => Some int64_primitive
  | TYPE_UINT64 => Some uint64_primitive
  | TYPE_INT32 => Some int32_primitive
  | TYPE_FIXED64 => Some fixed64_primitive
  | TYPE_FIXED32 => Some fixed32_primitive
  | TYPE_BOOL => Some bool_primitive
  | TYPE_UINT32 => Some uint32_primitive
  | TYPE_ENUM => Some enum_primitive
  | TYPE_SFIXED32 => Some sfixed32_primitive
  | TYPE_SFIXED64 => Some sfixed64_primitive
  | TYPE_SINT32 => Some sint32_primitive
  | TYPE_SINT64 => Some sint64_primitive
  | TYPE_STRING | TYPE_GROUP | TYPE_MESSAGE | TYPE_BYTES => None
  end.

Definition fixed_of (t : FieldType) : option {P : Primitive t & FixedPrimitive t} :=
  match t with
  | TYPE_FIXED32 => Some (existT _ fixed32_fixed)
  | TYPE_FIXED64 => Some (existT _ fixed64_fixed)
  | TYPE_SFIXED32 => Some (existT _ sfixed32_fixed)
  | TYPE_SFIXED64 => Some (existT _ sfixed64_fixed)
  | TYPE_FLOAT => Some (existT _ float_fixed)
  | TYPE_DOUBLE => Some (existT _ double_fixed)
  | _ => None
  end.

Lemma primitive_of_laws t P : primitive_of t = Some P → PrimitiveLaws t.
Proof. destruct t; intros [= <-]; exact _. Qed.

Lemma fixed_of_laws t q : fixed_of t = Some q → ∃ L : @PrimitiveLaws t (projT1 q), @FixedLaws t (projT1 q) (projT2 q) L.
Proof. destruct t; intros [= <-]; cbn; eexists; exact _. Qed.

(** *** Single fields *)

(** C14: the field that [WriteInt32ToArray] and its siblings write for a value of the
    field's C++ type, for each of the fourteen scalar types of the wire format, is read
    back: [ReadTag] gives the tag of the field, from which its number is recovered,
    [ReadPrimitive] the value, with the stream at what follows.  Tag size and value size
    add up to the length of the field, and the writer to a stream writes the same bytes,
    whatever the stream's buffer. *)
Theorem scalar_field_roundtrip t (P : Primitive t) n (v : CType t) s r :
  primitive_of t = Some P → field_number_ok n → in_range t v → flat s → buffer_ s = WriteToArray t n v ++ r →
  let tag := MakeTag n (kWireTypeForFieldType t) in
  (∃ s' s'', ReadTag s = (tag, s') ∧ ReadPrimitive t s' = (Some v, s'') ∧ buffer_ s'' = r ∧ advances s s'') ∧
  GetTagFieldNumber tag = n ∧
  TagSize n t + kSize t v = zlen (WriteToArray t n v) ∧
  ∀ o, 0 <= buffer_size_ o → written (WritePrimitive t n v o) = written o ++ WriteToArray t n v.
Proof.
  intros HP Hn Hv F E. pose proof (primitive_of_laws t P HP) as L. cbn zeta. destruct (scalar_wire (t := t)) as [Hw _].
  destruct (scalar_field_read n v s r Hn Hv F E) as [E1 E2]. split_and!.
  - eexists _, _. split_and!; [exact E1|exact E2|done|]. unfold WriteToArray in E.
    exists (length (WriteToArray t n v)). cbn. unfold WriteToArray. by rewrite E, drop_app_length.
  - by apply GetTagFieldNumber_MakeTag.
  - by apply scalar_field_size.
  - intros o Ho. exact (proj2 (scalar_field_emits n v Hn Hv o Ho)).
Qed.

Lemma scalar_field_roundtrip_witness :
  let field := WriteToArray TYPE_SINT64 5 (-3) in
  field = [Byte.x28; Byte.x05] ∧
  (∃ s' s'', ReadTag (of_array (field ++ [Byte.x01])) = (40, s') ∧ ReadPrimitive TYPE_SINT64 s' = (Some (-3), s'') ∧
     buffer_ s'' = [Byte.x01] ∧ advances (of_array (field ++ [Byte.x01])) s'').
Proof.
  split; [reflexivity|].
  apply (scalar_field_roundtrip TYPE_SINT64 sint64_primitive 5 (-3) (of_array (WriteToArray TYPE_SINT64 5 (-3) ++ [Byte.x01])) [Byte.x01]);
    [reflexivity|split; lia|split; lia|by vm_compute|reflexivity].
Defined.

(** *** A parser for a repeated field *)

Section Parser.
Context (t : FieldType) `{PrimitiveLaws t}.

(** What generated code does when it meets a repeated field: a tag is read, then as many
    values as [ReadRepeatedPrimitive] takes, and so on until another tag is there. *)
Fixpoint read_fields (fuel : nat) (tag : Z) (s : CodedInputStream) (f : RepeatedField (CType t))
  : outcome (bool * CodedInputStream * RepeatedField (CType t)) :=
  match fuel with
  | O => NoFuel
  | S fuel =>
      let '(next_tag, s1) := ReadTag s in
      if next_tag =? tag then
        '(ok, s1, f) ← ReadRepeatedPrimitive t tag s1 f;
        if ok : bool then read_fields fuel tag s1 f else Ok (false, s1, f)
      else Ok (true, s, f)
  end.

(** The end of the input, or another field. *)
Definition ends_field (tag : Z) (r : bytes) : Prop :=
  r = [] ∨ ∃ tag' r', is_u32 tag' ∧ tag' ≠ 0 ∧ tag' ≠ tag ∧ r = WriteVarint32ToArray tag' ++ r'.

Lemma ends_other_tag tag r : is_u32 tag → ends_field tag r → other_tag tag r.
Proof.
  intros Hu [->|(tag' & r' & Hu' & _ & Hne & ->)] r'' E.
  - symmetry in E. apply app_eq_nil in E as [E _]. by apply write_varint_nonempty in E.
  - pose proof (varint_ref_write32 tag' r' Hu') as E1. rewrite E, (varint_ref_write32 tag r'' Hu) in E1. congruence.
Qed.

Lemma ends_read tag r s : tag ≠ 0 → flat s → buffer_ s = r → ends_field tag r → fst (ReadTag s) ≠ tag.
Proof.
  intros Hz F E [->|(tag' & r' & Hu & Hz' & Hne & ->)].
  - unfold ReadTag, ReadTagNoLastTag. rewrite E, ReadTag_end_fallback by done. cbn. congruence.
  - by rewrite (ReadTag_write s tag' r' F Hu Hz' E).
Qed.

Lemma read_fields_spec n r : field_number_ok n → ends_field (tag_of t n) r → ∀ k vs s f l, (length vs <= k)%nat → flat s →
  buffer_ s = fields_encoding t n vs ++ r → Forall (in_range t) vs → shape f l → zlen l + zlen vs <= most →
  ∃ s' f', read_fields (S k) (tag_of t n) s f = Ok (true, s', f') ∧ shape f' (l ++ vs) ∧ buffer_ s' = r ∧ advances s s'.
Proof.
  intros Hn Hr. destruct (tag_of_ok t n Hn) as [Hu Hz]. induction k as [|k IH]; intros vs s f l Hk F E Hv Hs Hm.
  - destruct vs; [|cbn in Hk; lia]. cbn [read_fields]. pose proof (ends_read _ r s Hz F E Hr) as Hne.
    destruct (ReadTag s) as [t1 s1]. cbn in Hne. rewrite (proj2 (Z.eqb_neq _ _) Hne). exists s, f. by rewrite app_nil_r.
  - destruct vs as [|v vs].
    + cbn [read_fields]. pose proof (ends_read _ r s Hz F E Hr) as Hne.
      destruct (ReadTag s) as [t1 s1]. cbn in Hne. rewrite (proj2 (Z.eqb_neq _ _) Hne). exists s, f. by rewrite app_nil_r.
    + rewrite fields_encoding_cons, <- !app_assoc in E. remember (S k) as k' eqn:Ek. cbn [read_fields]. subst k'.
      rewrite (ReadTag_write s _ _ F Hu Hz E), Z.eqb_refl. set (s1 := set_last_tag _ _).
      assert (A1 : advances s s1) by (etransitivity; [exact (advances_app s _ _ E)|apply advances_last_tag]).
      pose proof (advances_flat _ _ A1 F) as F1. rewrite zlen_cons in Hm. pose proof (zlen_nonneg vs).
      destruct (ReadRepeatedPrimitive_spec t n r s1 f l v vs Hn (ends_other_tag _ r Hu Hr) F1 eq_refl Hv Hs) as (a & b & s2 & f2 & -> & E2 & Hs2 & -> & _); [lia|].
      rewrite E2. cbn [mbind outcome_bind]. set (s2 := set_buffer s1 _).
      assert (A2 : advances s1 s2).
      { apply advances_set_buffer. exists (length (WriteNoTagToArray t v ++ fields_encoding t n a)). unfold s1. cbn [buffer_ set_last_tag set_buffer].
        unfold fields_encoding. rewrite map_app, concat_app, <- !app_assoc, app_assoc, drop_app_length. done. }
      apply Forall_cons in Hv as [_ Hv]. apply Forall_app in Hv as [_ Hv]. rewrite length_cons, length_app in Hk. rewrite zlen_app in Hm.
      destruct (IH b s2 f2 (l ++ v :: a)) as (s3 & f3 & E3 & Hs3 & B3 & A3); [lia|by eapply advances_flat|done|done|done| |].
      { rewrite zlen_app, zlen_cons. lia. }
      exists s3, f3. rewrite <- app_assoc in Hs3. split_and!; [exact E3|done|done|by etransitivity; [|etransitivity]].
Qed.
End Parser.


(** A field that holds two values. *)
Definition two_values : RepeatedField Z := mk_RepeatedField 2 4 [Some 300; Some (-1); None; None].

Lemma two_values_shape : shape two_values [300; -1].
Proof. split; [done..|]. by exists [None; None]. Qed.



