(* ===== verification/PackedTotal.v ===== *)
(** The readers of repeated fields on input from anywhere (WireTypes.v): whatever the
    bytes, they return, hand values of the right type to the field, append them to what
    it held, and leave neither the field's array nor the stream's buffer. *)

From S2P Require Import Prelude CodedStream WireFormat WireFormatFacts RepeatedField ScalarField ScalarFieldFacts CodedStreamMore WireTypes WireTypesFacts PackedFields PackedRoundtrip.
Import CodedOutput CodedInput CodedInputMore WireFormatLite WireTypes ScalarField.

(** The outcome: some values in range have been added. *)
Definition adds {t} (l : list (CType t)) (o : outcome (bool * CodedInputStream * RepeatedField (CType t))) : Prop :=
  ∃ ok s' f' vs, o = Ok (ok, s', f') ∧ shape f' (l ++ vs) ∧ Forall (in_range t) vs.

Lemma adds_none {t} l (ok : bool) (s : CodedInputStream) (f : RepeatedField (CType t)) : shape f l → adds l (Ok (ok, s, f)).
Proof. intros Hs. exists ok, s, f, []. by rewrite app_nil_r. Qed.

Lemma adds_cons {t} l v (o : outcome (bool * CodedInputStream * RepeatedField (CType t))) : in_range t v → adds (l ++ [v]) o → adds l o.
Proof. intros Hv (ok & s' & f' & vs & -> & Hs & Hvs). exists ok, s', f', (v :: vs). rewrite <- app_assoc in Hs. split_and!; [done|done|by constructor]. Qed.

Section Total.
Context (t : FieldType) `{PrimitiveLaws t}.
Implicit Types (f : RepeatedField (CType t)) (l : list (CType t)).

Lemma ReadPackedPrimitive_adds s f l : flat s → shape f l → zlen l + zlen (buffer_ s) <= most → adds l (ReadPackedPrimitive t s f).
Proof.
  intros F Hs Hm. destruct (ReadPackedPrimitive_total t s f l F Hs Hm) as (ok & s' & f' & vs & E & Hs' & Hv). by exists ok, s', f', vs.
Qed.

Lemma read_repeated_adds tag : 0 <= tag → ∀ k s f l, flat s → shape f l → Z.of_nat k <= Capacity f - zlen l → adds l (read_repeated t k tag s f).
Proof.
  intros Ht. induction k as [|k IH]; intros s f l F Hs Hk; [by apply adds_none|]. cbn [read_repeated].
  destruct (ExpectTag tag s) as [[] s1] eqn:Et; [|by apply adds_none]. apply ExpectTag_true in Et as (r1 & _ & B & ->); [|done].
  pose proof (advances_flat _ _ (advances_app _ _ _ B) F) as F1.
  destruct (ReadPrimitive t _) as [[v|] s2] eqn:E2; [|by apply adds_none]. destruct (law_consumes _ _ _ F1 E2) as [_ Hv].
  destruct (AddAlreadyReserved_spec v f l Hs) as (f1 & E1 & Hs1 & Hc1); [lia|]. rewrite E1. cbn [mbind outcome_bind].
  apply (adds_cons l v _ Hv), IH; [by eapply advances_flat; [eapply law_advances|]|done|]. rewrite Hc1, zlen_app, zlen_cons, zlen_nil. lia.
Qed.

Lemma ReadRepeatedPrimitive_adds tag s f l : 0 <= tag → flat s → shape f l → zlen l < most → adds l (ReadRepeatedPrimitive t tag s f).
Proof.
  intros Ht F Hs Hm. unfold ReadRepeatedPrimitive. destruct (ReadPrimitive t s) as [[v|] s1] eqn:E1; [|by apply adds_none].
  destruct (law_consumes _ _ _ F E1) as [_ Hv]. destruct (Add_spec (size_of t) law_size_of v f l Hs Hm) as (f1 & E2 & Hs1). rewrite E2.
  cbn [mbind outcome_bind]. apply (adds_cons l v _ Hv), read_repeated_adds; [done|by eapply advances_flat; [eapply law_advances|]|done|].
  unfold size. rewrite (sh_current _ _ Hs1). pose proof (shape_capacity _ _ Hs1). lia.
Qed.
End Total.

Section TotalFixed.
Context (t : FieldType) `{FixedLaws t}.
Implicit Types (f : RepeatedField (CType t)) (l : list (CType t)).

(** A value in a buffer is one the stream's reader could have given. *)
Lemma from_array_in_range (b : bytes) : size_of t <= zlen b → zlen b < INT_MAX → in_range t (ReadPrimitiveFromArray t b).
Proof.
  intros Hl Hm. destruct (of_array_ready b Hm) as [F _].
  pose proof (fixed_reader (of_array b) F) as E. unfold BufferSize in E. cbn [buffer_ of_array] in E. rewrite (proj2 (Z.leb_le _ _) Hl) in E.
  exact (proj2 (law_consumes _ _ _ F E)).
Qed.

Lemma read_from_buffer_adds tag : 0 <= tag → let per := zlen (WriteVarint32ToArray tag) + size_of t in
  ∀ k buffer f l, shape f l → Z.of_nat k <= Capacity f - zlen l → Z.of_nat k * per <= zlen buffer → zlen buffer < INT_MAX →
  ∃ j f' vs, read_from_buffer t k tag buffer f = Ok (j, f') ∧ 0 <= j <= Z.of_nat k ∧ shape f' (l ++ vs) ∧ Forall (in_range t) vs.
Proof.
  intros Htag per. pose proof law_size_of as Hsz. pose proof (zlen_nonneg (WriteVarint32ToArray tag)) as Hts.
  assert (Hnone : ∀ k f l, shape f l → ∃ j f' vs, Ok (0, f) = Ok (j, f') ∧ 0 <= j <= Z.of_nat k ∧ shape f' (l ++ vs) ∧ Forall (in_range t) vs).
  { intros k f l Hs. exists 0, f, []. rewrite app_nil_r. split_and!; [done|lia..|done|done]. }
  induction k as [|k IH]; intros buffer f l Hs Hk Hb Hm; [by apply Hnone|]. cbn [read_from_buffer].
  destruct (ExpectTagFromArray_spec tag buffer Htag) as (o & Eo & Ho); [unfold zlen in *; nia|]. rewrite Eo. cbn [mbind outcome_bind].
  destruct o as [r|]; [|by apply Hnone]. destruct Ho as [_ ->]. rewrite zlen_app in *. assert (zlen r <? size_of t = false) as -> by nia.
  destruct (AddAlreadyReserved_spec (ReadPrimitiveFromArray t r) f l Hs) as (f1 & E1 & Hs1 & Hc1); [lia|]. rewrite E1. cbn [mbind outcome_bind].
  destruct (IH (drop (Z.to_nat (size_of t)) r) f1 (l ++ [ReadPrimitiveFromArray t r]) Hs1) as (j & f' & vs & E2 & Hj & Hs' & Hv).
  { rewrite Hc1, zlen_app, zlen_cons, zlen_nil. lia. } { rewrite zlen_drop by nia. nia. } { rewrite zlen_drop by nia. lia. }
  rewrite E2. cbn [mbind outcome_bind]. exists (j + 1), f', (ReadPrimitiveFromArray t r :: vs). rewrite <- app_assoc in Hs'.
  split_and!; [done|lia..|done|]. constructor; [|done]. apply from_array_in_range; nia.
Qed.

Lemma ReadRepeatedFixedSizePrimitive_adds tag s f l : 0 <= tag → flat s → shape f l → zlen l < most →
  adds l (ReadRepeatedFixedSizePrimitive t (zlen (WriteVarint32ToArray tag)) tag s f).
Proof.
  intros Htag F Hs Hm. unfold ReadRepeatedFixedSizePrimitive. destruct (ReadPrimitive t s) as [[v|] s1] eqn:E1; [|by apply adds_none].
  destruct (law_consumes _ _ _ F E1) as [_ Hv]. destruct (Add_spec (size_of t) law_size_of v f l Hs Hm) as (f1 & E2 & Hs1). rewrite E2.
  cbn [mbind outcome_bind]. apply (adds_cons l v _ Hv). unfold GetDirectBufferPointerInline. pose proof (advances_flat _ _ (law_advances _ _ _ F E1) F) as F1.
  destruct (0 <? zlen (buffer_ s1)) eqn:Eb; [zbool|by apply adds_none]. set (per := zlen (WriteVarint32ToArray tag) + size_of t).
  pose proof law_size_of as Hsz. pose proof (zlen_nonneg (WriteVarint32ToArray tag)) as Hts. pose proof (shape_capacity _ _ Hs1) as Hc.
  unfold size. rewrite (sh_current _ _ Hs1). assert (0 < per) by (unfold per; lia). pose proof (Z.div_pos (zlen (buffer_ s1)) per ltac:(lia) ltac:(lia)).
  pose proof (Z.mul_div_le (zlen (buffer_ s1)) per ltac:(lia)). destruct F1 as (_ & _ & Fb & Fm). unfold BufferSize in Fb. pose proof (zlen_nonneg (after_limit_ s1)).
  destruct (read_from_buffer_adds tag Htag (Z.to_nat (Z.min (Capacity f1 - zlen (l ++ [v])) (zlen (buffer_ s1) / per))) (buffer_ s1) f1 (l ++ [v]) Hs1)
    as (j & f' & vs & E3 & _ & Hs' & Hvs); [lia|fold per; nia|lia|]. rewrite E3. cbn [mbind outcome_bind]. by eexists _, _, f', vs.
Qed.

Lemma read_values_adds : ∀ k s f l, flat s → shape f l → zlen l + zlen (buffer_ s) <= most → adds l (read_values t k s f).
Proof.
  induction k as [|k IH]; intros s f l F Hs Hm; [by apply adds_none|]. cbn [read_values].
  destruct (ReadPrimitive t s) as [[v|] s1] eqn:E1; [|by apply adds_none]. destruct (law_consumes _ _ _ F E1) as [Hlt Hv].
  destruct (Add_more t f l v (zlen (buffer_ s1)) Hs (zlen_nonneg _)) as (f1 & E2 & Hs1 & Hm1); [unfold zlen in *; lia|]. rewrite E2. cbn [mbind outcome_bind].
  apply (adds_cons l v _ Hv), IH; [by eapply advances_flat; [eapply law_advances|]|done|done].
Qed.

Lemma of_raw_adds k raw : zlen raw = Z.of_nat k * size_of t → length (of_raw t k raw) = k ∧ Forall (in_range t) (of_raw t k raw).
Proof.
  pose proof law_size_of as Hsz. revert raw. induction k as [|k IH]; intros raw Hr; [by split|]. cbn [of_raw length].
  destruct (IH (drop (Z.to_nat (size_of t)) raw)) as [-> Hv]; [rewrite zlen_drop; nia|]. split; [done|]. constructor; [|done].
  apply fixed_any. rewrite zlen_take; nia.
Qed.

Lemma ReadPackedFixedSizePrimitive_adds s f l : flat s → shape f l → zlen l + zlen (buffer_ s) <= most → adds l (ReadPackedFixedSizePrimitive t s f).
Proof.
  intros F Hs Hm. pose proof law_size_of as Hsz. unfold ReadPackedFixedSizePrimitive.
  destruct (ReadVarintSizeAsInt s) as [[n|] s0] eqn:E0; [|by apply adds_none]. destruct (ReadVarintSizeAsInt_advances _ _ _ F E0) as [A0 Hn].
  pose proof (advances_flat _ _ A0 F) as F0. pose proof (advances_length _ _ A0) as Hl0. set (k := n / size_of t).
  destruct (Z.eqb_spec (k * size_of t) n) as [En|_]; cbn [negb]; [|by apply adds_none].
  unfold BytesUntilTotalBytesLimit. change (total_bytes_limit_ =? INT_MAX) with true. cbn iota. change (-1 =? -1) with true. cbn iota.
  rewrite BytesUntilLimit_flat by done. assert (Hk : 0 <= k) by (apply Z.div_pos; lia).
  destruct (Z.leb_spec (k * size_of t) (BufferSize s0)) as [Hle|_]; [|apply read_values_adds; [done|done|unfold zlen in *; lia]].
  unfold BufferSize in Hle. assert (k <= k * size_of t) by nia. assert (Hkm : zlen l + k <= most) by (unfold zlen in *; lia). pose proof (zlen_nonneg l).
  unfold size. rewrite (sh_current _ _ Hs). unfold add_int. unfold most, INT_MAX in *. zdec. cbn [andb mbind outcome_bind].
  destruct (Resize_grow (size_of t) Hsz (zero t) k f l Hs) as (f1 & E1 & Hs1); [lia|unfold most; lia|]. rewrite E1. cbn [mbind outcome_bind].
  rewrite (ReadRaw_flat s0 (k * size_of t) F0) by lia. unfold BufferSize. zdec.
  destruct (of_raw_adds (Z.to_nat k) (take (Z.to_nat (k * size_of t)) (buffer_ s0))) as [Hlen Hv]; [rewrite zlen_take; lia|].
  set (vs := of_raw t _ _) in *. destruct (sh_elements _ _ Hs1) as (g & Eg). rewrite fmap_app, <- app_assoc in Eg.
  assert (Hvl : zlen vs = k) by (unfold zlen; lia).
  change (map Some vs) with (Some <$> vs). rewrite (put_slots_here f1 l _ g (zlen l) vs Eg eq_refl) by (rewrite zlen_fmap; unfold zlen; rewrite length_replicate; lia).
  cbn [mbind outcome_bind]. eexists _, _, _, vs. split_and!; [done| |done]. by apply (refilled t f1 l vs g (zero t)); rewrite Hvl.
Qed.
End TotalFixed.

(** C17: the readers of repeated fields are safe on input from anywhere.  For each of
    the fourteen scalar types, whatever the bytes of the buffer and the tag: reading one
    or more elements with [ReadRepeatedPrimitive], or a packed field with
    [ReadPackedPrimitive], and likewise by the paths for types of fixed size, returns.
    It never writes outside of the field's array, reads outside of the stream's buffer
    or overflows an integer, and what it adds behind the elements the field had, also
    when it fails, are values of the field's C++ type. *)
Theorem repeated_readers_safe t (P : Primitive t) tag s (f : RepeatedField (CType t)) l :
  primitive_of t = Some P → 0 <= tag → flat s → shape f l → zlen l + zlen (buffer_ s) < most →
  adds l (ReadRepeatedPrimitive t tag s f) ∧ adds l (ReadPackedPrimitive t s f) ∧
  ∀ X : FixedPrimitive t, fixed_of t = Some (existT P X) →
    adds l (ReadRepeatedFixedSizePrimitive t (zlen (WriteVarint32ToArray tag)) tag s f) ∧ adds l (ReadPackedFixedSizePrimitive t s f).
Proof.
  intros HP Ht F Hs Hm. pose proof (primitive_of_laws t P HP) as L. pose proof (zlen_nonneg (buffer_ s)). split_and!.
  - apply ReadRepeatedPrimitive_adds; [done..|lia].
  - apply ReadPackedPrimitive_adds; [done..|lia].
  - intros X HX. destruct (fixed_of_laws t _ HX) as [L' FL]. cbn in L', FL. split.
    + apply (@ReadRepeatedFixedSizePrimitive_adds t P X L' FL); [done..|lia].
    + apply (@ReadPackedFixedSizePrimitive_adds t P X L' FL); [done..|lia].
Qed.

(** A packed field of the wrong length: nothing is added. *)
Lemma repeated_readers_safe_witness :
  adds (t := TYPE_SFIXED32) [300; -1] (ReadPackedFixedSizePrimitive TYPE_SFIXED32 (of_array [Byte.x07; Byte.x01; Byte.x00; Byte.x00; Byte.x00; Byte.x09; Byte.x09; Byte.x09]) two_values) ∧
  adds (t := TYPE_SFIXED32) [300; -1] (ReadRepeatedFixedSizePrimitive TYPE_SFIXED32 (zlen (WriteVarint32ToArray 13)) 13
    (of_array [Byte.x07; Byte.x01; Byte.x00; Byte.x00; Byte.x0d; Byte.x09; Byte.x09; Byte.x09]) two_values).
Proof.
  split.
  - apply (repeated_readers_safe TYPE_SFIXED32 sfixed32_primitive 13 _ two_values [300; -1]) with (X := sfixed32_fixed);
      [reflexivity|lia|by vm_compute|apply two_values_shape|by vm_compute|reflexivity].
  - apply (repeated_readers_safe TYPE_SFIXED32 sfixed32_primitive 13 _ two_values [300; -1]) with (X := sfixed32_fixed);
      [reflexivity|lia|by vm_compute|apply two_values_shape|by vm_compute|reflexivity].
Defined.
