(* ===== verification/VarintSizes.v ===== *)
(** The sizes of packed fields computed without branches (WireTypes.v): for compilers
    that vectorise them, [VarintSize] and [VarintSize64] replace the sums of the sizes
    of the elements. *)

From S2P Require Import Prelude CodedStream WireFormat RepeatedField ScalarField ScalarFieldFacts WireTypes WireTypesFacts PackedFields PackedRoundtrip.
Import CodedOutput WireFormatLite WireTypes ScalarField.

(** The bytes a varint takes beyond the first, for up to 35 bits. *)
Definition more_bytes (x : Z) : Z := over x 0x7F + over x 0x3FFF + over x 0x1FFFFF + over x 0xFFFFFFF.

Lemma more_bytes_log x : 0 <= x < 2 ^ 35 → more_bytes x = Z.log2 (Z.lor x 1) / 7.
Proof.
  intros Hx. unfold more_bytes, over. destruct (Z.eq_dec x 0) as [->|Hn]; [done|]. rewrite log2_lor_1 by lia. pose proof (Z.log2_spec x ltac:(lia)) as Hl.
  assert (Hb : ∀ k n, 0 <= k → 7 * k <= n → 2 ^ n <= x → k <= Z.log2 x / 7).
  { intros k n H1 H2 H3. apply Z.div_le_lower_bound; [lia|]. etransitivity; [exact H2|]. apply Z.log2_le_pow2; lia. }
  assert (Ht : ∀ k, 0 <= k → x < 2 ^ (7 * (k + 1)) → Z.log2 x / 7 <= k).
  { intros k H1 H2. apply Z.log2_lt_pow2 in H2; [|lia]. apply Z.lt_succ_r, Z.div_lt_upper_bound; lia. }
  pose proof (Z.div_pos (Z.log2 x) 7 (Z.log2_nonneg x) ltac:(lia)).
  repeat case_match; zbool; try lia;
    [pose proof (Hb 4 28 ltac:(lia) ltac:(lia) ltac:(lia)); pose proof (Ht 4 ltac:(lia) ltac:(lia))
    |pose proof (Hb 3 21 ltac:(lia) ltac:(lia) ltac:(lia)); pose proof (Ht 3 ltac:(lia) ltac:(lia))
    |pose proof (Hb 2 14 ltac:(lia) ltac:(lia) ltac:(lia)); pose proof (Ht 2 ltac:(lia) ltac:(lia))
    |pose proof (Hb 1 7 ltac:(lia) ltac:(lia) ltac:(lia)); pose proof (Ht 1 ltac:(lia) ltac:(lia))
    |pose proof (Ht 0 ltac:(lia) ltac:(lia))]; lia.
Qed.

Lemma varint32_bytes x : is_u32 x → zlen (WriteVarint32ToArray x) = 1 + more_bytes x.
Proof. intros Hx. unfold WriteVarint32ToArray. rewrite write_varint_length, more_bytes_log by (znorm; cbn; lia). lia. Qed.

(** Beyond 35 bits, five bytes are taken off first. *)
Lemma varint64_bytes x : is_u64 x →
  zlen (WriteVarint64ToArray x) = 1 + if 2 ^ 35 <=? x then 5 + more_bytes (Z.shiftr x 35) else more_bytes x.
Proof.
  intros Hx. unfold WriteVarint64ToArray. rewrite write_varint_length by (znorm; cbn; lia). destruct (Z.leb_spec (2 ^ 35) x) as [Hge|Hlt].
  - assert (0 < Z.shiftr x 35 < 2 ^ 35).
    { rewrite Z.shiftr_div_pow2 by lia. znorm. split; [apply Z.div_str_pos; lia|apply Z.div_lt_upper_bound; lia]. }
    rewrite more_bytes_log by lia. rewrite !log2_lor_1 by lia. rewrite Z.log2_shiftr by lia. assert (35 <= Z.log2 x) by (apply Z.log2_le_pow2; lia).
    rewrite Z.max_r by lia. replace (Z.log2 x) with (Z.log2 x - 35 + 5 * 7) at 1 by lia. rewrite Z.div_add by lia. lia.
  - rewrite more_bytes_log by (znorm; lia). lia.
Qed.

(** ** The sums *)

(** Sums of what each element adds, in a register of [w] bits. *)
Lemma sum_fold (wrap : Z → Z) (g : Z → Z) (step : Z → Z → Z) data : (∀ a b, wrap (wrap a + b) = wrap (a + b)) →
  (∀ s x, step s x = wrap (s + g x)) → ∀ s, fold_left step data (wrap s) = wrap (s + fold_right Z.add 0 (map g data)).
Proof.
  intros Hw Hg. induction data as [|x data IH]; intros s; cbn [fold_left map fold_right]; [f_equal; lia|].
  rewrite Hg, Hw, IH. f_equal. lia.
Qed.

Lemma pair_fold (g h : Z → Z) data : ∀ a b,
  fold_left (λ '(s, m) x, (u32 (s + g x), u32 (m + h x))) data (u32 a, u32 b) =
  (u32 (a + fold_right Z.add 0 (map g data)), u32 (b + fold_right Z.add 0 (map h data))).
Proof.
  induction data as [|x data IH]; intros a b; cbn [fold_left map fold_right]; [f_equal; f_equal; lia|].
  rewrite !u32_add_l, IH. f_equal; f_equal; lia.
Qed.

Lemma bytes_sum (w : Z → bytes) data : zlen (concat (map w data)) = zlen data + fold_right Z.add 0 (map (λ x, zlen (w x) - 1) data).
Proof. induction data as [|x data IH]; [done|]. cbn [map concat fold_right]. rewrite zlen_app, IH, zlen_cons. lia. Qed.

Lemma sum_ext (g h : Z → Z) (data : list Z) : Forall (λ x, g x = h x) data → fold_right Z.add 0 (map g data) = fold_right Z.add 0 (map h data).
Proof. intros H. f_equal. by apply map_ext_Forall. Qed.

Lemma sum_mul (h : Z → Z) data k : fold_right Z.add 0 (map h data) * k = fold_right Z.add 0 (map (λ x, h x * k) data).
Proof. induction data as [|x data IH]; [done|]. cbn [map fold_right]. rewrite <- IH. lia. Qed.

Lemma sum_add (g h : Z → Z) data :
  fold_right Z.add 0 (map g data) + fold_right Z.add 0 (map h data) = fold_right Z.add 0 (map (λ x, g x + h x) data).
Proof. induction data as [|x data IH]; [done|]. cbn [map fold_right]. rewrite <- IH. lia. Qed.

(** What an element adds. *)
Definition element_more (ZigZag SignExtended : bool) (x : Z) : Z :=
  more_bytes (if ZigZag then ZigZagEncode32 (s32 (u32 x)) else u32 x) + (if SignExtended then Z.shiftr (u32 x) 31 else 0) * 5.

Lemma VarintSize_sum (ZigZag SignExtended : bool) data : (ZigZag = true → SignExtended = false) →
  VarintSize ZigZag SignExtended data = u32 (zlen data + fold_right Z.add 0 (map (element_more ZigZag SignExtended) data)).
Proof.
  intros Hx. unfold VarintSize.
  set (g x := more_bytes (if ZigZag then ZigZagEncode32 (s32 (u32 x)) else u32 x)). set (h x := if SignExtended then Z.shiftr (u32 x) 31 else 0).
  set (step := λ '(sum, msb_sum) x, _ : Z * Z).
  assert (E : ∀ a b, fold_left step data (u32 a, u32 b) = fold_left (λ '(s, m) x, (u32 (s + g x), u32 (m + h x))) data (u32 a, u32 b)).
  { induction data as [|x data IH]; intros a b; [done|]. cbn [fold_left]. rewrite <- (IH (u32 a + g x) (u32 b + h x)). f_equal. unfold step, g, h. cbn zeta. f_equal.
    - f_equal. unfold more_bytes. lia.
    - destruct ZigZag, SignExtended; cbn [negb andb]; rewrite ?Z.add_0_r, ?u32_idemp; try done. by specialize (Hx eq_refl). }
  change 0 with (u32 0) at 1. rewrite E, pair_fold, Z.add_0_l. clear E step.
  transitivity (u32 (zlen data + fold_right Z.add 0 (map g data) + fold_right Z.add 0 (map h data) * 5)).
  - destruct SignExtended.
    + by rewrite u32_add_l, u32_add_r, <- (u32_add_r _ (u32 _ * 5)), u32_mul_l, u32_add_r.
    + f_equal. assert (Hz : fold_right Z.add 0 (map h data) = 0) by (clear; induction data as [|x data IH]; [done|cbn [map fold_right]; rewrite IH; done]). rewrite Hz. lia.
  - by rewrite sum_mul, <- Z.add_assoc, sum_add.
Qed.

Definition element_more64 (ZigZag : bool) (x : Z) : Z :=
  let y := if ZigZag then ZigZagEncode64 (s64 (u64 x)) else u64 x in
  if 2 ^ 35 <=? y then 5 + more_bytes (Z.shiftr y 35) else more_bytes y.

Lemma VarintSize64_sum (ZigZag : bool) data : VarintSize64Array ZigZag data = u32 (zlen data + fold_right Z.add 0 (map (element_more64 ZigZag) data)).
Proof.
  unfold VarintSize64Array. rewrite (sum_fold u64 (element_more64 ZigZag)); [apply u32_u64|apply u64_add_l|].
  intros s x. cbn zeta. unfold element_more64. set (y := if ZigZag then _ else _). change (Z.shiftl 1 35) with (2 ^ 35).
  destruct (2 ^ 35 <=? y).
  - change (Z.land 5 (2 ^ 64 - 1)) with 5. change (Z.land 35 (2 ^ 64 - 1)) with 35. unfold more_bytes.
    rewrite <- !Z.add_assoc, u64_add_l. f_equal. lia.
  - change (Z.land 5 0) with 0. change (Z.land 35 0) with 0. rewrite Z.shiftr_0_r. unfold more_bytes.
    rewrite <- !Z.add_assoc, u64_add_l. f_equal. lia.
Qed.

(** ** Agreement *)

Lemma sum_encoding (w : Z → bytes) (g : Z → Z) data : Forall (λ x, zlen (w x) = 1 + g x) data →
  u32 (zlen data + fold_right Z.add 0 (map g data)) = u32 (zlen (concat (map w data))).
Proof.
  intros H. rewrite bytes_sum. do 2 f_equal. apply sum_ext. eapply Forall_impl; [exact H|]. intros x ->. cbn. lia.
Qed.

(** C23: the sizes of packed fields computed without branches, for the compilers that
    vectorise them, are the sums they replace, in [size_t]: [VarintSize] for [int32] and
    enums, sign-extended, for [uint32], and for [sint32], with ZigZag; [VarintSize64]
    for [int64], [uint64] and [sint64]. *)
Theorem vectorised_sizes_agree (f : RepeatedField Z) (vs : list Z) : shape f vs →
  (Forall is_s32 vs → RepeatedSize TYPE_INT32 f = Ok (VarintSize false true vs) ∧ RepeatedSize TYPE_ENUM f = Ok (VarintSize false true vs) ∧
     RepeatedSize TYPE_SINT32 f = Ok (VarintSize true false vs)) ∧
  (Forall is_u32 vs → RepeatedSize TYPE_UINT32 f = Ok (VarintSize false false vs)) ∧
  (Forall is_s64 vs → RepeatedSize TYPE_INT64 f = Ok (VarintSize64Array false vs) ∧ RepeatedSize TYPE_SINT64 f = Ok (VarintSize64Array true vs)) ∧
  (Forall is_u64 vs → RepeatedSize TYPE_UINT64 f = Ok (VarintSize64Array false vs)).
Proof.
  intros Hs.
  assert (Hsum : ∀ (w : Z → bytes) (g : Z → Z) (P : Z → Prop) n, (∀ x, P x → zlen (w x) = 1 + g x) → Forall P vs →
    n = u32 (zlen vs + fold_right Z.add 0 (map g vs)) → u32 (zlen (concat (map w vs))) = n).
  { intros w g P n H Hv ->. symmetry. apply sum_encoding. eapply Forall_impl; [exact Hv|]. exact H. }
  assert (H32 : ∀ v, is_s32 v → zlen (WriteVarint32SignExtendedToArray v) = 1 + element_more false true v).
  { intros v Hv. rewrite <- VarintSize32SignExtended_length by done. unfold VarintSize32SignExtended, element_more. destruct (Z.ltb_spec v 0) as [Hneg|Hpos].
    - assert (u32 v = v + 2 ^ 32) as -> by (transitivity (u32 (v + 2 ^ 32)); [apply (u32_cong (-1)); lia|apply u32_small; znorm; lia]).
      rewrite Z.shiftr_div_pow2 by lia. assert ((v + 2 ^ 32) / 2 ^ 31 = 1) as -> by (symmetry; apply Z.div_unique with (v + 2 ^ 31); znorm; lia).
      unfold more_bytes, over. znorm. repeat case_match; zbool; lia.
    - assert (Hu : is_u32 v) by (znorm; lia). rewrite (u32_small v Hu), (VarintSize32_length v Hu), (varint32_bytes v Hu). rewrite Z.shiftr_div_pow2, Z.div_small by (znorm; lia). lia. }
  assert (Hrep : ∀ (t : FieldType) `{PrimitiveLaws t} (fld : RepeatedField (CType t)) l n, shape fld l → Forall (in_range t) l → u32 (zlen (encoding t l)) = n →
    RepeatedSize t fld = Ok n) by (intros t ? ? fld l n Hf Hl <-; by apply RepeatedSize_spec).
  split_and!.
  - intros Hv. split_and!; [apply (Hrep TYPE_INT32 _ _ f vs)|apply (Hrep TYPE_ENUM _ _ f vs)|apply (Hrep TYPE_SINT32 _ _ f vs)]; try done.
    + apply (Hsum _ _ _ _ H32 Hv). by apply VarintSize_sum.
    + apply (Hsum _ _ _ _ H32 Hv). by apply VarintSize_sum.
    + apply (Hsum WriteSInt32NoTagToArray (element_more true false) is_s32); [|done|by apply VarintSize_sum]. intros v Hz. unfold element_more. rewrite s32_u32, s32_small, Z.add_0_r by done.
      apply varint32_bytes. by apply ZigZag32.
  - intros Hv. apply (Hrep TYPE_UINT32 _ _ f vs); try done.
    apply (Hsum WriteUInt32NoTagToArray (element_more false false) is_u32); [|done|by apply VarintSize_sum].
    intros v Hz. unfold element_more. rewrite u32_small, Z.add_0_r by done. by apply varint32_bytes.
  - intros Hv. split; [apply (Hrep TYPE_INT64 _ _ f vs)|apply (Hrep TYPE_SINT64 _ _ f vs)]; try done.
    + apply (Hsum WriteInt64NoTagToArray (element_more64 false) is_s64); [|done|by apply VarintSize64_sum]. intros v Hz. apply varint64_bytes, u64_range.
    + apply (Hsum WriteSInt64NoTagToArray (element_more64 true) is_s64); [|done|by apply VarintSize64_sum]. intros v Hz. unfold element_more64. rewrite s64_u64, s64_small by done.
      apply varint64_bytes. by apply ZigZag64.
  - intros Hv. apply (Hrep TYPE_UINT64 _ _ f vs); try done.
    apply (Hsum WriteUInt64NoTagToArray (element_more64 false) is_u64); [|done|by apply VarintSize64_sum].
    intros v Hz. unfold element_more64. rewrite u64_small by done. by apply varint64_bytes.
Qed.

Lemma vectorised_sizes_agree_witness : RepeatedSize TYPE_INT32 two_values = Ok (VarintSize false true [300; -1]) ∧ VarintSize false true [300; -1] = 12.
Proof. split; [|by vm_compute]. apply (vectorised_sizes_agree two_values [300; -1]); [apply two_values_shape|repeat (constructor; [znorm; lia|]); constructor]. Defined.
