(* ===== verification/FieldSkippers.v ===== *)
(** What a parser does with what it does not know (Shared/protobuf/src/google/protobuf/
    wire_format_lite.{h,cc}, wire_format.{h,cc}): the field skippers, which throw away
    unknown fields, copy them to a stream or record them in an [UnknownFieldSet], and
    packed enum fields, whose readers keep the values a schema declares and hand on the
    others. *)

From S2P Require Import Prelude CodedStream WireFormat RepeatedField ScalarField CodedStreamMore WireTypes.

Module FieldSkippers.
Import CodedOutput CodedInput CodedInputMore WireFormatLite WireTypes.

(** ** Skipping *)

(** [WireFormatLite::SkipField(input, tag)] and [SkipMessage(input)].  Fuel as in
    [WireFormat.skip_field]. *)
Fixpoint skip_field (fuel : nat) (tag : Z) (input : CodedInputStream) : option (bool * CodedInputStream) :=
  match fuel with
  | O => None
  | S fuel =>
      if GetTagFieldNumber tag =? 0 then Some (false, input) else
      match GetTagWireType tag with
      | 0 => match ReadVarint64 input with (Some _, input) => Some (true, input) | (None, input) => Some (false, input) end
      | 1 => match ReadLittleEndian64 input with (Some _, input) => Some (true, input) | (None, input) => Some (false, input) end
      | 2 =>
          match ReadVarint32 input with
          | (Some length, input) => Some (Skip (s32 length) input)
          | (None, input) => Some (false, input)
          end
      | 3 =>
          let '(ok, input) := IncrementRecursionDepth input in
          if negb ok then Some (false, input) else
          match skip_message fuel input with
          | None => None
          | Some (false, input) => Some (false, input)
          | Some (true, input) =>
              let input := DecrementRecursionDepth input in
              Some (LastTagWas (MakeTag (GetTagFieldNumber tag) WIRETYPE_END_GROUP) input, input)
          end
      | 4 => Some (false, input)
      | 5 => match ReadLittleEndian32 input with (Some _, input) => Some (true, input) | (None, input) => Some (false, input) end
      | _ => Some (false, input)
      end
  end
with skip_message (fuel : nat) (input : CodedInputStream) : option (bool * CodedInputStream) :=
  match fuel with
  | O => None
  | S fuel =>
      let '(tag, input) := ReadTag input in
      if tag =? 0 then Some (true, input)
      else if GetTagWireType tag =? WIRETYPE_END_GROUP then Some (true, input)
      else
        match skip_field fuel tag input with
        | None => None
        | Some (false, input) => Some (false, input)
        | Some (true, input) => skip_message fuel input
        end
  end.

(** [WireFormatLite::SkipField(input, tag, output)] and [SkipMessage(input, output)]. *)
Fixpoint copy_field (fuel : nat) (tag : Z) (input : CodedInputStream) (output : CodedOutputStream)
  : option (bool * CodedInputStream * CodedOutputStream) :=
  match fuel with
  | O => None
  | S fuel =>
      if GetTagFieldNumber tag =? 0 then Some (false, input, output) else
      match GetTagWireType tag with
      | 0 =>
          match ReadVarint64 input with
          | (Some value, input) => Some (true, input, WriteVarint64 value (WriteVarint32 tag output))
          | (None, input) => Some (false, input, output)
          end
      | 1 =>
          match ReadLittleEndian64 input with
          | (Some value, input) => Some (true, input, WriteLittleEndian64 value (WriteVarint32 tag output))
          | (None, input) => Some (false, input, output)
          end
      | 2 =>
          match ReadVarint32 input with
          | (Some length, input) =>
              let output := WriteVarint32 length (WriteVarint32 tag output) in
              let '(ok, temp, input) := CodedInput.ReadString (s32 length) [] input in
              Some (ok, input, if ok then WriteRaw temp output else output)
          | (None, input) => Some (false, input, output)
          end
      | 3 =>
          let output := WriteVarint32 tag output in
          let '(ok, input) := IncrementRecursionDepth input in
          if negb ok then Some (false, input, output) else
          match copy_message fuel input output with
          | None => None
          | Some (false, input, output) => Some (false, input, output)
          | Some (true, input, output) =>
              let input := DecrementRecursionDepth input in
              Some (LastTagWas (MakeTag (GetTagFieldNumber tag) WIRETYPE_END_GROUP) input, input, output)
          end
      | 4 => Some (false, input, output)
      | 5 =>
          match ReadLittleEndian32 input with
          | (Some value, input) => Some (true, input, WriteLittleEndian32 value (WriteVarint32 tag output))
          | (None, input) => Some (false, input, output)
          end
      | _ => Some (false, input, output)
      end
  end
with copy_message (fuel : nat) (input : CodedInputStream) (output : CodedOutputStream)
  : option (bool * CodedInputStream * CodedOutputStream) :=
  match fuel with
  | O => None
  | S fuel =>
      let '(tag, input) := ReadTag input in
      if tag =? 0 then Some (true, input, output)
      else if GetTagWireType tag =? WIRETYPE_END_GROUP then Some (true, input, WriteVarint32 tag output)
      else
        match copy_field fuel tag input output with
        | None => None
        | Some (false, input, output) => Some (false, input, output)
        | Some (true, input, output) => copy_message fuel input output
        end
  end.

Definition skip_fuel (input : CodedInputStream) : nat := 2 * WireFormat.unread input + 2.

(** *** The skippers *)

(** The virtual functions of [FieldSkipper], for what a skipper keeps. *)
Class FieldSkipper (K : Type) := {
  SkipField : Z → CodedInputStream → K → option (bool * CodedInputStream * K);
  SkipMessage : CodedInputStream → K → option (bool * CodedInputStream * K);
  SkipUnknownEnum : Z → Z → K → K
}.

(** The base class. *)
#[export] Instance base_skipper : FieldSkipper unit := {
  SkipField tag input _ := match skip_field (skip_fuel input) tag input with Some (ok, input) => Some (ok, input, tt) | None => None end;
  SkipMessage input _ := match skip_message (skip_fuel input) input with Some (ok, input) => Some (ok, input, tt) | None => None end;
  SkipUnknownEnum _ _ _ := tt }.

(** [CodedOutputStreamFieldSkipper]. *)
Definition SkipUnknownEnum_stream (field_number value : Z) (unknown_fields : CodedOutputStream) : CodedOutputStream :=
  WriteVarint64 (u64 value) (WriteVarint32 (u32 field_number) unknown_fields).

#[export] Instance stream_skipper : FieldSkipper CodedOutputStream := {
  SkipField tag input := copy_field (skip_fuel input) tag input;
  SkipMessage input := copy_message (skip_fuel input) input;
  SkipUnknownEnum := SkipUnknownEnum_stream }.

(** [UnknownFieldSetFieldSkipper]. *)
Definition AddVarint (number value : Z) (unknown_fields : UnknownFieldSet) : UnknownFieldSet :=
  unknown_fields ++ [UVarint number value].

Definition swap_out {A B C} (r : option (A * B * C)) : option (A * C * B) :=
  match r with Some (a, b, c) => Some (a, c, b) | None => None end.

#[export] Instance set_skipper : FieldSkipper UnknownFieldSet := {
  SkipField tag input uf := swap_out (WireFormat.SkipField tag uf input);
  SkipMessage input uf := swap_out (WireFormat.skip_message (skip_fuel input) uf input);
  SkipUnknownEnum number value := AddVarint number (u64 value) }.

(** ** Packed enum fields *)

(** The loop of [ReadPackedEnumNoInline] and the two [ReadPackedEnumPreserveUnknowns]:
    [is_valid] may be null; what happens to the values it refuses is [refused]. *)
Section PackedEnum.
Import ScalarField.
Context {U : Type} (is_valid : option (Z → bool)) (refused : Z → U → U).

Definition valid (value : Z) : bool := match is_valid with Some is_valid => is_valid value | None => true end.

Fixpoint read_packed_enum (fuel : nat) (limit : Z) (input : CodedInputStream) (unknown : U) (values : RepeatedField Z)
  : outcome (bool * CodedInputStream * U * RepeatedField Z) :=
  if 0 <? BytesUntilLimit input then
    match fuel with
    | O => NoFuel
    | S fuel =>
        match ReadPrimitive TYPE_ENUM input with
        | (Some value, input) =>
            if valid value then values ← Add (size_of TYPE_ENUM) (Value value) values; read_packed_enum fuel limit input unknown values
            else read_packed_enum fuel limit input (refused value unknown) values
        | (None, input) => Ok (false, input, unknown, values)
        end
    end
  else Ok (true, PopLimit limit input, unknown, values).

Definition read_enum_field (input : CodedInputStream) (unknown : U) (values : RepeatedField Z)
  : outcome (bool * CodedInputStream * U * RepeatedField Z) :=
  match ReadVarint32 input with
  | (Some length, input) =>
      let '(limit, input) := PushLimit (s32 length) input in
      read_packed_enum (WireFormat.unread input) limit input unknown values
  | (None, input) => Ok (false, input, unknown, values)
  end.
End PackedEnum.

Definition ReadPackedEnumNoInline (is_valid : option (Z → bool)) (input : CodedInputStream) (values : ScalarField.RepeatedField Z)
  : outcome (bool * CodedInputStream * ScalarField.RepeatedField Z) :=
  '(ok, input, _, values) ← read_enum_field is_valid (λ _ _, tt) input tt values; Ok (ok, input, values).

(** The one of [WireFormatLite], and the one of [WireFormat]. *)
Definition refuse_to_stream (field_number value : Z) (unknown_fields_stream : CodedOutputStream) : CodedOutputStream :=
  WriteVarint32 (u32 value) (WriteVarint32 (MakeTag field_number WIRETYPE_VARINT) unknown_fields_stream).

Definition ReadPackedEnumPreserveUnknowns (field_number : Z) (is_valid : option (Z → bool)) (input : CodedInputStream)
    (unknown_fields_stream : CodedOutputStream) (values : ScalarField.RepeatedField Z)
  : outcome (bool * CodedInputStream * CodedOutputStream * ScalarField.RepeatedField Z) :=
  read_enum_field is_valid (refuse_to_stream field_number) input unknown_fields_stream values.

Definition ReadPackedEnumPreserveUnknowns_set (field_number : Z) (is_valid : option (Z → bool)) (input : CodedInputStream)
    (unknown_fields : UnknownFieldSet) (values : ScalarField.RepeatedField Z)
  : outcome (bool * CodedInputStream * UnknownFieldSet * ScalarField.RepeatedField Z) :=
  read_enum_field is_valid (λ value, AddVarint field_number (u64 value)) input unknown_fields values.
End FieldSkippers.
