(* ===== verification/FieldSkippersFacts.v ===== *)
(** The three field skippers accept the same input, and what is copied to a stream is
    what the recorded fields serialise to; packed enum fields are split into the values
    the schema knows and the others. *)

From S2P Require Import Prelude CodedStream WireFormat WireFormatFacts RepeatedField ScalarField ScalarFieldFacts CodedStreamMore WireTypes WireTypesFacts PackedFields FieldSkippers.
Import CodedOutput CodedInput CodedInputMore WireFormatLite WireTypes FieldSkippers.

(** ** Tags that have been read *)

Lemma ReadTag_u32 s t s' : flat s → ReadTag s = (t, s') → is_u32 t ∧ last_tag_ s' = t.
Proof.
  intros F. unfold ReadTag, ReadTagNoLastTag. assert (H0 : is_u32 0) by (znorm; lia). destruct (buffer_ s) as [|b r] eqn:E.
  - rewrite ReadTag_end_fallback by done. by intros [= <- <-].
  - pose proof (b2z_range b). destruct (Z.ltb_spec (b2z b) 128) as [Hlt|Hge]; [intros [= <- <-]; split; [znorm; lia|done]|].
    pose proof (ReadTagFallback_ref s b r F E Hge) as H1. destruct (varint_ref 10 _) as [[v k]|].
    + rewrite H1. intros [= <- <-]. split; [apply u32_range|done].
    + destruct H1 as [n ->]. by intros [= <- <-].
Qed.

Lemma tag_split tag : is_u32 tag → GetTagFieldNumber tag ≠ 0 →
  field_number_ok (GetTagFieldNumber tag) ∧ MakeTag (GetTagFieldNumber tag) (GetTagWireType tag) = tag.
Proof.
  unfold GetTagFieldNumber, GetTagWireType. intros Hu Hn. rewrite Z.shiftr_div_pow2 in * by lia. change 7 with (Z.ones 3).
  rewrite Z.land_ones by lia. change (2 ^ 3) with 8 in *. pose proof (Z.div_mod tag 8 ltac:(lia)). pose proof (Z.mod_pos_bound tag 8 ltac:(lia)).
  assert (field_number_ok (tag / 8)) by (unfold field_number_ok; znorm; lia).
  split; [done|]. rewrite MakeTag_add by (done || lia). lia.
Qed.

(** ** The skippers *)

(** What the three do with the same input: [r] records on top of [uf], [d] discards, [c]
    copies.  Behind the fields [c] may write [tail]. *)
Definition agrees (uf : UnknownFieldSet) (s : CodedInputStream) (r : option (bool * UnknownFieldSet * CodedInputStream))
    (d : option (bool * CodedInputStream)) (c : CodedOutputStream → option (bool * CodedInputStream * CodedOutputStream))
    (tail : CodedInputStream → bytes) : Prop :=
  ∃ ok uf' s' s1, r = Some (ok, uf', s') ∧ d = Some (ok, s1) ∧ (∀ o, 0 <= buffer_size_ o → ∃ s2 o2, c o = Some (ok, s2, o2)) ∧
    (ok = true → s1 = s' ∧ advances s s' ∧ ∃ fields, uf' = uf ++ fields ∧
      ∀ o, 0 <= buffer_size_ o → ∃ o2, c o = Some (true, s', o2) ∧ 0 <= buffer_size_ o2 ∧
        written o2 = written o ++ WireFormat.SerializeUnknownFieldsToArray fields ++ tail s').

(** The end tag of a group, which is copied although no field is recorded for it. *)
Definition end_tag (s : CodedInputStream) : bytes := if last_tag_ s =? 0 then [] else WriteVarint32ToArray (last_tag_ s).

Lemma agrees_fail uf s uf' s' s1 c tail : (∀ o, 0 <= buffer_size_ o → ∃ s2 o2, c o = Some (false, s2, o2)) →
  agrees uf s (Some (false, uf', s')) (Some (false, s1)) c tail.
Proof. intros Hc. by exists false, uf', s', s1. Qed.

Lemma agrees_leaf uf s f s' write : advances s s' → emits write (WireFormat.SerializeUnknownFieldToArray f) →
  agrees uf s (Some (true, uf ++ [f], s')) (Some (true, s')) (λ o, Some (true, s', write o)) (λ _, []).
Proof.
  intros A Hw. exists true, (uf ++ [f]), s', s'. split_and!; [done..|by eauto|]. intros _. split_and!; [done..|]. exists [f]. split; [done|].
  intros o Ho. destruct (Hw o Ho) as [Hp E]. exists (write o). split_and!; [done..|]. unfold WireFormat.SerializeUnknownFieldsToArray. cbn [map concat].
  by rewrite !app_nil_r.
Qed.

(** A tag and a value of a scalar type. *)
Lemma leaf_emits (t : FieldType) `{PrimitiveLaws t} tag n v f : is_u32 tag → tag = MakeTag n (kWireTypeForFieldType t) →
  WireFormat.SerializeUnknownFieldToArray f = WriteTagToArray n (kWireTypeForFieldType t) ++ WriteNoTagToArray t v → in_range t v →
  emits (λ o, WriteNoTag t v (CodedOutput.WriteVarint32 tag o)) (WireFormat.SerializeUnknownFieldToArray f).
Proof.
  intros Hu -> -> Hv. apply (emits_seq (CodedOutput.WriteVarint32 _) (WriteNoTag t v)); [by apply WriteVarint32_emits|by apply law_emits].
Qed.

(** Reading a string and skipping it leave the stream at the same place. *)
Lemma ReadString_Skip s n : flat s → let '(ok, v, s1) := CodedInput.ReadString (s32 n) [] s in
  ∃ s2, Skip (s32 n) s = (ok, s2) ∧ (ok = true → s2 = s1 ∧ zlen v = s32 n).
Proof.
  intros F. unfold CodedInput.ReadString, Skip. destruct (Z.ltb_spec (s32 n) 0) as [Hneg|Hn]; [by eexists|].
  pose proof (Skip_flat (s32 n) s F Hn) as Es. unfold Skip in Es. rewrite (proj2 (Z.ltb_ge _ _) Hn) in Es. rewrite Es, ReadRaw_flat by done.
  destruct (Z.leb_spec (s32 n) (BufferSize s)) as [Hle|]; eexists; (split; [reflexivity|]); [|done]. intros _. split; [done|].
  unfold BufferSize in Hle. rewrite zlen_take; lia.
Qed.

Section Simulation.
#[local] Notation SerializeUnknownFieldsToArray := WireFormat.SerializeUnknownFieldsToArray.

Lemma advances_last_budget s : last_tag_ (DecrementRecursionDepth s) = last_tag_ s.
Proof. unfold DecrementRecursionDepth. by case_match. Qed.

(** A group, given that its fields agree. *)
Lemma group_agrees f tag uf s : ready s → is_u32 tag → GetTagFieldNumber tag ≠ 0 → GetTagWireType tag = 3 →
  (∀ s1, ready s1 → (length (buffer_ s1) <= length (buffer_ s))%nat →
     agrees [] s1 (WireFormat.skip_message f [] s1) (skip_message f s1) (copy_message f s1) end_tag) →
  agrees uf s (WireFormat.skip_field (S f) tag uf s) (skip_field (S f) tag s) (copy_field (S f) tag s) (λ _, []).
Proof.
  intros R Hu Hn Hw IH. cbn [WireFormat.skip_field skip_field copy_field]. rewrite (proj2 (Z.eqb_neq _ _) Hn), Hw.
  destruct (tag_split tag Hu Hn) as [Hok Etag]. rewrite Hw in Etag. set (n := GetTagFieldNumber tag) in *.
  unfold IncrementRecursionDepth. set (s1 := set_budget s (recursion_budget_ s - 1)). destruct (0 <=? recursion_budget_ s1); cbn [negb]; [|apply agrees_fail; by eauto].
  destruct (IH s1) as (ok & g & s2 & s3 & -> & -> & Hc & Hok2); [by apply descend_ready|done|].
  destruct (MakeTag_u32 n WIRETYPE_END_GROUP Hok ltac:(done)) as [Hue Hze]. pose proof (WriteVarint32_emits tag Hu) as Ht. destruct ok.
  - destruct (Hok2 eq_refl) as (-> & A & g' & -> & Hcopy). cbn [app negb]. unfold LastTagWas. rewrite advances_last_budget.
    set (s' := DecrementRecursionDepth s2). destruct (Z.eqb_spec (last_tag_ s2) (MakeTag n WIRETYPE_END_GROUP)) as [El|Hne].
    + exists true, (uf ++ [UGroup n g']), s', s'. assert (Hall : ∀ o, 0 <= buffer_size_ o → ∃ o2, match copy_message f s1 (CodedOutput.WriteVarint32 tag o) with
        | Some (true, input, output) => Some (last_tag_ (DecrementRecursionDepth input) =? MakeTag n WIRETYPE_END_GROUP, DecrementRecursionDepth input, output)
        | Some (false, input, output) => Some (false, input, output) | None => None end = Some (true, s', o2) ∧ 0 <= buffer_size_ o2 ∧
        written o2 = written o ++ SerializeUnknownFieldsToArray [UGroup n g'] ++ []).
      { intros o Ho. destruct (Ht o Ho) as [Hp1 W1]. destruct (Hcopy _ Hp1) as (o2 & -> & Hp2 & W2). exists o2.
        rewrite advances_last_budget, El, Z.eqb_refl. split_and!; [done|done|]. rewrite W2, W1. unfold end_tag. rewrite El, (proj2 (Z.eqb_neq _ _) Hze).
        unfold WireFormat.SerializeUnknownFieldsToArray. cbn [map concat WireFormat.SerializeUnknownFieldToArray]. rewrite !app_nil_r, <- !app_assoc.
        unfold WriteTagToArray, CodedOutput.WriteTagToArray. by rewrite <- Etag. }
      split_and!; [done|done|intros o Ho; destruct (Hall o Ho) as (o2 & E & _); by eexists _, _|]. intros _.
      split; [done|]. split; [by apply ascend_advances|]. exists [UGroup n g']. split; [done|]. intros o Ho. destruct (Hall o Ho) as (o2 & E & Hp & W). by exists o2.
    + apply agrees_fail. intros o Ho. destruct (Ht o Ho) as [Hp1 _]. destruct (Hcopy _ Hp1) as (o2 & -> & _). unfold LastTagWas. rewrite advances_last_budget.
      destruct (Z.eqb_spec (last_tag_ s2) (MakeTag n WIRETYPE_END_GROUP)); [done|]. by eexists _, _.
  - apply agrees_fail. intros o Ho. destruct (Ht o Ho) as [Hp1 _]. destruct (Hc _ Hp1) as (s4 & o2 & ->). by eexists _, _.
Qed.
(** A field of the wire type of a scalar. *)
Lemma scalar_agrees (t : FieldType) `{PrimitiveLaws t} tag uf s (mk : CType t → UnknownField) : ready s → is_u32 tag → GetTagFieldNumber tag ≠ 0 →
  GetTagWireType tag = kWireTypeForFieldType t →
  (∀ v, WireFormat.SerializeUnknownFieldToArray (mk v) = WriteTagToArray (GetTagFieldNumber tag) (kWireTypeForFieldType t) ++ WriteNoTagToArray t v) →
  agrees uf s
    (match ReadPrimitive t s with (Some v, s) => Some (true, uf ++ [mk v], s) | (None, s) => Some (false, uf, s) end)
    (match ReadPrimitive t s with (Some _, s) => Some (true, s) | (None, s) => Some (false, s) end)
    (λ o, match ReadPrimitive t s with (Some v, s) => Some (true, s, WriteNoTag t v (CodedOutput.WriteVarint32 tag o)) | (None, s) => Some (false, s, o) end)
    (λ _, []).
Proof.
  intros [F _] Hu Hn Hw Hmk. destruct (tag_split tag Hu Hn) as [_ Etag]. rewrite Hw in Etag. destruct (ReadPrimitive t s) as [[v|] s1] eqn:E.
  - destruct (law_consumes _ _ _ F E) as [_ Hv]. apply agrees_leaf; [by eapply law_advances|]. by eapply leaf_emits.
  - apply agrees_fail. by eauto.
Qed.

Lemma delimited_agrees tag uf s : ready s → is_u32 tag → GetTagFieldNumber tag ≠ 0 → GetTagWireType tag = 2 →
  agrees uf s
    (match ReadVarint32 s with
     | (Some length, s) => let '(ok, v, s) := CodedInput.ReadString (s32 length) [] s in Some (ok, uf ++ [ULengthDelimited (GetTagFieldNumber tag) v], s)
     | (None, s) => Some (false, uf, s) end)
    (match ReadVarint32 s with (Some length, s) => Some (Skip (s32 length) s) | (None, s) => Some (false, s) end)
    (λ o, match ReadVarint32 s with
     | (Some length, s) =>
         let output := CodedOutput.WriteVarint32 length (CodedOutput.WriteVarint32 tag o) in
         let '(ok, temp, s) := CodedInput.ReadString (s32 length) [] s in Some (ok, s, if ok then WriteRaw temp output else output)
     | (None, s) => Some (false, s, o) end)
    (λ _, []).
Proof.
  intros [F _] Hu Hn Hw. destruct (tag_split tag Hu Hn) as [_ Etag]. rewrite Hw in Etag.
  destruct (ReadVarint32 s) as [[n|] s1] eqn:E; [|apply agrees_fail; by eauto].
  pose proof (law_consumes (t := TYPE_UINT32)) as L. destruct (L s n s1 F E) as [_ Hv]. clear L. change (is_u32 n) in Hv. pose proof (ReadVarint32_advances _ _ _ F E) as A1.
  pose proof (ReadString_Skip s1 n (advances_flat _ _ A1 F)) as HS. destruct (CodedInput.ReadString (s32 n) [] s1) as [[ok v] s2] eqn:E2.
  destruct HS as (s3 & E3 & HS). rewrite E3. destruct ok; [|apply agrees_fail; by eauto]. destruct (HS eq_refl) as [-> Hl].
  apply (agrees_leaf uf s (ULengthDelimited (GetTagFieldNumber tag) v) s2 (λ o, WriteRaw v (CodedOutput.WriteVarint32 n (CodedOutput.WriteVarint32 tag o)))).
  - etransitivity; [exact A1|]. eapply ReadString_advances; [|exact E2]. by eapply advances_flat.
  - assert (n = u32 (zlen v)) as -> by (rewrite Hl, u32_s32; symmetry; by apply u32_small).
    cbn [WireFormat.SerializeUnknownFieldToArray]. unfold WriteStringToArray, WriteTagToArray, CodedOutput.WriteTagToArray, WIRETYPE_LENGTH_DELIMITED, WriteStringWithSizeToArray. rewrite Etag.
    apply (emits_seq (CodedOutput.WriteVarint32 tag) (λ o, WriteRaw v (CodedOutput.WriteVarint32 (u32 (zlen v)) o))); [by apply WriteVarint32_emits|].
    apply (emits_seq (CodedOutput.WriteVarint32 (u32 (zlen v))) (WriteRaw v)); [by apply WriteVarint32_emits|apply WriteRaw_emits].
Qed.

Lemma skippers_simulate f :
  (∀ tag uf s, ready s → is_u32 tag → (2 * length (buffer_ s) + 2 <= f)%nat →
     agrees uf s (WireFormat.skip_field f tag uf s) (skip_field f tag s) (copy_field f tag s) (λ _, [])) ∧
  (∀ uf s, ready s → (2 * length (buffer_ s) + 1 <= f)%nat →
     agrees uf s (WireFormat.skip_message f uf s) (skip_message f s) (copy_message f s) end_tag).
Proof.
  induction f as [|f [IH1 IH2]]; [split; intros; lia|]. split.
  - intros tag uf s R Hu Hf. destruct (Z.eq_dec (GetTagFieldNumber tag) 0) as [E0|Hn].
    { cbn [WireFormat.skip_field skip_field copy_field]. rewrite E0. apply agrees_fail. by eauto. }
    destruct (Z.eq_dec (GetTagWireType tag) 3) as [E3|H3].
    { apply group_agrees; [done..|]. intros s1 R1 Hl. apply IH2; [done|lia]. }
    cbn [WireFormat.skip_field skip_field copy_field]. rewrite (proj2 (Z.eqb_neq _ _) Hn).
    destruct (GetTagWireType tag) as [|[[p|[p|p|]|]|[p|[p|p|]|]|]|p] eqn:Ew; try (apply agrees_fail; by eauto); try done.
    + exact (scalar_agrees TYPE_UINT64 tag uf s (UVarint (GetTagFieldNumber tag)) R Hu Hn Ew (λ v, eq_refl)).
    + exact (scalar_agrees TYPE_FIXED32 tag uf s (UFixed32 (GetTagFieldNumber tag)) R Hu Hn Ew (λ v, eq_refl)).
    + by apply delimited_agrees.
    + exact (scalar_agrees TYPE_FIXED64 tag uf s (UFixed64 (GetTagFieldNumber tag)) R Hu Hn Ew (λ v, eq_refl)).
  - intros uf s R Hf. cbn [WireFormat.skip_message skip_message copy_message]. destruct (ReadTag s) as [tag s1] eqn:E.
    destruct (ReadTag_u32 _ _ _ (proj1 R) E) as [Hu Hl]. apply ReadTag_progress in E as [A Hp]; [|apply R].
    destruct (Z.eqb_spec tag 0) as [->|Hz].
    { exists true, uf, s1, s1. split_and!; [done..|by eauto|]. intros _. split_and!; [done..|]. exists []. rewrite app_nil_r. split; [done|].
      intros o Ho. exists o. unfold end_tag. rewrite Hl. cbn. by rewrite app_nil_r. }
    destruct (GetTagWireType tag =? WIRETYPE_END_GROUP).
    { exists true, uf, s1, s1. split_and!; [done..|by eauto|]. intros _. split_and!; [done..|]. exists []. rewrite app_nil_r. split; [done|].
      intros o Ho. destruct (WriteVarint32_emits tag Hu o Ho) as [Hp1 W]. eexists. split_and!; [done..|]. unfold end_tag. rewrite Hl, (proj2 (Z.eqb_neq _ _) Hz). by rewrite W. }
    specialize (Hp Hz). pose proof (advances_ready _ _ A R) as R1.
    destruct (IH1 tag uf s1 R1 Hu ltac:(lia)) as (ok & uf1 & s2 & s3 & -> & -> & Hc & Hok). destruct ok.
    + destruct (Hok eq_refl) as (-> & A2 & fs & -> & Hcopy). pose proof (advances_length _ _ A2). pose proof (advances_ready _ _ A2 R1) as R2.
      destruct (IH2 (uf ++ fs) s2 R2 ltac:(lia)) as (ok & uf2 & s4 & s5 & E1 & E2 & Hc2 & Hok2). exists ok, uf2, s4, s5. split_and!; [done|done| |].
      * intros o Ho. destruct (Hcopy o Ho) as (o2 & -> & Hp2 & _). by apply Hc2.
      * intros Ek. destruct (Hok2 Ek) as (-> & A3 & gs & -> & Hcopy2). split_and!; [done|by etransitivity; [|etransitivity]|]. exists (fs ++ gs).
        rewrite <- app_assoc. split; [done|]. intros o Ho. destruct (Hcopy o Ho) as (o2 & -> & Hp2 & W2). destruct (Hcopy2 o2 Hp2) as (o3 & -> & Hp3 & W3).
        exists o3. split_and!; [done..|]. rewrite W3, W2. unfold WireFormat.SerializeUnknownFieldsToArray. by rewrite map_app, concat_app, app_nil_r, <- !app_assoc.
    + apply agrees_fail. intros o Ho. destruct (Hc o Ho) as (s4 & o2 & ->). by eexists _, _.
Qed.
End Simulation.

(** *** Unknown enum values *)

(** [SkipUnknownEnum] of the stream skipper does not write the field the other records. *)
Lemma unknown_enum_bytes n value o : field_number_ok n → is_s32 value → 0 <= buffer_size_ o →
  written (SkipUnknownEnum n value o) ≠ written o ++ WireFormat.SerializeUnknownFieldsToArray (SkipUnknownEnum n value []).
Proof.
  intros Hn Hv Ho. destruct (MakeTag_u32 n WIRETYPE_VARINT Hn ltac:(done)) as [Hu _].
  assert (Hun : u32 n = n) by (apply u32_small; unfold field_number_ok in Hn; znorm; lia).
  assert (He : emits (SkipUnknownEnum_stream n value) (WriteVarint32ToArray (u32 n) ++ WriteVarint64ToArray (u64 value))).
  { apply (emits_seq (CodedOutput.WriteVarint32 (u32 n)) (WriteVarint64 (u64 value))); [apply WriteVarint32_emits, u32_range|apply WriteVarint64_emits, u64_range]. }
  destruct (He o Ho) as [_ E]. intros E'. change (SkipUnknownEnum n value o) with (SkipUnknownEnum_stream n value o) in E'. rewrite E in E'. clear E He.
  apply app_inv_head in E'. cbn [SkipUnknownEnum set_skipper AddVarint app] in E'. unfold AddVarint, WireFormat.SerializeUnknownFieldsToArray in E'.
  cbn [app map concat WireFormat.SerializeUnknownFieldToArray] in E'. rewrite app_nil_r in E'. unfold WriteTagToArray, CodedOutput.WriteTagToArray in E'.
  pose proof (varint_ref_write32 (u32 n) (WriteVarint64ToArray (u64 value)) (u32_range n)) as E1. rewrite E' in E1.
  rewrite (varint_ref_write32 (MakeTag n WIRETYPE_VARINT) _ Hu) in E1. rewrite MakeTag_add in E1 by done. injection E1 as E1.
  unfold WIRETYPE_VARINT, field_number_ok in *. lia.
Qed.

(** C21: the three field skippers make the same of the same input.  Whatever the tag and
    the bytes of an array, with the budget of the stream for nested groups: skipping a
    field, or fields up to the end of the input or an end-group tag, returns, and the
    skipper that throws fields away, the one that records them in an [UnknownFieldSet]
    and the one that copies them to a stream agree on whether the input is well formed.
    If it is, they leave the input at the same place, and what is copied is exactly the
    serialisation of what is recorded, with an end-group tag behind it where one ended
    the fields.  Unknown enum values, though, are written to a stream with the number of
    the field in the place of its tag, which is not the field recorded in the set. *)
Theorem field_skippers_agree tag s (uf : UnknownFieldSet) (o : CodedOutputStream) :
  ready s → is_u32 tag → 0 <= buffer_size_ o →
  (∃ ok s0 s1 s2 uf' o', SkipField tag s tt = Some (ok, s0, tt) ∧ SkipField tag s uf = Some (ok, s1, uf') ∧ SkipField tag s o = Some (ok, s2, o') ∧
     (ok = true → s0 = s1 ∧ s2 = s1 ∧ advances s s1 ∧ ∃ fields, uf' = uf ++ fields ∧
        written o' = written o ++ WireFormat.SerializeUnknownFieldsToArray fields)) ∧
  (∃ ok s0 s1 s2 uf' o', SkipMessage s tt = Some (ok, s0, tt) ∧ SkipMessage s uf = Some (ok, s1, uf') ∧ SkipMessage s o = Some (ok, s2, o') ∧
     (ok = true → s0 = s1 ∧ s2 = s1 ∧ advances s s1 ∧ ∃ fields, uf' = uf ++ fields ∧
        written o' = written o ++ WireFormat.SerializeUnknownFieldsToArray fields ++ end_tag s1)) ∧
  (∀ n value, field_number_ok n → is_s32 value →
     written (SkipUnknownEnum n value o) ≠ written o ++ WireFormat.SerializeUnknownFieldsToArray (SkipUnknownEnum n value [])).
Proof.
  intros R Hu Ho. assert (Hfuel : (2 * length (buffer_ s) + 2 <= skip_fuel s)%nat) by (unfold skip_fuel, WireFormat.unread; lia).
  assert (Hfit : ∀ r d c tail, agrees uf s r d c tail → ∃ ok s0 s1 s2 uf' o', d = Some (ok, s0) ∧ r = Some (ok, uf', s1) ∧ c o = Some (ok, s2, o') ∧
    (ok = true → s0 = s1 ∧ s2 = s1 ∧ advances s s1 ∧ ∃ fields, uf' = uf ++ fields ∧ written o' = written o ++ WireFormat.SerializeUnknownFieldsToArray fields ++ tail s1)).
  { intros r d c tail (ok & uf' & s' & s1 & -> & -> & Hc & Hok). destruct (Hc o Ho) as (s2 & o2 & E2). exists ok, s1, s', s2, uf', o2.
    split_and!; [done..|]. intros Ek. destruct (Hok Ek) as (-> & A & fs & -> & Hcopy). destruct (Hcopy o Ho) as (o3 & E3 & _ & W).
    rewrite E2 in E3. simplify_eq. split_and!; [done..|]. by exists fs. }
  split_and!; [| |intros n value Hn Hv; by apply unknown_enum_bytes].
  - destruct (Hfit _ _ _ _ (proj1 (skippers_simulate _) tag uf s R Hu Hfuel)) as (ok & s0 & s1 & s2 & uf' & o' & E0 & E1 & E2 & H).
    exists ok, s0, s1, s2, uf', o'. cbn [SkipField base_skipper set_skipper stream_skipper]. unfold WireFormat.SkipField, swap_out.
    change (2 * WireFormat.unread s + 2)%nat with (skip_fuel s). rewrite E0, E1, E2. split_and!; [done..|]. intros Ek. destruct (H Ek) as (? & ? & ? & fs & ? & W).
    split_and!; [done..|]. exists fs. split; [done|]. by rewrite W, app_nil_r.
  - destruct (Hfit _ _ _ _ (proj2 (skippers_simulate (skip_fuel s)) uf s R ltac:(lia))) as (ok & s0 & s1 & s2 & uf' & o' & E0 & E1 & E2 & H).
    exists ok, s0, s1, s2, uf', o'. cbn [SkipMessage base_skipper set_skipper stream_skipper]. unfold swap_out. by rewrite E0, E1, E2.
Qed.

(** A field of a group that holds a varint, and an end-group tag. *)
Lemma field_skippers_agree_witness :
  let input := of_array [Byte.x13; Byte.x08; Byte.x96; Byte.x01; Byte.x14; Byte.x0c] in
  (∃ ok s0 s1 s2 uf' o', SkipMessage input tt = Some (ok, s0, tt) ∧ SkipMessage input (@nil UnknownField) = Some (ok, s1, uf') ∧
     SkipMessage input (mk_CodedOutputStream []) = Some (ok, s2, o') ∧
     (ok = true → s0 = s1 ∧ s2 = s1 ∧ advances input s1 ∧ ∃ fields, uf' = [] ++ fields ∧
        written o' = [] ++ WireFormat.SerializeUnknownFieldsToArray fields ++ end_tag s1)) ∧
  SkipMessage input (@nil UnknownField) = Some (true, set_last_tag (set_buffer input []) 12, [UGroup 2 [UVarint 1 150]]).
Proof.
  split; [|by vm_compute]. apply (field_skippers_agree 1 (of_array [Byte.x13; Byte.x08; Byte.x96; Byte.x01; Byte.x14; Byte.x0c]) [] (mk_CodedOutputStream []));
    [split; by vm_compute|by vm_compute|by vm_compute].
Defined.

(** ** Packed enum fields *)

Section PackedEnum.
Import ScalarField.
Context (is_valid : option (Z → bool)).
#[local] Notation kept vs := (List.filter (valid is_valid) vs).
#[local] Notation others vs := (List.filter (λ v, negb (valid is_valid v)) vs).

(** What the field holds does not depend on what is done with the refused values. *)
Lemma read_packed_enum_spec (vs : list Z) : ∀ s f l, flat s → buffer_ s = encoding TYPE_ENUM vs → Forall (in_range TYPE_ENUM) vs → shape f l →
  zlen l + zlen vs <= most →
  ∃ f', shape f' (l ++ kept vs) ∧ ∀ U (refused : Z → U → U) limit fuel u, (length vs <= fuel)%nat →
    read_packed_enum is_valid refused fuel limit s u f = Ok (true, PopLimit limit (set_buffer s []), fold_left (λ u v, refused v u) (others vs) u, f').
Proof.
  induction vs as [|v vs IH]; intros s f l F E Hv Hs Hm.
  - exists f. rewrite app_nil_r. split; [done|]. intros U refused limit fuel u _. change (encoding TYPE_ENUM []) with (@nil byte) in E.
    assert (Es : set_buffer s [] = s) by (rewrite <- E; apply set_buffer_id). rewrite Es.
    by destruct fuel; cbn [read_packed_enum]; rewrite BytesUntilLimit_flat by done; unfold BufferSize; rewrite E.
  - rewrite encoding_cons in E. apply Forall_cons in Hv as [Hv Hvs]. rewrite zlen_cons in Hm. pose proof (zlen_nonneg vs). set (s1 := set_buffer s (encoding TYPE_ENUM vs)).
    assert (F1 : flat s1). { apply flat_set_buffer; [done|]. rewrite E, zlen_app. pose proof (zlen_nonneg (WriteNoTagToArray TYPE_ENUM v)). lia. }
    assert (Hb : 0 <? zlen (buffer_ s) = true).
    { rewrite E, zlen_app. pose proof (law_nonempty (t := TYPE_ENUM) v) as Hne. destruct (WriteNoTagToArray TYPE_ENUM v) as [|b k]; [done|]. rewrite zlen_cons.
      pose proof (zlen_nonneg k). pose proof (zlen_nonneg (encoding TYPE_ENUM vs)). lia. }
    cbn [List.filter]. destruct (valid is_valid v) eqn:Ev; cbn [negb fold_left].
    + destruct (Add_spec (E := Z) (size_of TYPE_ENUM) law_size_of v f l Hs) as (f1 & E1 & Hs1); [lia|].
      destruct (IH s1 f1 (l ++ [v]) F1 eq_refl Hvs Hs1) as (f2 & Hs2 & E2); [rewrite (zlen_app (A := Z)), zlen_cons, zlen_nil; lia|].
      exists f2. rewrite <- app_assoc in Hs2. split; [done|]. intros U refused limit [|fuel] u Hf; [cbn in Hf; lia|]. cbn [read_packed_enum].
      rewrite BytesUntilLimit_flat by done. unfold BufferSize. rewrite Hb, (law_read (t := TYPE_ENUM) s v _ F Hv E), Ev.
      change (Add (E := CType TYPE_ENUM) (size_of TYPE_ENUM) (Value v) f) with (Add (E := Z) (size_of TYPE_ENUM) (Value v) f). rewrite E1. cbn [mbind outcome_bind].
      fold s1. rewrite E2 by (cbn in Hf; lia). done.
    + destruct (IH s1 f l F1 eq_refl Hvs Hs) as (f2 & Hs2 & E2); [lia|]. exists f2. split; [done|].
      intros U refused limit [|fuel] u Hf; [cbn in Hf; lia|]. cbn [read_packed_enum]. rewrite BytesUntilLimit_flat by done. unfold BufferSize.
      rewrite Hb, (law_read (t := TYPE_ENUM) s v _ F Hv E), Ev. fold s1. rewrite E2 by (cbn in Hf; lia). done.
Qed.

Lemma read_enum_field_spec (vs : list Z) s r f l : flat s → zlen (encoding TYPE_ENUM vs) <= INT_MAX →
  buffer_ s = WriteVarint32ToArray (zlen (encoding TYPE_ENUM vs)) ++ encoding TYPE_ENUM vs ++ r → Forall (in_range TYPE_ENUM) vs → shape f l →
  zlen l + zlen vs <= most →
  ∃ s' f', shape f' (l ++ kept vs) ∧ advances s s' ∧ buffer_ s' = r ∧
    ∀ U (refused : Z → U → U) u, read_enum_field is_valid refused s u f = Ok (true, s', fold_left (λ u v, refused v u) (others vs) u, f').
Proof.
  intros F Hl E Hv Hs Hm. pose proof (zlen_nonneg (encoding TYPE_ENUM vs)). set (s0 := set_buffer s (encoding TYPE_ENUM vs ++ r)).
  assert (A0 : advances s s0) by exact (advances_app s _ _ E).
  destruct (packed_bracket s0 (encoding TYPE_ENUM vs) r (advances_flat _ _ A0 F) eq_refl) as (s1 & E1 & F1 & B1 & A1 & R1).
  assert (Hfuel : (length vs <= WireFormat.unread s1)%nat).
  { rewrite (unread_flat s1 F1), B1. assert (length vs <= length (encoding TYPE_ENUM vs))%nat by exact (encoding_length TYPE_ENUM vs). lia. }
  destruct (read_packed_enum_spec vs s1 f l F1 B1 Hv Hs Hm) as (f' & Hs' & E2). eexists _, f'.
  split; [done|]. split; [by etransitivity|]. split; [exact R1|]. intros U refused u. unfold read_enum_field.
  assert (is_u32 (zlen (encoding TYPE_ENUM vs)) ∧ is_s32 (zlen (encoding TYPE_ENUM vs))) as [Hu Hi] by (znorm; lia).
  rewrite (ReadVarint32_write s _ _ F Hu E), s32_small by done. fold s0. rewrite E1. by apply E2.
Qed.

(** A length that is negative as an [int] sets no limit. *)
Lemma read_enum_field_unbounded n (vs : list Z) s f l : flat s → 2 ^ 31 <= n < 2 ^ 32 →
  buffer_ s = WriteVarint32ToArray n ++ encoding TYPE_ENUM vs → Forall (in_range TYPE_ENUM) vs → shape f l → zlen l + zlen vs <= most →
  ∃ s' f', shape f' (l ++ kept vs) ∧ buffer_ s' = [] ∧
    ∀ U (refused : Z → U → U) u, read_enum_field is_valid refused s u f = Ok (true, s', fold_left (λ u v, refused v u) (others vs) u, f').
Proof.
  intros F Hn E Hv Hs Hm. set (s0 := set_buffer s (encoding TYPE_ENUM vs)). pose proof (advances_flat _ _ (advances_app s _ _ E) F) as F0. fold s0 in F0.
  assert (Hfuel : (length vs <= WireFormat.unread s0)%nat).
  { rewrite (unread_flat s0 F0). cbn [buffer_ s0 set_buffer]. assert (length vs <= length (encoding TYPE_ENUM vs))%nat by exact (encoding_length TYPE_ENUM vs). lia. }
  destruct (read_packed_enum_spec vs s0 f l F0 eq_refl Hv Hs Hm) as (f' & Hs' & E2). eexists _, f'.
  split; [done|]. split; [|intros U refused u; unfold read_enum_field; rewrite (ReadVarint32_write s n _ F ltac:(znorm; lia) E)].
  2: { fold s0. unfold PushLimit. assert (s32 n < 0) by (unfold s32; znorm; Z.div_mod_to_equations; lia). zdec. cbn [andb]. by apply E2. }
  unfold PopLimit, RecomputeBufferLimits. cbn [buffer_ set_legitimate set_limit set_buffer after_limit_ current_limit_ total_bytes_read_ app].
  destruct F0 as (_ & Fl & _ & Fm). unfold total_bytes_limit_. set (keep := Z.to_nat _). assert (keep = 0%nat) as ->; [|done]. subst keep. unfold INT_MAX in *. case_match; zbool; lia.
Qed.
End PackedEnum.

(** *** What becomes of the refused values *)

Section Refused.
Context (n : Z) (Hn : field_number_ok n).

Definition as_lite (v : Z) : bytes := WriteTagToArray n WIRETYPE_VARINT ++ WriteVarint32ToArray (u32 v).
Definition as_field (v : Z) : UnknownField := UVarint n (u64 v).

Lemma refused_emits (vs : list Z) : emits (fold_left (λ o v, refuse_to_stream n v o) vs) (concat (map as_lite vs)).
Proof.
  destruct (MakeTag_u32 n WIRETYPE_VARINT Hn ltac:(done)) as [Hu _]. apply fold_left_emits, Forall_forall. intros v _.
  apply (emits_seq (CodedOutput.WriteVarint32 (MakeTag n WIRETYPE_VARINT)) (CodedOutput.WriteVarint32 (u32 v))); apply WriteVarint32_emits; [done|apply u32_range].
Qed.

Lemma refused_set (vs : list Z) uf : fold_left (λ uf v, AddVarint n (u64 v) uf) vs uf = uf ++ map as_field vs.
Proof. revert uf. induction vs as [|v vs IH]; intros uf; cbn; [by rewrite app_nil_r|]. rewrite IH. unfold AddVarint. by rewrite <- app_assoc. Qed.

(** A negative value takes five bytes in the one, ten in the other. *)
Lemma refused_piece v : is_s32 v → if v <? 0 then zlen (as_lite v) < zlen (WireFormat.SerializeUnknownFieldToArray (as_field v))
  else as_lite v = WireFormat.SerializeUnknownFieldToArray (as_field v).
Proof.
  intros Hv. unfold as_lite, as_field. cbn [WireFormat.SerializeUnknownFieldToArray]. destruct (Z.ltb_spec v 0) as [Hneg|Hpos].
  - rewrite !zlen_app. pose proof (VarintSize32SignExtended_length v Hv) as E. unfold VarintSize32SignExtended, WriteVarint32SignExtendedToArray in E.
    rewrite (proj2 (Z.ltb_lt _ _) Hneg) in E. rewrite <- E. pose proof (write_varint_bound 5 (u32 v)). unfold WriteVarint32ToArray. lia.
  - rewrite u32_small, u64_small by (znorm; lia). f_equal. unfold WriteVarint32ToArray, WriteVarint64ToArray.
    by rewrite (write_varint_more 5 10) by (znorm; cbn; lia).
Qed.

(** The bytes for the stream are those of the fields exactly if no value is negative. *)
Lemma refused_same (vs : list Z) : Forall is_s32 vs →
  concat (map as_lite vs) = WireFormat.SerializeUnknownFieldsToArray (map as_field vs) ↔ Forall (λ v, 0 <= v) vs.
Proof.
  intros Hvs. unfold WireFormat.SerializeUnknownFieldsToArray. split.
  - cut (zlen (concat (map as_lite vs)) <= zlen (concat (map WireFormat.SerializeUnknownFieldToArray (map as_field vs))) ∧
      (zlen (concat (map as_lite vs)) = zlen (concat (map WireFormat.SerializeUnknownFieldToArray (map as_field vs))) → Forall (λ v, 0 <= v) vs)).
    { intros [_ H] E. apply H. by rewrite E. }
    induction Hvs as [|v vs Hv _ [IH1 IH2]]; [by split|]. cbn [map concat]. rewrite !zlen_app. pose proof (refused_piece v Hv) as Hp.
    destruct (Z.ltb_spec v 0); [split; lia|]. rewrite Hp. split; [lia|]. intros E. constructor; [done|]. apply IH2. lia.
  - induction Hvs as [|v vs Hv _ IH]; [done|]. intros [Hp Hps]%Forall_cons. cbn [map concat]. rewrite IH by done. f_equal.
    pose proof (refused_piece v Hv) as E. by rewrite (proj2 (Z.ltb_ge _ _) Hp) in E.
Qed.
End Refused.

Lemma enum_values (vs : list Z) : Forall is_s32 vs → Forall (in_range TYPE_ENUM) vs.
Proof. done. Qed.

Lemma filter_s32 (p : Z → bool) (vs : list Z) : Forall is_s32 vs → Forall is_s32 (List.filter p vs).
Proof. induction 1 as [|v vs Hv _ IH]; cbn; [done|]. destruct (p v); [by constructor|done]. Qed.

(** C22: packed enum fields are split by what the schema declares.  From the packed
    encoding of [vs] behind its length, the three readers leave the field holding [l] and
    the values [is_valid] accepts, in order, and the input exactly behind the encoding.
    The others are dropped, recorded as varint fields, sign-extended to 64 bits, or
    written to a stream, where a negative value is cut to 32 bits: the bytes are those of
    the recorded fields exactly if none of the refused values is negative. *)
Theorem packed_enum_split is_valid n (vs : list Z) s r (f : ScalarField.RepeatedField Z) l (uf : UnknownFieldSet) o :
  let body := encoding TYPE_ENUM vs in
  let others := List.filter (λ v, negb (valid is_valid v)) vs in
  flat s → field_number_ok n → Forall is_s32 vs → shape f l → zlen l + zlen vs <= most → 0 <= buffer_size_ o → zlen body <= INT_MAX →
  buffer_ s = WriteVarint32ToArray (zlen body) ++ body ++ r →
  ∃ s' f' o',
    ReadPackedEnumNoInline is_valid s f = Ok (true, s', f') ∧
    ReadPackedEnumPreserveUnknowns_set n is_valid s uf f = Ok (true, s', uf ++ map (as_field n) others, f') ∧
    ReadPackedEnumPreserveUnknowns n is_valid s o f = Ok (true, s', o', f') ∧
    shape f' (l ++ List.filter (valid is_valid) vs) ∧ buffer_ s' = r ∧ advances s s' ∧
    written o' = written o ++ concat (map (as_lite n) others) ∧
    (written o' = written o ++ WireFormat.SerializeUnknownFieldsToArray (map (as_field n) others) ↔ Forall (λ v, 0 <= v) others).
Proof.
  intros body others F Hn Hv Hs Hm Ho Hl E. destruct (read_enum_field_spec is_valid vs s r f l F Hl E (enum_values vs Hv) Hs Hm) as (s' & f' & Hs' & A & B & ER).
  destruct (refused_emits n Hn others o Ho) as [_ W]. exists s', f', (fold_left (λ o v, refuse_to_stream n v o) others o). split_and!; [| | |done..|].
  - unfold ReadPackedEnumNoInline. by rewrite ER.
  - unfold ReadPackedEnumPreserveUnknowns_set. by rewrite ER, refused_set.
  - unfold ReadPackedEnumPreserveUnknowns. by rewrite ER.
  - rewrite W. split; [intros H%app_inv_head|intros H; f_equal]; by apply (refused_same n others (filter_s32 _ vs Hv)).
Qed.

Definition no_values : ScalarField.RepeatedField Z := ScalarField.mk_RepeatedField 0 0 [].

(** The values 1, -1 and 7 of an enum that declares 0 to 3. *)
Lemma packed_enum_split_witness :
  let is_valid := Some (λ v, (0 <=? v) && (v <=? 3)) in
  let body := encoding TYPE_ENUM [1; -1; 7] in
  ∃ s' f' o', ReadPackedEnumPreserveUnknowns_set 5 is_valid (of_array (WriteVarint32ToArray (zlen body) ++ body)) [] no_values =
      Ok (true, s', [UVarint 5 (2 ^ 64 - 1); UVarint 5 7], f') ∧
    ReadPackedEnumPreserveUnknowns 5 is_valid (of_array (WriteVarint32ToArray (zlen body) ++ body)) (mk_CodedOutputStream []) no_values = Ok (true, s', o', f') ∧
    shape f' [1] ∧ (written o' = [] ++ WireFormat.SerializeUnknownFieldsToArray [UVarint 5 (2 ^ 64 - 1); UVarint 5 7] ↔ Forall (λ v, 0 <= v) [-1; 7]).
Proof.
  intros is_valid body. destruct (packed_enum_split is_valid 5 [1; -1; 7] (of_array (WriteVarint32ToArray (zlen body) ++ body)) [] no_values [] [] (mk_CodedOutputStream []))
    as (s' & f' & o' & _ & E1 & E2 & Hs & _ & _ & _ & W);
    [by vm_compute|unfold field_number_ok; lia|repeat (constructor; [znorm; lia|]); constructor|split; [done..|by exists []]|by vm_compute|by vm_compute|by vm_compute|by vm_compute|].
  assert (Hm : map (as_field 5) (List.filter (λ v, negb (valid is_valid v)) [1; -1; 7]) = [UVarint 5 (2 ^ 64 - 1); UVarint 5 7]) by by vm_compute.
  assert (Hf : List.filter (λ v, negb (valid is_valid v)) [1; -1; 7] = [-1; 7]) by by vm_compute.
  assert (Hv : [] ++ List.filter (valid is_valid) [1; -1; 7] = [1]) by by vm_compute.
  rewrite Hm in E1, W. rewrite Hf in W. rewrite Hv in Hs. exists s', f', o'.
  split; [exact E1|]. split; [exact E2|]. split; [exact Hs|exact W].
Defined.

(** The readers of packed enum fields do not check the length.  A length of 2^31 or
    more, of which no input has that many bytes, sets no limit: the field is read to the
    end of what the stream gives and accepted, while the reader of any other packed
    field, and the same reader given a length that fits an [int], stays within the
    length or refuses it. *)
Theorem packed_enum_length_unchecked is_valid n (vs : list Z) s (f : ScalarField.RepeatedField Z) l :
  flat s → 2 ^ 31 <= n < 2 ^ 32 → Forall is_s32 vs → shape f l → zlen l + zlen vs <= most →
  buffer_ s = WriteVarint32ToArray n ++ encoding TYPE_ENUM vs →
  (∃ s' f', ReadPackedEnumNoInline is_valid s f = Ok (true, s', f') ∧ shape f' (l ++ List.filter (valid is_valid) vs) ∧ buffer_ s' = []) ∧
  ∃ s', ReadPackedPrimitive TYPE_ENUM s f = Ok (false, s', f).
Proof.
  intros F Hn Hv Hs Hm E. split.
  - destruct (read_enum_field_unbounded is_valid n vs s f l F Hn E (enum_values vs Hv) Hs Hm) as (s' & f' & Hs' & B & ER). exists s', f'.
    unfold ReadPackedEnumNoInline. by rewrite ER.
  - unfold ReadPackedPrimitive. pose proof (ReadVarintSizeAsInt_ref s F) as H. rewrite E, varint_ref_write32 in H by (znorm; lia).
    rewrite u64_small in H by (znorm; lia). rewrite (proj2 (Z.ltb_lt _ _)) in H by (znorm; lia). destruct H as [s' ->]. by exists s'.
Qed.

Lemma packed_enum_length_unchecked_witness :
  (∃ s' f', ReadPackedEnumNoInline None (of_array (WriteVarint32ToArray (2 ^ 31) ++ encoding TYPE_ENUM [1; 2])) no_values = Ok (true, s', f') ∧
     shape f' ([] ++ [1; 2]) ∧ buffer_ s' = []) ∧
  ∃ s', ReadPackedPrimitive TYPE_ENUM (of_array (WriteVarint32ToArray (2 ^ 31) ++ encoding TYPE_ENUM [1; 2])) no_values = Ok (false, s', no_values).
Proof.
  apply (packed_enum_length_unchecked None (2 ^ 31) [1; 2] _ no_values []); [by vm_compute|lia|repeat (constructor; [znorm; lia|]); constructor|split; [done..|by exists []]|by vm_compute|by vm_compute].
Defined.
