(* ===== verification/ZeroCopyOutput.v ===== *)
(** Output streams that hand out their buffers
    (Shared/protobuf/src/google/protobuf/io/zero_copy_stream.h,
    zero_copy_stream_impl_lite.{h,cc}, zero_copy_stream_impl.{h,cc}): the interface, the
    streams over an array, over a string and over a sink that copies, and
    [CodedOutputStream] (io/coded_stream.{h,cc}) on top of any of them.  CodedStream.v
    has the same coded stream for a sink that does not fail, without the buffers.

    A stream owns memory, whose bytes may not have been written yet ([None]); a pointer
    into it is an offset.  A failed [GOOGLE_CHECK], an access outside of the memory, the
    use of a byte nobody wrote and the overflow of an [int] are [Undefined]. *)

From S2P Require Import Prelude CodedStream.

Module ZeroCopyOutput.

Definition memory := list (option byte).

(** [memcpy] to, and from, an address. *)
Definition poke (p : Z) (data : bytes) (m : memory) : outcome memory :=
  if (0 <=? p) && (p + zlen data <=? zlen m)
  then Ok (take (Z.to_nat p) m ++ (Some <$> data) ++ drop (Z.to_nat p + length data) m) else Undefined.

Definition peek (n : Z) (m : memory) : outcome bytes :=
  match mapM id (take (Z.to_nat n) m) with Some data => if n <=? zlen m then Ok data else Undefined | None => Undefined end.

(** The virtual functions.  [Next] gives the address and the size of a buffer; [store]
    is what the caller does to the memory of a buffer it has. *)
Class ZeroCopyOutputStream (O : Type) := {
  Next : O → outcome (option (Z * Z) * O);
  BackUp : Z → O → outcome O;
  ByteCount : O → Z;
  WriteAliasedRaw : bytes → O → outcome (bool * O);
  AllowsAliasing : bool;
  store : Z → bytes → O → outcome O
}.

(** The default of [WriteAliasedRaw] dies. *)
Definition no_aliasing {O} (data : bytes) (o : O) : outcome (bool * O) := Undefined.

(** ** Arrays *)

Module ArrayOutput.
Record ArrayOutputStream := mk_ArrayOutputStream {
  data_ : memory;
  size_ : Z;
  block_size_ : Z;
  position_ : Z;
  last_returned_size_ : Z
}.

Definition new_ArrayOutputStream (data : memory) (size block_size : Z) : ArrayOutputStream :=
  mk_ArrayOutputStream data size (if 0 <? block_size then block_size else size) 0 0.

Definition set_position (p last : Z) (a : ArrayOutputStream) : ArrayOutputStream :=
  mk_ArrayOutputStream (data_ a) (size_ a) (block_size_ a) p last.

Definition Next (a : ArrayOutputStream) : outcome (option (Z * Z) * ArrayOutputStream) :=
  if position_ a <? size_ a then
    let size := Z.min (block_size_ a) (size_ a - position_ a) in
    Ok (Some (position_ a, size), set_position (position_ a + size) size a)
  else Ok (None, set_position (position_ a) 0 a).

Definition BackUp (count : Z) (a : ArrayOutputStream) : outcome ArrayOutputStream :=
  _ ← check (0 <? last_returned_size_ a); _ ← check (count <=? last_returned_size_ a); _ ← check (0 <=? count);
  Ok (set_position (position_ a - count) 0 a).

Definition ByteCount (a : ArrayOutputStream) : Z := position_ a.

Definition store (p : Z) (data : bytes) (a : ArrayOutputStream) : outcome ArrayOutputStream :=
  m ← poke p data (data_ a); Ok (mk_ArrayOutputStream m (size_ a) (block_size_ a) (position_ a) (last_returned_size_ a)).
End ArrayOutput.

#[export] Instance array_output : ZeroCopyOutputStream ArrayOutput.ArrayOutputStream := {
  Next := ArrayOutput.Next; BackUp := ArrayOutput.BackUp; ByteCount := ArrayOutput.ByteCount; WriteAliasedRaw := no_aliasing;
  AllowsAliasing := false; store := ArrayOutput.store }.

(** ** Strings *)

Module StringOutput.
(** A [std::string] has room for more than it holds.  How much room it takes when it
    has to grow, given what it has and what it needs, is up to the library. *)
Class growth := { grow : Z → Z → Z; grow_enough old new : new <= grow old new }.

Record StringOutputStream := mk_StringOutputStream { target_ : bytes; capacity : Z }.

Definition kMinimumSize : Z := 16.

(** [string::resize], which fills up with zeros. *)
Definition resize `{growth} (n : Z) (s : StringOutputStream) : StringOutputStream :=
  mk_StringOutputStream (take (Z.to_nat n) (target_ s) ++ replicate (Z.to_nat n - length (target_ s)) Byte.x00)
    (if n <=? capacity s then capacity s else grow (capacity s) n).

(** Sizes are converted between [size_t] and [int]. *)
Definition Next `{growth} (s : StringOutputStream) : outcome (option (Z * Z) * StringOutputStream) :=
  let old_size := s32 (zlen (target_ s)) in
  let hand_out s := Ok (Some (old_size, s32 (u32 (zlen (target_ s) - old_size))), s) in
  if u32 old_size <? capacity s then hand_out (resize (capacity s) s)
  else if INT_MAX / 2 <? old_size then Ok (None, s)
  else hand_out (resize (u32 (Z.max (old_size * 2) kMinimumSize)) s).

Definition BackUp `{growth} (count : Z) (s : StringOutputStream) : outcome StringOutputStream :=
  _ ← check (0 <=? count); _ ← check (count <=? zlen (target_ s)); Ok (resize (zlen (target_ s) - count) s).

Definition ByteCount (s : StringOutputStream) : Z := zlen (target_ s).

Definition store (p : Z) (data : bytes) (s : StringOutputStream) : outcome StringOutputStream :=
  if (0 <=? p) && (p + zlen data <=? zlen (target_ s))
  then Ok (mk_StringOutputStream (take (Z.to_nat p) (target_ s) ++ data ++ drop (Z.to_nat p + length data) (target_ s)) (capacity s)) else Undefined.
End StringOutput.

#[export] Instance string_output `{StringOutput.growth} : ZeroCopyOutputStream StringOutput.StringOutputStream := {
  Next := StringOutput.Next; BackUp := StringOutput.BackUp; ByteCount := StringOutput.ByteCount; WriteAliasedRaw := no_aliasing;
  AllowsAliasing := false; store := StringOutput.store }.

(** ** Sinks that copy *)

(** [CopyingOutputStream]. *)
Class CopyingOutputStream (K : Type) := { Write : bytes → K → bool * K }.

(** A [std::ostream]: the characters it has taken, how many more its buffer can take
    (when it is full, [write] sets [badbit]), and whether it is good. *)
Record ostream := mk_ostream { taken : bytes; room : Z; good : bool }.

Definition ostream_write (data : bytes) (os : ostream) : ostream :=
  if good os then
    if zlen data <=? room os then mk_ostream (taken os ++ data) (room os - zlen data) true
    else mk_ostream (taken os ++ take (Z.to_nat (room os)) data) 0 false
  else os.

(** [CopyingOstreamOutputStream::Write]. *)
#[export] Instance copying_ostream : CopyingOutputStream ostream := {
  Write data os := let os := ostream_write data os in (good os, os) }.

Module CopyingOutput.
Section Adaptor.
Context {K : Type} `{CopyingOutputStream K}.

(** [buffer_] is null until it is needed. *)
Record CopyingOutputStreamAdaptor := mk_Adaptor {
  copying_stream_ : K;
  failed_ : bool;
  position_ : Z;
  memory_ : option memory;
  buffer_size_ : Z;
  buffer_used_ : Z
}.

Definition kDefaultBlockSize : Z := 8192.

Definition new_CopyingOutputStreamAdaptor (copying_stream : K) (block_size : Z) : CopyingOutputStreamAdaptor :=
  mk_Adaptor copying_stream false 0 None (if 0 <? block_size then block_size else kDefaultBlockSize) 0.

Definition set_used (n : Z) (a : CopyingOutputStreamAdaptor) : CopyingOutputStreamAdaptor :=
  mk_Adaptor (copying_stream_ a) (failed_ a) (position_ a) (memory_ a) (buffer_size_ a) n.
Definition set_memory (m : option memory) (a : CopyingOutputStreamAdaptor) : CopyingOutputStreamAdaptor :=
  mk_Adaptor (copying_stream_ a) (failed_ a) (position_ a) m (buffer_size_ a) (buffer_used_ a).

Definition AllocateBufferIfNeeded (a : CopyingOutputStreamAdaptor) : CopyingOutputStreamAdaptor :=
  match memory_ a with Some _ => a | None => set_memory (Some (replicate (Z.to_nat (buffer_size_ a)) None)) a end.

Definition FreeBuffer (a : CopyingOutputStreamAdaptor) : CopyingOutputStreamAdaptor := set_memory None (set_used 0 a).

Definition WriteBuffer (a : CopyingOutputStreamAdaptor) : outcome (bool * CopyingOutputStreamAdaptor) :=
  if failed_ a then Ok (false, a)
  else if buffer_used_ a =? 0 then Ok (true, a)
  else
    data ← peek (buffer_used_ a) (default [] (memory_ a));
    let '(ok, k) := Write data (copying_stream_ a) in
    if ok then Ok (true, mk_Adaptor k (failed_ a) (position_ a + buffer_used_ a) (memory_ a) (buffer_size_ a) 0)
    else Ok (false, FreeBuffer (mk_Adaptor k true (position_ a) (memory_ a) (buffer_size_ a) (buffer_used_ a))).

Definition Flush (a : CopyingOutputStreamAdaptor) : outcome (bool * CopyingOutputStreamAdaptor) := WriteBuffer a.

Definition Next (a : CopyingOutputStreamAdaptor) : outcome (option (Z * Z) * CopyingOutputStreamAdaptor) :=
  '(ok, a) ← (if buffer_used_ a =? buffer_size_ a then WriteBuffer a else Ok (true, a));
  if ok : bool then
    let a := AllocateBufferIfNeeded a in
    Ok (Some (buffer_used_ a, buffer_size_ a - buffer_used_ a), set_used (buffer_size_ a) a)
  else Ok (None, a).

Definition BackUp (count : Z) (a : CopyingOutputStreamAdaptor) : outcome CopyingOutputStreamAdaptor :=
  _ ← check (0 <=? count); _ ← check (buffer_used_ a =? buffer_size_ a); _ ← check (count <=? buffer_used_ a);
  Ok (set_used (buffer_used_ a - count) a).

Definition ByteCount (a : CopyingOutputStreamAdaptor) : Z := position_ a + buffer_used_ a.

Definition store (p : Z) (data : bytes) (a : CopyingOutputStreamAdaptor) : outcome CopyingOutputStreamAdaptor :=
  m ← poke p data (default [] (memory_ a)); Ok (set_memory (Some m) a).

(** The destructor; the verdict of the last write is lost. *)
Definition destroy_CopyingOutputStreamAdaptor (a : CopyingOutputStreamAdaptor) : outcome K :=
  '(_, a) ← WriteBuffer a; Ok (copying_stream_ a).
End Adaptor.
Arguments CopyingOutputStreamAdaptor : clear implicits.
End CopyingOutput.

#[export] Instance copying_output {K} `{CopyingOutputStream K} : ZeroCopyOutputStream (CopyingOutput.CopyingOutputStreamAdaptor K) := {
  Next := CopyingOutput.Next; BackUp := CopyingOutput.BackUp; ByteCount := CopyingOutput.ByteCount; WriteAliasedRaw := no_aliasing;
  AllowsAliasing := false; store := CopyingOutput.store }.

(** [OstreamOutputStream] passes every call on to an adaptor; its destructor flushes the
    adaptor, whose own destructor then finds nothing to write. *)
Definition OstreamOutputStream : Type := CopyingOutput.CopyingOutputStreamAdaptor ostream.
Definition new_OstreamOutputStream (output : ostream) (block_size : Z) : OstreamOutputStream :=
  CopyingOutput.new_CopyingOutputStreamAdaptor output block_size.
Definition destroy_OstreamOutputStream (o : OstreamOutputStream) : outcome ostream :=
  '(_, o) ← CopyingOutput.Flush o; CopyingOutput.destroy_CopyingOutputStreamAdaptor o.

(** ** The coded stream *)

Module CodedOver.
Section CodedOver.
Context {O : Type} `{ZeroCopyOutputStream O}.

Record CodedOutputStream := mk_CodedOutputStream {
  output_ : O;
  buffer_ : option Z;
  buffer_size_ : Z;
  total_bytes_ : Z;
  had_error_ : bool;
  aliasing_enabled_ : bool
}.

Definition set_output (o : O) (c : CodedOutputStream) : CodedOutputStream :=
  mk_CodedOutputStream o (buffer_ c) (buffer_size_ c) (total_bytes_ c) (had_error_ c) (aliasing_enabled_ c).

Definition Refresh (c : CodedOutputStream) : outcome (bool * CodedOutputStream) :=
  '(r, o) ← Next (output_ c);
  match r with
  | Some (p, size) =>
      total ← add_int (total_bytes_ c) size;
      Ok (true, mk_CodedOutputStream o (Some p) size total (had_error_ c) (aliasing_enabled_ c))
  | None => Ok (false, mk_CodedOutputStream o None 0 (total_bytes_ c) true (aliasing_enabled_ c))
  end.

(** [CodedOutputStream(output)], which refreshes, and [CodedOutputStream(output, false)]. *)
Definition new_CodedOutputStream (do_eager_refresh : bool) (output : O) : outcome CodedOutputStream :=
  let c := mk_CodedOutputStream output None 0 0 false false in
  if do_eager_refresh then
    '(_, c) ← Refresh c;
    Ok (mk_CodedOutputStream (output_ c) (buffer_ c) (buffer_size_ c) (total_bytes_ c) false (aliasing_enabled_ c))
  else Ok c.

Definition Trim (c : CodedOutputStream) : outcome CodedOutputStream :=
  if 0 <? buffer_size_ c then
    o ← BackUp (buffer_size_ c) (output_ c);
    Ok (mk_CodedOutputStream o None 0 (total_bytes_ c - buffer_size_ c) (had_error_ c) (aliasing_enabled_ c))
  else Ok c.

Definition destroy_CodedOutputStream (c : CodedOutputStream) : outcome O := c ← Trim c; Ok (output_ c).

Definition Advance (amount : Z) (c : CodedOutputStream) : CodedOutputStream :=
  mk_CodedOutputStream (output_ c) ((λ p, p + amount) <$> buffer_ c) (buffer_size_ c - amount) (total_bytes_ c) (had_error_ c) (aliasing_enabled_ c).

(** [memcpy(buffer_, data, size)]; nothing is copied to a null buffer. *)
Definition copy_here (data : bytes) (c : CodedOutputStream) : outcome CodedOutputStream :=
  match data, buffer_ c with
  | [], _ => Ok c
  | _, Some p => o ← store p data (output_ c); Ok (set_output o c)
  | _, None => Undefined
  end.

(** Every buffer but the first takes a byte. *)
Fixpoint write_raw (fuel : nat) (data : bytes) (c : CodedOutputStream) : outcome CodedOutputStream :=
  if buffer_size_ c <? zlen data then
    match fuel with
    | 0%nat => NoFuel
    | S fuel =>
        let n := Z.to_nat (buffer_size_ c) in
        c ← copy_here (take n data) c;
        '(ok, c) ← Refresh c;
        if ok : bool then write_raw fuel (drop n data) c else Ok c
    end
  else c ← copy_here data c; Ok (Advance (zlen data) c).

Definition WriteRaw (data : bytes) (c : CodedOutputStream) : outcome CodedOutputStream := write_raw (length data + 1) data c.

Definition WriteAliasedRaw (data : bytes) (c : CodedOutputStream) : outcome CodedOutputStream :=
  if zlen data <? buffer_size_ c then WriteRaw data c
  else
    c ← Trim c;
    total ← add_int (total_bytes_ c) (zlen data);
    '(ok, o) ← ZeroCopyOutput.WriteAliasedRaw data (output_ c);
    Ok (mk_CodedOutputStream o (buffer_ c) (buffer_size_ c) total (had_error_ c || negb ok) (aliasing_enabled_ c)).

Definition EnableAliasing (enabled : bool) (c : CodedOutputStream) : CodedOutputStream :=
  mk_CodedOutputStream (output_ c) (buffer_ c) (buffer_size_ c) (total_bytes_ c) (had_error_ c) (enabled && AllowsAliasing (O := O)).

Definition WriteRawMaybeAliased (data : bytes) (c : CodedOutputStream) : outcome CodedOutputStream :=
  if aliasing_enabled_ c then WriteAliasedRaw data c else WriteRaw data c.

Definition WriteString (str : bytes) (c : CodedOutputStream) : outcome CodedOutputStream := WriteRaw str c.

(** A value encoded in place when [space] bytes are left for it, or else elsewhere. *)
Definition write_encoded (space : Z) (data : bytes) (c : CodedOutputStream) : outcome CodedOutputStream :=
  if space <=? buffer_size_ c then c ← copy_here data c; Ok (Advance (zlen data) c) else WriteRaw data c.

Definition WriteLittleEndian32 (value : Z) : CodedOutputStream → outcome CodedOutputStream :=
  write_encoded 4 (CodedOutput.WriteLittleEndian32ToArray value).
Definition WriteLittleEndian64 (value : Z) : CodedOutputStream → outcome CodedOutputStream :=
  write_encoded 8 (CodedOutput.WriteLittleEndian64ToArray value).
Definition WriteVarint32 (value : Z) : CodedOutputStream → outcome CodedOutputStream := write_encoded 5 (CodedOutput.WriteVarint32ToArray value).
Definition WriteVarint64 (value : Z) : CodedOutputStream → outcome CodedOutputStream := write_encoded 10 (CodedOutput.WriteVarint64ToArray value).
Definition WriteVarint32SignExtended (value : Z) : CodedOutputStream → outcome CodedOutputStream := WriteVarint64 (u64 value).
Definition WriteTag (value : Z) : CodedOutputStream → outcome CodedOutputStream := WriteVarint32 value.

(** [while (count > buffer_size_) ...]: what is skipped keeps what the memory held. *)
Fixpoint skip_loop (fuel : nat) (count : Z) (c : CodedOutputStream) : outcome (bool * CodedOutputStream) :=
  if buffer_size_ c <? count then
    match fuel with
    | 0%nat => NoFuel
    | S fuel =>
        let count := count - buffer_size_ c in
        '(ok, c) ← Refresh c;
        if ok : bool then skip_loop fuel count c else Ok (false, c)
    end
  else Ok (true, Advance count c).

Definition Skip (count : Z) (c : CodedOutputStream) : outcome (bool * CodedOutputStream) :=
  if count <? 0 then Ok (false, c) else skip_loop (Z.to_nat count + 1) count c.

Definition GetDirectBufferPointer (c : CodedOutputStream) : outcome (option (option Z * Z) * CodedOutputStream) :=
  '(ok, c) ← (if buffer_size_ c =? 0 then Refresh c else Ok (true, c));
  Ok (if ok : bool then Some (buffer_ c, buffer_size_ c) else None, c).

(** A place for [size] bytes, when there is room for them. *)
Definition GetDirectBufferForNBytesAndAdvance (size : Z) (c : CodedOutputStream) : option (option Z) * CodedOutputStream :=
  if buffer_size_ c <? size then (None, c) else (Some (buffer_ c), Advance size c).

Definition ByteCount (c : CodedOutputStream) : Z := total_bytes_ c - buffer_size_ c.
Definition HadError (c : CodedOutputStream) : bool := had_error_ c.
End CodedOver.
Arguments CodedOutputStream : clear implicits.
End CodedOver.
End ZeroCopyOutput.
