(* ===== verification/ZeroCopyOutputFacts.v ===== *)
(** What is written to a coded stream arrives: the laws of the streams that hand out
    their buffers, the streams of ZeroCopyOutput.v as instances, and the coded stream
    over any of them. *)

From S2P Require Import Prelude CodedStream ZeroCopyOutput.
Import ZeroCopyOutput.

(** Streams for less than 2^27 bytes: no [int] overflows. *)
Definition most_output : Z := 2 ^ 27.

(** The laws.  [settled ok o D]: no buffer is out, and [D] is what has been given to the
    stream to write, of which it has lost something unless [ok].  [opened ok o D p mem]:
    the buffer at [p], which holds [mem], is out as well. *)
Class OutputLaws (O : Type) `{ZeroCopyOutputStream O} := {
  settled : bool → O → bytes → Prop;
  opened : bool → O → bytes → Z → memory → Prop;
  next_law ok o D : settled ok o D → zlen D < most_output → ∃ r o', Next o = Ok (r, o') ∧
    match r with
    | Some (p, n) => ∃ mem, n = zlen mem ∧ 0 < n <= 2 ^ 30 ∧ opened ok o' D p mem
    | None => ∀ x, x ≠ [] → settled false o' (D ++ x)
    end;
  store_law ok o D p a b (data : bytes) : opened ok o D p (a ++ b) → zlen data <= zlen b →
    ∃ o', store (p + zlen a) data o = Ok o' ∧ opened ok o' D p (a ++ (Some <$> data) ++ drop (length data) b);
  back_law ok o D p (x : bytes) rest : opened ok o D p ((Some <$> x) ++ rest) → 0 < zlen rest →
    ∃ o', BackUp (zlen rest) o = Ok o' ∧ settled ok o' (D ++ x);
  used_law ok o D p (x : bytes) : opened ok o D p (Some <$> x) → settled ok o (D ++ x)
}.

(** ** Memory *)

Lemma zlen_some (l : bytes) : zlen (Some <$> l) = zlen l.
Proof. apply zlen_fmap. Qed.

(** Writing behind a prefix of the right length. *)
Lemma poke_at (a b : memory) (data : bytes) : zlen data <= zlen b →
  poke (zlen a) data (a ++ b) = Ok (a ++ (Some <$> data) ++ drop (length data) b).
Proof.
  intros Hl. unfold poke. pose proof (zlen_nonneg a). rewrite zlen_app. zdec. cbn [andb]. unfold zlen. rewrite Nat2Z.id.
  rewrite take_app_length. by rewrite <- drop_drop, drop_app_length.
Qed.

Lemma mapM_some (l : bytes) : mapM id (Some <$> l) = Some l.
Proof. by apply mapM_fmap_Some. Qed.

Lemma peek_app (l : bytes) (m : memory) : peek (zlen l) ((Some <$> l) ++ m) = Ok l.
Proof.
  unfold peek. unfold zlen at 1. rewrite Nat2Z.id. rewrite take_app_length' by by rewrite length_fmap. rewrite mapM_some, zlen_app, zlen_some.
  pose proof (zlen_nonneg m). by zdec.
Qed.

(** ** Arrays *)

Section Array.
#[local] Notation ArrayOutputStream := ArrayOutput.ArrayOutputStream.
#[local] Notation data_ := ArrayOutput.data_.
#[local] Notation size_ := ArrayOutput.size_.
#[local] Notation block_size_ := ArrayOutput.block_size_.
#[local] Notation position_ := ArrayOutput.position_.
#[local] Notation last_returned_size_ := ArrayOutput.last_returned_size_.

(** An array of [size] bytes. *)
Context (size : Z).

(** [D] is in the array, as far as it fits. *)
Definition array_settled (ok : bool) (a : ArrayOutputStream) (D : bytes) : Prop :=
  0 < block_size_ a ∧ size_ a = size ∧ size <= 2 ^ 30 ∧
  if ok then position_ a = zlen D ∧ zlen D <= size_ a ∧ ∃ m, data_ a = (Some <$> D) ++ m ∧ size_ a <= zlen D + zlen m
  else position_ a = size_ a ∧ 0 <= size_ a < zlen D ∧ ∃ m, data_ a = (Some <$> take (Z.to_nat (size_ a)) D) ++ m.

Definition array_opened (ok : bool) (a : ArrayOutputStream) (D : bytes) (p : Z) (mem : memory) : Prop :=
  ok = true ∧ 0 < block_size_ a ∧ size_ a = size ∧ size <= 2 ^ 30 ∧ p = zlen D ∧ position_ a = p + zlen mem ∧ position_ a <= size_ a ∧ last_returned_size_ a = zlen mem ∧
  ∃ m, data_ a = (Some <$> D) ++ mem ++ m ∧ size_ a <= position_ a + zlen m.

Program Definition array_laws : OutputLaws ArrayOutputStream := {|
  settled := array_settled; opened := array_opened |}.
Next Obligation.
  intros ok a D (Hb & Ez & Hz & Hok) _. cbn [Next array_output]. unfold ArrayOutput.Next. destruct ok.
  - destruct Hok as (Hp & Hle & m & Em & Hm). destruct (Z.ltb_spec (position_ a) (size_ a)) as [Hlt|Hge].
    + eexists _, _. split; [done|]. remember (Z.min _ _) as n eqn:En. exists (take (Z.to_nat n) m).
      assert (Hn : 0 < n <= zlen m) by lia. rewrite zlen_take by lia. pose proof (zlen_nonneg D). split_and!; [done|lia|lia|]. unfold array_opened. cbn.
      split_and!; [done|done|done|done|done|rewrite zlen_take; lia|lia|by rewrite zlen_take by lia|]. exists (drop (Z.to_nat n) m).
      rewrite take_drop. split; [done|]. rewrite zlen_drop; lia.
    + eexists _, _. split; [done|]. intros x Hx. split; [done|]. split; [done|]. split; [done|]. cbn. rewrite zlen_app. assert (0 < zlen x) by (destruct x; [done|]; rewrite zlen_cons; pose proof (zlen_nonneg x); lia).
      pose proof (zlen_nonneg D). split_and!; [lia..|]. exists m. rewrite Em. replace (size_ a) with (zlen D) by lia. by rewrite take_zlen_app.
  - destruct Hok as (Hp & Hlt & m & Em). rewrite Hp, Z.ltb_irrefl. eexists _, _. split; [done|]. intros x _. split; [done|]. split; [done|]. split; [done|]. cbn. rewrite zlen_app.
    pose proof (zlen_nonneg x). split_and!; [lia..|]. exists m. rewrite Em, take_app_le; [done|]. unfold zlen in *. lia.
Qed.
Next Obligation.
  intros ok a D p l b data (-> & Hb & Ez & Hz & -> & Hp & Hle & Hl & m & Em & Hm) Hd. cbn [store array_output]. unfold ArrayOutput.store.
  rewrite Em. pose proof (poke_at ((Some <$> D) ++ l) (b ++ m) data) as E. rewrite !zlen_app, zlen_some, <- !app_assoc in E. pose proof (zlen_nonneg m).
  rewrite <- app_assoc. rewrite E by lia. cbn [mbind outcome_bind]. eexists. split; [done|].
  assert (El : zlen (l ++ (Some <$> data) ++ drop (length data) b) = zlen (l ++ b)) by (unfold zlen in *; rewrite !length_app, length_fmap, length_drop; lia).
  unfold array_opened. cbn. rewrite El. split_and!; [done..|]. exists m. rewrite <- !app_assoc. split; [|done].
  do 3 f_equal. rewrite drop_app_le; [done|]. unfold zlen in *. lia.
Qed.
Next Obligation.
  intros ok a D p x rest (-> & Hb & Ez & Hz & -> & Hp & Hle & Hl & m & Em & Hm) Hr. cbn [BackUp array_output]. unfold ArrayOutput.BackUp, check.
  rewrite Hl, zlen_app, zlen_some. pose proof (zlen_nonneg x). pose proof (zlen_nonneg D). zdec. cbn [mbind outcome_bind]. eexists. split; [done|].
  rewrite zlen_app, zlen_some in Hp. split; [done|]. split; [done|]. split; [done|]. cbn. rewrite zlen_app. split_and!; [lia|lia|]. exists (rest ++ m).
  rewrite Em, fmap_app, <- !app_assoc. split; [done|]. rewrite zlen_app. lia.
Qed.
Next Obligation.
  intros ok a D p x (-> & Hb & Ez & Hz & -> & Hp & Hle & Hl & m & Em & Hm). rewrite zlen_some in Hp. split; [done|]. split; [done|]. split; [done|]. rewrite zlen_app.
  split_and!; [lia|lia|]. exists m. rewrite fmap_app, <- app_assoc. split; [done|lia].
Qed.
End Array.

(** ** Strings *)

(** The room of a string grows by no more than doubling. *)
Class growth_bound `{StringOutput.growth} : Prop := growth_bounded old new : 0 <= new → StringOutput.grow old new <= 2 * Z.max old new.

Section String_.
Context `{growth_bound}.
#[local] Notation StringOutputStream := StringOutput.StringOutputStream.
#[local] Notation target_ := StringOutput.target_.
#[local] Notation capacity := StringOutput.capacity.

Definition string_settled (ok : bool) (s : StringOutputStream) (D : bytes) : Prop :=
  ok = true ∧ target_ s = D ∧ zlen D <= capacity s <= 2 ^ 29.

Definition string_opened (ok : bool) (s : StringOutputStream) (D : bytes) (p : Z) (mem : memory) : Prop :=
  ok = true ∧ p = zlen D ∧ ∃ room, mem = Some <$> room ∧ target_ s = D ++ room ∧ zlen (D ++ room) <= capacity s <= 2 ^ 29.

(** Growing a string. *)
Lemma resize_more n s D : target_ s = D → zlen D <= n → ∃ room, target_ (StringOutput.resize n s) = D ++ room ∧ zlen (D ++ room) = n.
Proof.
  intros <- Hn. exists (replicate (Z.to_nat n - length (target_ s)) Byte.x00). unfold StringOutput.resize. cbn.
  rewrite take_ge by (unfold zlen in Hn; lia). split; [done|]. unfold zlen in *. rewrite length_app, length_replicate. lia.
Qed.

(** What a buffer of [n] bytes at the end gives. *)
Lemma hand_out_ok s D n : target_ s = D → zlen D < n <= 2 ^ 29 → n <= capacity (StringOutput.resize n s) <= 2 ^ 29 →
  ∃ r o', (let s' := StringOutput.resize n s in Ok (Some (zlen D, s32 (u32 (zlen (target_ s') - zlen D))), s')) = Ok (r, o') ∧
    match r with Some (p, k) => ∃ mem, k = zlen mem ∧ 0 < k <= 2 ^ 30 ∧ string_opened true o' D p mem | None => ∀ x, x ≠ [] → string_settled false o' (D ++ x) end.
Proof.
  intros Et Hn Hc. destruct (resize_more n s D Et) as (room & Er & El); [lia|]. cbn zeta. eexists _, _. split; [done|].
  pose proof (zlen_nonneg D). exists (Some <$> room). rewrite zlen_some, Er. rewrite zlen_app in *. rewrite u32_small, s32_small by (znorm; lia).
  split_and!; [lia..|]. split; [done|]. split; [done|]. exists room. split_and!; [done|done|rewrite zlen_app; lia|lia].
Qed.

#[export] Program Instance string_laws : OutputLaws StringOutputStream := {
  settled := string_settled; opened := string_opened }.
Next Obligation.
  intros ok s D (-> & Et & Hc) Hm. cbn [Next string_output]. unfold StringOutput.Next. unfold most_output in Hm. pose proof (zlen_nonneg D).
  rewrite Et. rewrite (s32_small (zlen D)), (u32_small (zlen D)) by (znorm; lia). destruct (Z.ltb_spec (zlen D) (capacity s)) as [Hlt|Hge].
  - apply (hand_out_ok s D (capacity s)); [done|lia|]. unfold StringOutput.resize. cbn. rewrite Z.leb_refl. lia.
  - unfold INT_MAX. assert (2147483647 / 2 = 1073741823) as -> by done. zdec. rewrite (u32_small (Z.max _ _)) by (unfold StringOutput.kMinimumSize; znorm; lia).
    apply hand_out_ok; [done|unfold StringOutput.kMinimumSize; lia|]. unfold StringOutput.resize. cbn. unfold StringOutput.kMinimumSize.
    case_match; zbool; [lia|]. pose proof (StringOutput.grow_enough (capacity s) (Z.max (zlen D * 2) 16)). pose proof (growth_bounded (capacity s) (Z.max (zlen D * 2) 16) ltac:(lia)). generalize dependent (StringOutput.grow (capacity s) (Z.max (zlen D * 2) 16)). intros. lia.
Qed.
Next Obligation.
  intros ok s D p a b data (-> & -> & room & Em & Et & Hc) Hd. cbn [store string_output]. unfold StringOutput.store. rewrite Et.
  symmetry in Em. apply fmap_app_inv in Em as (x & y & -> & -> & ->). rewrite zlen_some in *. pose proof (zlen_nonneg D). pose proof (zlen_nonneg x).
  rewrite !zlen_app. zdec. cbn [andb]. eexists. split; [done|].
  assert (Hdrop : length data = length (take (length data) y)) by (rewrite length_take; unfold zlen in *; lia).
  assert (Ey : (Some <$> data) ++ drop (length data) (Some <$> y) = Some <$> (data ++ drop (length data) y)) by by rewrite fmap_app, fmap_drop.
  split; [done|]. split; [done|]. exists (x ++ data ++ drop (length data) y). rewrite fmap_app, Ey. split; [done|]. cbn.
  replace (Z.to_nat (zlen D + zlen x)) with (length (D ++ x)) by (rewrite length_app; unfold zlen; lia). rewrite (app_assoc D x y).
  rewrite take_app_length, <- drop_drop, drop_app_length, <- !app_assoc. split; [done|].
  rewrite !zlen_app in *. assert (zlen (drop (length data) y) = zlen y - zlen data) as -> by (unfold zlen in *; rewrite length_drop; lia). lia.
Qed.
Next Obligation.
  intros ok s D p x rest (-> & -> & room & Em & Et & Hc) Hr. cbn [BackUp string_output]. unfold StringOutput.BackUp, check. rewrite Et.
  symmetry in Em. apply fmap_app_inv in Em as (x' & y & Ex & -> & ->). apply (inj (fmap Some)) in Ex as ->. rewrite zlen_some in *. rewrite !zlen_app in *.
  pose proof (zlen_nonneg D). pose proof (zlen_nonneg x'). zdec. cbn [mbind outcome_bind]. eexists. split; [done|]. split; [done|].
  unfold StringOutput.resize. cbn. rewrite Et. replace (Z.to_nat (zlen D + (zlen x' + zlen y) - zlen y)) with (length (D ++ x')) by (rewrite length_app; unfold zlen; lia).
  rewrite (app_assoc D), take_app_length. replace (length (D ++ x') - _)%nat with 0%nat by (rewrite !length_app; lia). cbn. rewrite app_nil_r, zlen_app. split; [done|].
  case_match; zbool; lia.
Qed.
Next Obligation.
  intros ok s D p x (-> & -> & room & Em & Et & Hc). apply (inj (fmap Some)) in Em as ->. split; [done|]. by split.
Qed.
End String_.

(** ** Copying sinks *)

Section Copying.
Import CopyingOutput.
(** A [std::ostream] that held [base] and could take [R] bytes more. *)
Context (base : bytes) (R : Z).
Implicit Types (a : OstreamOutputStream).

(** What the stream below has got of [D], of which [pre] is still in the buffer. *)
Definition sink_state (ok : bool) a (D pre : bytes) : Prop :=
  if ok then failed_ a = false ∧ ∃ w, D = w ++ pre ∧ copying_stream_ a = mk_ostream (base ++ w) (R - zlen w) true ∧ zlen w <= R ∧ position_ a = zlen w
  else failed_ a = true ∧ 0 <= R < zlen D ∧ copying_stream_ a = mk_ostream (base ++ take (Z.to_nat R) D) 0 false.

Definition sink_settled (ok : bool) a (D : bytes) : Prop :=
  ∃ pre : bytes, buffer_used_ a = zlen pre ∧ 0 < buffer_size_ a <= 2 ^ 30 ∧ zlen pre <= buffer_size_ a ∧
    (memory_ a = None ∧ pre = [] ∨ ∃ rest, memory_ a = Some ((Some <$> pre) ++ rest) ∧ zlen pre + zlen rest = buffer_size_ a) ∧ sink_state ok a D pre.

Definition sink_opened (ok : bool) a (D : bytes) (p : Z) (mem : memory) : Prop :=
  ∃ pre : bytes, p = zlen pre ∧ buffer_used_ a = buffer_size_ a ∧ 0 < buffer_size_ a <= 2 ^ 30 ∧
    memory_ a = Some ((Some <$> pre) ++ mem) ∧ zlen pre + zlen mem = buffer_size_ a ∧ sink_state ok a D pre.

Lemma sink_settled_intro ok a D (pre : bytes) : buffer_used_ a = zlen pre → 0 < buffer_size_ a <= 2 ^ 30 → zlen pre <= buffer_size_ a →
  (memory_ a = None ∧ pre = [] ∨ ∃ rest, memory_ a = Some ((Some <$> pre) ++ rest) ∧ zlen pre + zlen rest = buffer_size_ a) → sink_state ok a D pre →
  sink_settled ok a D.
Proof. intros. by exists pre. Qed.

(** Once it has failed, whatever comes is lost. *)
Lemma sink_lost a D x pre pre' : sink_state false a D pre → sink_state false a (D ++ x) pre'.
Proof.
  intros (Hf & Hr & Es). split; [done|]. rewrite zlen_app. pose proof (zlen_nonneg x). split; [lia|]. rewrite Es, take_app_le; [done|]. unfold zlen in *. lia.
Qed.

Lemma sink_used ok a D pre (x : bytes) : sink_state ok a D pre → sink_state ok a (D ++ x) (pre ++ x).
Proof.
  destruct ok; [|apply sink_lost]. intros (Hf & w & -> & Es & Hw & Hp). split; [done|]. exists w. by rewrite <- app_assoc.
Qed.

(** [WriteBuffer], when something is in the buffer. *)
Lemma WriteBuffer_spec ok a D pre rest : sink_state ok a D pre → buffer_used_ a = zlen pre → memory_ a = Some ((Some <$> pre) ++ rest) → 0 < zlen pre →
  ∃ b a', WriteBuffer a = Ok (b, a') ∧ buffer_size_ a' = buffer_size_ a ∧
    if b then ok = true ∧ buffer_used_ a' = 0 ∧ memory_ a' = memory_ a ∧ sink_state true a' D [] ∧ zlen D <= R
    else (memory_ a' = None ∧ buffer_used_ a' = 0 ∨ memory_ a' = memory_ a ∧ buffer_used_ a' = buffer_used_ a) ∧ ∀ pre', sink_state false a' D pre'.
Proof.
  intros Hs Hu Em Hp. unfold WriteBuffer. destruct ok.
  - destruct Hs as (Hf & w & -> & Es & Hw & Hpos). rewrite Hf, Hu, Em. rewrite (proj2 (Z.eqb_neq _ _)) by lia. change (default [] (Some ((Some <$> pre) ++ rest))) with ((Some <$> pre) ++ rest). rewrite peek_app. cbn [mbind outcome_bind].
    cbn [Write copying_ostream]. rewrite Es. unfold ostream_write. cbn [good room taken]. destruct (Z.leb_spec (zlen pre) (R - zlen w)) as [Hle|Hgt]; cbn [good].
    + eexists true, _. split; [done|]. cbn. split; [done|]. split; [done|]. split; [done|]. split; [done|]. split; [|rewrite (zlen_app w pre); lia]. split; [done|]. exists (w ++ pre).
      rewrite app_nil_r, (zlen_app w pre). split_and!; [done| |lia|cbn; lia]. cbn. rewrite <- app_assoc. f_equal. lia.
    + eexists false, _. split; [done|]. cbn. split; [done|]. split; [by left|]. intros pre'. split; [done|]. rewrite zlen_app. pose proof (zlen_nonneg w).
      split; [lia|]. cbn. f_equal. rewrite <- app_assoc. f_equal. rewrite take_app_ge by (unfold zlen in *; lia). do 2 f_equal. unfold zlen. lia.
  - destruct Hs as (Hf & Hr & Es). rewrite Hf. eexists false, a. split; [done|]. split; [done|]. split; [by right|]. by intros pre'.
Qed.

Program Definition sink_laws : OutputLaws OstreamOutputStream := {|
  settled := sink_settled; opened := sink_opened |}.
Next Obligation.
  intros ok a D (pre & Hu & Hb & Hl & Hm & Hs) _. cbn [ZeroCopyOutput.Next copying_output]. unfold CopyingOutput.Next. pose proof (zlen_nonneg pre).
  destruct (Z.eqb_spec (buffer_used_ a) (buffer_size_ a)) as [Ef|Hn].
  - destruct Hm as [[_ ->]|(rest & Em & Er)]; [rewrite zlen_nil in Hu; lia|].
    destruct (WriteBuffer_spec ok a D pre rest Hs Hu Em) as (b & a' & -> & Eb & Hw); [lia|]. cbn [mbind outcome_bind]. destruct b.
    + destruct Hw as (-> & Hu' & Em' & Hs' & _). eexists _, _. split; [done|]. unfold AllocateBufferIfNeeded. rewrite Em', Em. rewrite Hu', Eb.
      exists ((Some <$> pre) ++ rest). rewrite zlen_app, zlen_some. split_and!; [lia..|]. exists []. cbn. rewrite zlen_app, zlen_some, Em', Em, Eb.
      split; [done|]. split; [done|]. split; [exact Hb|]. split; [done|]. split; [exact Er|]. exact Hs'.
    + destruct Hw as [Hw Hs']. eexists _, _. split; [done|]. intros x _. destruct Hw as [[Em' Hu']|[Em' Hu']].
      * apply (sink_settled_intro _ _ _ []); rewrite ?Hu', ?Em', ?Eb; [done|done|rewrite zlen_nil; lia|by left|apply (sink_lost a' D x []), Hs'].
      * apply (sink_settled_intro _ _ _ pre); rewrite ?Hu', ?Em', ?Eb; [done..|right; by exists rest|apply (sink_lost a' D x []), Hs'].
  - cbn [mbind outcome_bind]. eexists _, _. split; [done|]. unfold AllocateBufferIfNeeded. destruct Hm as [[Em ->]|(rest & Em & Er)]; rewrite Em.
    + cbn [buffer_used_ buffer_size_ set_memory]. exists (replicate (Z.to_nat (buffer_size_ a)) None). rewrite zlen_nil in Hu.
      assert (zlen (A := option byte) (replicate (Z.to_nat (buffer_size_ a)) None) = buffer_size_ a) as Ez by (unfold zlen; rewrite length_replicate; lia).
      rewrite Ez. split_and!; [lia..|]. exists []. cbn. rewrite Ez.
      split; [exact Hu|]. split; [done|]. split; [exact Hb|]. split; [done|]. split; [done|exact Hs].
    + exists rest. split_and!; [lia..|]. exists pre. split; [exact Hu|]. split; [done|]. split; [exact Hb|]. split; [exact Em|]. split; [exact Er|exact Hs].
Qed.
Next Obligation.
  intros ok a D p l b data (pre & -> & Hu & Hb & Em & El & Hs) Hd. cbn [ZeroCopyOutput.store copying_output]. unfold CopyingOutput.store. rewrite Em. change (default [] (Some ((Some <$> pre) ++ l ++ b))) with ((Some <$> pre) ++ l ++ b).
  pose proof (poke_at ((Some <$> pre) ++ l) b data Hd) as E. rewrite zlen_app, zlen_some, <- !app_assoc in E. rewrite E. cbn [mbind outcome_bind].
  eexists. split; [done|]. exists pre. cbn. split; [done|]. split; [exact Hu|]. split; [exact Hb|]. split; [done|]. split; [|exact Hs]. rewrite <- El. f_equal. unfold zlen in *. rewrite !length_app, length_fmap, length_drop. lia.
Qed.
Next Obligation.
  intros ok a D p x rest (pre & -> & Hu & Hb & Em & El & Hs) Hr. cbn [ZeroCopyOutput.BackUp copying_output]. unfold CopyingOutput.BackUp, check.
  rewrite zlen_app, zlen_some in El. pose proof (zlen_nonneg x). pose proof (zlen_nonneg pre). rewrite Hu, Z.eqb_refl. zdec. cbn [mbind outcome_bind].
  eexists. split; [done|]. exists (pre ++ x). cbn. rewrite zlen_app. split_and!; [lia..| |by apply (sink_used ok a D pre x)].
  right. exists rest. rewrite fmap_app, <- app_assoc. split; [done|lia].
Qed.
Next Obligation.
  intros ok a D p x (pre & -> & Hu & Hb & Em & El & Hs). rewrite zlen_some in El. exists (pre ++ x). rewrite zlen_app. split_and!; [lia..| |by apply sink_used].
  right. exists []. rewrite app_nil_r, fmap_app, zlen_nil. split; [done|lia].
Qed.

(** Flushing, and the destructors behind it: the verdict says whether everything has arrived. *)
Lemma flush_settled ok a D : sink_settled ok a D →
  let fits := ok && (zlen D <=? R) in
  let os := if fits then mk_ostream (base ++ D) (R - zlen D) true else mk_ostream (base ++ take (Z.to_nat R) D) 0 false in
  ∃ a', Flush a = Ok (fits, a') ∧ copying_stream_ a' = os ∧ destroy_OstreamOutputStream a = Ok os.
Proof.
  intros (pre & Hu & Hb & Hl & Hm & Hs) fits os.
  assert (Hf : ∃ a', Flush a = Ok (fits, a') ∧ copying_stream_ a' = os ∧ (failed_ a' = true ∨ buffer_used_ a' = 0)).
  { unfold Flush. destruct (Z.eq_dec (zlen pre) 0) as [Ez|Hnz].
    - assert (pre = []) as -> by (apply zlen_zero; lia). exists a. unfold WriteBuffer. rewrite Hu. destruct ok; cbn [andb] in *; subst fits os.
      + destruct Hs as (Hf & w & -> & Es & Hw & Hp). rewrite app_nil_r, Hf, Es. zdec. split_and!; [done..|by right].
      + destruct Hs as (Hf & Hr & Es). rewrite Hf, Es. split_and!; [done..|by left].
    - destruct Hm as [[_ ->]|(rest & Em & Er)]; [done|]. pose proof (zlen_nonneg pre).
      destruct (WriteBuffer_spec ok a D pre rest Hs Hu Em ltac:(lia)) as (b & a' & -> & _ & Hw). destruct b.
      + destruct Hw as (-> & Hu' & _ & (_ & w & Ew & Es & _) & Hle). subst fits os. cbn [andb]. zdec. exists a'. rewrite app_nil_r in Ew. subst w. split_and!; [done..|by right].
      + destruct Hw as (_ & Hlost). destruct (Hlost pre) as (Hf & Hr & Es). subst fits os. rewrite (proj2 (Z.leb_gt _ _)), andb_false_r by lia. exists a'. split_and!; [done..|by left]. }
  destruct Hf as (a' & E & Es & Hd). exists a'. split; [done|]. split; [done|]. unfold destroy_OstreamOutputStream. rewrite E. cbn [mbind outcome_bind].
  unfold destroy_CopyingOutputStreamAdaptor, WriteBuffer. destruct Hd as [->| ->]; [|destruct (failed_ a')]; cbn; by rewrite Es.
Qed.
End Copying.

(** ** The coded stream *)

Section Coded.
Import CodedOver.
Context {O : Type} `{OutputLaws O}.
Implicit Types (c : CodedOutputStream O).

(** [D] has been written through [c]; [start] bytes were there when it was made. *)
Definition codes (start : Z) c (D : bytes) : Prop :=
  let ok := negb (had_error_ c) in
  aliasing_enabled_ c = false ∧ 0 <= total_bytes_ c - buffer_size_ c <= zlen D ∧ (ok = true → ByteCount c = zlen D - start) ∧
  ((buffer_ c = None ∧ buffer_size_ c = 0 ∧ settled ok (output_ c) D) ∨
   ∃ D0 p x rest, opened ok (output_ c) D0 p ((Some <$> x) ++ rest) ∧ D = D0 ++ x ∧ buffer_ c = Some (p + zlen x) ∧ buffer_size_ c = zlen rest).

Lemma codes_room start c D : codes start c D → 0 <= buffer_size_ c.
Proof. intros (_ & _ & _ & [(_ & -> & _)|(D0 & p & x & rest & _ & _ & _ & ->)]); [lia|apply zlen_nonneg]. Qed.

(** Bytes for which there is room. *)
Lemma copy_here_spec start c D data : codes start c D → zlen data <= buffer_size_ c →
  ∃ c', copy_here data c = Ok c' ∧ codes start (Advance (zlen data) c') (D ++ data) ∧
    buffer_size_ c' = buffer_size_ c ∧ total_bytes_ c' = total_bytes_ c ∧ had_error_ c' = had_error_ c ∧ aliasing_enabled_ c' = aliasing_enabled_ c.
Proof.
  intros (Ha & Ht & Hc & Hb) Hl. destruct (decide (data = [])) as [->|Hne].
  - exists c. rewrite app_nil_r. split; [done|]. split; [|done]. unfold codes, ByteCount in *. cbn. rewrite Z.sub_0_r. split_and!; [done|lia|lia|done|].
    destruct Hb as [(-> & Hs & Hst)|(D0 & p & x & rest & Ho & -> & Eb & Hs)]; [by left|]. right. exists D0, p, x, rest. rewrite Eb. cbn. rewrite Z.add_0_r. done.
  - assert (0 < zlen data) by (destruct data as [|b0 data0]; [done|]; rewrite zlen_cons; pose proof (zlen_nonneg data0); lia).
    destruct Hb as [(_ & Hs & _)|(D0 & p & x & rest & Ho & -> & Eb & Hs)]; [lia|]. rewrite Hs in Hl.
    destruct (store_law _ _ _ _ _ _ data Ho Hl) as (o' & Es & Ho'). rewrite zlen_some in Es.
    exists (set_output o' c). split.
    { unfold copy_here. destruct data; [done|]. rewrite Eb. by rewrite Es. }
    split; [|done]. unfold codes, ByteCount in *. cbn. rewrite !zlen_app in *. split_and!; [done|lia|lia|intros Hk; specialize (Hc Hk); lia|].
    right. exists D0, p, (x ++ data), (drop (length data) rest). rewrite fmap_app, <- !app_assoc, zlen_app, Eb, Hs. cbn.
    split_and!; [done..|f_equal; lia|]. replace (length data) with (Z.to_nat (zlen data)) by (unfold zlen; lia). by rewrite zlen_drop by lia.
Qed.

(** A full buffer is changed for a new one. *)
Lemma Refresh_spec start c D : codes start c D → buffer_size_ c = 0 → zlen D < most_output →
  ∃ ok c', Refresh c = Ok (ok, c') ∧ if ok then codes start c' D ∧ 0 < buffer_size_ c' ∧ had_error_ c' = had_error_ c
    else ∀ x, x ≠ [] → codes start c' (D ++ x) ∧ had_error_ c' = true.
Proof.
  intros (Ha & Ht & Hc & Hb) Hz Hm. assert (Hs : settled (negb (had_error_ c)) (output_ c) D).
  { destruct Hb as [(_ & _ & Hst)|(D0 & p & x & rest & Ho & -> & _ & Hs)]; [done|]. rewrite Hz in Hs. rewrite (zlen_zero rest) in Ho by lia.
    rewrite app_nil_r in Ho. by apply (used_law _ _ _ p). }
  destruct (next_law _ _ _ Hs Hm) as (r & o' & En & Hr). unfold Refresh. rewrite En. cbn [mbind outcome_bind]. unfold most_output in Hm.
  unfold ByteCount in Hc. destruct r as [[p n]|].
  - destruct Hr as (mem & -> & Hn & Ho). unfold add_int, INT_MAX. zdec. cbn [andb mbind outcome_bind]. eexists true, _. split; [done|]. cbn. split; [|split; [lia|done]].
    unfold codes, ByteCount. cbn. split_and!; [done|lia|lia|intros Hk; specialize (Hc Hk); lia|]. right. exists D, p, [], mem. rewrite app_nil_r, zlen_nil, Z.add_0_r. by split_and!.
  - eexists false, _. split; [done|]. intros x Hx. split; [|done]. unfold codes, ByteCount. cbn. rewrite zlen_app. pose proof (zlen_nonneg x).
    split_and!; [done|lia|lia|done|]. left. split_and!; [done..|by apply Hr].
Qed.

Lemma write_raw_spec start : ∀ fuel c D data, codes start c D → zlen (D ++ data) < most_output →
  (length data + (if (buffer_size_ c =? 0)%Z then 1 else 0) <= fuel)%nat → ∃ c', write_raw fuel data c = Ok c' ∧ codes start c' (D ++ data).
Proof.
  induction fuel as [|fuel IH]; intros c D data Hco Hm Hf; cbn [write_raw].
  - pose proof (codes_room _ _ _ Hco). assert (data = []) as -> by (destruct data; [done|cbn in Hf; lia]). rewrite zlen_nil. zdec.
    destruct (copy_here_spec start c D [] Hco) as (c' & -> & Hc' & _); [rewrite zlen_nil; lia|]. by eexists.
  - pose proof (codes_room _ _ _ Hco) as Hr. destruct (Z.ltb_spec (buffer_size_ c) (zlen data)) as [Hlt|Hge].
    + set (n := buffer_size_ c) in *. pose proof (take_drop (Z.to_nat n) data) as Ed. assert (Hn : zlen (take (Z.to_nat n) data) = n) by (apply zlen_take; lia).
      destruct (copy_here_spec start c D (take (Z.to_nat n) data) Hco) as (c1 & -> & Hc1 & Hb1 & Ht1 & He1 & Ha1); [lia|]. cbn [mbind outcome_bind].
      rewrite Hn in Hc1. assert (Er : Refresh c1 = Refresh (Advance n c1)) by done. rewrite Er.
      assert (Hm1 : zlen (D ++ take (Z.to_nat n) data) < most_output).
      { rewrite zlen_app, Hn. rewrite zlen_app in Hm. lia. }
      destruct (Refresh_spec start (Advance n c1) _ Hc1) as (ok & c2 & -> & Hk); [cbn; unfold n; lia|done|]. cbn [mbind outcome_bind]. destruct ok.
      * destruct Hk as (Hc2 & Hb2 & He2). rewrite <- Ed, app_assoc. rewrite Ed. apply (IH c2); [done|by rewrite <- app_assoc, Ed|]. rewrite length_drop.
        rewrite (proj2 (Z.eqb_neq (buffer_size_ c2) 0)) by lia. unfold zlen in *. destruct (Z.eqb_spec n 0); lia.
      * exists c2. split; [done|]. destruct (Hk (drop (Z.to_nat n) data)) as [Hc2 _]; [intros Ex; apply (f_equal zlen) in Ex; rewrite zlen_drop, zlen_nil in Ex; lia|].
        by rewrite <- app_assoc, Ed in Hc2.
    + destruct (copy_here_spec start c D data Hco Hge) as (c' & -> & Hc' & _). by eexists.
Qed.

Lemma WriteRaw_spec start c D data : codes start c D → zlen (D ++ data) < most_output → ∃ c', WriteRaw data c = Ok c' ∧ codes start c' (D ++ data).
Proof. intros Hc Hm. apply write_raw_spec; [done|done|]. destruct (_ =? _); lia. Qed.

Lemma write_encoded_spec start space data c D : codes start c D → zlen data <= space → zlen (D ++ data) < most_output →
  ∃ c', write_encoded space data c = Ok c' ∧ codes start c' (D ++ data).
Proof.
  intros Hc Hs Hm. unfold write_encoded. destruct (Z.leb_spec space (buffer_size_ c)) as [Hle|]; [|by apply WriteRaw_spec].
  destruct (copy_here_spec start c D data Hc) as (c' & -> & Hc' & _); [lia|]. by eexists.
Qed.

(** The end of the coded stream leaves the stream below settled. *)
Lemma destroy_spec start c D : codes start c D → ∃ o, destroy_CodedOutputStream c = Ok o ∧ settled (negb (had_error_ c)) o D.
Proof.
  intros (Ha & Ht & Hc & Hb). unfold destroy_CodedOutputStream, Trim. destruct Hb as [(_ & Hs & Hst)|(D0 & p & x & rest & Ho & -> & Eb & Hs)].
  - rewrite Hs. cbn. by eexists.
  - rewrite Hs. destruct (Z.ltb_spec 0 (zlen rest)) as [Hlt|Hge].
    + destruct (back_law _ _ _ _ _ _ Ho Hlt) as (o' & -> & Hst). by exists o'.
    + cbn. eexists. split; [done|]. rewrite (zlen_zero rest Hge), app_nil_r in Ho. by apply (used_law _ _ _ p).
Qed.

(** A stream that gives a first buffer. *)
Lemma new_spec (o : O) D p n o' : settled true o D → zlen D < most_output → Next o = Ok (Some (p, n), o') →
  ∃ c, new_CodedOutputStream true o = Ok c ∧ codes (zlen D) c D ∧ had_error_ c = false ∧ buffer_size_ c = n.
Proof.
  intros Hs Hm En. unfold new_CodedOutputStream, Refresh. cbn [output_]. destruct (next_law _ _ _ Hs Hm) as (r & o1 & E1 & Hr). rewrite En in *. simplify_eq.
  destruct Hr as (mem & -> & Hn & Ho). cbn [mbind outcome_bind]. unfold add_int, INT_MAX. cbn [total_bytes_]. zdec. cbn [andb mbind outcome_bind].
  eexists. split; [done|]. split; [|done]. pose proof (zlen_nonneg D). unfold codes, ByteCount. cbn. split_and!; [done|lia|lia|intros _; lia|].
  right. exists D, p, [], mem. rewrite app_nil_r, zlen_nil, Z.add_0_r. by split_and!.
Qed.
End Coded.

(** ** Programs that write *)

Inductive item := Raw (data : bytes) | Varint32 (v : Z) | Varint64 (v : Z) | Signed32 (v : Z) | Little32 (v : Z) | Little64 (v : Z).

Definition item_ok (i : item) : Prop := match i with Varint32 v => is_u32 v | Varint64 v => is_u64 v | _ => True end.

Definition item_bytes (i : item) : bytes :=
  match i with
  | Raw data => data
  | Varint32 v => CodedOutput.WriteVarint32ToArray v
  | Varint64 v => CodedOutput.WriteVarint64ToArray v
  | Signed32 v => CodedOutput.WriteVarint32SignExtendedToArray v
  | Little32 v => CodedOutput.WriteLittleEndian32ToArray v
  | Little64 v => CodedOutput.WriteLittleEndian64ToArray v
  end.

Section Programs.
Import CodedOver.

Definition write_item {O} `{ZeroCopyOutputStream O} (i : item) : CodedOutputStream O → outcome (CodedOutputStream O) :=
  match i with
  | Raw data => WriteRaw data
  | Varint32 v => WriteVarint32 v
  | Varint64 v => WriteVarint64 v
  | Signed32 v => WriteVarint32SignExtended v
  | Little32 v => WriteLittleEndian32 v
  | Little64 v => WriteLittleEndian64 v
  end.

Fixpoint write_all {O} `{ZeroCopyOutputStream O} (items : list item) (c : CodedOutputStream O) : outcome (CodedOutputStream O) :=
  match items with [] => Ok c | i :: items => c ← write_item i c; write_all items c end.

(** The same on the coded stream of CodedStream.v. *)
Definition simple_item (i : item) : CodedOutput.CodedOutputStream → CodedOutput.CodedOutputStream :=
  match i with
  | Raw data => CodedOutput.WriteRaw data
  | Varint32 v => CodedOutput.WriteVarint32 v
  | Varint64 v => CodedOutput.WriteVarint64 v
  | Signed32 v => CodedOutput.WriteVarint32SignExtended v
  | Little32 v => CodedOutput.WriteLittleEndian32 v
  | Little64 v => CodedOutput.WriteLittleEndian64 v
  end.

Lemma simple_emits i : item_ok i → emits (simple_item i) (item_bytes i).
Proof.
  destruct i; cbn; intros Hi; [apply WriteRaw_emits|by apply WriteVarint32_emits|by apply WriteVarint64_emits|apply WriteVarint32SignExtended_emits
    |apply WriteLittleEndian32_emits|apply WriteLittleEndian64_emits].
Qed.

Lemma simple_all items : Forall item_ok items → emits (fold_left (λ o i, simple_item i o) items) (concat (map item_bytes items)).
Proof.
  induction 1 as [|i items Hi _ IH]; cbn [fold_left map concat]; [apply emits_id|].
  exact (emits_seq (simple_item i) (fold_left (λ o i, simple_item i o) items) _ _ (simple_emits i Hi) IH).
Qed.

Lemma varint_space k v : 0 <= v < 128 ^ (Z.of_nat k + 1) → zlen (CodedOutput.write_varint (S k) v) <= Z.of_nat (S k).
Proof. intros Hv. pose proof (write_varint_bound_small k v Hv). lia. Qed.

Context {O : Type} `{OutputLaws O}.
Implicit Types (c : CodedOutputStream O).

Lemma write_item_spec start i c D : item_ok i → codes start c D → zlen (D ++ item_bytes i) < most_output →
  ∃ c', write_item i c = Ok c' ∧ codes start c' (D ++ item_bytes i).
Proof.
  intros Hi Hc Hm. destruct i; cbn in *; [by apply WriteRaw_spec| | | | |].
  - apply write_encoded_spec; [done|apply (varint_space 4); znorm; cbn; lia|done].
  - apply write_encoded_spec; [done|apply (varint_space 9); znorm; cbn; lia|done].
  - pose proof (u64_range v). apply write_encoded_spec; [done|apply (varint_space 9); znorm; cbn; lia|done].
  - by apply write_encoded_spec.
  - by apply write_encoded_spec.
Qed.

Lemma write_all_spec start items : Forall item_ok items → ∀ c D, codes start c D → zlen (D ++ concat (map item_bytes items)) < most_output →
  ∃ c', write_all items c = Ok c' ∧ codes start c' (D ++ concat (map item_bytes items)).
Proof.
  induction 1 as [|i items Hi _ IH]; intros c D Hc Hm; cbn [map concat write_all] in *; [rewrite app_nil_r; by eexists|].
  rewrite app_assoc in *. pose proof (zlen_nonneg (concat (map item_bytes items))).
  destruct (write_item_spec start i c D Hi Hc) as (c1 & -> & Hc1); [rewrite zlen_app in Hm; lia|]. cbn [mbind outcome_bind]. by apply IH.
Qed.
End Programs.

(** A coded stream is made on a stream, written to, and destroyed: the stream, whether
    there was an error, and the count. *)
Definition write_program {O} `{ZeroCopyOutputStream O} (items : list item) (o : O) : outcome (O * bool * Z) :=
  c ← CodedOver.new_CodedOutputStream true o;
  c ← write_all items c;
  o ← CodedOver.destroy_CodedOutputStream c;
  Ok (o, CodedOver.HadError c, CodedOver.ByteCount c).

Lemma write_program_spec {O} `{OutputLaws O} (o : O) D items p n o1 : settled true o D → Next o = Ok (Some (p, n), o1) → Forall item_ok items →
  zlen (D ++ concat (map item_bytes items)) < most_output →
  ∃ o' err count, write_program items o = Ok (o', err, count) ∧ settled (negb err) o' (D ++ concat (map item_bytes items)) ∧
    (err = false → count = zlen (concat (map item_bytes items))).
Proof.
  intros Hs En Hi Hm. pose proof (zlen_nonneg (concat (map item_bytes items))). assert (zlen D < most_output) by (rewrite zlen_app in Hm; lia).
  destruct (new_spec o D p n o1 Hs) as (c & E & Hc & _); [done|done|]. unfold write_program. rewrite E. cbn [mbind outcome_bind].
  destruct (write_all_spec (zlen D) items Hi c D Hc Hm) as (c' & -> & Hc'). cbn [mbind outcome_bind].
  destruct (destroy_spec _ _ _ Hc') as (o' & -> & Hs'). cbn [mbind outcome_bind]. exists o', (CodedOver.had_error_ c'), (CodedOver.ByteCount c'). split; [done|]. split; [done|].
  intros He. destruct Hc' as (_ & _ & Hcount & _). rewrite He in Hcount. rewrite (Hcount eq_refl), zlen_app. lia.
Qed.

(** C18: whatever is written to a coded stream over an [OstreamOutputStream] arrives, in
    order, and no loss goes unnoticed.  For any block size and any writes (raw bytes,
    varints, fixed-width integers, of less than 2^27 bytes altogether), with a
    [std::ostream] whose buffer takes [R] more bytes: after the coded stream is destroyed
    and the adaptor flushed, the stream below holds what it held and behind it all the
    bytes if they fit, and otherwise the first [R] of them; the verdict of the flush is
    whether they fitted; an error the coded stream has noticed by itself is a real one.
    If they fit, the bytes are those that the coded stream of CodedStream.v, which has
    no buffers and cannot fail, writes. *)
Theorem coded_stream_to_ostream base R block items :
  let D := concat (map item_bytes items) in
  let fits := zlen D <=? R in
  0 <= R → block <= 2 ^ 30 → Forall item_ok items → zlen D < most_output →
  ∃ o err count o' os, write_program items (new_OstreamOutputStream (mk_ostream base R true) block) = Ok (o, err, count) ∧
    CopyingOutput.Flush o = Ok (fits, o') ∧ destroy_OstreamOutputStream o = Ok os ∧ CopyingOutput.copying_stream_ o' = os ∧
    taken os = base ++ (if fits then D else take (Z.to_nat R) D) ∧ good os = fits ∧
    (err = true → fits = false) ∧ (err = false → count = zlen D) ∧
    (fits = true → taken os = CodedOutput.written (fold_left (λ o i, simple_item i o) items (CodedOutput.mk_CodedOutputStream base))).
Proof.
  intros D fits HR Hb Hi Hm. set (o0 := new_OstreamOutputStream _ block). pose proof (sink_laws base R) as L.
  assert (H0 : sink_settled base R true o0 []).
  { apply (sink_settled_intro _ _ _ _ _ []); cbn; [done|destruct (Z.ltb_spec 0 block); unfold CopyingOutput.kDefaultBlockSize; lia
      |rewrite zlen_nil; destruct (Z.ltb_spec 0 block); unfold CopyingOutput.kDefaultBlockSize; lia|by left|].
    split; [done|]. exists []. cbn. rewrite app_nil_r, Z.sub_0_r. by split_and!. }
  assert (En : ∃ n o1, Next o0 = Ok (Some (0, n), o1)).
  { cbn [Next copying_output]. unfold o0, new_OstreamOutputStream, CopyingOutput.new_CopyingOutputStreamAdaptor. destruct block; by eexists _, _. }
  destruct En as (n & o1 & En).
  destruct (@write_program_spec OstreamOutputStream _ (sink_laws base R) o0 [] items 0 n o1 H0 En Hi Hm) as (o & err & count & E & Hs & Hc). fold D in Hs, Hc. cbn [app] in Hs.
  destruct (flush_settled base R _ _ _ Hs) as (o' & Ef & Eo & Ed).
  assert (Hv : negb err && (zlen D <=? R) = fits).
  { destruct err; [|done]. cbn. destruct Hs as (pre & _ & _ & _ & _ & _ & Hlt & _). unfold fits. symmetry. apply Z.leb_gt. lia. }
  rewrite Hv in Ef, Eo, Ed. exists o, err, count, o', (if fits then mk_ostream (base ++ D) (R - zlen D) true else mk_ostream (base ++ take (Z.to_nat R) D) 0 false).
  split; [exact E|]. split; [exact Ef|]. split; [exact Ed|]. split; [exact Eo|]. split; [by destruct fits|]. split; [by destruct fits|].
  split; [intros ->; by rewrite <- Hv|]. split; [exact Hc|]. intros ->. cbn. symmetry. apply (simple_all items Hi (CodedOutput.mk_CodedOutputStream base)). done.
Qed.

(** Ten bytes in blocks of four, of which the stream takes seven. *)
Lemma coded_stream_to_ostream_witness :
  let items := [Varint32 300; Little32 1; Raw [Byte.x61; Byte.x62; Byte.x63; Byte.x64]] in
  ∃ o err count o' os, write_program items (new_OstreamOutputStream (mk_ostream [] 7 true) 4) = Ok (o, err, count) ∧
    CopyingOutput.Flush o = Ok (false, o') ∧ destroy_OstreamOutputStream o = Ok os ∧
    taken os = [Byte.xac; Byte.x02; Byte.x01; Byte.x00; Byte.x00; Byte.x00; Byte.x61] ∧ good os = false.
Proof.
  intros items. destruct (coded_stream_to_ostream [] 7 4 items) as (o & err & count & o' & os & E & Ef & Ed & _ & Et & Eg & _).
  1-2: done. 1: repeat constructor; by vm_compute. 1: done.
  assert (Hf : (zlen (concat (map item_bytes items)) <=? 7) = false) by by vm_compute. rewrite Hf in Ef, Et, Eg. exists o, err, count, o', os.
  split; [exact E|]. split; [exact Ef|]. split; [exact Ed|]. split; [rewrite Et; by vm_compute|exact Eg].
Defined.


(** Seven bytes into an array of five, in blocks of two, and to the end of a string that
    is full, whose room doubles. *)
Program Definition doubling : StringOutput.growth := {| StringOutput.grow old new := Z.max (2 * old) new |}.
Next Obligation. intros. cbn. lia. Qed.

Lemma doubling_bound : @growth_bound doubling.
Proof. intros old new Hn. cbn. lia. Qed.

