(* ===== verification/ZeroCopyInput.v ===== *)
(** Input streams that hand out their buffers
    (Shared/protobuf/src/google/protobuf/io/zero_copy_stream.h,
    zero_copy_stream_impl_lite.{h,cc}, zero_copy_stream_impl.{h,cc}): the interface, the
    streams over an array and over a source that copies, and the streams that limit and
    concatenate others.  CodedStream.v has the stream over a [std::istream] as the coded
    stream on top sees it, with nothing backed up.

    The bytes of a buffer stand for its address; a failed [GOOGLE_CHECK] and a read
    outside of the memory are [Undefined].  Counts are sums of the sizes of buffers in
    [int64], which do not overflow. *)

From S2P Require Import Prelude CodedStream.

Module ZeroCopyInput.

(** The virtual functions.  [Next] gives the bytes of a buffer. *)
Class ZeroCopyInputStream (I : Type) := {
  Next : I → outcome (option bytes * I);
  BackUp : Z → I → outcome I;
  Skip : Z → I → outcome (bool * I);
  ByteCount : I → Z
}.

(** The [n] bytes at an offset of some memory. *)
Definition slice (p n : Z) (m : bytes) : outcome bytes :=
  if (0 <=? p) && (p + n <=? zlen m) then Ok (take (Z.to_nat n) (drop (Z.to_nat p) m)) else Undefined.

(** ** Arrays *)

Module ArrayInput.
Record ArrayInputStream := mk_ArrayInputStream {
  data_ : bytes;
  size_ : Z;
  block_size_ : Z;
  position_ : Z;
  last_returned_size_ : Z
}.

Definition new_ArrayInputStream (data : bytes) (size block_size : Z) : ArrayInputStream :=
  mk_ArrayInputStream data size (if 0 <? block_size then block_size else size) 0 0.

Definition set_position (p last : Z) (a : ArrayInputStream) : ArrayInputStream :=
  mk_ArrayInputStream (data_ a) (size_ a) (block_size_ a) p last.

Definition Next (a : ArrayInputStream) : outcome (option bytes * ArrayInputStream) :=
  if position_ a <? size_ a then
    let size := Z.min (block_size_ a) (size_ a - position_ a) in
    data ← slice (position_ a) size (data_ a);
    Ok (Some data, set_position (position_ a + size) size a)
  else Ok (None, set_position (position_ a) 0 a).

Definition BackUp (count : Z) (a : ArrayInputStream) : outcome ArrayInputStream :=
  _ ← check (0 <? last_returned_size_ a); _ ← check (count <=? last_returned_size_ a); _ ← check (0 <=? count);
  Ok (set_position (position_ a - count) 0 a).

Definition Skip (count : Z) (a : ArrayInputStream) : outcome (bool * ArrayInputStream) :=
  _ ← check (0 <=? count);
  if size_ a - position_ a <? count then Ok (false, set_position (size_ a) 0 a)
  else Ok (true, set_position (position_ a + count) 0 a).

Definition ByteCount (a : ArrayInputStream) : Z := position_ a.
End ArrayInput.

#[export] Instance array_input : ZeroCopyInputStream ArrayInput.ArrayInputStream := {
  Next := ArrayInput.Next; BackUp := ArrayInput.BackUp; Skip := ArrayInput.Skip; ByteCount := ArrayInput.ByteCount }.

(** ** Sources that copy *)

(** [CopyingInputStream]: [Read] gives the bytes it stored, or [None] for -1. *)
Class CopyingInputStream (K : Type) := {
  Read : Z → K → option bytes * K;
  copying_Skip : Z → K → outcome (Z * K)
}.

(** Its own [Skip], of which every round but the last reads a byte. *)
Fixpoint skip_reading {K} (read : Z → K → option bytes * K) (fuel : nat) (count skipped : Z) (k : K) : outcome (Z * K) :=
  if skipped <? count then
    match fuel with
    | 0%nat => NoFuel
    | S fuel =>
        match read (Z.min (count - skipped) 4096) k with
        | (Some ((_ :: _) as junk), k) => skip_reading read fuel count (skipped + zlen junk) k
        | (_, k) => Ok (skipped, k)
        end
    end
  else Ok (skipped, k).

Definition CopyingInputStream_Skip {K} (read : Z → K → option bytes * K) (count : Z) (k : K) : outcome (Z * K) :=
  skip_reading read (S (Z.to_nat count)) count 0 k.

(** [CopyingIstreamInputStream]; a read that brings nothing is the end of the input,
    since the streams modelled fail in no other way. *)
Definition istream_Read (size : Z) (input : CodedInput.istream) : option bytes * CodedInput.istream :=
  let '(data, input) := CodedInput.istream_read size input in (Some data, input).

#[export] Instance copying_istream : CopyingInputStream CodedInput.istream := {
  Read := istream_Read; copying_Skip := CopyingInputStream_Skip istream_Read }.

Module CopyingInput.
Section Adaptor.
Context {K : Type} `{CopyingInputStream K}.

(** [buffer_] is null, or holds what the last read stored. *)
Record CopyingInputStreamAdaptor := mk_Adaptor {
  copying_stream_ : K;
  failed_ : bool;
  position_ : Z;
  buffer_ : option bytes;
  buffer_size_ : Z;
  buffer_used_ : Z;
  backup_bytes_ : Z
}.

Definition kDefaultBlockSize : Z := 8192.

Definition new_CopyingInputStreamAdaptor (copying_stream : K) (block_size : Z) : CopyingInputStreamAdaptor :=
  mk_Adaptor copying_stream false 0 None (if 0 <? block_size then block_size else kDefaultBlockSize) 0 0.

Definition set_backup (n : Z) (a : CopyingInputStreamAdaptor) : CopyingInputStreamAdaptor :=
  mk_Adaptor (copying_stream_ a) (failed_ a) (position_ a) (buffer_ a) (buffer_size_ a) (buffer_used_ a) n.
Definition set_buffer (b : option bytes) (used : Z) (a : CopyingInputStreamAdaptor) : CopyingInputStreamAdaptor :=
  mk_Adaptor (copying_stream_ a) (failed_ a) (position_ a) b (buffer_size_ a) used (backup_bytes_ a).
Definition set_stream (k : K) (failed : bool) (p : Z) (a : CopyingInputStreamAdaptor) : CopyingInputStreamAdaptor :=
  mk_Adaptor k failed p (buffer_ a) (buffer_size_ a) (buffer_used_ a) (backup_bytes_ a).

Definition AllocateBufferIfNeeded (a : CopyingInputStreamAdaptor) : CopyingInputStreamAdaptor :=
  match buffer_ a with Some _ => a | None => set_buffer (Some []) (buffer_used_ a) a end.

Definition FreeBuffer (a : CopyingInputStreamAdaptor) : outcome CopyingInputStreamAdaptor :=
  _ ← check (backup_bytes_ a =? 0); Ok (set_buffer None 0 a).

Definition Next (a : CopyingInputStreamAdaptor) : outcome (option bytes * CopyingInputStreamAdaptor) :=
  if failed_ a then Ok (None, a)
  else
    let a := AllocateBufferIfNeeded a in
    if 0 <? backup_bytes_ a then
      data ← slice (buffer_used_ a - backup_bytes_ a) (backup_bytes_ a) (default [] (buffer_ a));
      Ok (Some data, set_backup 0 a)
    else
      match Read (buffer_size_ a) (copying_stream_ a) with
      | (Some ((_ :: _) as data), k) =>
          Ok (Some data, set_stream k false (position_ a + zlen data) (set_buffer (Some data) (zlen data) a))
      | (Some [], k) => a ← FreeBuffer (set_stream k false (position_ a) a); Ok (None, a)
      | (None, k) => a ← FreeBuffer (set_stream k true (position_ a) a); Ok (None, a)
      end.

Definition BackUp (count : Z) (a : CopyingInputStreamAdaptor) : outcome CopyingInputStreamAdaptor :=
  _ ← check ((backup_bytes_ a =? 0) && match buffer_ a with Some _ => true | None => false end);
  _ ← check (count <=? buffer_used_ a); _ ← check (0 <=? count); Ok (set_backup count a).

Definition Skip (count : Z) (a : CopyingInputStreamAdaptor) : outcome (bool * CopyingInputStreamAdaptor) :=
  _ ← check (0 <=? count);
  if failed_ a then Ok (false, a)
  else if count <=? backup_bytes_ a then Ok (true, set_backup (backup_bytes_ a - count) a)
  else
    let count := count - backup_bytes_ a in
    '(skipped, k) ← copying_Skip count (copying_stream_ a);
    Ok (skipped =? count, set_stream k false (position_ a + skipped) (set_backup 0 a)).

Definition ByteCount (a : CopyingInputStreamAdaptor) : Z := position_ a - backup_bytes_ a.
End Adaptor.
Arguments CopyingInputStreamAdaptor : clear implicits.
End CopyingInput.

#[export] Instance copying_input {K} `{CopyingInputStream K} : ZeroCopyInputStream (CopyingInput.CopyingInputStreamAdaptor K) := {
  Next := CopyingInput.Next; BackUp := CopyingInput.BackUp; Skip := CopyingInput.Skip; ByteCount := CopyingInput.ByteCount }.

(** [IstreamInputStream] passes every call on to an adaptor. *)
Definition IstreamInputStream : Type := CopyingInput.CopyingInputStreamAdaptor CodedInput.istream.
Definition new_IstreamInputStream (input : CodedInput.istream) (block_size : Z) : IstreamInputStream :=
  CopyingInput.new_CopyingInputStreamAdaptor input block_size.

(** ** Streams of streams *)

Module ConcatenatingInput.
Section Concatenating.
Context {I : Type} `{ZeroCopyInputStream I}.

(** The array of streams and its count. *)
Record ConcatenatingInputStream := mk_Concatenating { streams_ : list I; bytes_retired_ : Z }.

Definition new_ConcatenatingInputStream (streams : list I) : ConcatenatingInputStream := mk_Concatenating streams 0.

Fixpoint next_of (streams : list I) (retired : Z) : outcome (option bytes * ConcatenatingInputStream) :=
  match streams with
  | [] => Ok (None, mk_Concatenating [] retired)
  | s :: streams =>
      '(r, s) ← ZeroCopyInput.Next s;
      match r with
      | Some data => Ok (Some data, mk_Concatenating (s :: streams) retired)
      | None => next_of streams (retired + ZeroCopyInput.ByteCount s)
      end
  end.

Definition Next (c : ConcatenatingInputStream) : outcome (option bytes * ConcatenatingInputStream) :=
  next_of (streams_ c) (bytes_retired_ c).

(** Without a stream the failure is logged, and fatal in a debug build only. *)
Definition BackUp (count : Z) (c : ConcatenatingInputStream) : outcome ConcatenatingInputStream :=
  match streams_ c with
  | s :: streams => s ← ZeroCopyInput.BackUp count s; Ok (mk_Concatenating (s :: streams) (bytes_retired_ c))
  | [] => Ok c
  end.

Fixpoint skip_in (count : Z) (streams : list I) (retired : Z) : outcome (bool * ConcatenatingInputStream) :=
  match streams with
  | [] => Ok (false, mk_Concatenating [] retired)
  | s :: streams =>
      let target_byte_count := ZeroCopyInput.ByteCount s + count in
      '(ok, s) ← ZeroCopyInput.Skip count s;
      if ok : bool then Ok (true, mk_Concatenating (s :: streams) retired)
      else
        let final_byte_count := ZeroCopyInput.ByteCount s in
        skip_in (target_byte_count - final_byte_count) streams (retired + final_byte_count)
  end.

Definition Skip (count : Z) (c : ConcatenatingInputStream) : outcome (bool * ConcatenatingInputStream) :=
  skip_in count (streams_ c) (bytes_retired_ c).

Definition ByteCount (c : ConcatenatingInputStream) : Z :=
  match streams_ c with [] => bytes_retired_ c | s :: _ => bytes_retired_ c + ZeroCopyInput.ByteCount s end.
End Concatenating.
Arguments ConcatenatingInputStream : clear implicits.
End ConcatenatingInput.

#[export] Instance concatenating_input {I} `{ZeroCopyInputStream I} : ZeroCopyInputStream (ConcatenatingInput.ConcatenatingInputStream I) := {
  Next := ConcatenatingInput.Next; BackUp := ConcatenatingInput.BackUp; Skip := ConcatenatingInput.Skip; ByteCount := ConcatenatingInput.ByteCount }.

Module LimitingInput.
Section Limiting.
Context {I : Type} `{ZeroCopyInputStream I}.

(** [limit_] is negative when the last buffer of the stream below went beyond it. *)
Record LimitingInputStream := mk_Limiting { input_ : I; limit_ : Z; prior_bytes_read_ : Z }.

Definition new_LimitingInputStream (input : I) (limit : Z) : LimitingInputStream :=
  mk_Limiting input limit (ZeroCopyInput.ByteCount input).

(** The destructor: what it leaves of the stream below. *)
Definition destroy_LimitingInputStream (l : LimitingInputStream) : outcome I :=
  if limit_ l <? 0 then ZeroCopyInput.BackUp (- limit_ l) (input_ l) else Ok (input_ l).

Definition Next (l : LimitingInputStream) : outcome (option bytes * LimitingInputStream) :=
  if limit_ l <=? 0 then Ok (None, l)
  else
    '(r, i) ← ZeroCopyInput.Next (input_ l);
    match r with
    | None => Ok (None, mk_Limiting i (limit_ l) (prior_bytes_read_ l))
    | Some data =>
        let limit := limit_ l - zlen data in
        Ok (Some (if limit <? 0 then take (Z.to_nat (zlen data + limit)) data else data), mk_Limiting i limit (prior_bytes_read_ l))
    end.

Definition BackUp (count : Z) (l : LimitingInputStream) : outcome LimitingInputStream :=
  if limit_ l <? 0 then i ← ZeroCopyInput.BackUp (count - limit_ l) (input_ l); Ok (mk_Limiting i count (prior_bytes_read_ l))
  else i ← ZeroCopyInput.BackUp count (input_ l); Ok (mk_Limiting i (limit_ l + count) (prior_bytes_read_ l)).

Definition Skip (count : Z) (l : LimitingInputStream) : outcome (bool * LimitingInputStream) :=
  if limit_ l <? count then
    if limit_ l <? 0 then Ok (false, l)
    else '(_, i) ← ZeroCopyInput.Skip (limit_ l) (input_ l); Ok (false, mk_Limiting i 0 (prior_bytes_read_ l))
  else
    '(ok, i) ← ZeroCopyInput.Skip count (input_ l);
    Ok (ok, mk_Limiting i (if ok : bool then limit_ l - count else limit_ l) (prior_bytes_read_ l)).

Definition ByteCount (l : LimitingInputStream) : Z :=
  if limit_ l <? 0 then ZeroCopyInput.ByteCount (input_ l) + limit_ l - prior_bytes_read_ l
  else ZeroCopyInput.ByteCount (input_ l) - prior_bytes_read_ l.
End Limiting.
Arguments LimitingInputStream : clear implicits.
End LimitingInput.

#[export] Instance limiting_input {I} `{ZeroCopyInputStream I} : ZeroCopyInputStream (LimitingInput.LimitingInputStream I) := {
  Next := LimitingInput.Next; BackUp := LimitingInput.BackUp; Skip := LimitingInput.Skip; ByteCount := LimitingInput.ByteCount }.
End ZeroCopyInput.
