(* ===== verification/ZeroCopyInputFacts.v ===== *)
(** What is read from an input stream is what is there: the laws of the streams that hand
    out their buffers, the streams of ZeroCopyInput.v as instances, and programs that
    read and skip against the same on a list of bytes. *)

From S2P Require Import Prelude CodedStream ZeroCopyInput.
Import ZeroCopyInput.

(** The laws.  [reads i n rest last]: [n] bytes have been taken from the stream, [rest] is
    still to come, and the stream may be backed up by up to the bytes [last] of the
    buffer it gave, if there are any. *)
Class InputLaws (I : Type) `{ZeroCopyInputStream I} := {
  reads : I → Z → bytes → bytes → Prop;
  next_reads i n rest last : reads i n rest last → ∃ r i', Next i = Ok (r, i') ∧
    match r with
    | Some data => ∃ rest', rest = data ++ rest' ∧ data ≠ [] ∧ reads i' (n + zlen data) rest' data
    | None => rest = [] ∧ reads i' n [] []
    end;
  back_reads i n rest (a b : bytes) : reads i n rest (a ++ b) → a ++ b ≠ [] →
    ∃ i', BackUp (zlen b) i = Ok i' ∧ reads i' (n - zlen b) (b ++ rest) [];
  skip_reads i n rest last count : reads i n rest last → 0 <= count → ∃ ok i', Skip count i = Ok (ok, i') ∧
    if ok : bool then count <= zlen rest ∧ reads i' (n + count) (drop (Z.to_nat count) rest) []
    else (zlen rest < count ∨ rest = []) ∧ reads i' (n + zlen rest) [] [];
  count_reads i n rest last : reads i n rest last → ByteCount i = n
}.

Lemma zlen_pos {A} (l : list A) : l ≠ [] → 0 < zlen l.
Proof. destruct l; [done|]. rewrite zlen_cons. pose proof (zlen_nonneg l). lia. Qed.

Lemma slice_at (p d s : bytes) : slice (zlen p) (zlen d) (p ++ d ++ s) = Ok d.
Proof.
  unfold slice. pose proof (zlen_nonneg p). pose proof (zlen_nonneg s). rewrite !zlen_app. zdec. cbn [andb].
  unfold zlen. rewrite !Nat2Z.id. by rewrite drop_app_length, take_app_length.
Qed.

(** ** Arrays *)

Section Array.
Import ArrayInput.
Implicit Types a : ArrayInputStream.

(** The array holds what has been read, the last buffer, what is to come, and more. *)
Definition array_reads a (n : Z) (rest last : bytes) : Prop :=
  ∃ pre post, data_ a = pre ++ last ++ rest ++ post ∧ n = zlen (pre ++ last) ∧ position_ a = n ∧ size_ a = n + zlen rest ∧
    (rest ≠ [] → 0 < block_size_ a) ∧ (0 < size_ a → 0 < block_size_ a) ∧ (last = [] ∨ last_returned_size_ a = zlen last).

Lemma array_new data block : array_reads (new_ArrayInputStream data (zlen data) block) 0 data [].
Proof.
  exists [], []. cbn. rewrite app_nil_r. pose proof (zlen_nonneg data). assert (0 < zlen data → 0 < (if 0 <? block then block else zlen data)) by (destruct (Z.ltb_spec 0 block); lia).
  split_and!; [done..| |done|by left]. intros Hr%zlen_pos. auto.
Qed.

#[export] Program Instance array_laws : InputLaws ArrayInputStream := { reads := array_reads }.
Next Obligation.
  intros a n rest last (pre & post & Ed & En & Ep & Es & Hb & Hb' & Hl). cbn [ZeroCopyInput.Next array_input]. unfold Next.
  destruct (Z.ltb_spec (position_ a) (size_ a)) as [Hlt|Hge].
  - assert (0 < block_size_ a) as Hpos by (apply Hb; intros ->; rewrite zlen_nil in Es; lia). remember (Z.min (block_size_ a) (size_ a - position_ a)) as size eqn:Ez.
    assert (Hs : 0 < size <= zlen rest) by lia. rewrite <- (take_drop (Z.to_nat size) rest) in Ed. remember (take (Z.to_nat size) rest) as data eqn:Edata.
    assert (Hd : zlen data = size) by (subst data; apply zlen_take; lia).
    assert (Esl : slice (position_ a) size (data_ a) = Ok data).
    { rewrite Ed, Ep, En, <- Hd. rewrite <- !app_assoc. rewrite (app_assoc pre). apply slice_at. }
    rewrite Esl. cbn [mbind outcome_bind]. eexists _, _. split; [done|]. exists (drop (Z.to_nat size) rest). split; [by rewrite Edata, take_drop|].
    split; [intros ->; rewrite zlen_nil in Hd; lia|]. exists (pre ++ last), post. cbn. rewrite (zlen_app (pre ++ last)), zlen_drop by lia.
    split_and!; [by rewrite Ed, <- !app_assoc|lia..|done|done|right; lia].
  - eexists _, _. split; [done|]. pose proof (zlen_nonneg rest). assert (rest = []) as -> by (apply zlen_zero; lia). split; [done|].
    exists (pre ++ last), post. cbn. rewrite app_nil_r. split_and!; [by rewrite Ed, <- app_assoc|done|lia|lia|done|done|by left].
Qed.
Next Obligation.
  intros a n rest x b (pre & post & Ed & En & Ep & Es & Hb & Hb' & Hl) Hne. cbn [ZeroCopyInput.BackUp array_input]. unfold BackUp, check.
  destruct Hl as [|Hl]; [done|]. pose proof (zlen_pos _ Hne). pose proof (zlen_nonneg x). pose proof (zlen_nonneg b). rewrite Hl. rewrite (zlen_app x b) in *. zdec. cbn [mbind outcome_bind].
  eexists. split; [done|]. exists (pre ++ x), post. cbn. rewrite app_nil_r. rewrite !zlen_app in *. pose proof (zlen_nonneg rest). pose proof (zlen_nonneg pre).
  split_and!; [by rewrite Ed, <- !app_assoc|lia..|intros _; apply Hb'; lia|done|by left].
Qed.
Next Obligation.
  intros a n rest last count (pre & post & Ed & En & Ep & Es & Hb & Hb' & Hl) Hc. cbn [ZeroCopyInput.Skip array_input]. unfold Skip, check.
  zdec. cbn [mbind outcome_bind]. destruct (Z.ltb_spec (size_ a - position_ a) count) as [Hlt|Hge].
  - eexists false, _. split; [done|]. split; [left; lia|]. exists (pre ++ last ++ rest), post. cbn. rewrite zlen_nil, app_nil_r.
    split_and!; [by rewrite Ed, <- !app_assoc|rewrite En, !zlen_app; lia|lia|lia|done|done|by left].
  - eexists true, _. split; [done|]. split; [lia|]. exists (pre ++ last ++ take (Z.to_nat count) rest), post. cbn. rewrite app_nil_r.
    assert (zlen (take (Z.to_nat count) rest) = count) by (apply zlen_take; lia). assert (zlen (drop (Z.to_nat count) rest) = zlen rest - count) by (apply zlen_drop; lia).
    split_and!; [rewrite Ed, <- !app_assoc; do 2 f_equal; by rewrite app_assoc, take_drop|rewrite En, !zlen_app; lia|lia|lia| |done|by left].
    intros Hr%zlen_pos. apply Hb. intros ->. rewrite zlen_nil in *. lia.
Qed.
Next Obligation. by intros a n rest last (pre & post & _ & _ & Ep & _). Qed.
End Array.

(** ** Over a [std::istream] *)

Section Istream.
Import CodedInput CopyingInput.
Implicit Types (st : istream) (a : ZeroCopyInput.IstreamInputStream).

(** What an [istream] has to give. *)
Definition unread st : bytes := if is_eof st then [] else is_buf st.

Lemma istream_read_spec n st : 0 <= n →
  let '(data, st') := istream_read n st in data = take (Z.to_nat n) (unread st) ∧ unread st' = drop (Z.to_nat n) (unread st).
Proof.
  intros Hn. unfold istream_read, unread. destruct (is_eof st) eqn:E; cbn; [by rewrite E, take_nil, drop_nil|]. split; [done|].
  destruct (Z.ltb_spec (zlen (is_buf st)) n); [|done]. symmetry. apply drop_ge. unfold zlen in *. lia.
Qed.

Lemma skip_reading_spec : ∀ fuel count skipped st, 0 <= skipped → count - skipped < Z.of_nat fuel → 
  ∃ st', skip_reading istream_Read fuel count skipped st = Ok (if count <=? skipped then skipped else Z.min count (skipped + zlen (unread st)), st') ∧
    unread st' = drop (Z.to_nat (count - skipped)) (unread st).
Proof.
  induction fuel as [|fuel IH]; intros count skipped st Hs Hf; cbn [skip_reading].
  - zdec. exists st. split; [done|]. by replace (Z.to_nat (count - skipped)) with 0%nat by lia.
  - destruct (Z.ltb_spec skipped count) as [Hlt|Hge]; [|zdec; exists st; split; [done|]; by replace (Z.to_nat (count - skipped)) with 0%nat by lia].
    unfold istream_Read at 1. pose proof (istream_read_spec (Z.min (count - skipped) 4096) st ltac:(lia)) as Hr.
    destruct (istream_read _ st) as [data st1]. destruct Hr as [-> Hu]. remember (Z.min (count - skipped) 4096) as n eqn:En.
    destruct (take (Z.to_nat n) (unread st)) as [|b l] eqn:Et.
    + assert (unread st = []) as Hz by (destruct (unread st); [done|]; destruct (Z.to_nat n) eqn:Ez; [lia|done]).
      exists st1. rewrite Hu, Hz, !drop_nil, zlen_nil. zdec. split; [|done]. by rewrite Z.min_r, Z.add_0_r by lia.
    + pose proof (take_drop (Z.to_nat n) (unread st)) as Etd. rewrite Et in Etd. assert (Hl : zlen (b :: l) = Z.min n (zlen (unread st))).
      { rewrite <- Et. unfold zlen. rewrite length_take. lia. }
      assert (0 < zlen (b :: l)) by by apply zlen_pos. destruct (IH count (skipped + zlen (b :: l)) st1) as (st' & E & Hu'); [lia|lia|]. exists st'. rewrite E. split.
      * rewrite Hu, (proj2 (Z.leb_gt count skipped)) by lia. do 2 f_equal. remember (zlen (b :: l)) as d. destruct (Z.leb_spec count (skipped + d)).
        -- rewrite Z.min_l; lia.
        -- assert (zlen (drop (Z.to_nat n) (unread st)) = zlen (unread st) - d) as ->; [|f_equal; lia].
           unfold zlen in *. rewrite length_drop. lia.
      * rewrite Hu', Hu, drop_drop. destruct (Z_le_gt_dec n (zlen (unread st))) as [Hle|Hgt].
        -- f_equal. lia.
        -- rewrite !drop_ge; [done|unfold zlen in *; lia..].
Qed.

Lemma istream_Skip count st : 0 <= count →
  ∃ st', copying_Skip count st = Ok (Z.min count (zlen (unread st)), st') ∧ unread st' = drop (Z.to_nat count) (unread st).
Proof.
  intros Hc. destruct (skip_reading_spec (S (Z.to_nat count)) count 0 st) as (st' & E & Hu); [lia|lia|]. exists st'. rewrite Z.sub_0_r in Hu. split; [|done].
  cbn [copying_Skip copying_istream]. unfold CopyingInputStream_Skip. rewrite E. pose proof (zlen_nonneg (unread st)). destruct (Z.leb_spec count 0); do 2 f_equal; lia.
Qed.

(** [kept] has been backed up; only then is there no last buffer. *)
Definition istream_reads a (n : Z) (rest last : bytes) : Prop :=
  ∃ pre kept : bytes, failed_ a = false ∧ 0 < buffer_size_ a ∧ backup_bytes_ a = zlen kept ∧ position_ a = n + zlen kept ∧
    rest = kept ++ unread (copying_stream_ a) ∧ (kept = [] ∨ last = []) ∧
    (last ++ kept ≠ [] → buffer_ a = Some (pre ++ last ++ kept) ∧ buffer_used_ a = zlen (pre ++ last ++ kept)).

Lemma istream_new st block : istream_reads (new_IstreamInputStream st block) 0 (unread st) [].
Proof. exists [], []. cbn. split_and!; [done|destruct (Z.ltb_spec 0 block); unfold kDefaultBlockSize; lia|done..|by left|done]. Qed.

#[export] Program Instance istream_laws : InputLaws ZeroCopyInput.IstreamInputStream := { reads := istream_reads }.
Next Obligation.
  intros a n rest last (pre & kept & Hf & Hb & Hk & Hp & -> & Hor & Hbuf). cbn [ZeroCopyInput.Next copying_input]. unfold CopyingInput.Next. rewrite Hf.
  assert (EA : AllocateBufferIfNeeded a = set_buffer (Some (default [] (buffer_ a))) (buffer_used_ a) a) by (unfold AllocateBufferIfNeeded, set_buffer; destruct a as [? ? ? [?|] ? ? ?]; done).
  rewrite EA. cbn [backup_bytes_ set_buffer buffer_size_ buffer_used_ buffer_ copying_stream_]. rewrite Hk. destruct (Z.ltb_spec 0 (zlen kept)) as [Hlt|Hge].
  - destruct Hor as [Hor| ->]; [by rewrite Hor in Hlt|]. destruct Hbuf as [Eb Eu]; [cbn; intros Hz; by rewrite Hz in Hlt|].
    rewrite Eb, Eu. cbn [default app id]. rewrite (zlen_app pre). replace (zlen pre + zlen kept - zlen kept) with (zlen pre) by lia.
    pose proof (slice_at pre kept []) as Es. rewrite app_nil_r in Es. rewrite Es. cbn [mbind outcome_bind]. eexists _, _. split; [done|]. exists (unread (copying_stream_ a)).
    split; [done|]. split; [by intros ->|]. exists pre, []. cbn. rewrite app_nil_r.
    split_and!; [done|done|done|rewrite zlen_nil; lia|done|by left|]. intros _. split; [done|]. cbn. rewrite ?zlen_app. lia.
  - pose proof (zlen_nonneg kept). assert (kept = []) as -> by (apply zlen_zero; lia). rewrite zlen_nil, Z.add_0_r in Hp. cbn [app].
    cbn [Read copying_istream]. unfold istream_Read. pose proof (istream_read_spec (buffer_size_ a) (copying_stream_ a) ltac:(lia)) as Hr.
    destruct (istream_read _ _) as [data st]. destruct Hr as [-> Hu]. pose proof (take_drop (Z.to_nat (buffer_size_ a)) (unread (copying_stream_ a))) as Etd.
    destruct (take _ _) as [|b l] eqn:Et.
    + unfold FreeBuffer, check. cbn [backup_bytes_ set_stream set_buffer]. rewrite Hk. cbn. eexists _, _. split; [done|].
      assert (unread (copying_stream_ a) = []) as Hz by (destruct (unread (copying_stream_ a)); [done|]; destruct (Z.to_nat (buffer_size_ a)) eqn:Ez; [lia|done]). split; [done|].
      exists [], []. cbn. rewrite Hu, Hz, drop_nil. split_and!; try done; try lia; by left.
    + eexists _, _. split; [done|]. exists (unread st). rewrite Hu. split; [by rewrite Etd|]. split; [done|].
      exists [], []. cbn [failed_ buffer_size_ backup_bytes_ position_ copying_stream_ buffer_ buffer_used_ set_stream set_buffer]. rewrite Hp. cbn [app]. rewrite app_nil_r.
      split_and!; [done|done|done|lia|done|by left|]. intros _. by split.
Qed.
Next Obligation.
  intros a n rest x b (pre & kept & Hf & Hb & Hk & Hp & -> & Hor & Hbuf) Hne. destruct Hor as [->|Hor]; [|done]. rewrite app_nil_r in Hbuf. destruct (Hbuf Hne) as [Eb Eu].
  cbn [ZeroCopyInput.BackUp copying_input]. unfold CopyingInput.BackUp, check. rewrite Hk, Eb, Eu, !zlen_app. pose proof (zlen_nonneg pre). pose proof (zlen_nonneg x). pose proof (zlen_nonneg b).
  cbn [Z.eqb zlen length Z.of_nat andb]. zdec. cbn [mbind outcome_bind]. eexists. split; [done|]. exists (pre ++ x), b. cbn. rewrite <- !app_assoc.
  cbn in Hp. split_and!; [done|done|done|change (zlen (A := byte) []) with 0 in Hp; lia|done|by right|]. intros _. split; [done|]. rewrite Eu. by rewrite !zlen_app.
Qed.
Next Obligation.
  intros a n rest last count (pre & kept & Hf & Hb & Hk & Hp & -> & Hor & Hbuf) Hc. cbn [ZeroCopyInput.Skip copying_input]. unfold CopyingInput.Skip, check. zdec. cbn [mbind outcome_bind].
  rewrite Hf, Hk. pose proof (zlen_nonneg (unread (copying_stream_ a))). rewrite zlen_app. destruct (Z.leb_spec count (zlen kept)) as [Hle|Hgt].
  - eexists true, _. split; [done|]. split; [lia|]. exists (pre ++ last ++ take (Z.to_nat count) kept), (drop (Z.to_nat count) kept). cbn. rewrite zlen_drop by lia.
    rewrite drop_app_le by (unfold zlen in Hle; lia). split_and!; [done|done|done|lia|done|by right|].
    intros Hne. destruct Hbuf as [Eb Eu]; [intros [_ ->]%app_eq_nil; by rewrite drop_nil in Hne|].
    rewrite <- !app_assoc, take_drop. done.
  - destruct (istream_Skip (count - zlen kept) (copying_stream_ a)) as (st' & -> & Hu); [lia|]. cbn [mbind outcome_bind]. pose proof (zlen_nonneg kept).
    destruct (Z.eqb_spec (Z.min (count - zlen kept) (zlen (unread (copying_stream_ a)))) (count - zlen kept)) as [E|E].
    + eexists true, _. split; [done|]. split; [lia|]. exists [], []. cbn. change (zlen (A := byte) []) with 0. rewrite drop_app_ge by (unfold zlen in *; lia).
      split_and!; [done|done|done|lia| |by left|done]. rewrite Hu. f_equal. unfold zlen. lia.
    + eexists false, _. split; [done|]. split; [left; lia|]. exists [], []. cbn. change (zlen (A := byte) []) with 0. split_and!; [done|done|done|lia| |by left|done].
      rewrite Hu. symmetry. apply drop_ge. unfold zlen in *. lia.
Qed.
Next Obligation. intros a n rest last (pre & kept & _ & _ & Hk & Hp & _). cbn [ZeroCopyInput.ByteCount copying_input]. unfold CopyingInput.ByteCount. lia. Qed.
End Istream.

(** ** Streams of streams *)

Section Concatenating.
Import ConcatenatingInput.
Context {I : Type} `{InputLaws I}.
Implicit Types (c : ConcatenatingInputStream I) (streams : list I) (contents : list bytes).

(** A stream nobody has read from. *)
Definition fresh (s : I) (content : bytes) : Prop := reads s 0 content [].

Definition concat_reads c (n : Z) (rest last : bytes) : Prop :=
  match streams_ c with
  | [] => n = bytes_retired_ c ∧ rest = [] ∧ last = []
  | s :: streams => ∃ m content contents, reads s m content last ∧ Forall2 fresh streams contents ∧
      n = bytes_retired_ c + m ∧ rest = content ++ concat contents
  end.

Lemma concat_fresh streams contents retired : Forall2 fresh streams contents → concat_reads (mk_Concatenating streams retired) retired (concat contents) [].
Proof. intros F. destruct F as [|s content streams contents Hs F]; [done|]. exists 0, content, contents. cbn. split_and!; [done|done|lia|done]. Qed.

Lemma next_of_spec : ∀ streams retired n rest last, concat_reads (mk_Concatenating streams retired) n rest last →
  ∃ r c, next_of streams retired = Ok (r, c) ∧
  match r with
  | Some data => ∃ rest', rest = data ++ rest' ∧ data ≠ [] ∧ concat_reads c (n + zlen data) rest' data
  | None => rest = [] ∧ concat_reads c n [] []
  end.
Proof.
  induction streams as [|s streams IH]; intros retired n rest last Hc; cbn [next_of].
  - destruct Hc as (-> & -> & _). by eexists None, _.
  - destruct Hc as (m & content & contents & Hs & F & -> & ->). cbn [bytes_retired_]. destruct (next_reads _ _ _ _ Hs) as (r & s' & -> & Hr). cbn [mbind outcome_bind]. destruct r as [data|].
    + destruct Hr as (rest & -> & Hd & Hs'). eexists (Some data), _. split; [done|]. exists (rest ++ concat contents). split; [by rewrite app_assoc|]. split; [done|].
      exists (m + zlen data), rest, contents. split_and!; [done|done|cbn; lia|done].
    + destruct Hr as (-> & Hs'). rewrite (count_reads _ _ _ _ Hs'). exact (IH _ _ _ _ (concat_fresh _ _ (retired + m) F)).
Qed.

Lemma skip_in_spec : ∀ streams retired n rest last count, concat_reads (mk_Concatenating streams retired) n rest last → 0 <= count →
  ∃ ok c, skip_in count streams retired = Ok (ok, c) ∧
  if ok : bool then count <= zlen rest ∧ concat_reads c (n + count) (drop (Z.to_nat count) rest) []
  else (zlen rest < count ∨ rest = []) ∧ concat_reads c (n + zlen rest) [] [].
Proof.
  induction streams as [|s streams IH]; intros retired n rest last count Hc Hn; cbn [skip_in].
  - destruct Hc as (-> & -> & _). eexists false, _. split; [done|]. split; [by right|]. unfold concat_reads. cbn. rewrite zlen_nil. split_and!; [lia|done..].
  - destruct Hc as (m & content & contents & Hs & F & -> & ->). cbn [bytes_retired_]. destruct (skip_reads _ _ _ _ count Hs Hn) as (ok & s' & -> & Hk). cbn [mbind outcome_bind].
    rewrite (count_reads _ _ _ _ Hs), zlen_app. pose proof (zlen_nonneg (concat contents)). destruct ok.
    + destruct Hk as [Hle Hs']. eexists true, _. split; [done|]. split; [lia|].
      exists (m + count), (drop (Z.to_nat count) content), contents. cbn. split_and!; [done|done|lia|]. by rewrite drop_app_le by (unfold zlen in Hle; lia).
    + destruct Hk as [Hk Hs']. rewrite (count_reads _ _ _ _ Hs'). assert (Hle : zlen content <= count) by (destruct Hk as [Hk| ->]; [lia|by rewrite zlen_nil]).
      replace (m + count - (m + zlen content)) with (count - zlen content) by lia.
      destruct (IH _ _ _ _ (count - zlen content) (concat_fresh _ _ (retired + (m + zlen content)) F)) as (ok & c & -> & Hi); [lia|]. exists ok, c. split; [done|]. destruct ok.
      * destruct Hi as [Hle' Hi]. split; [lia|]. rewrite drop_app_ge by (unfold zlen in *; lia).
        replace (Z.to_nat count - length content)%nat with (Z.to_nat (count - zlen content)) by (unfold zlen; lia).
        by replace (retired + m + count) with (retired + (m + zlen content) + (count - zlen content)) by lia.
      * destruct Hi as [Hi Hc]. split; [|by replace (retired + m + (zlen content + zlen (concat contents))) with (retired + (m + zlen content) + zlen (concat contents)) by lia].
        destruct Hi as [Hi|Hi]; [left; lia|]. rewrite Hi. destruct Hk as [Hk|Hk]; [left; rewrite zlen_nil; lia|right; by rewrite Hk].
Qed.

#[export] Program Instance concatenating_laws : InputLaws (ConcatenatingInputStream I) := { reads := concat_reads }.
Next Obligation. intros [streams retired] n rest last Hc. by apply next_of_spec in Hc. Qed.
Next Obligation.
  intros [[|s streams] retired] n rest x b Hc Hne; [by destruct Hc as (_ & _ & ?)|]. destruct Hc as (m & content & contents & Hs & F & -> & ->).
  cbn [ZeroCopyInput.BackUp concatenating_input]. unfold BackUp. cbn [streams_ bytes_retired_].
  destruct (back_reads _ _ _ _ _ Hs Hne) as (s' & -> & Hs'). cbn [mbind outcome_bind]. eexists. split; [done|]. exists (m - zlen b), (b ++ content), contents.
  rewrite <- app_assoc. split_and!; [done|done|cbn; lia|done].
Qed.
Next Obligation. intros [streams retired] n rest last count Hc Hn. exact (skip_in_spec _ _ _ _ _ _ Hc Hn). Qed.
Next Obligation.
  intros [[|s streams] retired] n rest last Hc; cbn [ZeroCopyInput.ByteCount concatenating_input]; unfold ByteCount; cbn.
  - by destruct Hc as (-> & _).
  - destruct Hc as (m & content & contents & Hs & F & -> & _). by rewrite (count_reads _ _ _ _ Hs).
Qed.
End Concatenating.

Section Limiting.
Import LimitingInput.
Context {I : Type} `{InputLaws I}.
(** What the stream below had to give, and its count, when the limit was set. *)
Context (all : bytes) (prior : Z).
Implicit Types (l : LimitingInputStream I).

(** [below] are the bytes behind those the limited stream has given, and [ahead] those of
    the last buffer that lie beyond the limit. *)
Definition limit_reads l (n : Z) (rest last : bytes) : Prop :=
  prior_bytes_read_ l = prior ∧ ∃ pre shown below, all = pre ++ shown ++ below ∧ n = zlen (pre ++ shown) ∧ (last = [] ∨ last = shown) ∧
    if limit_ l <? 0 then
      rest = [] ∧ ∃ ahead behind, below = ahead ++ behind ∧ zlen ahead = - limit_ l ∧ reads (input_ l) (prior + n + zlen ahead) behind (shown ++ ahead)
    else rest = take (Z.to_nat (limit_ l)) below ∧ reads (input_ l) (prior + n) below shown.

(** The end of a limited stream: the one below is where the limited one was. *)
Lemma limit_destroy l n rest last : limit_reads l n rest last →
  ∃ i last', destroy_LimitingInputStream l = Ok i ∧ reads i (prior + n) (drop (Z.to_nat n) all) last'.
Proof.
  intros (_ & pre & shown & below & Eall & En & _ & Hl). unfold destroy_LimitingInputStream.
  assert (Ed : drop (Z.to_nat n) all = below). { rewrite Eall, En, app_assoc. unfold zlen. by rewrite Nat2Z.id, drop_app_length. }
  rewrite Ed. destruct (Z.ltb_spec (limit_ l) 0) as [Hlt|Hge].
  - destruct Hl as (_ & ahead & behind & -> & Ez & Hr). destruct (back_reads _ _ _ _ _ Hr) as (i & Ei & Hi).
    { intros [_ ->]%app_eq_nil. rewrite zlen_nil in Ez. lia. }
    rewrite <- Ez, Ei. exists i, []. split; [done|]. by replace (prior + n) with (prior + n + zlen ahead - zlen ahead) by lia.
  - destruct Hl as (_ & Hr). by exists (input_ l), shown.
Qed.

Program Definition limiting_laws : InputLaws (LimitingInputStream I) := {| reads := limit_reads |}.
Next Obligation.
  intros l n rest last (Hp & pre & shown & below & Eall & En & Hor & Hl). cbn [ZeroCopyInput.Next limiting_input]. unfold Next.
  destruct (Z.leb_spec (limit_ l) 0) as [Hle|Hgt].
  - eexists None, _. split; [done|]. destruct (Z.ltb_spec (limit_ l) 0) as [Hlt|Hge].
    + destruct Hl as (-> & Hr). split; [done|]. split; [done|]. exists pre, shown, below. rewrite (proj2 (Z.ltb_lt _ _)) by lia. split_and!; try done; by left.
    + destruct Hl as (-> & Hr). assert (E0 : limit_ l = 0) by lia. rewrite E0. split; [done|]. split; [done|]. exists pre, shown, below. rewrite E0. split_and!; try done; by left.
  - rewrite (proj2 (Z.ltb_ge _ _)) in Hl by lia. destruct Hl as (-> & Hr). destruct (next_reads _ _ _ _ Hr) as (r & i & -> & Hn). cbn [mbind outcome_bind]. destruct r as [data|].
    + destruct Hn as (behind & -> & Hd & Hi). pose proof (zlen_pos _ Hd). destruct (Z.ltb_spec (limit_ l - zlen data) 0) as [Hlt|Hge].
      * eexists (Some _), _. split; [done|]. remember (Z.to_nat (zlen data + (limit_ l - zlen data))) as k eqn:Ek. assert (Hk : Z.of_nat k = limit_ l) by lia.
        exists []. rewrite app_nil_r. split; [rewrite take_app_le by (unfold zlen in *; lia); f_equal; lia|]. split.
        { intros Hz. apply (f_equal length) in Hz. rewrite length_take in Hz. unfold zlen in *. cbn in Hz. lia. }
        split; [done|]. exists (pre ++ shown), (take k data), (drop k data ++ behind).
        assert (zlen (take k data) = limit_ l) as Et by (unfold zlen in *; rewrite length_take; lia). assert (zlen (drop k data) = zlen data - limit_ l) as Ed by (unfold zlen in *; rewrite length_drop; lia).
        cbn [limit_ input_]. rewrite (proj2 (Z.ltb_lt _ _)) by lia. split; [rewrite Eall, <- !app_assoc; do 2 f_equal; by rewrite (app_assoc (take k data)), take_drop|].
        split; [rewrite (zlen_app (pre ++ shown)); lia|]. split; [by right|]. split; [done|]. exists (drop k data), behind. split; [done|]. split; [lia|].
        rewrite take_drop, Et, Ed. by replace (prior + (n + limit_ l) + (zlen data - limit_ l)) with (prior + n + zlen data) by lia.
      * eexists (Some _), _. split; [done|]. exists (take (Z.to_nat (limit_ l - zlen data)) behind). split.
        { rewrite take_app_ge by (unfold zlen in *; lia). do 2 f_equal. unfold zlen. lia. }
        split; [done|]. split; [done|]. exists (pre ++ shown), data, behind. cbn [limit_ input_]. rewrite (proj2 (Z.ltb_ge _ _)) by lia.
        split; [by rewrite Eall, <- !app_assoc|]. split; [rewrite (zlen_app (pre ++ shown)); lia|]. split; [by right|]. split; [done|].
        by replace (prior + (n + zlen data)) with (prior + n + zlen data) by lia.
    + destruct Hn as (-> & Hi). eexists None, _. split; [done|]. rewrite take_nil. split; [done|]. split; [done|]. exists (pre ++ shown), [], []. cbn [limit_ input_].
      rewrite (proj2 (Z.ltb_ge _ _)), take_nil, !app_nil_r by lia. rewrite app_nil_r in Eall. split_and!; try done; by left.
Qed.
Next Obligation.
  intros l n rest x b (Hp & pre & shown & below & Eall & En & Hor & Hl) Hne. destruct Hor as [|Hsh]; [done|]. subst shown.
  cbn [ZeroCopyInput.BackUp limiting_input]. unfold BackUp. destruct (Z.ltb_spec (limit_ l) 0) as [Hlt|Hge].
  - destruct Hl as (-> & ahead & behind & -> & Ez & Hr). rewrite <- app_assoc in Hr. destruct (back_reads _ _ _ _ _ Hr) as (i & Ei & Hi).
    { intros [-> [-> _]%app_eq_nil]%app_eq_nil. done. }
    rewrite zlen_app in Ei, Hi. replace (zlen b - limit_ l) with (zlen b + zlen ahead) by lia. rewrite Ei. cbn [mbind outcome_bind]. eexists. split; [done|]. split; [done|].
    pose proof (zlen_nonneg b). exists (pre ++ x), [], (b ++ ahead ++ behind). cbn [limit_ input_]. rewrite (proj2 (Z.ltb_ge _ _)), !app_nil_r by lia.
    split; [by rewrite Eall, <- !app_assoc|]. split; [rewrite En, !zlen_app; lia|]. split; [by left|]. split; [by rewrite take_zlen_app|].
    rewrite <- app_assoc in Hi. by replace (prior + (n - zlen b)) with (prior + n + zlen ahead - (zlen b + zlen ahead)) by lia.
  - destruct Hl as (-> & Hr). destruct (back_reads _ _ _ _ _ Hr Hne) as (i & -> & Hi). cbn [mbind outcome_bind]. eexists. split; [done|]. split; [done|].
    pose proof (zlen_nonneg b). exists (pre ++ x), [], (b ++ below). cbn [limit_ input_]. rewrite (proj2 (Z.ltb_ge _ _)), !app_nil_r by lia.
    split; [by rewrite Eall, <- !app_assoc|]. split; [rewrite En, !zlen_app; lia|]. split; [by left|]. split.
    { rewrite take_app_ge by (unfold zlen; lia). do 2 f_equal. unfold zlen. lia. }
    by replace (prior + (n - zlen b)) with (prior + n - zlen b) by lia.
Qed.
Next Obligation.
  intros l n rest last count (Hp & pre & shown & below & Eall & En & Hor & Hl) Hc. cbn [ZeroCopyInput.Skip limiting_input]. unfold Skip.
  destruct (Z.ltb_spec (limit_ l) 0) as [Hlt|Hge].
  - destruct Hl as (-> & Hr). rewrite (proj2 (Z.ltb_lt (limit_ l) count)) by lia. eexists false, _. split; [done|]. split; [by right|]. rewrite zlen_nil, Z.add_0_r. split; [done|].
    exists pre, shown, below. rewrite (proj2 (Z.ltb_lt _ _)) by lia. split_and!; try done; by left.
  - destruct Hl as (-> & Hr). pose proof (zlen_nonneg below). assert (Hafter : ∀ k, 0 <= k <= zlen below → all = (pre ++ shown ++ take (Z.to_nat k) below) ++ [] ++ drop (Z.to_nat k) below ∧
      n + k = zlen ((pre ++ shown ++ take (Z.to_nat k) below) ++ [])).
    { intros k Hk. rewrite app_nil_r, <- !app_assoc. cbn [app]. rewrite take_drop. split; [done|]. rewrite En, !zlen_app, zlen_take by lia. lia. }
    assert (Eend : drop (Z.to_nat (zlen below)) below = []) by (apply drop_ge; unfold zlen; lia).
    destruct (Z.ltb_spec (limit_ l) count) as [Hlt|Hle].
    + destruct (skip_reads _ _ _ _ (limit_ l) Hr Hge) as (ok & i & -> & Hk). cbn [mbind outcome_bind]. eexists false, _. split; [done|].
      split; [left; unfold zlen; rewrite length_take; lia|]. split; [done|]. destruct ok.
      * destruct Hk as [Hle Hi]. destruct (Hafter (limit_ l)) as [Ea Ek]; [lia|]. eexists _, _, _. split; [exact Ea|]. rewrite zlen_take by lia. split; [exact Ek|]. split; [by left|]. cbn.
        split; [done|]. by replace (prior + (n + limit_ l)) with (prior + n + limit_ l) by lia.
      * destruct Hk as [Hk Hi]. destruct (Hafter (zlen below)) as [Ea Ek]; [lia|]. eexists _, _, _. split; [exact Ea|].
        assert (take (Z.to_nat (limit_ l)) below = below) as -> by (destruct Hk as [Hk| ->]; [apply take_ge; unfold zlen in Hk; lia|by rewrite take_nil]).
        split; [exact Ek|]. split; [by left|]. cbn. rewrite Eend. split; [done|]. by replace (prior + (n + zlen below)) with (prior + n + zlen below) by lia.
    + destruct (skip_reads _ _ _ _ count Hr Hc) as (ok & i & -> & Hk). cbn [mbind outcome_bind]. destruct ok.
      * destruct Hk as [Hk Hi]. eexists true, _. split; [done|]. split; [unfold zlen in *; rewrite length_take; lia|]. split; [done|].
        destruct (Hafter count) as [Ea Ek]; [lia|]. eexists _, _, _. split; [exact Ea|]. split; [exact Ek|]. split; [by left|]. cbn. rewrite (proj2 (Z.ltb_ge _ _)) by lia.
        split; [rewrite skipn_firstn_comm; f_equal; lia|]. by replace (prior + (n + count)) with (prior + n + count) by lia.
      * destruct Hk as [Hk Hi]. destruct (Hafter (zlen below)) as [Ea Ek]; [lia|].
        assert (take (Z.to_nat (limit_ l)) below = below) as -> by (destruct Hk as [Hk| ->]; [apply take_ge; unfold zlen in Hk; lia|by rewrite take_nil]).
        eexists false, _. split; [done|]. split; [done|]. split; [done|]. eexists _, _, _. split; [exact Ea|]. split; [exact Ek|]. split; [by left|]. cbn. rewrite (proj2 (Z.ltb_ge _ _)) by lia.
        rewrite Eend, take_nil. split; [done|]. by replace (prior + (n + zlen below)) with (prior + n + zlen below) by lia.
Qed.
Next Obligation.
  intros l n rest last (Hp & pre & shown & below & Eall & En & Hor & Hl). cbn [ZeroCopyInput.ByteCount limiting_input]. unfold ByteCount. rewrite Hp.
  destruct (limit_ l <? 0).
  - destruct Hl as (-> & ahead & behind & -> & Ez & Hr). rewrite (count_reads _ _ _ _ Hr). lia.
  - destruct Hl as (-> & Hr). rewrite (count_reads _ _ _ _ Hr). lia.
Qed.
End Limiting.

(** ** Programs that read *)

Inductive demand := Take (n : Z) | Pass (n : Z).
Inductive reply := Got (data : bytes) | Passed (all : bool).

Definition demand_ok (q : demand) : Prop := match q with Take n => 0 <= n | Pass n => 0 < n end.

(** Taking [n] bytes: buffers are taken until they are there, and what is left of the last
    one is given back. *)
Fixpoint take_bytes {I} `{ZeroCopyInputStream I} (fuel : nat) (n : Z) (i : I) : outcome (bytes * I) :=
  if n <=? 0 then Ok ([], i)
  else
    match fuel with
    | 0%nat => NoFuel
    | S fuel =>
        '(r, i) ← Next i;
        match r with
        | None => Ok ([], i)
        | Some data =>
            if n <? zlen data then i ← BackUp (zlen data - n) i; Ok (take (Z.to_nat n) data, i)
            else '(rest, i) ← take_bytes fuel (n - zlen data) i; Ok (data ++ rest, i)
        end
    end.

Definition serve {I} `{ZeroCopyInputStream I} (q : demand) (i : I) : outcome (reply * I) :=
  match q with
  | Take n => '(data, i) ← take_bytes (Z.to_nat n) n i; Ok (Got data, i)
  | Pass n => '(ok, i) ← Skip n i; Ok (Passed ok, i)
  end.

Fixpoint run {I} `{ZeroCopyInputStream I} (qs : list demand) (i : I) : outcome (list reply * I) :=
  match qs with
  | [] => Ok ([], i)
  | q :: qs => '(x, i) ← serve q i; '(xs, i) ← run qs i; Ok (x :: xs, i)
  end.

(** The same on a list of bytes: the replies, and what is left. *)
Definition answer (q : demand) (data : bytes) : reply :=
  match q with Take n => Got (take (Z.to_nat n) data) | Pass n => Passed (n <=? zlen data) end.
Definition demand_size (q : demand) : Z := match q with Take n | Pass n => n end.
Fixpoint answers (qs : list demand) (data : bytes) : list reply * bytes :=
  match qs with
  | [] => ([], data)
  | q :: qs => let '(xs, left_) := answers qs (drop (Z.to_nat (demand_size q)) data) in (answer q data :: xs, left_)
  end.

Lemma take_bytes_spec {I} `{InputLaws I} : ∀ fuel n (i : I) m rest last, reads i m rest last → n <= Z.of_nat fuel → 0 <= n →
  ∃ i' last', take_bytes fuel n i = Ok (take (Z.to_nat n) rest, i') ∧
    reads i' (m + zlen (take (Z.to_nat n) rest)) (drop (Z.to_nat n) rest) last'.
Proof.
  induction fuel as [|fuel IH]; intros n i m rest last Hi Hf Hn; cbn [take_bytes].
  - assert (n = 0) as -> by lia. exists i, last. cbn. by rewrite Z.add_0_r.
  - destruct (Z.leb_spec n 0) as [Hz|Hpos]; [assert (n = 0) as -> by lia; exists i, last; cbn; by rewrite Z.add_0_r|].
    destruct (next_reads _ _ _ _ Hi) as (r & i1 & -> & Hr). cbn [mbind outcome_bind]. destruct r as [data|].
    + destruct Hr as (rest' & -> & Hd & Hi1). pose proof (zlen_pos _ Hd). destruct (Z.ltb_spec n (zlen data)) as [Hlt|Hge].
      * pose proof Hi1 as Hb. rewrite <- (take_drop (Z.to_nat n) data) in Hb at 2. destruct (back_reads _ _ _ _ _ Hb) as (i2 & E2 & Hi2); [by rewrite take_drop|].
        rewrite zlen_drop in E2, Hi2 by lia. rewrite E2. cbn [mbind outcome_bind]. exists i2, []. rewrite take_app_le, drop_app_le by (unfold zlen in *; lia).
        split; [done|]. rewrite zlen_take by lia. by replace (m + n) with (m + zlen data - (zlen data - n)) by lia.
      * destruct (IH (n - zlen data) i1 _ _ _ Hi1) as (i2 & last2 & E2 & Hi2); [lia..|]. rewrite E2. cbn [mbind outcome_bind]. exists i2, last2.
        rewrite take_app_ge, drop_app_ge by (unfold zlen in *; lia). replace (Z.to_nat n - length data)%nat with (Z.to_nat (n - zlen data)) by (unfold zlen; lia).
        split; [done|]. rewrite zlen_app. by rewrite Z.add_assoc.
    + destruct Hr as [-> Hi1]. exists i1, []. rewrite take_nil, drop_nil, zlen_nil, Z.add_0_r. by split.
Qed.

Lemma run_spec {I} `{InputLaws I} qs : Forall demand_ok qs → ∀ (i : I) m rest last, reads i m rest last →
  ∃ i' last', run qs i = Ok ((answers qs rest).1, i') ∧ reads i' (m + (zlen rest - zlen (answers qs rest).2)) (answers qs rest).2 last'.
Proof.
  induction 1 as [|q qs Hq _ IH]; intros i m rest last Hi; cbn [run answers]; [exists i, last; cbn; by rewrite Z.sub_diag, Z.add_0_r|].
  assert (Hs : ∃ i1 last1, serve q i = Ok (answer q rest, i1) ∧
    reads i1 (m + zlen (take (Z.to_nat (demand_size q)) rest)) (drop (Z.to_nat (demand_size q)) rest) last1).
  { destruct q as [n|n]; cbn [serve answer demand_size] in *.
    - destruct (take_bytes_spec (Z.to_nat n) n i m rest last Hi) as (i1 & last1 & -> & Hi1); [cbn in Hq; lia|done|]. by exists i1, last1.
    - cbn in Hq. destruct (skip_reads _ _ _ _ n Hi) as (ok & i1 & -> & Hk); [lia|]. cbn [mbind outcome_bind]. exists i1, []. destruct ok.
      + destruct Hk as [Hle Hi1]. zdec. by rewrite zlen_take by lia.
      + destruct Hk as [Hk Hi1]. assert (zlen rest < n) by (destruct Hk as [Hk| ->]; [done|rewrite zlen_nil; lia]). zdec.
        rewrite take_ge, drop_ge by (unfold zlen in *; lia). done. }
  destruct Hs as (i1 & last1 & -> & Hi1). cbn [mbind outcome_bind]. destruct (IH _ _ _ _ Hi1) as (i2 & last2 & -> & Hi2).
  destruct (answers qs _) as [xs left_] eqn:Ea. cbn [mbind outcome_bind fst snd] in *. exists i2, last2. split; [done|].
  assert (zlen rest = zlen (take (Z.to_nat (demand_size q)) rest) + zlen (drop (Z.to_nat (demand_size q)) rest)) as E by (rewrite <- zlen_app; by rewrite take_drop).
  by replace (m + (zlen rest - zlen left_)) with (m + zlen (take (Z.to_nat (demand_size q)) rest) + (zlen (drop (Z.to_nat (demand_size q)) rest) - zlen left_)) by lia.
Qed.


