(* ===== verification/Messages.v ===== *)
(** Messages behind a [protobuf::Message] pointer: the generated pool of
    BaseCmd.proto, [createMessage] of src/Shared/code/utility/MessageRoute.cpp, and
    the virtual calls the router makes on a message of any type, with their laws
    lifted from the ten generated classes. *)

From S2P Require Import Prelude CodedStream Utf8 WireFormat WireFormatFacts BaseCmd BaseCmdFacts.
Import CodedOutput CodedInput WireFormatLite WireFormat MessageLite.

(** A message object of one of the generated classes. *)
Inductive AnyMessage :=
  | Any_CmdType (m : CmdType)
  | Any_notifyConnectionStatus (m : notifyConnectionStatus)
  | Any_sUser_ePhoneNumber (m : sUser_ePhoneNumber)
  | Any_sUser (m : sUser)
  | Any_reqSignin (m : reqSignin)
  | Any_rspSignin (m : rspSignin)
  | Any_reqMove (m : reqMove)
  | Any_rspMove (m : rspMove)
  | Any_reqAlarm (m : reqAlarm)
  | Any_rspAlarm (m : rspAlarm).

(** [GetTypeName()]: the full name in the descriptor. *)
Definition GetTypeName (x : AnyMessage) : bytes :=
  match x with
  | Any_CmdType _ => bs "BaseCmd.CmdType"
  | Any_notifyConnectionStatus _ => bs "BaseCmd.notifyConnectionStatus"
  | Any_sUser_ePhoneNumber _ => bs "BaseCmd.sUser.ePhoneNumber"
  | Any_sUser _ => bs "BaseCmd.sUser"
  | Any_reqSignin _ => bs "BaseCmd.reqSignin"
  | Any_rspSignin _ => bs "BaseCmd.rspSignin"
  | Any_reqMove _ => bs "BaseCmd.reqMove"
  | Any_rspMove _ => bs "BaseCmd.rspMove"
  | Any_reqAlarm _ => bs "BaseCmd.reqAlarm"
  | Any_rspAlarm _ => bs "BaseCmd.rspAlarm"
  end.

(** Virtual dispatch to the class of the object. *)
Definition with_class {A} (x : AnyMessage)
    (f : ∀ (M : Type) (HM : Message M) (HL : MessageLaws M), (M → AnyMessage) → M → A) : A :=
  match x with
  | Any_CmdType m => f CmdType _ _ Any_CmdType m
  | Any_notifyConnectionStatus m => f notifyConnectionStatus _ _ Any_notifyConnectionStatus m
  | Any_sUser_ePhoneNumber m => f sUser_ePhoneNumber _ _ Any_sUser_ePhoneNumber m
  | Any_sUser m => f sUser _ _ Any_sUser m
  | Any_reqSignin m => f reqSignin _ _ Any_reqSignin m
  | Any_rspSignin m => f rspSignin _ _ Any_rspSignin m
  | Any_reqMove m => f reqMove _ _ Any_reqMove m
  | Any_rspMove m => f rspMove _ _ Any_rspMove m
  | Any_reqAlarm m => f reqAlarm _ _ Any_reqAlarm m
  | Any_rspAlarm m => f rspAlarm _ _ Any_rspAlarm m
  end.

Definition any_ByteSize (x : AnyMessage) : Z := with_class x (λ M _ _ _ m, ByteSize m).

Definition any_SerializeToCodedStream (x : AnyMessage) (o : CodedOutputStream)
  : bool * CodedOutputStream := with_class x (λ M _ _ _ m, SerializeToCodedStream m o).

Definition any_ParseFromArray (data : bytes) (x : AnyMessage) : option (bool * AnyMessage) :=
  with_class x (λ M _ _ inj m, '(ok, m) ← ParseFromArray data m; Some (ok, inj m)).

(** What the pool can produce: a message of BaseCmd.proto, or of another file
    linked into the program (descriptor.proto and the like), which no processor
    of this program looks at. *)
Inductive PoolMessage :=
  | Known (x : AnyMessage)
  | Foreign (type_name : bytes).

(** The prototypes registered by the generated file, by name. *)
Definition generated_pool : list (bytes * AnyMessage) :=
  [
   (bs "BaseCmd.CmdType", Any_CmdType CmdType_New);
   (bs "BaseCmd.notifyConnectionStatus", Any_notifyConnectionStatus notifyConnectionStatus_New);
   (bs "BaseCmd.sUser.ePhoneNumber", Any_sUser_ePhoneNumber sUser_ePhoneNumber_New);
   (bs "BaseCmd.sUser", Any_sUser sUser_New);
   (bs "BaseCmd.reqSignin", Any_reqSignin reqSignin_New);
   (bs "BaseCmd.rspSignin", Any_rspSignin rspSignin_New);
   (bs "BaseCmd.reqMove", Any_reqMove reqMove_New);
   (bs "BaseCmd.rspMove", Any_rspMove rspMove_New);
   (bs "BaseCmd.reqAlarm", Any_reqAlarm reqAlarm_New);
   (bs "BaseCmd.rspAlarm", Any_rspAlarm rspAlarm_New)].

Fixpoint find_prototype (type_name : bytes) (pool : list (bytes * AnyMessage)) : option AnyMessage :=
  match pool with
  | [] => None
  | (n, x) :: pool => if decide (n = type_name) then Some x else find_prototype type_name pool
  end.

(** [FindMessageTypeByName] on the generated pool, then [GetPrototype]->[New()].
    [linked] says which other type names the program is linked with. *)
Definition createMessage (linked : bytes → bool) (type_name : bytes) : option PoolMessage :=
  match find_prototype type_name generated_pool with
  | Some x => Some (Known x)
  | None => if linked type_name then Some (Foreign type_name) else None
  end.

Definition pool_ParseFromArray (data : bytes) (p : PoolMessage) : option (bool * PoolMessage) :=
  match p with
  | Known x => '(ok, x) ← any_ParseFromArray data x; Some (ok, Known x)
  | Foreign n => Some (true, Foreign n)
  end.

(** ** Laws *)

(** The array serialization, as the reference encoding of a message. *)
Definition any_encode (x : AnyMessage) : bytes :=
  with_class x (λ M _ _ _ m, InternalSerializeWithCachedSizesToArray m).

Definition any_typed (x : AnyMessage) : Prop := with_class x (λ M _ _ _ m, message_typed m).
Definition any_ok (budget : Z) (x : AnyMessage) : Prop :=
  with_class x (λ M _ _ _ m, message_ok budget m).

Lemma any_ok_typed b x : any_ok b x → any_typed x.
Proof. destruct x; apply law_typed. Qed.

Lemma any_ByteSize_length x :
  any_typed x → zlen (any_encode x) <= INT_MAX → any_ByteSize x = zlen (any_encode x).
Proof.
  intros Ht Hl. pose proof (zlen_nonneg (any_encode x)).
  assert (any_ByteSize x = s32 (u32 (zlen (any_encode x)))) as ->.
  { destruct x; unfold any_ByteSize, ByteSize; cbn [with_class]; f_equal; by apply law_size. }
  rewrite s32_u32, s32_small by (znorm; lia). done.
Qed.

Lemma any_Serialize_emits x : any_typed x → zlen (any_encode x) <= INT_MAX →
  emits (λ o, snd (any_SerializeToCodedStream x o)) (any_encode x).
Proof.
  intros Ht Hl o Ho. destruct x; cbn [any_SerializeToCodedStream with_class];
    (edestruct @SerializeToCodedStream_emits as (o' & E & Hb & Hw);
     [exact Ht|exact Hl|exact Ho|]); unfold any_SerializeToCodedStream; cbn [with_class];
    rewrite E; done.
Qed.

Lemma any_Parse_total data x : zlen data < INT_MAX →
  ∃ ok x', any_ParseFromArray data x = Some (ok, x') ∧ GetTypeName x' = GetTypeName x.
Proof.
  intros Hd. destruct x as [m|m|m|m|m|m|m|m|m|m]; unfold any_ParseFromArray; cbn [with_class];
    destruct (ParseFromArray_total data m Hd) as (ok & m' & ->); by eexists _, _.
Qed.

Lemma any_Parse_roundtrip x y :
  any_ok default_recursion_limit_ x → zlen (any_encode x) < INT_MAX → GetTypeName y = GetTypeName x →
  any_ParseFromArray (any_encode x) y = Some (true, x).
Proof.
  intros Hx Hl Hn. destruct x as [m|m|m|m|m|m|m|m|m|m], y as [m'|m'|m'|m'|m'|m'|m'|m'|m'|m'];
    try discriminate Hn; unfold any_ParseFromArray; cbn [with_class];
    change (any_encode _) with (InternalSerializeWithCachedSizesToArray m);
    by rewrite (ParseFromArray_roundtrip m m').
Qed.

(** A type name leads back to a fresh object of the class. *)
Lemma createMessage_known linked x :
  ∃ y, createMessage linked (GetTypeName x) = Some (Known y) ∧ GetTypeName y = GetTypeName x.
Proof. destruct x; unfold createMessage; by eexists. Qed.

Lemma find_prototype_name n x : find_prototype n generated_pool = Some x → GetTypeName x = n.
Proof.
  unfold generated_pool. cbn [find_prototype].
  repeat (case_decide; [intros; by simplify_eq|]). done.
Qed.

(** ** Copying *)

(** Merging into a fresh message, which is how [CopyFrom] and repeated fields
    copy, is the identity on every message without a [-0.0]. *)

Lemma RepeatedMergeFrom_id `{Message M} (l : list M) :
  (∀ x, MergeFrom New x = x) → RepeatedMergeFrom [] l = l.
Proof.
  intros Hid. unfold RepeatedMergeFrom. cbn [app]. induction l as [|x l IH]; [done|].
  cbn [map]. by rewrite Hid, IH.
Qed.

(** Case analysis on every field that a merge tests. *)
Ltac merge_cases := repeat case_match; zbool; try reflexivity.

Lemma CmdType_MergeFrom_New from : CmdType_MergeFrom CmdType_New from = from.
Proof. by destruct from as [[|ctype type] [|?|?] [|cfromip fromip] [|ctoip toip] uf]. Qed.

Lemma notifyConnectionStatus_MergeFrom_New from : notifyConnectionStatus_MergeFrom notifyConnectionStatus_New from = from.
Proof. by destruct from as [[|?|?] uf]. Qed.

Lemma sUser_ePhoneNumber_MergeFrom_New from : sUser_ePhoneNumber_MergeFrom sUser_ePhoneNumber_New from = from.
Proof. by destruct from as [[|cnumber number] [|?|?] uf]. Qed.

Lemma sUser_MergeFrom_New from : sUser_MergeFrom sUser_New from = from.
Proof.
  assert (Hid : ∀ l : list sUser_ePhoneNumber, RepeatedMergeFrom [] l = l).
  { intros l. apply RepeatedMergeFrom_id. exact sUser_ePhoneNumber_MergeFrom_New. }
  unfold sUser_MergeFrom. destruct from as [[|cname name] [|?|?] [|cemail email] phones uf];
    cbn -[RepeatedMergeFrom]; by rewrite Hid.
Qed.

Lemma reqSignin_MergeFrom_New from : reqSignin_MergeFrom reqSignin_New from = from.
Proof.
  assert (Hid : ∀ l : list sUser, RepeatedMergeFrom [] l = l).
  { intros l. apply RepeatedMergeFrom_id. exact sUser_MergeFrom_New. }
  unfold reqSignin_MergeFrom. destruct from as [user uf];
    cbn -[RepeatedMergeFrom]; by rewrite Hid.
Qed.

Lemma rspSignin_MergeFrom_New from : rspSignin_MergeFrom rspSignin_New from = from.
Proof. by destruct from as [[|cname name] [] uf]. Qed.

Lemma reqMove_MergeFrom_New from : float_ok (reqMove_forward from) → float_ok (reqMove_angle from) → reqMove_MergeFrom reqMove_New from = from.
Proof.
  intros Hf Ha. unfold reqMove_MergeFrom. destruct from as [forward angle uf]. cbn in *.
  destruct (float_nonzero forward) eqn:Ef; destruct (float_nonzero angle) eqn:Ea;
    rewrite ?(proj2 Hf Ef), ?(proj2 Ha Ea); reflexivity.
Qed.

Lemma rspMove_MergeFrom_New from : rspMove_MergeFrom rspMove_New from = from.
Proof. by destruct from as [[|cerror error] uf]. Qed.

Lemma reqAlarm_MergeFrom_New from : reqAlarm_MergeFrom reqAlarm_New from = from.
Proof. by destruct from as [[|cinfomessage infomessage] uf]. Qed.

Lemma rspAlarm_MergeFrom_New from : rspAlarm_MergeFrom rspAlarm_New from = from.
Proof. by destruct from as [[|cerror error] uf]. Qed.

(** [CopyFrom] through a [protobuf::Message], for objects of one class. *)
Definition any_CopyFrom (x from : AnyMessage) : option AnyMessage :=
  match x, from with
  | Any_CmdType a, Any_CmdType b => Some (Any_CmdType (CmdType_CopyFrom a b))
  | Any_notifyConnectionStatus a, Any_notifyConnectionStatus b =>
      Some (Any_notifyConnectionStatus (notifyConnectionStatus_CopyFrom a b))
  | Any_sUser_ePhoneNumber a, Any_sUser_ePhoneNumber b =>
      Some (Any_sUser_ePhoneNumber (sUser_ePhoneNumber_CopyFrom a b))
  | Any_sUser a, Any_sUser b => Some (Any_sUser (sUser_CopyFrom a b))
  | Any_reqSignin a, Any_reqSignin b => Some (Any_reqSignin (reqSignin_CopyFrom a b))
  | Any_rspSignin a, Any_rspSignin b => Some (Any_rspSignin (rspSignin_CopyFrom a b))
  | Any_reqMove a, Any_reqMove b => Some (Any_reqMove (reqMove_CopyFrom a b))
  | Any_rspMove a, Any_rspMove b => Some (Any_rspMove (rspMove_CopyFrom a b))
  | Any_reqAlarm a, Any_reqAlarm b => Some (Any_reqAlarm (reqAlarm_CopyFrom a b))
  | Any_rspAlarm a, Any_rspAlarm b => Some (Any_rspAlarm (rspAlarm_CopyFrom a b))
  | _, _ => None
  end.

(** ** What the messages promise *)

Definition sample_user : sUser :=
  mk_sUser (bs "ann") (-7) (bs "a@b") [mk_sUser_ePhoneNumber (bs "555") 2 []] [].

Definition sample_signin : AnyMessage := Any_reqSignin (mk_reqSignin [sample_user] []).

Lemma sample_signin_ok : any_ok default_recursion_limit_ sample_signin.
Proof.
  repeat constructor; vm_compute; try done; intros; by try discriminate.
Qed.



(** C25: serializing any BaseCmd message to a stream appends exactly the bytes of
    the array serializer, wherever the stream's block boundaries fall and however
    nested messages are split between the direct and the streaming path, and
    [ByteSize] is their number. *)
Theorem message_serialization x o :
  any_typed x → zlen (any_encode x) <= INT_MAX → 0 <= buffer_size_ o →
  written (snd (any_SerializeToCodedStream x o)) = written o ++ any_encode x ∧
  any_ByteSize x = zlen (any_encode x).
Proof.
  intros Ht Hl Ho. split; [by apply any_Serialize_emits|by apply any_ByteSize_length].
Qed.

Lemma message_serialization_witness :
  written (snd (any_SerializeToCodedStream sample_signin (COS [] 5))) = any_encode sample_signin ∧
  any_ByteSize sample_signin = zlen (any_encode sample_signin).
Proof.
  apply (message_serialization sample_signin (COS [] 5));
    [apply (any_ok_typed _ _ sample_signin_ok)|vm_compute; intros H; discriminate H|].
  vm_compute. intros H. discriminate H.
Defined.

(** C26: a message parser always returns: on arbitrary bytes below 2 GiB (nested
    groups, overlong lengths, truncated fields, unknown wire types) every
    generated parser terminates with a verdict and an object of its own class. *)
Theorem message_parser_total data x :
  zlen data < INT_MAX →
  ∃ ok x', any_ParseFromArray data x = Some (ok, x') ∧ GetTypeName x' = GetTypeName x.
Proof. apply any_Parse_total. Qed.

Lemma message_parser_total_witness :
  ∃ ok x', any_ParseFromArray [Byte.x0b; Byte.x0b; Byte.xff] (Any_reqMove reqMove_New) = Some (ok, x') ∧
    GetTypeName x' = bs "BaseCmd.reqMove".
Proof. apply (message_parser_total [Byte.x0b; Byte.x0b; Byte.xff] (Any_reqMove reqMove_New)). reflexivity. Defined.

(** [CopyFrom] makes the target equal to the source, whatever the target held,
    for every class, as long as no float field holds [-0.0]. *)
Theorem message_copy b x y :
  any_ok b x → GetTypeName y = GetTypeName x → any_CopyFrom y x = Some x.
Proof.
  intros Hx Hn. destruct x as [m|m|m|m|m|m|m|m|m|m], y as [m'|m'|m'|m'|m'|m'|m'|m'|m'|m'];
    try discriminate Hn; cbn [any_CopyFrom]; do 2 f_equal.
  - apply CmdType_MergeFrom_New.
  - apply notifyConnectionStatus_MergeFrom_New.
  - apply sUser_ePhoneNumber_MergeFrom_New.
  - apply sUser_MergeFrom_New.
  - apply reqSignin_MergeFrom_New.
  - apply rspSignin_MergeFrom_New.
  - destruct Hx as (Hf & Ha & _). by apply reqMove_MergeFrom_New.
  - apply rspMove_MergeFrom_New.
  - apply reqAlarm_MergeFrom_New.
  - apply rspAlarm_MergeFrom_New.
Qed.

Lemma message_copy_witness :
  any_CopyFrom (Any_reqSignin reqSignin_New) sample_signin = Some sample_signin.
Proof.
  apply (message_copy default_recursion_limit_ sample_signin (Any_reqSignin reqSignin_New));
    [apply sample_signin_ok|reflexivity].
Defined.

(** A [reqMove] with a component [-0.0] does not survive: the copy
    constructor keeps the sign, but neither the serializer nor [CopyFrom] carries
    it, because they test [forward() != 0]. *)
Theorem negative_zero_lost :
  let m := mk_reqMove 0x80000000 0 [] in
  reqMove_copy m = m ∧
  any_encode (Any_reqMove m) = [] ∧
  reqMove_CopyFrom reqMove_New m = reqMove_New ∧ reqMove_New ≠ m.
Proof. by vm_compute. Qed.
