(* ===== verification/MessageRoute.v ===== *)
(** The message router (src/Shared/code/utility: MessageRoute.{h,cpp},
    BaseMessageDispatcher.{h,cpp}, BaseProcessor.h): framing of outgoing
    messages, reassembly of the incoming byte stream, parsing and dispatch.

    The route's fields are a record; an [asio::streambuf] is the list of its
    unread bytes.  [ProcessRecv] is translated with the streams it opens on the
    receive buffer, so that what it consumes on every branch is what the code
    consumes.  The mutexes serialise whole calls, so a call is one step. *)

From S2P Require Import Prelude CodedStream WireFormat BaseCmd Messages.
Import CodedOutput CodedInput MessageLite.

Definition TEMP_BUFFER_SIZE : Z := 1024.

(** [char head[] = { "pbh" }; int hlen = 4;]. *)
Definition head : bytes := bs "pbh" ++ [Byte.x00].

Record MessageRoute := mk_route {
  mPreRecivesTotalLen : Z;
  mDataStreamReceive : bytes;
  mDataStreamSend : bytes;
  mTempBuffer : bytes;
  mTempBufferProcess : bytes;
  totalSend : Z;
  totalSend2 : Z
}.

Definition set_pre (v : Z) (r : MessageRoute) : MessageRoute :=
  mk_route v (mDataStreamReceive r) (mDataStreamSend r) (mTempBuffer r) (mTempBufferProcess r)
    (totalSend r) (totalSend2 r).
Definition set_receive (v : bytes) (r : MessageRoute) : MessageRoute :=
  mk_route (mPreRecivesTotalLen r) v (mDataStreamSend r) (mTempBuffer r) (mTempBufferProcess r)
    (totalSend r) (totalSend2 r).
Definition set_send (v : bytes) (r : MessageRoute) : MessageRoute :=
  mk_route (mPreRecivesTotalLen r) (mDataStreamReceive r) v (mTempBuffer r) (mTempBufferProcess r)
    (totalSend r) (totalSend2 r).
Definition set_temp (v : bytes) (r : MessageRoute) : MessageRoute :=
  mk_route (mPreRecivesTotalLen r) (mDataStreamReceive r) (mDataStreamSend r) v (mTempBufferProcess r)
    (totalSend r) (totalSend2 r).
Definition set_temp_process (v : bytes) (r : MessageRoute) : MessageRoute :=
  mk_route (mPreRecivesTotalLen r) (mDataStreamReceive r) (mDataStreamSend r) (mTempBuffer r) v
    (totalSend r) (totalSend2 r).
Definition set_totalSend (v : Z) (r : MessageRoute) : MessageRoute :=
  mk_route (mPreRecivesTotalLen r) (mDataStreamReceive r) (mDataStreamSend r) (mTempBuffer r)
    (mTempBufferProcess r) v (totalSend2 r).

(** The constructor sets the two counters; [mPreRecivesTotalLen] and the two
    [char] arrays keep whatever the memory held. *)
Definition new_MessageRoute (garbage_len : Z) (garbage1 garbage2 : bytes) : MessageRoute :=
  mk_route garbage_len [] [] garbage1 garbage2 0 0.

(** [memcpy] of [chunk] to the front of an array. *)
Definition store (chunk old : bytes) : bytes := chunk ++ drop (length chunk) old.

(** *** Receive *)

(** The loop [while (buf.size() > 0)]: at most [TEMP_BUFFER_SIZE] bytes a round,
    so a round per byte is enough. *)
Fixpoint receive_loop (fuel : nat) (buf temp : bytes) (cos : CodedOutputStream)
  : bytes * bytes * CodedOutputStream :=
  match fuel with
  | O => (buf, temp, cos)
  | S fuel =>
      if 0 <? zlen buf then
        let readSize := Z.min (zlen buf) TEMP_BUFFER_SIZE in
        let chunk := take (Z.to_nat readSize) buf in
        receive_loop fuel (drop (Z.to_nat readSize) buf) (store chunk temp) (WriteRaw chunk cos)
      else (buf, temp, cos)
  end.

(** What is left of [buf], and the route with the bytes flushed into its stream. *)
Definition Receive (buf : bytes) (r : MessageRoute) : bytes * MessageRoute :=
  let '(buf, temp, cos) :=
    receive_loop (length buf) buf (mTempBuffer r) (mk_CodedOutputStream (mDataStreamReceive r)) in
  (buf, set_receive (written cos) (set_temp temp r)).

(** *** Send *)

(** The head that announces a body of type [stype] and size [bodylen]. *)
Definition cmd_head (stype : bytes) (bodylen : Z) : CmdType :=
  set_CmdType_size (set_CmdType_type CmdType_New stype) bodylen.

Definition Send (msg : AnyMessage) (r : MessageRoute) : bool * MessageRoute :=
  let stype := GetTypeName msg in
  let bodylen := any_ByteSize msg in
  let cmdType := cmd_head stype bodylen in
  let headlen := ByteSize cmdType in
  let totallen := s32 (8 + headlen + bodylen) in
  let cos := mk_CodedOutputStream (mDataStreamSend r) in
  let cos := WriteRaw head cos in
  let cos := WriteLittleEndian32 (u32 totallen) cos in
  let cos := WriteLittleEndian32 (u32 headlen) cos in
  let '(_, cos) := SerializeToCodedStream cmdType cos in
  let '(_, cos) := any_SerializeToCodedStream msg cos in
  let r := set_send (written cos) r in
  (true, set_totalSend (u32 (totalSend r + u32 (totallen + 4))) r).

(** *** Dispatch *)

Section Recv.
(** [W] is what processors touch besides the route: console, robot, application. *)
Context {W : Type}.

(** A processor: what it does with a message, given the route to answer on. *)
Record BaseProcessor := { Process : W → MessageRoute → PoolMessage → outcome (W * MessageRoute) }.

Definition ProcessorMap := gmap bytes BaseProcessor.

(** [BaseMessageDispatcher::Dispatch]: messages without a processor are dropped. *)
Definition Dispatch (m_ProcessorMap : ProcessorMap) (w : W) (r : MessageRoute) (typeName : bytes)
    (msg : PoolMessage) : outcome (W * MessageRoute) :=
  match m_ProcessorMap !! typeName with
  | Some p => Process p w r msg
  | None => Ok (w, r)
  end.

(** *** ProcessRecv *)

Context (linked : bytes → bool) (dispatcher : option ProcessorMap).

(** The [std::istream] below a [CodedInputStream]; what the stream on top has
    buffered but not delivered is gone with it. *)
Definition istream_of (s : CodedInputStream) : istream :=
  match input_ s with Some a => ad_stream a | None => Istream [] true end.

(** [if (m_spMessageDispatcher) m_spMessageDispatcher->Dispatch(...)]. *)
Definition try_dispatch (w : W) (r : MessageRoute) (typeName : bytes) (msg : PoolMessage)
  : outcome (W * MessageRoute) :=
  match dispatcher with
  | Some d => Dispatch d w r typeName msg
  | None => Ok (w, r)
  end.

(** From [IstreamInputStream iis(&ishold, totalLen - sizeof(int))] on. *)
Definition process_frame (totalLen : Z) (ishold : istream) (w : W) (r : MessageRoute)
  : outcome (bool * W * MessageRoute) :=
  let cis := of_stream (mk_IstreamInputStream ishold (s32 (u32 (totalLen - 4)))) in
  let '(v, cis) := ReadLittleEndian32 cis in
  let headLen := default 0 v in
  if TEMP_BUFFER_SIZE <? headLen then
    Ok (false, w, set_pre 0 (set_receive (is_buf (istream_of cis)) r))
  else
  let '(_, chunk, cis) := ReadRaw headLen cis in
  let r := set_temp_process (store chunk (mTempBufferProcess r)) r in
  match ParseFromArray (take (Z.to_nat headLen) (mTempBufferProcess r)) CmdType_New with
  | None => NoFuel
  | Some (_, cmdType) =>
      let bodyLen := s32 (u32 (totalLen - headLen - 8)) in
      if (bodyLen <? 0) || (TEMP_BUFFER_SIZE <? bodyLen) then
        Ok (false, w, set_pre 0 (set_receive (is_buf (istream_of cis)) r))
      else
      let '(_, chunk, cis) := ReadRaw bodyLen cis in
      let r := set_temp_process (store chunk (mTempBufferProcess r)) r in
      let r := set_receive (is_buf (istream_of cis)) r in
      match createMessage linked (CmdType_type cmdType) with
      | None => Ok (true, w, set_pre 0 r)
      | Some spmsg =>
          match pool_ParseFromArray (take (Z.to_nat bodyLen) (mTempBufferProcess r)) spmsg with
          | None => NoFuel
          | Some (_, spmsg) =>
              '(w, r) ← try_dispatch w r (CmdType_type cmdType) spmsg;
              Ok (true, w, set_pre 0 r)
          end
      end
  end.

Definition ProcessRecv (w : W) (r : MessageRoute) : outcome (bool * W * MessageRoute) :=
  let ishold := Istream (mDataStreamReceive r) false in
  let preTotalLen := mPreRecivesTotalLen r in
  if zlen (mDataStreamReceive r) <? 8 then Ok (false, w, r)
  else if 0 <? preTotalLen then
    let totalLen := u32 preTotalLen in
    if zlen (mDataStreamReceive r) <? u32 (totalLen - 4) then Ok (false, w, r)
    else process_frame totalLen ishold w r
  else
    let cishead := of_stream (mk_IstreamInputStream ishold 4) in
    let '(_, chunk, cishead) := ReadRaw 4 cishead in
    let readhead := store chunk (repeat Byte.x00 4) in
    let ishold := istream_of cishead in
    if decide (head ≠ readhead) then
      Ok (false, w, set_pre 0 (set_receive (is_buf ishold) r))
    else
      let cistotal := of_stream (mk_IstreamInputStream ishold 4) in
      let '(v, cistotal) := ReadLittleEndian32 cistotal in
      let totalLen := default 0 v in
      let ishold := istream_of cistotal in
      if zlen (is_buf ishold) <? u32 (totalLen - 4) then
        Ok (false, w, set_pre (s32 totalLen) (set_receive (is_buf ishold) r))
      else process_frame totalLen ishold w r.

(** [ProcessSend]: [m_fSendFunc] is the connection's, see TcpServer and TcpClient. *)
Definition ProcessSend (m_fSendFunc : W → MessageRoute → W * MessageRoute) (w : W) (r : MessageRoute)
  : bool * W * MessageRoute :=
  if zlen (mDataStreamSend r) =? 0 then (false, w, r)
  else let '(w, r) := m_fSendFunc w r in (true, w, r).

(** [MessageRoute::Process]. *)
Definition Process_route (m_fSendFunc : W → MessageRoute → W * MessageRoute) (w : W) (r : MessageRoute)
  : outcome (W * MessageRoute) :=
  '(_, w, r) ← ProcessRecv w r;
  let '(_, w, r) := ProcessSend m_fSendFunc w r in
  Ok (w, r).

End Recv.

Arguments BaseProcessor : clear implicits.
Arguments ProcessorMap : clear implicits.
