(* ===== verification/MessageRouteFacts.v ===== *)
(** The router delivers what was sent: the frame [Send] writes, the reassembly
    of frames from a byte stream cut anywhere, exactly-once in-order dispatch,
    what happens to frames that are too long, corrupt or of unknown type, and
    the states the receiver cannot leave. *)

From S2P Require Import Prelude CodedStream Utf8 WireFormat WireFormatFacts BaseCmd BaseCmdFacts.
From S2P Require Import Messages MessageRoute.
Import CodedOutput CodedInput WireFormatLite WireFormat MessageLite.

(** ** Receive *)

Lemma receive_loop_spec fuel buf temp cos :
  (length buf <= fuel)%nat → 0 <= buffer_size_ cos →
  ∃ temp' cos', receive_loop fuel buf temp cos = ([], temp', cos') ∧
    written cos' = written cos ++ buf.
Proof.
  revert buf temp cos. induction fuel as [|fuel IH]; intros buf temp cos Hf Hc; cbn [receive_loop].
  - destruct buf; [|simpl in Hf; lia]. rewrite app_nil_r. by eexists _, _.
  - destruct (0 <? zlen buf) eqn:E; zbool.
    + set (n := Z.to_nat _). assert (Hn : (1 <= n <= length buf)%nat).
      { subst n. unfold TEMP_BUFFER_SIZE, zlen in *. lia. }
      destruct (WriteRaw_emits (take n buf) cos Hc) as [Hb Hw].
      destruct (IH (drop n buf) (store (take n buf) temp) (WriteRaw (take n buf) cos))
        as (temp' & cos' & -> & E'); [rewrite length_drop; lia|done|].
      eexists _, _. split; [done|]. by rewrite E', Hw, <- app_assoc, take_drop.
    + apply zlen_zero in E as ->. rewrite app_nil_r. by eexists _, _.
Qed.

(** [Receive] empties its argument and appends it to the receive stream. *)
Lemma Receive_spec buf r :
  ∃ temp, Receive buf r = ([], set_receive (mDataStreamReceive r ++ buf) (set_temp temp r)).
Proof.
  unfold Receive. destruct (receive_loop_spec (length buf) buf (mTempBuffer r)
    (mk_CodedOutputStream (mDataStreamReceive r))) as (temp & cos & -> & ->); [done|done|].
  by exists temp.
Qed.

(** ** The frame *)

(** The head's encoding, and the frame of Doc/PackgeStructure.md: magic, total
    length (counted from its own field), head length, head, body. *)
Definition head_bytes (x : AnyMessage) : bytes :=
  CmdType_InternalSerializeWithCachedSizesToArray (cmd_head (GetTypeName x) (zlen (any_encode x))).

Definition total_length (x : AnyMessage) : Z := 8 + zlen (head_bytes x) + zlen (any_encode x).

(** What follows the length field. *)
Definition frame_tail (x : AnyMessage) : bytes :=
  WriteLittleEndian32ToArray (zlen (head_bytes x)) ++ head_bytes x ++ any_encode x.

Definition frame (x : AnyMessage) : bytes :=
  head ++ WriteLittleEndian32ToArray (total_length x) ++ frame_tail x.

(** Messages the receiver accepts: well-formed, with a body within its buffer. *)
Definition sendable (x : AnyMessage) : Prop :=
  any_ok default_recursion_limit_ x ∧ zlen (any_encode x) <= TEMP_BUFFER_SIZE.

Lemma type_name_ok x : string_ok (GetTypeName x) ∧ 9 <= zlen (GetTypeName x) <= 40.
Proof. destruct x; vm_compute; repeat split; done. Qed.

Lemma cmd_head_ok x n : is_s32 n → CmdType_ok default_recursion_limit_ (cmd_head (GetTypeName x) n).
Proof.
  intros Hn. split; [apply type_name_ok|]. split; [done|].
  split; [by vm_compute|]. split; [by vm_compute|]. constructor.
Qed.

Lemma write_varint_pos k v : 1 <= zlen (write_varint k v).
Proof.
  destruct (write_varint k v) eqn:E; [by apply write_varint_nonempty in E|].
  rewrite zlen_cons. pose proof (zlen_nonneg l). lia.
Qed.

Lemma head_bytes_length x :
  zlen (any_encode x) <= INT_MAX → 4 <= zlen (head_bytes x) <= TEMP_BUFFER_SIZE.
Proof.
  intros Hl. unfold head_bytes, CmdType_InternalSerializeWithCachedSizesToArray, cmd_head.
  cbn [CmdType_type CmdType_size CmdType_fromip CmdType_toip CmdType_unknown_fields
       set_CmdType_size set_CmdType_type CmdType_New].
  destruct (type_name_ok x) as [_ Hn]. rewrite (proj2 (Z.ltb_lt _ _)) by lia.
  unfold opt_bytes, WriteStringToArray, WriteStringWithSizeToArray, WriteInt32ToArray.
  rewrite !zlen_app.
  change (zlen (WireFormatLite.WriteTagToArray 1 WIRETYPE_LENGTH_DELIMITED)) with 1.
  pose proof (write_varint_pos 5 (u32 (zlen (GetTypeName x)))).
  pose proof (write_varint_bound 5 (u32 (zlen (GetTypeName x)))).
  unfold WriteVarint32ToArray, TEMP_BUFFER_SIZE.
  change (zlen (if 0 <? zlen (@nil byte) then _ else [])) with 0.
  change (zlen (SerializeUnknownFieldsToArray [])) with 0.
  destruct (negb _).
  - rewrite zlen_app. change (zlen (WireFormatLite.WriteTagToArray 2 WIRETYPE_VARINT)) with 1.
    unfold WriteVarint32SignExtendedToArray, WriteVarint64ToArray.
    pose proof (write_varint_pos 10 (u64 (zlen (any_encode x)))).
    pose proof (write_varint_bound 10 (u64 (zlen (any_encode x)))). lia.
  - rewrite ?(@zlen_nil byte). lia.
Qed.

(** ** Send *)

Lemma Send_spec x r :
  any_typed x → zlen (any_encode x) <= INT_MAX - 2048 →
  Send x r = (true, set_totalSend (u32 (totalSend r + (total_length x + 4)))
                      (set_send (mDataStreamSend r ++ frame x) r)).
Proof.
  intros Ht Hl. pose proof (zlen_nonneg (any_encode x)) as Hp.
  pose proof (head_bytes_length x ltac:(lia)) as Hh. unfold TEMP_BUFFER_SIZE in Hh.
  unfold Send. rewrite any_ByteSize_length by (done || lia). fold (head_bytes x).
  assert (Hty : CmdType_typed (cmd_head (GetTypeName x) (zlen (any_encode x)))).
  { eapply CmdType_law_typed, cmd_head_ok. znorm. lia. }
  assert (Hs : ByteSize (cmd_head (GetTypeName x) (zlen (any_encode x))) = zlen (head_bytes x)).
  { unfold ByteSize. cbn [ByteSizeLong CmdType_Message]. rewrite CmdType_law_size by done.
    rewrite s32_u32, s32_small; [done|]. fold (head_bytes x). znorm. lia. }
  rewrite Hs. fold (total_length x).
  assert (Hz : s32 (total_length x) = total_length x).
  { apply s32_small. unfold total_length. znorm. lia. }
  rewrite Hz, !u32_small by (unfold total_length; znorm; lia).
  destruct (WriteRaw_emits head (mk_CodedOutputStream (mDataStreamSend r))) as [H1 E1]; [done|].
  destruct (WriteLittleEndian32_emits (total_length x) _ H1) as [H2 E2].
  destruct (WriteLittleEndian32_emits (zlen (head_bytes x)) _ H2) as [H3 E3].
  destruct (SerializeToCodedStream_emits (cmd_head (GetTypeName x) (zlen (any_encode x)))) with
    (o := WriteLittleEndian32 (zlen (head_bytes x)) (WriteLittleEndian32 (total_length x)
            (WriteRaw head (mk_CodedOutputStream (mDataStreamSend r))))) as (o4 & -> & H4 & E4);
    [done|cbn; fold (head_bytes x); znorm; lia|done|].
  destruct (any_Serialize_emits x Ht ltac:(lia) o4 H4) as [_ E5].
  destruct (any_SerializeToCodedStream x o4) as [b o5]. cbn [snd] in E5.
  f_equal. cbn [totalSend set_send]. do 2 f_equal.
  rewrite E5, E4, E3, E2, E1. unfold frame, frame_tail.
  change (InternalSerializeWithCachedSizesToArray (cmd_head (GetTypeName x) (zlen (any_encode x))))
    with (head_bytes x).
  by rewrite <- !app_assoc.
Qed.

(** ** Reading a frame *)

(** A stream opened on an [istream] that has a whole block. *)
Lemma of_stream_block b n :
  0 < n <= zlen b → n <= INT_MAX →
  let s := of_stream (mk_IstreamInputStream (Istream b false) n) in
  buffer_ s = take (Z.to_nat n) b ∧ istream_of s = Istream (drop (Z.to_nat n) b) false.
Proof.
  intros Hn Hi. unfold mk_IstreamInputStream. rewrite (proj2 (Z.ltb_lt 0 n)) by lia.
  unfold of_stream, Refresh, Next, istream_read. cbn [after_limit_ total_bytes_read_ current_limit_
    input_ ad_stream ad_buffer_size is_buf is_eof].
  change (zlen (@nil byte)) with 0. cbn [Z.ltb Z.compare orb]. change (0 =? INT_MAX) with false. cbv iota.
  rewrite (proj2 (Z.ltb_ge (zlen b) n)) by lia.
  pose proof (zlen_take b n ltac:(lia)) as Ht.
  destruct (take (Z.to_nat n) b) as [|c l] eqn:E; [rewrite zlen_nil in Ht; lia|]. rewrite <- E in *.
  unfold RecomputeBufferLimits, istream_of. cbn [snd buffer_ after_limit_ input_ total_bytes_read_ current_limit_ ad_stream].
  rewrite app_nil_r, Ht. unfold total_bytes_limit_. rewrite Z.min_id, (proj2 (Z.ltb_ge INT_MAX _)) by lia.
  split; [|done]. rewrite Z.sub_0_r, take_take. f_equal. lia.
Qed.

Lemma ReadRaw_direct k s : 0 <= k <= BufferSize s →
  ReadRaw k s = (true, take (Z.to_nat k) (buffer_ s), set_buffer s (drop (Z.to_nat k) (buffer_ s))).
Proof.
  intros Hk. unfold ReadRaw. rewrite Nat.add_comm. cbn [Nat.add read_raw].
  by rewrite (proj2 (Z.ltb_ge _ _)) by lia.
Qed.

Lemma ReadLittleEndian32_direct s v r : is_u32 v → buffer_ s = WriteLittleEndian32ToArray v ++ r →
  ReadLittleEndian32 s = (Some v, set_buffer s r).
Proof.
  intros Hv E. unfold ReadLittleEndian32, BufferSize, CodedInput.Advance. rewrite E, zlen_app.
  change (zlen (WriteLittleEndian32ToArray v)) with 4. pose proof (zlen_nonneg r).
  rewrite (proj2 (Z.leb_le _ _)) by lia. by rewrite le32_app, le32_roundtrip.
Qed.

Lemma istream_of_set_buffer s b : istream_of (set_buffer s b) = istream_of s.
Proof. done. Qed.

Lemma take_store k chunk old : k = length chunk → take k (store chunk old) = chunk.
Proof. intros ->. unfold store. by rewrite take_app_length. Qed.

(** The four bytes of the magic and of the length field. *)
Lemma read_block4 b k : length k = 4%nat →
  buffer_ (of_stream (mk_IstreamInputStream (Istream (k ++ b) false) 4)) = k ∧
  istream_of (of_stream (mk_IstreamInputStream (Istream (k ++ b) false) 4)) = Istream b false.
Proof.
  intros Hk. assert (zlen k = 4) as Hz by (unfold zlen; lia). pose proof (zlen_nonneg b).
  destruct (of_stream_block (k ++ b) 4) as [-> ->]; [rewrite zlen_app; lia|done|].
  by rewrite take_zlen_app, drop_zlen_app.
Qed.

Section Delivery.
Context {W : Type} (linked : bytes → bool) (dispatcher : option (ProcessorMap W)).

(** Delivering [x]: the rest of the stream stays, [temp] is left in the scratch
    buffer, the processor runs, and the length is forgotten. *)
Definition deliver (x : AnyMessage) (rest temp : bytes) (w : W) (r : MessageRoute)
  : outcome (bool * W * MessageRoute) :=
  '(w, r) ← try_dispatch dispatcher w (set_receive rest (set_temp_process temp r)) (GetTypeName x) (Known x);
  Ok (true, w, set_pre 0 r).

Lemma process_frame_spec x rest w r :
  sendable x →
  ∃ temp, process_frame linked dispatcher (total_length x) (Istream (frame_tail x ++ rest) false) w r
          = deliver x rest temp w r.
Proof.
  intros [Hok Hb]. pose proof (zlen_nonneg (any_encode x)) as Hp. pose proof (zlen_nonneg rest) as Hr.
  assert (zlen (any_encode x) <= INT_MAX) as Hmax by (unfold TEMP_BUFFER_SIZE in Hb; znorm; lia).
  pose proof (head_bytes_length x Hmax) as Hh. unfold TEMP_BUFFER_SIZE in *.
  unfold process_frame. set (n := s32 (u32 (total_length x - 4))).
  assert (Hn : n = zlen (frame_tail x)).
  { subst n. unfold total_length, frame_tail. rewrite !zlen_app.
    change (zlen (WriteLittleEndian32ToArray _)) with 4.
    rewrite u32_small, s32_small by (znorm; lia). lia. }
  assert (Hlen : zlen (frame_tail x) = 4 + zlen (head_bytes x) + zlen (any_encode x)).
  { unfold frame_tail. rewrite !zlen_app. change (zlen (WriteLittleEndian32ToArray _)) with 4. lia. }
  destruct (of_stream_block (frame_tail x ++ rest) n) as [Hbuf His];
    [rewrite zlen_app; lia|znorm; lia|].
  set (cis := of_stream _) in *. rewrite take_zlen_app in Hbuf by done. rewrite drop_zlen_app in His by done.
  rewrite (ReadLittleEndian32_direct cis (zlen (head_bytes x)) (head_bytes x ++ any_encode x))
    by (done || (znorm; lia)).
  cbn [from_option id]. rewrite (proj2 (Z.ltb_ge TEMP_BUFFER_SIZE (zlen _))) by (unfold TEMP_BUFFER_SIZE; lia).
  rewrite ReadRaw_direct by (unfold BufferSize; cbn [buffer_ set_buffer]; rewrite zlen_app; lia).
  cbn [buffer_ set_buffer mTempBufferProcess set_temp_process].
  rewrite take_zlen_app, drop_zlen_app by done.
  rewrite take_store by (unfold zlen; lia).
  assert (ParseFromArray (head_bytes x) CmdType_New
          = Some (true, cmd_head (GetTypeName x) (zlen (any_encode x)))) as ->.
  { change (head_bytes x) with
      (InternalSerializeWithCachedSizesToArray (cmd_head (GetTypeName x) (zlen (any_encode x)))).
    apply ParseFromArray_roundtrip.
    - apply cmd_head_ok. znorm. lia.
    - change (zlen (head_bytes x) < INT_MAX). znorm. lia. }
  assert (Hbl : s32 (u32 (total_length x - zlen (head_bytes x) - 8)) = zlen (any_encode x)).
  { unfold total_length. rewrite u32_small, s32_small by (znorm; lia). lia. }
  rewrite Hbl. rewrite (proj2 (Z.ltb_ge (zlen (any_encode x)) 0)) by lia.
  rewrite (proj2 (Z.ltb_ge TEMP_BUFFER_SIZE _)) by (unfold TEMP_BUFFER_SIZE; lia). cbn [orb].
  rewrite ReadRaw_direct by (unfold BufferSize; cbn [buffer_ set_buffer]; lia).
  cbn [buffer_ set_buffer mTempBufferProcess set_temp_process set_receive CmdType_type cmd_head
       set_CmdType_size set_CmdType_type].
  destruct (createMessage_known linked x) as (y & -> & Hy).
  rewrite (take_ge (any_encode x)) by (unfold zlen; lia). rewrite take_store by (unfold zlen; lia).
  cbn [pool_ParseFromArray]. rewrite (any_Parse_roundtrip x y) by (done || (znorm; lia)). cbn [mbind option_bind].
  rewrite !istream_of_set_buffer, His. cbn [is_buf]. by eexists.
Qed.

(** ** The receiver as a queue of frames *)

(** The bytes received and not yet handled: a length read ahead of its frame
    stands for the magic and the length field it came from. *)
Definition pending (r : MessageRoute) : bytes :=
  (if 0 <? mPreRecivesTotalLen r
   then head ++ WriteLittleEndian32ToArray (u32 (mPreRecivesTotalLen r)) else [])
  ++ mDataStreamReceive r.

Lemma Receive_pending buf r : pending (snd (Receive buf r)) = pending r ++ buf.
Proof. destruct (Receive_spec buf r) as (temp & ->). unfold pending. cbn. by rewrite app_assoc. Qed.

Lemma le32_inj v v' r r' : is_u32 v → is_u32 v' →
  WriteLittleEndian32ToArray v ++ r = WriteLittleEndian32ToArray v' ++ r' → v = v' ∧ r = r'.
Proof.
  intros Hv Hv' E. apply app_inj_1 in E as [E ->]; [|done]. split; [|done].
  by rewrite <- (le32_roundtrip v), <- (le32_roundtrip v'), E.
Qed.

Lemma total_length_range x : sendable x → 12 <= total_length x <= 4096.
Proof.
  intros [_ Hb]. pose proof (zlen_nonneg (any_encode x)).
  pose proof (head_bytes_length x) as Hh. unfold total_length, TEMP_BUFFER_SIZE in *. znorm. lia.
Qed.

Lemma frame_tail_length x : zlen (frame_tail x) = total_length x - 4.
Proof.
  unfold frame_tail, total_length. rewrite !zlen_app. change (zlen (WriteLittleEndian32ToArray _)) with 4. lia.
Qed.

(** The two ways a call reaches a frame whose first bytes are in [pending]. *)
Inductive at_frame (x : AnyMessage) (r : MessageRoute) (avail : bytes) : Prop :=
  | at_start : mPreRecivesTotalLen r <= 0 →
      mDataStreamReceive r = head ++ WriteLittleEndian32ToArray (total_length x) ++ avail →
      at_frame x r avail
  | at_body : mPreRecivesTotalLen r = total_length x → mDataStreamReceive r = avail →
      at_frame x r avail.

(** Opening the magic and the length of a frame leaves its tail. *)
Lemma ProcessRecv_open x avail w r :
  sendable x → at_frame x r avail → 8 <= zlen (mDataStreamReceive r) →
  ProcessRecv linked dispatcher w r =
    if zlen avail <? total_length x - 4
    then Ok (false, w, if 0 <? mPreRecivesTotalLen r then r
                       else set_pre (total_length x) (set_receive avail r))
    else process_frame linked dispatcher (total_length x) (Istream avail false) w r.
Proof.
  intros Hx Hat H8. pose proof (total_length_range x Hx) as Ht.
  unfold ProcessRecv. rewrite (proj2 (Z.ltb_ge _ 8)) by lia.
  destruct Hat as [Hpre E|Hpre E].
  - rewrite (proj2 (Z.ltb_ge 0 _)) by lia. rewrite E.
    destruct (read_block4 (WriteLittleEndian32ToArray (total_length x) ++ avail) head) as [B1 I1]; [done|].
    set (c1 := of_stream _) in *. clearbody c1.
    rewrite ReadRaw_direct by (unfold BufferSize; rewrite B1; done). rewrite B1, istream_of_set_buffer, I1.
    change (store (take (Z.to_nat 4) head) (repeat Byte.x00 4)) with head.
    rewrite decide_False by (intros H; by apply H).
    destruct (read_block4 avail (WriteLittleEndian32ToArray (total_length x))) as [B2 I2]; [done|].
    set (c2 := of_stream _) in *.
    rewrite (ReadLittleEndian32_direct c2 (total_length x) []) by (rewrite ?app_nil_r; (done || znorm; lia)).
    rewrite istream_of_set_buffer, I2. cbn [from_option id is_buf].
    rewrite u32_small, s32_small by (znorm; lia). done.
  - rewrite (proj2 (Z.ltb_lt 0 _)) by lia. rewrite Hpre, E.
    rewrite (u32_small (total_length x)), u32_small by (znorm; lia). done.
Qed.

(** The invariant of the route: its saved length is an [int]. *)
Definition route_ok (r : MessageRoute) : Prop := is_s32 (mPreRecivesTotalLen r).

(** [pending] shows the first bytes of the frame of [x]: the receiver stands in
    front of it, or inside it. *)
Lemma pending_at_frame x r avail :
  sendable x → route_ok r →
  pending r = head ++ WriteLittleEndian32ToArray (total_length x) ++ avail → at_frame x r avail.
Proof.
  intros Hx Hr E. pose proof (total_length_range x Hx) as Ht. unfold pending in E.
  destruct (0 <? mPreRecivesTotalLen r) eqn:Ep; zbool.
  - rewrite <- !app_assoc in E. apply app_inv_head in E.
    apply le32_inj in E as [E1 E2]; [|apply u32_range|znorm; lia].
    apply at_body; [|done]. unfold route_ok in Hr. rewrite u32_small in E1; [done|znorm; lia].
  - by apply at_start.
Qed.

Lemma at_frame_receive_length x r avail :
  sendable x → at_frame x r avail → total_length x - 4 <= zlen avail → 8 <= zlen (mDataStreamReceive r).
Proof.
  intros Hx Hat Hl. pose proof (total_length_range x Hx). destruct Hat as [_ ->|_ ->]; [|lia].
  rewrite !zlen_app. change (zlen head) with 4. change (zlen (WriteLittleEndian32ToArray _)) with 4.
  pose proof (zlen_nonneg avail). lia.
Qed.

(** A complete frame is delivered. *)
Lemma ProcessRecv_deliver x rest w r :
  sendable x → route_ok r → pending r = frame x ++ rest →
  ∃ temp, ProcessRecv linked dispatcher w r = deliver x rest temp w r.
Proof.
  intros Hx Hr E. unfold frame in E. rewrite <- !app_assoc in E.
  pose proof (pending_at_frame x r _ Hx Hr E) as Hat. pose proof (zlen_nonneg rest).
  pose proof (frame_tail_length x) as Hl.
  assert (total_length x - 4 <= zlen (frame_tail x ++ rest)) as Hge by (rewrite zlen_app; lia).
  rewrite (ProcessRecv_open x _ w r Hx Hat) by (by eapply at_frame_receive_length).
  rewrite (proj2 (Z.ltb_ge _ _)) by lia. by apply process_frame_spec.
Qed.

(** An incomplete frame is kept: the call reports that nothing was done. *)
Lemma ProcessRecv_wait x more w r :
  sendable x → route_ok r → more ≠ [] → pending r ++ more = frame x →
  ∃ r', ProcessRecv linked dispatcher w r = Ok (false, w, r') ∧ pending r' = pending r ∧ route_ok r' ∧
    mDataStreamSend r' = mDataStreamSend r.
Proof.
  intros Hx Hr Hm E. pose proof (total_length_range x Hx) as Ht.
  destruct (Z.lt_ge_cases (zlen (mDataStreamReceive r)) 8) as [H8|H8].
  { exists r. split; [|done]. unfold ProcessRecv. by rewrite (proj2 (Z.ltb_lt _ _)). }
  assert (∃ avail, pending r = head ++ WriteLittleEndian32ToArray (total_length x) ++ avail ∧
            avail ++ more = frame_tail x) as (avail & Ea & Em).
  { exists (drop 8 (pending r)).
    assert (8 <= length (pending r))%nat as Hp8.
    { unfold pending. rewrite length_app. unfold zlen in H8. lia. }
    unfold frame in E. rewrite app_assoc in E.
    rewrite <- (take_drop 8 (pending r)), <- app_assoc in E.
    apply app_inj_1 in E as [E1 E2].
    - by rewrite app_assoc, <- E1, take_drop.
    - rewrite length_take, length_app. change (length head) with 4%nat.
      change (length (WriteLittleEndian32ToArray _)) with 4%nat. lia. }
  pose proof (pending_at_frame x r avail Hx Hr Ea) as Hat.
  assert (zlen avail < total_length x - 4) as Hlt.
  { rewrite <- frame_tail_length, <- Em, zlen_app. destruct more; [done|].
    rewrite zlen_cons. pose proof (zlen_nonneg more). lia. }
  rewrite (ProcessRecv_open x avail w r Hx Hat H8), (proj2 (Z.ltb_lt _ _)) by done.
  eexists. split; [done|]. destruct Hat as [Hpre E1|Hpre E1].
  - rewrite (proj2 (Z.ltb_ge _ _)) by done. rewrite Ea. unfold pending, route_ok.
    cbn [mPreRecivesTotalLen mDataStreamReceive mDataStreamSend set_pre set_receive].
    rewrite (proj2 (Z.ltb_lt _ _)) by lia. rewrite u32_small by (znorm; lia).
    rewrite <- app_assoc. split_and!; [done| |done]. znorm. lia.
  - by rewrite (proj2 (Z.ltb_lt _ _)) by lia.
Qed.

(** *** Interleaving arrivals and processing *)

(** The receiving thread appends whatever the socket delivered; the processing
    thread calls [ProcessRecv]; [mMutexRec] serialises the two. *)
Inductive event := Arrive (chunk : bytes) | Tick.

Fixpoint run (evs : list event) (w : W) (r : MessageRoute) : outcome (W * MessageRoute) :=
  match evs with
  | [] => Ok (w, r)
  | Arrive chunk :: evs => run evs w (snd (Receive chunk r))
  | Tick :: evs => '(_, w, r) ← ProcessRecv linked dispatcher w r; run evs w r
  end.

Lemma run_app evs1 evs2 w r :
  run (evs1 ++ evs2) w r = '(w, r) ← run evs1 w r; run evs2 w r.
Proof.
  revert w r. induction evs1 as [|[chunk|] evs1 IH]; intros w r; cbn [run app]; [done|apply IH|].
  destruct (ProcessRecv linked dispatcher w r) as [[[b w'] r']| |]; [apply IH|done|done].
Qed.

Definition arrived (evs : list event) : bytes :=
  concat (map (λ e, match e with Arrive chunk => chunk | Tick => [] end) evs).

(** What the outside sees: the world and the bytes queued for sending. *)
Definition outside (w : W) (r : MessageRoute) : W * bytes := (w, mDataStreamSend r).

(** The processors turn a message of [P] into a step of the outside, and leave
    the receiving side of the route alone. *)
Definition handles (P : AnyMessage → Prop) (step : W * bytes → AnyMessage → W * bytes) : Prop :=
  ∀ x w r, P x →
  ∃ w' r', try_dispatch dispatcher w r (GetTypeName x) (Known x) = Ok (w', r') ∧
    outside w' r' = step (outside w r) x ∧ mDataStreamReceive r' = mDataStreamReceive r.

Section InOrder.
Context (P : AnyMessage → Prop) (HP : ∀ x, P x → sendable x).
Context (step : W * bytes → AnyMessage → W * bytes) (Hstep : handles P step).

(** One call handles the next message if its frame is complete, and otherwise
    nothing; no byte of the stream is lost. *)
Lemma tick_cases ms rest w r :
  Forall P ms → route_ok r → pending r ++ rest = concat (map frame ms) →
  ∃ b w' r', ProcessRecv linked dispatcher w r = Ok (b, w', r') ∧ route_ok r' ∧
    ((∃ x ms', ms = x :: ms' ∧ outside w' r' = step (outside w r) x ∧
       pending r' ++ rest = concat (map frame ms')) ∨
     (outside w' r' = outside w r ∧ pending r' = pending r ∧
      ∀ x ms', ms = x :: ms' → (length (pending r) < length (frame x))%nat)).
Proof.
  intros Hms Hr E. destruct Hms as [|x ms Hx Hms].
  - apply app_eq_nil in E as [Ep _]. exists false, w, r.
    unfold pending in Ep. apply app_eq_nil in Ep as [_ Ep]. unfold ProcessRecv. rewrite Ep.
    split; [done|]. split; [done|]. by right.
  - cbn [map concat] in E. destruct (Nat.le_gt_cases (length (frame x)) (length (pending r))) as [Hl|Hl].
    + assert (∃ p, pending r = frame x ++ p ∧ p ++ rest = concat (map frame ms)) as (p & Ep & Er).
      { exists (drop (length (frame x)) (pending r)).
        rewrite <- (take_drop (length (frame x)) (pending r)), <- app_assoc in E.
        apply app_inj_1 in E as [E1 E2]; [|rewrite length_take; lia].
        split; [|done]. rewrite <- E1 at 1. by rewrite take_drop. }
      destruct (ProcessRecv_deliver x p w r (HP _ Hx) Hr Ep) as (temp & ->).
      destruct (Hstep x w (set_receive p (set_temp_process temp r)) Hx) as (w' & r' & Ed & Eo & Erec).
      unfold deliver. rewrite Ed. cbn [mbind outcome_bind].
      exists true, w', (set_pre 0 r'). split; [done|]. split; [by unfold route_ok; znorm|]. left.
      exists x, ms. split_and!; [done|exact Eo|]. unfold pending. cbn. by rewrite Erec.
    + assert (∃ more, more ≠ [] ∧ pending r ++ more = frame x) as (more & Hne & Em).
      { exists (drop (length (pending r)) (frame x)). split.
        - intros Hd. apply (f_equal length) in Hd. rewrite length_drop in Hd.
          change (length (@nil byte)) with 0%nat in Hd. lia.
        - assert (take (length (pending r)) (frame x) = pending r) as Hp.
          { apply (f_equal (take (length (pending r)))) in E.
            rewrite take_app_length, take_app_le in E by lia. done. }
          rewrite <- Hp at 1. by rewrite take_drop. }
      destruct (ProcessRecv_wait x more w r (HP _ Hx) Hr Hne Em) as (r' & Ew & Ep & Hr' & Es).
      exists false, w, r'. split; [done|]. split; [done|]. right. split_and!; [|done|].
      * unfold outside. by rewrite Es.
      * intros ? ? [= <- <-]. done.
Qed.

Lemma run_in_order evs ms rest w r :
  Forall P ms → route_ok r → pending r ++ arrived evs ++ rest = concat (map frame ms) →
  ∃ done todo w' r', ms = done ++ todo ∧ run evs w r = Ok (w', r') ∧
    outside w' r' = fold_left step done (outside w r) ∧ route_ok r' ∧
    pending r' ++ rest = concat (map frame todo).
Proof.
  revert ms w r. induction evs as [|e evs IH]; intros ms w r Hms Hr E.
  - exists [], ms, w, r. by split_and!.
  - unfold arrived in E. cbn [map concat] in E. rewrite <- app_assoc in E. destruct e as [chunk|]; cbn [run].
    + destruct (IH ms w (snd (Receive chunk r)) Hms) as (dn & td & w' & r' & ? & ? & Eo & ? & ?).
      * destruct (Receive_spec chunk r) as (temp & ->). exact Hr.
      * by rewrite Receive_pending, <- app_assoc.
      * exists dn, td, w', r'. split_and!; try done. rewrite Eo.
        by destruct (Receive_spec chunk r) as (temp & ->).
    + destruct (tick_cases ms (arrived evs ++ rest) w r Hms Hr E)
        as (b & w1 & r1 & -> & Hr1 & [(x & ms' & -> & Eo & E1)|(Eo & E1 & _)]); cbn [mbind outcome_bind].
      * destruct (IH ms' w1 r1) as (dn & td & w' & r' & -> & ? & Eo' & ? & ?);
          [by inversion Hms|done|done|]. exists (x :: dn), td, w', r'. split_and!; try done.
        cbn [fold_left]. by rewrite Eo', Eo.
      * destruct (IH ms w1 r1) as (dn & td & w' & r' & ? & ? & Eo' & ? & ?); [done|done|by rewrite E1|].
        exists dn, td, w', r'. split_and!; try done. by rewrite Eo', Eo.
Qed.

(** Once the bytes are there, a call per message handles them all. *)
Lemma run_drains ms w r :
  Forall P ms → route_ok r → pending r = concat (map frame ms) →
  ∃ w' r', run (replicate (length ms) Tick) w r = Ok (w', r') ∧
    outside w' r' = fold_left step ms (outside w r) ∧ pending r' = [].
Proof.
  revert w r. induction ms as [|x ms IH]; intros w r Hms Hr E; [by exists w, r|].
  cbn [length replicate run]. inversion Hms; subst.
  destruct (tick_cases (x :: ms) [] w r Hms Hr)
    as (b & w1 & r1 & -> & Hr1 & [(y & ms' & Eq & Eo & E1)|(_ & _ & Hlt)]).
  { by rewrite app_nil_r. }
  - simplify_eq. cbn [mbind outcome_bind fold_left]. rewrite app_nil_r in E1. rewrite <- Eo. by apply IH.
  - exfalso. specialize (Hlt x ms eq_refl). rewrite E in Hlt. cbn [map concat] in Hlt.
    rewrite length_app in Hlt. lia.
Qed.

(** Both together, from a receiver that holds nothing: the state after any part
    of the stream, and after all of it. *)
Lemma run_delivers ms evs rest w r :
  Forall P ms → mPreRecivesTotalLen r = 0 → mDataStreamReceive r = [] →
  arrived evs ++ rest = concat (map frame ms) →
  ∃ done todo w1 r1, ms = done ++ todo ∧
    run evs w r = Ok (w1, r1) ∧ outside w1 r1 = fold_left step done (outside w r) ∧
    (rest = [] → ∃ w2 r2, run (evs ++ replicate (length todo) Tick) w r = Ok (w2, r2) ∧
       outside w2 r2 = fold_left step ms (outside w r) ∧ pending r2 = []).
Proof.
  intros Hms Ep Er Ea.
  assert (Hr : route_ok r) by (unfold route_ok; rewrite Ep; znorm; lia).
  assert (Hpend : pending r = []) by (unfold pending; rewrite Ep, Er; done).
  destruct (run_in_order evs ms rest w r) as (dn & td & w1 & r1 & -> & Hrun & Eo & Hr1 & Hp1);
    [done|done|by rewrite Hpend|].
  exists dn, td, w1, r1. split_and!; [done|done|done|]. intros ->.
  rewrite app_nil_r in Hp1. apply Forall_app in Hms as [_ Htd].
  destruct (run_drains td w1 r1 Htd Hr1 Hp1) as (w2 & r2 & Hdrain & Eo2 & Hp2).
  exists w2, r2. split_and!; [| |done].
  - by rewrite run_app, Hrun.
  - by rewrite fold_left_app, Eo2, Eo.
Qed.

(** More calls than messages do no harm. *)
Lemma run_idle k w r : pending r = [] → run (replicate k Tick) w r = Ok (w, r).
Proof.
  intros Ep. unfold pending in Ep. apply app_eq_nil in Ep as [_ Ep].
  induction k as [|k IH]; [done|]. cbn [replicate run]. unfold ProcessRecv. by rewrite Ep.
Qed.

Lemma run_all ms evs k w r :
  Forall P ms → mPreRecivesTotalLen r = 0 → mDataStreamReceive r = [] →
  arrived evs = concat (map frame ms) → (length ms <= k)%nat →
  ∃ w2 r2, run (evs ++ replicate k Tick) w r = Ok (w2, r2) ∧
    outside w2 r2 = fold_left step ms (outside w r) ∧ pending r2 = [].
Proof.
  intros Hms Hp Hr Ea Hk.
  destruct (run_delivers ms evs [] w r Hms Hp Hr) as (dn & td & w1 & r1 & Em & _ & _ & H);
    [by rewrite app_nil_r|].
  destruct (H eq_refl) as (w2 & r2 & Er & Eo & Ep). exists w2, r2. split_and!; [|done|done].
  replace k with (length td + (k - length td))%nat.
  - rewrite replicate_add, app_assoc, run_app, Er. by apply run_idle.
  - apply (f_equal length) in Em. rewrite length_app in Em. lia.
Qed.

End InOrder.

End Delivery.

(** ** Frames that are not delivered *)

Section Rejection.
Context {W : Type} (linked : bytes → bool) (dispatcher : option (ProcessorMap W)).

(** A frame whose body exceeds the scratch buffer is consumed and dropped. *)
Lemma process_frame_oversized x rest w r :
  TEMP_BUFFER_SIZE < zlen (any_encode x) → total_length x <= INT_MAX →
  ∃ temp, process_frame linked dispatcher (total_length x) (Istream (frame_tail x ++ rest) false) w r
          = Ok (false, w, set_pre 0 (set_receive rest (set_temp_process temp r))).
Proof.
  intros Hb Ht. pose proof (zlen_nonneg rest) as Hr. unfold TEMP_BUFFER_SIZE, total_length in Hb, Ht.
  pose proof (zlen_nonneg (head_bytes x)).
  pose proof (head_bytes_length x ltac:(lia)) as Hh. unfold TEMP_BUFFER_SIZE in Hh.
  unfold process_frame. set (n := s32 (u32 (total_length x - 4))).
  assert (Hn : n = zlen (frame_tail x)).
  { subst n. rewrite frame_tail_length. unfold total_length.
    rewrite u32_small, s32_small by (znorm; lia). lia. }
  pose proof (frame_tail_length x) as Hlen. unfold total_length in Hlen.
  destruct (of_stream_block (frame_tail x ++ rest) n) as [Hbuf His];
    [rewrite zlen_app; lia|lia|].
  set (cis := of_stream _) in *. rewrite take_zlen_app in Hbuf by done. rewrite drop_zlen_app in His by done.
  rewrite (ReadLittleEndian32_direct cis (zlen (head_bytes x)) (head_bytes x ++ any_encode x))
    by (done || (znorm; lia)).
  cbn [from_option id]. rewrite (proj2 (Z.ltb_ge TEMP_BUFFER_SIZE (zlen _))) by (unfold TEMP_BUFFER_SIZE; lia).
  rewrite ReadRaw_direct by (unfold BufferSize; cbn [buffer_ set_buffer]; rewrite zlen_app; lia).
  cbn [mTempBufferProcess set_temp_process].
  destruct (ParseFromArray_total (take (Z.to_nat (zlen (head_bytes x)))
    (store (take (Z.to_nat (zlen (head_bytes x))) (buffer_ (set_buffer cis (head_bytes x ++ any_encode x))))
       (mTempBufferProcess r))) CmdType_New) as (ok & c & ->).
  { unfold zlen. rewrite length_take. unfold zlen in Hh. znorm. lia. }
  assert (s32 (u32 (total_length x - zlen (head_bytes x) - 8)) = zlen (any_encode x)) as ->.
  { unfold total_length. rewrite u32_small, s32_small by (znorm; lia). lia. }
  rewrite (proj2 (Z.ltb_lt TEMP_BUFFER_SIZE _)) by (unfold TEMP_BUFFER_SIZE; lia). rewrite orb_true_r.
  rewrite !istream_of_set_buffer, His. cbn [is_buf]. by eexists.
Qed.

(** Without a saved length, a complete frame is opened and processed. *)
Lemma ProcessRecv_complete total tail w r :
  mPreRecivesTotalLen r <= 0 → 12 <= total <= INT_MAX →
  mDataStreamReceive r = head ++ WriteLittleEndian32ToArray total ++ tail → total - 4 <= zlen tail →
  ProcessRecv linked dispatcher w r = process_frame linked dispatcher total (Istream tail false) w r.
Proof.
  intros Hp Ht E Hl. unfold ProcessRecv. rewrite E.
  rewrite (proj2 (Z.ltb_ge _ 8)), (proj2 (Z.ltb_ge 0 _)).
  2: lia.
  2:{ rewrite !zlen_app. change (zlen head) with 4. change (zlen (WriteLittleEndian32ToArray _)) with 4.
      pose proof (zlen_nonneg tail). lia. }
  destruct (read_block4 (WriteLittleEndian32ToArray total ++ tail) head) as [B1 I1]; [done|].
  set (c1 := of_stream _) in *. clearbody c1.
  rewrite ReadRaw_direct by (unfold BufferSize; rewrite B1; done). rewrite B1, istream_of_set_buffer, I1.
  change (store (take (Z.to_nat 4) head) (repeat Byte.x00 4)) with head.
  rewrite decide_False by (intros H; by apply H).
  destruct (read_block4 tail (WriteLittleEndian32ToArray total)) as [B2 I2]; [done|].
  set (c2 := of_stream _) in *.
  rewrite (ReadLittleEndian32_direct c2 total []) by (rewrite ?app_nil_r; (done || znorm; lia)).
  rewrite istream_of_set_buffer, I2. cbn [from_option id is_buf].
  rewrite u32_small by (znorm; lia). by rewrite (proj2 (Z.ltb_ge _ _)) by lia.
Qed.

(** Anything but the magic costs four bytes. *)
Lemma ProcessRecv_bad_magic w r :
  mPreRecivesTotalLen r <= 0 → 8 <= zlen (mDataStreamReceive r) →
  take 4 (mDataStreamReceive r) ≠ head →
  ProcessRecv linked dispatcher w r =
    Ok (false, w, set_pre 0 (set_receive (drop 4 (mDataStreamReceive r)) r)).
Proof.
  intros Hp H8 Hm. unfold ProcessRecv. rewrite (proj2 (Z.ltb_ge _ 8)), (proj2 (Z.ltb_ge 0 _)) by lia.
  assert (Hlen : length (take 4 (mDataStreamReceive r)) = 4%nat).
  { rewrite length_take. unfold zlen in H8. lia. }
  destruct (read_block4 (drop 4 (mDataStreamReceive r)) (take 4 (mDataStreamReceive r)) Hlen) as [B1 I1].
  rewrite take_drop in B1, I1. set (c1 := of_stream _) in *. clearbody c1.
  rewrite ReadRaw_direct by (unfold BufferSize; rewrite B1; unfold zlen; rewrite Hlen; lia).
  rewrite B1, istream_of_set_buffer, I1. cbn [is_buf].
  rewrite decide_True; [done|]. intros Heq. apply Hm.
  set (t := take 4 (mDataStreamReceive r)) in *. rewrite take_ge in Heq by (rewrite Hlen; done).
  unfold store in Heq. rewrite Hlen in Heq. change (drop 4 (repeat Byte.x00 4)) with (@nil byte) in Heq.
  by rewrite app_nil_r in Heq.
Qed.

(** A saved length of 1, 2 or 3 makes [totalLen - sizeof(int)] wrap around. *)
Lemma ProcessRecv_stuck w r :
  1 <= mPreRecivesTotalLen r <= 3 → zlen (mDataStreamReceive r) < 2 ^ 32 - 3 →
  ProcessRecv linked dispatcher w r = Ok (false, w, r).
Proof.
  intros Hp Hl. unfold ProcessRecv. case_match; [done|].
  rewrite (proj2 (Z.ltb_lt 0 _)) by lia. rewrite (u32_small (mPreRecivesTotalLen r)) by (znorm; lia).
  assert (u32 (mPreRecivesTotalLen r - 4) = mPreRecivesTotalLen r - 4 + 2 ^ 32) as ->.
  { rewrite <- (u32_small (mPreRecivesTotalLen r - 4 + 2 ^ 32)) by (znorm; lia). apply (u32_cong (-1)). lia. }
  by rewrite (proj2 (Z.ltb_lt _ _)) by lia.
Qed.

Lemma run_stuck evs w r :
  1 <= mPreRecivesTotalLen r <= 3 →
  zlen (mDataStreamReceive r) + zlen (arrived evs) < 2 ^ 32 - 3 →
  ∃ r', run linked dispatcher evs w r = Ok (w, r') ∧ mPreRecivesTotalLen r' = mPreRecivesTotalLen r.
Proof.
  revert r. induction evs as [|e evs IH]; intros r Hp Hl; [by exists r|].
  unfold arrived in Hl. cbn [map concat] in Hl. rewrite zlen_app in Hl.
  pose proof (zlen_nonneg (arrived evs)) as Ha. unfold arrived in Ha.
  destruct e as [chunk|]; cbn [run].
  - destruct (Receive_spec chunk r) as (temp & ->). cbn [snd].
    apply (IH (set_receive (mDataStreamReceive r ++ chunk) (set_temp temp r))); [done|].
    cbn. rewrite zlen_app. unfold arrived. lia.
  - rewrite zlen_nil in Hl. rewrite ProcessRecv_stuck by (done || lia). cbn [mbind outcome_bind].
    apply IH; [done|]. unfold arrived. lia.
Qed.

(** *** Memory safety and termination on arbitrary input *)

Lemma read_raw_length fuel size s ok chunk s' :
  0 <= size → read_raw fuel size s = (ok, chunk, s') → zlen chunk <= size.
Proof.
  revert size s ok chunk s'. induction fuel as [|fuel IH]; intros size s ok chunk s' Hs; cbn [read_raw];
    destruct (BufferSize s <? size) eqn:E; zbool; intros H; simplify_eq.
  - done.
  - unfold BufferSize in E. unfold zlen in *. rewrite length_take. lia.
  - destruct (Refresh (set_buffer s [])) as [b s1]. destruct b.
    + destruct (read_raw fuel (size - zlen (buffer_ s)) s1) as [[ok2 rest] s2] eqn:E2. simplify_eq.
      unfold BufferSize in E. apply IH in E2; [|lia]. rewrite zlen_app. lia.
    + simplify_eq. unfold BufferSize in E. lia.
  - unfold BufferSize in E. unfold zlen in *. rewrite length_take. lia.
Qed.

Lemma store_length chunk old : (length chunk <= length old)%nat → length (store chunk old) = length old.
Proof. intros. unfold store. rewrite length_app, length_drop. lia. Qed.

(** The scratch array as the code declares it: a write past its end would make
    the list longer. *)
Definition temp_ok (r : MessageRoute) : Prop := zlen (mTempBufferProcess r) = TEMP_BUFFER_SIZE.

(** Processors that neither run out of fuel nor touch the scratch array. *)
Definition tame : Prop :=
  ∀ w r n m, temp_ok r →
  match try_dispatch dispatcher w r n m with
  | Ok (_, r') => temp_ok r'
  | Undefined => True
  | NoFuel => False
  end.

(** What a call may end in. *)
Definition safe (o : outcome (bool * W * MessageRoute)) : Prop :=
  match o with
  | Ok (_, _, r') => temp_ok r'
  | Undefined => True
  | NoFuel => False
  end.

Lemma temp_ok_store chunk r : zlen chunk <= TEMP_BUFFER_SIZE → temp_ok r →
  temp_ok (set_temp_process (store chunk (mTempBufferProcess r)) r).
Proof.
  unfold temp_ok. cbn. intros Hc Ht. unfold zlen in *. rewrite store_length; [done|]. lia.
Qed.

Lemma ReadRaw_chunk n s ok chunk s' : 0 <= n → ReadRaw n s = (ok, chunk, s') → zlen chunk <= n.
Proof. intros Hn E. by eapply read_raw_length. Qed.

Lemma ReadLittleEndian32_nonneg s v s' : ReadLittleEndian32 s = (v, s') → 0 <= default 0 v.
Proof.
  assert (Hb : ∀ b, 0 <= ReadLittleEndian32FromArray b).
  { intros b. unfold ReadLittleEndian32FromArray. do 4 (destruct b as [|? b]; [done|]).
    repeat (apply Z.lor_nonneg; split); rewrite ?Z.shiftl_nonneg; apply b2z_range. }
  unfold ReadLittleEndian32. case_match; intros H'; simplify_eq; [apply Hb|].
  repeat case_match; simplify_eq; [apply Hb|done].
Qed.

Lemma take_bound {A} (l : list A) n : 0 <= n <= TEMP_BUFFER_SIZE → zlen (take (Z.to_nat n) l) < INT_MAX.
Proof. unfold zlen, TEMP_BUFFER_SIZE, INT_MAX. rewrite length_take. lia. Qed.

(** Objects of the pool: the ten classes of the schema, and others under other names. *)
Definition pool_type_name (p : PoolMessage) : bytes :=
  match p with Known x => GetTypeName x | Foreign n => n end.

Definition pool_object (p : PoolMessage) : Prop :=
  match p with Known _ => True | Foreign n => find_prototype n generated_pool = None end.

Lemma createMessage_name n p : createMessage linked n = Some p → pool_type_name p = n ∧ pool_object p.
Proof.
  unfold createMessage. destruct (find_prototype n generated_pool) as [x|] eqn:E.
  - intros [= <-]. split; [|done]. by apply find_prototype_name.
  - case_match; [|done]. by intros [= <-].
Qed.

Lemma pool_Parse_total data p : zlen data < INT_MAX →
  ∃ ok p', pool_ParseFromArray data p = Some (ok, p') ∧ pool_type_name p' = pool_type_name p ∧
    (pool_object p → pool_object p').
Proof.
  intros Hd. destruct p as [x|n]; cbn [pool_ParseFromArray]; [|by eexists _, _].
  destruct (any_Parse_total data x Hd) as (ok & x' & -> & Hn). by eexists _, _.
Qed.

(** Whatever the bytes, a call either stops early or hands a processor an object
    of the class the head names, with the scratch array still of its size. *)
Section Cases.
Context (w : W) (out : bytes) (post : outcome (bool * W * MessageRoute) → Prop).

Definition untouched (r : MessageRoute) : Prop := temp_ok r ∧ mDataStreamSend r = out.

Context (Hret : ∀ b r, untouched r → post (Ok (b, w, r))).
Context (Hcall : ∀ r m, untouched r → pool_object m →
  post ('(w, r) ← try_dispatch dispatcher w r (pool_type_name m) m; Ok (true, w, set_pre 0 r))).

Lemma process_frame_cases totalLen ishold r :
  untouched r → post (process_frame linked dispatcher totalLen ishold w r).
Proof.
  intros Ht. unfold process_frame. destruct (ReadLittleEndian32 _) as [v cis] eqn:E.
  apply ReadLittleEndian32_nonneg in E.
  destruct (TEMP_BUFFER_SIZE <? default 0 v) eqn:E1; zbool; [by apply Hret|].
  destruct (ReadRaw (default 0 v) cis) as [[ok1 chunk1] cis1] eqn:Er1. apply ReadRaw_chunk in Er1; [|done].
  set (r1 := set_temp_process _ r). assert (Ht1 : untouched r1) by (split; [apply temp_ok_store; [lia|apply Ht]|apply Ht]).
  destruct (ParseFromArray_total (take (Z.to_nat (default 0 v)) (mTempBufferProcess r1)) CmdType_New)
    as (okp & cmd & ->); [apply take_bound; lia|].
  destruct ((_ <? 0) || (TEMP_BUFFER_SIZE <? _)) eqn:E2; [by apply Hret|]. zbool.
  set (n := s32 _) in *. destruct (ReadRaw n cis1) as [[ok2 chunk2] cis2] eqn:Er2.
  apply ReadRaw_chunk in Er2; [|done]. set (r2 := set_temp_process _ r1).
  assert (Ht2 : untouched r2) by (split; [apply temp_ok_store; [lia|apply Ht1]|apply Ht1]).
  destruct (createMessage _ _) as [p|] eqn:Ec; [|by apply Hret]. apply createMessage_name in Ec as [En Eo].
  destruct (pool_Parse_total (take (Z.to_nat n) (mTempBufferProcess
    (set_receive (is_buf (istream_of cis2)) r2))) p) as (okb & p' & -> & En' & Ho); [apply take_bound; lia|].
  rewrite <- En, <- En'. apply Hcall; [done|by apply Ho].
Qed.

Lemma ProcessRecv_cases r : untouched r → post (ProcessRecv linked dispatcher w r).
Proof.
  intros Ht. unfold ProcessRecv.
  repeat case_match; try (by apply Hret); by apply process_frame_cases.
Qed.
End Cases.

Lemma ProcessRecv_safe w r : tame → temp_ok r → safe (ProcessRecv linked dispatcher w r).
Proof.
  intros Htame Ht. apply (ProcessRecv_cases w (mDataStreamSend r)); [by intros b r' []| |done].
  intros r' m [Ht' _] _. specialize (Htame w r' (pool_type_name m) m Ht'). by destruct (try_dispatch _ _ _ _ _) as [[]| |].
Qed.

End Rejection.

(** ** Processors only see the type they are registered for *)

Section TypeSafety.
Context {W : Type} (linked : bytes → bool).

(** A processor that traps on an object of another class, where the code's
    [reinterpret_cast] would be undefined behaviour. *)
Definition trap (n : bytes) (p : BaseProcessor W) : BaseProcessor W :=
  {| Process := λ w r m, if decide (pool_type_name m = n) then Process p w r m else Undefined |}.

Definition trapping (d : ProcessorMap W) : ProcessorMap W := map_imap (λ n p, Some (trap n p)) d.

Lemma Dispatch_trapping d w r n m :
  pool_type_name m = n → Dispatch (trapping d) w r n m = Dispatch d w r n m.
Proof.
  intros Hn. unfold Dispatch, trapping. unfold ProcessorMap in *. rewrite map_lookup_imap.
  destruct (d !! n) as [p|]; [|done]. cbn. by rewrite decide_True.
Qed.

Lemma process_frame_trapping d totalLen ishold w r :
  process_frame linked (Some (trapping d)) totalLen ishold w r
  = process_frame linked (Some d) totalLen ishold w r.
Proof.
  unfold process_frame. destruct (ReadLittleEndian32 _) as [v cis] eqn:E.
  destruct (TEMP_BUFFER_SIZE <? default 0 v); [done|].
  destruct (ReadRaw (default 0 v) cis) as [[ok1 chunk1] cis1].
  destruct (ParseFromArray _ _) as [[ok c]|]; [|done].
  destruct ((_ <? 0) || (TEMP_BUFFER_SIZE <? _)) eqn:E2; [done|]. zbool.
  destruct (ReadRaw _ cis1) as [[ok2 chunk2] cis2].
  destruct (createMessage _ _) as [p|] eqn:Ec; [|done]. apply createMessage_name in Ec as [Ec _].
  match goal with |- context [pool_ParseFromArray ?l p] =>
    destruct (pool_Parse_total l p) as (ok3 & p' & -> & Ep & _); [apply take_bound; lia|] end.
  unfold try_dispatch. by rewrite Dispatch_trapping by congruence.
Qed.

Lemma ProcessRecv_trapping d w r :
  ProcessRecv linked (Some (trapping d)) w r = ProcessRecv linked (Some d) w r.
Proof. unfold ProcessRecv. repeat case_match; try done; apply process_frame_trapping. Qed.

End TypeSafety.

(** ** What the router promises *)

(** Sending several messages one after the other. *)
Definition send_all (ms : list AnyMessage) (r : MessageRoute) : MessageRoute :=
  fold_left (λ r x, snd (Send x r)) ms r.

Lemma sendable_typed x : sendable x → any_typed x ∧ zlen (any_encode x) <= INT_MAX - 2048.
Proof.
  intros [Hok Hl]. split; [by eapply any_ok_typed|]. unfold TEMP_BUFFER_SIZE in Hl. znorm. lia.
Qed.

Lemma send_all_stream ms r :
  Forall sendable ms →
  mDataStreamSend (send_all ms r) = mDataStreamSend r ++ concat (map frame ms).
Proof.
  intros H. revert r. induction H as [|x ms Hx _ IH]; intros r; cbn [send_all fold_left map concat].
  - by rewrite app_nil_r.
  - apply sendable_typed in Hx as [Ht Hl]. unfold send_all in IH. rewrite IH, Send_spec by done.
    cbn [snd mDataStreamSend set_totalSend set_send]. by rewrite app_assoc.
Qed.

(** A dispatcher that only records what it is given. *)
Definition log_processor : BaseProcessor (list AnyMessage) :=
  {| Process := λ w r m, match m with Known x => Ok (w ++ [x], r) | Foreign _ => Ok (w, r) end |}.

Definition log_dispatcher : ProcessorMap (list AnyMessage) :=
  list_to_map (map (λ '(n, _), (n, log_processor)) generated_pool).

(** The step the recording dispatcher takes; it sends nothing. *)
Definition log_step (o : list AnyMessage * bytes) (x : AnyMessage) : list AnyMessage * bytes :=
  (fst o ++ [x], snd o).

Lemma log_handles : handles (Some log_dispatcher) sendable log_step.
Proof. intros x w r _. exists (w ++ [x]), r. by destruct x. Qed.

Definition sample_move : AnyMessage := Any_reqMove (mk_reqMove 0x3f800000 0x40000000 []).

Lemma sample_move_sendable : sendable sample_move.
Proof. repeat constructor; vm_compute; try done; intros; by try discriminate. Qed.

Lemma sample_signin_sendable : sendable sample_signin.
Proof. split; [apply sample_signin_ok|by vm_compute]. Qed.

Definition empty_route : MessageRoute := new_MessageRoute 0 (repeat Byte.x00 1024) (repeat Byte.x00 1024).



(** [Send] appends to the send stream exactly the frame of the format
    document: magic, total length counted from its own field, head length, a
    [CmdType] naming the type and size, and the body; it never fails. *)
Theorem send_writes_frame x r :
  any_typed x → zlen (any_encode x) <= INT_MAX - 2048 →
  Send x r = (true, set_totalSend (u32 (totalSend r + (total_length x + 4)))
                      (set_send (mDataStreamSend r ++ frame x) r)).
Proof. apply Send_spec. Qed.

Lemma send_writes_frame_witness :
  Send sample_move empty_route =
    (true, set_totalSend 41 (set_send (frame sample_move) empty_route)).
Proof.
  apply (send_writes_frame sample_move empty_route).
  - apply (any_ok_typed _ _ (proj1 sample_move_sendable)).
  - vm_compute. intros H. discriminate H.
Defined.

(** A partially received frame is never lost and never acted on: whatever
    part has arrived, the call reports false, changes nothing outside the
    receiver, and the bytes still stand for the same prefix of the frame. *)
Theorem partial_frame_kept {W} linked (dispatcher : option (ProcessorMap W)) x more w r :
  sendable x → route_ok r → more ≠ [] → pending r ++ more = frame x →
  ∃ r', ProcessRecv linked dispatcher w r = Ok (false, w, r') ∧ pending r' = pending r ∧ route_ok r' ∧
    mDataStreamSend r' = mDataStreamSend r.
Proof. apply ProcessRecv_wait. Qed.

Lemma partial_frame_kept_witness :
  ∃ r', ProcessRecv (λ _, false) (Some log_dispatcher) []
          (snd (Receive (take 20 (frame sample_move)) empty_route)) = Ok (false, [], r') ∧
    pending r' = take 20 (frame sample_move) ∧ route_ok r' ∧ mDataStreamSend r' = [].
Proof.
  apply (partial_frame_kept (λ _, false) (Some log_dispatcher) sample_move (drop 20 (frame sample_move)) []
    (snd (Receive (take 20 (frame sample_move)) empty_route))).
  - apply sample_move_sendable.
  - vm_compute. split; [intros H; discriminate H|reflexivity].
  - vm_compute. intros H. discriminate H.
  - vm_compute. reflexivity.
Defined.

Lemma log_tame : tame (Some log_dispatcher).
Proof.
  intros w r n m Hr. unfold try_dispatch, Dispatch.
  destruct (log_dispatcher !! n) as [p|] eqn:E; [|exact Hr].
  unfold log_dispatcher, ProcessorMap in E.
  apply elem_of_list_to_map_2 in E. apply list_elem_of_fmap in E as ([n' y] & E & _).
  injection E as _ ->. destruct m; exact Hr.
Qed.



(** C28: no processor is ever handed an object of another class than the one it
    is registered for, so the unchecked [reinterpret_cast]s of the processors are
    justified: replacing every processor by one that traps on a foreign class
    changes nothing, whatever the input. *)
Theorem dispatch_type_safe {W} linked (d : ProcessorMap W) w r :
  ProcessRecv linked (Some (trapping d)) w r = ProcessRecv linked (Some d) w r.
Proof. apply ProcessRecv_trapping. Qed.

(** A complete frame whose body is longer than the 1024-byte scratch buffer
    is consumed and dropped without a trace; the frames behind it are intact. *)
Theorem oversized_body_dropped {W} linked (dispatcher : option (ProcessorMap W)) x rest w r :
  TEMP_BUFFER_SIZE < zlen (any_encode x) → total_length x <= INT_MAX →
  mPreRecivesTotalLen r = 0 → mDataStreamReceive r = frame x ++ rest →
  ∃ r', ProcessRecv linked dispatcher w r = Ok (false, w, r') ∧ pending r' = rest.
Proof.
  intros Hb Ht Hp Er. pose proof (zlen_nonneg rest) as Hr. pose proof (zlen_nonneg (head_bytes x)).
  pose proof (frame_tail_length x) as Hl.
  assert (12 <= total_length x) by (unfold total_length, TEMP_BUFFER_SIZE in *; lia).
  destruct (process_frame_oversized linked dispatcher x rest w r Hb Ht) as (temp & Ef).
  exists (set_pre 0 (set_receive rest (set_temp_process temp r))). split; [|done].
  rewrite <- Ef. apply ProcessRecv_complete; [lia|lia| |rewrite zlen_app; lia].
  rewrite Er. unfold frame. by rewrite <- !app_assoc.
Qed.

Definition big_alarm : AnyMessage := Any_reqAlarm (mk_reqAlarm (repeat Byte.x61 1100) []).

Lemma oversized_body_dropped_witness :
  ∃ r', ProcessRecv (λ _, false) (Some log_dispatcher) []
          (set_receive (frame big_alarm ++ frame sample_move) empty_route) = Ok (false, [], r') ∧
    pending r' = frame sample_move.
Proof.
  apply (oversized_body_dropped (λ _, false) (Some log_dispatcher) big_alarm (frame sample_move) []
    (set_receive (frame big_alarm ++ frame sample_move) empty_route)).
  - vm_compute. reflexivity.
  - vm_compute. intros H. discriminate H.
  - reflexivity.
  - reflexivity.
Defined.

(** A head without the magic costs exactly its first four bytes, and the
    saved length is reset. *)
Theorem bad_magic_skips_four {W} linked (dispatcher : option (ProcessorMap W)) w r :
  mPreRecivesTotalLen r <= 0 → 8 <= zlen (mDataStreamReceive r) →
  take 4 (mDataStreamReceive r) ≠ head →
  ProcessRecv linked dispatcher w r =
    Ok (false, w, set_pre 0 (set_receive (drop 4 (mDataStreamReceive r)) r)).
Proof. apply ProcessRecv_bad_magic. Qed.

Lemma bad_magic_skips_four_witness :
  ProcessRecv (λ _, false) (Some log_dispatcher) [] (set_receive (bs "GET / HTTP") empty_route) =
    Ok (false, [], set_pre 0 (set_receive (bs "/ HTTP") empty_route)).
Proof.
  apply (bad_magic_skips_four (λ _, false) (Some log_dispatcher) [] (set_receive (bs "GET / HTTP") empty_route)).
  - vm_compute. intros H. discriminate H.
  - vm_compute. intros H. discriminate H.
  - vm_compute. intros H. discriminate H.
Defined.

(** C37: a saved length of 1, 2 or 3 (which one corrupt header, or the
    uninitialised field of a fresh route, can leave behind) wedges the receiver:
    no sequence of arrivals and calls, short of 4 GiB, ever dispatches anything
    again or clears the length. *)
Theorem short_length_wedges {W} linked (dispatcher : option (ProcessorMap W)) evs w r :
  1 <= mPreRecivesTotalLen r <= 3 →
  zlen (mDataStreamReceive r) + zlen (arrived evs) < 2 ^ 32 - 3 →
  ∃ r', run linked dispatcher evs w r = Ok (w, r') ∧ mPreRecivesTotalLen r' = mPreRecivesTotalLen r.
Proof. apply run_stuck. Qed.

Lemma short_length_wedges_witness :
  ∃ r', run (λ _, false) (Some log_dispatcher) [Arrive (frame sample_move); Tick; Tick] []
          (new_MessageRoute 1 [] []) = Ok ([], r') ∧ mPreRecivesTotalLen r' = 1.
Proof.
  apply (short_length_wedges (λ _, false) (Some log_dispatcher) [Arrive (frame sample_move); Tick; Tick] []
    (new_MessageRoute 1 [] [])).
  - vm_compute. split; intros H; discriminate H.
  - vm_compute. reflexivity.
Defined.
