(* ===== verification/ServerDispatch.v ===== *)
(** The server's message processors and dispatcher (src/MiniProtobufServer:
    ServerMessageDispatcher.cpp, SigninProcessor.cpp, MoveProcessor.cpp), and the
    request/response behaviour of the server over a byte stream.

    A processor's [reinterpret_cast] of an object of another class, and reading
    element 0 of an empty repeated field, are [Undefined]. *)

From S2P Require Import Prelude CodedStream Utf8 WireFormat WireFormatFacts BaseCmd BaseCmdFacts.
From S2P Require Import Messages MessageRoute MessageRouteFacts.
Import CodedOutput CodedInput WireFormatLite WireFormat MessageLite.

(** What the processors print. *)
Inductive console_line :=
  | UserName (name : bytes)
  | MoveBy (forward angle : Z).

Definition console := list console_line.

Definition move_reply : rspMove :=
  set_rspMove_error rspMove_New (bs "Move Function Success with No Error").

Definition MoveProcessor : BaseProcessor console := {|
  Process := λ w spRoute spMsg,
    match spMsg with
    | Known (Any_reqMove p_req) =>
        let forward := reqMove_forward p_req in
        let angle := reqMove_angle p_req in
        let w := w ++ [MoveBy forward angle] in
        Ok (w, snd (Send (Any_rspMove move_reply) spRoute))
    | _ => Undefined
    end
|}.

Definition signin_reply (name : bytes) : rspSignin :=
  set_rspSignin_succ (set_rspSignin_name rspSignin_New name) true.

Definition SigninProcessor : BaseProcessor console := {|
  Process := λ w spRoute spMsg,
    match spMsg with
    | Known (Any_reqSignin p_req) =>
        match reqSignin_user p_req with
        | [] => Undefined
        | user :: _ =>
            let name := sUser_name user in
            let w := w ++ [UserName name] in
            Ok (w, snd (Send (Any_rspSignin (signin_reply name)) spRoute))
        end
    | _ => Undefined
    end
|}.

(** The constructor's three assignments [m_ProcessorMap[...] = ...]; the third
    names the local [reqMove] again. *)
Definition ServerMessageDispatcher : ProcessorMap console :=
  <[GetTypeName (Any_reqMove reqMove_New) := MoveProcessor]>
  (<[GetTypeName (Any_reqMove reqMove_New) := MoveProcessor]>
  (<[GetTypeName (Any_reqSignin reqSignin_New) := SigninProcessor]> ∅)).

(** ** What the server answers *)

Section ServerFacts.

(** Console output and reply for a message, as the processors define them. *)
Definition reply (x : AnyMessage) : option (console_line * AnyMessage) :=
  match x with
  | Any_reqMove m => Some (MoveBy (reqMove_forward m) (reqMove_angle m), Any_rspMove move_reply)
  | Any_reqSignin m =>
      match reqSignin_user m with
      | u :: _ => Some (UserName (sUser_name u), Any_rspSignin (signin_reply (sUser_name u)))
      | [] => None
      end
  | _ => None
  end.

Definition server_step (o : console * bytes) (x : AnyMessage) : console * bytes :=
  match reply x with
  | Some (line, y) => (fst o ++ [line], snd o ++ frame y)
  | None => o
  end.

(** Requests that do not make the sign-in processor read a missing element. *)
Definition has_user (x : AnyMessage) : Prop :=
  match x with Any_reqSignin m => reqSignin_user m ≠ [] | _ => True end.

Lemma move_reply_sendable : sendable (Any_rspMove move_reply).
Proof. repeat constructor; vm_compute; try done; intros; by try discriminate. Qed.

(** Lengths take at least two bytes from 128 on, and at most two up to 16383. *)
Lemma write_varint_two v : is_u32 v →
  (128 <= v → 2 <= zlen (write_varint 5 v)) ∧ (v < 16384 → zlen (write_varint 5 v) <= 2).
Proof.
  intros Hv. split.
  - intros Hl. generalize 4%nat as k. intros k. cbn [write_varint]. rewrite Z.geb_leb, (proj2 (Z.leb_le _ _)), zlen_cons by lia.
    pose proof (write_varint_nonempty k (Z.shiftr v 7)) as Hne.
    destruct (write_varint k (Z.shiftr v 7)) as [|b l]; [done|]. rewrite zlen_cons.
    pose proof (zlen_nonneg l). lia.
  - intros Hl. unfold is_u32 in Hv. rewrite (write_varint_more 1 5) by (simpl; lia).
    apply write_varint_bound.
Qed.

Lemma signin_reply_sendable name :
  string_ok name → zlen name <= 1018 → sendable (Any_rspSignin (signin_reply name)).
Proof.
  intros Hs Hl. split.
  - cbn. split; [exact Hs|constructor].
  - unfold any_encode. cbn [with_class InternalSerializeWithCachedSizesToArray rspSignin_Message].
    unfold rspSignin_InternalSerializeWithCachedSizesToArray, signin_reply, TEMP_BUFFER_SIZE.
    cbn [rspSignin_name rspSignin_succ rspSignin_unknown_fields set_rspSignin_succ set_rspSignin_name].
    rewrite !zlen_app. change (zlen (SerializeUnknownFieldsToArray [])) with 0.
    change (zlen (opt_bytes true (WriteBoolToArray 2 true))) with 2.
    unfold opt_bytes, WriteStringToArray, WriteStringWithSizeToArray, WriteVarint32ToArray.
    change (zlen (SerializeUnknownFieldsToArray (rspSignin_unknown_fields rspSignin_New))) with 0.
    pose proof (zlen_nonneg name). rewrite u32_small by (znorm; lia).
    pose proof (proj2 (write_varint_two (zlen name) ltac:(znorm; lia)) ltac:(lia)).
    case_match; [|rewrite (@zlen_nil byte); lia].
    rewrite !zlen_app. change (zlen (WireFormatLite.WriteTagToArray 1 WIRETYPE_LENGTH_DELIMITED)) with 1. lia.
Qed.

(** A user's name in a request that fits the receiver fits the answer too. *)
Lemma signin_name_bound m u us :
  sendable (Any_reqSignin m) → reqSignin_user m = u :: us → string_ok (sUser_name u) ∧ zlen (sUser_name u) <= 1018.
Proof.
  intros [Hok Hl] E. pose proof Hok as [Hus _]. rewrite E in Hus.
  inversion_clear Hus as [|? ? Hu _]. destruct Hu as (_ & Hu & Hmax).
  pose proof Hu as [Hs _]. split; [exact Hs|]. apply Z.nlt_ge. intros Hn. revert Hl. apply Z.lt_nge.
  unfold any_encode, TEMP_BUFFER_SIZE.
  cbn [with_class InternalSerializeWithCachedSizesToArray reqSignin_Message].
  unfold reqSignin_InternalSerializeWithCachedSizesToArray. rewrite E. cbn [map concat].
  unfold InternalWriteMessageToArray, WriteVarint32ToArray. rewrite !zlen_app.
  change (zlen (WireFormatLite.WriteTagToArray 1 WIRETYPE_LENGTH_DELIMITED)) with 1.
  set (body := InternalSerializeWithCachedSizesToArray u) in *.
  assert (zlen (sUser_name u) + 3 <= zlen body) as Hbody.
  { subst body. cbn [InternalSerializeWithCachedSizesToArray sUser_Message].
    unfold sUser_InternalSerializeWithCachedSizesToArray. rewrite (proj2 (Z.ltb_lt _ _)) by lia.
    rewrite zlen_app. unfold opt_bytes at 1, WriteStringToArray at 1, WriteStringWithSizeToArray, WriteVarint32ToArray.
    rewrite zlen_app, (zlen_app _ (sUser_name u)).
    change (zlen (WireFormatLite.WriteTagToArray 1 WIRETYPE_LENGTH_DELIMITED)) with 1.
    match goal with |- _ <= _ + zlen ?l => pose proof (zlen_nonneg l) end.
    destruct Hs as [Hmax' _]. rewrite u32_small by (znorm; lia).
    pose proof (proj1 (write_varint_two (zlen (sUser_name u)) ltac:(znorm; lia)) ltac:(lia)). lia. }
  pose proof (zlen_nonneg body). rewrite GetCachedSize_length by (by eapply law_typed).
  fold body. rewrite u32_small by (znorm; lia).
  pose proof (proj1 (write_varint_two (zlen body) ltac:(znorm; lia)) ltac:(lia)).
  pose proof (zlen_nonneg (concat (map (InternalWriteMessageToArray 1) us))).
  pose proof (zlen_nonneg (SerializeUnknownFieldsToArray (reqSignin_unknown_fields m))).
  unfold InternalWriteMessageToArray, WriteVarint32ToArray in *. lia.
Qed.

Lemma Send_outside x r : sendable x →
  mDataStreamSend (snd (Send x r)) = mDataStreamSend r ++ frame x ∧
  mDataStreamReceive (snd (Send x r)) = mDataStreamReceive r ∧
  mTempBufferProcess (snd (Send x r)) = mTempBufferProcess r.
Proof. intros Hx. apply sendable_typed in Hx as [Ht Hl]. by rewrite Send_spec. Qed.

(** What the map holds under each name. *)
Lemma server_lookup x :
  ServerMessageDispatcher !! GetTypeName x =
    match x with
    | Any_reqMove _ => Some MoveProcessor
    | Any_reqSignin _ => Some SigninProcessor
    | _ => None
    end.
Proof.
  unfold ServerMessageDispatcher. destruct x;
    rewrite ?lookup_insert_eq, ?lookup_insert_ne by (by vm_compute); (reflexivity || done).
Qed.

Lemma server_dispatch x w r :
  Dispatch ServerMessageDispatcher w r (GetTypeName x) (Known x) =
    match x with
    | Any_reqMove m =>
        Ok (w ++ [MoveBy (reqMove_forward m) (reqMove_angle m)], snd (Send (Any_rspMove move_reply) r))
    | Any_reqSignin m =>
        match reqSignin_user m with
        | [] => Undefined
        | u :: _ => Ok (w ++ [UserName (sUser_name u)],
                        snd (Send (Any_rspSignin (signin_reply (sUser_name u))) r))
        end
    | _ => Ok (w, r)
    end.
Proof. unfold Dispatch. rewrite server_lookup. by destruct x. Qed.

(** Requests the server answers or ignores without undefined behaviour. *)
Definition servable (x : AnyMessage) : Prop := sendable x ∧ has_user x.

Lemma server_handles : handles (Some ServerMessageDispatcher) servable server_step.
Proof.
  intros x w r [Hx Hu]. unfold try_dispatch. rewrite server_dispatch. unfold server_step, reply, outside.
  destruct x as [| | | |m| |m| | |]; try (by eexists _, _).
  - destruct (reqSignin_user m) as [|u us] eqn:E; [by destruct Hu|].
    destruct (signin_name_bound m u us Hx E) as [Hs Hl].
    destruct (Send_outside _ r (signin_reply_sendable _ Hs Hl)) as (E1 & E2 & _).
    eexists _, _. split; [done|]. by rewrite E1, E2.
  - destruct (Send_outside _ r move_reply_sendable) as (E1 & E2 & _).
    eexists _, _. split; [done|]. by rewrite E1, E2.
Qed.

(** What a run of requests prints and answers. *)
Definition printed (ms : list AnyMessage) : console := omap (λ x, fst <$> reply x) ms.
Definition replies (ms : list AnyMessage) : list AnyMessage := omap (λ x, snd <$> reply x) ms.

Lemma server_fold ms w out :
  fold_left server_step ms (w, out) = (w ++ printed ms, out ++ concat (map frame (replies ms))).
Proof.
  revert w out. induction ms as [|x ms IH]; intros w out; cbn [fold_left].
  - cbn. by rewrite !app_nil_r.
  - unfold server_step at 2. unfold printed, replies in *. cbn [omap list_omap].
    destruct (reply x) as [[line y]|]; cbn [fmap option_fmap option_map fst snd]; rewrite IH; [|done].
    cbn [map concat]. by rewrite <- !app_assoc.
Qed.

Lemma replies_sendable ms : Forall servable ms → Forall sendable (replies ms).
Proof.
  induction 1 as [|x ms [Hx Hu] _ IH]; [constructor|]. unfold replies in *. cbn [omap list_omap].
  destruct x as [| | | |m| |m| | |]; cbn [reply fmap option_fmap option_map snd]; try done.
  - destruct (reqSignin_user m) as [|u us] eqn:E; [done|]. cbn [fmap option_fmap option_map snd].
    constructor; [|done]. by apply signin_reply_sendable; eapply signin_name_bound.
  - constructor; [apply move_reply_sendable|done].
Qed.

End ServerFacts.

(** ** Witnesses and what the server gets wrong *)

Lemma sample_move_servable : servable sample_move.
Proof. split; [apply sample_move_sendable|done]. Qed.

Lemma sample_signin_servable : servable sample_signin.
Proof. split; [apply sample_signin_sendable|]. by vm_compute. Qed.


(** One well-formed frame takes the server into undefined behaviour: a
    sign-in request without users makes the processor read element 0 of an empty
    repeated field. *)
Theorem empty_signin_undefined linked m rest w r :
  sendable (Any_reqSignin m) → reqSignin_user m = [] →
  mPreRecivesTotalLen r = 0 → mDataStreamReceive r = frame (Any_reqSignin m) ++ rest →
  ProcessRecv linked (Some ServerMessageDispatcher) w r = Undefined.
Proof.
  intros Hs Hu Hp Hr.
  destruct (ProcessRecv_deliver linked (Some ServerMessageDispatcher) (Any_reqSignin m) rest w r Hs)
    as (temp & ->).
  - unfold route_ok. rewrite Hp. znorm. lia.
  - unfold pending. by rewrite Hp, Hr.
  - unfold deliver, try_dispatch. by rewrite server_dispatch, Hu.
Qed.

Lemma empty_signin_undefined_witness :
  ProcessRecv (λ _, false) (Some ServerMessageDispatcher) []
    (snd (Receive (frame (Any_reqSignin reqSignin_New)) empty_route)) = Undefined.
Proof.
  apply (empty_signin_undefined (λ _, false) reqSignin_New [] []
    (snd (Receive (frame (Any_reqSignin reqSignin_New)) empty_route))).
  - split; [split; constructor|vm_compute; discriminate].
  - reflexivity.
  - reflexivity.
  - vm_compute. reflexivity.
Defined.

(** An alarm request, which the dispatcher's constructor means to register,
    is consumed and never handled: nothing is printed, nothing is answered. *)
Theorem alarm_never_handled linked m rest w r :
  sendable (Any_reqAlarm m) →
  mPreRecivesTotalLen r = 0 → mDataStreamReceive r = frame (Any_reqAlarm m) ++ rest →
  ∃ r', ProcessRecv linked (Some ServerMessageDispatcher) w r = Ok (true, w, r') ∧
    mDataStreamSend r' = mDataStreamSend r ∧ mDataStreamReceive r' = rest.
Proof.
  intros Hs Hp Hr.
  destruct (ProcessRecv_deliver linked (Some ServerMessageDispatcher) (Any_reqAlarm m) rest w r Hs)
    as (temp & ->).
  - unfold route_ok. rewrite Hp. znorm. lia.
  - unfold pending. by rewrite Hp, Hr.
  - unfold deliver, try_dispatch. rewrite server_dispatch. by eexists.
Qed.

Lemma alarm_never_handled_witness :
  ∃ r', ProcessRecv (λ _, false) (Some ServerMessageDispatcher) []
      (snd (Receive (frame (Any_reqAlarm (set_reqAlarm_infomessage reqAlarm_New (bs "fire")))) empty_route))
      = Ok (true, [], r') ∧ mDataStreamSend r' = [] ∧ mDataStreamReceive r' = [].
Proof.
  apply (alarm_never_handled (λ _, false) (set_reqAlarm_infomessage reqAlarm_New (bs "fire")) [] []
    (snd (Receive (frame (Any_reqAlarm (set_reqAlarm_infomessage reqAlarm_New (bs "fire")))) empty_route))).
  - split; [split; [split; [vm_compute; discriminate|reflexivity]|constructor]|vm_compute; discriminate].
  - reflexivity.
  - vm_compute. reflexivity.
Defined.
