(* ===== verification/ClientDispatch.v ===== *)
(** The client's message processors, dispatcher and request generator
    (src/MiniProtobufClient: ClientMessageDispatcher.cpp, SigninProcessor.cpp,
    MoveProcessor.cpp, main.cpp).  The processors only read the response. *)

From Stdlib Require Import Ascii.
From S2P Require Import Prelude CodedStream Utf8 WireFormat WireFormatFacts BaseCmd BaseCmdFacts.
From S2P Require Import Messages MessageRoute MessageRouteFacts ServerDispatch.
Import CodedOutput CodedInput WireFormatLite WireFormat MessageLite.

Definition SigninProcessor {W} : BaseProcessor W := {|
  Process := λ w spRoute spMsg,
    match spMsg with
    | Known (Any_rspSignin p_rsp) =>
        let name := rspSignin_name p_rsp in
        let succ := rspSignin_succ p_rsp in
        Ok (w, spRoute)
    | _ => Undefined
    end
|}.

Definition MoveProcessor {W} : BaseProcessor W := {|
  Process := λ w spRoute spMsg,
    match spMsg with
    | Known (Any_rspMove p_rsp) =>
        let error := rspMove_error p_rsp in
        Ok (w, spRoute)
    | _ => Undefined
    end
|}.

Definition ClientMessageDispatcher {W} : ProcessorMap W :=
  <[GetTypeName (Any_rspMove rspMove_New) := MoveProcessor]>
  (<[GetTypeName (Any_rspSignin rspSignin_New) := SigninProcessor]> ∅).

(** ** The request generator *)

(** [req.add_user()], with the element as the caller then fills it. *)
Definition add_reqSignin_user (m : reqSignin) (user : sUser) : reqSignin :=
  set_reqSignin_user m (reqSignin_user m ++ [user]).

(** The three requests of [detectinput], by the letter it has drawn. *)
Definition client_request (temp : Ascii.ascii) (r : MessageRoute) : MessageRoute :=
  if decide (temp = "s"%char) then
    let user := set_sUser_id (set_sUser_name sUser_New (bs "michael")) 99 in
    snd (Send (Any_reqSignin (add_reqSignin_user reqSignin_New user)) r)
  else if decide (temp = "m"%char) then
    snd (Send (Any_reqMove (set_reqMove_angle (set_reqMove_forward reqMove_New 0x42c80000) 0x43480000)) r)
  else if decide (temp = "a"%char) then
    snd (Send (Any_reqAlarm (set_reqAlarm_infomessage reqAlarm_New (bs "Alerm message Info"))) r)
  else r.

(** [temp = vec[1]]: always the move request. *)
Definition detectinput (r : MessageRoute) : MessageRoute :=
  client_request (nth 1 ["s"; "m"; "a"]%char "s"%char) r.

(** The loop of [clientStart]: [while (++cur < num)]. *)
Fixpoint client_loop (fuel : nat) (cur num : Z) (r : MessageRoute) : MessageRoute :=
  match fuel with
  | O => r
  | S fuel => if cur + 1 <? num then client_loop fuel (cur + 1) num (detectinput r) else r
  end.

Definition clientStart (r : MessageRoute) : MessageRoute := client_loop 2001 0 2001 r.

(** ** What the client does *)

Definition move_request : AnyMessage :=
  Any_reqMove (set_reqMove_angle (set_reqMove_forward reqMove_New 0x42c80000) 0x43480000).

Lemma move_request_sendable : sendable move_request.
Proof. repeat constructor; vm_compute; try done; intros; by try discriminate. Qed.

Lemma detectinput_spec r : detectinput r = snd (Send move_request r).
Proof. reflexivity. Qed.

Lemma client_loop_spec n fuel cur num r :
  (n <= fuel)%nat → cur + 1 + Z.of_nat n = num →
  client_loop fuel cur num r = send_all (repeat move_request n) r.
Proof.
  revert fuel cur r. induction n as [|n IH]; intros fuel cur r Hf Hc.
  - destruct fuel; cbn [client_loop]; [done|]. by rewrite (proj2 (Z.ltb_ge _ _)) by lia.
  - destruct fuel as [|fuel]; [lia|]. cbn [client_loop]. rewrite (proj2 (Z.ltb_lt _ _)) by lia.
    rewrite IH by lia. by rewrite detectinput_spec.
Qed.

(** Every object under a registered name is of the class its processor casts to. *)
Lemma client_dispatch_total {W} (w : W) r m : pool_object m →
  try_dispatch (Some ClientMessageDispatcher) w r (pool_type_name m) m = Ok (w, r).
Proof.
  intros Hm. unfold try_dispatch, Dispatch, ClientMessageDispatcher, ProcessorMap.
  destruct (decide (GetTypeName (Any_rspMove rspMove_New) = pool_type_name m)) as [E|E].
  - rewrite <- E, lookup_insert_eq. destruct m as [[]|n]; try done.
    cbn in E. subst n. by vm_compute in Hm.
  - rewrite lookup_insert_ne by done.
    destruct (decide (GetTypeName (Any_rspSignin rspSignin_New) = pool_type_name m)) as [E2|E2].
    + rewrite <- E2, lookup_insert_eq. destruct m as [[]|n]; try done.
      cbn in E2. subst n. by vm_compute in Hm.
    + by rewrite lookup_insert_ne, lookup_empty by done.
Qed.

Lemma ProcessRecv_client {W} linked (w : W) r :
  temp_ok r →
  ∃ b r', ProcessRecv linked (Some ClientMessageDispatcher) w r = Ok (b, w, r') ∧
    temp_ok r' ∧ mDataStreamSend r' = mDataStreamSend r.
Proof.
  intros Ht. apply (ProcessRecv_cases linked _ w (mDataStreamSend r)); [|clear; intros r' m Hr Hm|done].
  - intros b r' Hr. by exists b, r'.
  - rewrite client_dispatch_total by done. by exists true, (set_pre 0 r').
Qed.

(** The client's receiver is total: on any bytes whatsoever, in any state of
    its scratch buffer, a call returns, runs no processor on a foreign object,
    sends nothing, and stays within its scratch array. *)
Theorem client_receive_total {W} linked (w : W) r :
  temp_ok r →
  ∃ b r', ProcessRecv linked (Some ClientMessageDispatcher) w r = Ok (b, w, r') ∧
    temp_ok r' ∧ mDataStreamSend r' = mDataStreamSend r.
Proof. apply ProcessRecv_client. Qed.

Lemma client_receive_total_witness :
  ∃ b r', ProcessRecv (λ _, true) (Some ClientMessageDispatcher) tt
      (snd (Receive (bs "pbh" ++ repeat Byte.xff 40) empty_route)) = Ok (b, tt, r') ∧
    temp_ok r' ∧ mDataStreamSend r' = [].
Proof.
  apply (client_receive_total (λ _, true) tt (snd (Receive (bs "pbh" ++ repeat Byte.xff 40) empty_route))).
  reflexivity.
Defined.

(** The client's processors leave the outside alone. *)
Lemma client_handles W :
  handles (Some (@ClientMessageDispatcher W)) sendable (λ o _, o).
Proof.
  intros x w r _. exists w, r. split_and!; [|done|done]. by apply (client_dispatch_total w r (Known x)).
Qed.

Lemma clientStart_spec r : clientStart r = send_all (repeat move_request 2000) r.
Proof. apply (client_loop_spec 2000 2001 0 2001); lia. Qed.

Lemma Forall_repeat {A} (P : A → Prop) x n : P x → Forall P (repeat x n).
Proof. intros Hx. induction n; constructor; auto. Qed.

Lemma replies_repeat n :
  ServerDispatch.printed (repeat move_request n) = repeat (ServerDispatch.MoveBy 0x42c80000 0x43480000) n ∧
  ServerDispatch.replies (repeat move_request n)
    = repeat (Any_rspMove ServerDispatch.move_reply) n.
Proof.
  induction n as [|n [IH1 IH2]]; [done|]. cbn [repeat].
  unfold ServerDispatch.printed, ServerDispatch.replies in *. cbn [omap list_omap].
  cbn [ServerDispatch.reply move_request fmap option_fmap option_map fst snd].
  by rewrite IH1, IH2.
Qed.

Lemma fold_left_id {A B} (l : list B) (o : A) : fold_left (λ o _, o) l o = o.
Proof. by induction l. Qed.


