(* ===== verification/HttpParser.v ===== *)
(** The HTTP request parser (src/MiniProtobufServer/HttpServer:
    request_parser.{hpp,cpp}, request.hpp, header.hpp).

    [consume] is the switch of the code, one character at a time.  Its undefined
    behaviours are [Undefined]: [headers.back()] of an empty vector, and the
    overflow of the two [int] version numbers.  The two version numbers of a
    request that has not reached its version yet are whatever the memory held. *)

From S2P Require Import Prelude.

Record header := mk_header { name : bytes; value : bytes }.

Record request := mk_request {
  method_ : bytes;
  uri_ : bytes;
  http_version_major_ : Z;
  http_version_minor_ : Z;
  headers : list header
}.

(** [enum result_type]. *)
Inductive result_type := good | bad | indeterminate.

(** [enum state]. *)
Inductive state :=
  | method_start | method | uri
  | http_version_h | http_version_t_1 | http_version_t_2 | http_version_p | http_version_slash
  | http_version_major_start | http_version_major | http_version_minor_start | http_version_minor
  | expecting_newline_1 | header_line_start | header_lws | header_name
  | space_before_header_value | header_value | expecting_newline_2 | expecting_newline_3.

#[global] Instance state_eq_dec : EqDecision state.
Proof. solve_decision. Defined.
#[global] Instance result_type_eq_dec : EqDecision result_type.
Proof. solve_decision. Defined.

(** *** Character classes, on the [int] a [char] converts to *)

Definition is_char (c : Z) : bool := (c >=? 0) && (c <=? 127).
Definition is_ctl (c : Z) : bool := ((c >=? 0) && (c <=? 31)) || (c =? 127).

(** The characters of the switch, by code: ( ) < > @ , ; : \ quote / [ ] ? = { } space tab. *)
Definition tspecials : list Z :=
  [40; 41; 60; 62; 64; 44; 59; 58; 92; 34; 47; 91; 93; 63; 61; 123; 125; 32; 9].
Definition is_tspecial (c : Z) : bool := existsb (Z.eqb c) tspecials.
Definition is_digit (c : Z) : bool := (c >=? 48) && (c <=? 57).

(** What the code tests three times: not a character of a token. *)
Definition not_token (c : Z) : bool := negb (is_char c) || is_ctl c || is_tspecial c.

(** *** Updates of the request *)

Definition push_method (c : byte) (r : request) : request :=
  mk_request (method_ r ++ [c]) (uri_ r) (http_version_major_ r) (http_version_minor_ r) (headers r).
Definition push_uri (c : byte) (r : request) : request :=
  mk_request (method_ r) (uri_ r ++ [c]) (http_version_major_ r) (http_version_minor_ r) (headers r).
Definition set_major (v : Z) (r : request) : request :=
  mk_request (method_ r) (uri_ r) v (http_version_minor_ r) (headers r).
Definition set_minor (v : Z) (r : request) : request :=
  mk_request (method_ r) (uri_ r) (http_version_major_ r) v (headers r).
Definition set_headers (h : list header) (r : request) : request :=
  mk_request (method_ r) (uri_ r) (http_version_major_ r) (http_version_minor_ r) h.

(** [headers.back()] and a change of it. *)
Fixpoint update_back (f : header → header) (l : list header) : outcome (list header) :=
  match l with
  | [] => Undefined
  | [h] => Ok [f h]
  | h :: l => l' ← update_back f l; Ok (h :: l')
  end.

Definition push_name (c : byte) (h : header) : header := mk_header (name h ++ [c]) (value h).
Definition push_value (c : byte) (h : header) : header := mk_header (name h) (value h ++ [c]).

(** An [int] expression: a value out of range is undefined. *)
Definition int_result (z : Z) : outcome Z :=
  if (- 2 ^ 31 <=? z) && (z <? 2 ^ 31) then Ok z else Undefined.

(** [v * 10 + input - '0']. *)
Definition add_digit (v c : Z) : outcome Z :=
  v ← int_result (v * 10); v ← int_result (v + c); int_result (v - 48).

(** [request_parser::consume]. *)
Definition consume (state_ : state) (req : request) (input : byte)
  : outcome (result_type * state * request) :=
  let c := b2s input in
  match state_ with
  | method_start =>
      if not_token c then Ok (bad, state_, req)
      else Ok (indeterminate, method, push_method input req)
  | method =>
      if c =? 32 then Ok (indeterminate, uri, req)
      else if not_token c then Ok (bad, state_, req)
      else Ok (indeterminate, method, push_method input req)
  | uri =>
      if c =? 32 then Ok (indeterminate, http_version_h, req)
      else if is_ctl c then Ok (bad, state_, req)
      else Ok (indeterminate, uri, push_uri input req)
  | http_version_h =>
      if c =? 72 then Ok (indeterminate, http_version_t_1, req) else Ok (bad, state_, req)
  | http_version_t_1 =>
      if c =? 84 then Ok (indeterminate, http_version_t_2, req) else Ok (bad, state_, req)
  | http_version_t_2 =>
      if c =? 84 then Ok (indeterminate, http_version_p, req) else Ok (bad, state_, req)
  | http_version_p =>
      if c =? 80 then Ok (indeterminate, http_version_slash, req) else Ok (bad, state_, req)
  | http_version_slash =>
      if c =? 47 then Ok (indeterminate, http_version_major_start, set_minor 0 (set_major 0 req))
      else Ok (bad, state_, req)
  | http_version_major_start =>
      if is_digit c then
        v ← add_digit (http_version_major_ req) c;
        Ok (indeterminate, http_version_major, set_major v req)
      else Ok (bad, state_, req)
  | http_version_major =>
      if c =? 46 then Ok (indeterminate, http_version_minor_start, req)
      else if is_digit c then
        v ← add_digit (http_version_major_ req) c;
        Ok (indeterminate, http_version_major, set_major v req)
      else Ok (bad, state_, req)
  | http_version_minor_start =>
      if is_digit c then
        v ← add_digit (http_version_minor_ req) c;
        Ok (indeterminate, http_version_minor, set_minor v req)
      else Ok (bad, state_, req)
  | http_version_minor =>
      if c =? 13 then Ok (indeterminate, expecting_newline_1, req)
      else if is_digit c then
        v ← add_digit (http_version_minor_ req) c;
        Ok (indeterminate, http_version_minor, set_minor v req)
      else Ok (bad, state_, req)
  | expecting_newline_1 =>
      if c =? 10 then Ok (indeterminate, header_line_start, req) else Ok (bad, state_, req)
  | header_line_start =>
      if c =? 13 then Ok (indeterminate, expecting_newline_3, req)
      else if negb (bool_decide (headers req = [])) && ((c =? 32) || (c =? 9))
      then Ok (indeterminate, header_lws, req)
      else if not_token c then Ok (bad, state_, req)
      else
        hs ← update_back (push_name input) (headers req ++ [mk_header [] []]);
        Ok (indeterminate, header_name, set_headers hs req)
  | header_lws =>
      if c =? 13 then Ok (indeterminate, expecting_newline_2, req)
      else if (c =? 32) || (c =? 9) then Ok (indeterminate, header_lws, req)
      else if is_ctl c then Ok (bad, state_, req)
      else
        hs ← update_back (push_value input) (headers req);
        Ok (indeterminate, header_value, set_headers hs req)
  | header_name =>
      if c =? 58 then Ok (indeterminate, space_before_header_value, req)
      else if not_token c then Ok (bad, state_, req)
      else
        hs ← update_back (push_name input) (headers req);
        Ok (indeterminate, header_name, set_headers hs req)
  | space_before_header_value =>
      if c =? 32 then Ok (indeterminate, header_value, req) else Ok (bad, state_, req)
  | header_value =>
      if c =? 13 then Ok (indeterminate, expecting_newline_2, req)
      else if is_ctl c then Ok (bad, state_, req)
      else
        hs ← update_back (push_value input) (headers req);
        Ok (indeterminate, header_value, set_headers hs req)
  | expecting_newline_2 =>
      if c =? 10 then Ok (indeterminate, header_line_start, req) else Ok (bad, state_, req)
  | expecting_newline_3 => Ok (if c =? 10 then good else bad, state_, req)
  end.

(** [request_parser::parse]: the result, what is left of the input, the parser
    and the request. *)
Fixpoint parse (state_ : state) (req : request) (input : bytes)
  : outcome (result_type * bytes * state * request) :=
  match input with
  | [] => Ok (indeterminate, [], state_, req)
  | c :: input =>
      '(result, state_, req) ← consume state_ req c;
      if decide (result = good ∨ result = bad) then Ok (result, input, state_, req)
      else parse state_ req input
  end.

(** A request before parsing: its two integers are uninitialised. *)
Definition fresh_request (garbage_major garbage_minor : Z) : request :=
  mk_request [] [] garbage_major garbage_minor [].
