(* ===== verification/HttpParserFacts.v ===== *)
(** What the request parser accepts: exactly the requests of a grammar, with the
    meaning the grammar gives them, however the text is cut into reads; and when
    it stays defined. *)

From S2P Require Import Prelude HttpParser.

(** ** Character classes *)

Lemma b2s_inj a b : b2s a = b2s b → a = b.
Proof.
  unfold b2s. pose proof (b2z_range a). pose proof (b2z_range b).
  intros E. apply b2z_inj. destruct (b2z a <? 128) eqn:Ea, (b2z b <? 128) eqn:Eb; zbool; lia.
Qed.

(** A character is known from its code. *)
Lemma b2s_eq (c : byte) k b : (b2s c =? k) = true → b2s b = k → c = b.
Proof. intros E <-. zbool. by apply b2s_inj. Qed.

Definition token_char (c : byte) : Prop := not_token (b2s c) = false.
Definition text_char (c : byte) : Prop := is_ctl (b2s c) = false.
Definition uri_char (c : byte) : Prop := text_char c ∧ b2s c ≠ 32.
Definition lws_char (c : byte) : Prop := b2s c = 32 ∨ b2s c = 9.
Definition digit_char (c : byte) : Prop := is_digit (b2s c) = true.

(** A class that excludes the code [k]. *)
Lemma token_not c k : token_char c → not_token k = true → (b2s c =? k) = false.
Proof. intros Hc Hk. apply Z.eqb_neq. intros <-. unfold token_char in Hc. congruence. Qed.

Lemma text_not c k : text_char c → is_ctl k = true → (b2s c =? k) = false.
Proof. intros Hc Hk. apply Z.eqb_neq. intros <-. unfold text_char in Hc. congruence. Qed.

Lemma digit_not c k : digit_char c → is_digit k = false → (b2s c =? k) = false.
Proof. intros Hc Hk. apply Z.eqb_neq. intros <-. unfold digit_char in Hc. congruence. Qed.

Lemma digit_range c : digit_char c → 48 <= b2s c <= 57.
Proof. unfold digit_char, is_digit. intros H. zbool. lia. Qed.

(** ** Reading in chunks *)

(** Parsing a text in two reads is parsing it in one. *)
Lemma parse_app s r a b :
  parse s r (a ++ b) =
    '(res, rest, s, r) ← parse s r a;
    match res with
    | indeterminate => parse s r b
    | _ => Ok (res, rest ++ b, s, r)
    end.
Proof.
  revert s r. induction a as [|c a IH]; intros s r; cbn [app parse]; [done|].
  destruct (consume s r c) as [[[res s'] r']| |]; cbn [mbind outcome_bind]; [|done|done].
  case_decide as E.
  - by destruct E as [-> | ->].
  - rewrite IH. by destruct res; [destruct E; auto| destruct E; auto|].
Qed.

(** A text the parser reads through, wanting more. *)
Definition reads (s : state) (r : request) (p : bytes) (s' : state) (r' : request) : Prop :=
  parse s r p = Ok (indeterminate, [], s', r').

Lemma reads_app s r p s1 r1 q s2 r2 :
  reads s r p s1 r1 → reads s1 r1 q s2 r2 → reads s r (p ++ q) s2 r2.
Proof. unfold reads. intros H1 H2. by rewrite parse_app, H1. Qed.

Lemma reads_parse s r p s1 r1 q : reads s r p s1 r1 → parse s r (p ++ q) = parse s1 r1 q.
Proof. unfold reads. intros H. by rewrite parse_app, H. Qed.

Lemma reads_one s r c s' r' : consume s r c = Ok (indeterminate, s', r') → reads s r [c] s' r'.
Proof. unfold reads. intros H. cbn [parse]. by rewrite H. Qed.

Lemma parse_cons s r c s' r' q :
  consume s r c = Ok (indeterminate, s', r') → parse s r (c :: q) = parse s' r' q.
Proof. intros H. cbn [parse]. by rewrite H. Qed.

(** ** The grammar *)

Definition cr : byte := Byte.x0d.
Definition lf : byte := Byte.x0a.
Definition sp : byte := Byte.x20.

(** A header field: its name, the text after the colon and one space, and the
    continuation lines, each a run of white space and a text. *)
Record field := mk_field { f_name : bytes; f_text : bytes; f_folds : list (bytes * bytes) }.

Definition render_fold (f : bytes * bytes) : bytes := [cr; lf] ++ fst f ++ snd f.
Definition render_folds (l : list (bytes * bytes)) : bytes := concat (map render_fold l).
Definition render_field (f : field) : bytes :=
  f_name f ++ bs ": " ++ f_text f ++ render_folds (f_folds f) ++ [cr; lf].
Definition render_fields (l : list field) : bytes := concat (map render_field l).

(** The header it stands for: continuation lines are glued to the text. *)
Definition fold_text (l : list (bytes * bytes)) : bytes := concat (map snd l).
Definition field_header (f : field) : header := mk_header (f_name f) (f_text f ++ fold_text (f_folds f)).

Definition wf_fold (f : bytes * bytes) : Prop :=
  fst f ≠ [] ∧ Forall lws_char (fst f) ∧ Forall text_char (snd f) ∧
  (∀ c, List.head (snd f) = Some c → ¬ lws_char c).
Definition wf_field (f : field) : Prop :=
  f_name f ≠ [] ∧ Forall token_char (f_name f) ∧ Forall text_char (f_text f) ∧ Forall wf_fold (f_folds f).

Record message := mk_message {
  m_method : bytes; m_uri : bytes; m_major : bytes; m_minor : bytes; m_fields : list field }.

Definition render (m : message) : bytes :=
  m_method m ++ [sp] ++ m_uri m ++ [sp] ++ bs "HTTP/" ++ m_major m ++ bs "." ++ m_minor m ++
  [cr; lf] ++ render_fields (m_fields m) ++ [cr; lf].

(** The number a string of digits denotes. *)
Definition decimal (l : bytes) : Z := fold_left (λ v c, v * 10 + (b2s c - 48)) l 0.

(** A version number the parser's arithmetic can hold at every step. *)
Definition wf_number (l : bytes) : Prop := l ≠ [] ∧ Forall digit_char l ∧ decimal l + 48 < 2 ^ 31.

Definition wf_message (m : message) : Prop :=
  m_method m ≠ [] ∧ Forall token_char (m_method m) ∧ Forall uri_char (m_uri m) ∧
  wf_number (m_major m) ∧ wf_number (m_minor m) ∧ Forall wf_field (m_fields m).

Definition meaning (m : message) : request :=
  mk_request (m_method m) (m_uri m) (decimal (m_major m)) (decimal (m_minor m))
    (map field_header (m_fields m)).

(** ** The last header *)

Lemma update_back_app f l h : update_back f (l ++ [h]) = Ok (l ++ [f h]).
Proof.
  induction l as [|x l IH]; cbn [update_back app]; [done|].
  destruct (l ++ [h]) as [|y k] eqn:E; [by apply app_nil in E as [_ ?]|]. by rewrite IH.
Qed.

Lemma app_last_not_nil {A} (l : list A) x : l ++ [x] ≠ [].
Proof. by destruct l. Qed.

(** ** Completeness: what the grammar has is read *)

Definition add_name (p : bytes) (h : header) : header := mk_header (name h ++ p) (value h).
Definition add_value (p : bytes) (h : header) : header := mk_header (name h) (value h ++ p).

(** A state that takes any number of characters of a class. *)
Lemma reads_loop (C : byte → Prop) s (step : bytes → request) p :
  (∀ q c, C c → consume s (step q) c = Ok (indeterminate, s, step (q ++ [c]))) →
  Forall C p → ∀ q, reads s (step q) p s (step (q ++ p)).
Proof.
  intros Hs. induction 1 as [|c p Hc _ IH]; intros q.
  - by rewrite app_nil_r.
  - unfold reads. erewrite parse_cons by (by apply Hs). unfold reads in IH. rewrite IH.
    by rewrite <- app_assoc.
Qed.

Lemma reads_method p q u a b hs : Forall token_char p →
  reads method (mk_request q u a b hs) p method (mk_request (q ++ p) u a b hs).
Proof.
  intros Hp. apply (reads_loop token_char method (λ q, mk_request q u a b hs)); [|done].
  intros q' c Hc. cbn [consume]. by rewrite (token_not c 32), Hc.
Qed.

Lemma reads_uri p m q a b hs : Forall uri_char p →
  reads uri (mk_request m q a b hs) p uri (mk_request m (q ++ p) a b hs).
Proof.
  intros Hp. apply (reads_loop uri_char uri (λ q, mk_request m q a b hs)); [|done].
  intros q' c [Hc Hn]. cbn [consume]. by rewrite (proj2 (Z.eqb_neq _ _) Hn), Hc.
Qed.

(** In the header states the request is known by its headers only. *)
Lemma reads_name p q r hs v : Forall token_char p →
  reads header_name (set_headers (hs ++ [mk_header q v]) r) p
    header_name (set_headers (hs ++ [mk_header (q ++ p) v]) r).
Proof.
  intros Hp. apply (reads_loop token_char header_name (λ q, set_headers (hs ++ [mk_header q v]) r)); [|done].
  intros q' c Hc. cbn [consume]. rewrite (token_not c 58), Hc by done.
  cbn [headers set_headers]. by rewrite update_back_app.
Qed.

Lemma reads_value p q r hs n : Forall text_char p →
  reads header_value (set_headers (hs ++ [mk_header n q]) r) p
    header_value (set_headers (hs ++ [mk_header n (q ++ p)]) r).
Proof.
  intros Hp. apply (reads_loop text_char header_value (λ q, set_headers (hs ++ [mk_header n q]) r)); [|done].
  intros q' c Hc. cbn [consume]. rewrite (text_not c 13), Hc by done.
  cbn [headers set_headers]. by rewrite update_back_app.
Qed.

Lemma reads_lws p r : Forall lws_char p → reads header_lws r p header_lws r.
Proof.
  intros Hp. apply (reads_loop lws_char header_lws (λ _, r) p) with (q := []); [|done].
  intros q' c [Hc|Hc]; cbn [consume]; by rewrite Hc.
Qed.

(** A continuation line, from the end of the line before. *)
Lemma reads_fold_end f r hs h s :
  wf_fold f → s = header_value ∨ s = header_lws →
  ∃ s', (s' = header_value ∨ s' = header_lws) ∧
    reads s (set_headers (hs ++ [h]) r) (render_fold f) s' (set_headers (hs ++ [add_value (snd f) h]) r).
Proof.
  destruct f as [l t], h as [n v]. intros (Hne & Hl & Ht & Hh) Hs. cbn [fst snd] in *.
  destruct l as [|c l]; [done|]. inversion_clear Hl as [|? ? Hc Hl'].
  assert (Hline : reads s (set_headers (hs ++ [mk_header n v]) r) ([cr; lf] ++ c :: l) header_lws
                    (set_headers (hs ++ [mk_header n v]) r)).
  { apply (reads_app _ _ [cr; lf] header_line_start (set_headers (hs ++ [mk_header n v]) r)).
    - destruct Hs as [-> | ->]; reflexivity.
    - change (c :: l) with ([c] ++ l).
      apply (reads_app _ _ _ header_lws (set_headers (hs ++ [mk_header n v]) r)); [|by apply reads_lws].
      apply reads_one. cbn [consume headers set_headers].
      rewrite bool_decide_false by apply app_last_not_nil. by destruct Hc as [-> | ->]. }
  unfold render_fold. cbn [fst snd]. destruct t as [|d t].
  - exists header_lws. split; [by right|]. rewrite app_nil_r. unfold add_value. cbn [name value].
    by rewrite app_nil_r.
  - exists header_value. split; [by left|]. inversion_clear Ht as [|? ? Hd Ht'].
    rewrite app_assoc. eapply reads_app; [exact Hline|].
    unfold add_value. cbn [name value]. change (d :: t) with ([d] ++ t). rewrite (app_assoc v).
    eapply reads_app; [|by apply reads_value].
    apply reads_one. cbn [consume].
    assert (Hnl : ¬ lws_char d) by (by apply Hh).
    rewrite (text_not d 13) by done.
    destruct (b2s d =? 32) eqn:E1; [zbool; destruct Hnl; by left|].
    destruct (b2s d =? 9) eqn:E2; [zbool; destruct Hnl; by right|].
    cbn [orb]. rewrite Hd. cbn [headers set_headers]. by rewrite update_back_app.
Qed.

Lemma reads_folds l r hs h s :
  Forall wf_fold l → s = header_value ∨ s = header_lws →
  ∃ s', (s' = header_value ∨ s' = header_lws) ∧
    reads s (set_headers (hs ++ [h]) r) (render_folds l) s' (set_headers (hs ++ [add_value (fold_text l) h]) r).
Proof.
  intros Hl. revert h s. induction Hl as [|f l Hf _ IH]; intros h s Hs.
  - exists s. split; [done|]. unfold add_value, fold_text. cbn. rewrite app_nil_r. by destruct h.
  - destruct (reads_fold_end f r hs h s Hf Hs) as (s1 & Hs1 & H1).
    destruct (IH (add_value (snd f) h) s1 Hs1) as (s2 & Hs2 & H2). exists s2. split; [done|].
    unfold render_folds, fold_text in *. cbn [map concat].
    assert (add_value (snd f ++ concat (map snd l)) h = add_value (concat (map snd l)) (add_value (snd f) h)) as ->.
    { unfold add_value. cbn [name value]. by rewrite app_assoc. }
    by eapply reads_app.
Qed.

Lemma set_headers_twice a b r : set_headers a (set_headers b r) = set_headers a r.
Proof. done. Qed.

Lemma reads_field f r hs :
  wf_field f →
  reads header_line_start (set_headers hs r) (render_field f) header_line_start
    (set_headers (hs ++ [field_header f]) r).
Proof.
  intros (Hne & Hn & Ht & Hl). unfold render_field. destruct (f_name f) as [|c n] eqn:En; [done|].
  inversion_clear Hn as [|? ? Hc Hn']. change ((c :: n) ++ _) with ([c] ++ n ++ bs ": " ++ f_text f ++
    render_folds (f_folds f) ++ [cr; lf]).
  eapply reads_app.
  { apply reads_one. cbn [consume headers set_headers]. rewrite (token_not c 13) by done.
    rewrite (token_not c 32), (token_not c 9), andb_false_r by done. rewrite Hc.
    rewrite update_back_app. cbn [mbind outcome_bind]. rewrite set_headers_twice. reflexivity. }
  eapply reads_app; [unfold push_name; cbn [name value]; by apply reads_name|].
  eapply (reads_app _ _ _ header_value); [reflexivity|].
  eapply reads_app; [by apply (reads_value (f_text f) [])|].
  destruct (reads_folds (f_folds f) r hs (mk_header (([] ++ [c]) ++ n) ([] ++ f_text f)) header_value Hl)
    as (s' & Hs' & H); [by left|].
  eapply reads_app; [exact H|].
  unfold field_header. rewrite En. by destruct Hs' as [-> | ->].
Qed.

Lemma reads_fields l r hs :
  Forall wf_field l →
  reads header_line_start (set_headers hs r) (render_fields l) header_line_start
    (set_headers (hs ++ map field_header l) r).
Proof.
  intros Hl. revert hs. induction Hl as [|f l Hf _ IH]; intros hs.
  - cbn. by rewrite app_nil_r.
  - unfold render_fields in *. cbn [map concat]. eapply reads_app; [by apply reads_field|].
    change (field_header f :: map field_header l) with ([field_header f] ++ map field_header l).
    rewrite app_assoc. apply IH.
Qed.

(** *** Version numbers *)

Lemma int_result_ok z : - 2 ^ 31 <= z < 2 ^ 31 → int_result z = Ok z.
Proof. intros Hz. unfold int_result. zdec. done. Qed.

Lemma int_result_inv z v : int_result z = Ok v → v = z ∧ - 2 ^ 31 <= z < 2 ^ 31.
Proof. unfold int_result. case_match; [|done]. zbool. intros [= <-]. lia. Qed.

Lemma add_digit_ok v c : 0 <= v → 48 <= c <= 57 → v * 10 + c < 2 ^ 31 → add_digit v c = Ok (v * 10 + (c - 48)).
Proof.
  intros Hv Hc Hl. unfold add_digit. rewrite int_result_ok by lia. cbn [mbind outcome_bind].
  rewrite int_result_ok by lia. cbn [mbind outcome_bind]. rewrite int_result_ok by lia. f_equal. lia.
Qed.

Lemma add_digit_inv v c v' : 48 <= c <= 57 → add_digit v c = Ok v' →
  v' = v * 10 + (c - 48) ∧ v * 10 + c < 2 ^ 31.
Proof.
  intros Hc. unfold add_digit.
  destruct (int_result (v * 10)) as [v1| |] eqn:E1; cbn [mbind outcome_bind]; [|done|done].
  apply int_result_inv in E1 as [-> _].
  destruct (int_result (v * 10 + c)) as [v2| |] eqn:E2; cbn [mbind outcome_bind]; [|done|done].
  apply int_result_inv in E2 as [-> H2]. intros E3. apply int_result_inv in E3 as [-> _]. lia.
Qed.

(** The number read so far, and what more digits make of it. *)
Definition more_digits (v : Z) (l : bytes) : Z := fold_left (λ v c, v * 10 + (b2s c - 48)) l v.

Lemma more_digits_ge l v : 0 <= v → Forall digit_char l → v <= more_digits v l.
Proof.
  intros Hv Hl. revert v Hv. induction Hl as [|c l Hc _ IH]; intros v Hv; [done|].
  unfold more_digits in *. cbn [fold_left]. apply digit_range in Hc.
  etrans; [|apply IH; lia]. lia.
Qed.

(** A state that reads digits into a number. *)
Lemma reads_number s (mk : Z → request) l v :
  (∀ v c, digit_char c → consume s (mk v) c = (v ← add_digit v (b2s c); Ok (indeterminate, s, mk v))) →
  0 <= v → Forall digit_char l → more_digits v l + 48 < 2 ^ 31 →
  reads s (mk v) l s (mk (more_digits v l)).
Proof.
  intros Hs Hv Hl. revert v Hv. induction Hl as [|c l Hc Hl IH]; intros v Hv Hb; [done|].
  unfold more_digits in Hb. cbn [fold_left] in Hb. pose proof (digit_range c Hc) as Hr.
  assert (Hge : v * 10 + (b2s c - 48) <= more_digits (v * 10 + (b2s c - 48)) l)
    by (apply more_digits_ge; [lia|done]).
  unfold more_digits in Hge. unfold reads. erewrite parse_cons.
  - apply IH; [lia|exact Hb].
  - rewrite Hs by done. by rewrite add_digit_ok by lia.
Qed.

Lemma major_step m u b hs v c : digit_char c →
  consume http_version_major (mk_request m u v b hs) c
  = (v ← add_digit v (b2s c); Ok (indeterminate, http_version_major, mk_request m u v b hs)).
Proof. intros Hc. cbn [consume]. by rewrite (digit_not c 46), Hc. Qed.

Lemma minor_step m u a hs v c : digit_char c →
  consume http_version_minor (mk_request m u a v hs) c
  = (v ← add_digit v (b2s c); Ok (indeterminate, http_version_minor, mk_request m u a v hs)).
Proof. intros Hc. cbn [consume]. by rewrite (digit_not c 13), Hc. Qed.

Lemma wf_number_first c l : wf_number (c :: l) →
  digit_char c ∧ add_digit 0 (b2s c) = Ok (b2s c - 48) ∧ 0 <= b2s c - 48 ∧ Forall digit_char l ∧
  more_digits (b2s c - 48) l + 48 < 2 ^ 31.
Proof.
  intros (_ & Hl & Hb). inversion_clear Hl as [|? ? Hc Hl']. pose proof (digit_range c Hc).
  split_and!; [done| |lia|done|exact Hb]. rewrite add_digit_ok by lia. f_equal.
Qed.

Lemma reads_major m u a b hs l : wf_number l →
  reads http_version_major_start (mk_request m u 0 b hs) l http_version_major (mk_request m u (decimal l) b hs)
  ∧ reads http_version_minor_start (mk_request m u a 0 hs) l http_version_minor (mk_request m u a (decimal l) hs).
Proof.
  intros Hl. destruct l as [|c l]; [by destruct Hl|].
  destruct (wf_number_first c l Hl) as (Hc & Ha & H0 & Hd & Hb).
  split; unfold reads; (erewrite parse_cons; [|cbn [consume]; rewrite Hc; cbn; rewrite Ha; reflexivity]).
  - by apply (reads_number http_version_major (λ v, mk_request m u v b hs)); [apply major_step|..].
  - by apply (reads_number http_version_minor (λ v, mk_request m u a v hs)); [apply minor_step|..].
Qed.

(** The text of a request, read from the initial state. *)
Lemma render_parses m g1 g2 rest : wf_message m →
  parse method_start (fresh_request g1 g2) (render m ++ rest)
  = Ok (good, rest, expecting_newline_3, meaning m).
Proof.
  intros (Hne & Hm & Hu & Hmaj & Hmin & Hf). unfold render, fresh_request, meaning.
  destruct (m_method m) as [|c me]; [done|]. inversion_clear Hm as [|? ? Hc Hm'].
  change (c :: me) with ([c] ++ me). rewrite <- !app_assoc.
  erewrite reads_parse by (apply reads_one; cbn [consume]; rewrite Hc; reflexivity).
  unfold push_method. cbn [method_ uri_ http_version_major_ http_version_minor_ headers app].
  erewrite reads_parse by (by apply reads_method). cbn [app].
  erewrite (parse_cons method) by reflexivity.
  erewrite reads_parse by (by apply reads_uri). cbn [app].
  erewrite (parse_cons uri) by reflexivity.
  erewrite (reads_parse http_version_h _ (bs "HTTP/") http_version_major_start) by reflexivity.
  erewrite reads_parse by (apply (reads_major _ _ 0); done).
  erewrite (reads_parse http_version_major _ (bs ".") http_version_minor_start) by reflexivity.
  erewrite reads_parse by (apply (reads_major _ _ _ 0); done). cbn [app].
  erewrite (parse_cons http_version_minor) by reflexivity.
  erewrite (parse_cons expecting_newline_1) by reflexivity.
  match goal with |- parse header_line_start ?r _ = _ =>
    rewrite (reads_parse header_line_start r _ _ _ _ (reads_fields (m_fields m) r [] Hf)) end.
  cbn [app]. erewrite (parse_cons header_line_start) by reflexivity.
  reflexivity.
Qed.

(** ** Soundness: what is accepted is in the grammar *)

(** A state that reads characters of a class up to a stop character: [step] is
    the request after the characters read so far, [I] what is known of them. *)
Definition loops_until (s : state) (step : bytes → request) (I : bytes → Prop) (stop : byte)
    (s' : state) (fin : bytes → request) : Prop :=
  ∀ q c, I q →
  match consume s (step q) c with
  | Ok (indeterminate, s1, r1) =>
      (s1 = s ∧ r1 = step (q ++ [c]) ∧ I (q ++ [c])) ∨ (c = stop ∧ s1 = s' ∧ r1 = fin q)
  | Ok (good, _, _) => False
  | _ => True
  end.

Definition accepts (s : state) (r : request) (input rest : bytes) (r' : request) : Prop :=
  ∃ sf, parse s r input = Ok (good, rest, sf, r').

Lemma accepts_cons s r input rest r' : accepts s r input rest r' →
  ∃ c more res s1 r1, input = c :: more ∧ consume s r c = Ok (res, s1, r1) ∧
    ((res = good ∧ rest = more ∧ r' = r1) ∨ (res = indeterminate ∧ accepts s1 r1 more rest r')).
Proof.
  intros (sf & E). destruct input as [|c more]; [done|]. cbn [parse] in E.
  destruct (consume s r c) as [[[res s1] r1]| |] eqn:Ec; cbn [mbind outcome_bind] in E; [|done|done].
  exists c, more, res, s1, r1. split_and!; [done|done|].
  case_decide as D.
  - injection E as -> -> _ ->. left. by destruct D.
  - right. destruct res; [destruct D; auto|destruct D; auto|]. split; [done|by exists sf].
Qed.

Lemma loop_inv s step I stop s' fin input rest r' q :
  loops_until s step I stop s' fin → I q → accepts s (step q) input rest r' →
  ∃ p more, input = p ++ stop :: more ∧ I (q ++ p) ∧ accepts s' (fin (q ++ p)) more rest r'.
Proof.
  intros Hl. revert q. induction input as [|c input IH]; intros q Hq Ha.
  - by apply accepts_cons in Ha as (? & ? & ? & ? & ? & ? & _).
  - apply accepts_cons in Ha as (c' & more & res & s1 & r1 & [= <- <-] & Ec & Ha).
    specialize (Hl q c Hq) as Hc. rewrite Ec in Hc. destruct Ha as [(-> & _)|(-> & Ha)]; [done|].
    destruct Hc as [(-> & -> & Hq')|(-> & -> & ->)].
    + destruct (IH (q ++ [c]) Hq' Ha) as (p & more & -> & Hp & Ha'). exists (c :: p), more.
      rewrite <- app_assoc in Hp, Ha'. by split_and!.
    + exists [], input. rewrite app_nil_r. by split_and!.
Qed.

(** A state that wants one given character. *)
Lemma literal_inv s r k (b : byte) s' r0 input rest r' :
  (∀ c, consume s r c = if b2s c =? k then Ok (indeterminate, s', r0) else Ok (bad, s, r)) → b2s b = k →
  accepts s r input rest r' → ∃ more, input = b :: more ∧ accepts s' r0 more rest r'.
Proof.
  intros Hs Hb Ha. apply accepts_cons in Ha as (c & more & res & s1 & r1 & -> & Ec & Ha).
  rewrite Hs in Ec. destruct (b2s c =? k) eqn:E; injection Ec as <- <- <-.
  - rewrite (b2s_eq c k b E Hb) in *. destruct Ha as [(? & _)|(_ & Ha)]; [done|]. by exists more.
  - by destruct Ha as [(? & _)|(? & _)].
Qed.

Ltac loop_cases :=
  repeat match goal with
  | |- context [if ?b then _ else _] => destruct b eqn:?
  | |- context [match ?o with Ok _ => _ | _ => _ end] => destruct o eqn:?
  end; try exact Logic.I.

Lemma method_loop q0 u a b hs :
  loops_until method (λ q, mk_request (q0 ++ q) u a b hs) (Forall token_char) sp uri
    (λ q, mk_request (q0 ++ q) u a b hs).
Proof.
  intros q c Hq. cbn [consume]. loop_cases.
  - right. split_and!; [|done|done]. by apply (b2s_eq c 32).
  - left. unfold push_method. cbn. rewrite <- app_assoc. split_and!; [done|done|].
    apply Forall_app. by repeat constructor.
Qed.

Lemma uri_loop m a b hs :
  loops_until uri (λ q, mk_request m q a b hs) (Forall uri_char) sp http_version_h
    (λ q, mk_request m q a b hs).
Proof.
  intros q c Hq. cbn [consume]. loop_cases.
  - right. split_and!; [|done|done]. by apply (b2s_eq c 32).
  - left. split_and!; [done|done|]. apply Forall_app. repeat constructor; [done|done|]. by zbool.
Qed.

Lemma name_loop r hs v :
  loops_until header_name (λ q, set_headers (hs ++ [mk_header q v]) r) (Forall token_char) Byte.x3a
    space_before_header_value (λ q, set_headers (hs ++ [mk_header q v]) r).
Proof.
  intros q c Hq. cbn [consume headers set_headers]. rewrite update_back_app. cbn [mbind outcome_bind].
  loop_cases.
  - right. split_and!; [|done|done]. by apply (b2s_eq c 58).
  - left. split_and!; [done|done|]. apply Forall_app. by repeat constructor.
Qed.

Lemma value_loop r hs n q0 :
  loops_until header_value (λ q, set_headers (hs ++ [mk_header n (q0 ++ q)]) r) (Forall text_char) cr
    expecting_newline_2 (λ q, set_headers (hs ++ [mk_header n (q0 ++ q)]) r).
Proof.
  intros q c Hq. cbn [consume headers set_headers]. rewrite update_back_app. cbn [mbind outcome_bind].
  loop_cases.
  - right. split_and!; [|done|done]. by apply (b2s_eq c 13).
  - left. unfold push_value. cbn. rewrite app_assoc. split_and!; [done|done|].
    apply Forall_app. by repeat constructor.
Qed.

(** What is known of the digits read so far: the value still fits. *)
Definition number_ok (l : bytes) : Prop := Forall digit_char l ∧ (l ≠ [] → decimal l + 48 < 2 ^ 31).

Lemma decimal_snoc l c : decimal (l ++ [c]) = decimal l * 10 + (b2s c - 48).
Proof. unfold decimal. by rewrite fold_left_app. Qed.

Lemma number_ok_snoc l c v : number_ok l → digit_char c → add_digit (decimal l) (b2s c) = Ok v →
  v = decimal (l ++ [c]) ∧ number_ok (l ++ [c]).
Proof.
  intros [Hl _] Hc E. pose proof (digit_range c Hc) as Hr. apply add_digit_inv in E as [-> Hb]; [|done].
  rewrite decimal_snoc. split; [done|]. split.
  - apply Forall_app. by repeat constructor.
  - intros _. rewrite decimal_snoc. lia.
Qed.

Lemma major_loop m u b hs :
  loops_until http_version_major (λ q, mk_request m u (decimal q) b hs) number_ok Byte.x2e
    http_version_minor_start (λ q, mk_request m u (decimal q) b hs).
Proof.
  intros q c Hq. cbn [consume http_version_major_].
  destruct (b2s c =? 46) eqn:E1; [right; split_and!; [by apply (b2s_eq c 46)|done|done]|].
  destruct (is_digit (b2s c)) eqn:E2; [|exact Logic.I].
  destruct (add_digit (decimal q) (b2s c)) as [v| |] eqn:E3; cbn [mbind outcome_bind]; [|done|done].
  destruct (number_ok_snoc q c v Hq E2 E3) as [-> Hq']. by left.
Qed.

Lemma minor_loop m u a hs :
  loops_until http_version_minor (λ q, mk_request m u a (decimal q) hs) number_ok cr
    expecting_newline_1 (λ q, mk_request m u a (decimal q) hs).
Proof.
  intros q c Hq. cbn [consume http_version_minor_].
  destruct (b2s c =? 13) eqn:E1; [right; split_and!; [by apply (b2s_eq c 13)|done|done]|].
  destruct (is_digit (b2s c)) eqn:E2; [|exact Logic.I].
  destruct (add_digit (decimal q) (b2s c)) as [v| |] eqn:E3; cbn [mbind outcome_bind]; [|done|done].
  destruct (number_ok_snoc q c v Hq E2 E3) as [-> Hq']. by left.
Qed.

(** A version number, its first digit included. *)
Lemma major_inv m u b hs input rest r' :
  accepts http_version_major_start (mk_request m u 0 b hs) input rest r' →
  ∃ l more, input = l ++ bs "." ++ more ∧ wf_number l ∧
    accepts http_version_minor_start (mk_request m u (decimal l) b hs) more rest r'.
Proof.
  intros Ha. apply accepts_cons in Ha as (c & more & res & s1 & r1 & -> & Ec & Ha). cbn in Ec.
  destruct (is_digit (b2s c)) eqn:E2; [|injection Ec as <- <- <-; by destruct Ha as [(? & _)|(? & _)]].
  destruct (add_digit 0 (b2s c)) as [v| |] eqn:E3; cbn in Ec; [|done|done].
  injection Ec as <- <- <-. destruct Ha as [(? & _)|(_ & Ha)]; [done|].
  destruct (number_ok_snoc [] c v) as [-> Hq]; [by split|done|done|].
  destruct (loop_inv _ _ _ _ _ _ _ _ _ _ (major_loop m u b hs) Hq Ha) as (p & more' & -> & [Hd Hb] & Ha').
  exists ([c] ++ p), more'. split_and!; [done| |exact Ha']. split_and!; [done|exact Hd|]. by apply Hb.
Qed.

Lemma minor_inv m u a hs input rest r' :
  accepts http_version_minor_start (mk_request m u a 0 hs) input rest r' →
  ∃ l more, input = l ++ [cr] ++ more ∧ wf_number l ∧
    accepts expecting_newline_1 (mk_request m u a (decimal l) hs) more rest r'.
Proof.
  intros Ha. apply accepts_cons in Ha as (c & more & res & s1 & r1 & -> & Ec & Ha). cbn in Ec.
  destruct (is_digit (b2s c)) eqn:E2; [|injection Ec as <- <- <-; by destruct Ha as [(? & _)|(? & _)]].
  destruct (add_digit 0 (b2s c)) as [v| |] eqn:E3; cbn in Ec; [|done|done].
  injection Ec as <- <- <-. destruct Ha as [(? & _)|(_ & Ha)]; [done|].
  destruct (number_ok_snoc [] c v) as [-> Hq]; [by split|done|done|].
  destruct (loop_inv _ _ _ _ _ _ _ _ _ _ (minor_loop m u a hs) Hq Ha) as (p & more' & -> & [Hd Hb] & Ha').
  exists ([c] ++ p), more'. split_and!; [done| |exact Ha']. split_and!; [done|exact Hd|]. by apply Hb.
Qed.

(** White space at the head of a continuation line, up to the character behind it. *)
Lemma lws_inv input rest r r' : accepts header_lws r input rest r' →
  ∃ l c more, input = l ++ c :: more ∧ Forall lws_char l ∧ ¬ lws_char c ∧
    accepts header_lws r (c :: more) rest r'.
Proof.
  induction input as [|c input IH]; intros Ha.
  - by apply accepts_cons in Ha as (? & ? & ? & ? & ? & ? & _).
  - destruct (decide (b2s c = 32 ∨ b2s c = 9)) as [Hc|Hc].
    + apply accepts_cons in Ha as (c' & more & res & s1 & r1 & [= <- <-] & Ec & Ha).
      assert (consume header_lws r c = Ok (indeterminate, header_lws, r)) as E
        by (cbn [consume]; by destruct Hc as [-> | ->]).
      rewrite E in Ec. injection Ec as <- <- <-. destruct Ha as [(? & _)|(_ & Ha)]; [done|].
      destruct (IH Ha) as (l & d & more & -> & Hl & Hd & Ha'). exists (c :: l), d, more.
      split_and!; [done|by constructor|done|done].
    + exists [], c, input. by split_and!.
Qed.

(** The headers as a list of fields behind the current one. *)
Definition fields_tail (input rest : bytes) (folds : list (bytes * bytes)) (fs : list field) : Prop :=
  Forall wf_fold folds ∧ Forall wf_field fs ∧
  input = render_folds folds ++ [cr; lf] ++ render_fields fs ++ [cr; lf] ++ rest.

(** The end of a line. *)
Lemma newline_inv r input rest r' :
  accepts expecting_newline_2 r input rest r' →
  ∃ more, input = lf :: more ∧ accepts header_line_start r more rest r'.
Proof. intros Ha. by apply (literal_inv expecting_newline_2 r 10 lf header_line_start r) in Ha. Qed.

(** *** The header lines, by induction on the text *)

Definition lines_inv (n : nat) : Prop :=
  ∀ input rest r hs h r', (length input <= n)%nat →
  accepts header_line_start (set_headers (hs ++ [h]) r) input rest r' →
  ∃ folds fs, fields_tail ([cr; lf] ++ input) rest folds fs ∧
    r' = set_headers (hs ++ [add_value (fold_text folds) h] ++ map field_header fs) r.

Lemma value_inv n input rest r hs nm q r' :
  lines_inv n → (length input <= n)%nat →
  accepts header_value (set_headers (hs ++ [mk_header nm q]) r) input rest r' →
  ∃ t tail folds fs, input = t ++ tail ∧ Forall text_char t ∧ fields_tail tail rest folds fs ∧
    r' = set_headers (hs ++ [add_value (fold_text folds) (mk_header nm (q ++ t))] ++ map field_header fs) r.
Proof.
  intros IH Hn Ha. rewrite <- (app_nil_r q) in Ha.
  destruct (loop_inv _ _ _ _ _ _ _ _ _ _ (value_loop r hs nm q) (Forall_nil_2 _) Ha)
    as (t & more & -> & Ht & Ha').
  rewrite app_nil_l in Ht. apply newline_inv in Ha' as (more' & -> & Ha').
  rewrite length_app in Hn. cbn [length] in Hn.
  assert (Hle : (length more' <= n)%nat) by lia.
  destruct (IH _ _ _ _ _ _ Hle Ha') as (folds & fs & Hf & ->).
  exists t, ([cr; lf] ++ more'), folds, fs. by split_and!.
Qed.

Lemma field_inv n c input rest r hs r' :
  lines_inv n → (length input <= n)%nat → token_char c →
  accepts header_name (set_headers (hs ++ [mk_header [c] []]) r) input rest r' →
  ∃ f fs, wf_field f ∧ Forall wf_field fs ∧
    c :: input = render_fields (f :: fs) ++ [cr; lf] ++ rest ∧
    r' = set_headers (hs ++ map field_header (f :: fs)) r.
Proof.
  intros IH Hn Hc Ha.
  destruct (loop_inv _ _ _ _ _ _ _ _ _ [c] (name_loop r hs []) ltac:(by repeat constructor) Ha)
    as (nm & more & -> & Hnm & Ha1).
  rewrite length_app in Hn. cbn [length] in Hn.
  apply (literal_inv space_before_header_value _ 32 sp header_value (set_headers (hs ++ [mk_header ([c] ++ nm) []]) r))
    in Ha1 as (more1 & -> & Ha2); [|reflexivity|reflexivity].
  destruct (value_inv n more1 rest r hs _ _ r' IH ltac:(cbn [length] in Hn; lia) Ha2)
    as (t & tail & folds & fs & -> & Ht & (Hfo & Hfs & ->) & ->).
  exists (mk_field ([c] ++ nm) t folds), fs. split_and!; [|done| |done].
  - by split_and!.
  - unfold render_fields, render_field. cbn [map concat f_name f_text f_folds].
    rewrite <- !app_assoc. cbn. by rewrite <- ?app_assoc.
Qed.

(** A line that starts a field, with the headers before it in [hs]. *)
Lemma first_line_inv n input rest r hs r' c more :
  lines_inv n → (length more <= n)%nat → input = c :: more →
  accepts header_line_start (set_headers hs r) input rest r' → (hs = [] ∨ ¬ lws_char c) →
  (∃ fs, Forall wf_field fs ∧ input = render_fields fs ++ [cr; lf] ++ rest ∧
     r' = set_headers (hs ++ map field_header fs) r).
Proof.
  intros IH Hn -> Ha Hl.
  apply accepts_cons in Ha as (c' & more' & res & s1 & r1 & [= <- <-] & Ec & Ha).
  cbn [consume headers set_headers] in Ec.
  destruct (b2s c =? 13) eqn:E1.
  - injection Ec as <- <- <-. destruct Ha as [(? & _)|(_ & Ha)]; [done|].
    apply accepts_cons in Ha as (d & more' & res & s1 & r1 & -> & Ec & Ha). cbn [consume] in Ec.
    destruct (b2s d =? 10) eqn:E2; injection Ec as <- <- <-; [|by destruct Ha as [(? & _)|(? & _)]].
    destruct Ha as [(_ & -> & ->)|(? & _)]; [|done].
    exists []. rewrite (b2s_eq c 13 cr), (b2s_eq d 10 lf) by done. cbn. by rewrite app_nil_r.
  - assert (negb (bool_decide (hs = [])) && ((b2s c =? 32) || (b2s c =? 9)) = false) as E.
    { destruct Hl as [-> |Hl]; [done|]. apply andb_false_iff. right. apply orb_false_iff.
      split; apply Z.eqb_neq; intros E; apply Hl; [by left|by right]. }
    rewrite E in Ec. destruct (not_token (b2s c)) eqn:E2.
    { injection Ec as <- <- <-. by destruct Ha as [(? & _)|(? & _)]. }
    rewrite update_back_app in Ec. cbn [mbind outcome_bind] in Ec. injection Ec as <- <- <-.
    destruct Ha as [(? & _)|(_ & Ha)]; [done|].
    destruct (field_inv n c more rest r hs r' IH Hn E2 Ha) as (f & fs & Hf & Hfs & -> & ->).
    exists (f :: fs). split_and!; [by constructor|done|done].
Qed.

Lemma all_lines n : lines_inv n.
Proof.
  induction n as [|n IH]; intros input rest r hs h r' Hn Ha.
  { destruct input; [|simpl in Hn; lia]. by apply accepts_cons in Ha as (? & ? & ? & ? & ? & ? & _). }
  destruct input as [|c input]; [by apply accepts_cons in Ha as (? & ? & ? & ? & ? & ? & _)|].
  destruct (decide (b2s c = 32 ∨ b2s c = 9)) as [Hc|Hc].
  - apply accepts_cons in Ha as (c' & more' & res & s1 & r1 & [= <- <-] & Ec & Ha).
    cbn [consume headers set_headers] in Ec.
    rewrite bool_decide_false in Ec by apply app_last_not_nil.
    assert (res = indeterminate ∧ s1 = header_lws ∧ r1 = set_headers (hs ++ [h]) r) as (-> & -> & ->).
    { destruct Hc as [Hc|Hc]; rewrite Hc in Ec; cbn in Ec; by injection Ec as <- <- <-. }
    destruct Ha as [(? & _)|(_ & Ha)]; [done|].
    destruct (lws_inv _ _ _ _ Ha) as (l & d & more & -> & Hl & Hd & Ha').
    cbn [length] in Hn. rewrite length_app in Hn. cbn [length] in Hn.
    apply accepts_cons in Ha' as (d' & more' & res & s1 & r1 & [= <- <-] & Ec' & Ha').
    cbn [consume headers set_headers] in Ec'. destruct (b2s d =? 13) eqn:E1.
    + injection Ec' as <- <- <-. destruct Ha' as [(? & _)|(_ & Ha')]; [done|].
      apply newline_inv in Ha' as (more' & -> & Ha'). cbn [length] in Hn.
      assert (Hle : (length more' <= n)%nat) by lia.
      destruct (IH _ _ _ _ _ _ Hle Ha') as (folds & fs & (Hfo & Hfs & E) & ->).
      exists ((c :: l, []) :: folds), fs. split.
      * split_and!; [constructor; [|done]|done|].
        { split_and!; [done|by constructor|constructor|done]. }
        rewrite (b2s_eq d 13 cr) by done.
        unfold render_folds, render_fold in *. cbn [map concat fst snd].
        rewrite <- !app_assoc, <- E. reflexivity.
      * reflexivity.
    + assert ((b2s d =? 32) || (b2s d =? 9) = false) as E2.
      { apply orb_false_iff. split; apply Z.eqb_neq; intros E; apply Hd; [by left|by right]. }
      rewrite E2 in Ec'. destruct (is_ctl (b2s d)) eqn:E3.
      { injection Ec' as <- <- <-. by destruct Ha' as [(? & _)|(? & _)]. }
      rewrite update_back_app in Ec'. cbn [mbind outcome_bind] in Ec'. injection Ec' as <- <- <-.
      destruct Ha' as [(? & _)|(_ & Ha')]; [done|]. destruct h as [nm v].
      destruct (value_inv n more rest r hs nm (v ++ [d]) r' IH ltac:(lia) Ha')
        as (t & tail & folds & fs & -> & Ht & (Hfo & Hfs & ->) & ->).
      exists ((c :: l, d :: t) :: folds), fs. split.
      * split_and!; [constructor; [|done]|done|].
        { split_and!; [done|by constructor|by constructor|]. by intros ? [= <-]. }
        unfold render_folds, render_fold. cbn [map concat fst snd]. rewrite <- !app_assoc. cbn.
        by rewrite <- ?app_assoc.
      * unfold add_value, fold_text. cbn [map concat snd name value]. by rewrite <- !app_assoc.
  - destruct (first_line_inv n (c :: input) rest r (hs ++ [h]) r' c input IH) as (fs & Hfs & E & ->);
      [simpl in Hn; lia|done|done|by right|].
    exists [], fs. split; [split_and!; [constructor|done|by rewrite E]|].
    unfold add_value, fold_text. cbn [map concat]. rewrite app_nil_r, <- app_assoc. by destruct h.
Qed.

(** *** The request line *)

Ltac literal k b s' :=
  match goal with
  | H : accepts ?s ?r ?i _ _ |- _ =>
      apply (literal_inv s r k b s' r) in H as (? & -> & H); [|reflexivity|reflexivity]
  end.

Lemma accepts_grammar g1 g2 input rest r' :
  accepts method_start (fresh_request g1 g2) input rest r' →
  ∃ m, wf_message m ∧ input = render m ++ rest ∧ r' = meaning m.
Proof.
  intros Ha. apply accepts_cons in Ha as (c & more & res & s1 & r1 & -> & Ec & Ha).
  cbn [consume] in Ec. destruct (not_token (b2s c)) eqn:Hc; injection Ec as <- <- <-.
  { by destruct Ha as [(? & _)|(? & _)]. }
  destruct Ha as [(? & _)|(_ & Ha)]; [done|].
  unfold fresh_request, push_method in Ha. cbn [method_ uri_ http_version_major_ http_version_minor_ headers app] in Ha.
  destruct (loop_inv _ _ _ _ _ _ _ _ _ [] (method_loop [c] [] g1 g2 []) ltac:(constructor) Ha)
    as (me & more1 & -> & Hme & Ha1). rewrite !app_nil_l in *. clear Ha.
  destruct (loop_inv _ _ _ _ _ _ _ _ _ [] (uri_loop ([c] ++ me) g1 g2 []) ltac:(constructor) Ha1)
    as (u & more2 & -> & Hu & Ha). rewrite !app_nil_l in *. clear Ha1.
  literal 72 Byte.x48 http_version_t_1. literal 84 Byte.x54 http_version_t_2.
  literal 84 Byte.x54 http_version_p. literal 80 Byte.x50 http_version_slash.
  match goal with
  | H : accepts http_version_slash ?r _ _ _ |- _ =>
      apply (literal_inv http_version_slash r 47 Byte.x2f http_version_major_start
        (mk_request ([c] ++ me) u 0 0 [])) in H as (? & -> & H); [|reflexivity|reflexivity]
  end.
  apply major_inv in Ha as (ma & more3 & -> & Hma & Ha).
  apply minor_inv in Ha as (mi & more4 & -> & Hmi & Ha).
  literal 10 lf header_line_start.
  match goal with
  | H : accepts header_line_start ?r ?i _ _ |- _ =>
      destruct i as [|d i'] eqn:Ei; [by apply accepts_cons in H as (? & ? & ? & ? & ? & ? & _)|];
      destruct (first_line_inv (length i') (d :: i') rest r [] r' d i' (all_lines _) ltac:(done) eq_refl H)
        as (fs & Hfs & E & ->); [by left|]
  end.
  exists (mk_message ([c] ++ me) u ma mi fs). split_and!.
  - split_and!; [done|by constructor|done|done|done|done].
  - rewrite E. unfold render. cbn [m_method m_uri m_major m_minor m_fields].
    rewrite <- !app_assoc. cbn. by rewrite <- ?app_assoc.
  - done.
Qed.

(** ** When the parser stays defined *)

(** Runs of at most nine digits, [d] of them read already. *)
Fixpoint digit_runs (d : nat) (l : bytes) : Prop :=
  match l with
  | [] => True
  | c :: l => if is_digit (b2s c) then (d < 9)%nat ∧ digit_runs (S d) l else digit_runs 0 l
  end.

(** What the parser knows in each state, after [d] digits. *)
Definition state_ok (s : state) (r : request) (d : nat) : Prop :=
  match s with
  | http_version_major_start => http_version_major_ r = 0 ∧ http_version_minor_ r = 0
  | http_version_major => 0 <= http_version_major_ r < 10 ^ Z.of_nat d ∧ http_version_minor_ r = 0
  | http_version_minor_start => http_version_minor_ r = 0
  | http_version_minor => 0 <= http_version_minor_ r < 10 ^ Z.of_nat d
  | header_lws | header_name | space_before_header_value | header_value => headers r ≠ []
  | _ => True
  end.

Lemma update_back_ok f l : l ≠ [] → ∃ l', update_back f l = Ok l' ∧ l' ≠ [].
Proof.
  intros Hl. destruct (exists_last Hl) as (k & x & ->). exists (k ++ [f x]).
  split; [apply update_back_app|apply app_last_not_nil].
Qed.

Lemma add_digit_bounded v c d : digit_char c → 0 <= v < 10 ^ Z.of_nat d → (d < 9)%nat →
  ∃ v', add_digit v (b2s c) = Ok v' ∧ 0 <= v' < 10 ^ Z.of_nat (S d).
Proof.
  intros Hc Hv Hd. pose proof (digit_range c Hc).
  assert (10 ^ Z.of_nat d <= 10 ^ 8) by (apply Z.pow_le_mono_r; lia).
  exists (v * 10 + (b2s c - 48)). rewrite add_digit_ok by lia. split; [done|].
  rewrite Nat2Z.inj_succ, Z.pow_succ_r by lia. lia.
Qed.

Lemma number_step c d v s r s' mk :
  0 <= v < 10 ^ Z.of_nat d → (is_digit (b2s c) = true → (d < 9)%nat) →
  (∀ v', 0 <= v' < 10 ^ Z.of_nat (S d) → state_ok s' (mk v') (S d)) →
  ∃ res s1 r1,
    (if is_digit (b2s c) then v ← add_digit v (b2s c); Ok (indeterminate, s', mk v) else Ok (bad, s, r))
    = Ok (res, s1, r1) ∧
    (res = indeterminate → state_ok s1 r1 (if is_digit (b2s c) then S d else 0%nat)).
Proof.
  intros Hv Hd Hs. destruct (is_digit (b2s c)) eqn:E.
  - destruct (add_digit_bounded v c d E Hv (Hd eq_refl)) as (v' & -> & Hv').
    eexists _, _, _. split; [reflexivity|]. intros _. by apply Hs.
  - by eexists _, _, _.
Qed.

Lemma zero_bounded d : 0 <= 0 < 10 ^ Z.of_nat d.
Proof. split; [done|]. apply Z.pow_pos_nonneg; lia. Qed.

Lemma has_headers r b : negb (bool_decide (headers r = [])) && b = true → headers r ≠ [].
Proof. intros H. apply andb_true_iff in H as [H _]. by apply negb_true_iff, bool_decide_eq_false in H. Qed.

Lemma consume_defined s r c d :
  state_ok s r d → (is_digit (b2s c) = true → (d < 9)%nat) →
  ∃ res s' r', consume s r c = Ok (res, s', r') ∧
    (res = indeterminate → state_ok s' r' (if is_digit (b2s c) then S d else 0%nat)).
Proof.
  intros Hok Hd.
  assert (Hup : ∀ f, headers r ≠ [] → ∃ l', update_back f (headers r) = Ok l' ∧ l' ≠ [])
    by (intros f; apply update_back_ok).
  assert (Hup' : ∀ f, ∃ l', update_back f (headers r ++ [mk_header [] []]) = Ok l' ∧ l' ≠ [])
    by (intros f; apply update_back_ok, app_last_not_nil).
  destruct s; cbn [consume state_ok] in *;
    repeat match goal with
    | |- context [if (?x =? ?y) then _ else _] => destruct (x =? y) eqn:?
    | |- context [if not_token ?x then _ else _] => destruct (not_token x) eqn:?
    | |- context [if is_ctl ?x then _ else _] => destruct (is_ctl x) eqn:?
    | |- context [if negb ?x && ?y then _ else _] => destruct (negb x && y) eqn:?
    | |- context [if ?x || ?y then _ else _] => destruct (x || y) eqn:?
    | H : headers r ≠ [] |- context [update_back ?f (headers r)] =>
        destruct (Hup f H) as (? & -> & ?); cbn [mbind outcome_bind]
    | |- context [update_back ?f (headers r ++ _)] =>
        destruct (Hup' f) as (? & -> & ?); cbn [mbind outcome_bind]
    end;
    try (eexists _, _, _; split; [reflexivity|]; intros Hi; try discriminate Hi; clear Hi;
         cbn [state_ok headers set_headers http_version_major_ http_version_minor_ set_major set_minor];
         first [exact Logic.I | assumption | split; reflexivity]).
  - destruct Hok as [-> Hmi]. apply number_step; [apply zero_bounded|done|]. by intros v' Hv'.
  - eexists _, _, _. split; [reflexivity|]. intros _. apply Hok.
  - destruct Hok as [Hma Hmi]. apply number_step; [done|done|]. by intros v' Hv'.
  - rewrite Hok. apply number_step; [apply zero_bounded|done|]. by intros v' Hv'.
  - apply number_step; [done|done|]. by intros v' Hv'.
  - eexists _, _, _. split; [reflexivity|]. intros _. by eapply has_headers.
  - eexists _, _, _. split; [reflexivity|]. intros _. by eapply has_headers.
Qed.

Lemma parse_defined s r l d : state_ok s r d → digit_runs d l →
  ∃ res rest s' r', parse s r l = Ok (res, rest, s', r').
Proof.
  revert s r d. induction l as [|c l IH]; intros s r d Hok Hd; [by eexists _, _, _, _|].
  cbn [digit_runs] in Hd. cbn [parse].
  destruct (consume_defined s r c d Hok) as (res & s' & r' & -> & Hok').
  { intros E. rewrite E in Hd. apply Hd. }
  cbn [mbind outcome_bind]. case_decide as D; [by eexists _, _, _, _|].
  assert (res = indeterminate) as -> by (destruct res; [destruct D; auto|destruct D; auto|done]).
  apply (IH s' r' (if is_digit (b2s c) then S d else 0%nat)); [by apply Hok'|].
  destruct (is_digit (b2s c)); [apply Hd|exact Hd].
Qed.

(** ** What the parser promises *)

(** C31: the parser accepts a request exactly when the text starts with one of the
    grammar (request line, fields with continuation lines, empty line), and what
    it stores is what the grammar says: the request is cut off at the right place,
    for every text and every content of the uninitialised version numbers. *)
Theorem http_parser_exact g1 g2 input rest s r :
  parse method_start (fresh_request g1 g2) input = Ok (good, rest, s, r) ↔
  s = expecting_newline_3 ∧ ∃ m, wf_message m ∧ input = render m ++ rest ∧ r = meaning m.
Proof.
  split.
  - intros E. destruct (accepts_grammar g1 g2 input rest r) as (m & Hm & -> & ->); [by exists s|].
    rewrite render_parses in E by done. injection E as <-. split; [done|]. by exists m.
  - intros (-> & m & Hm & -> & ->). by apply render_parses.
Qed.

(** However the network cuts a request, feeding the parser the pieces one
    after the other ends as feeding it the whole text: the same result, the same
    text left over, the same state and request. *)
Theorem http_parse_incremental s r a b :
  parse s r (a ++ b) =
    '(res, rest, s, r) ← parse s r a;
    match res with
    | indeterminate => parse s r b
    | _ => Ok (res, rest ++ b, s, r)
    end.
Proof. apply parse_app. Qed.

(** On any text without ten digits in a row the parser returns: it never
    touches the last header of a request that has none, and never overflows. *)
Theorem http_parser_defined g1 g2 input :
  digit_runs 0 input → ∃ res rest s r, parse method_start (fresh_request g1 g2) input = Ok (res, rest, s, r).
Proof. by apply (parse_defined method_start (fresh_request g1 g2) input 0). Qed.

Lemma http_parser_defined_witness :
  ∃ res rest s r, parse method_start (fresh_request 7 7) (bs "GET /a HTTP/123456789.0" ++ [cr; lf; sp])
    = Ok (res, rest, s, r).
Proof.
  apply (http_parser_defined 7 7 (bs "GET /a HTTP/123456789.0" ++ [cr; lf; sp])).
  vm_compute. repeat split; repeat constructor.
Defined.

(** Ten digits are enough for signed overflow: the version numbers are read
    without a bound. *)
Theorem http_version_overflow g1 g2 :
  parse method_start (fresh_request g1 g2) (bs "GET / HTTP/9999999999") = Undefined.
Proof. reflexivity. Qed.
