(* ===== verification/HttpReply.v ===== *)
(** HTTP replies and the request handler (src/MiniProtobufServer/HttpServer:
    reply.{hpp,cpp}, mime_types.cpp, request_handler.{hpp,cpp}).

    The file system is the parameter [open_file]: what [std::ifstream] reads from
    the file of a given path, [None] when it does not open.  The formatted input
    of the standard library that the code uses ([is >> std::hex >> value]) and
    [std::to_string] are written out. *)

From S2P Require Import Prelude HttpParser.

(** ** Replies *)

Inductive status_type :=
  | ok | created | accepted | no_content
  | multiple_choices | moved_permanently | moved_temporarily | not_modified
  | bad_request | unauthorized | forbidden | not_found
  | internal_server_error | not_implemented | bad_gateway | service_unavailable.

Record reply := mk_reply { status : status_type; reply_headers : list header; content : bytes }.

Definition crlf : bytes := [Byte.x0d; Byte.x0a].
Definition name_value_separator : bytes := bs ": ".

(** [status_strings::to_buffer]. *)
Definition status_to_buffer (status : status_type) : bytes :=
  match status with
  | ok => bs "HTTP/1.0 200 OK"
  | created => bs "HTTP/1.0 201 Created"
  | accepted => bs "HTTP/1.0 202 Accepted"
  | no_content => bs "HTTP/1.0 204 No Content"
  | multiple_choices => bs "HTTP/1.0 300 Multiple Choices"
  | moved_permanently => bs "HTTP/1.0 301 Moved Permanently"
  | moved_temporarily => bs "HTTP/1.0 302 Moved Temporarily"
  | not_modified => bs "HTTP/1.0 304 Not Modified"
  | bad_request => bs "HTTP/1.0 400 Bad Request"
  | unauthorized => bs "HTTP/1.0 401 Unauthorized"
  | forbidden => bs "HTTP/1.0 403 Forbidden"
  | not_found => bs "HTTP/1.0 404 Not Found"
  | internal_server_error => bs "HTTP/1.0 500 Internal Server Error"
  | not_implemented => bs "HTTP/1.0 501 Not Implemented"
  | bad_gateway => bs "HTTP/1.0 502 Bad Gateway"
  | service_unavailable => bs "HTTP/1.0 503 Service Unavailable"
  end ++ crlf.

(** [reply::to_buffers], as the bytes [async_write] sends. *)
Definition header_to_buffers (h : header) : bytes :=
  name h ++ name_value_separator ++ value h ++ crlf.
Definition to_buffers (rep : reply) : bytes :=
  status_to_buffer (status rep) ++ concat (map header_to_buffers (reply_headers rep)) ++
  crlf ++ content rep.

(** [stock_replies]: a page with a title and a heading; the page for [ok] is empty. *)
Definition stock_page (title heading : string) : bytes :=
  bs "<html>" ++ bs "<head><title>" ++ bs title ++ bs "</title></head>" ++
  bs "<body><h1>" ++ bs heading ++ bs "</h1></body>" ++ bs "</html>".

(** [stock_replies::to_string]. *)
Definition stock_to_string (status : status_type) : bytes :=
  match status with
  | ok => []
  | created => stock_page "Created" "201 Created"
  | accepted => stock_page "Accepted" "202 Accepted"
  | no_content => stock_page "No Content" "204 Content"
  | multiple_choices => stock_page "Multiple Choices" "300 Multiple Choices"
  | moved_permanently => stock_page "Moved Permanently" "301 Moved Permanently"
  | moved_temporarily => stock_page "Moved Temporarily" "302 Moved Temporarily"
  | not_modified => stock_page "Not Modified" "304 Not Modified"
  | bad_request => stock_page "Bad Request" "400 Bad Request"
  | unauthorized => stock_page "Unauthorized" "401 Unauthorized"
  | forbidden => stock_page "Forbidden" "403 Forbidden"
  | not_found => stock_page "Not Found" "404 Not Found"
  | internal_server_error => stock_page "Internal Server Error" "500 Internal Server Error"
  | not_implemented => stock_page "Not Implemented" "501 Not Implemented"
  | bad_gateway => stock_page "Bad Gateway" "502 Bad Gateway"
  | service_unavailable => stock_page "Service Unavailable" "503 Service Unavailable"
  end.

(** [std::to_string] of a size: the fuel is the number of digits at most. *)
Fixpoint to_digits (fuel : nat) (n : Z) : bytes :=
  match fuel with
  | O => []
  | S fuel => if n <? 10 then [z2b (48 + n)] else to_digits fuel (n / 10) ++ [z2b (48 + n mod 10)]
  end.
Definition to_string (n : Z) : bytes := to_digits (S (Z.to_nat (Z.log2 n))) n.

(** The two headers both kinds of reply fill in. *)
Definition content_headers (length type : bytes) : list header :=
  [mk_header (bs "Content-Length") length; mk_header (bs "Content-Type") type].

Definition stock_reply (status : status_type) : reply :=
  let content := stock_to_string status in
  mk_reply status (content_headers (to_string (zlen content)) (bs "text/html")) content.

(** ** Media types *)

Definition mappings : list (bytes * bytes) :=
  [(bs "gif", bs "image/gif"); (bs "htm", bs "text/html"); (bs "html", bs "text/html");
   (bs "jpg", bs "image/jpeg"); (bs "png", bs "image/png")].

Fixpoint find_mapping (l : list (bytes * bytes)) (extension : bytes) : bytes :=
  match l with
  | [] => bs "text/plain"
  | (e, t) :: l => if decide (e = extension) then t else find_mapping l extension
  end.
Definition extension_to_type (extension : bytes) : bytes := find_mapping mappings extension.

(** ** Formatted input of a hexadecimal [int] *)

Definition is_space (c : byte) : bool := (b2z c =? 32) || ((9 <=? b2z c) && (b2z c <=? 13)).

Definition hex_digit (c : byte) : option Z :=
  let c := b2z c in
  if (48 <=? c) && (c <=? 57) then Some (c - 48)
  else if (65 <=? c) && (c <=? 70) then Some (c - 55)
  else if (97 <=? c) && (c <=? 102) then Some (c - 87)
  else None.

Fixpoint skip_space (l : bytes) : bytes :=
  match l with c :: l' => if is_space c then skip_space l' else l | [] => [] end.

(** The value of the digits at the head, [None] when there is none. *)
Fixpoint hex_digits (seen : option Z) (l : bytes) : option Z :=
  match l with
  | [] => seen
  | c :: l =>
      match hex_digit c with
      | Some d => hex_digits (Some (default 0 seen * 16 + d)) l
      | None => seen
      end
  end.

(** Behind the sign: an optional 0x, which needs digits of its own. *)
Definition hex_magnitude (l : bytes) : option Z :=
  match l with
  | z :: x :: l' =>
      if (b2z z =? 48) && ((b2z x =? 120) || (b2z x =? 88)) then hex_digits None l' else hex_digits None l
  | _ => hex_digits None l
  end.

(** [is >> std::hex >> value] on a string of two characters: white space is
    skipped, a sign is read, and what follows the number stays unread. *)
Definition extract_hex (l : bytes) : option Z :=
  match skip_space l with
  | c :: l' =>
      if b2z c =? 45 then Z.opp <$> hex_magnitude l'
      else if b2z c =? 43 then hex_magnitude l'
      else hex_magnitude (c :: l')
  | [] => None
  end.

(** ** Request handler *)

(** [request_handler::url_decode]: whether it succeeded, and [out]. *)
Fixpoint url_decode_from (input out : bytes) : bool * bytes :=
  match input with
  | [] => (true, out)
  | c :: rest =>
      if b2z c =? 37 then
        match rest with
        | a :: b :: rest' =>
            match extract_hex [a; b] with
            | Some value => url_decode_from rest' (out ++ [z2b value])
            | None => (false, out)
            end
        | _ => (false, out)
        end
      else if b2z c =? 43 then url_decode_from rest (out ++ [Byte.x20])
      else url_decode_from rest (out ++ [c])
  end.
Definition url_decode (input : bytes) : bool * bytes := url_decode_from input [].

(** [find("..") != npos]. *)
Fixpoint has_dotdot (l : bytes) : bool :=
  match l with
  | [] => false
  | a :: l' => ((b2z a =? 46) && match l' with b :: _ => b2z b =? 46 | [] => false end) || has_dotdot l'
  end.

(** [find_last_of] of one character, and [substr] from behind a position. *)
Fixpoint find_last_of (k : Z) (l : bytes) : option nat :=
  match l with
  | [] => None
  | c :: l =>
      match find_last_of k l with
      | Some n => Some (S n)
      | None => if b2z c =? k then Some O else None
      end
  end.

Definition path_extension (request_path : bytes) : bytes :=
  match find_last_of 46 request_path, find_last_of 47 request_path with
  | Some dot, Some slash => if (slash <? dot)%nat then drop (dot + 1) request_path else []
  | _, _ => []
  end.

(** [c_str()] as a C function sees it: up to the first zero byte. *)
Fixpoint c_str (l : bytes) : bytes :=
  match l with
  | [] => []
  | c :: l => if b2z c =? 0 then [] else c :: c_str l
  end.

(** [while (is.read(buf, sizeof(buf)).gcount() > 0)]: blocks of 512 bytes. *)
Fixpoint read_blocks (fuel : nat) (file content : bytes) : bytes :=
  match fuel with
  | O => content
  | S fuel =>
      let block := take 512 file in
      if (0 <? length block)%nat then read_blocks fuel (drop 512 file) (content ++ block) else content
  end.

Section Handler.
Context (doc_root_ : bytes) (open_file : bytes → option bytes).

Definition handle_request (req : request) (rep : reply) : reply :=
  let '(decoded, request_path) := url_decode (uri_ req) in
  if negb decoded then stock_reply bad_request
  else if negb (match request_path with c :: _ => b2z c =? 47 | [] => false end) || has_dotdot request_path
  then stock_reply bad_request
  else
    let request_path :=
      if b2z (List.last request_path Byte.x00) =? 47 then request_path ++ bs "index.html" else request_path in
    let extension := path_extension request_path in
    let full_path := doc_root_ ++ request_path in
    match open_file (c_str full_path) with
    | None => stock_reply not_found
    | Some file =>
        let content := read_blocks (S (length file)) file (content rep) in
        mk_reply ok (content_headers (to_string (zlen content)) (extension_to_type extension)) content
    end.
End Handler.
