(* ===== verification/HttpReplyFacts.v ===== *)
(** Replies are framed by their Content-Length; URL decoding undoes encoding; a
    request can only make the server open files below its root; and where
    decoding accepts what is no encoding. *)

From S2P Require Import Prelude HttpParser HttpParserFacts HttpReply.

(** ** Content-Length *)

Lemma digit_byte d : 0 <= d < 10 → b2s (z2b (48 + d)) = 48 + d ∧ digit_char (z2b (48 + d)).
Proof.
  intros Hd. assert (b2s (z2b (48 + d)) = 48 + d) as E.
  { unfold b2s. rewrite b2z_z2b_small by lia. zdec. done. }
  split; [done|]. unfold digit_char, is_digit. rewrite E. rewrite !Z.geb_leb. by zdec.
Qed.

Lemma to_digits_spec fuel n : 0 <= n < 2 ^ Z.of_nat fuel →
  Forall digit_char (to_digits fuel n) ∧ decimal (to_digits fuel n) = n.
Proof.
  revert n. induction fuel as [|fuel IH]; intros n Hn; cbn [to_digits].
  - split; [constructor|]. change (2 ^ Z.of_nat 0) with 1 in Hn. unfold decimal. cbn. lia.
  - destruct (n <? 10) eqn:E; zbool.
    + destruct (digit_byte n) as [H1 H2]; [lia|]. split; [by repeat constructor|].
      unfold decimal. cbn. rewrite H1. lia.
    + rewrite Nat2Z.inj_succ, Z.pow_succ_r in Hn by lia.
      destruct (IH (n / 10)) as [H1 H2].
      { split; [apply Z.div_pos; lia|]. apply Z.div_lt_upper_bound; lia. }
      destruct (digit_byte (n mod 10)) as [H3 H4]; [apply Z.mod_pos_bound; lia|].
      split; [apply Forall_app; by repeat constructor|].
      rewrite decimal_snoc, H2, H3. pose proof (Z.div_mod n 10 ltac:(lia)). lia.
Qed.

Lemma to_string_spec n : 0 <= n → Forall digit_char (to_string n) ∧ decimal (to_string n) = n.
Proof.
  intros Hn. apply to_digits_spec. split; [done|].
  rewrite Nat2Z.inj_succ, Z2Nat.id by apply Z.log2_nonneg.
  destruct (Z.eq_dec n 0) as [->|]; [done|]. apply Z.log2_spec. lia.
Qed.

(** A reply whose bytes are a status line, the two headers and the content, with
    the length announced. *)
Definition framed (rep : reply) : Prop :=
  ∃ length type,
    to_buffers rep = status_to_buffer (status rep) ++ bs "Content-Length: " ++ length ++ crlf ++
      bs "Content-Type: " ++ type ++ crlf ++ crlf ++ content rep ∧
    Forall digit_char length ∧ decimal length = zlen (content rep) ∧ Forall text_char type.

Lemma framed_content_headers st type c : Forall text_char type →
  framed (mk_reply st (content_headers (to_string (zlen c)) type) c).
Proof.
  intros Ht. destruct (to_string_spec (zlen c)) as [H1 H2]; [apply zlen_nonneg|].
  exists (to_string (zlen c)), type. split_and!; [|done|done|done].
  unfold to_buffers, header_to_buffers, content_headers, name_value_separator. cbn [status reply_headers content].
  cbn [map concat name value]. rewrite <- !app_assoc. reflexivity.
Qed.

Lemma text_chars_dec l : forallb (λ c, negb (is_ctl (b2s c))) l = true → Forall text_char l.
Proof.
  intros H. apply Forall_forall. intros c Hc. apply list_elem_of_In in Hc. rewrite forallb_forall in H.
  specialize (H c Hc). by apply negb_true_iff in H.
Qed.

Lemma find_mapping_text l e : Forall (λ p, Forall text_char (snd p)) l → Forall text_char (find_mapping l e).
Proof.
  induction 1 as [|[x t] l Ht _ IH]; cbn [find_mapping]; [by apply text_chars_dec|]. by case_decide.
Qed.

Lemma extension_to_type_text e : Forall text_char (extension_to_type e).
Proof. apply find_mapping_text. repeat constructor; by apply text_chars_dec. Qed.

Lemma stock_reply_framed st : framed (stock_reply st).
Proof. apply framed_content_headers. by apply text_chars_dec. Qed.

(** Blocks put the file together again. *)
Lemma read_blocks_spec fuel file c : (length file < fuel)%nat → read_blocks fuel file c = c ++ file.
Proof.
  revert file c. induction fuel as [|fuel IH]; intros file c Hf; [lia|]. cbn [read_blocks].
  destruct (0 <? length (take 512 file))%nat eqn:E.
  - apply Nat.ltb_lt in E. rewrite IH; [by rewrite <- app_assoc, take_drop|].
    rewrite length_drop. rewrite length_take in E. lia.
  - apply Nat.ltb_ge in E. rewrite length_take in E. destruct file; [by rewrite app_nil_r|simpl in E; lia].
Qed.

(** ** URL decoding *)

Definition hex_char (d : Z) : byte := z2b (if d <? 10 then 48 + d else 55 + d).

(** The reference encoder: letters, digits and a few marks stand for themselves. *)
Definition unreserved (c : byte) : bool :=
  let z := b2z c in
  ((48 <=? z) && (z <=? 57)) || ((65 <=? z) && (z <=? 90)) || ((97 <=? z) && (z <=? 122)) ||
  existsb (Z.eqb z) [45; 46; 47; 95; 126].

Definition url_encode_char (c : byte) : bytes :=
  if unreserved c then [c] else [Byte.x25; hex_char (b2z c / 16); hex_char (b2z c mod 16)].
Definition url_encode (l : bytes) : bytes := concat (map url_encode_char l).

Lemma extract_hex_encoded c : extract_hex [hex_char (b2z c / 16); hex_char (b2z c mod 16)] = Some (b2z c).
Proof. destruct c; reflexivity. Qed.

Lemma url_decode_from_encoded c rest out :
  url_decode_from (url_encode_char c ++ rest) out = url_decode_from rest (out ++ [c]).
Proof.
  unfold url_encode_char. destruct (unreserved c) eqn:E.
  - cbn [app url_decode_from]. assert ((b2z c =? 37) = false ∧ (b2z c =? 43) = false) as [-> ->]; [|done].
    split; apply Z.eqb_neq; intros Hc; unfold unreserved in E; by rewrite Hc in E.
  - cbn [app url_decode_from]. rewrite extract_hex_encoded. by rewrite z2b_b2z.
Qed.

Lemma url_decode_encode l : url_decode (url_encode l) = (true, l).
Proof.
  unfold url_decode, url_encode.
  assert (∀ out, url_decode_from (concat (map url_encode_char l)) out = (true, out ++ l)) as H; [|apply H].
  induction l as [|c l IH]; intros out; cbn [map concat].
  - by rewrite app_nil_r.
  - by rewrite url_decode_from_encoded, IH, <- app_assoc.
Qed.

(** ** Paths *)

(** What a request may name: absolute, without two dots in a row. *)
Definition safe_path (p : bytes) : Prop := List.head p = Some Byte.x2f ∧ has_dotdot p = false.

Lemma has_dotdot_app_index p : has_dotdot p = false → List.last p Byte.x00 = Byte.x2f →
  has_dotdot (p ++ bs "index.html") = false.
Proof.
  induction p as [|a p IH]; intros Hd Hl; [done|]. cbn [app has_dotdot] in *. apply orb_false_iff in Hd as [Hd Hr].
  destruct p as [|b p].
  - cbn in Hl. subst a. reflexivity.
  - rewrite IH by done. cbn [app]. by rewrite Hd.
Qed.

Lemma request_path_safe p : safe_path p →
  safe_path (if b2z (List.last p Byte.x00) =? 47 then p ++ bs "index.html" else p).
Proof.
  intros [Hh Hd]. case_match eqn:E; [|done]. split.
  - destruct p; [done|exact Hh].
  - apply has_dotdot_app_index; [done|]. zbool. apply b2z_inj. by rewrite E.
Qed.

Definition nul_free (l : bytes) : Prop := Forall (λ c, b2z c ≠ 0) l.

Lemma c_str_app l k : nul_free l → c_str (l ++ k) = l ++ c_str k.
Proof.
  induction 1 as [|c l Hc _ IH]; [done|]. cbn [app c_str]. by rewrite (proj2 (Z.eqb_neq _ _) Hc), IH.
Qed.

Lemma c_str_nul_free l : nul_free (c_str l).
Proof.
  induction l as [|c l IH]; cbn [c_str]; [constructor|]. case_match; constructor; [by zbool|done].
Qed.

Lemma c_str_dotdot l : has_dotdot l = false → has_dotdot (c_str l) = false.
Proof.
  induction l as [|c l IH]; [done|]. cbn [c_str has_dotdot]. intros H. apply orb_false_iff in H as [H1 H2].
  destruct (b2z c =? 0); [done|]. cbn [has_dotdot]. rewrite IH by done. rewrite orb_false_r.
  destruct l as [|d l]; [done|]. cbn [c_str]. destruct (b2z d =? 0); [apply andb_false_r|exact H1].
Qed.

Lemma c_str_safe p : safe_path p → safe_path (c_str p).
Proof.
  intros [Hh Hd]. split; [|by apply c_str_dotdot]. destruct p as [|c p]; [done|].
  injection Hh as ->. reflexivity.
Qed.

(** The path a request names, if it names one. *)
Definition requested_path (uri : bytes) : option bytes :=
  let '(decoded, p) := url_decode uri in
  if decoded then
    if bool_decide (List.head p = Some Byte.x2f) && negb (has_dotdot p)
    then Some (if b2z (List.last p Byte.x00) =? 47 then p ++ bs "index.html" else p)
    else None
  else None.

Lemma requested_path_safe uri p : requested_path uri = Some p → safe_path p.
Proof.
  unfold requested_path. destruct (url_decode uri) as [[] q]; [|done].
  case_match eqn:E; [|done]. intros [= <-]. apply andb_true_iff in E as [E1 E2].
  apply request_path_safe. split; [by apply bool_decide_eq_true in E1|by apply negb_true_iff in E2].
Qed.

Lemma slash_head p :
  match p with c :: _ => b2z c =? 47 | [] => false end = bool_decide (List.head p = Some Byte.x2f).
Proof.
  destruct p as [|c p]; [done|]. cbn [List.head]. destruct (b2z c =? 47) eqn:E.
  - zbool. rewrite bool_decide_true; [done|]. f_equal. apply b2z_inj. by rewrite E.
  - rewrite bool_decide_false; [done|]. intros [= ->]. by apply Z.eqb_neq in E.
Qed.

(** The handler, by the path the request names. *)
Lemma handle_request_spec doc_root open_file req rep :
  handle_request doc_root open_file req rep =
    match requested_path (uri_ req) with
    | None => stock_reply bad_request
    | Some p =>
        match open_file (c_str (doc_root ++ p)) with
        | None => stock_reply not_found
        | Some file =>
            mk_reply ok (content_headers (to_string (zlen (content rep ++ file)))
                           (extension_to_type (path_extension p))) (content rep ++ file)
        end
    end.
Proof.
  unfold handle_request, requested_path. destruct (url_decode (uri_ req)) as [[] p]; [|done].
  cbn [negb]. rewrite slash_head.
  destruct (bool_decide (List.head p = Some Byte.x2f)), (has_dotdot p); cbn [negb orb andb]; try done.
  case_match; [|done]. by rewrite read_blocks_spec by lia.
Qed.

(** ** What the handler promises *)

(** Every reply of the handler is framed: a status line, the length of the
    content in decimal, its type, an empty line and the content, so that the
    reader finds the end of the content from the length. *)
Theorem http_reply_framed doc_root open_file req rep :
  framed (handle_request doc_root open_file req rep).
Proof.
  rewrite handle_request_spec. repeat case_match; try apply stock_reply_framed.
  apply framed_content_headers, extension_to_type_text.
Qed.

(** C33: no request escapes the document root: two file systems that agree on the
    files below the root, named by absolute paths without [..], are answered
    alike, whatever bytes the request line smuggles in. *)
Theorem http_confined doc_root open_file open_file' req rep :
  nul_free doc_root →
  (∀ p, safe_path p → nul_free p → open_file (doc_root ++ p) = open_file' (doc_root ++ p)) →
  handle_request doc_root open_file req rep = handle_request doc_root open_file' req rep.
Proof.
  intros Hr Hf. rewrite !handle_request_spec. destruct (requested_path (uri_ req)) as [p|] eqn:E; [|done].
  apply requested_path_safe, c_str_safe in E. rewrite c_str_app by done.
  by rewrite Hf by (done || apply c_str_nul_free).
Qed.


Definition sample_files (path : bytes) : option bytes :=
  if decide (path = bs "/srv/a b.html") then Some (bs "<p>hi</p>")
  else if decide (path = bs "/etc/passwd") then Some (bs "root") else None.

Definition get_request (u : bytes) : request := mk_request (bs "GET") u 1 0 [].
Definition empty_reply : reply := mk_reply ok [] [].

Lemma nul_free_dec l : forallb (λ c, negb (b2z c =? 0)) l = true → nul_free l.
Proof.
  intros H. apply Forall_forall. intros c Hc. apply list_elem_of_In in Hc. rewrite forallb_forall in H.
  specialize (H c Hc). by apply negb_true_iff, Z.eqb_neq in H.
Qed.

Lemma http_confined_witness :
  handle_request (bs "/srv") sample_files (get_request (bs "/..%2fetc/passwd")) empty_reply =
  handle_request (bs "/srv") (λ path, if decide (path = bs "/etc/passwd") then None else sample_files path)
    (get_request (bs "/..%2fetc/passwd")) empty_reply.
Proof.
  apply (http_confined (bs "/srv") sample_files
    (λ path, if decide (path = bs "/etc/passwd") then None else sample_files path)).
  - apply nul_free_dec. reflexivity.
  - intros p _ _. cbn beta. destruct (decide (bs "/srv" ++ p = bs "/etc/passwd")) as [E|E]; [discriminate E|reflexivity].
Defined.


(** Decoding accepts what is no encoding: a percent sign followed by a hex
    digit and anything else, by a blank, or by a sign is decoded, and the second
    character is swallowed; the result may be a byte no encoder writes that way. *)
Theorem url_decode_accepts_junk :
  url_decode (bs "/%5g") = (true, [Byte.x2f; Byte.x05]) ∧
  url_decode (bs "/% 7") = (true, [Byte.x2f; Byte.x07]) ∧
  url_decode (bs "/%-1") = (true, [Byte.x2f; Byte.xff]) ∧
  url_decode (bs "/%+A") = (true, [Byte.x2f; Byte.x0a]).
Proof. repeat split. Qed.

(** An encoded zero byte cuts the path the file is opened by, but not the
    path the media type is taken from: a page is served as an image. *)
Theorem nul_byte_spoofs_type doc_root open_file rep file :
  nul_free doc_root → content rep = [] → open_file (doc_root ++ bs "/page.html") = Some file →
  handle_request doc_root open_file (get_request (bs "/page.html%00.gif")) rep =
    mk_reply ok (content_headers (to_string (zlen file)) (bs "image/gif")) file.
Proof.
  intros Hr Hc Hf. rewrite handle_request_spec.
  replace (requested_path _) with (Some (bs "/page.html" ++ [Byte.x00] ++ bs ".gif")) by reflexivity.
  rewrite c_str_app by done. replace (c_str _) with (bs "/page.html") by reflexivity.
  by rewrite Hf, Hc.
Qed.

Lemma nul_byte_spoofs_type_witness :
  handle_request (bs "/srv") (λ path, if decide (path = bs "/srv/page.html") then Some (bs "x") else None)
    (get_request (bs "/page.html%00.gif")) empty_reply =
    mk_reply ok (content_headers (to_string 1) (bs "image/gif")) (bs "x").
Proof.
  apply (nul_byte_spoofs_type (bs "/srv")
    (λ path, if decide (path = bs "/srv/page.html") then Some (bs "x") else None) empty_reply (bs "x")).
  - apply nul_free_dec. reflexivity.
  - reflexivity.
  - reflexivity.
Defined.
