(* ===== verification/HttpConnection.v ===== *)
(** Connections of the HTTP server (src/MiniProtobufServer/HttpServer:
    connection.{hpp,cpp}, connection_manager.{hpp,cpp}, http_server.{hpp,cpp}).

    A handler the code passes to an asynchronous operation is a function on the
    state of the server; [step] lets the outstanding operations complete in any
    order, with any result the library may report.  Of the library it is assumed
    that an operation completes with [operation_aborted] only when its socket has
    been closed, and that a successful read delivers at least one byte and no more
    than the buffer holds.

    An object lives as long as the manager or an outstanding operation holds it;
    [objects] keeps them all.  [received] and [written] record what the peer has
    delivered and what was handed to [async_write]. *)

From S2P Require Import Prelude HttpParser HttpReply.

Inductive error_code := success | operation_aborted | other_error.

#[global] Instance error_code_eq_dec : EqDecision error_code.
Proof. solve_decision. Defined.

(** The operation a connection waits for. *)
Inductive operation := Reading | Writing.

Record connection := mk_connection {
  socket_open : bool;
  request_ : request;
  request_parser_ : state;
  reply_ : reply;
  outstanding : option operation;
  received : bytes;
  written : list bytes
}.

(** [std::array<char, 8192> buffer_]. *)
Definition buffer_size : Z := 8192.

(** The constructor; the version numbers and the status are not initialised. *)
Definition new_connection (garbage_major garbage_minor : Z) (garbage_status : status_type) : connection :=
  mk_connection true (fresh_request garbage_major garbage_minor) method_start
    (mk_reply garbage_status [] []) None [] [].

Definition set_outstanding (o : option operation) (c : connection) : connection :=
  mk_connection (socket_open c) (request_ c) (request_parser_ c) (reply_ c) o (received c) (written c).

(** [connection::do_read], [start], [stop] and [do_write]. *)
Definition do_read (c : connection) : connection := set_outstanding (Some Reading) c.
Definition start (c : connection) : connection := do_read c.
Definition stop (c : connection) : connection :=
  mk_connection false (request_ c) (request_parser_ c) (reply_ c) (outstanding c) (received c) (written c).
Definition do_write (c : connection) : connection :=
  mk_connection (socket_open c) (request_ c) (request_parser_ c) (reply_ c) (Some Writing) (received c)
    (written c ++ [to_buffers (reply_ c)]).

Record server := mk_server {
  objects : gmap nat connection;
  connections_ : gset nat;
  acceptor_open : bool;
  accept_outstanding : bool;
  signal_outstanding : bool;
  next_id : nat
}.

Definition set_objects (o : gmap nat connection) (s : server) : server :=
  mk_server o (connections_ s) (acceptor_open s) (accept_outstanding s) (signal_outstanding s) (next_id s).

(** *** connection_manager *)

Definition manager_start (id : nat) (c : connection) (s : server) : server :=
  mk_server (<[id := start c]> (objects s)) ({[id]} ∪ connections_ s) (acceptor_open s)
    (accept_outstanding s) (signal_outstanding s) (S id).

Definition manager_stop (id : nat) (c : connection) (s : server) : server :=
  mk_server (<[id := stop c]> (objects s)) (connections_ s ∖ {[id]}) (acceptor_open s)
    (accept_outstanding s) (signal_outstanding s) (next_id s).

Definition stop_all (s : server) : server :=
  mk_server (map_imap (λ id c, Some (if decide (id ∈ connections_ s) then stop c else c)) (objects s)) ∅
    (acceptor_open s) (accept_outstanding s) (signal_outstanding s) (next_id s).

Section Handlers.
Context (doc_root_ : bytes) (open_file : bytes → option bytes).

(** The handler of [connection::do_read]. *)
Definition on_read (id : nat) (c : connection) (ec : error_code) (data : bytes) (s : server) : outcome server :=
  let c := set_outstanding None c in
  match ec with
  | success =>
      '(result, _, parser, req) ← parse (request_parser_ c) (request_ c) data;
      let c := mk_connection (socket_open c) req parser (reply_ c) (outstanding c) (received c ++ data) (written c) in
      let c :=
        match result with
        | good =>
            do_write (mk_connection (socket_open c) (request_ c) (request_parser_ c)
              (handle_request doc_root_ open_file req (reply_ c)) (outstanding c) (received c) (written c))
        | bad =>
            do_write (mk_connection (socket_open c) (request_ c) (request_parser_ c)
              (stock_reply bad_request) (outstanding c) (received c) (written c))
        | indeterminate => do_read c
        end in
      Ok (set_objects (<[id := c]> (objects s)) s)
  | operation_aborted => Ok (set_objects (<[id := c]> (objects s)) s)
  | other_error => Ok (manager_stop id c s)
  end.

(** The handler of [connection::do_write]; the shutdown is part of the stop. *)
Definition on_write (id : nat) (c : connection) (ec : error_code) (s : server) : server :=
  let c := set_outstanding None c in
  if decide (ec ≠ operation_aborted) then manager_stop id c s
  else set_objects (<[id := c]> (objects s)) s.

(** *** server *)

Definition do_accept (s : server) : server :=
  mk_server (objects s) (connections_ s) (acceptor_open s) true (signal_outstanding s) (next_id s).

(** The handler of [server::do_accept]. *)
Definition on_accept (ec : error_code) (g1 g2 : Z) (gs : status_type) (s : server) : server :=
  let s := mk_server (objects s) (connections_ s) (acceptor_open s) false (signal_outstanding s) (next_id s) in
  if negb (acceptor_open s) then s
  else do_accept (if decide (ec = success) then manager_start (next_id s) (new_connection g1 g2 gs) s else s).

(** The handler of [server::do_await_stop]. *)
Definition on_signal (s : server) : server :=
  stop_all (mk_server (objects s) (connections_ s) false (accept_outstanding s) false (next_id s)).

(** [server::server]: waiting for a signal and for a connection. *)
Definition new_server : server := do_accept (mk_server ∅ ∅ true false true 0).

Inductive step : server → server → Prop :=
  | step_accept s ec g1 g2 gs :
      accept_outstanding s = true → step s (on_accept ec g1 g2 gs s)
  | step_read s id c ec data s' :
      objects s !! id = Some c → outstanding c = Some Reading →
      (ec = operation_aborted → socket_open c = false) →
      (ec = success → data ≠ [] ∧ zlen data <= buffer_size) →
      on_read id c ec data s = Ok s' → step s s'
  | step_write s id c ec :
      objects s !! id = Some c → outstanding c = Some Writing →
      (ec = operation_aborted → socket_open c = false) →
      step s (on_write id c ec s)
  | step_signal s : signal_outstanding s = true → step s (on_signal s).

Inductive reachable : server → Prop :=
  | reachable_init : reachable new_server
  | reachable_step s s' : reachable s → step s s' → reachable s'.

End Handlers.
