(* ===== verification/HttpConnectionFacts.v ===== *)
(** Every connection is answered at most once, with the answer to the text it
    sent however that text arrived; connections are released; a signal ends all. *)

From S2P Require Import Prelude HttpParser HttpParserFacts HttpReply HttpReplyFacts HttpConnection.

(** An indeterminate parse has read everything. *)
Lemma parse_indeterminate s r l rest s' r' : parse s r l = Ok (indeterminate, rest, s', r') → rest = [].
Proof.
  revert s r. induction l as [|c l IH]; intros s r; cbn [parse]; [by intros [= <-]|].
  destruct (consume s r c) as [[[res s1] r1]| |]; cbn [mbind outcome_bind]; [|done|done].
  case_decide as D; [|apply IH]. intros [= -> _ _ _]. by destruct D.
Qed.

Section Server.
Context (doc_root_ : bytes) (open_file : bytes → option bytes).

(** The answer to a text, if the text calls for one. *)
Definition response (g1 g2 : Z) (text : bytes) : option reply :=
  match parse method_start (fresh_request g1 g2) text with
  | Ok (good, _, _, req) => Some (handle_request doc_root_ open_file req empty_reply)
  | Ok (bad, _, _, _) => Some (stock_reply bad_request)
  | _ => None
  end.

Lemma handle_request_content req rep rep' : content rep = content rep' →
  handle_request doc_root_ open_file req rep = handle_request doc_root_ open_file req rep'.
Proof. intros E. by rewrite !handle_request_spec, E. Qed.

(** *** What is known of a connection *)

Definition answered (c : connection) : Prop :=
  ∃ g1 g2 rep, response g1 g2 (received c) = Some rep ∧ written c = [to_buffers rep].

Definition conn_inv (managed : bool) (c : connection) : Prop :=
  socket_open c = managed ∧ (managed = true → outstanding c ≠ None) ∧
  match outstanding c with
  | Some Reading =>
      written c = [] ∧ content (reply_ c) = [] ∧
      ∃ g1 g2, parse method_start (fresh_request g1 g2) (received c)
               = Ok (indeterminate, [], request_parser_ c, request_ c)
  | Some Writing => answered c
  | None => written c = [] ∨ answered c
  end.

Lemma conn_inv_new g1 g2 gs : conn_inv true (start (new_connection g1 g2 gs)).
Proof. split_and!; [done|done|]. cbn. split_and!; [done|done|]. by exists g1, g2. Qed.

Lemma conn_inv_stop b c : conn_inv b c → conn_inv false (stop c).
Proof. intros (_ & _ & H). by split_and!. Qed.

(** The end of an operation, before what its handler does next. *)
Lemma conn_inv_done c o b : outstanding c = Some o → conn_inv b c →
  conn_inv false (stop (set_outstanding None c)) ∧ (socket_open c = false → conn_inv b (set_outstanding None c)).
Proof.
  intros Ho (Hs & _ & H). rewrite Ho in H.
  assert (written c = [] ∨ answered c) as Ha by (destruct o; [left; apply H|right; exact H]).
  split; [by split_and!|]. intros Hc. split_and!; [done| |exact Ha]. intros ->. congruence.
Qed.

(** *** What is known of the server *)

Record server_inv (s : server) : Prop := {
  inv_objects id c : objects s !! id = Some c → conn_inv (bool_decide (id ∈ connections_ s)) c;
  inv_managed id : id ∈ connections_ s → is_Some (objects s !! id);
  inv_next id : is_Some (objects s !! id) → (id < next_id s)%nat;
  inv_signal : signal_outstanding s = false → acceptor_open s = false ∧ connections_ s = ∅
}.

Lemma server_inv_new : server_inv new_server.
Proof.
  split; cbn.
  - intros id c H. by rewrite lookup_empty in H.
  - intros id H. set_solver.
  - intros id [c H]. by rewrite lookup_empty in H.
  - done.
Qed.

(** Replacing a connection by one as good, managed as before. *)
Lemma server_inv_update s id c c' : server_inv s → objects s !! id = Some c →
  conn_inv (bool_decide (id ∈ connections_ s)) c' → server_inv (set_objects (<[id := c']> (objects s)) s).
Proof.
  intros [H1 H2 H3 H4] Hc Hc'. split; cbn; [| | |done].
  - intros j d Hj. apply lookup_insert_Some in Hj as [[<- <-]|[_ Hj]]; [done|by apply H1].
  - intros j Hj. apply lookup_insert_is_Some'. right. by apply H2.
  - intros j Hj. apply lookup_insert_is_Some' in Hj as [<-|Hj]; apply H3; [by exists c|done].
Qed.

Lemma server_inv_manager_stop s id c d : server_inv s → objects s !! id = Some d →
  conn_inv false (stop c) → server_inv (manager_stop id c s).
Proof.
  intros [H1 H2 H3 H4] Hd Hc. split; cbn.
  - intros j e Hj. apply lookup_insert_Some in Hj as [[<- <-]|[Hne Hj]].
    + by rewrite bool_decide_false by set_solver.
    + specialize (H1 j e Hj). by rewrite (bool_decide_ext _ (j ∈ connections_ s)) by set_solver.
  - intros j Hj. apply lookup_insert_is_Some'. right. apply H2. set_solver.
  - intros j Hj. apply lookup_insert_is_Some' in Hj as [<-|Hj]; apply H3; [by exists d|done].
  - intros Hs. destruct (H4 Hs) as [? ->]. split; [done|]. set_solver.
Qed.

Lemma server_inv_manager_start s g1 g2 gs : server_inv s → acceptor_open s = true →
  server_inv (manager_start (next_id s) (new_connection g1 g2 gs) s).
Proof.
  intros [H1 H2 H3 H4] Ha. split; cbn.
  - intros j e Hj. apply lookup_insert_Some in Hj as [[<- <-]|[Hne Hj]].
    + rewrite bool_decide_true by set_solver. apply conn_inv_new.
    + specialize (H1 j e Hj). by rewrite (bool_decide_ext _ (j ∈ connections_ s)) by set_solver.
  - intros j Hj. apply lookup_insert_is_Some'. apply elem_of_union in Hj as [Hj|Hj]; [left; set_solver|].
    right. by apply H2.
  - intros j Hj. apply lookup_insert_is_Some' in Hj as [<-|Hj]; [lia|]. specialize (H3 j Hj). lia.
  - intros Hs. destruct (H4 Hs). congruence.
Qed.

Lemma server_inv_flags s a b : server_inv s →
  server_inv (mk_server (objects s) (connections_ s) (acceptor_open s) a (signal_outstanding s) b) ↔
  (∀ id, is_Some (objects s !! id) → (id < b)%nat).
Proof. intros [H1 H2 H3 H4]. split; [by intros []|]. intros Hb. by split. Qed.

Lemma server_inv_stop_all s : server_inv s → server_inv (on_signal s).
Proof.
  intros [H1 H2 H3 H4]. split; cbn.
  - intros j e Hj. rewrite map_lookup_imap in Hj. destruct (objects s !! j) as [c|] eqn:Ec; [|done].
    cbn in Hj. injection Hj as <-. specialize (H1 j c Ec). rewrite bool_decide_false by set_solver.
    case_decide as D; [by eapply conn_inv_stop|]. by rewrite bool_decide_false in H1.
  - set_solver.
  - intros j Hj. apply H3. rewrite map_lookup_imap in Hj. by destruct (objects s !! j).
  - done.
Qed.

(** The read handler answers the whole text received, or goes on reading. *)
Lemma server_inv_on_read s id c ec data s' :
  server_inv s → objects s !! id = Some c → outstanding c = Some Reading →
  (ec = operation_aborted → socket_open c = false) →
  on_read doc_root_ open_file id c ec data s = Ok s' → server_inv s'.
Proof.
  intros Hs Hc Ho Hab. pose proof (inv_objects s Hs id c Hc) as Hi.
  destruct (conn_inv_done c _ _ Ho Hi) as [Hd1 Hd2]. destruct ec; cbn [on_read].
  - destruct Hi as (Hop & _ & Hi). rewrite Ho in Hi. destruct Hi as (Hw & Hct & g1 & g2 & Hp).
    cbn [set_outstanding request_parser_ request_ received socket_open reply_ outstanding written].
    destruct (parse (request_parser_ c) (request_ c) data) as [[[[res rest] parser] req]| |] eqn:E;
      cbn [mbind outcome_bind]; [|done|done]. intros [= <-].
    assert (Hall : parse method_start (fresh_request g1 g2) (received c ++ data) = Ok (res, rest, parser, req)).
    { rewrite parse_app, Hp. cbn [mbind outcome_bind]. exact E. }
    eapply server_inv_update; [done|done|]. destruct res; cbn [do_write do_read set_outstanding reply_ written received].
    + split_and!; [exact Hop|done|]. exists g1, g2, (handle_request doc_root_ open_file req empty_reply).
      cbn [received written do_write reply_]. unfold response. rewrite Hall, Hw.
      split; [done|]. by rewrite (handle_request_content req (reply_ c) empty_reply).
    + split_and!; [exact Hop|done|]. exists g1, g2, (stock_reply bad_request).
      cbn [received written do_write reply_]. unfold response. by rewrite Hall, Hw.
    + split_and!; [exact Hop|done|]. cbn [do_read set_outstanding outstanding written reply_ received request_parser_ request_].
      split_and!; [done|done|]. exists g1, g2. rewrite Hall. do 4 f_equal.
      by apply (parse_indeterminate _ _ _ _ _ _ E).
  - intros [= <-]. eapply server_inv_update; [done|done|]. by apply Hd2, Hab.
  - intros [= <-]. eapply server_inv_manager_stop; [done|done|exact Hd1].
Qed.

Lemma server_inv_on_write s id c ec :
  server_inv s → objects s !! id = Some c → outstanding c = Some Writing →
  (ec = operation_aborted → socket_open c = false) → server_inv (on_write id c ec s).
Proof.
  intros Hs Hc Ho Hab. pose proof (inv_objects s Hs id c Hc) as Hi.
  destruct (conn_inv_done c _ _ Ho Hi) as [Hd1 Hd2]. unfold on_write.
  destruct (decide (ec ≠ operation_aborted)) as [D|D].
  - eapply server_inv_manager_stop; [done|done|exact Hd1].
  - eapply server_inv_update; [done|done|]. apply Hd2, Hab. by apply dec_stable.
Qed.

Lemma server_inv_on_accept s ec g1 g2 gs : server_inv s → server_inv (on_accept ec g1 g2 gs s).
Proof.
  intros Hs. unfold on_accept. cbn [acceptor_open next_id]. set (s0 := mk_server _ _ _ _ _ _).
  assert (Hs0 : server_inv s0) by (by apply server_inv_flags; [|apply (inv_next s Hs)]).
  destruct (negb (acceptor_open s)) eqn:Ea; [done|]. apply negb_false_iff in Ea.
  assert (Hs1 : server_inv (if decide (ec = success)
    then manager_start (next_id s) (new_connection g1 g2 gs) s0 else s0)).
  { case_decide; [|done]. by apply (server_inv_manager_start s0). }
  by apply server_inv_flags; [|apply (inv_next _ Hs1)].
Qed.

Lemma reachable_inv s : reachable doc_root_ open_file s → server_inv s.
Proof.
  induction 1 as [|s s' _ IH Hst]; [apply server_inv_new|]. destruct Hst.
  - by apply server_inv_on_accept.
  - by eapply server_inv_on_read.
  - by apply server_inv_on_write.
  - by apply server_inv_stop_all.
Qed.
End Server.

(** ** What the server promises *)

(** C32: in every state the server can reach, whatever the order in which reads,
    writes, accepts and the signal complete and whatever errors they report, a
    connection has been sent nothing or exactly one reply, and that reply is the
    answer to the whole text received, independently of how it was cut. *)
Theorem http_answered_once doc_root_ open_file s id c :
  reachable doc_root_ open_file s → objects s !! id = Some c →
  written c = [] ∨
  ∃ g1 g2 rep, response doc_root_ open_file g1 g2 (received c) = Some rep ∧ written c = [to_buffers rep].
Proof.
  intros Hr Hc. pose proof (inv_objects _ _ s (reachable_inv _ _ s Hr) id c Hc) as (_ & _ & H).
  destruct (outstanding c) as [[]|]; [left; apply H|right; exact H|exact H].
Qed.

(** C36: the manager holds exactly the connections whose socket is open, and each
    of them waits for an operation: none is leaked, none is forgotten. *)
Theorem http_no_leak doc_root_ open_file s id :
  reachable doc_root_ open_file s →
  (id ∈ connections_ s ↔ ∃ c, objects s !! id = Some c ∧ socket_open c = true) ∧
  (id ∈ connections_ s → ∃ c, objects s !! id = Some c ∧ outstanding c ≠ None).
Proof.
  intros Hr. apply reachable_inv in Hr. split.
  - split.
    + intros Hid. destruct (inv_managed _ _ s Hr id Hid) as [c Hc]. exists c. split; [done|].
      destruct (inv_objects _ _ s Hr id c Hc) as (-> & _). by apply bool_decide_true.
    + intros (c & Hc & Ho). destruct (inv_objects _ _ s Hr id c Hc) as (E & _). rewrite Ho in E.
      symmetry in E. by apply bool_decide_eq_true in E.
  - intros Hid. destruct (inv_managed _ _ s Hr id Hid) as [c Hc]. exists c. split; [done|].
    destruct (inv_objects _ _ s Hr id c Hc) as (_ & H & _). apply H. by apply bool_decide_true.
Qed.

(** Once the signal has been handled, the server accepts nothing any more,
    manages no connection, and every socket it ever opened is closed. *)
Theorem http_signal_stops_all doc_root_ open_file s id c :
  reachable doc_root_ open_file s → signal_outstanding s = false → objects s !! id = Some c →
  acceptor_open s = false ∧ connections_ s = ∅ ∧ socket_open c = false.
Proof.
  intros Hr Hs Hc. apply reachable_inv in Hr. destruct (inv_signal _ _ s Hr Hs) as [Ha Hm].
  split_and!; [done|done|]. destruct (inv_objects _ _ s Hr id c Hc) as (-> & _). rewrite Hm.
  by apply bool_decide_false.
Qed.

(** ** A session, for the witnesses *)

Definition sample_text1 : bytes := bs "GET /a%20b".
Definition sample_text2 : bytes := bs ".html HTTP/1.0" ++ crlf ++ crlf.

Definition after_accept : server := on_accept success 7 7 forbidden new_server.

(** The connection of the session, and the server when it has a given object. *)
Definition session_object (s : server) : connection := default (new_connection 0 0 ok) (objects s !! 0%nat).

Definition read_step (s : server) (data : bytes) : server :=
  match on_read (bs "/srv") sample_files 0 (session_object s) success data s with Ok s' => s' | _ => s end.

Definition after_reads : server := read_step (read_step after_accept sample_text1) sample_text2.
Definition after_signal : server := on_signal after_reads.

Lemma after_reads_reachable : reachable (bs "/srv") sample_files after_reads.
Proof.
  eapply reachable_step; [eapply reachable_step; [eapply reachable_step; [apply reachable_init|]|]|].
  - by apply step_accept with (s := new_server) (ec := success) (g1 := 7) (g2 := 7) (gs := forbidden).
  - eapply (step_read _ _ after_accept 0 (session_object after_accept) success sample_text1);
      [reflexivity|reflexivity|done| |reflexivity]. intros _. by split.
  - eapply (step_read _ _ (read_step after_accept sample_text1) 0
      (session_object (read_step after_accept sample_text1)) success sample_text2);
      [reflexivity|reflexivity|done| |reflexivity]. intros _. by split.
Qed.

Lemma after_signal_reachable : reachable (bs "/srv") sample_files after_signal.
Proof. eapply reachable_step; [apply after_reads_reachable|]. by apply step_signal. Qed.

Lemma http_answered_once_witness :
  let c := session_object after_reads in
  written c = [] ∨
  ∃ g1 g2 rep, response (bs "/srv") sample_files g1 g2 (received c) = Some rep ∧ written c = [to_buffers rep].
Proof.
  intros c. apply (http_answered_once (bs "/srv") sample_files after_reads 0 c).
  - apply after_reads_reachable.
  - vm_cast_no_check (eq_refl (objects after_reads !! 0%nat)).
Defined.

Lemma http_no_leak_witness :
  (0%nat ∈ connections_ after_reads ↔ ∃ c, objects after_reads !! 0%nat = Some c ∧ socket_open c = true) ∧
  (0%nat ∈ connections_ after_reads → ∃ c, objects after_reads !! 0%nat = Some c ∧ outstanding c ≠ None).
Proof. apply (http_no_leak (bs "/srv") sample_files after_reads 0). apply after_reads_reachable. Defined.

Lemma http_signal_stops_all_witness :
  acceptor_open after_signal = false ∧ connections_ after_signal = ∅ ∧
  socket_open (session_object after_signal) = false.
Proof.
  apply (http_signal_stops_all (bs "/srv") sample_files after_signal 0 (session_object after_signal)).
  - apply after_signal_reachable.
  - reflexivity.
  - vm_cast_no_check (eq_refl (objects after_signal !! 0%nat)).
Defined.
