(* ===== verification/CallbackList.v ===== *)
(** The callback list of eventpp (src/Shared/code/eventpp/callbacklist.h): a
    doubly linked list of reference-counted nodes with weak handles, changed by
    callbacks and other threads while it is being walked.

    Nodes are cells of a store; a [shared_ptr] is an address or null.  The store
    keeps every node ever allocated, and what is still alive is computed from the
    reference counts: a node lives as long as [head], [tail], a local pointer of a
    running loop ([pins]) or a node that lives points to it.  Nodes that point to
    each other keep each other alive.  A [Handle] is a [weak_ptr]: it locks exactly
    the nodes that are alive.  The operations hold the mutex while they touch the
    links and are one step each; [insert] locks its handle, and the allocating ones
    count, just before they take it. *)

From S2P Require Import Prelude.

Section CallbackList.
Context {C : Type}.

(** [Node]; [callback] is what to call. *)
Record Node := mk_Node {
  previous : option nat;
  next : option nat;
  callback : C;
  counter : Z
}.

Record CallbackList := mk_CallbackList {
  head : option nat;
  tail : option nat;
  currentCounter : Z;
  nodes : gmap nat Node;
  fresh : nat
}.

Definition removedCounter : Z := 0.

Definition new_CallbackList : CallbackList := mk_CallbackList None None 0 ∅ 0.

(** *** The store *)

Definition set_previous (v : option nat) (nd : Node) : Node := mk_Node v (next nd) (callback nd) (counter nd).
Definition set_next (v : option nat) (nd : Node) : Node := mk_Node (previous nd) v (callback nd) (counter nd).
Definition set_counter (v : Z) (nd : Node) : Node := mk_Node (previous nd) (next nd) (callback nd) v.

Definition with_nodes (f : gmap nat Node → gmap nat Node) (cl : CallbackList) : CallbackList :=
  mk_CallbackList (head cl) (tail cl) (currentCounter cl) (f (nodes cl)) (fresh cl).
Definition set_head (v : option nat) (cl : CallbackList) : CallbackList :=
  mk_CallbackList v (tail cl) (currentCounter cl) (nodes cl) (fresh cl).
Definition set_tail (v : option nat) (cl : CallbackList) : CallbackList :=
  mk_CallbackList (head cl) v (currentCounter cl) (nodes cl) (fresh cl).

(** Assignment through a pointer; nothing happens through null where the code
    tests for it. *)
Definition store_at (p : option nat) (f : Node → Node) (cl : CallbackList) : CallbackList :=
  match p with Some n => with_nodes (alter f n) cl | None => cl end.

(** What a node's pointers keep alive. *)
Definition node_refs (m : gmap nat Node) (n : nat) : gset nat :=
  match m !! n with
  | Some nd => list_to_set (option_list (previous nd) ++ option_list (next nd))
  | None => ∅
  end.

Definition refs_of (m : gmap nat Node) (live : gset nat) : gset nat :=
  set_fold (λ n acc, node_refs m n ∪ acc) ∅ live.

Definition roots (cl : CallbackList) (pins : list nat) : gset nat :=
  list_to_set (option_list (head cl) ++ option_list (tail cl) ++ pins).

(** Release the nodes nothing points to, until there is none. *)
Definition release (m : gmap nat Node) (rs live : gset nat) : gset nat := live ∩ (rs ∪ refs_of m live).

Definition alive (cl : CallbackList) (pins : list nat) : gset nat :=
  Nat.iter (size (nodes cl)) (release (nodes cl) (roots cl pins)) (dom (nodes cl)).

(** [Handle::lock]. *)
Definition lock (cl : CallbackList) (pins : list nat) (handle : nat) : bool :=
  bool_decide (handle ∈ alive cl pins).

(** *** Operations *)

(** The loop that resets the counters of all nodes, from [node] on. *)
Fixpoint reset_counters (fuel : nat) (node : option nat) (cl : CallbackList) : CallbackList :=
  match fuel, node with
  | S fuel, Some n =>
      let cl := store_at (Some n) (set_counter 1) cl in
      reset_counters fuel (nd ← nodes cl !! n; next nd) cl
  | _, _ => cl
  end.

Definition set_currentCounter (v : Z) (cl : CallbackList) : CallbackList :=
  mk_CallbackList (head cl) (tail cl) v (nodes cl) (fresh cl).

(** [getNextCounter]: a 64-bit counter; at the wrap-around every node is set to 1. *)
Definition getNextCounter (cl : CallbackList) : Z * CallbackList :=
  let result := u64 (currentCounter cl + 1) in
  let cl := set_currentCounter result cl in
  if result =? 0 then
    let cl := reset_counters (size (nodes cl)) (head cl) cl in
    let result := u64 (currentCounter cl + 1) in
    (result, set_currentCounter result cl)
  else (result, cl).

(** [doAllocateNode]: the new node, not linked yet. *)
Definition doAllocateNode (c : C) (cl : CallbackList) : nat * CallbackList :=
  let '(count, cl) := getNextCounter cl in
  let node := fresh cl in
  (node, mk_CallbackList (head cl) (tail cl) (currentCounter cl)
           (<[node := mk_Node None None c count]> (nodes cl)) (S node)).

Definition append (c : C) (cl : CallbackList) : nat * CallbackList :=
  let '(node, cl) := doAllocateNode c cl in
  (node,
   match head cl with
   | Some _ =>
       let cl := store_at (Some node) (set_previous (tail cl)) cl in
       let cl := store_at (tail cl) (set_next (Some node)) cl in
       set_tail (Some node) cl
   | None => set_tail (Some node) (set_head (Some node) cl)
   end).

Definition prepend (c : C) (cl : CallbackList) : nat * CallbackList :=
  let '(node, cl) := doAllocateNode c cl in
  (node,
   match head cl with
   | Some _ =>
       let cl := store_at (Some node) (set_next (head cl)) cl in
       let cl := store_at (head cl) (set_previous (Some node)) cl in
       set_head (Some node) cl
   | None => set_tail (Some node) (set_head (Some node) cl)
   end).

Definition previous_of (cl : CallbackList) (n : nat) : option nat := nd ← nodes cl !! n; previous nd.
Definition next_of (cl : CallbackList) (n : nat) : option nat := nd ← nodes cl !! n; next nd.

Definition doInsert (node beforeNode : nat) (cl : CallbackList) : CallbackList :=
  let cl := store_at (Some node) (set_previous (previous_of cl beforeNode)) cl in
  let cl := store_at (Some node) (set_next (Some beforeNode)) cl in
  let cl := store_at (previous_of cl beforeNode) (set_next (Some node)) cl in
  let cl := store_at (Some beforeNode) (set_previous (Some node)) cl in
  if decide (head cl = Some beforeNode) then set_head (Some node) cl else cl.

Definition insert (pins : list nat) (c : C) (before : nat) (cl : CallbackList) : nat * CallbackList :=
  if lock cl pins before then
    let '(node, cl) := doAllocateNode c cl in
    (node, doInsert node before cl)
  else append c cl.

Definition doFreeNode (node : nat) (cl : CallbackList) : CallbackList :=
  let cl := store_at (next_of cl node) (set_previous (previous_of cl node)) cl in
  let cl := store_at (previous_of cl node) (set_next (next_of cl node)) cl in
  let cl := if decide (head cl = Some node) then set_head (next_of cl node) cl else cl in
  let cl := if decide (tail cl = Some node) then set_tail (previous_of cl node) cl else cl in
  store_at (Some node) (set_counter removedCounter) cl.

Definition remove (pins : list nat) (handle : nat) (cl : CallbackList) : bool * CallbackList :=
  if lock cl pins handle then (true, doFreeNode handle cl) else (false, cl).

Definition empty (cl : CallbackList) : bool := bool_decide (head cl = None).

(** [swap]: the two lists trade their contents. *)
Definition swap (cl other : CallbackList) : CallbackList * CallbackList := (other, cl).

(** *** Copying, moving and destroying *)

(** [cloneFrom]: the loop.  [node] is the last node made. *)
Fixpoint clone_nodes (fuel : nat) (from : gmap nat Node) (fromNode : option nat) (count : Z) (node : option nat)
    (cl : CallbackList) : outcome CallbackList :=
  match fromNode with
  | None => Ok (set_tail node cl)
  | Some f =>
      match fuel with
      | O => NoFuel
      | S fuel =>
          match from !! f with
          | None => Undefined
          | Some nd =>
              let nextNode := fresh cl in
              let cl := mk_CallbackList (head cl) (tail cl) (currentCounter cl)
                          (<[nextNode := mk_Node None None (callback nd) count]> (nodes cl)) (S nextNode) in
              let cl := store_at (Some nextNode) (set_previous node) cl in
              let cl := match node with
                        | Some _ => store_at node (set_next (Some nextNode)) cl
                        | None => set_head (Some nextNode) cl
                        end in
              clone_nodes fuel from (next nd) count (Some nextNode) cl
          end
      end
  end.

Definition cloneFrom (from : CallbackList) (cl : CallbackList) : outcome CallbackList :=
  let '(count, cl) := getNextCounter cl in
  clone_nodes (size (nodes from)) (nodes from) (head from) count None cl.

(** The copy constructor; copy assignment makes a copy and swaps. *)
Definition copy_CallbackList (other : CallbackList) : outcome CallbackList := cloneFrom other new_CallbackList.
Definition assign_copy (cl other : CallbackList) : outcome CallbackList :=
  copied ← copy_CallbackList other; Ok (fst (swap cl copied)).

(** The move constructor: the new list and what is left of [other]. *)
Definition move_CallbackList (other : CallbackList) : CallbackList * CallbackList := swap new_CallbackList other.

(** Move assignment: the list, what is left of [other], and the nodes [cl] had. *)
Definition abandon (cl : CallbackList) : CallbackList := set_tail None (set_head None cl).
Definition assign_move (cl other : CallbackList) : CallbackList * CallbackList * CallbackList :=
  (other, abandon other, abandon cl).

(** The destructor: the loop, and what is left of the nodes. *)
Fixpoint unlink (fuel : nat) (node : option nat) (cl : CallbackList) : outcome CallbackList :=
  match node with
  | None => Ok cl
  | Some n =>
      match fuel with
      | O => NoFuel
      | S fuel =>
          let next := next_of cl n in
          let cl := store_at (Some n) (set_previous None) cl in
          let cl := store_at (Some n) (set_next None) cl in
          unlink fuel next cl
      end
  end.

Definition destroy (cl : CallbackList) : outcome CallbackList :=
  cl' ← unlink (size (nodes cl)) (head cl) (set_head None cl); Ok (set_tail None cl').

(** *** Walking *)

(** What happens to the list while a callback runs: operations of the callback
    and of other threads. *)
Inductive operation := Append (c : C) | Prepend (c : C) | Insert (c : C) (before : nat) | Remove (handle : nat).

Definition apply_op (pins : list nat) (o : operation) (cl : CallbackList) : CallbackList :=
  match o with
  | Append c => snd (append c cl)
  | Prepend c => snd (prepend c cl)
  | Insert c before => snd (insert pins c before cl)
  | Remove handle => snd (remove pins handle cl)
  end.

Definition apply_ops (pins : list nat) (ops : list operation) (cl : CallbackList) : CallbackList :=
  fold_left (λ cl o, apply_op pins o cl) ops cl.

(** The condition of [doForEachIf] for calling a node. *)
Definition callable (snapshot : Z) (nd : Node) : bool :=
  negb (counter nd =? removedCounter) && (counter nd <=? snapshot).

(** What an observer sees of a walk: a callback called, an operation done. *)
Inductive event {O : Type} := Called (n : nat) | Did (o : O).

Section Walk.
(** A walk runs inside of a larger state [S] that has the list as a part ([view]),
    and what is done meanwhile are operations [O] on that state. *)
Context {S O : Type} (view : S → CallbackList) (act : list nat → O → S → S).

Definition acts (pins : list nat) (ops : list O) (s : S) : S := fold_left (λ s o, act pins o s) ops s.

(** [doForEachIf] from [node] on: what happened, whether the walk went to the end,
    and the state after it.  [script] says, for each node the loop passes, which
    operations are done while it is there (by the callback it calls or by other
    threads) and what [f] returns; [n] is kept alive meanwhile by the local
    pointer.  A null dereference is [Undefined]. *)
Fixpoint for_each (fuel : nat) (snapshot : Z) (node : option nat) (script : list (list O * bool))
    (s : S) : outcome (list event * bool * S) :=
  match node with
  | None => Ok ([], true, s)
  | Some n =>
      match fuel with
      | 0%nat => NoFuel
      | Datatypes.S fuel =>
          match nodes (view s) !! n with
          | None => Undefined
          | Some nd =>
              let '(ops, continue) := default ([], true) (hd_error script) in
              let called := callable snapshot nd in
              let seen := (if called then [Called n] else []) ++ map Did ops in
              let s := acts [n] ops s in
              if called && negb continue then Ok (seen, false, s)
              else
                '(events, finished, s) ← for_each fuel snapshot (next_of (view s) n) (tl script) s;
                Ok (seen ++ events, finished, s)
          end
      end
  end.

Definition doForEachIf (fuel : nat) (script : list (list O * bool)) (s : S) : outcome (list event * bool * S) :=
  for_each fuel (currentCounter (view s)) (head (view s)) script s.
End Walk.

(** A walk over a list that is all there is. *)
Definition forEachIf (fuel : nat) (script : list (list operation * bool)) (cl : CallbackList)
  : outcome (list event * bool * CallbackList) :=
  doForEachIf id apply_op fuel script cl.

End CallbackList.

Arguments Node : clear implicits.
Arguments CallbackList : clear implicits.
Arguments operation : clear implicits.
Arguments event : clear implicits.
