(* ===== verification/CallbackHeap.v ===== *)
(** Which nodes of a callback list's store are alive: those the reference counts
    keep.  A set of nodes that keeps itself is alive; and when the nodes outside of a
    set can be put in an order in which each is pointed to by later ones only
    ([orderly]), none of them is, so what is alive lies inside of the set. *)

From S2P Require Import Prelude CallbackList.

Section Heap.
Context {C : Type}.
Implicit Types (m : gmap nat (Node C)) (X Y L : gset nat) (n x : nat) (G : list nat).

Lemma elem_of_refs_of m X n : n ∈ refs_of m X ↔ ∃ x, x ∈ X ∧ n ∈ node_refs m x.
Proof.
  unfold refs_of.
  apply (set_fold_ind_L (λ acc Y, n ∈ acc ↔ ∃ x, x ∈ Y ∧ n ∈ node_refs m x)); [set_solver|].
  intros x Y acc _ IHacc. rewrite elem_of_union, IHacc. set_solver.
Qed.

Lemma elem_of_release m rs X n : n ∈ release m rs X ↔ n ∈ X ∧ (n ∈ rs ∨ ∃ x, x ∈ X ∧ n ∈ node_refs m x).
Proof. unfold release. by rewrite elem_of_intersection, elem_of_union, elem_of_refs_of. Qed.

Lemma release_mono m rs X Y : X ⊆ Y → release m rs X ⊆ release m rs Y.
Proof. intros H n. rewrite !elem_of_release. intros [H1 [H2|(x & H2 & H3)]]; [naive_solver|]. split; [set_solver|right; set_solver]. Qed.

(** Enough rounds of a shrinking function reach a fixed point. *)
Lemma iter_fixed (f : gset nat → gset nat) : (∀ X, f X ⊆ X) →
  ∀ k X, (size X <= k)%nat → f (Nat.iter k f X) = Nat.iter k f X.
Proof.
  intros Hf k. induction k as [|k IH]; intros X Hs; cbn [Nat.iter].
  - assert (X = ∅) as -> by (apply leibniz_equiv, size_empty_inv; lia). pose proof (Hf ∅). set_solver.
  - destruct (decide (f X = X)) as [E|E].
    + assert (Hi : ∀ j, Nat.iter j f X = X) by (intros j; induction j as [|j IHj]; [done|by rewrite Nat.iter_succ, IHj]). by rewrite Hi.
    + change (f (f (Nat.iter k f X)) = f (Nat.iter k f X)).
      rewrite <- Nat.iter_succ, Nat.iter_succ_r. apply IH.
      assert (size (f X) < size X)%nat; [|lia]. apply subset_size. pose proof (Hf X). set_solver.
Qed.

Lemma iter_release_sub m rs k X : Nat.iter k (release m rs) X ⊆ X.
Proof. induction k as [|k IH]; cbn; [done|]. intros n. rewrite elem_of_release. intros [H _]. by apply IH. Qed.

Lemma alive_fixed (cl : CallbackList C) pins : release (nodes cl) (roots cl pins) (alive cl pins) = alive cl pins.
Proof. apply iter_fixed; [|by rewrite size_dom]. intros X n. rewrite elem_of_release. tauto. Qed.

Lemma alive_dom (cl : CallbackList C) pins n : n ∈ alive cl pins → n ∈ dom (nodes cl).
Proof. apply iter_release_sub. Qed.

(** Nodes that are held from outside, or by each other, are alive. *)
Lemma held_alive (cl : CallbackList C) pins X : X ⊆ dom (nodes cl) →
  (∀ n, n ∈ X → n ∈ roots cl pins ∨ ∃ x, x ∈ X ∧ n ∈ node_refs (nodes cl) x) → X ⊆ alive cl pins.
Proof.
  intros Hd HX. unfold alive. generalize (size (nodes cl)) as k. intros k. induction k as [|k IH]; [done|]. cbn [Nat.iter].
  etrans; [|by apply release_mono, IH]. intros n Hn. apply elem_of_release. auto.
Qed.

(** *** Order among the dead *)

Definition closed m L : Prop := ∀ n x, n ∈ L → x ∈ node_refs m n → x ∈ L.

(** [G] are the nodes outside of [L], each pointing into [L] or at earlier ones. *)
Fixpoint orderly m L G : Prop :=
  closed m L ∧
  match G with
  | [] => dom m ⊆ L
  | g :: G => (g ∈ dom m) ∧ (g ∉ L) ∧ (g ∉ node_refs m g) ∧ orderly m ({[g]} ∪ L) G
  end.

Lemma orderly_closed m L G : orderly m L G → closed m L.
Proof. destruct G; by intros [H _]. Qed.

Lemma orderly_out m L G g : orderly m L G → g ∈ G → g ∉ L.
Proof.
  revert L. induction G as [|h G IH]; intros L Ho Hg; [set_solver|]. destruct Ho as (_ & _ & Hh & _ & Ho).
  apply elem_of_cons in Hg as [->|Hg]; [done|]. pose proof (IH _ Ho Hg). set_solver.
Qed.

Lemma orderly_dom m L G n : orderly m L G → n ∈ dom m → n ∈ L ∨ n ∈ G.
Proof.
  revert L. induction G as [|h G IH]; intros L Ho Hn; cbn in Ho; [left; by apply Ho|].
  destruct Ho as (_ & _ & _ & _ & Ho). destruct (IH _ Ho Hn) as [H|H]; set_solver.
Qed.

Lemma orderly_in m L G g : orderly m L G → g ∈ G → is_Some (m !! g).
Proof.
  revert L. induction G as [|h G IH]; intros L Ho Hg; [set_solver|]. destruct Ho as (_ & Hh & _ & _ & Ho).
  apply elem_of_cons in Hg as [->|Hg]; [by apply elem_of_dom|by eapply IH].
Qed.

Lemma orderly_app m L G G' : orderly m L (G ++ G') → orderly m (list_to_set G ∪ L) G'.
Proof.
  revert L. induction G as [|g G IH]; intros L Ho; cbn in *.
  - by replace (∅ ∪ L) with L by set_solver.
  - destruct Ho as (_ & _ & _ & _ & Ho). apply IH in Ho. by replace ({[g]} ∪ list_to_set G ∪ L) with (list_to_set G ∪ ({[g]} ∪ L)) by set_solver.
Qed.

(** What the roots reach into is all there is. *)
Lemma orderly_alive (cl : CallbackList C) pins L G : orderly (nodes cl) L G → roots cl pins ⊆ L → alive cl pins ⊆ L.
Proof.
  revert L. induction G as [|g G IH]; intros L Ho Hr.
  - destruct Ho as [_ Hd]. intros n Hn. apply Hd. by eapply alive_dom.
  - destruct Ho as (Hc & _ & Hg & Hself & Ho). assert (Hsub : alive cl pins ⊆ {[g]} ∪ L) by (apply IH; [done|set_solver]).
    intros n Hn. destruct (decide (n = g)) as [->|]; [exfalso|pose proof (Hsub n Hn); set_solver].
    rewrite <- (alive_fixed cl pins) in Hn. apply elem_of_release in Hn as [_ [Hn|(x & Hx & Hn)]]; [set_solver|].
    apply Hsub, elem_of_union in Hx as [->%elem_of_singleton|Hx]; [done|]. by eapply Hg, Hc.
Qed.

(** The order survives what leaves the dead alone. *)
Lemma orderly_grow m m' L L' G : orderly m L G → (∀ n, n ∈ G → m' !! n = m !! n) → closed m' L' → L ⊆ L' →
  (∀ n, n ∈ G → n ∉ L') → dom m' ⊆ L' ∪ dom m → orderly m' L' G.
Proof.
  revert L L'. induction G as [|g G IH]; intros L L' Ho Hs Hc Hl Hg Hd.
  - destruct Ho as [_ Ho]. split; [done|]. set_solver.
  - destruct Ho as (_ & Hgd & HgL & Hself & Ho).
    assert (Hr : node_refs m' g = node_refs m g) by (unfold node_refs; by rewrite Hs by set_solver).
    split_and!; [done| |apply Hg; set_solver|by rewrite Hr|].
    { apply elem_of_dom. rewrite Hs by set_solver. by apply elem_of_dom. } apply (IH ({[g]} ∪ L)); [done|set_solver| |set_solver| |set_solver].
    + intros n x Hn Hx. apply elem_of_union in Hn as [->%elem_of_singleton|Hn]; [|set_solver].
      rewrite Hr in Hx. pose proof (orderly_closed _ _ _ Ho g x). set_solver.
    + intros n Hn. pose proof (orderly_out _ _ _ _ Ho Hn). set_solver.
Qed.
End Heap.
