(* ===== verification/CallbackListFacts.v ===== *)
(** The linked store implements a list: every operation acts on it as the list
    operation it stands for, and the handles of removed nodes are dead while
    nothing walks the list. *)

From S2P Require Import Prelude CallbackList CallbackHeap.

(** ** Lists and their splits *)

Lemma hd_error_app {A} (l k : list A) : l ≠ [] → hd_error (l ++ k) = hd_error l.
Proof. by destruct l. Qed.

Lemma last_cons_ne {A} (x : A) l : l ≠ [] → last (x :: l) = last l.
Proof. by destruct l. Qed.

Lemma last_app_ne {A} (l k : list A) : k ≠ [] → last (l ++ k) = last k.
Proof. intros Hk. destruct (exists_last Hk) as (k' & x & ->). by rewrite app_assoc, !last_snoc. Qed.

Lemma last_elem {A} (l : list A) x : last l = Some x → ∃ k, l = k ++ [x].
Proof. intros E. by apply last_Some in E. Qed.

Lemma hd_error_elem {A} (l : list A) x : hd_error l = Some x → ∃ k, l = x :: k.
Proof. destruct l; [done|]. intros [= ->]. by eexists. Qed.

(** A member of [l1 ++ l2] sits in one of the two. *)
Lemma app_split {A} (l1 l2 p q : list A) x : l1 ++ l2 = p ++ x :: q →
  (∃ r, l1 = p ++ x :: r ∧ q = r ++ l2) ∨ (∃ r, p = l1 ++ r ∧ l2 = r ++ x :: q).
Proof.
  revert p. induction l1 as [|y l1 IH]; intros p E.
  - right. exists p. by split.
  - destruct p as [|z p]; cbn [app] in E; injection E as <- E.
    + left. exists l1. by split.
    + destruct (IH p E) as [(r & -> & ->)|(r & -> & ->)]; [left|right]; by exists r.
Qed.

Lemma NoDup_middle {A} (l1 l2 : list A) x : NoDup (l1 ++ x :: l2) ↔ (x ∉ l1) ∧ (x ∉ l2) ∧ NoDup (l1 ++ l2).
Proof.
  rewrite !NoDup_app, NoDup_cons. split.
  - intros (H1 & H2 & H3 & H4). split_and!; [|done|done| |done].
    + intros H. apply (H2 x H). by left.
    + intros y Hy Hy2. apply (H2 y Hy). by right.
  - intros (H1 & H2 & H3 & H4 & H5). split_and!; [done| |done|done].
    intros y Hy Hy2. apply elem_of_cons in Hy2 as [->|Hy2]; [done|]. by apply (H4 y).
Qed.

Lemma elem_of_option_list {A} (o : option A) x : x ∈ option_list o ↔ o = Some x.
Proof. destruct o; cbn; set_solver. Qed.

Section Facts.
Context {C : Type}.
Implicit Types (cl : CallbackList C) (l a b : list nat) (n m : nat).

(** ** The representation *)

(** The store holds the list [l]: neighbours point at each other, the ends are
    known, and every member carries a live counter. *)
Record linked cl l : Prop := {
  lk_nodup : NoDup l;
  lk_head : head cl = hd_error l;
  lk_tail : tail cl = last l;
  lk_node a n b : l = a ++ n :: b →
    ∃ nd, nodes cl !! n = Some nd ∧ previous nd = last a ∧ next nd = hd_error b ∧
      0 < counter nd <= currentCounter cl;
  lk_fresh n : is_Some (nodes cl !! n) → (n < fresh cl)%nat;
  lk_counter : 0 <= currentCounter cl
}.

Lemma linked_new : linked new_CallbackList [].
Proof.
  split; cbn; try done.
  - constructor.
  - by intros ? n b ?%app_cons_not_nil.
  - intros n [nd H]. by rewrite lookup_empty in H.
Qed.

Lemma linked_member cl l n : linked cl l → n ∈ l → ∃ nd, nodes cl !! n = Some nd ∧ 0 < counter nd <= currentCounter cl.
Proof.
  intros Hl Hn. apply list_elem_of_split in Hn as (a & b & ->).
  destruct (lk_node _ _ Hl a n b eq_refl) as (nd & ? & _ & _ & ?). by exists nd.
Qed.

(** *** Linking a node in *)

(** The store after [x] has been put between [a] and [b]. *)
Definition put_between (a b : list nat) (x : nat) (m : nat) (nd : Node C) : Node C :=
  let nd := if decide (last a = Some m) then set_next (Some x) nd else nd in
  if decide (hd_error b = Some m) then set_previous (Some x) nd else nd.

Record put cl cl' a b x (c : C) : Prop := {
  put_x : nodes cl' !! x = Some (mk_Node (last a) (hd_error b) c (currentCounter cl'));
  put_other m : m ≠ x → nodes cl' !! m = put_between a b x m <$> nodes cl !! m;
  put_head : head cl' = hd_error (a ++ x :: b);
  put_tail : tail cl' = last (a ++ x :: b);
  put_fresh : fresh cl' = S x ∧ x = fresh cl;
  put_counter : currentCounter cl' = currentCounter cl + 1
}.

Lemma put_between_counter a b x m nd : counter (put_between a b x m nd) = counter nd.
Proof. unfold put_between. by repeat case_decide. Qed.
Lemma put_between_callback a b x m nd : callback (put_between a b x m nd) = callback nd.
Proof. unfold put_between. by repeat case_decide. Qed.

(** The old members, before and behind the new node. *)
Lemma put_before cl cl' a b x c p n r : linked cl (a ++ b) → put cl cl' a b x c → NoDup (a ++ x :: b) →
  a = p ++ n :: r →
  ∃ nd, nodes cl' !! n = Some nd ∧ previous nd = last p ∧ next nd = hd_error (r ++ x :: b) ∧
    0 < counter nd <= currentCounter cl'.
Proof.
  intros Hl Hp Hnd Ea. apply NoDup_middle in Hnd as (Hxa & Hxb & Hnd).
  assert (Hne : n ≠ x) by (intros ->; apply Hxa; rewrite Ea; set_solver).
  destruct (lk_node _ _ Hl p n (r ++ b)) as (nd & Hn & Hpr & Hnx & Hc); [by rewrite Ea, <- app_assoc|].
  exists (put_between a b x n nd). rewrite (put_other _ _ _ _ _ _ Hp n Hne), Hn.
  rewrite put_between_counter, (put_counter _ _ _ _ _ _ Hp).
  assert (Hb : hd_error b ≠ Some n).
  { intros E. apply hd_error_elem in E as (k & ->). apply NoDup_app in Hnd as (_ & Hd & _).
    apply (Hd n); [rewrite Ea; set_solver|set_solver]. }
  split; [done|]. unfold put_between. rewrite (decide_False (P := hd_error b = Some n)) by done.
  split_and!; [by case_decide| |lia|lia]. destruct r as [|y r].
  - rewrite decide_True; [done|]. by rewrite Ea, last_snoc.
  - rewrite decide_False; [done|]. rewrite Ea, last_app_ne, last_cons_ne by done.
    intros E. apply last_elem in E as (k & E). rewrite Ea, E, <- app_assoc in Hnd. cbn [app] in Hnd.
    apply NoDup_middle in Hnd. set_solver.
Qed.

Lemma put_behind cl cl' a b x c n r q : linked cl (a ++ b) → put cl cl' a b x c → NoDup (a ++ x :: b) →
  b = r ++ n :: q →
  ∃ nd, nodes cl' !! n = Some nd ∧ previous nd = last (a ++ x :: r) ∧ next nd = hd_error q ∧
    0 < counter nd <= currentCounter cl'.
Proof.
  intros Hl Hp Hnd E. apply NoDup_middle in Hnd as (Hxa & Hxb & Hnd).
  assert (Hne : n ≠ x) by (intros ->; apply Hxb; rewrite E; set_solver).
  destruct (lk_node _ _ Hl (a ++ r) n q) as (nd & Hn & Hpr & Hnx & Hc); [by rewrite E, app_assoc|].
  exists (put_between a b x n nd). rewrite (put_other _ _ _ _ _ _ Hp n Hne), Hn.
  rewrite put_between_counter, (put_counter _ _ _ _ _ _ Hp).
  assert (Ha : last a ≠ Some n).
  { intros Ea. apply last_elem in Ea as (k & ->). apply NoDup_app in Hnd as (_ & Hd & _).
    apply (Hd n); [set_solver|rewrite E; set_solver]. }
  split; [done|]. unfold put_between. rewrite (decide_False (P := last a = Some n)) by done.
  split_and!; [|by case_decide|lia|lia]. destruct r as [|y r].
  - rewrite decide_True by (by rewrite E). cbn. by rewrite last_snoc.
  - rewrite decide_False.
    + rewrite Hpr, !last_app_ne by done. by rewrite (last_cons_ne x) by done.
    + rewrite E. cbn. intros [= ->]. rewrite E in Hnd.
      apply NoDup_app in Hnd as (_ & _ & Hnd). apply NoDup_cons in Hnd as [Hnd _]. set_solver.
Qed.

Lemma put_nodup cl cl' a b x c : linked cl (a ++ b) → put cl cl' a b x c → NoDup (a ++ x :: b).
Proof.
  intros Hl Hp. destruct (put_fresh _ _ _ _ _ _ Hp) as [Hf Hx].
  assert (Hnx : x ∉ a ++ b).
  { intros Hin. destruct (linked_member _ _ _ Hl Hin) as (nd & Hnd & _).
    pose proof (lk_fresh _ _ Hl x (mk_is_Some _ _ Hnd)). lia. }
  apply NoDup_middle. rewrite elem_of_app in Hnx. split_and!; [tauto|tauto|apply Hl].
Qed.

Lemma linked_put cl cl' a b x c : linked cl (a ++ b) → put cl cl' a b x c → linked cl' (a ++ x :: b).
Proof.
  intros Hl Hp. destruct (put_fresh _ _ _ _ _ _ Hp) as [Hf Hx].
  pose proof (put_nodup _ _ _ _ _ _ Hl Hp) as Hnd.
  split; [done|apply Hp|apply Hp| | |].
  - intros p n q E. apply app_split in E as [(r & Ea & ->)|(r & -> & E)]; [by eapply put_before|].
    destruct r as [|y r]; cbn [app] in E; injection E as <- E; [|by eapply put_behind].
    subst q. exists (mk_Node (last a) (hd_error b) c (currentCounter cl')).
    rewrite (put_x _ _ _ _ _ _ Hp), app_nil_r. pose proof (lk_counter _ _ Hl).
    rewrite (put_counter _ _ _ _ _ _ Hp). cbn. split_and!; [done|done|done|lia|lia].
  - intros m Hm. rewrite Hf. destruct (decide (m = x)) as [->|Hne]; [lia|].
    rewrite (put_other _ _ _ _ _ _ Hp m Hne), fmap_is_Some in Hm. apply (lk_fresh _ _ Hl) in Hm. lia.
  - rewrite (put_counter _ _ _ _ _ _ Hp). pose proof (lk_counter _ _ Hl). lia.
Qed.

(** *** Taking a node out *)

Definition take_out (a b : list nat) (m : nat) (nd : Node C) : Node C :=
  let nd := if decide (hd_error b = Some m) then set_previous (last a) nd else nd in
  if decide (last a = Some m) then set_next (hd_error b) nd else nd.

Record taken cl cl' a n b : Prop := {
  tk_node : nodes cl' !! n = set_counter removedCounter <$> nodes cl !! n;
  tk_other m : m ≠ n → nodes cl' !! m = take_out a b m <$> nodes cl !! m;
  tk_head : head cl' = hd_error (a ++ b);
  tk_tail : tail cl' = last (a ++ b);
  tk_fresh : fresh cl' = fresh cl;
  tk_counter : currentCounter cl' = currentCounter cl
}.

Lemma take_out_counter a b m nd : counter (take_out a b m nd) = counter nd.
Proof. unfold take_out. by repeat case_decide. Qed.

Lemma taken_before cl cl' a n b p m r : linked cl (a ++ n :: b) → taken cl cl' a n b → a = p ++ m :: r →
  ∃ nd, nodes cl' !! m = Some nd ∧ previous nd = last p ∧ next nd = hd_error (r ++ b) ∧
    0 < counter nd <= currentCounter cl'.
Proof.
  intros Hl Ht Ea. pose proof (lk_nodup _ _ Hl) as Hnd. apply NoDup_middle in Hnd as (Hna & Hnb & Hnd).
  assert (Hne : m ≠ n) by (intros ->; apply Hna; rewrite Ea; set_solver).
  destruct (lk_node _ _ Hl p m (r ++ n :: b)) as (nd & Hm & Hpr & Hnx & Hc); [by rewrite Ea, <- app_assoc|].
  exists (take_out a b m nd). rewrite (tk_other _ _ _ _ _ Ht m Hne), Hm.
  rewrite take_out_counter, (tk_counter _ _ _ _ _ Ht).
  assert (Hb : hd_error b ≠ Some m).
  { intros E. apply hd_error_elem in E as (k & ->). apply NoDup_app in Hnd as (_ & Hd & _).
    apply (Hd m); [rewrite Ea; set_solver|set_solver]. }
  split; [done|]. unfold take_out. rewrite (decide_False (P := hd_error b = Some m)) by done.
  split_and!; [by case_decide| |lia|lia]. destruct r as [|y r].
  - rewrite decide_True; [done|]. by rewrite Ea, last_snoc.
  - rewrite decide_False; [done|]. rewrite Ea, last_app_ne, last_cons_ne by done.
    intros E. apply last_elem in E as (k & E). rewrite Ea, E, <- app_assoc in Hnd. cbn [app] in Hnd.
    apply NoDup_middle in Hnd. set_solver.
Qed.

Lemma taken_behind cl cl' a n b m r q : linked cl (a ++ n :: b) → taken cl cl' a n b → b = r ++ m :: q →
  ∃ nd, nodes cl' !! m = Some nd ∧ previous nd = last (a ++ r) ∧ next nd = hd_error q ∧
    0 < counter nd <= currentCounter cl'.
Proof.
  intros Hl Ht E. pose proof (lk_nodup _ _ Hl) as Hnd. apply NoDup_middle in Hnd as (Hna & Hnb & Hnd).
  assert (Hne : m ≠ n) by (intros ->; apply Hnb; rewrite E; set_solver).
  destruct (lk_node _ _ Hl (a ++ n :: r) m q) as (nd & Hm & Hpr & Hnx & Hc); [by rewrite E, <- app_assoc|].
  exists (take_out a b m nd). rewrite (tk_other _ _ _ _ _ Ht m Hne), Hm.
  rewrite take_out_counter, (tk_counter _ _ _ _ _ Ht).
  assert (Ha : last a ≠ Some m).
  { intros Ea. apply last_elem in Ea as (k & ->). apply NoDup_app in Hnd as (_ & Hd & _).
    apply (Hd m); [set_solver|rewrite E; set_solver]. }
  split; [done|]. unfold take_out. rewrite (decide_False (P := last a = Some m)) by done.
  split_and!; [|by case_decide|lia|lia]. destruct r as [|y r].
  - rewrite decide_True by (by rewrite E). by rewrite app_nil_r.
  - rewrite decide_False.
    + rewrite Hpr, !last_app_ne by done. by rewrite (last_cons_ne n) by done.
    + rewrite E. cbn. intros [= ->]. rewrite E in Hnd.
      apply NoDup_app in Hnd as (_ & _ & Hnd). apply NoDup_cons in Hnd as [Hnd _]. set_solver.
Qed.

Lemma linked_taken cl cl' a n b : linked cl (a ++ n :: b) → taken cl cl' a n b → linked cl' (a ++ b).
Proof.
  intros Hl Ht. pose proof (lk_nodup _ _ Hl) as Hnd. apply NoDup_middle in Hnd as (_ & _ & Hnd).
  split; [done|apply Ht|apply Ht| | |].
  - intros p m q E. apply app_split in E as [(r & Ea & ->)|(r & -> & E)];
      [by eapply taken_before|by eapply taken_behind].
  - intros m Hm. rewrite (tk_fresh _ _ _ _ _ Ht). apply (lk_fresh _ _ Hl).
    destruct (decide (m = n)) as [->|Hne].
    + by rewrite (tk_node _ _ _ _ _ Ht), fmap_is_Some in Hm.
    + by rewrite (tk_other _ _ _ _ _ Ht m Hne), fmap_is_Some in Hm.
  - rewrite (tk_counter _ _ _ _ _ Ht). apply Hl.
Qed.

(** ** The operations *)

Lemma allocate_spec c cl : 0 <= currentCounter cl → currentCounter cl + 1 < 2 ^ 64 →
  doAllocateNode c cl = (fresh cl,
    mk_CallbackList (head cl) (tail cl) (currentCounter cl + 1)
      (<[fresh cl := mk_Node None None c (currentCounter cl + 1)]> (nodes cl)) (S (fresh cl))).
Proof.
  intros H0 H1. unfold doAllocateNode, getNextCounter. rewrite u64_small by (znorm; lia). by zdec.
Qed.

(** The rooms the counter leaves. *)
Definition room cl (k : Z) : Prop := currentCounter cl + k < 2 ^ 64.

Lemma linked_not_fresh cl l n : linked cl l → n ∈ l → n ≠ fresh cl.
Proof.
  intros Hl Hn ->. destruct (linked_member _ _ _ Hl Hn) as (nd & E & _).
  pose proof (lk_fresh _ _ Hl _ (mk_is_Some _ _ E)). lia.
Qed.

Lemma fresh_none cl l : linked cl l → nodes cl !! fresh cl = None.
Proof.
  intros Hl. destruct (nodes cl !! fresh cl) as [nd|] eqn:E; [|done].
  pose proof (lk_fresh _ _ Hl _ (mk_is_Some _ _ E)). lia.
Qed.

(** Compare two stores at a cell: decide which of the cells it is. *)
Ltac store_cases :=
  repeat case_decide; simplify_eq; rewrite ?lookup_insert_ne by done;
  (match goal with |- context [nodes ?cl !! ?m] => destruct (nodes cl !! m) end;
   [cbn; repeat case_decide; simplify_eq; done|done]).

Lemma append_put c cl l : linked cl l → room cl 1 →
  ∃ cl', append c cl = (fresh cl, cl') ∧ put cl cl' l [] (fresh cl) c.
Proof.
  intros Hl Hr. unfold append. rewrite allocate_spec by (apply Hl || apply Hr). cbn [head].
  rewrite (lk_head _ _ Hl). eexists. split; [reflexivity|]. destruct l as [|h l']; cbn [hd_error].
  - split; cbn; [by rewrite lookup_insert_eq| |done|done|done|done].
    intros m Hm. rewrite lookup_insert_ne by done. by destruct (nodes cl !! m).
  - set (l := h :: l') in *. destruct (last l) as [t|] eqn:Et; [|by apply last_None in Et].
    assert (Htf : t ≠ fresh cl).
    { eapply linked_not_fresh; [done|]. apply last_elem in Et as (k & ->). set_solver. }
    unfold store_at, set_tail, with_nodes. cbn [head tail nodes currentCounter fresh].
    rewrite (lk_tail _ _ Hl), Et. cbn [head tail nodes currentCounter fresh].
    split; cbn [head tail nodes currentCounter fresh]; [| | | |done|done].
    + rewrite lookup_alter_ne, lookup_alter_eq, lookup_insert_eq by done. cbn. by rewrite Et.
    + intros m Hm. rewrite !lookup_alter. unfold put_between. rewrite Et. cbn [hd_error]. store_cases.
    + done.
    + by rewrite last_snoc.
Qed.

Lemma prepend_put c cl l : linked cl l → room cl 1 →
  ∃ cl', prepend c cl = (fresh cl, cl') ∧ put cl cl' [] l (fresh cl) c.
Proof.
  intros Hl Hr. unfold prepend. rewrite allocate_spec by (apply Hl || apply Hr). cbn [head].
  rewrite (lk_head _ _ Hl). eexists. split; [reflexivity|]. destruct l as [|h l']; cbn [hd_error].
  - split; cbn; [by rewrite lookup_insert_eq| |done|done|done|done].
    intros m Hm. rewrite lookup_insert_ne by done. by destruct (nodes cl !! m).
  - assert (Hhf : h ≠ fresh cl) by (eapply linked_not_fresh; [done|set_solver]).
    unfold store_at, set_head, with_nodes. cbn [head tail nodes currentCounter fresh].
    split; cbn [head tail nodes currentCounter fresh app hd_error last]; [| |done| |done|done].
    + by rewrite lookup_alter_ne, lookup_alter_eq, lookup_insert_eq by done.
    + intros m Hm. rewrite !lookup_alter. unfold put_between. cbn [hd_error last]. store_cases.
    + apply Hl.
Qed.

Lemma doInsert_put c cl a n b : linked cl (a ++ n :: b) → room cl 1 →
  ∃ cl', (let '(x, cl0) := doAllocateNode c cl in doInsert x n cl0) = cl' ∧ put cl cl' a (n :: b) (fresh cl) c.
Proof.
  intros Hl Hr. rewrite allocate_spec by (apply Hl || apply Hr). eexists. split; [reflexivity|].
  destruct (lk_node _ _ Hl a n b eq_refl) as (nd & Hn & Hpr & Hnx & Hc).
  assert (Hnf : n ≠ fresh cl) by (eapply linked_not_fresh; [done|set_solver]).
  assert (Hna : last a ≠ Some n).
  { intros E. apply last_elem in E as (k & ->). apply lk_nodup, NoDup_middle in Hl. set_solver. }
  assert (Hla : last a ≠ Some (fresh cl)).
  { intros E. apply last_elem in E as (k & ->). eapply (linked_not_fresh _ _ (fresh cl) Hl); [set_solver|done]. }
  unfold doInsert, previous_of. cbn [store_at with_nodes nodes head tail currentCounter fresh].
  rewrite !lookup_alter_ne, lookup_insert_ne, Hn by done. cbn [mbind option_bind]. rewrite Hpr.
  destruct (last a) as [t|] eqn:Et; cbn [store_at with_nodes nodes head tail currentCounter fresh].
  - assert (Hh : head cl ≠ Some n).
    { rewrite (lk_head _ _ Hl). destruct a as [|y a]; [done|]. cbn. intros [= ->].
      apply lk_nodup, NoDup_middle in Hl. set_solver. }
    rewrite decide_False by done.
    split; cbn [with_nodes head tail nodes currentCounter fresh]; [| | | |done|done].
    + rewrite !(lookup_alter_ne _ _ _ (fresh cl)), !lookup_alter_eq, lookup_insert_eq by congruence.
      cbn. by rewrite Et.
    + intros m Hm. rewrite !lookup_alter. unfold put_between. rewrite Et. cbn [hd_error]. store_cases.
    + rewrite (lk_head _ _ Hl). by destruct a.
    + rewrite (lk_tail _ _ Hl), !last_app_ne by done. by rewrite (last_cons_ne (fresh cl)).
  - apply last_None in Et as ->. rewrite decide_True by apply Hl.
    split; cbn [with_nodes set_head head tail nodes currentCounter fresh]; [| |done| |done|done].
    + by rewrite lookup_alter_ne, !lookup_alter_eq, lookup_insert_eq by done.
    + intros m Hm. rewrite !lookup_alter. unfold put_between. cbn [hd_error last]. store_cases.
    + rewrite (lk_tail _ _ Hl). done.
Qed.

(** *** Removing *)

Lemma store_at_nodes p f cl m :
  nodes (store_at p f cl) !! m = if decide (p = Some m) then f <$> nodes cl !! m else nodes cl !! m.
Proof.
  destruct p as [q|]; cbn [store_at with_nodes nodes]; [|by rewrite decide_False].
  rewrite lookup_alter. by repeat case_decide; simplify_eq.
Qed.

Lemma store_at_fields p f cl :
  head (store_at p f cl) = head cl ∧ tail (store_at p f cl) = tail cl ∧
  currentCounter (store_at p f cl) = currentCounter cl ∧ fresh (store_at p f cl) = fresh cl.
Proof. by destruct p. Qed.

(** The ends of a list, seen from a member. *)
Lemma head_is cl a n b : linked cl (a ++ n :: b) → (head cl = Some n ↔ a = []).
Proof.
  intros Hl. rewrite (lk_head _ _ Hl). destruct a as [|y a]; [done|]. cbn. split; [|done]. intros [= ->].
  apply lk_nodup, NoDup_middle in Hl. set_solver.
Qed.

Lemma tail_is cl a n b : linked cl (a ++ n :: b) → (tail cl = Some n ↔ b = []).
Proof.
  intros Hl. rewrite (lk_tail _ _ Hl), last_app_ne by done. destruct b as [|y b]; [done|].
  rewrite last_cons_ne by done. split; [|done]. intros E. apply last_elem in E as (k & E).
  apply lk_nodup in Hl. rewrite E in Hl. apply NoDup_middle in Hl. set_solver.
Qed.

Lemma doFreeNode_taken cl a n b : linked cl (a ++ n :: b) → taken cl (doFreeNode n cl) a n b.
Proof.
  intros Hl. destruct (lk_node _ _ Hl a n b eq_refl) as (nd & Hn & Hpr & Hnx & Hc).
  pose proof (lk_nodup _ _ Hl) as Hnd. apply NoDup_middle in Hnd as (Hna & Hnb & Hnd).
  assert (Hla : last a ≠ Some n) by (intros E; apply last_elem in E as (k & ->); set_solver).
  assert (Hhb : hd_error b ≠ Some n) by (intros E; apply hd_error_elem in E as (k & ->); set_solver).
  assert (Hptr : ∀ k, nodes k !! n = Some nd → next_of k n = hd_error b ∧ previous_of k n = last a)
    by (intros k E; unfold next_of, previous_of; by rewrite E).
  unfold doFreeNode. destruct (Hptr cl Hn) as [-> ->].
  set (cl1 := store_at (hd_error b) (set_previous (last a)) cl).
  assert (H1 : nodes cl1 !! n = Some nd) by (subst cl1; by rewrite store_at_nodes, decide_False).
  destruct (Hptr cl1 H1) as [-> ->].
  set (cl2 := store_at (last a) (set_next (hd_error b)) cl1).
  assert (H2 : nodes cl2 !! n = Some nd) by (subst cl2; by rewrite store_at_nodes, decide_False).
  destruct (Hptr cl2 H2) as [-> _].
  destruct (store_at_fields (hd_error b) (set_previous (last a)) cl) as (Fh & Ft & Fc & Ff). fold cl1 in Fh, Ft, Fc, Ff.
  destruct (store_at_fields (last a) (set_next (hd_error b)) cl1) as (Gh & Gt & Gc & Gf). fold cl2 in Gh, Gt, Gc, Gf.
  rewrite Gh, Fh. set (cl3 := if decide (head cl = Some n) then set_head (hd_error b) cl2 else cl2).
  assert (H3 : nodes cl3 = nodes cl2 ∧ tail cl3 = tail cl ∧ currentCounter cl3 = currentCounter cl ∧
               fresh cl3 = fresh cl ∧ head cl3 = hd_error (a ++ b)).
  { subst cl3. pose proof (head_is _ _ _ _ Hl) as Hi. case_decide as D.
    - apply Hi in D as ->. cbn. split_and!; congruence.
    - split_and!; try congruence. rewrite Gh, Fh, (lk_head _ _ Hl).
      destruct a; [|done]. destruct D. by apply Hi. }
  destruct H3 as (Hn3 & Ht3 & Hc3 & Hf3 & Hh3). rewrite Ht3.
  destruct (Hptr cl3 ltac:(by rewrite Hn3)) as [_ ->].
  set (cl4 := if decide (tail cl = Some n) then set_tail (last a) cl3 else cl3).
  assert (H4 : nodes cl4 = nodes cl2 ∧ tail cl4 = last (a ++ b) ∧ currentCounter cl4 = currentCounter cl ∧
               fresh cl4 = fresh cl ∧ head cl4 = hd_error (a ++ b)).
  { subst cl4. pose proof (tail_is _ _ _ _ Hl) as Hi. case_decide as D.
    - apply Hi in D as ->. cbn. rewrite app_nil_r in *. by split_and!.
    - split_and!; try congruence. rewrite Ht3, (lk_tail _ _ Hl). destruct b as [|y b]; [by destruct D; apply Hi|].
      by rewrite !last_app_ne by done. }
  destruct H4 as (Hn4 & Ht4 & Hc4 & Hf4 & Hh4).
  destruct (store_at_fields (Some n) (set_counter removedCounter) cl4) as (Kh & Kt & Kc & Kf).
  split; try congruence.
  - by rewrite store_at_nodes, decide_True, Hn4, H2, Hn by done.
  - intros m Hm. rewrite store_at_nodes, decide_False by congruence. rewrite Hn4.
    subst cl2 cl1. rewrite !store_at_nodes. unfold take_out. clear. store_cases.
Qed.

(** ** What is alive *)

Lemma node_refs_linked cl l a n b : linked cl l → l = a ++ n :: b →
  ∀ m, m ∈ node_refs (nodes cl) n ↔ last a = Some m ∨ hd_error b = Some m.
Proof.
  intros Hl E m. destruct (lk_node _ _ Hl a n b E) as (nd & Hn & Hp & Hx & _).
  unfold node_refs. rewrite Hn, Hp, Hx. rewrite elem_of_list_to_set, elem_of_app, !elem_of_option_list. done.
Qed.

Lemma members_refs cl l m x : linked cl l → m ∈ l → x ∈ node_refs (nodes cl) m → x ∈ l.
Proof.
  intros Hl Hm Hx. apply list_elem_of_split in Hm as (a & b & E).
  apply (node_refs_linked _ _ _ _ _ Hl E) in Hx. rewrite E.
  destruct Hx as [Hx|Hx]; [apply last_elem in Hx as (k & ->)|apply hd_error_elem in Hx as (k & ->)]; set_solver.
Qed.

Lemma linked_size cl l : linked cl l → (length l <= size (nodes cl))%nat.
Proof.
  intros Hl. rewrite <- size_dom. rewrite <- (size_list_to_set (C := gset nat) l) by apply Hl.
  apply subseteq_size. intros n Hn. apply elem_of_list_to_set in Hn.
  destruct (linked_member _ _ _ Hl Hn) as (nd & E & _). by apply elem_of_dom_2 in E.
Qed.

(** The members are alive, each held by the one before it and the first by [head], *)
Lemma member_alive cl l pins n : linked cl l → n ∈ l → lock cl pins n = true.
Proof.
  intros Hl Hn. apply bool_decide_true. apply (held_alive cl pins (list_to_set l)); [| |by apply elem_of_list_to_set].
  - intros m Hm. apply elem_of_list_to_set in Hm. destruct (linked_member _ _ _ Hl Hm) as (nd & E & _).
    by apply elem_of_dom_2 in E.
  - intros m Hm. apply elem_of_list_to_set, list_elem_of_split in Hm as (a & b & E).
    destruct (last a) as [p|] eqn:Ep; [right|left].
    + apply last_elem in Ep as (k & ->). rewrite <- app_assoc in E. cbn in E. exists p. split; [rewrite E; set_solver|].
      apply (node_refs_linked _ _ _ _ _ Hl E). by right.
    + apply last_None in Ep as ->. unfold roots. rewrite (lk_head _ _ Hl), E. set_solver.
Qed.

Lemma roots_members cl l pins X : linked cl l → list_to_set l ⊆ X → (∀ n, n ∈ pins → n ∈ X) → roots cl pins ⊆ X.
Proof.
  intros Hl HX Hp m. unfold roots. rewrite (lk_head _ _ Hl), (lk_tail _ _ Hl).
  rewrite elem_of_list_to_set, !elem_of_app, !elem_of_option_list.
  intros [Hm|[Hm|Hm]]; [apply hd_error_elem in Hm as (k & ->); set_solver|apply last_elem in Hm as (k & ->); set_solver|by apply Hp].
Qed.

(** and nothing else is, but what is kept from outside ([F]). *)
Lemma lock_member cl l pins F G h : linked cl l → orderly (nodes cl) (list_to_set l ∪ F) G →
  (∀ n, n ∈ pins → n ∈ l ∨ n ∈ F) → h ∉ F → lock cl pins h = bool_decide (h ∈ l).
Proof.
  intros Hl Ho Hp Hh. destruct (decide (h ∈ l)) as [Hm|Hm].
  { rewrite (bool_decide_true (h ∈ l)) by done. by eapply member_alive. }
  rewrite (bool_decide_false (h ∈ l)) by done. apply bool_decide_false. intros Ha.
  apply (orderly_alive _ _ _ _ Ho) in Ha; [set_solver|]. eapply roots_members; [done|set_solver|].
  intros n Hn. destruct (Hp n Hn); set_solver.
Qed.

(** ** Strangers to the list keep their cells *)

Lemma put_stranger cl cl' a b x c m : put cl cl' a b x c → m ∉ a ++ b → m ≠ x → nodes cl' !! m = nodes cl !! m.
Proof.
  intros Hp Hm Hx. rewrite (put_other _ _ _ _ _ _ Hp m Hx). unfold put_between.
  destruct (nodes cl !! m); [|done]. cbn. f_equal.
  rewrite (decide_False (P := hd_error b = Some m)), (decide_False (P := last a = Some m)); [done| |].
  - intros E. apply last_elem in E as (k & ->). set_solver.
  - intros E. apply hd_error_elem in E as (k & ->). set_solver.
Qed.

Lemma taken_stranger cl cl' a n b m : taken cl cl' a n b → m ∉ a ++ n :: b → nodes cl' !! m = nodes cl !! m.
Proof.
  intros Ht Hm. rewrite (tk_other _ _ _ _ _ Ht m) by set_solver. unfold take_out.
  destruct (nodes cl !! m); [|done]. cbn. f_equal.
  rewrite (decide_False (P := last a = Some m)), (decide_False (P := hd_error b = Some m)); [done| |].
  - intros E. apply hd_error_elem in E as (k & ->). set_solver.
  - intros E. apply last_elem in E as (k & ->). set_solver.
Qed.

Lemma node_refs_eq (mp mp' : gmap nat (Node C)) m : mp' !! m = mp !! m → node_refs mp' m = node_refs mp m.
Proof. unfold node_refs. by intros ->. Qed.

(** ** The list in a store *)

(** A list that shares its store: [F] are nodes of others, or kept by a walk; [G]
    are the dead, the latest first. *)
Record tidy cl l (F : gset nat) (G : list nat) : Prop := {
  td_linked : linked cl l;
  td_apart n : n ∈ F → n ∉ l;
  td_known n : n ∈ F → is_Some (nodes cl !! n);
  td_order : orderly (nodes cl) (list_to_set l ∪ F) G
}.

Lemma tidy_new : tidy new_CallbackList [] ∅ [].
Proof. split; [apply linked_new|done|done|]. split; [|done]. intros n x Hn. set_solver. Qed.

Lemma tidy_dead cl l F G g : tidy cl l F G → g ∈ G → g ∉ l ∧ is_Some (nodes cl !! g).
Proof.
  intros Ht Hg. split; [|by eapply orderly_in; [apply Ht|]].
  pose proof (orderly_out _ _ _ _ (td_order _ _ _ _ Ht) Hg). set_solver.
Qed.

Lemma not_fresh cl l n : linked cl l → is_Some (nodes cl !! n) → n ≠ fresh cl.
Proof. intros Hl Hn ->. apply (lk_fresh _ _ Hl) in Hn. lia. Qed.

(** A set stays closed when its members outside of the list keep their pointers, or
    have pointers into it. *)
Lemma closed_members cl cl' l' (X : gset nat) : linked cl' l' → closed (nodes cl) X → list_to_set l' ⊆ X →
  (∀ n, n ∈ X → n ∈ l' ∨ nodes cl' !! n = nodes cl !! n ∨ node_refs (nodes cl') n ⊆ X) → closed (nodes cl') X.
Proof.
  intros Hl Hc Hs HX n x Hn Hx. destruct (HX n Hn) as [Hm|[E|HR]]; [|by eapply Hc; [|rewrite (node_refs_eq _ _ _ E) in Hx]|by apply HR].
  apply Hs, elem_of_list_to_set. by eapply members_refs.
Qed.

Lemma dom_put cl cl' a b x c : put cl cl' a b x c → dom (nodes cl') ⊆ {[x]} ∪ dom (nodes cl).
Proof.
  intros Hp n Hn. destruct (decide (n = x)) as [->|Hne]; [set_solver|]. apply elem_of_union_r, elem_of_dom.
  apply elem_of_dom in Hn. rewrite (put_other _ _ _ _ _ _ Hp n Hne) in Hn. by apply fmap_is_Some in Hn.
Qed.

Lemma dom_taken cl cl' a n b : taken cl cl' a n b → dom (nodes cl') ⊆ dom (nodes cl).
Proof.
  intros Ht m Hm. apply elem_of_dom in Hm. apply elem_of_dom. destruct (decide (m = n)) as [->|Hne].
  - rewrite (tk_node _ _ _ _ _ Ht) in Hm. by apply fmap_is_Some in Hm.
  - rewrite (tk_other _ _ _ _ _ Ht m Hne) in Hm. by apply fmap_is_Some in Hm.
Qed.

(** The pointers of a removed node are those it had. *)
Lemma taken_refs cl cl' a n b x : linked cl (a ++ n :: b) → taken cl cl' a n b → x ∈ node_refs (nodes cl') n → x ∈ a ++ b.
Proof.
  intros Hl Hk. destruct (lk_node _ _ Hl a n b eq_refl) as (nd & Hn & Hp & Hx & _).
  unfold node_refs. rewrite (tk_node _ _ _ _ _ Hk), Hn. cbn [fmap option_fmap option_map set_counter previous next].
  rewrite Hp, Hx, elem_of_list_to_set, elem_of_app, !elem_of_option_list.
  intros [E|E]; [apply last_elem in E as (k & ->)|apply hd_error_elem in E as (k & ->)]; set_solver.
Qed.

Lemma tidy_put cl cl' a b F G c : tidy cl (a ++ b) F G → put cl cl' a b (fresh cl) c →
  tidy cl' (a ++ fresh cl :: b) F G.
Proof.
  intros Ht Hp. pose proof (td_linked _ _ _ _ Ht) as Hl. pose proof (linked_put _ _ _ _ _ _ Hl Hp) as Hl'.
  assert (HF : ∀ n, n ∈ F → n ≠ fresh cl) by (intros n Hn; by eapply not_fresh, td_known).
  assert (HFs : ∀ n, n ∈ F → nodes cl' !! n = nodes cl !! n).
  { intros n Hn. eapply put_stranger; [done|by eapply td_apart|by apply HF]. }
  assert (HG : ∀ n, n ∈ G → n ≠ fresh cl).
  { intros n Hn. eapply not_fresh; [done|]. by eapply tidy_dead. }
  split; [done| | |].
  - intros n Hn. pose proof (td_apart _ _ _ _ Ht n Hn). pose proof (HF n Hn). set_solver.
  - intros n Hn. rewrite HFs by done. by eapply td_known.
  - pose proof (td_order _ _ _ _ Ht) as Ho. apply (orderly_grow (nodes cl) _ (list_to_set (a ++ b) ∪ F)); [done| | |set_solver| |].
    + intros n Hn. eapply put_stranger; [done|by eapply tidy_dead|by apply HG].
    + intros n x Hn Hx. destruct (decide (n ∈ a ++ fresh cl :: b)) as [Hm|Hm].
      { apply elem_of_union_l, elem_of_list_to_set. by eapply members_refs. }
      apply elem_of_union in Hn as [Hn%elem_of_list_to_set|Hn]; [done|]. rewrite (node_refs_eq _ _ _ (HFs n Hn)) in Hx.
      pose proof (orderly_closed _ _ _ Ho n x ltac:(set_solver) Hx). set_solver.
    + intros n Hn. pose proof (orderly_out _ _ _ _ Ho Hn). pose proof (HG n Hn). set_solver.
    + pose proof (dom_put _ _ _ _ _ _ Hp). set_solver.
Qed.

(** A removed node may be kept by whoever walks the list; *)
Lemma tidy_keep cl cl' a n b F G : tidy cl (a ++ n :: b) F G → taken cl cl' a n b →
  tidy cl' (a ++ b) ({[n]} ∪ F) G.
Proof.
  intros Ht Hk. pose proof (td_linked _ _ _ _ Ht) as Hl. pose proof (linked_taken _ _ _ _ _ Hl Hk) as Hl'.
  pose proof (lk_nodup _ _ Hl) as Hnd. apply NoDup_middle in Hnd as (Hna & Hnb & _).
  assert (Hs : ∀ m, m ∉ a ++ n :: b → nodes cl' !! m = nodes cl !! m) by (intros m Hm; by eapply taken_stranger).
  split; [done| | |].
  - intros m Hm. apply elem_of_union in Hm as [->%elem_of_singleton|Hm]; [set_solver|].
    pose proof (td_apart _ _ _ _ Ht m Hm). set_solver.
  - intros m Hm. apply elem_of_union in Hm as [->%elem_of_singleton|Hm].
    + destruct (linked_member _ _ n Hl) as (nd & E & _); [set_solver|]. rewrite (tk_node _ _ _ _ _ Hk), E. by eexists.
    + rewrite Hs by (by eapply td_apart). by eapply td_known.
  - pose proof (td_order _ _ _ _ Ht) as Ho.
    replace (list_to_set (a ++ b) ∪ ({[n]} ∪ F)) with (list_to_set (a ++ n :: b) ∪ F : gset nat) by set_solver.
    apply (orderly_grow (nodes cl) _ (list_to_set (a ++ n :: b) ∪ F)); [done| | |set_solver| |].
    + intros m Hm. apply Hs. by eapply tidy_dead.
    + eapply (closed_members cl); [done|by eapply orderly_closed|set_solver|].
      intros m Hm. destruct (decide (m = n)) as [->|Hne].
      * right. right. intros x Hx. pose proof (taken_refs _ _ _ _ _ _ Hl Hk Hx). set_solver.
      * destruct (decide (m ∈ a ++ b)) as [|Hmn]; [by left|right; left; apply Hs; set_solver].
    + intros m Hm. by apply (orderly_out _ _ _ _ Ho).
    + pose proof (dom_taken _ _ _ _ _ Hk). set_solver.
Qed.

(** otherwise, when nobody else points to it, it is dead. *)
Lemma tidy_taken cl cl' a n b F G : tidy cl (a ++ n :: b) F G → closed (nodes cl) F → taken cl cl' a n b →
  tidy cl' (a ++ b) F (n :: G).
Proof.
  intros Ht HcF Hk. pose proof (tidy_keep _ _ _ _ _ _ _ Ht Hk) as Hk'. pose proof (td_linked _ _ _ _ Ht) as Hl.
  pose proof (lk_nodup _ _ Hl) as Hnd. apply NoDup_middle in Hnd as (Hna & Hnb & _).
  assert (HnF : n ∉ F) by (intros HnF; apply (td_apart _ _ _ _ Ht) in HnF; set_solver).
  split; [apply Hk'|intros m Hm; apply (td_apart _ _ _ _ Hk'); set_solver|intros m Hm; apply (td_known _ _ _ _ Hk'); set_solver|].
  split_and!; [|apply elem_of_dom, (td_known _ _ _ _ Hk'); set_solver|set_solver| |].
  - intros m x Hm Hx. destruct (decide (m ∈ a ++ b)) as [Hmm|Hmm].
    { apply elem_of_union_l, elem_of_list_to_set. eapply members_refs; [apply Hk'|done|done]. }
    apply elem_of_union in Hm as [Hm%elem_of_list_to_set|Hm]; [done|]. apply elem_of_union_r.
    rewrite (node_refs_eq (nodes cl)) in Hx by (eapply taken_stranger; [done|]; by eapply td_apart). by eapply HcF.
  - intros Hx. pose proof (taken_refs _ _ _ _ _ _ Hl Hk Hx). set_solver.
  - replace ({[n]} ∪ (list_to_set (a ++ b) ∪ F)) with (list_to_set (a ++ b) ∪ ({[n]} ∪ F) : gset nat) by set_solver. apply Hk'.
Qed.

(** ** The list the operations work on *)

(** In front of the first [h], or at the end. *)
Fixpoint insert_before (x h : nat) (l : list nat) : list nat :=
  match l with
  | [] => [x]
  | y :: l => if decide (y = h) then x :: y :: l else y :: insert_before x h l
  end.

Definition list_op (x : nat) (o : operation C) (l : list nat) : list nat :=
  match o with
  | Append _ => l ++ [x]
  | Prepend _ => x :: l
  | Insert _ h => insert_before x h l
  | Remove h => filter (λ y, y ≠ h) l
  end.

Definition allocates (o : operation C) : nat := match o with Remove _ => 0 | _ => 1 end.
Definition callback_of (o : operation C) : option C :=
  match o with Append c | Prepend c | Insert c _ => Some c | Remove _ => None end.
Definition handle_of (o : operation C) : option nat :=
  match o with Insert _ h | Remove h => Some h | _ => None end.

Lemma insert_before_member x h a b : h ∉ a → insert_before x h (a ++ h :: b) = a ++ x :: h :: b.
Proof.
  induction a as [|y a IH]; intros Ha; cbn; [by rewrite decide_True|].
  rewrite decide_False by set_solver. f_equal. apply IH. set_solver.
Qed.

Lemma insert_before_absent x h l : h ∉ l → insert_before x h l = l ++ [x].
Proof. induction l as [|y l IH]; intros Hl; cbn; [done|]. rewrite decide_False by set_solver. f_equal. apply IH. set_solver. Qed.

Lemma filter_absent h l : h ∉ l → filter (λ y, y ≠ h) l = l.
Proof.
  induction l as [|y l IH]; intros Hl; [done|]. rewrite filter_cons_True by set_solver. f_equal. apply IH. set_solver.
Qed.

Lemma filter_middle h a b : h ∉ a → h ∉ b → filter (λ y, y ≠ h) (a ++ h :: b) = a ++ b.
Proof. intros Ha Hb. rewrite filter_app, filter_cons_False, !filter_absent by naive_solver. done. Qed.

(** What an operation does to the store. *)
Inductive effect cl l : option C → CallbackList C → list nat → Prop :=
  | effect_put cl' a b c : l = a ++ b → put cl cl' a b (fresh cl) c → effect cl l (Some c) cl' (a ++ fresh cl :: b)
  | effect_taken cl' a n b : l = a ++ n :: b → taken cl cl' a n b → effect cl l None cl' (a ++ b)
  | effect_none : effect cl l None cl l.

(** Every operation whose handle is dead or linked acts as its list operation. *)
Lemma op_effect pins o cl l : linked cl l → room cl 1 →
  (∀ h, handle_of o = Some h → lock cl pins h = bool_decide (h ∈ l)) →
  effect cl l (callback_of o) (apply_op pins o cl) (list_op (fresh cl) o l).
Proof.
  intros Hl Hr Hh. destruct o as [c|c|c h|h]; cbn [apply_op list_op handle_of callback_of] in *.
  - destruct (append_put c cl l Hl Hr) as (cl' & -> & Hp). by apply effect_put; [rewrite app_nil_r|].
  - destruct (prepend_put c cl l Hl Hr) as (cl' & -> & Hp). by apply (effect_put _ _ _ [] l).
  - unfold insert. rewrite (Hh h eq_refl). case_bool_decide as D.
    + apply list_elem_of_split in D as (a & b & ->). pose proof (lk_nodup _ _ Hl) as Hnd.
      apply NoDup_middle in Hnd as (Ha & _). rewrite insert_before_member by done.
      destruct (doInsert_put c cl a h b Hl Hr) as (cl' & E & Hp).
      destruct (doAllocateNode c cl) as [x cl0]. cbn [snd]. rewrite E. by apply effect_put.
    + rewrite insert_before_absent by done.
      destruct (append_put c cl l Hl Hr) as (cl' & -> & Hp). by apply effect_put; [rewrite app_nil_r|].
  - unfold remove. rewrite (Hh h eq_refl). case_bool_decide as D; cbn [snd].
    + apply list_elem_of_split in D as (a & b & ->). pose proof (lk_nodup _ _ Hl) as Hnd.
      apply NoDup_middle in Hnd as (Ha & Hb & _). rewrite filter_middle by done.
      apply (effect_taken _ _ _ a h b); [done|]. by apply doFreeNode_taken.
    + rewrite filter_absent by done. constructor.
Qed.

Lemma linked_effect cl l oc cl' l' : linked cl l → effect cl l oc cl' l' → linked cl' l'.
Proof. intros Hl [cl2 a b c -> Hp|cl2 a n b -> Ht|]; [by eapply linked_put|by eapply linked_taken|done]. Qed.

(** What an operation removes is the latest of the dead. *)
Lemma tidy_effect cl l F G oc cl' l' : tidy cl l F G → closed (nodes cl) F → effect cl l oc cl' l' →
  ∃ N, tidy cl' l' F (N ++ G) ∧ list_to_set N = (list_to_set l ∖ list_to_set l' : gset nat).
Proof.
  intros Ht HF [cl2 a b c -> Hp|cl2 a n b -> Hk|].
  - exists []. split; [by eapply tidy_put|set_solver].
  - exists [n]. pose proof (lk_nodup _ _ (td_linked _ _ _ _ Ht)) as Hnd. apply NoDup_middle in Hnd as (Hna & Hnb & _).
    split; [by eapply tidy_taken|set_solver].
  - exists []. split; [done|set_solver].
Qed.

(** Handles of nodes that are not kept from elsewhere, nor by a walk ([Qs], the
    latest of the dead), lock the members. *)
Lemma lock_tidy cl l F Qs G pins h : tidy cl l F (Qs ++ G) → (∀ n, n ∈ pins → n ∈ l ∨ n ∈ F ∨ n ∈ Qs) → h ∉ F → h ∉ Qs →
  lock cl pins h = bool_decide (h ∈ l).
Proof.
  intros Ht Hp HhF HhQ. apply (lock_member _ _ _ (F ∪ list_to_set Qs) G); [apply Ht| | |set_solver].
  - pose proof (orderly_app _ _ _ _ (td_order _ _ _ _ Ht)) as Ho.
    by replace (list_to_set l ∪ (F ∪ list_to_set Qs)) with (list_to_set Qs ∪ (list_to_set l ∪ F) : gset nat) by set_solver.
  - intros n Hn. destruct (Hp n Hn) as [?|[?|?]]; [by left|right; set_solver|right; set_solver].
Qed.

(** One operation, on a list in a store. *)
Lemma op_tidy pins o cl l F Qs G : tidy cl l F (Qs ++ G) → closed (nodes cl) F → room cl 1 →
  (∀ n, n ∈ pins → n ∈ l ∨ n ∈ F ∨ n ∈ Qs) → (∀ h, handle_of o = Some h → h ∉ F ∧ h ∉ Qs) →
  effect cl l (callback_of o) (apply_op pins o cl) (list_op (fresh cl) o l) ∧
  ∃ N, tidy (apply_op pins o cl) (list_op (fresh cl) o l) F (N ++ Qs ++ G) ∧
       list_to_set N = (list_to_set l ∖ list_to_set (list_op (fresh cl) o l) : gset nat).
Proof.
  intros Ht HF Hr Hp Hh.
  assert (He : effect cl l (callback_of o) (apply_op pins o cl) (list_op (fresh cl) o l)).
  { apply op_effect; [apply Ht|done|]. intros h E. destruct (Hh h E). by apply (lock_tidy _ _ F Qs G). }
  split; [done|]. by apply (tidy_effect _ _ _ _ _ _ _ Ht HF He).
Qed.

Lemma effect_counter cl l oc cl' l' : effect cl l oc cl' l' → currentCounter cl <= currentCounter cl' <= currentCounter cl + 1.
Proof.
  intros [cl2 a b c -> Hp|cl2 a n b -> Ht|]; [rewrite (put_counter _ _ _ _ _ _ Hp)|rewrite (tk_counter _ _ _ _ _ Ht)|]; lia.
Qed.

Lemma store_at_fresh p f cl : fresh (store_at p f cl) = fresh cl.
Proof. by destruct p. Qed.
Lemma if_fresh (P : Prop) `{Decision P} (f : CallbackList C → CallbackList C) cl :
  (∀ k, fresh (f k) = fresh k) → fresh (if decide P then f cl else cl) = fresh cl.
Proof. intros Hf. by case_decide. Qed.

Lemma doInsert_fresh x h cl : fresh (doInsert x h cl) = fresh cl.
Proof. unfold doInsert. cbv zeta. rewrite if_fresh by done. by rewrite !store_at_fresh. Qed.
Lemma doFreeNode_fresh n cl : fresh (doFreeNode n cl) = fresh cl.
Proof. unfold doFreeNode. cbv zeta. rewrite store_at_fresh, !if_fresh by done. by rewrite !store_at_fresh. Qed.

Lemma op_fresh pins o cl l : linked cl l → room cl 1 → fresh (apply_op pins o cl) = (allocates o + fresh cl)%nat.
Proof.
  intros Hl Hr. destruct o as [c|c|c h|h]; cbn [apply_op allocates].
  - destruct (append_put c cl l Hl Hr) as (cl' & -> & Hp). apply Hp.
  - destruct (prepend_put c cl l Hl Hr) as (cl' & -> & Hp). apply Hp.
  - unfold insert. destruct (lock cl pins h); [|destruct (append_put c cl l Hl Hr) as (cl' & -> & Hp); apply Hp].
    rewrite allocate_spec by (apply Hl || apply Hr). cbn [snd]. by rewrite doInsert_fresh.
  - unfold remove. destruct (lock cl pins h); [|done]. cbn [snd]. by rewrite doFreeNode_fresh.
Qed.

Lemma take_out_callback a b m nd : callback (take_out a b m nd) = callback nd.
Proof. unfold take_out. by repeat case_decide. Qed.

(** The callbacks of the nodes do not change. *)
Lemma effect_callback cl l oc cl' l' n : linked cl l → effect cl l oc cl' l' →
  callback <$> nodes cl' !! n = if decide (n = fresh cl) then oc else callback <$> nodes cl !! n.
Proof.
  intros Hl He. pose proof (fresh_none _ _ Hl) as Hf. destruct He as [cl2 a b c -> Hp|cl2 a m b -> Ht|].
  - case_decide as D; [subst n; by rewrite (put_x _ _ _ _ _ _ Hp)|].
    rewrite (put_other _ _ _ _ _ _ Hp n D). destruct (nodes cl !! n); cbn; [|done]. by rewrite put_between_callback.
  - destruct (decide (n = m)) as [->|Hne].
    + rewrite (tk_node _ _ _ _ _ Ht), decide_False by (eapply linked_not_fresh; [done|set_solver]).
      by destruct (nodes cl !! m).
    + rewrite (tk_other _ _ _ _ _ Ht n Hne). case_decide; [subst n; by rewrite Hf|].
      destruct (nodes cl !! n); cbn; [|done]. by rewrite take_out_callback.
  - case_decide; [subst n; by rewrite Hf|done].
Qed.

Definition list_step (s : nat * list nat) (o : operation C) : nat * list nat :=
  ((allocates o + s.1)%nat, list_op s.1 o s.2).

(** What is registered: the callback of the node [n] is the [n]-th one given. *)
Definition registered (ops : list (operation C)) : list C := omap callback_of ops.

Lemma closed_empty (mp : gmap nat (Node C)) : closed mp ∅.
Proof. intros n x Hn. set_solver. Qed.

Lemma registered_snoc ops o : registered (ops ++ [o]) = registered ops ++ option_list (callback_of o).
Proof. unfold registered. rewrite omap_app. by destruct (callback_of o) eqn:E; cbn; rewrite E. Qed.

Record holds (ops : list (operation C)) (cl : CallbackList C) (s : nat * list nat) : Prop := {
  h_linked : linked cl s.2;
  h_tidy : ∃ G, tidy cl s.2 ∅ G;
  h_fresh : fresh cl = s.1;
  h_count : length (registered ops) = s.1;
  h_counter : currentCounter cl <= Z.of_nat (length ops);
  h_callback n : callback <$> nodes cl !! n = registered ops !! n
}.

Lemma holds_step ops cl s o : Z.of_nat (length ops) + 1 < 2 ^ 64 → holds ops cl s →
  holds (ops ++ [o]) (apply_op [] o cl) (list_step s o).
Proof.
  intros Hlen [Hl (G & Ht) Hf Hr Hc Hn]. assert (Hroom : room cl 1) by (unfold room; lia).
  destruct (op_tidy [] o cl s.2 ∅ [] G Ht (closed_empty _) Hroom) as (He & N & Ht' & _); [set_solver|set_solver|].
  pose proof (linked_effect _ _ _ _ _ Hl He) as Hl'. pose proof (effect_counter _ _ _ _ _ He) as Hc'.
  rewrite Hf in Hl', Ht'.
  split; rewrite ?registered_snoc, ?length_app, ?Nat2Z.inj_add; cbn [list_step fst snd].
  - done.
  - by exists (N ++ G).
  - rewrite (op_fresh _ _ _ _ Hl Hroom). by rewrite Hf.
  - rewrite Hr. destruct o; cbn; lia.
  - cbn. lia.
  - intros n. rewrite (effect_callback _ _ _ _ _ n Hl He), Hn, Hf. case_decide as D.
    + rewrite lookup_app_r, Hr, D, Nat.sub_diag by lia. by destruct (callback_of o).
    + destruct (decide (n < s.1)%nat); [by rewrite lookup_app_l by lia|].
      rewrite !lookup_ge_None_2; [done|rewrite length_app; destruct (callback_of o); cbn; lia|lia].
Qed.

Lemma holds_ops ops : Z.of_nat (length ops) < 2 ^ 64 →
  holds ops (apply_ops [] ops new_CallbackList) (fold_left list_step ops (0%nat, [])).
Proof.
  induction ops as [|o ops IH] using rev_ind; intros Hlen; [by split; [apply linked_new|exists []; apply tidy_new|..]|].
  rewrite length_app, Nat2Z.inj_add in Hlen. cbn in Hlen. unfold apply_ops in *. rewrite !fold_left_app.
  apply holds_step; [lia|]. apply IH. lia.
Qed.

(** C8: whatever registrations, insertions and removals are done on a callback
    list, by any handles, the linked store holds the list they make: the new
    callback at the end, at the front or before the handle's node (at the end when
    the handle is dead), the removed one gone, and each node keeps the callback it
    was given.  [remove] answers whether the handle was still in the list, and
    [empty] whether nothing is. *)
Theorem callback_list_refines (ops : list (operation C)) : Z.of_nat (length ops) < 2 ^ 64 →
  let cl := apply_ops [] ops new_CallbackList in
  let s := fold_left list_step ops (0%nat, []) in
  linked cl s.2 ∧ fresh cl = s.1 ∧
  (∀ n, callback <$> nodes cl !! n = registered ops !! n) ∧
  (∀ h, (remove [] h cl).1 = bool_decide (h ∈ s.2)) ∧
  empty cl = bool_decide (s.2 = []).
Proof.
  intros Hlen cl s. destruct (holds_ops ops Hlen) as [Hl (G & Ht) Hf _ _ Hn]. split_and!; [done|done|done| |].
  - intros h. unfold remove. fold cl in Ht. rewrite (lock_tidy cl s.2 ∅ [] G [] h Ht) by set_solver. fold s. by destruct (bool_decide _).
  - unfold empty. fold cl s in Hl. rewrite (lk_head _ _ Hl). apply bool_decide_ext. by destruct s.2.
Qed.
End Facts.

Lemma callback_list_refines_witness :
  let cl := apply_ops [] [Append 7; Prepend 8; Insert 9 0; Remove 1] new_CallbackList in
  linked cl [2; 0]%nat ∧ fresh cl = 3%nat ∧
  (∀ n, callback <$> nodes cl !! n = [7; 8; 9] !! n) ∧
  (∀ h, (remove [] h cl).1 = bool_decide (h ∈ [2; 0]%nat)) ∧
  empty cl = false.
Proof. exact (callback_list_refines [Append 7; Prepend 8; Insert 9 0; Remove 1] eq_refl). Defined.
