(* ===== verification/CallbackWalk.v ===== *)
(** Walking a callback list while it changes: [doForEachIf] of
    src/Shared/code/eventpp/callbacklist.h against an observer that knows only
    lists.  The observer keeps what the list holds and which of the nodes that
    were there at the start are still to be called; a call is right when it is of
    the first of these.  The loop reaches the end, through nodes that were removed
    under it if need be, and everything it does is right.  The list may be a part of a
    larger state on which things are done meanwhile ([WalkSystem]). *)

From S2P Require Import Prelude CallbackList CallbackListFacts.

Section Walk.
Context {C : Type}.
Implicit Types (cl : CallbackList C) (l a b d : list nat) (n m : nat) (Q : gset nat) (o : operation C).

(** ** The observer *)

Record watch := mk_watch { w_fresh : nat; w_list : list nat; w_todo : list nat }.

Definition strike (o : operation C) (todo : list nat) : list nat :=
  match o with Remove h => filter (λ y, y ≠ h) todo | _ => todo end.

Definition watch_op (w : watch) (o : operation C) : watch :=
  mk_watch (allocates o + w_fresh w) (list_op (w_fresh w) o (w_list w)) (strike o (w_todo w)).

Section Observe.
(** What an operation is for the list that is walked: [None] when it does not touch
    the list's store, otherwise whether it is done on the list and what. *)
Context {O : Type} (kind : O → option (bool * operation C)).

Definition watch_done (w : watch) (o : O) : watch :=
  match kind o with
  | Some (true, op) => watch_op w op
  | Some (false, op) => mk_watch (allocates op + w_fresh w) (w_list w) (w_todo w)
  | None => w
  end.

Definition watch_event (w : watch) (e : event O) : option watch :=
  match e with
  | Did o => Some (watch_done w o)
  | Called n =>
      match w_todo w with
      | m :: todo => if decide (n = m) then Some (mk_watch (w_fresh w) (w_list w) todo) else None
      | [] => None
      end
  end.

Fixpoint observe (events : list (event O)) (w : watch) : option watch :=
  match events with
  | [] => Some w
  | e :: events => w' ← watch_event w e; observe events w'
  end.

Lemma observe_app es es' w : observe (es ++ es') w = observe es w ≫= observe es'.
Proof. revert w. induction es as [|e es IH]; intros w; cbn; [done|]. by destruct (watch_event w e); cbn. Qed.
End Observe.

(** ** Handles are not used after a removal *)

Definition retire (o : operation C) (R : gset nat) : gset nat :=
  match o with Remove h => {[h]} ∪ R | _ => R end.

Fixpoint no_stale (R : gset nat) (ops : list (operation C)) : bool :=
  match ops with
  | [] => true
  | o :: ops =>
      match handle_of o with Some h => bool_decide (h ∉ R) | None => true end && no_stale (retire o R) ops
  end.

(** ** The store during a walk *)

(** [Q] are the nodes removed since it began: still in the store, with the
    pointers they had. *)
Record walking cl l Q : Prop := {
  wk_linked : linked cl l;
  wk_gone m : m ∈ Q → m ∉ l ∧ ∃ nd, nodes cl !! m = Some nd ∧ counter nd = removedCounter
}.

Lemma walking_start cl l : linked cl l → walking cl l ∅.
Proof. by split. Qed.

(** The nodes removed since, when [l] becomes [l']. *)
Definition gone Q l l' : gset nat := Q ∪ (list_to_set l ∖ list_to_set l').

Lemma gone_same Q l l' : (∀ m, m ∈ l → m ∈ l') → gone Q l l' = Q.
Proof. unfold gone. set_solver. Qed.

Lemma gone_removed Q a n b : n ∉ a → n ∉ b → gone Q (a ++ n :: b) (a ++ b) = {[n]} ∪ Q.
Proof. unfold gone. set_solver. Qed.

Lemma gone_not_fresh cl l Q m : walking cl l Q → m ∈ Q → m ≠ fresh cl.
Proof.
  intros Hw Hm ->. destruct (wk_gone _ _ _ Hw _ Hm) as (_ & nd & E & _).
  by rewrite (fresh_none _ _ (wk_linked _ _ _ Hw)) in E.
Qed.

Lemma walking_put cl cl' a b Q c : walking cl (a ++ b) Q → put cl cl' a b (fresh cl) c →
  walking cl' (a ++ fresh cl :: b) Q.
Proof.
  intros Hw Hp. split; [by eapply linked_put, Hp; apply Hw|]. intros m Hm. pose proof (gone_not_fresh _ _ _ _ Hw Hm).
  rewrite (put_stranger _ _ _ _ _ _ m Hp) by (done || by apply (wk_gone _ _ _ Hw)).
  destruct (wk_gone _ _ _ Hw _ Hm) as (? & ?). split; [set_solver|done].
Qed.

Lemma walking_taken cl cl' a n b Q : walking cl (a ++ n :: b) Q → taken cl cl' a n b →
  walking cl' (a ++ b) ({[n]} ∪ Q).
Proof.
  intros Hw Ht. pose proof (wk_linked _ _ _ Hw) as Hl.
  pose proof (lk_nodup _ _ Hl) as Hnd. apply NoDup_middle in Hnd as (Hna & Hnb & _).
  split; [by eapply linked_taken|]. intros m Hm. apply elem_of_union in Hm as [->%elem_of_singleton|Hm].
  - destruct (linked_member _ _ n Hl) as (nd & E & _); [set_solver|].
    split; [set_solver|]. rewrite (tk_node _ _ _ _ _ Ht), E. by eexists.
  - rewrite (taken_stranger _ _ _ _ _ m Ht) by (by apply (wk_gone _ _ _ Hw)).
    destruct (wk_gone _ _ _ Hw _ Hm) as (? & ?). split; [set_solver|done].
Qed.

(** ** Where the walk is *)

(** From [p] the [next] pointers lead, through [k] removed nodes, to the rest [d]
    of the list. *)
Inductive ahead cl l Q : nat → option nat → list nat → Prop :=
  | ahead_here a d : l = a ++ d → ahead cl l Q 0 (hd_error d) d
  | ahead_gone n k d : n ∈ Q → ahead cl l Q k (next_of cl n) d → ahead cl l Q (S k) (Some n) d.

(** The walk is at [n] and has dealt with it; [d] is to come. *)
Definition after cl l Q (k : nat) (n : nat) d : Prop :=
  (k = 0%nat ∧ ∃ a, l = a ++ n :: d) ∨ (n ∈ Q ∧ ahead cl l Q k (next_of cl n) d).

Lemma next_of_eq cl cl' n : nodes cl' !! n = nodes cl !! n → next_of cl' n = next_of cl n.
Proof. unfold next_of. by intros ->. Qed.

Lemma NoDup_split_eq l1 l2 k1 k2 n : NoDup (l1 ++ n :: l2) → l1 ++ n :: l2 = k1 ++ n :: k2 → l1 = k1 ∧ l2 = k2.
Proof.
  intros Hnd E. pose proof Hnd as Hn2. rewrite E in Hn2. apply NoDup_middle in Hnd as (H1 & _). apply NoDup_middle in Hn2 as (H2 & _).
  apply app_split in E as [(r & -> & _)|(r & -> & E)]; [set_solver|].
  destruct r as [|y r]; cbn in E; simplify_eq; [by rewrite app_nil_r|set_solver].
Qed.

(** A new node may come to lie ahead; the old ones stay. *)
Lemma ahead_put cl cl' a b Q c k p d : walking cl (a ++ b) Q → put cl cl' a b (fresh cl) c →
  ahead cl (a ++ b) Q k p d →
  ∃ d', ahead cl' (a ++ fresh cl :: b) Q k p d' ∧ filter (λ y, y ≠ fresh cl) d' = d ∧ (length d' <= S (length d))%nat.
Proof.
  intros Hw Hp Ha. pose proof (wk_linked _ _ _ Hw) as Hl. set (x := fresh cl) in *.
  assert (Hx : x ∉ a ++ b) by (intros Hin; by eapply linked_not_fresh in Hin).
  induction Ha as [e d E|n k d Hn _ (d' & IH & Hf & Hlen)].
  - apply app_eq_inv in E as [(r & -> & ->)|(r & -> & ->)].
    + destruct r as [|y r].
      * exists b. rewrite app_nil_r, filter_absent by set_solver.
        split_and!; [|done|cbn; lia]. apply (ahead_here _ _ _ (e ++ [x]) b). by rewrite <- app_assoc.
      * exists ((y :: r) ++ x :: b). rewrite filter_middle by set_solver.
        split_and!; [|done|rewrite !length_app; cbn; lia].
        apply (ahead_here _ _ _ e ((y :: r) ++ x :: b)). by rewrite <- app_assoc.
    + exists d. rewrite filter_absent by set_solver. split_and!; [|done|lia].
      apply (ahead_here _ _ _ (a ++ x :: r)). by rewrite <- app_assoc.
  - exists d'. split_and!; [|done|done]. apply ahead_gone; [done|].
    rewrite (next_of_eq cl cl'); [done|]. eapply put_stranger; [done|by apply (wk_gone _ _ _ Hw)|by eapply gone_not_fresh].
Qed.

Lemma taken_next cl cl' a n b : linked cl (a ++ n :: b) → taken cl cl' a n b → next_of cl' n = hd_error b.
Proof.
  intros Hl Ht. destruct (lk_node _ _ Hl a n b eq_refl) as (nd & Hn & _ & Hx & _).
  unfold next_of. by rewrite (tk_node _ _ _ _ _ Ht), Hn.
Qed.

(** A removed node is stepped over. *)
Lemma ahead_taken cl cl' a n b Q k p d : walking cl (a ++ n :: b) Q → taken cl cl' a n b →
  ahead cl (a ++ n :: b) Q k p d →
  ∃ k', ahead cl' (a ++ b) ({[n]} ∪ Q) k' p (filter (λ y, y ≠ n) d) ∧
    (k' + length (filter (λ y, y ≠ n) d) <= k + length d)%nat.
Proof.
  intros Hw Ht Ha. pose proof (wk_linked _ _ _ Hw) as Hl.
  pose proof (lk_nodup _ _ Hl) as Hnd. apply NoDup_middle in Hnd as (Hna & Hnb & _).
  induction Ha as [e d E|m k d Hm _ (k' & IH & Hlen)].
  - symmetry in E. apply app_split in E as [(r & -> & ->)|(r & -> & ->)].
    + exists 0%nat. rewrite filter_absent by set_solver. split; [|done].
      apply (ahead_here _ _ _ (a ++ r)). by rewrite app_assoc.
    + rewrite filter_middle by set_solver. destruct r as [|y r].
      * exists 1%nat. split; [|cbn; lia]. apply ahead_gone; [set_solver|]. rewrite (taken_next _ _ _ _ _ Hl Ht).
        apply (ahead_here _ _ _ e). by rewrite app_nil_r.
      * exists 0%nat. split; [|rewrite !length_app; cbn; lia].
        apply (ahead_here _ _ _ e ((y :: r) ++ b)). by rewrite <- app_assoc.
  - exists (S k'). split; [|lia]. apply ahead_gone; [set_solver|].
    rewrite (next_of_eq cl cl'); [done|]. eapply taken_stranger; [done|]. by apply (wk_gone _ _ _ Hw).
Qed.

Lemma after_put cl cl' a b Q c k n d : walking cl (a ++ b) Q → put cl cl' a b (fresh cl) c →
  after cl (a ++ b) Q k n d →
  ∃ d', after cl' (a ++ fresh cl :: b) Q k n d' ∧ filter (λ y, y ≠ fresh cl) d' = d ∧ (length d' <= S (length d))%nat.
Proof.
  intros Hw Hp [[-> (e & E)]|[Hn Ha]].
  - pose proof (wk_linked _ _ _ Hw) as Hl. set (x := fresh cl) in *.
    assert (Hx : x ∉ a ++ b) by (intros Hin; by eapply linked_not_fresh in Hin).
    apply app_split in E as [(r & -> & ->)|(r & -> & ->)].
    + exists (r ++ x :: b). rewrite filter_middle by set_solver.
      split_and!; [|done|rewrite !length_app; cbn; lia]. left. split; [done|]. exists e. by rewrite <- app_assoc.
    + exists d. rewrite filter_absent by set_solver. split_and!; [|done|lia].
      left. split; [done|]. exists (a ++ x :: r). by rewrite <- app_assoc.
  - destruct (ahead_put _ _ _ _ _ _ _ _ _ Hw Hp Ha) as (d' & Ha' & Hf & Hlen). exists d'. split_and!; [|done|done].
    right. split; [done|]. rewrite (next_of_eq cl cl'); [done|].
    eapply put_stranger; [done|by apply (wk_gone _ _ _ Hw)|by eapply gone_not_fresh].
Qed.

Lemma after_taken cl cl' a m b Q k n d : walking cl (a ++ m :: b) Q → taken cl cl' a m b →
  after cl (a ++ m :: b) Q k n d →
  ∃ k', after cl' (a ++ b) ({[m]} ∪ Q) k' n (filter (λ y, y ≠ m) d) ∧
    (k' + length (filter (λ y, y ≠ m) d) <= k + length d)%nat.
Proof.
  intros Hw Ht [[-> (e & E)]|[Hn Ha]].
  - pose proof (wk_linked _ _ _ Hw) as Hl. pose proof (lk_nodup _ _ Hl) as Hnd.
    destruct (decide (m = n)) as [->|Hne].
    + apply NoDup_split_eq in E as [<- <-]; [|done]. apply NoDup_middle in Hnd as (Hna & Hnb & _).
      exists 0%nat. rewrite filter_absent by done. split; [|done]. right. split; [set_solver|].
      rewrite (taken_next _ _ _ _ _ Hl Ht). by apply (ahead_here _ _ _ a).
    + apply NoDup_middle in Hnd as (Hna & Hnb & _).
      exists 0%nat. split; [|pose proof (length_filter (λ y, y ≠ m) d); lia]. left. split; [done|].
      apply app_split in E as [(r & -> & ->)|(r & -> & E)].
      * exists e. rewrite filter_middle by set_solver. by rewrite <- app_assoc.
      * destruct r as [|y r]; cbn in E; simplify_eq. exists (a ++ r). rewrite filter_absent by set_solver.
        by rewrite <- app_assoc.
  - destruct (ahead_taken _ _ _ _ _ _ _ _ _ Hw Ht Ha) as (k' & Ha' & Hlen). exists k'. split; [|done].
    right. split; [set_solver|]. rewrite (next_of_eq cl cl'); [done|].
    eapply taken_stranger; [done|]. by apply (wk_gone _ _ _ Hw).
Qed.
Lemma ahead_sub cl l Q k p d m : ahead cl l Q k p d → m ∈ d → m ∈ l.
Proof. intros Ha Hm. induction Ha as [a d ->|]; [set_solver|auto]. Qed.
Lemma after_sub cl l Q k n d m : after cl l Q k n d → m ∈ d → m ∈ l.
Proof. intros [[_ (a & ->)]|[_ Ha]] Hm; [set_solver|by eapply ahead_sub]. Qed.
Lemma after_in cl l Q k n d : after cl l Q k n d → n ∈ l ∨ n ∈ Q.
Proof. intros [[_ (a & ->)]|[? _]]; [left; set_solver|by right]. Qed.

(** ** Old and new nodes *)

(** The counters tell the nodes that were there at the start, which are the ones
    numbered below [f0]. *)
Definition aged cl l (s : Z) (f0 : nat) : Prop :=
  (∀ m nd, m ∈ l → nodes cl !! m = Some nd → (counter nd <= s ↔ (m < f0)%nat)) ∧
  (f0 <= fresh cl)%nat ∧ s <= currentCounter cl.

Definition old (f0 : nat) (d : list nat) : list nat := filter (λ m, (m < f0)%nat) d.

Lemma old_without f0 m d : old f0 (filter (λ y, y ≠ m) d) = filter (λ y, y ≠ m) (old f0 d).
Proof. unfold old. rewrite !list_filter_filter. apply list_filter_iff. tauto. Qed.

Lemma old_new f0 x d : (f0 <= x)%nat → old f0 (filter (λ y, y ≠ x) d) = old f0 d.
Proof. intros Hx. unfold old. apply list_filter_filter_l. intros y Hy. lia. Qed.

Lemma aged_start cl l : linked cl l → aged cl l (currentCounter cl) (fresh cl).
Proof.
  intros Hl. split_and!; [|done|done]. intros m nd Hm E. destruct (linked_member _ _ _ Hl Hm) as (nd' & E' & Hc).
  pose proof (lk_fresh _ _ Hl _ (mk_is_Some _ _ E)). simplify_eq. lia.
Qed.

Lemma aged_put cl cl' a b c s f0 : linked cl (a ++ b) → put cl cl' a b (fresh cl) c →
  aged cl (a ++ b) s f0 → aged cl' (a ++ fresh cl :: b) s f0.
Proof.
  intros Hl Hp (Hc & Hf & Hs). destruct (put_fresh _ _ _ _ _ _ Hp) as [Hf' _].
  pose proof (put_counter _ _ _ _ _ _ Hp) as Hcc. split_and!; [|lia|lia].
  intros m nd Hm E. destruct (decide (m = fresh cl)) as [->|Hne].
  - rewrite (put_x _ _ _ _ _ _ Hp) in E. simplify_eq. cbn. lia.
  - rewrite (put_other _ _ _ _ _ _ Hp m Hne) in E. apply fmap_Some in E as (nd0 & E & ->).
    rewrite put_between_counter. apply Hc; [set_solver|done].
Qed.

Lemma aged_taken cl cl' a n b s f0 : linked cl (a ++ n :: b) → taken cl cl' a n b →
  aged cl (a ++ n :: b) s f0 → aged cl' (a ++ b) s f0.
Proof.
  intros Hl Ht (Hc & Hf & Hs). rewrite <- (tk_fresh _ _ _ _ _ Ht) in Hf. rewrite <- (tk_counter _ _ _ _ _ Ht) in Hs.
  split_and!; [|done|done]. pose proof (lk_nodup _ _ Hl) as Hnd. apply NoDup_middle in Hnd as (Hna & Hnb & _).
  intros m nd Hm E. rewrite (tk_other _ _ _ _ _ Ht m) in E by set_solver. apply fmap_Some in E as (nd0 & E & ->).
  rewrite take_out_counter. apply Hc; [set_solver|done].
Qed.

(** ** One operation *)

Record passing cl l Q s f0 k n d : Prop := {
  ps_walking : walking cl l Q;
  ps_aged : aged cl l s f0;
  ps_after : after cl l Q k n d
}.

Lemma passing_effect oc cl l cl' l' Q s f0 k n d : passing cl l Q s f0 k n d → effect cl l oc cl' l' →
  ∃ k' d', passing cl' l' (gone Q l l') s f0 k' n d' ∧ (k' + length d' <= S (k + length d))%nat ∧
    (((∀ m, m ∈ l → m ∈ l') ∧ old f0 d' = old f0 d) ∨
     (∃ m, m ∈ l ∧ m ∉ l' ∧ old f0 d' = filter (λ y, y ≠ m) (old f0 d))).
Proof.
  intros [Hw Hg Ha] [cl2 a b c E Hp|cl2 a m b E Ht|].
  - subst l. pose proof (wk_linked _ _ _ Hw) as Hl. destruct (after_put _ _ _ _ _ _ _ _ _ Hw Hp Ha) as (d' & Ha' & Hf & Hlen).
    exists k, d'. rewrite gone_same by set_solver. split_and!; [|lia|left].
    + split; [by eapply walking_put|by eapply aged_put|done].
    + split; [set_solver|]. rewrite <- Hf. symmetry. apply old_new, Hg.
  - subst l. pose proof (wk_linked _ _ _ Hw) as Hl. destruct (after_taken _ _ _ _ _ _ _ _ _ Hw Ht Ha) as (k' & Ha' & Hlen).
    pose proof (lk_nodup _ _ Hl) as Hnd. apply NoDup_middle in Hnd as (Hna & Hnb & _).
    exists k', (filter (λ y, y ≠ m) d). rewrite gone_removed by done. split_and!; [|lia|right].
    + split; [by eapply walking_taken|by eapply aged_taken|done].
    + exists m. split_and!; [set_solver|set_solver|apply old_without].
  - exists k, d. rewrite gone_same by done. split_and!; [done|lia|]. by left.
Qed.

(** What is done on other lists in the store. *)
Record foreign cl cl' l Q Q' : Prop := {
  fo_ends : head cl' = head cl ∧ tail cl' = tail cl ∧ currentCounter cl' = currentCounter cl;
  fo_same m : m ∈ l ∨ m ∈ Q → nodes cl' !! m = nodes cl !! m;
  fo_fresh m : is_Some (nodes cl' !! m) → (m < fresh cl')%nat;
  fo_later : (fresh cl <= fresh cl')%nat;
  fo_gone m : m ∈ Q' → m ∈ Q ∨ (m ∉ l ∧ ∃ nd, nodes cl' !! m = Some nd ∧ counter nd = removedCounter);
  fo_more : Q ⊆ Q'
}.

Lemma linked_foreign cl cl' l Q Q' : linked cl l → foreign cl cl' l Q Q' → linked cl' l.
Proof.
  intros Hl Hf. destruct (fo_ends _ _ _ _ _ Hf) as (Eh & Et & Ec).
  split; rewrite ?Eh, ?Et, ?Ec; [apply Hl|apply Hl|apply Hl| |apply Hf|apply Hl].
  intros a n b E. rewrite (fo_same _ _ _ _ _ Hf) by (left; rewrite E; set_solver). by apply Hl.
Qed.

Lemma ahead_foreign cl cl' l Q Q' k p d : foreign cl cl' l Q Q' → ahead cl l Q k p d → ahead cl' l Q' k p d.
Proof.
  intros Hf Ha. induction Ha as [a d E|n k d Hn _ IH]; [by eapply ahead_here|]. apply ahead_gone; [by apply (fo_more _ _ _ _ _ Hf)|].
  rewrite (next_of_eq cl cl'); [done|]. apply (fo_same _ _ _ _ _ Hf). by right.
Qed.

Lemma passing_foreign cl cl' l Q Q' s f0 k n d : passing cl l Q s f0 k n d → foreign cl cl' l Q Q' →
  passing cl' l Q' s f0 k n d.
Proof.
  intros [Hw (Hg1 & Hg2 & Hg3) Ha] Hf. split.
  - split; [eapply linked_foreign; [apply Hw|done]|]. intros m Hm. destruct (fo_gone _ _ _ _ _ Hf m Hm) as [Hq|?]; [|done].
    rewrite (fo_same _ _ _ _ _ Hf m (or_intror Hq)). by apply (wk_gone _ _ _ Hw).
  - destruct (fo_ends _ _ _ _ _ Hf) as (_ & _ & Ec). pose proof (fo_later _ _ _ _ _ Hf).
    split_and!; [|lia|lia]. intros m nd Hm. rewrite (fo_same _ _ _ _ _ Hf m (or_introl Hm)). by apply Hg1.
  - destruct Ha as [[-> Ha]|[Hn Ha]]; [by left|right]. split; [by apply (fo_more _ _ _ _ _ Hf)|].
    rewrite (next_of_eq cl cl') by (apply (fo_same _ _ _ _ _ Hf); by right). by eapply ahead_foreign.
Qed.

Lemma insert_before_in x h l m : m ∈ insert_before x h l ↔ m = x ∨ m ∈ l.
Proof. induction l as [|y l IH]; cbn; [set_solver|]. case_decide; set_solver. Qed.

Lemma list_op_keeps x o l m : m ∈ l → m ∈ list_op x o l ∨ o = Remove m.
Proof.
  intros Hm. destruct o as [c|c|c h|h]; cbn; [left; set_solver|left; set_solver|left; apply insert_before_in; by right|].
  destruct (decide (m = h)) as [->|]; [by right|left]. by apply list_elem_of_filter.
Qed.

(** What an operation may do to the list under the walk. *)
Definition moves (kind : option (bool * operation C)) cl l Q cl' l' Q' : Prop :=
  match kind with
  | None => cl' = cl ∧ l' = l ∧ Q' = Q
  | Some (true, op) =>
      effect cl l (callback_of op) cl' l' ∧ l' = list_op (fresh cl) op l ∧ Q' = gone Q l l' ∧
      fresh cl' = (allocates op + fresh cl)%nat
  | Some (false, op) => foreign cl cl' l Q Q' ∧ l' = l ∧ fresh cl' = (allocates op + fresh cl)%nat
  end.

Lemma passing_move kind cl l Q cl' l' Q' s f0 k n d : passing cl l Q s f0 k n d → moves kind cl l Q cl' l' Q' →
  ∃ k' d', passing cl' l' Q' s f0 k' n d' ∧ (k' + length d' <= S (k + length d))%nat ∧
    watch_done (λ _ : (), kind) (mk_watch (fresh cl) l (old f0 d)) () = mk_watch (fresh cl') l' (old f0 d').
Proof.
  intros Hp Hm. unfold watch_done. destruct kind as [[[|] op]|]; cbn [moves] in Hm.
  - destruct Hm as (He & El & -> & Ef). destruct (passing_effect _ _ _ _ _ _ _ _ _ _ _ Hp He) as (k' & d' & Hp' & Hlen & Hold).
    exists k', d'. split_and!; [done|done|]. unfold watch_op. cbn [w_fresh w_list w_todo]. rewrite Ef, El. f_equal.
    destruct Hold as [[Hk Ho]|(m & Hm & Hm' & Ho)]; rewrite Ho.
    + destruct op as [c|c|c h|h]; [done|done|done|]. cbn. rewrite filter_absent; [done|]. intros Hin.
      apply list_elem_of_filter in Hin as [_ Hin]. apply (after_sub _ _ _ _ _ _ _ (ps_after _ _ _ _ _ _ _ _ Hp)), Hk in Hin.
      rewrite El in Hin. cbn in Hin. by apply list_elem_of_filter in Hin as [? _].
    + rewrite El in Hm'. by destruct (list_op_keeps (fresh cl) op l m Hm) as [?| ->].
  - destruct Hm as (Hf & -> & Ef). exists k, d. split_and!; [by eapply passing_foreign|lia|]. by rewrite Ef.
  - destruct Hm as (-> & -> & ->). exists k, d. split_and!; [done|lia|done].
Qed.

Lemma arrive cl l Q s f0 k n d : walking cl l Q → aged cl l s f0 → ahead cl l Q k (Some n) d →
  ∃ nd k' d', nodes cl !! n = Some nd ∧ passing cl l Q s f0 k' n d' ∧ (S (k' + length d') = k + length d)%nat ∧
    old f0 d = (if callable s nd then [n] else []) ++ old f0 d'.
Proof.
  intros Hw Hg Ha. inversion Ha as [a d0 E Ek Eh Ed|n0 k' d0 Hn Ha' Ek Eh Ed]; subst.
  - destruct d as [|n0 d']; cbn in Eh; [done|]. simplify_eq.
    destruct (linked_member _ _ n (wk_linked _ _ _ Hw)) as (nd & E & Hc); [set_solver|].
    exists nd, 0%nat, d'. split_and!; [done|split; [done|done|]|done|].
    { left. split; [done|]. by exists a. }
    pose proof (proj1 Hg n nd ltac:(set_solver) E) as Hi. unfold old, callable, removedCounter.
    rewrite (proj2 (Z.eqb_neq (counter nd) 0)) by lia. cbn [negb andb]. destruct (Z.leb_spec (counter nd) s).
    + rewrite filter_cons_True; [done|]. apply Hi. lia.
    + rewrite filter_cons_False; [done|]. intros Hn. apply Hi in Hn. lia.
  - destruct (wk_gone _ _ _ Hw n Hn) as (_ & nd & E & Hc). exists nd, k', d. split_and!; [done|split; [done|done|by right]|lia|].
    unfold callable. rewrite Hc. done.
Qed.

Lemma passing_next cl l Q s f0 k n d : passing cl l Q s f0 k n d → ahead cl l Q k (next_of cl n) d.
Proof.
  intros [Hw Hg [[-> (a & E)]|[Hn Ha]]]; [|done].
  destruct (lk_node _ _ (wk_linked _ _ _ Hw) a n d E) as (nd & Hn & _ & Hx & _).
  unfold next_of. rewrite Hn. cbn. rewrite Hx. apply (ahead_here _ _ _ (a ++ [n])). by rewrite <- app_assoc.
Qed.

(** ** A walk inside of a larger state *)

(** [Steady ops s l Q]: the list is [l], the nodes removed since the walk began are
    [Q], and the operations [ops] may be done from here on; each of them moves the
    list as its [kind] says. *)
Class WalkSystem {S O : Type} (view : S → CallbackList C) (act : list nat → O → S → S)
    (kind : O → option (bool * operation C)) := {
  Steady : list O → S → list nat → gset nat → Prop;
  steady_step (o : O) ops s l Q n : Steady (o :: ops) s l Q → n ∈ l ∨ n ∈ Q →
    ∃ l' Q', Steady ops (act [n] o s) l' Q' ∧ moves (kind o) (view s) l Q (view (act [n] o s)) l' Q'
}.

Section System.
Context {S O : Type} (view : S → CallbackList C) (act : list nat → O → S → S)
  (kind : O → option (bool * operation C)) `{!WalkSystem view act kind}.

Lemma passing_acts (ops rest : list O) st l Q s f0 k n d : passing (view st) l Q s f0 k n d → Steady (ops ++ rest) st l Q →
  ∃ l' Q' k' d', passing (view (acts act [n] ops st)) l' Q' s f0 k' n d' ∧ Steady rest (acts act [n] ops st) l' Q' ∧
    (k' + length d' <= length ops + (k + length d))%nat ∧
    observe kind (map Did ops) (mk_watch (fresh (view st)) l (old f0 d)) =
      Some (mk_watch (fresh (view (acts act [n] ops st))) l' (old f0 d')).
Proof.
  revert st l Q k d. induction ops as [|o ops IH]; intros st l Q k d Hp Hs.
  { exists l, Q, k, d. by cbn. }
  destruct (steady_step o (ops ++ rest) st l Q n Hs) as (l1 & Q1 & Hs1 & Hm1); [by eapply after_in, Hp|].
  destruct (passing_move _ _ _ _ _ _ _ _ _ _ _ _ Hp Hm1) as (k1 & d1 & Hp1 & Hk1 & Hw1).
  destruct (IH _ _ _ _ _ Hp1 Hs1) as (l' & Q' & k' & d' & Hp' & Hs' & Hk' & Hobs).
  exists l', Q', k', d'. cbn [acts fold_left length]. split_and!; [exact Hp'|exact Hs'|lia|].
  cbn [map observe watch_event mbind option_bind]. unfold watch_done in Hw1 |- *. rewrite Hw1. exact Hobs.
Qed.

Definition script_ops (script : list (list O * bool)) : list O := concat (map fst script).

Lemma script_ops_split script : script_ops script = (default ([], true) (hd_error script)).1 ++ script_ops (tl script).
Proof. by destruct script as [|[ops c] script]. Qed.

Lemma for_each_observed fuel script st l Q s f0 k p d : walking (view st) l Q → aged (view st) l s f0 →
  ahead (view st) l Q k p d → (k + length d + length (script_ops script) <= fuel)%nat →
  Steady (script_ops script) st l Q →
  ∃ events finished st' l' Q' todo, for_each view act fuel s p script st = Ok (events, finished, st') ∧
    observe kind events (mk_watch (fresh (view st)) l (old f0 d)) = Some (mk_watch (fresh (view st')) l' todo) ∧
    linked (view st') l' ∧ (finished = true → todo = []) ∧ ∃ rest, Steady rest st' l' Q'.
Proof.
  revert script st l Q k p d. induction fuel as [|fuel IH]; intros script st l Q k p d Hw Hg Ha Hf Hs;
    (destruct p as [n|]; [|inversion Ha as [a d0 E Ek Eh Ed|]; destruct d; simplify_eq; eexists _, _, _, _, _, _;
       split_and!; [reflexivity|reflexivity|apply Hw|done|by eexists]]).
  - destruct (arrive _ _ _ _ _ _ _ _ Hw Hg Ha) as (nd & k' & d' & _ & _ & Hk & _). lia.
  - destruct (arrive _ _ _ _ _ _ _ _ Hw Hg Ha) as (nd & k1 & d1 & Hn & Hp & Hk & Ho). cbn [for_each]. rewrite Hn.
    rewrite script_ops_split in Hf, Hs. destruct (default ([], true) (hd_error script)) as [ops continue].
    cbn [fst] in Hf, Hs. rewrite length_app in Hf.
    destruct (passing_acts ops _ _ _ _ _ _ _ _ _ Hp Hs) as (l2 & Q2 & k2 & d2 & Hp2 & Hs2 & Hk2 & Hobs).
    set (st2 := acts act [n] ops st) in *. set (called := if callable s nd then [Called n] else []).
    assert (Hseen : observe kind (called ++ map Did ops) (mk_watch (fresh (view st)) l (old f0 d)) =
                    Some (mk_watch (fresh (view st2)) l2 (old f0 d2))).
    { rewrite observe_app, Ho. subst called. destruct (callable s nd); cbn; [rewrite decide_True by done; cbn|]; done. }
    cbv zeta. destruct (callable s nd && negb continue).
    + eexists _, _, _, l2, Q2, _. split_and!; [reflexivity|exact Hseen|apply Hp2|done|by eexists].
    + destruct (IH (tl script) st2 l2 Q2 k2 (next_of (view st2) n) d2) as (es & fin & st' & l' & Q' & todo & E & Hobs' & Hl' & Hfin & Hs');
        [apply Hp2|apply Hp2|by eapply passing_next|lia|done|].
      rewrite E. eexists _, _, _, l', Q', todo. split_and!; [reflexivity| |done|done|done].
      by rewrite observe_app, Hseen.
Qed.

Lemma old_all cl l : linked cl l → old (fresh cl) l = l.
Proof.
  intros Hl. assert (H : ∀ m, m ∈ l → (m < fresh cl)%nat).
  { intros m Hm. destruct (linked_member _ _ _ Hl Hm) as (nd & E & _). by eapply lk_fresh. }
  clear Hl. unfold old. induction l as [|y l IH]; [done|].
  rewrite filter_cons_True by (apply H; set_solver). f_equal. apply IH. set_solver.
Qed.

(** A whole walk. *)
Lemma walk_observed fuel script st l : linked (view st) l → (length l + length (script_ops script) <= fuel)%nat →
  Steady (script_ops script) st l ∅ →
  ∃ events finished st' l' Q' todo, doForEachIf view act fuel script st = Ok (events, finished, st') ∧
    observe kind events (mk_watch (fresh (view st)) l l) = Some (mk_watch (fresh (view st')) l' todo) ∧
    linked (view st') l' ∧ (finished = true → todo = []) ∧ ∃ rest, Steady rest st' l' Q'.
Proof.
  intros Hl Hf Hs. unfold doForEachIf. rewrite (lk_head _ _ Hl).
  destruct (for_each_observed fuel script st l ∅ (currentCounter (view st)) (fresh (view st)) 0 (hd_error l) l)
    as (es & fin & st' & l' & Q' & todo & E & Hobs & Hrest);
    [by apply walking_start|by apply aged_start|by apply (ahead_here _ _ _ [])|lia|done|].
  rewrite (old_all _ _ Hl) in Hobs. by exists es, fin, st', l', Q', todo.
Qed.
End System.

(** ** The list alone *)

Definition on_list (o : operation C) : option (bool * operation C) := Some (true, o).

Lemma gone_retire Q R x l o : Q ⊆ R → gone Q l (list_op x o l) ⊆ retire o R.
Proof.
  intros HQ m Hm. unfold gone in Hm. apply elem_of_union in Hm as [Hm|Hm]; [destruct o; cbn; set_solver|].
  apply elem_of_difference in Hm as [H1 H2]. rewrite elem_of_list_to_set in H1. rewrite elem_of_list_to_set in H2.
  destruct (list_op_keeps x o l m H1) as [?| ->]; [done|]. cbn. set_solver.
Qed.

#[export] Program Instance list_system : WalkSystem id apply_op on_list := {
  Steady ops cl l Q :=
    (∃ Qs G, tidy cl l ∅ (Qs ++ G) ∧ Q = list_to_set Qs) ∧ room cl (Z.of_nat (length ops)) ∧ ∃ R, Q ⊆ R ∧ no_stale R ops = true
}.
Next Obligation.
  cbn beta. intros o ops cl l Q n ((Qs & G & Ht & ->) & Hr & R & HQ & Hn) Hin. cbn [no_stale length] in Hn, Hr.
  apply andb_true_iff in Hn as [Hh Hn]. unfold room in Hr. pose proof (td_linked _ _ _ _ Ht) as Hl.
  assert (Hroom : room cl 1) by (unfold room; lia).
  destruct (op_tidy [n] o cl l ∅ Qs G Ht (closed_empty _) Hroom) as (He & N & Ht' & EN); [set_solver| |].
  { intros h E. rewrite E in Hh. apply bool_decide_eq_true in Hh. set_solver. }
  pose proof (effect_counter _ _ _ _ _ He). exists (list_op (fresh cl) o l), (gone (list_to_set Qs) l (list_op (fresh cl) o l)).
  split; [split_and!|].
  - exists (N ++ Qs), G.
    split; [by rewrite <- app_assoc|]. unfold gone. rewrite list_to_set_app_L, EN. set_solver.
  - unfold room. lia.
  - exists (retire o R). split; [by apply gone_retire|done].
  - split_and!; [exact He|done|done|]. by eapply op_fresh.
Qed.


(** A callback that removes itself and then inserts another one before its own
    handle loses it: the handle still locks, since the walk holds the node, so the
    new node is linked to a node that is no longer in the list. *)
Theorem insert_before_removed_lost (c c' : C) :
  ∃ cl', forEachIf 1 [([Remove 0; Insert c' 0], true)] (apply_ops [] [Append c] new_CallbackList) =
           Ok ([Called 0; Did (Remove 0); Did (Insert c' 0)], true, cl') ∧ empty cl' = true.
Proof. eexists. split; [vm_compute; reflexivity|vm_compute; reflexivity]. Qed.
End Walk.

(** A walk over three callbacks: the first removes itself and the second and adds
    a fourth. *)
Definition sample_ops : list (operation Z) := [Append 10; Append 11; Append 12].
Definition sample_script : list (list (operation Z) * bool) := [([Remove 0; Remove 1; Append 13], true)].

Lemma sample_tidy : ∃ G, tidy (apply_ops [] sample_ops new_CallbackList) [0; 1; 2]%nat ∅ G.
Proof. exact (h_tidy _ _ _ (holds_ops sample_ops eq_refl)). Qed.

