(* ===== verification/CallbackCopy.v ===== *)
(** Copying, moving and destroying a callback list: a copy is a list of new nodes
    with the same callbacks, the destructor takes the nodes apart so that none keeps
    another alive, and move assignment forgets to. *)

From S2P Require Import Prelude CallbackList CallbackHeap CallbackListFacts.

Section Copy.
Context {C : Type}.
Implicit Types (cl : CallbackList C) (l a b : list nat) (cs : list C).

(** ** Copying *)

(** The callbacks of a list of nodes. *)
Definition callbacks (m : gmap nat (Node C)) l : list C := omap (λ n, callback <$> m !! n) l.

Lemma callbacks_cons m n nd l : m !! n = Some nd → callbacks m (n :: l) = callback nd :: callbacks m l.
Proof. intros E. unfold callbacks. cbn. by rewrite E. Qed.

Lemma callbacks_same (m m' : gmap nat (Node C)) l : (∀ n, n ∈ l → m' !! n = m !! n) → callbacks m' l = callbacks m l.
Proof.
  induction l as [|n l IH]; intros Hs; [done|]. unfold callbacks in *. cbn. rewrite Hs, IH by set_solver. done.
Qed.

Lemma callbacks_length cl l : linked cl l → length (callbacks (nodes cl) l) = length l.
Proof.
  intros Hl. assert (H : ∀ n, n ∈ l → is_Some (nodes cl !! n)).
  { intros n Hn. destruct (linked_member _ _ _ Hl Hn) as (nd & E & _). by eexists. }
  clear Hl. induction l as [|n l IH]; [done|]. destruct (H n ltac:(set_solver)) as [nd E].
  rewrite (callbacks_cons _ _ _ _ E). cbn. f_equal. apply IH. intros m Hm. apply H. set_solver.
Qed.

(** Nodes are made on a heap [m0] that has the nodes below [k]. *)
Section Made.
Context (k : nat) (m0 : gmap nat (Node C)) (Hm0 : ∀ n, is_Some (m0 !! n) → (n < k)%nat).

(** The node [i] of the heap with a copy of [cs]. *)
Definition row cs (i : nat) : option (Node C) :=
  if decide (i < k)%nat then m0 !! i
  else
    c ← cs !! (i - k)%nat;
    Some (mk_Node (if decide (i = k) then None else Some (pred i)) (if decide (S i < k + length cs)%nat then Some (S i) else None) c 1).

(** The copy when the callbacks [cs] have been done; [tail] is set at the end. *)
Record copying cs cl : Prop := {
  cp_nodes i : nodes cl !! i = row cs i;
  cp_head : head cl = hd_error (seq k (length cs));
  cp_counter : currentCounter cl = 1;
  cp_fresh : fresh cl = (k + length cs)%nat
}.

Definition last_made cs : option nat := last (seq k (length cs)).

Lemma last_made_snoc cs c : last_made (cs ++ [c]) = Some (k + length cs)%nat.
Proof. unfold last_made. rewrite length_app, seq_app. cbn. by rewrite last_snoc. Qed.

Lemma last_made_cases cs : (cs = [] ∧ last_made cs = None) ∨ (∃ p, last_made cs = Some p ∧ S p = (k + length cs)%nat ∧ (k <= p)%nat).
Proof.
  destruct cs as [|c cs _] using rev_ind; [by left|right]. rewrite last_made_snoc, length_app. eexists. split; [done|]. cbn. lia.
Qed.

Lemma row_below cs i : (i < k)%nat → row cs i = m0 !! i.
Proof. intros Hi. unfold row. by rewrite decide_True. Qed.

Lemma row_snoc_old cs c i : i ≠ (k + length cs)%nat → S i ≠ (k + length cs)%nat → row (cs ++ [c]) i = row cs i.
Proof.
  intros H1 H2. unfold row. case_decide as D; [done|]. destruct (decide (i - k < length cs)%nat).
  - rewrite lookup_app_l by done. destruct (cs !! (i - k)%nat); [|done]. cbn. rewrite length_app. cbn.
    by rewrite (decide_ext (S i < k + (length cs + 1))%nat (S i < k + length cs)%nat) by lia.
  - rewrite !lookup_ge_None_2; [done|lia|rewrite length_app; cbn; lia].
Qed.

Lemma row_snoc_last cs c i : S i = (k + length cs)%nat → (k <= i)%nat → row (cs ++ [c]) i = set_next (Some (k + length cs)%nat) <$> row cs i.
Proof.
  intros E Hk. unfold row. rewrite !(decide_False (P := (i < k)%nat)) by lia. rewrite lookup_app_l by lia. destruct (cs !! (i - k)%nat); [|done]. cbn. rewrite length_app. cbn.
  by rewrite (decide_True (P := (S i < k + (length cs + 1))%nat)), E by lia.
Qed.

Lemma row_snoc_new cs c : row (cs ++ [c]) (k + length cs) = Some (mk_Node (last_made cs) None c 1).
Proof.
  unfold row. rewrite decide_False by lia. replace (k + length cs - k)%nat with (length cs) by lia. rewrite list_lookup_middle by done. cbn.
  rewrite length_app, (decide_False (P := (S (k + length cs) < k + (length cs + length [c]))%nat)) by (cbn; lia).
  do 2 f_equal. destruct (last_made_cases cs) as [[-> ->]|(p & -> & Ep & Hp)]; [by rewrite decide_True by (cbn; lia)|].
  rewrite decide_False by lia. f_equal. lia.
Qed.

(** One round of the loop. *)
Definition copy_round (c : C) (node : option nat) cl : CallbackList C :=
  let nextNode := fresh cl in
  let cl := mk_CallbackList (head cl) (tail cl) (currentCounter cl)
              (<[nextNode := mk_Node None None c 1]> (nodes cl)) (S nextNode) in
  let cl := store_at (Some nextNode) (set_previous node) cl in
  match node with
  | Some _ => store_at node (set_next (Some nextNode)) cl
  | None => set_head (Some nextNode) cl
  end.

Lemma copying_round cs cl c : copying cs cl → copying (cs ++ [c]) (copy_round c (last_made cs) cl).
Proof.
  intros [Hn Hh Hc Hf]. unfold copy_round. rewrite Hf. set (x := (k + length cs)%nat) in *.
  assert (Hnew : ∀ i, alter (set_previous (last_made cs)) x (<[x := mk_Node None None c 1]> (nodes cl)) !! i =
    if decide (i = x) then Some (mk_Node (last_made cs) None c 1) else row cs i).
  { intros i. case_decide as D; [subst i; by rewrite lookup_alter_eq, lookup_insert_eq|].
    by rewrite lookup_alter_ne, lookup_insert_ne. }
  destruct (last_made_cases cs) as [[-> El]|(p & El & Ep & Hk)]; rewrite El in *;
    split; cbn [store_at with_nodes set_head nodes head currentCounter fresh]; try done; try (rewrite length_app; unfold x; cbn; lia).
  - intros i. rewrite Hnew. case_decide as D; [subst i; unfold x; by rewrite (row_snoc_new [] c), El|]. unfold x in D. cbn in D. unfold row. case_decide; [done|].
    rewrite !lookup_ge_None_2 by (cbn; lia). done.
  - cbn. unfold x. cbn. f_equal. lia.
  - intros i. rewrite lookup_alter. case_decide as D; [subst i|].
    + rewrite Hnew, decide_False by (unfold x; lia). rewrite (row_snoc_last _ _ p Ep Hk). by destruct (row cs p).
    + rewrite Hnew. case_decide as D2; [subst i; unfold x; by rewrite row_snoc_new, El|]. symmetry. apply row_snoc_old; [done|lia].
  - rewrite Hh. destruct cs; [done|]. by rewrite length_app, seq_app.
Qed.

Lemma clone_nodes_copy from l a b cs cl fuel : linked from l → l = a ++ b → (length b <= fuel)%nat →
  copying cs cl → ∃ cl', clone_nodes fuel (nodes from) (hd_error b) 1 (last_made cs) cl = Ok (set_tail (last_made (cs ++ callbacks (nodes from) b)) cl') ∧
    copying (cs ++ callbacks (nodes from) b) cl'.
Proof.
  intros Hl. revert a cs cl fuel. induction b as [|n b IH]; intros a cs cl fuel E Hf Hc.
  - exists cl. cbn. rewrite app_nil_r. by destruct fuel.
  - destruct fuel as [|fuel]; cbn [length] in Hf; [lia|]. destruct (lk_node _ _ Hl a n b E) as (nd & Hn & _ & Hx & _).
    cbn [hd_error clone_nodes]. rewrite Hn, Hx.
    destruct (IH (a ++ [n]) (cs ++ [callback nd]) (copy_round (callback nd) (last_made cs) cl) fuel) as (cl' & E' & Hc');
      [by rewrite <- app_assoc|lia|by apply copying_round|].
    exists cl'. rewrite (callbacks_cons _ _ _ _ Hn). rewrite <- app_assoc in E', Hc'. cbn [app] in E', Hc'.
    split; [|exact Hc']. rewrite last_made_snoc in E'. rewrite <- E'. unfold copy_round. by rewrite (cp_fresh _ _ Hc).
Qed.

Lemma seq_split n0 len a n b : seq n0 len = a ++ n :: b → (n0 <= n < n0 + len)%nat ∧ a = seq n0 (n - n0) ∧ b = seq (S n) (n0 + len - S n).
Proof.
  intros E. assert (Hk : (length a < len)%nat).
  { apply (f_equal length) in E. rewrite length_seq, length_app in E. cbn in E. lia. }
  replace len with (length a + S (len - S (length a)))%nat in E by lia. rewrite seq_app in E. cbn [seq Nat.add] in E.
  apply app_inj_1 in E as [<- E]; [|by rewrite length_seq]. injection E as <- <-. rewrite length_seq. split; [lia|]. split; f_equal; lia.
Qed.

Lemma copying_linked cs cl : copying cs cl → linked (set_tail (last_made cs) cl) (seq k (length cs)).
Proof.
  intros [Hn Hh Hc Hf]. split; cbn [set_tail head tail nodes currentCounter fresh]; rewrite ?Hc, ?Hf; try done.
  - apply NoDup_seq.
  - intros a n b E. apply seq_split in E as (En & -> & ->). rewrite Hn. unfold row. rewrite decide_False by lia.
    destruct (lookup_lt_is_Some_2 cs (n - k)) as [c ->]; [lia|]. eexists. split; [reflexivity|]. cbn [previous next counter].
    split_and!; [| |lia|lia].
    + case_decide as D; [subst n; by rewrite Nat.sub_diag|]. replace (n - k)%nat with (S (n - k - 1)) by lia.
      rewrite seq_S, last_snoc. f_equal. lia.
    + case_decide as D; [|by replace (k + length cs - S n)%nat with 0%nat by lia].
      by replace (k + length cs - S n)%nat with (S (k + length cs - S (S n))) by lia.
  - intros n. rewrite Hn. unfold row. case_decide as D; [intros Hs; apply Hm0 in Hs; lia|]. intros [nd E]. destruct (cs !! (n - k)%nat) eqn:En; [|done].
    apply lookup_lt_Some in En. lia.
Qed.

Lemma callbacks_seq cs cl : copying cs cl → callbacks (nodes cl) (seq k (length cs)) = cs.
Proof.
  intros Hc. cut (∀ j, (j <= length cs)%nat → callbacks (nodes cl) (seq (k + (length cs - j)) j) = drop (length cs - j) cs).
  { intros H. specialize (H (length cs) (le_n _)). by rewrite Nat.sub_diag, Nat.add_0_r in H. }
  induction j as [|j IH]; intros Hj; [by rewrite drop_ge by lia|]. cbn [seq].
  destruct (lookup_lt_is_Some_2 cs (length cs - S j)) as [c Ec]; [lia|].
  assert (En : ∃ nd, nodes cl !! (k + (length cs - S j))%nat = Some nd ∧ callback nd = c).
  { rewrite (cp_nodes _ _ Hc). unfold row. rewrite decide_False by lia. replace (k + (length cs - S j) - k)%nat with (length cs - S j)%nat by lia. rewrite Ec. by eexists. }
  destruct En as (nd & En & <-). rewrite (callbacks_cons _ _ _ _ En), (drop_S _ _ _ Ec). f_equal.
  replace (S (k + (length cs - S j)))%nat with (k + (length cs - j))%nat by lia. replace (S (length cs - S j)) with (length cs - j)%nat by lia. apply IH. lia.
Qed.

(** Cloning a list into an empty one that shares the heap. *)
Lemma cloneFrom_made from l : linked from l → ∃ cl', cloneFrom from (mk_CallbackList None None 0 m0 k) = Ok cl' ∧
  linked cl' (seq k (length l)) ∧ currentCounter cl' = 1 ∧ fresh cl' = (k + length l)%nat ∧ (∀ i, (i < k)%nat → nodes cl' !! i = m0 !! i) ∧
  (∀ n, is_Some (nodes cl' !! n) → is_Some (m0 !! n) ∨ n ∈ seq k (length l)) ∧
  callbacks (nodes cl') (seq k (length l)) = callbacks (nodes from) l.
Proof.
  intros Hl. set (cs := callbacks (nodes from) l). assert (Hlen : length cs = length l) by (by apply callbacks_length).
  assert (Hc0 : copying [] (mk_CallbackList None None 1 m0 k)).
  { split; cbn; [|done|done|lia]. intros i. unfold row. case_decide as D; [done|]. destruct (m0 !! i) eqn:E; [|done]. specialize (Hm0 i ltac:(by eexists)). lia. }
  destruct (clone_nodes_copy from l [] l [] _ (size (nodes from)) Hl eq_refl (linked_size _ _ Hl) Hc0) as (cl' & E & Hc). cbn [app] in E, Hc. fold cs in E, Hc.
  exists (set_tail (last_made cs) cl'). rewrite <- Hlen. split; [unfold cloneFrom; rewrite (lk_head _ _ Hl); exact E|]. split; [by apply copying_linked|].
  cbn [set_tail currentCounter fresh nodes]. split; [by apply Hc|]. split; [by apply Hc|]. split; [intros i Hi; by rewrite (cp_nodes _ _ Hc), row_below|].
  split; [|by apply callbacks_seq]. intros n [nd En]. rewrite (cp_nodes _ _ Hc) in En. unfold row in En. case_decide as D; [left; by eexists|right].
  destruct (cs !! (n - k)%nat) eqn:Ec; [|done]. apply lookup_lt_Some in Ec. apply elem_of_seq. lia.
Qed.
End Made.

Lemma linked_tidy cl l : linked cl l → (∀ n, is_Some (nodes cl !! n) → n ∈ l) → tidy cl l ∅ [].
Proof.
  intros Hl Hd. split; [done|done|done|]. split.
  - intros n x Hn Hx. rewrite union_empty_r_L, elem_of_list_to_set in *. by eapply members_refs.
  - intros n Hn. apply elem_of_dom, Hd in Hn. set_solver.
Qed.

(** A copy of a callback list is a list of its own: new nodes, in the order of
    the original and with its callbacks, whatever became of removed ones, and usable
    like a list built by [append]; copy assignment gives the same. *)
Theorem callback_list_copied cl other l : linked other l →
  ∃ copied, copy_CallbackList other = Ok copied ∧ assign_copy cl other = Ok copied ∧
    tidy copied (seq 0 (length l)) ∅ [] ∧ currentCounter copied = 1 ∧
    callbacks (nodes copied) (seq 0 (length l)) = callbacks (nodes other) l.
Proof.
  intros Hl. destruct (cloneFrom_made 0 ∅) with (from := other) (l := l) as (cl' & E & Hl' & Hc & _ & _ & Hd & Hs); [by intros n [? ?]|done|].
  exists cl'. assert (Ecopy : copy_CallbackList other = Ok cl') by exact E. split_and!; [done| | |done|done].
  - unfold assign_copy. by rewrite Ecopy.
  - apply linked_tidy; [done|]. intros n Hn. by destruct (Hd n Hn) as [[? ?]|].
Qed.

(** ** Destroying *)

Definition bare (nd : Node C) : Node C := mk_Node None None (callback nd) (counter nd).

Lemma unlink_members cl0 cl l a b fuel : linked cl0 l → l = a ++ b → (length b <= fuel)%nat →
  (∀ n, n ∈ b → nodes cl !! n = nodes cl0 !! n) →
  ∃ cl', unlink fuel (hd_error b) cl = Ok cl' ∧ head cl' = head cl ∧
    ∀ n, nodes cl' !! n = if decide (n ∈ b) then bare <$> nodes cl !! n else nodes cl !! n.
Proof.
  intros Hl. revert a cl fuel. induction b as [|n b IH]; intros a cl fuel E Hf Hs.
  { exists cl. by destruct fuel. }
  destruct fuel as [|fuel]; cbn [length] in Hf; [lia|]. destruct (lk_node _ _ Hl a n b E) as (nd & Hn & _ & Hx & _).
  assert (Hnb : n ∉ b).
  { pose proof (lk_nodup _ _ Hl) as Hnd. rewrite E in Hnd. by apply NoDup_middle in Hnd as (_ & ? & _). }
  cbn [hd_error unlink]. unfold next_of. rewrite Hs, Hn by set_solver. cbn [mbind option_bind]. rewrite Hx.
  destruct (IH (a ++ [n]) (store_at (Some n) (set_next None) (store_at (Some n) (set_previous None) cl)) fuel)
    as (cl' & E' & Hh & Hn'); [by rewrite <- app_assoc|lia| |].
  { intros m Hm. rewrite !store_at_nodes, !decide_False by set_solver. apply Hs. set_solver. }
  exists cl'. split_and!; [done|done|]. intros m. rewrite Hn', !store_at_nodes.
  destruct (decide (m = n)) as [->|Hne].
  - rewrite (decide_False (P := n ∈ b)), !decide_True by set_solver. by destruct (nodes cl !! n).
  - rewrite !(decide_False (P := Some n = Some m)) by congruence. by repeat case_decide; try set_solver.
Qed.

Lemma destroy_members cl l : linked cl l → ∃ cl', destroy cl = Ok cl' ∧ head cl' = None ∧ tail cl' = None ∧
  ∀ n, nodes cl' !! n = if decide (n ∈ l) then bare <$> nodes cl !! n else nodes cl !! n.
Proof.
  intros Hl. unfold destroy. rewrite (lk_head _ _ Hl).
  destruct (unlink_members cl (set_head None cl) l [] l (size (nodes cl)) Hl) as (cl' & -> & Hh & Hn);
    [done|by apply linked_size|done|]. by exists (set_tail None cl').
Qed.

(** Nodes without pointers can be put before any others. *)
Lemma orderly_bare (m m' : gmap nat (Node C)) l G L : orderly m (list_to_set l ∪ L) G → NoDup l →
  (∀ n, n ∈ l → n ∉ L ∧ is_Some (m' !! n) ∧ node_refs m' n = ∅) → closed m' L →
  (∀ n, n ∈ G → m' !! n = m !! n) → dom m' ⊆ dom m → orderly m' L (l ++ G).
Proof.
  revert L. induction l as [|n l IH]; intros L Ho Hnd Hb Hc Hs Hd; cbn [app].
  - cbn in Ho. rewrite union_empty_l_L in Ho. eapply orderly_grow; [exact Ho|done|done|done| |set_solver].
    intros x Hx. by eapply orderly_out.
  - apply NoDup_cons in Hnd as [Hnl Hnd]. destruct (Hb n ltac:(set_solver)) as (HnL & Hsn & Hr).
    split_and!; [done|by apply elem_of_dom|done|rewrite Hr; set_solver|]. apply IH; try done.
    + by replace (list_to_set l ∪ ({[n]} ∪ L)) with (list_to_set (n :: l) ∪ L : gset nat) by set_solver.
    + intros x Hx. destruct (Hb x ltac:(set_solver)) as (? & ? & ?). split_and!; [|done|done].
      intros Hin. apply elem_of_union in Hin as [->%elem_of_singleton|]; done.
    + intros x y Hx Hy. apply elem_of_union in Hx as [->%elem_of_singleton|Hx]; [rewrite Hr in Hy; set_solver|].
      apply elem_of_union_r. by eapply Hc.
Qed.

Lemma destroy_releases cl l G : tidy cl l ∅ G → ∃ cl', destroy cl = Ok cl' ∧ alive cl' [] = ∅.
Proof.
  intros Ht. pose proof (td_linked _ _ _ _ Ht) as Hl. destruct (destroy_members cl l Hl) as (cl' & E & Hh & Hta & Hn).
  exists cl'. split; [done|]. assert (Hsub : alive cl' [] ⊆ ∅); [|set_solver].
  apply (orderly_alive _ _ _ (l ++ G)); [|unfold roots; rewrite Hh, Hta; set_solver].
  apply (orderly_bare (nodes cl)); [apply Ht|apply Hl| |apply closed_empty| |].
  - intros n Hin. destruct (linked_member _ _ _ Hl Hin) as (nd & En & _). split_and!; [set_solver| |].
    + rewrite Hn, decide_True, En by done. by eexists.
    + unfold node_refs. by rewrite Hn, decide_True, En by done.
  - intros n Hin. rewrite Hn, decide_False; [done|]. by eapply tidy_dead.
  - intros n Hin. apply elem_of_dom in Hin. apply elem_of_dom. rewrite Hn in Hin. case_decide; [by apply fmap_is_Some in Hin|done].
Qed.

(** Without being taken apart, two or more nodes keep each other alive. *)
Lemma abandon_leaks cl l G : tidy cl l ∅ G → (2 <= length l)%nat → alive (abandon cl) [] = list_to_set l.
Proof.
  intros Ht H2. pose proof (td_linked _ _ _ _ Ht) as Hl. apply set_eq_subseteq. split.
  - pose proof (td_order _ _ _ _ Ht) as Ho. rewrite union_empty_r_L in Ho. eapply orderly_alive; [exact Ho|].
    unfold roots. cbn. set_solver.
  - apply held_alive.
    + intros n Hn. apply elem_of_list_to_set in Hn. destruct (linked_member _ _ _ Hl Hn) as (nd & E & _). by apply elem_of_dom_2 in E.
    + intros n Hn. right. apply elem_of_list_to_set, list_elem_of_split in Hn as (a & b & E).
      assert (Hnb : (∃ k y, a = k ++ [y]) ∨ (∃ y k, b = y :: k)).
      { destruct b as [|y b]; [left|right; by eexists _, _]. destruct a as [|x a] using rev_ind; [by rewrite E in H2; cbn in H2; lia|by eexists _, _]. }
      destruct Hnb as [(k & y & ->)|(y & k & ->)]; exists y; (split; [rewrite E; set_solver|]).
      * rewrite <- app_assoc in E. apply (node_refs_linked _ _ _ _ _ Hl E). by right.
      * assert (E' : l = (a ++ [n]) ++ y :: k) by (by rewrite <- app_assoc).
        apply (node_refs_linked _ _ _ _ _ Hl E'). left. by rewrite last_snoc.
Qed.

(** Assigning to a callback list releases what it held when the source is
    copied, and leaks it when the source is moved: move assignment overwrites [head]
    and [tail] without taking the nodes apart as the destructor does, and nodes that
    are neighbours keep each other alive for ever, callbacks included. *)
Theorem move_assign_leaks cl other l G : tidy cl l ∅ G → (2 <= length l)%nat →
  (∃ cl', destroy cl = Ok cl' ∧ alive cl' [] = ∅) ∧
  (let '(this, moved, lost) := assign_move cl other in
   this = other ∧ empty moved = true ∧ alive lost [] = list_to_set l).
Proof. intros Ht H2. split; [by eapply destroy_releases|]. split_and!; [done|done|by eapply abandon_leaks]. Qed.
End Copy.

Definition copy_sample : CallbackList Z := apply_ops [] [Append 10; Append 11; Prepend 12; Remove 1] new_CallbackList.

Lemma copy_sample_tidy : ∃ G, tidy copy_sample [2; 0]%nat ∅ G.
Proof. exact (h_tidy _ _ _ (holds_ops [Append 10; Append 11; Prepend 12; Remove 1] eq_refl)). Qed.

Lemma callback_list_copied_witness : ∃ copied,
  copy_CallbackList copy_sample = Ok copied ∧ assign_copy new_CallbackList copy_sample = Ok copied ∧
  tidy copied [0; 1]%nat ∅ [] ∧ currentCounter copied = 1 ∧ callbacks (nodes copied) [0; 1]%nat = [12; 10].
Proof.
  destruct copy_sample_tidy as (G & Ht).
  exact (callback_list_copied new_CallbackList copy_sample [2; 0]%nat (td_linked _ _ _ _ Ht)).
Defined.

Lemma move_assign_leaks_witness :
  (∃ cl', destroy copy_sample = Ok cl' ∧ alive cl' [] = ∅) ∧
  (let '(this, moved, lost) := assign_move copy_sample new_CallbackList in
   this = new_CallbackList ∧ empty moved = true ∧ alive lost [] = list_to_set [2; 0]%nat).
Proof.
  destruct copy_sample_tidy as (G & Ht).
  apply (move_assign_leaks copy_sample new_CallbackList [2; 0]%nat G Ht). cbn. lia.
Defined.
