(* ===== verification/EventDispatcher.v ===== *)
(** The event dispatcher of eventpp (src/Shared/code/eventpp/eventdispatcher.h) with
    its filter mixin (mixins/mixinfilter.h): a map from events to callback lists,
    and a list of filters that are asked before an event is dispatched.

    The nodes of all listeners live on one heap and a handle does not know its
    event, so the lists share their store: the list of an event is seen as a
    [CallbackList] over it.  The mutex of the map serialises the operations that may
    add an event to it; lists are never taken out of the map, so finding one and
    then working on it is one step. *)

From S2P Require Import Prelude CallbackList.

Section EventDispatcher.
Context {Event C F : Type} `{Countable Event}.

(** [head], [tail] and [currentCounter] of a list. *)
Record ends := mk_ends { list_head : option nat; list_tail : option nat; list_counter : Z }.

Record EventDispatcher := mk_EventDispatcher {
  eventCallbackListMap : gmap Event ends;
  heap : gmap nat (Node C);
  next_node : nat
}.

Definition new_EventDispatcher : EventDispatcher := mk_EventDispatcher ∅ ∅ 0.

(** [eventCallbackListMap[event]], and assignment to it. *)
Definition list_at (e : Event) (d : EventDispatcher) : CallbackList C :=
  let x := default (mk_ends None None 0) (eventCallbackListMap d !! e) in
  mk_CallbackList (list_head x) (list_tail x) (list_counter x) (heap d) (next_node d).

Definition put_list (e : Event) (cl : CallbackList C) (d : EventDispatcher) : EventDispatcher :=
  mk_EventDispatcher (<[e := mk_ends (head cl) (tail cl) (currentCounter cl)]> (eventCallbackListMap d))
    (nodes cl) (fresh cl).

(** The pointers the other lists hold. *)
Definition other_ends (e : Event) (d : EventDispatcher) : list nat :=
  flat_map (λ '(_, x), option_list (list_head x) ++ option_list (list_tail x))
    (map_to_list (delete e (eventCallbackListMap d))).

Definition doFindCallableList (e : Event) (d : EventDispatcher) : option (CallbackList C) :=
  match eventCallbackListMap d !! e with Some _ => Some (list_at e d) | None => None end.

Definition appendListener (e : Event) (c : C) (d : EventDispatcher) : nat * EventDispatcher :=
  let '(handle, cl) := append c (list_at e d) in (handle, put_list e cl d).
Definition prependListener (e : Event) (c : C) (d : EventDispatcher) : nat * EventDispatcher :=
  let '(handle, cl) := prepend c (list_at e d) in (handle, put_list e cl d).
Definition insertListener (pins : list nat) (e : Event) (c : C) (before : nat) (d : EventDispatcher) : nat * EventDispatcher :=
  let '(handle, cl) := insert (pins ++ other_ends e d) c before (list_at e d) in (handle, put_list e cl d).
Definition removeListener (pins : list nat) (e : Event) (handle : nat) (d : EventDispatcher) : bool * EventDispatcher :=
  match doFindCallableList e d with
  | Some cl => let '(removed, cl) := remove (pins ++ other_ends e d) handle cl in (removed, put_list e cl d)
  | None => (false, d)
  end.

(** The copy constructor copies the map, whose lists it goes through in the order of the
    events; here the order is that of [map_to_list]. *)
Fixpoint copy_lists (other : EventDispatcher) (lists : list (Event * ends)) (d : EventDispatcher) : outcome EventDispatcher :=
  match lists with
  | [] => Ok d
  | (e, _) :: lists => cl ← cloneFrom (list_at e other) (list_at e d); copy_lists other lists (put_list e cl d)
  end.

Definition copy_EventDispatcher (other : EventDispatcher) : outcome EventDispatcher :=
  copy_lists other (map_to_list (eventCallbackListMap other)) new_EventDispatcher.

(** The move constructor, which leaves an empty map, and [swap]. *)
Definition move_EventDispatcher (other : EventDispatcher) : EventDispatcher * EventDispatcher := (other, new_EventDispatcher).
Definition swap_EventDispatcher (d other : EventDispatcher) : EventDispatcher * EventDispatcher := (other, d).

(** [MixinFilter]: the dispatcher and the filters, whose nodes are of another type. *)
Record MixinFilter := mk_MixinFilter { base : EventDispatcher; filterList : CallbackList F }.

Definition new_MixinFilter : MixinFilter := mk_MixinFilter new_EventDispatcher new_CallbackList.

(** Its implicit copy constructor. *)
Definition copy_MixinFilter (other : MixinFilter) : outcome MixinFilter :=
  d ← copy_EventDispatcher (base other); filters ← copy_CallbackList (filterList other); Ok (mk_MixinFilter d filters).

Definition appendFilter (filter : F) (m : MixinFilter) : nat * MixinFilter :=
  let '(handle, cl) := append filter (filterList m) in (handle, mk_MixinFilter (base m) cl).
Definition removeFilter (pins : list nat) (handle : nat) (m : MixinFilter) : bool * MixinFilter :=
  let '(removed, cl) := remove pins handle (filterList m) in (removed, mk_MixinFilter (base m) cl).

(** *** Operations done while listeners or filters run *)

Inductive action :=
  | Listen (e : Event) (o : operation C)
  | AppendFilter (f : F)
  | RemoveFilter (handle : nat).

Definition listen (pins : list nat) (e : Event) (o : operation C) (d : EventDispatcher) : EventDispatcher :=
  match o with
  | Append c => snd (appendListener e c d)
  | Prepend c => snd (prependListener e c d)
  | Insert c before => snd (insertListener pins e c before d)
  | Remove handle => snd (removeListener pins e handle d)
  end.

(** [lpins] and [fpins] are the local pointers to nodes of listeners and filters. *)
Definition apply_action (lpins fpins : list nat) (a : action) (m : MixinFilter) : MixinFilter :=
  match a with
  | Listen e o => mk_MixinFilter (listen lpins e o (base m)) (filterList m)
  | AppendFilter f => snd (appendFilter f m)
  | RemoveFilter handle => snd (removeFilter fpins handle m)
  end.

Definition act_filters (pins : list nat) : action → MixinFilter → MixinFilter := apply_action [] pins.
Definition act_listeners (pins : list nat) : action → MixinFilter → MixinFilter := apply_action pins [].

(** [mixinBeforeDispatch]: what the filters did, and whether all agreed. *)
Definition mixinBeforeDispatch (fuel : nat) (script : list (list action * bool)) (m : MixinFilter)
  : outcome (list (event action) * bool * MixinFilter) :=
  if empty (filterList m) then Ok ([], true, m)
  else doForEachIf filterList act_filters fuel script m.

(** [doDispatch]: what the filters did, then what the listeners did. *)
Definition doDispatch (fuel : nat) (e : Event) (fscript lscript : list (list action * bool)) (m : MixinFilter)
  : outcome (list (event action) * list (event action) * MixinFilter) :=
  '(filtered, agreed, m) ← mixinBeforeDispatch fuel fscript m;
  if negb agreed then Ok (filtered, [], m)
  else
    match doFindCallableList e (base m) with
    | None => Ok (filtered, [], m)
    | Some _ =>
        '(called, _, m) ← doForEachIf (λ m, list_at e (base m)) act_listeners fuel lscript m;
        Ok (filtered, called, m)
    end.

(** [forEachIf] of the dispatcher, and [removeListener] of utilities/eventutil.h. *)
Definition dispatcher_forEachIf (fuel : nat) (e : Event) (script : list (list action * bool)) (m : MixinFilter)
  : outcome (list (event action) * bool * MixinFilter) :=
  match doFindCallableList e (base m) with
  | None => Ok ([], true, m)
  | Some _ => doForEachIf (λ m, list_at e (base m)) act_listeners fuel script m
  end.

End EventDispatcher.

Arguments ends : clear implicits.
Arguments EventDispatcher Event C {_ _}.
Arguments MixinFilter Event C F {_ _}.
Arguments action : clear implicits.
