(* ===== verification/EventDispatcherFacts.v ===== *)
(** The dispatcher keeps a list of listeners per event, and a dispatch asks the
    filters and then calls the listeners of its event, whatever both do to the
    dispatcher meanwhile.  The lists share a heap; a handle has to be used with the
    event it was given for, or the lists get entangled. *)

From S2P Require Import Prelude CallbackList CallbackHeap CallbackListFacts CallbackWalk EventDispatcher.

Section Facts.
Context {Event C F : Type} `{Countable Event}.
Implicit Types (d : EventDispatcher Event C) (e : Event) (o : operation C) (Ls : gmap Event (list nat)) (l : list nat)
  (R : gset nat) (G Qs : list nat) (n h : nat).

(** ** Lists per event *)

Definition lst Ls e : list nat := default [] (Ls !! e).
Definition members Ls : gset nat := list_to_set (concat (map snd (map_to_list Ls))).

Lemma elem_of_members Ls n : n ∈ members Ls ↔ ∃ e, n ∈ lst Ls e.
Proof.
  unfold members, lst. rewrite elem_of_list_to_set, list_elem_of_In, in_concat. split.
  - intros (l & Hl & Hn). apply in_map_iff in Hl as ([e l'] & <- & Hl). exists e.
    apply list_elem_of_In, elem_of_map_to_list in Hl. rewrite Hl. by apply list_elem_of_In.
  - intros (e & Hn). destruct (Ls !! e) as [l|] eqn:E; [|by apply not_elem_of_nil in Hn]. exists l.
    split; [|by apply list_elem_of_In]. apply in_map_iff. exists (e, l). split; [done|].
    by apply list_elem_of_In, elem_of_map_to_list.
Qed.

Lemma lst_insert Ls e e' l : lst (<[e := l]> Ls) e' = if decide (e = e') then l else lst Ls e'.
Proof. unfold lst. case_decide as D; [subst; by rewrite lookup_insert_eq|by rewrite lookup_insert_ne]. Qed.

Lemma lst_delete Ls e e' : lst (delete e Ls) e' = if decide (e = e') then [] else lst Ls e'.
Proof. unfold lst. case_decide as D; [subst; by rewrite lookup_delete_eq|by rewrite lookup_delete_ne]. Qed.

(** ** The heap of a dispatcher *)

(** Every event's list is linked, no node is in two of them, and [G] are the dead. *)
Record settled d Ls G : Prop := {
  se_linked e : linked (list_at e d) (lst Ls e);
  se_apart e e' n : n ∈ lst Ls e → n ∈ lst Ls e' → e = e';
  se_order : orderly (heap d) (members Ls) G
}.

Lemma settled_new : settled new_EventDispatcher ∅ [].
Proof. split; [intros e; apply linked_new|intros e e' n Hn; by apply not_elem_of_nil in Hn|]. split; [|done]. intros n x. set_solver. Qed.

Lemma settled_ext d Ls Ls' G : settled d Ls G → (∀ e, lst Ls' e = lst Ls e) → settled d Ls' G.
Proof.
  intros [Hl Ha Ho] E. split.
  - intros e. by rewrite E.
  - intros e e' n. rewrite !E. apply Ha.
  - replace (members Ls') with (members Ls); [done|]. apply set_eq. intros n. rewrite !elem_of_members. by setoid_rewrite E.
Qed.

(** The nodes of the other lists. *)
Definition strangers Ls e : gset nat := members (delete e Ls).

Lemma elem_of_strangers Ls e n : n ∈ strangers Ls e ↔ ∃ e', e ≠ e' ∧ n ∈ lst Ls e'.
Proof.
  unfold strangers. rewrite elem_of_members. split; intros (e' & Hn).
  - rewrite lst_delete in Hn. case_decide; [by apply not_elem_of_nil in Hn|by exists e'].
  - exists e'. rewrite lst_delete, decide_False; naive_solver.
Qed.

Lemma members_split Ls e : members Ls = list_to_set (lst Ls e) ∪ strangers Ls e.
Proof.
  apply set_eq. intros n. rewrite elem_of_union, elem_of_list_to_set, elem_of_strangers, elem_of_members. split.
  - intros (e' & Hn). destruct (decide (e = e')) as [->|]; [by left|right; by exists e'].
  - intros [Hn|(e' & _ & Hn)]; by eexists.
Qed.

Lemma strangers_closed d Ls G e : settled d Ls G → closed (heap d) (strangers Ls e).
Proof.
  intros Hs n x Hn Hx. apply elem_of_strangers in Hn as (e' & Hne & Hn). apply elem_of_strangers. exists e'.
  split; [done|]. by apply (members_refs _ _ n x (se_linked _ _ _ Hs e')).
Qed.

Lemma settled_tidy d Ls G e : settled d Ls G → tidy (list_at e d) (lst Ls e) (strangers Ls e) G.
Proof.
  intros Hs. split; [by apply Hs| | |].
  - intros n Hn Hl. apply elem_of_strangers in Hn as (e' & Hne & Hn). by apply Hne, (se_apart _ _ _ Hs e e' n).
  - intros n Hn. apply elem_of_strangers in Hn as (e' & _ & Hn).
    destruct (linked_member _ _ _ (se_linked _ _ _ Hs e') Hn) as (nd & E & _). by eexists.
  - rewrite <- members_split. apply Hs.
Qed.

(** The pointers that the other lists hold are to their members. *)
Lemma other_ends_strangers d Ls G e n : settled d Ls G → n ∈ other_ends e d → n ∈ strangers Ls e.
Proof.
  intros Hs Hn. unfold other_ends in Hn. apply list_elem_of_In, in_flat_map in Hn as ([e' x] & Hin & Hn).
  apply list_elem_of_In, elem_of_map_to_list, lookup_delete_Some in Hin as [Hne Ex]. apply elem_of_strangers. exists e'.
  split; [done|]. pose proof (se_linked _ _ _ Hs e') as Hl. pose proof (lk_head _ _ Hl) as Eh. pose proof (lk_tail _ _ Hl) as Et.
  unfold list_at in Eh, Et. rewrite Ex in Eh, Et. cbn in Eh, Et.
  apply list_elem_of_In, elem_of_app in Hn. rewrite !elem_of_option_list, Eh, Et in Hn.
  destruct Hn as [E|E]; [apply hd_error_elem in E as (k & ->)|apply last_elem in E as (k & ->)]; set_solver.
Qed.

(** ** One operation *)

(** The lists seen after one of them has been put back. *)
Lemma list_at_put e e' cl d : list_at e' (put_list e cl d) =
  if decide (e = e') then cl
  else mk_CallbackList (head (list_at e' d)) (tail (list_at e' d)) (currentCounter (list_at e' d)) (nodes cl) (fresh cl).
Proof.
  unfold list_at, put_list. cbn. case_decide as D; [subst; rewrite lookup_insert_eq; by destruct cl|].
  by rewrite lookup_insert_ne.
Qed.

Lemma listen_put pins e o d :
  listen pins e o d = put_list e (apply_op (pins ++ other_ends e d) o (list_at e d)) d ∨
  (eventCallbackListMap d !! e = None ∧ (∃ h, o = Remove h) ∧ listen pins e o d = d).
Proof.
  destruct o as [c|c|c h|h]; cbn [listen apply_op].
  - left. unfold appendListener. by destruct (append c (list_at e d)).
  - left. unfold prependListener. by destruct (prepend c (list_at e d)).
  - left. unfold insertListener. by destruct (insert (pins ++ other_ends e d) c h (list_at e d)).
  - unfold removeListener, doFindCallableList. destruct (eventCallbackListMap d !! e) eqn:E.
    + left. by destruct (remove (pins ++ other_ends e d) h (list_at e d)).
    + right. split_and!; [done|by eexists|done].
Qed.

Lemma effect_same (cl : CallbackList C) l oc cl' l' m : effect cl l oc cl' l' → m ∉ l → m ≠ fresh cl → nodes cl' !! m = nodes cl !! m.
Proof. intros [cl2 a b c -> Hp|cl2 a n b -> Hk|] Hm Hf; [by eapply put_stranger|by eapply taken_stranger|done]. Qed.

Lemma effect_gone (cl : CallbackList C) l oc cl' l' m : linked cl l → effect cl l oc cl' l' → m ∈ l → m ∉ l' →
  ∃ nd, nodes cl' !! m = Some nd ∧ counter nd = removedCounter.
Proof.
  intros Hl [cl2 a b c -> Hp|cl2 a n b -> Hk|] Hm Hm'; [set_solver| |done].
  assert (m = n) as -> by set_solver. destruct (linked_member _ _ _ Hl Hm) as (nd & E & _).
  rewrite (tk_node _ _ _ _ _ Hk), E. by eexists.
Qed.

Lemma effect_fresh (cl : CallbackList C) l oc cl' l' : effect cl l oc cl' l' → (fresh cl <= fresh cl')%nat.
Proof.
  intros [cl2 a b c -> Hp|cl2 a n b -> Hk|]; [|by rewrite (tk_fresh _ _ _ _ _ Hk)|done].
  destruct (put_fresh _ _ _ _ _ _ Hp). lia.
Qed.

(** What is done on the list of [e] is foreign to the others. *)
Lemma effect_foreign d Ls e e' Qs G oc cl' l' : settled d Ls (Qs ++ G) → e ≠ e' →
  effect (list_at e d) (lst Ls e) oc cl' l' → linked cl' l' →
  foreign (list_at e' d) (list_at e' (put_list e cl' d)) (lst Ls e') (list_to_set Qs) (gone (list_to_set Qs) (lst Ls e) l').
Proof.
  intros Hs Hne He Hl'. pose proof (se_linked _ _ _ Hs e) as Hl. pose proof (settled_tidy _ _ _ e Hs) as Ht.
  assert (Hsame : ∀ m, m ∈ lst Ls e' ∨ m ∈ Qs → nodes cl' !! m = nodes (list_at e d) !! m).
  { intros m Hm. eapply effect_same; [done| |].
    - destruct Hm as [Hm|Hm]; [intros Hm'; by apply Hne, (se_apart _ _ _ Hs e e' m)|eapply tidy_dead; [done|set_solver]].
    - eapply not_fresh; [done|]. destruct Hm as [Hm|Hm].
      + destruct (linked_member _ _ _ (se_linked _ _ _ Hs e') Hm) as (nd & E & _). by eexists.
      + eapply tidy_dead; [exact Ht|set_solver]. }
  rewrite list_at_put, decide_False by done. split; cbn [head tail currentCounter nodes fresh].
  - done.
  - intros m Hm. apply Hsame. set_solver.
  - apply Hl'.
  - by apply effect_fresh in He.
  - unfold gone. intros m Hm. apply elem_of_union in Hm as [Hm|Hm]; [by left|right].
    apply elem_of_difference in Hm as [Hm1 Hm2]. rewrite elem_of_list_to_set in Hm1. rewrite elem_of_list_to_set in Hm2.
    split; [intros Hm'; by apply Hne, (se_apart _ _ _ Hs e e' m)|by eapply effect_gone].
  - unfold gone. set_solver.
Qed.

Lemma foreign_refl (cl : CallbackList C) l k Q : linked cl k → foreign cl cl l Q Q.
Proof. intros Hl. split; try done; [apply Hl|by left]. Qed.

(** What an operation leaves. *)
Record listened pins e o d Ls Qs G (l' : list nat) : Prop := {
  li_effect : effect (list_at e d) (lst Ls e) (callback_of o) (list_at e (listen pins e o d)) l';
  li_settled : ∃ N, settled (listen pins e o d) (<[e := l']> Ls) (N ++ Qs ++ G) ∧
                    list_to_set N = (list_to_set (lst Ls e) ∖ list_to_set l' : gset nat);
  li_next : next_node (listen pins e o d) = (allocates o + next_node d)%nat;
  li_others e' : e ≠ e' → foreign (list_at e' d) (list_at e' (listen pins e o d)) (lst Ls e')
                            (list_to_set Qs) (gone (list_to_set Qs) (lst Ls e) l')
}.

Lemma settled_put d Ls D e cl' l' D' : settled d Ls D → tidy cl' l' (strangers Ls e) D' →
  (∀ e', e ≠ e' → ∃ Q Q', foreign (list_at e' d) (list_at e' (put_list e cl' d)) (lst Ls e') Q Q') →
  settled (put_list e cl' d) (<[e := l']> Ls) D'.
Proof.
  intros Hs Ht Hf. pose proof (td_apart _ _ _ _ Ht) as Ha.
  assert (Hout : ∀ e' n, e ≠ e' → n ∈ lst Ls e' → n ∉ l') by (intros e' n Hne Hn; apply Ha, elem_of_strangers; by exists e').
  split.
  - intros e'. rewrite lst_insert. destruct (decide (e = e')) as [->|Hne].
    + rewrite list_at_put, decide_True by done. apply Ht.
    + destruct (Hf e' Hne) as (Q & Q' & Hfo). eapply linked_foreign; [apply Hs|exact Hfo].
  - intros e1 e2 n. rewrite !lst_insert. repeat case_decide; subst; try done; [intros ? ?; exfalso; by eapply Hout..|by apply Hs].
  - cbn [put_list heap]. pose proof (td_order _ _ _ _ Ht) as Ho.
    replace (members (<[e:=l']> Ls)) with (list_to_set l' ∪ strangers Ls e); [done|].
    rewrite (members_split _ e), lst_insert, decide_True by done. f_equal. unfold strangers. by rewrite delete_insert_eq.
Qed.

Lemma listen_settled pins e o d Ls Qs G : settled d Ls (Qs ++ G) → room (list_at e d) 1 →
  (∀ n, n ∈ pins → n ∈ members Ls ∨ n ∈ Qs) → (∀ h, handle_of o = Some h → h ∉ strangers Ls e ∧ h ∉ Qs) →
  listened pins e o d Ls Qs G (list_op (next_node d) o (lst Ls e)).
Proof.
  intros Hs Hr Hp Hh. pose proof (settled_tidy _ _ _ e Hs) as Ht. pose proof (se_linked _ _ _ Hs e) as Hl.
  destruct (listen_put pins e o d) as [E|(Ex & (h & ->) & E)].
  - destruct (op_tidy (pins ++ other_ends e d) o (list_at e d) (lst Ls e) (strangers Ls e) Qs G Ht)
      as (He & N & Ht' & EN); [by eapply strangers_closed|done| |done|].
    { intros n Hn. apply elem_of_app in Hn as [Hn|Hn].
      - destruct (Hp n Hn) as [Hm|]; [|tauto]. rewrite (members_split _ e) in Hm. set_solver.
      - right. left. by eapply other_ends_strangers. }
    change (fresh (list_at e d)) with (next_node d) in *. pose proof (linked_effect _ _ _ _ _ Hl He) as Hl'.
    pose proof (op_fresh (pins ++ other_ends e d) o _ _ Hl Hr) as Ef.
    split; rewrite E.
    + by rewrite list_at_put, decide_True.
    + exists N. split; [|done]. apply (settled_put _ _ _ _ _ _ _ Hs Ht'). intros e' Hne. eexists _, _. by eapply effect_foreign.
    + exact Ef.
    + intros e' Hne. by eapply effect_foreign.
  - assert (El : lst Ls e = []).
    { pose proof (lk_head _ _ Hl) as Eh. unfold list_at in Eh. rewrite Ex in Eh. cbn in Eh. by destruct (lst Ls e). }
    rewrite El. cbn [list_op filter]. split; rewrite E, ?El.
    + constructor.
    + exists []. split; [|done]. eapply settled_ext; [exact Hs|]. intros e'. rewrite lst_insert. case_decide; by subst.
    + done.
    + intros e' Hne. rewrite gone_same by done. eapply foreign_refl, Hs.
Qed.

Lemma listened_counter pins e o d Ls Qs G l' e' : listened pins e o d Ls Qs G l' →
  currentCounter (list_at e' (listen pins e o d)) <= currentCounter (list_at e' d) + 1.
Proof.
  intros Hli. destruct (decide (e = e')) as [<-|Hne].
  - pose proof (effect_counter _ _ _ _ _ (li_effect _ _ _ _ _ _ _ _ Hli)). lia.
  - destruct (fo_ends _ _ _ _ _ (li_others _ _ _ _ _ _ _ _ Hli e' Hne)) as (_ & _ & ->). lia.
Qed.

(** ** The dispatcher as a map of lists *)

Definition map_op (s : nat * gmap Event (list nat)) (eo : Event * operation C) : nat * gmap Event (list nat) :=
  ((allocates eo.2 + s.1)%nat, <[eo.1 := list_op s.1 eo.2 (lst s.2 eo.1)]> s.2).

(** The handle is not one of another event's listener. *)
Definition own_handle Ls e (o : operation C) : bool :=
  match handle_of o with Some h => bool_decide (h ∉ strangers Ls e) | None => true end.

Fixpoint own_handles (s : nat * gmap Event (list nat)) (ops : list (Event * operation C)) : bool :=
  match ops with
  | [] => true
  | eo :: ops => own_handle s.2 eo.1 eo.2 && own_handles (map_op s eo) ops
  end.

Definition listens (ops : list (Event * operation C)) d : EventDispatcher Event C :=
  fold_left (λ d '(e, o), listen [] e o d) ops d.

(** The account of a dispatcher on which [n] operations have been done. *)
Record accounts (done : list (operation C)) d (s : nat * gmap Event (list nat)) : Prop := {
  ac_settled : ∃ G, settled d s.2 G;
  ac_next : next_node d = s.1;
  ac_count : length (registered done) = s.1;
  ac_room e : currentCounter (list_at e d) <= Z.of_nat (length done);
  ac_callback n : callback <$> heap d !! n = registered done !! n
}.

Lemma accounts_step done d s e o : Z.of_nat (length done) + 1 < 2 ^ 64 → accounts done d s → own_handle s.2 e o = true →
  accounts (done ++ [o]) (listen [] e o d) (map_op s (e, o)).
Proof.
  intros Hlen [(G & Hs) Hn Hc Hr Hcb] Hown.
  assert (Hli : listened [] e o d s.2 [] G (list_op (next_node d) o (lst s.2 e))).
  { apply listen_settled; [done|specialize (Hr e); unfold room; lia|set_solver|].
    intros h E. unfold own_handle in Hown. rewrite E in Hown. apply bool_decide_eq_true in Hown. split; [done|set_solver]. }
  pose proof (li_effect _ _ _ _ _ _ _ _ Hli) as He. rewrite Hn in *.
  split; rewrite ?registered_snoc, ?length_app, ?Nat2Z.inj_add; cbn [map_op fst snd].
  - destruct (li_settled _ _ _ _ _ _ _ _ Hli) as (N & Hs' & _). by exists (N ++ G).
  - by rewrite (li_next _ _ _ _ _ _ _ _ Hli), Hn.
  - rewrite Hc. destruct o; cbn; lia.
  - intros e'. pose proof (listened_counter _ _ _ _ _ _ _ _ e' Hli). specialize (Hr e'). change (Z.of_nat (length [o])) with 1. lia.
  - intros n. pose proof (effect_callback _ _ _ _ _ n (se_linked _ _ _ Hs e) He) as Ecb.
    change (nodes (list_at e (listen [] e o d))) with (heap (listen [] e o d)) in Ecb.
    change (nodes (list_at e d)) with (heap d) in Ecb. change (fresh (list_at e d)) with (next_node d) in Ecb.
    rewrite Ecb, Hcb, Hn. clear Ecb. case_decide as D.
    + rewrite lookup_app_r, Hc, D, Nat.sub_diag by lia. by destruct (callback_of o).
    + destruct (decide (n < s.1)%nat); [by rewrite lookup_app_l by lia|].
      rewrite !lookup_ge_None_2; [done|rewrite length_app; destruct (callback_of o); cbn; lia|lia].
Qed.

Lemma accounts_listens done ops d s : Z.of_nat (length done + length ops) < 2 ^ 64 → accounts done d s →
  own_handles s ops = true → accounts (done ++ map snd ops) (listens ops d) (fold_left map_op ops s).
Proof.
  revert done d s. induction ops as [|[e o] ops IH]; intros done d s Hlen Ha Ho; [by rewrite app_nil_r|].
  cbn [own_handles fst snd length] in Ho, Hlen. apply andb_true_iff in Ho as [Ho1 Ho2]. cbn [map snd listens fold_left].
  replace (done ++ o :: map snd ops) with ((done ++ [o]) ++ map snd ops) by (by rewrite <- app_assoc).
  apply (IH (done ++ [o])); [rewrite length_app; cbn; lia|apply accounts_step; [lia|done|done]|done].
Qed.

(** C12: a dispatcher is a map from events to lists of listeners.  Whatever is
    registered, inserted and removed, with handles that are not of another event's
    listener, each event has exactly the list its own operations make, and each
    listener the callback it was given; [removeListener] answers whether the handle
    was in the event's list. *)
Theorem dispatcher_refines (ops : list (Event * operation C)) :
  Z.of_nat (length ops) < 2 ^ 64 → own_handles (0%nat, ∅) ops = true →
  let d := listens ops new_EventDispatcher in
  let s := fold_left map_op ops (0%nat, ∅) in
  (∀ e, linked (list_at e d) (lst s.2 e)) ∧ next_node d = s.1 ∧
  (∀ n, callback <$> heap d !! n = registered (map snd ops) !! n) ∧
  (∀ e h, own_handle s.2 e (Remove h) = true → (removeListener [] e h d).1 = bool_decide (h ∈ lst s.2 e)).
Proof.
  intros Hlen Ho d s. destruct (accounts_listens [] ops new_EventDispatcher (0%nat, ∅)) as [(G & Hs) Hn _ _ Hcb]; [done| |done|].
  { by split; [exists []; apply settled_new|..]. }
  fold d s in Hs, Hn, Hcb. split_and!; [apply Hs|done|done|]. intros e h Hown. unfold own_handle in Hown. cbn in Hown.
  apply bool_decide_eq_true in Hown. unfold removeListener, doFindCallableList.
  destruct (eventCallbackListMap d !! e) eqn:Ex.
  - unfold remove. rewrite (lock_tidy (list_at e d) (lst s.2 e) (strangers s.2 e) [] G);
      [by destruct (bool_decide _)|by apply settled_tidy| |done|set_solver].
    cbn [app]. intros n Hn'. right. left. by eapply other_ends_strangers.
  - symmetry. apply bool_decide_eq_false. pose proof (lk_head _ _ (se_linked _ _ _ Hs e)) as Eh.
    unfold list_at in Eh. rewrite Ex in Eh. cbn in Eh. destruct (lst s.2 e); [set_solver|done].
Qed.
End Facts.

Definition refine_sample : list (Z * operation Z) := [(1, Append 10); (2, Append 20); (1, Insert 11 0); (2, Remove 1); (1, Prepend 12)].

Lemma dispatcher_refines_witness :
  let d := listens refine_sample new_EventDispatcher in
  let s := fold_left map_op refine_sample (0%nat, ∅) in
  (∀ e, linked (list_at e d) (lst s.2 e)) ∧ next_node d = 4%nat ∧
  (∀ n, callback <$> heap d !! n = [10; 20; 11; 12] !! n) ∧
  (∀ e h, own_handle s.2 e (Remove (C := Z) h) = true → (removeListener [] e h d).1 = bool_decide (h ∈ lst s.2 e)).
Proof. exact (dispatcher_refines refine_sample eq_refl eq_refl). Defined.

(** With the handle of another event's first listener the new listener is linked in
    front of that list's head, where no walk finds it, and its own event has none. *)
Example foreign_handle_entangles :
  let d := snd (insertListener [] 2 99 0 (snd (appendListener 1 10 (new_EventDispatcher (Event := Z) (C := Z))))) in
  empty (list_at 2 d) = true ∧ previous_of (list_at 1 d) 0 = Some 1%nat ∧ head (list_at 1 d) = Some 0%nat.
Proof. by vm_compute. Qed.
