(* ===== verification/DispatcherCopy.v ===== *)
(** Copying a dispatcher: the copy has for every event a list of new nodes with the
    callbacks of the original, which no handle of the original reaches. *)

From S2P Require Import Prelude CallbackList CallbackHeap CallbackListFacts CallbackCopy EventDispatcher EventDispatcherFacts.

Section Copy.
Context {Event C F : Type} `{Countable Event}.
Implicit Types (d other : EventDispatcher Event C) (e : Event) (Ls : gmap Event (list nat)) (l : list nat) (cl : CallbackList C).

(** A list whose nodes are where they were on a heap that has grown. *)
Lemma linked_grown cl l (m : gmap nat (Node C)) k : linked cl l → (∀ n, n ∈ l → m !! n = nodes cl !! n) → (∀ n, is_Some (m !! n) → (n < k)%nat) →
  linked (mk_CallbackList (head cl) (tail cl) (currentCounter cl) m k) l.
Proof.
  intros Hl Hs Hk. split; cbn; try apply Hl; [|done]. intros a n b E. destruct (lk_node _ _ Hl a n b E) as (nd & En & Hnd).
  exists nd. split; [|done]. rewrite Hs by (rewrite E; set_solver). done.
Qed.

(** The copy so far: the lists [Ls] are its lists, and all its nodes are in them. *)
Record copied_so_far other (Lo : gmap Event (list nat)) d Ls : Prop := {
  cs_settled : settled d Ls [];
  cs_map e : is_Some (eventCallbackListMap d !! e) ↔ is_Some (Ls !! e);
  cs_same e l : Ls !! e = Some l → length l = length (lst Lo e) ∧ callbacks (heap d) l = callbacks (heap other) (lst Lo e);
  cs_bound n : is_Some (heap d !! n) → (n < next_node d)%nat
}.

Lemma list_at_none d e : eventCallbackListMap d !! e = None → list_at e d = mk_CallbackList None None 0 (heap d) (next_node d).
Proof. intros E. unfold list_at. by rewrite E. Qed.

Lemma settled_dom d Ls n : settled d Ls [] → is_Some (heap d !! n) → n ∈ members Ls.
Proof. intros Hs Hn. destruct (se_order _ _ _ Hs) as [_ Hd]. apply Hd. by apply elem_of_dom. Qed.

Lemma settled_lists d Ls :
  (∀ e, linked (list_at e d) (lst Ls e)) → (∀ e e' n, n ∈ lst Ls e → n ∈ lst Ls e' → e = e') → (∀ n, is_Some (heap d !! n) → n ∈ members Ls) → settled d Ls [].
Proof.
  intros Hl Ha Hd. split; [done|done|]. split; [|intros n Hn; by apply Hd, elem_of_dom].
  intros n x Hn Hx. apply elem_of_members in Hn as (e & Hn). apply elem_of_members. exists e.
  by apply (members_refs _ _ n x (Hl e)).
Qed.

(** One list. *)
Lemma copy_list other Lo G d Ls e : settled other Lo G → copied_so_far other Lo d Ls → Ls !! e = None →
  ∃ cl, cloneFrom (list_at e other) (list_at e d) = Ok cl ∧
    copied_so_far other Lo (put_list e cl d) (<[e := seq (next_node d) (length (lst Lo e))]> Ls).
Proof.
  intros Ho [Hs Hmap Hsame Hb] Hnew. assert (Hl : linked (list_at e other) (lst Lo e)) by apply Ho.
  assert (Hnone : eventCallbackListMap d !! e = None).
  { apply eq_None_not_Some. intros [l El]%Hmap. congruence. }
  rewrite (list_at_none _ _ Hnone). destruct (cloneFrom_made (next_node d) (heap d) Hb (list_at e other) _ Hl) as (cl & E & Hlc & _ & Hf & Hold & Hdom & Hcs).
  set (new := seq (next_node d) (length (lst Lo e))) in *. exists cl. split; [exact E|].
  assert (Hin : ∀ e' n, n ∈ lst Ls e' → (n < next_node d)%nat).
  { intros e' n Hn. apply Hb. destruct (linked_member _ _ _ (se_linked _ _ _ Hs e') Hn) as (nd & En & _). by eexists. }
  assert (Hfresh : ∀ e' n, n ∈ lst Ls e' → n ∉ new) by (intros e' n Hn%Hin Hn'%elem_of_seq; lia).
  assert (Hlst : ∀ e', lst (<[e := new]> Ls) e' = if decide (e = e') then new else lst Ls e') by (intros; apply lst_insert).
  split.
  - apply settled_lists.
    + intros e'. rewrite Hlst, list_at_put. case_decide as D; [exact Hlc|]. apply linked_grown; [apply Hs|intros n Hn; by apply Hold, (Hin e')|apply Hlc].
    + intros e1 e2 n. rewrite !Hlst. repeat case_decide; subst; try done; [intros ? Hn; by apply Hfresh in Hn|intros Hn; by apply Hfresh in Hn|apply Hs].
    + intros n Hn. apply elem_of_members. cbn in Hn. destruct (Hdom n Hn) as [Hm|Hm].
      * apply (settled_dom _ _ _ Hs), elem_of_members in Hm as (e' & Hm). exists e'. rewrite Hlst. case_decide as D; [subst e'|done].
        unfold lst in Hm. rewrite Hnew in Hm. by apply not_elem_of_nil in Hm.
      * exists e. rewrite Hlst. by case_decide.
  - intros e'. cbn. destruct (decide (e = e')) as [->|D]; [by rewrite !lookup_insert_eq|]. rewrite !lookup_insert_ne by done. apply Hmap.
  - intros e' l El. cbn. destruct (decide (e = e')) as [<-|D].
    + rewrite lookup_insert_eq in El. injection El as <-. split; [by unfold new; rewrite length_seq|exact Hcs].
    + rewrite lookup_insert_ne in El by done. destruct (Hsame e' l El) as [Elen Ec]. split; [done|]. rewrite <- Ec. apply callbacks_same.
      intros n Hn. apply Hold, (Hin e'). unfold lst. by rewrite El.
  - cbn. apply Hlc.
Qed.

Lemma copy_lists_spec other Lo G lists : settled other Lo G → NoDup lists.*1 → ∀ d Ls, copied_so_far other Lo d Ls →
  (∀ e, e ∈ lists.*1 → Ls !! e = None) →
  ∃ d' Ls', copy_lists other lists d = Ok d' ∧ copied_so_far other Lo d' Ls' ∧ ∀ e, is_Some (Ls' !! e) ↔ is_Some (Ls !! e) ∨ e ∈ lists.*1.
Proof.
  intros Ho. induction lists as [|[e x] lists IH]; cbn [copy_lists fmap list_fmap fst]; intros Hnd d Ls Hc Hnew.
  - exists d, Ls. split; [done|]. split; [done|]. set_solver.
  - apply NoDup_cons in Hnd as [He Hnd]. destruct (copy_list other Lo G d Ls e) as (cl & -> & Hc'); [done|done|apply Hnew; set_solver|].
    cbn [mbind outcome_bind]. destruct (IH Hnd _ _ Hc') as (d' & Ls' & E & Hc'' & Hd).
    { intros e' He'. rewrite lookup_insert_ne by (intros <-; done). apply Hnew. set_solver. }
    exists d', Ls'. split; [exact E|]. split; [exact Hc''|]. intros e'. rewrite Hd. destruct (decide (e = e')) as [->|D].
    + rewrite lookup_insert_eq. set_solver.
    + rewrite lookup_insert_ne by done. set_solver.
Qed.

(** A copy of a dispatcher is a dispatcher of its own: it has lists for the same events,
    with new nodes that carry the callbacks of the original in order (removed listeners
    that are still alive are not copied), and it is in order like one that has been built
    by registering listeners.  Moving passes everything on and leaves an empty
    dispatcher; a copy with filters has copies of them. *)
Theorem dispatcher_copied other (Lo : gmap Event (list nat)) G : settled other Lo G →
  ∃ d Ls, copy_EventDispatcher other = Ok d ∧ settled d Ls [] ∧
    (∀ e, is_Some (eventCallbackListMap d !! e) ↔ is_Some (eventCallbackListMap other !! e)) ∧
    (∀ e, callbacks (heap d) (lst Ls e) = callbacks (heap other) (lst Lo e)) ∧
    (∀ (filters : CallbackList F) l, linked filters l → ∃ copied, copy_MixinFilter (mk_MixinFilter other filters) = Ok (mk_MixinFilter d copied) ∧
       tidy copied (seq 0 (length l)) ∅ [] ∧ callbacks (nodes copied) (seq 0 (length l)) = callbacks (nodes filters) l) ∧
    move_EventDispatcher other = (other, new_EventDispatcher) ∧ settled (new_EventDispatcher (Event := Event) (C := C)) ∅ [].
Proof.
  intros Ho. assert (Hc0 : copied_so_far other Lo new_EventDispatcher ∅).
  { split; [apply settled_new|intros e; cbn; rewrite !lookup_empty; split; by intros [? ?]|intros e l El; by rewrite lookup_empty in El|]. intros n [nd En]. cbn in En. by rewrite lookup_empty in En. }
  destruct (copy_lists_spec other Lo G (map_to_list (eventCallbackListMap other)) Ho) with (d := new_EventDispatcher (Event := Event) (C := C)) (Ls := ∅ : gmap Event (list nat))
    as (d & Ls & E & [Hs Hmap Hsame _] & Hd); [apply NoDup_fst_map_to_list|done|done|].
  assert (Hdom : ∀ e, is_Some (Ls !! e) ↔ is_Some (eventCallbackListMap other !! e)).
  { intros e. rewrite Hd. rewrite lookup_empty. split.
    - intros [[? ?]|He]; [done|]. apply list_elem_of_fmap in He as ([e' x] & -> & Hin). apply elem_of_map_to_list in Hin. by eexists.
    - intros [x Ex]. right. apply list_elem_of_fmap. exists (e, x). split; [done|]. by apply elem_of_map_to_list. }
  change (copy_EventDispatcher other = Ok d) in E. exists d, Ls. split; [exact E|]. split; [done|]. split; [intros e; by rewrite Hmap, Hdom|]. split.
  - intros e. destruct (Ls !! e) as [l|] eqn:El; [unfold lst at 1; rewrite El; by apply Hsame|].
    assert (Enone : eventCallbackListMap other !! e = None) by (apply eq_None_not_Some; intros [l' El']%Hdom; congruence).
    pose proof (lk_head _ _ (se_linked _ _ _ Ho e)) as Eh. rewrite (list_at_none _ _ Enone) in Eh. cbn in Eh. unfold lst at 1. rewrite El. by destruct (lst Lo e).
  - split; [|split; [done|apply settled_new]]. intros filters l Hl. destruct (callback_list_copied filters filters l Hl) as (copied & Ec & _ & Ht & _ & Ecs).
    exists copied. split; [|done]. unfold copy_MixinFilter. cbn [base filterList]. rewrite E. cbn [mbind outcome_bind]. by rewrite Ec.
Qed.
End Copy.
