(* ===== verification/DispatchFacts.v ===== *)
(** A dispatch: the filters are asked in order, and when all agree the listeners of
    the event are called in order, while filters and listeners add and remove
    listeners of any event and filters. *)

From S2P Require Import Prelude CallbackList CallbackHeap CallbackListFacts CallbackWalk EventDispatcher EventDispatcherFacts.

Section Dispatch.
Context {Event C F : Type} `{Countable Event}.
Implicit Types (m : MixinFilter Event C F) (e : Event) (a : action Event C F) (l fl : list nat) (R Q : gset nat)
  (s : nat * gmap Event (list nat)) (G Gf Qs Qf : list nat) (n h : nat).

(** ** What actions are to the two walks *)

Definition filter_op a : option (operation F) :=
  match a with Listen _ _ => None | AppendFilter f => Some (Append f) | RemoveFilter h => Some (Remove h) end.

Definition filter_kind a : option (bool * operation F) := (λ o, (true, o)) <$> filter_op a.

Definition listener_kind e a : option (bool * operation C) :=
  match a with Listen e' o => Some (bool_decide (e' = e), o) | _ => None end.

Definition map_action s a : nat * gmap Event (list nat) :=
  match a with Listen e o => map_op s (e, o) | _ => s end.

(** The handles the actions use: those of listeners belong to the event they are
    used with, and of what is walked none is used again after its removal. *)
Definition not_stale {X} R (o : operation X) : bool :=
  match handle_of o with Some h => bool_decide (h ∉ R) | None => true end.

Definition proper_action (listeners : bool) R s a : bool :=
  match a with
  | Listen e o => own_handle s.2 e o && (negb listeners || not_stale R o)
  | AppendFilter _ => true
  | RemoveFilter h => listeners || bool_decide (h ∉ R)
  end.

Definition retire_action (listeners : bool) a R : gset nat :=
  match a with
  | Listen _ o => if listeners then retire o R else R
  | RemoveFilter h => if listeners then R else {[h]} ∪ R
  | _ => R
  end.

Fixpoint proper (listeners : bool) R s (ops : list (action Event C F)) : bool :=
  match ops with
  | [] => true
  | a :: ops => proper_action listeners R s a && proper listeners (retire_action listeners a R) (map_action s a) ops
  end.

(** ** The state between two actions *)

(** There is room for [k] more. *)
Record governed (k : Z) m s G fl Gf : Prop := {
  gv_settled : settled (base m) s.2 G;
  gv_next : next_node (base m) = s.1;
  gv_room e : room (list_at e (base m)) k;
  gv_filters : tidy (filterList m) fl ∅ Gf;
  gv_froom : room (filterList m) k
}.

Lemma governed_new : governed (2 ^ 64 - 1) (new_MixinFilter (Event := Event) (C := C) (F := F)) (0%nat, ∅) [] [] [].
Proof. split; [apply settled_new|done|done|apply tidy_new|done]. Qed.

Lemma room_le {X} (cl cl' : CallbackList X) k : 0 <= k → room cl (k + 1) → currentCounter cl' <= currentCounter cl + 1 → room cl' k.
Proof. unfold room. lia. Qed.

Lemma room_less {X} (cl : CallbackList X) k j : room cl k → j <= k → room cl j.
Proof. unfold room. lia. Qed.

Lemma governed_listen k m s Qs G fl Gf lpins fpins e o : 0 <= k → governed (k + 1) m s (Qs ++ G) fl Gf →
  (∀ n, n ∈ lpins → n ∈ members s.2 ∨ n ∈ Qs) → own_handle s.2 e o = true →
  (∀ h, handle_of o = Some h → h ∉ Qs) →
  listened lpins e o (base m) s.2 Qs G (list_op s.1 o (lst s.2 e)) ∧
  ∃ N, governed k (apply_action lpins fpins (Listen e o) m) (map_op s (e, o)) (N ++ Qs ++ G) fl Gf ∧
    list_to_set N = (list_to_set (lst s.2 e) ∖ list_to_set (list_op s.1 o (lst s.2 e)) : gset nat).
Proof.
  intros Hk [Hs Hn Hr Ht Hfr] Hp Hown Hh.
  assert (Hli : listened lpins e o (base m) s.2 Qs G (list_op s.1 o (lst s.2 e))).
  { rewrite <- Hn. apply listen_settled; [done|eapply room_less; [apply Hr|lia]|done|].
    intros h E. unfold own_handle in Hown. rewrite E in Hown. apply bool_decide_eq_true in Hown. split; [done|by apply Hh]. }
  split; [done|]. destruct (li_settled _ _ _ _ _ _ _ _ Hli) as (N & Hs' & EN). exists N. split; [|done].
  split; cbn [apply_action base filterList map_op fst snd]; [exact Hs'| | |done|eapply room_less; [exact Hfr|lia]].
  - by rewrite (li_next _ _ _ _ _ _ _ _ Hli), Hn.
  - intros e'. apply (room_le (list_at e' (base m))); [done|apply Hr|]. by eapply listened_counter.
Qed.

Lemma apply_filter lpins fpins a o m : filter_op a = Some o →
  apply_action lpins fpins a m = mk_MixinFilter (base m) (apply_op fpins o (filterList m)).
Proof.
  destruct a as [e o'|f|h]; intros [= <-]; cbn [apply_action apply_op].
  - unfold appendFilter. by destruct (append f (filterList m)).
  - unfold removeFilter. by destruct (remove fpins h (filterList m)).
Qed.

Lemma governed_filter k m s G fl Qf Gf lpins fpins a o : 0 <= k → governed (k + 1) m s G fl (Qf ++ Gf) →
  (∀ n, n ∈ fpins → n ∈ fl ∨ n ∈ Qf) → filter_op a = Some o → (∀ h, handle_of o = Some h → h ∉ Qf) →
  let m' := apply_action lpins fpins a m in
  let fl' := list_op (fresh (filterList m)) o fl in
  effect (filterList m) fl (callback_of o) (filterList m') fl' ∧
  fresh (filterList m') = (allocates o + fresh (filterList m))%nat ∧
  ∃ N, governed k m' s G fl' (N ++ Qf ++ Gf) ∧ list_to_set N = (list_to_set fl ∖ list_to_set fl' : gset nat).
Proof.
  intros Hk [Hs Hn Hr Ht Hfr] Hp Ea Hh. cbv zeta. rewrite (apply_filter _ _ _ _ _ Ea). cbn [filterList].
  assert (Hroom : room (filterList m) 1) by (eapply room_less; [done|lia]).
  destruct (op_tidy fpins o (filterList m) fl ∅ Qf Gf Ht (closed_empty _) Hroom) as (He & N & Ht' & EN).
  { intros n Hin. destruct (Hp n Hin); tauto. }
  { intros h E. split; [set_solver|by apply Hh]. }
  split_and!; [done|by eapply op_fresh, Hroom; apply Ht|]. exists N. split; [|done]. split; cbn [base filterList]; try done.
  - intros e. eapply room_less; [apply Hr|lia].
  - eapply room_le; [done|done|]. apply effect_counter in He. lia.
Qed.

Lemma gone_set Qs N l l' : list_to_set N = (list_to_set l ∖ list_to_set l' : gset nat) →
  gone (list_to_set Qs) l l' = list_to_set (N ++ Qs).
Proof. intros E. unfold gone. rewrite list_to_set_app_L, E. set_solver. Qed.

(** ** The walk over the filters *)

(** With room for [j] actions after the walk. *)
#[export] Program Instance filter_system (j : nat) : WalkSystem (filterList (C := C)) act_filters filter_kind := {
  Steady ops m l Q := ∃ s G Qf Gf R, governed (Z.of_nat (j + length ops)) m s G l (Qf ++ Gf) ∧ Q = list_to_set Qf ∧
    Q ⊆ R ∧ proper false R s ops = true
}.
Next Obligation.
  cbn beta. intros j a ops m l Q n (s & G & Qf & Gf & R & Hg & -> & HQ & Hp) Hin.
  cbn [proper length] in Hp, Hg. apply andb_true_iff in Hp as [Ha Hp].
  rewrite Nat.add_succ_r, Nat2Z.inj_succ, <- Z.add_1_r in Hg. assert (Hk : 0 <= Z.of_nat (j + length ops)) by lia.
  destruct (filter_op a) as [o|] eqn:Ea.
  - destruct (governed_filter _ m s G l Qf Gf [] [n] a o Hk Hg) as (He & Ef & N & Hg' & EN); [set_solver|done| |].
    { intros h E. destruct a as [e o'|f|h']; [done|by injection Ea as <-|]. injection Ea as <-. injection E as <-.
      cbn [proper_action orb] in Ha. apply bool_decide_eq_true in Ha. set_solver. }
    eexists _, _. split.
    + exists s, G, (N ++ Qf), Gf, (retire_action false a R). rewrite <- app_assoc.
      split_and!; [exact Hg'|reflexivity| |].
      * rewrite <- (gone_set _ _ _ _ EN). destruct a as [e o'|f|h']; [done|injection Ea as <-..];
          [by apply (gone_retire (C := F) _ _ _ _ (Append f))|by apply (gone_retire (C := F) _ _ _ _ (Remove h'))].
      * by destruct a.
    + unfold filter_kind. rewrite Ea. split_and!; [exact He|done|symmetry; by apply gone_set|done].
  - destruct a as [e o|f|h]; try done. cbn [proper_action negb orb] in Ha. rewrite andb_true_r in Ha.
    destruct (governed_listen _ m s [] G l (Qf ++ Gf) [] [n] e o Hk Hg) as (Hli & N & Hg' & _); [set_solver|done|set_solver|].
    exists l, (list_to_set Qf). split; [|done]. by exists (map_op s (e, o)), (N ++ [] ++ G), Qf, Gf, R.
Qed.

(** ** The walk over the listeners of an event *)

#[export] Program Instance listener_system e : WalkSystem (λ m, list_at e (base m)) act_listeners (listener_kind e) := {
  Steady ops m l Q := ∃ s Qs G fl Gf R, governed (Z.of_nat (length ops)) m s (Qs ++ G) fl Gf ∧ l = lst s.2 e ∧
    Q = list_to_set Qs ∧ Q ⊆ R ∧ proper true R s ops = true
}.
Next Obligation.
  cbn beta. intros e a ops m l Q n (s & Qs & G & fl & Gf & R & Hg & -> & -> & HQ & Hp) Hin.
  cbn [proper length] in Hp, Hg. apply andb_true_iff in Hp as [Ha Hp].
  rewrite Nat2Z.inj_succ, <- Z.add_1_r in Hg. assert (Hk : 0 <= Z.of_nat (length ops)) by lia.
  destruct a as [e' o|f|h]; cbn [listener_kind moves].
  - cbn [proper_action negb orb] in Ha. apply andb_true_iff in Ha as [Hown Hst].
    destruct (governed_listen _ m s Qs G fl Gf [n] [] e' o Hk Hg) as (Hli & N & Hg' & EN); [|done| |].
    { intros x Hx. apply list_elem_of_singleton in Hx as ->. destruct Hin as [Hx|Hx]; [left|right; set_solver].
      apply elem_of_members. by exists e. }
    { intros h E. unfold not_stale in Hst. rewrite E in Hst. apply bool_decide_eq_true in Hst. set_solver. }
    set (l' := list_op s.1 o (lst s.2 e')) in *. exists (lst (map_op s (e', o)).2 e), (list_to_set (N ++ Qs)). split.
    + exists (map_op s (e', o)), (N ++ Qs), G, fl, Gf, (retire o R). rewrite <- app_assoc.
      split_and!; [exact Hg'|done|done| |done]. rewrite <- (gone_set _ _ _ _ EN). by apply gone_retire.
    + rewrite <- (gone_set _ _ _ _ EN). cbn [map_op fst snd]. fold l'. rewrite lst_insert. case_bool_decide as D.
      * subst e'. rewrite decide_True by done. change (fresh (list_at e (base m))) with (next_node (base m)).
        rewrite (gv_next _ _ _ _ _ _ Hg). split_and!; [exact (li_effect _ _ _ _ _ _ _ _ Hli)|done|done|].
        rewrite <- (gv_next _ _ _ _ _ _ Hg). exact (li_next _ _ _ _ _ _ _ _ Hli).
      * rewrite decide_False by done. split_and!; [exact (li_others _ _ _ _ _ _ _ _ Hli e D)|done|exact (li_next _ _ _ _ _ _ _ _ Hli)].
  - destruct (governed_filter _ m s (Qs ++ G) fl [] Gf [n] [] (AppendFilter f) (Append f) Hk Hg) as (_ & _ & N & Hg' & _);
      [set_solver|reflexivity|set_solver|].
    exists (lst s.2 e), (list_to_set Qs). split; [by eexists s, Qs, G, _, _, R|]. unfold act_listeners.
    by rewrite (apply_filter _ _ _ (Append f)).
  - destruct (governed_filter _ m s (Qs ++ G) fl [] Gf [n] [] (RemoveFilter h) (Remove h) Hk Hg) as (_ & _ & N & Hg' & _);
      [set_solver|reflexivity|set_solver|].
    exists (lst s.2 e), (list_to_set Qs). split; [by eexists s, Qs, G, _, _, R|]. unfold act_listeners.
    by rewrite (apply_filter _ _ _ (Remove h)).
Qed.

(** ** The dispatch *)

Lemma for_each_finishes {S O X} (view : S → CallbackList X) (act : list nat → O → S → S) fuel snapshot node script st
    (events : list (event O)) finished st' :
  for_each view act fuel snapshot node script st = Ok (events, finished, st') → forallb snd script = true → finished = true.
Proof.
  revert node script st events finished st'. induction fuel as [|fuel IH]; intros [n|] script st events finished st' E Hs;
    try (by cbn in E; simplify_eq).
  cbn [for_each] in E. destruct (nodes (view st) !! n) as [nd|]; [|done].
  assert (Hhd : (default ([], true) (hd_error script)).2 = true ∧ forallb snd (tl script) = true).
  { destruct script as [|x script]; [done|]. by apply andb_true_iff in Hs. }
  destruct (default ([], true) (hd_error script)) as [ops continue]. destruct Hhd as [Hc Htl]. cbn [snd] in Hc. subst continue.
  cbv zeta in E. cbn [negb] in E. rewrite andb_false_r in E.
  destruct (for_each view act fuel snapshot _ (tl script) _) as [[[es fin] st2]| |] eqn:E2; [|done|done].
  cbn in E. simplify_eq. by eapply IH.
Qed.

(** The lists of a dispatcher with its filters, with room for [k] actions. *)
Definition account (k : nat) m s fl : Prop := ∃ G Gf, governed (Z.of_nat k) m s G fl Gf.

Lemma governed_less k j m s G fl Gf : governed k m s G fl Gf → j <= k → governed j m s G fl Gf.
Proof. intros [Hs Hn Hr Ht Hf] Hj. split; try done; [intros e; by eapply room_less|by eapply room_less]. Qed.

Lemma filters_observed fuel j script m s fl : account (j + length (script_ops script)) m s fl →
  (length fl + length (script_ops script) <= fuel)%nat → proper false ∅ s (script_ops script) = true →
  ∃ filtered agreed m' s' fl' todo,
    mixinBeforeDispatch fuel script m = Ok (filtered, agreed, m') ∧ account j m' s' fl' ∧
    observe filter_kind filtered (mk_watch (fresh (filterList m)) fl fl) = Some (mk_watch (fresh (filterList m')) fl' todo) ∧
    (agreed = true → todo = []) ∧ (forallb snd script = true → agreed = true).
Proof.
  intros (G & Gf & Hg) Hf Hp. pose proof (td_linked _ _ _ _ (gv_filters _ _ _ _ _ _ Hg)) as Hl. unfold mixinBeforeDispatch.
  destruct (empty (filterList m)) eqn:Ee.
  - apply bool_decide_eq_true in Ee. rewrite (lk_head _ _ Hl) in Ee. destruct fl; [|done].
    eexists _, _, m, s, [], _. split_and!; [reflexivity| |reflexivity|done|done].
    exists G, Gf. eapply governed_less; [done|lia].
  - destruct (walk_observed filterList act_filters filter_kind (WalkSystem0 := filter_system j) fuel script m fl Hl Hf)
      as (es & fin & m' & fl' & Q' & todo & E & Hobs & _ & Hfin & rest & s' & G' & Qf & Gf' & R & Hg' & _).
    { exists s, G, [], Gf, ∅. split_and!; [exact Hg|done|done|done]. }
    exists es, fin, m', s', fl', todo. split_and!; [done| |done|done|by eapply for_each_finishes].
    exists G', (Qf ++ Gf'). eapply governed_less; [exact Hg'|lia].
Qed.

Lemma listeners_observed fuel e script m s fl : account (length (script_ops script)) m s fl →
  (length (lst s.2 e) + length (script_ops script) <= fuel)%nat → proper true ∅ s (script_ops script) = true →
  ∃ called finished m' s' fl' todo,
    dispatcher_forEachIf fuel e script m = Ok (called, finished, m') ∧ account 0 m' s' fl' ∧
    observe (listener_kind e) called (mk_watch (next_node (base m)) (lst s.2 e) (lst s.2 e)) =
      Some (mk_watch (next_node (base m')) (lst s'.2 e) todo) ∧
    (finished = true → todo = []) ∧ (forallb snd script = true → finished = true).
Proof.
  intros (G & Gf & Hg) Hf Hp. pose proof (se_linked _ _ _ (gv_settled _ _ _ _ _ _ Hg) e) as Hl.
  unfold dispatcher_forEachIf, doFindCallableList. destruct (eventCallbackListMap (base m) !! e) eqn:Ex.
  - destruct (walk_observed (λ m, list_at e (base m)) act_listeners (listener_kind e) (WalkSystem0 := listener_system e) fuel script m _ Hl Hf)
      as (es & fin & m' & l' & Q' & todo & E & Hobs & _ & Hfin & rest & s' & Qs & G' & fl' & Gf' & R & Hg' & -> & _).
    { exists s, [], G, fl, Gf, ∅. split_and!; [exact Hg|done|done|done|done]. }
    exists es, fin, m', s', fl', todo. split_and!; [done| |exact Hobs|done|by eapply for_each_finishes].
    exists (Qs ++ G'), Gf'. eapply governed_less; [exact Hg'|lia].
  - pose proof (lk_head _ _ Hl) as Eh. unfold list_at in Eh. rewrite Ex in Eh. cbn in Eh.
    eexists _, _, m, s, fl, []. split_and!; [reflexivity| | |done|done].
    + exists G, Gf. eapply governed_less; [exact Hg|lia].
    + by destruct (lst s.2 e).
Qed.

(** Whatever has been registered and removed before. *)
Lemma account_built (ops : list (Event * operation C)) (fops : list (operation F)) k :
  own_handles (0%nat, ∅) ops = true → Z.of_nat (length ops + k) < 2 ^ 64 → Z.of_nat (length fops + k) < 2 ^ 64 →
  account k (mk_MixinFilter (listens ops new_EventDispatcher) (apply_ops [] fops new_CallbackList))
    (fold_left map_op ops (0%nat, ∅)) (fold_left list_step fops (0%nat, [])).2.
Proof.
  intros Ho H1 H2. destruct (accounts_listens [] ops new_EventDispatcher (0%nat, ∅)) as [(G & Hs) Hn _ Hr _]; [cbn; lia| |done|].
  { by split; [exists []; apply settled_new|..]. }
  destruct (holds_ops fops) as [_ (Gf & Ht) _ _ Hc _]; [lia|]. exists G, Gf. split; cbn [base filterList]; [done|done| |done|].
  - intros e. specialize (Hr e). unfold room. rewrite length_app, length_map in Hr. cbn [length] in Hr. lia.
  - unfold room. lia.
Qed.

End Dispatch.

(** ** Examples *)

(** Two events with listeners, and two filters. *)
Definition built_ops : list (Z * operation Z) :=
  [(1, Append 10); (2, Append 20); (1, Append 11); (1, Insert 12 0); (2, Append 21); (1, Remove 2)].
Definition built : MixinFilter Z Z Z :=
  mk_MixinFilter (listens built_ops new_EventDispatcher) (apply_ops [] [Append 70; Append 71] new_CallbackList).

(** The first filter adds a listener to event 1 and the second is removed by it; a
    listener removes the next one and adds one to the other event. *)
Definition filter_script : list (list (action Z Z Z) * bool) := [([Listen 1 (Append 13); RemoveFilter 1], true)].
Definition listener_script : list (list (action Z Z Z) * bool) :=
  [([Listen 1 (Remove 0); Listen 2 (Append 22); AppendFilter 72], true)].

Lemma built_account : account 5 built (fold_left map_op built_ops (0%nat, ∅)) [0; 1]%nat.
Proof. exact (account_built built_ops [Append 70; Append 71] 5 eq_refl eq_refl eq_refl). Qed.

(** The listeners 12 and the new 13 are called, the removed 10 is not. *)
Example built_dispatch :
  match doDispatch 20 1 filter_script listener_script built with
  | Ok (filtered, called, _) => omap (λ ev, match ev with Called n => Some n | Did _ => None end) called = [3; 5]%nat ∧
      omap (λ ev, match ev with Called n => Some n | Did _ => None end) filtered = [0]%nat
  | _ => False
  end.
Proof. by vm_compute. Qed.

