(* ===== verification/Removers.v ===== *)
(** The removers of eventpp (src/Shared/code/eventpp/utilities): listeners that take
    themselves out of a dispatcher or a callback list after a number of calls
    (counterremover.h) or when a condition says so (conditionalremover.h), removers
    that take out what was added through them (scopedremover.h), and [removeListener]
    by callback (eventutil.h).

    Each remover is written twice in the code, for dispatchers and for callback lists;
    here it is written once, against what it uses of either (the class [Host]).  The
    [Data] a wrapper shares with its copies is a cell of a store.  Unlike
    [CallbackList.for_each], whose script says what happens at every node, a walk here
    ([each_if]) runs what it finds in the nodes: wrappers, and listeners that register,
    remove and trigger in turn. *)

From S2P Require Import Prelude CallbackList EventDispatcher.

(** What the removers use: [append], [prepend], [insert], [remove] of a callback list,
    [appendListener] and so on of a dispatcher; [host_calls] is the list a trigger of
    the key walks. *)
Class Host (H K C : Type) := {
  host_append : K → C → H → nat * H;
  host_prepend : K → C → H → nat * H;
  host_insert : list nat → K → C → nat → H → nat * H;
  host_remove : list nat → K → nat → H → bool * H;
  host_view : K → H → CallbackList C;
  host_knows : K → H → bool
}.

#[export] Instance CallbackList_host {C} : Host (CallbackList C) unit C := {
  host_append _ := append;
  host_prepend _ := prepend;
  host_insert pins _ := insert pins;
  host_remove pins _ := remove pins;
  host_view _ cl := cl;
  host_knows _ _ := true
}.

#[export] Instance EventDispatcher_host {Event C} `{Countable Event} : Host (EventDispatcher Event C) Event C := {
  host_append := appendListener;
  host_prepend := prependListener;
  host_insert := insertListener;
  host_remove := removeListener;
  host_view := list_at;
  host_knows e d := match doFindCallableList e d with Some _ => true | None => false end
}.

(** *** Walking with what is in the nodes *)

Section Each.
Context {S C : Type} (view : S → CallbackList C) (f : nat → C → S → outcome (bool * S)).

(** [doForEachIf] from [node] on, where [f] is given the handle and the callback. *)
Fixpoint each_if (fuel : nat) (snapshot : Z) (node : option nat) (s : S) : outcome (bool * S) :=
  match node with
  | None => Ok (true, s)
  | Some n =>
      match fuel with
      | O => NoFuel
      | Datatypes.S fuel =>
          match nodes (view s) !! n with
          | None => Undefined
          | Some nd =>
              if callable snapshot nd then
                '(continue, s) ← f n (callback nd) s;
                if (continue : bool) then each_if fuel snapshot (next_of (view s) n) s else Ok (false, s)
              else each_if fuel snapshot (next_of (view s) n) s
          end
      end
  end.

Definition each (fuel : nat) (s : S) : outcome (bool * S) := each_if fuel (currentCounter (view s)) (head (view s)) s.
End Each.

(** *** [removeListener] of eventutil.h *)

Section EventUtil.
Context {H K C : Type} `{Host H K C} `{EqDecision C}.

(** The lambda: [found] is the captured variable, next to the dispatcher. *)
Definition remove_equal (pins : list nat) (k : K) (listener : C) (handle : nat) (item : C) (s : bool * H)
  : outcome (bool * (bool * H)) :=
  if decide (item = listener) then Ok (false, (true, (host_remove (handle :: pins) k handle s.2).2))
  else Ok (true, s).

Definition removeListener_of (fuel : nat) (pins : list nat) (k : K) (listener : C) (h : H) : outcome (bool * H) :=
  if host_knows k h then
    '(_, s) ← each (λ s, host_view k s.2) (remove_equal pins k listener) fuel (false, h); Ok s
  else Ok (false, h).
End EventUtil.

(** *** Wrappers *)

(** What is stored as a callback: a listener, or the wrapper of a remover, which holds
    a pointer to its [Data]. *)
Inductive Callback {L : Type} := Listener (f : L) | CounterWrapper (data : nat) | ItemByCondition (data : nat).
Arguments Callback : clear implicits.

Section Removers.
Context {K L Q U : Type} {H : Type} `{Host H K (Callback L)}.

(** [CounterRemover::Wrapper::Data] and [ConditionalRemover::ItemByCondition::Data]; the
    reference to the dispatcher is the one [host] of the world. *)
Record CounterData := mk_CounterData {
  triggerCount : Z;
  counter_event : K;
  counter_listener : L;
  counter_handle : option nat
}.
Record ConditionData := mk_ConditionData {
  shouldRemove : Q;
  condition_event : K;
  condition_listener : L;
  condition_handle : option nat
}.

(** What an observer sees of the node of a handle: a condition evaluated, a listener
    called. *)
Inductive seen := Asked (n : nat) (answer : bool) | Ran (n : nat).

(** The dispatcher or list, the stores of [Data], the state of the code around it and
    the record of what ran. *)
Record World := mk_World {
  host : H;
  counters : list CounterData;
  conditions : list ConditionData;
  user : U;
  log : list seen
}.

Definition with_host (h : H) (w : World) : World := mk_World h (counters w) (conditions w) (user w) (log w).
Definition with_counters (m : list CounterData) (w : World) : World := mk_World (host w) m (conditions w) (user w) (log w).
Definition with_conditions (m : list ConditionData) (w : World) : World := mk_World (host w) (counters w) m (user w) (log w).
Definition with_user (u : U) (w : World) : World := mk_World (host w) (counters w) (conditions w) u (log w).
Definition saw (e : seen) (w : World) : World := mk_World (host w) (counters w) (conditions w) (user w) (log w ++ [e]).

Definition new_World (h : H) (u : U) : World := mk_World h [] [] u [].

(** The methods that add a listener: [make_shared] with an empty handle, the wrapper is
    [put] into the list, and the handle it gets is written to the [Data].  A weak
    handle does not keep the node alive, so list and [Data] form no cycle. *)
Definition add_counted (put : Callback L → H → nat * H) (k : K) (listener : L) (count : Z) (w : World) : nat * World :=
  let data := length (counters w) in
  let '(handle, h) := put (CounterWrapper data) (host w) in
  (handle, with_host h (with_counters (counters w ++ [mk_CounterData count k listener (Some handle)]) w)).

Definition CounterRemover_appendListener (k : K) (listener : L) (count : Z) (w : World) : nat * World :=
  add_counted (host_append k) k listener count w.
Definition CounterRemover_prependListener (k : K) (listener : L) (count : Z) (w : World) : nat * World :=
  add_counted (host_prepend k) k listener count w.
Definition CounterRemover_insertListener (pins : list nat) (k : K) (listener : L) (before : nat) (count : Z) (w : World)
  : nat * World :=
  add_counted (λ c, host_insert pins k c before) k listener count w.

Definition add_conditional (put : Callback L → H → nat * H) (k : K) (listener : L) (condition : Q) (w : World) : nat * World :=
  let data := length (conditions w) in
  let '(handle, h) := put (ItemByCondition data) (host w) in
  (handle, with_host h (with_conditions (conditions w ++ [mk_ConditionData condition k listener (Some handle)]) w)).

Definition ConditionalRemover_appendListener (k : K) (listener : L) (condition : Q) (w : World) : nat * World :=
  add_conditional (host_append k) k listener condition w.
Definition ConditionalRemover_prependListener (k : K) (listener : L) (condition : Q) (w : World) : nat * World :=
  add_conditional (host_prepend k) k listener condition w.
Definition ConditionalRemover_insertListener (pins : list nat) (k : K) (listener : L) (before : nat) (condition : Q) (w : World)
  : nat * World :=
  add_conditional (λ c, host_insert pins k c before) k listener condition w.

(** Without a remover: the listener itself is put into the list. *)
Definition add_listener (put : Callback L → H → nat * H) (listener : L) (w : World) : nat * World :=
  let '(handle, h) := put (Listener listener) (host w) in (handle, with_host h w).

Definition unregister (pins : list nat) (k : K) (handle : option nat) (w : World) : World :=
  match handle with
  | Some handle => with_host (host_remove pins k handle (host w)).2 w
  | None => w
  end.

(** *** Running *)

(** What a listener can do while it runs. *)
Inductive place := AtEnd | AtFront | Before (handle : nat).
Inductive remover := Always | Times (count : Z) | Until (condition : Q).
Inductive command := Register (r : remover) (p : place) (k : K) (f : L) | Unregister (k : K) (handle : nat) | Trigger (k : K).

Definition register (pins : list nat) (r : remover) (p : place) (k : K) (f : L) (w : World) : nat * World :=
  match r, p with
  | Always, AtEnd => add_listener (host_append k) f w
  | Always, AtFront => add_listener (host_prepend k) f w
  | Always, Before before => add_listener (λ c, host_insert pins k c before) f w
  | Times count, AtEnd => CounterRemover_appendListener k f count w
  | Times count, AtFront => CounterRemover_prependListener k f count w
  | Times count, Before before => CounterRemover_insertListener pins k f before count w
  | Until q, AtEnd => ConditionalRemover_appendListener k f q w
  | Until q, AtFront => ConditionalRemover_prependListener k f q w
  | Until q, Before before => ConditionalRemover_insertListener pins k f before q w
  end.

(** The code of the listeners and of the conditions. *)
Context (body : L → U → list command * U) (ask : Q → U → bool * U).

Definition INT_MIN : Z := - 2 ^ 31.

(** [Wrapper::operator()] up to the call of the listener, which it returns. *)
Definition counter_call (pins : list nat) (data : nat) (w : World) : outcome (L * World) :=
  match counters w !! data with
  | None => Undefined
  | Some d =>
      if triggerCount d =? INT_MIN then Undefined
      else
        let d := mk_CounterData (triggerCount d - 1) (counter_event d) (counter_listener d) (counter_handle d) in
        let w := with_counters (<[data := d]> (counters w)) w in
        let w := if triggerCount d <=? 0 then unregister pins (counter_event d) (counter_handle d) w else w in
        Ok (counter_listener d, w)
  end.

(** [ItemByCondition::operator()], likewise; [n] is the node it is called from. *)
Definition condition_call (pins : list nat) (n data : nat) (w : World) : outcome (L * World) :=
  match conditions w !! data with
  | None => Undefined
  | Some d =>
      let '(answer, u) := ask (shouldRemove d) (user w) in
      let w := saw (Asked n answer) (with_user u w) in
      let w := if answer then unregister pins (condition_event d) (condition_handle d) w else w in
      Ok (condition_listener d, w)
  end.

Definition wrapper_call (pins : list nat) (n : nat) (c : Callback L) (w : World) : outcome (L * World) :=
  match c with
  | Listener f => Ok (f, w)
  | CounterWrapper data => counter_call pins data w
  | ItemByCondition data => condition_call pins n data w
  end.

Section Run.
(** [emit] triggers an event. *)
Context (emit : list nat → K → World → outcome World).

Definition do_command (pins : list nat) (c : command) (w : World) : outcome World :=
  match c with
  | Register r p k f => Ok (register pins r p k f w).2
  | Unregister k handle => Ok (unregister pins k (Some handle) w)
  | Trigger k => emit pins k w
  end.

Fixpoint do_commands (pins : list nat) (cs : list command) (w : World) : outcome World :=
  match cs with
  | [] => Ok w
  | c :: cs => w ← do_command pins c w; do_commands pins cs w
  end.

(** A callback is called: the wrapper, if it is one, and the listener. *)
Definition run_callback (pins : list nat) (n : nat) (c : Callback L) (w : World) : outcome (bool * World) :=
  '(f, w) ← wrapper_call (n :: pins) n c w;
  let '(cs, u) := body f (user w) in
  w ← do_commands (n :: pins) cs (with_user u (saw (Ran n) w));
  Ok (true, w).
End Run.

(** [operator()] of a list, [dispatch] of a dispatcher.  [pins] are the nodes the
    loops around this one hold; the fuel bounds the depth of the nesting and the nodes
    passed on each level. *)
Fixpoint trigger (fuel : nat) (pins : list nat) (k : K) (w : World) : outcome World :=
  match fuel with
  | O => NoFuel
  | Datatypes.S fuel =>
      if host_knows k (host w) then
        '(_, w) ← each (λ w, host_view k (host w)) (run_callback (trigger fuel) pins) fuel w; Ok w
      else Ok w
  end.

(** The code outside of listeners. *)
Definition run (fuel : nat) (cs : list command) (w : World) : outcome World := do_commands (trigger fuel) [] cs w.
End Removers.

Arguments CounterData : clear implicits.
Arguments ConditionData : clear implicits.
Arguments World : clear implicits.
Arguments command : clear implicits.
Arguments remover : clear implicits.

(** *** Scoped removers *)

Section Scoped.
Context {H K C : Type} `{Host H K C}.

(** [Item]; the pointer to the dispatcher is null or the address of one of the
    dispatchers there are. *)
Definition Item : Type := K * nat.
Record ScopedRemover := mk_ScopedRemover { dispatcher : option nat; itemList : list Item }.

Definition new_ScopedRemover (d : option nat) : ScopedRemover := mk_ScopedRemover d [].

(** The loop of [reset]. *)
Definition remove_items (pins : list nat) (items : list Item) (h : H) : H :=
  fold_left (λ h '(k, handle), (host_remove pins k handle h).2) items h.

Definition reset (pins : list nat) (r : ScopedRemover) (hosts : gmap nat H) : outcome (ScopedRemover * gmap nat H) :=
  let cleared := mk_ScopedRemover (dispatcher r) [] in
  match dispatcher r, itemList r with
  | None, _ | Some _, [] => Ok (cleared, hosts)
  | Some d, items =>
      match hosts !! d with
      | Some h => Ok (cleared, <[d := remove_items pins items h]> hosts)
      | None => Undefined
      end
  end.

(** The destructor. *)
Definition destroy_ScopedRemover (pins : list nat) (r : ScopedRemover) (hosts : gmap nat H) : outcome (gmap nat H) :=
  '(_, hosts) ← reset pins r hosts; Ok hosts.

Definition setDispatcher (d : nat) (r : ScopedRemover) : ScopedRemover :=
  if decide (dispatcher r = Some d) then r else mk_ScopedRemover (Some d) [].

Definition setCallbackList (pins : list nat) (d : nat) (r : ScopedRemover) (hosts : gmap nat H)
  : outcome (ScopedRemover * gmap nat H) :=
  if decide (dispatcher r = Some d) then Ok (r, hosts)
  else '(r, hosts) ← reset pins r hosts; Ok (mk_ScopedRemover (Some d) (itemList r), hosts).

(** Adding through the remover; [put] is the method of the dispatcher or list. *)
Definition add_scoped (put : H → nat * H) (k : K) (r : ScopedRemover) (hosts : gmap nat H)
  : outcome (nat * ScopedRemover * gmap nat H) :=
  match dispatcher r ≫= λ d, (λ h, (d, h)) <$> hosts !! d with
  | None => Undefined
  | Some (d, h) =>
      let '(handle, h) := put h in
      Ok (handle, mk_ScopedRemover (dispatcher r) (itemList r ++ [(k, handle)]), <[d := h]> hosts)
  end.

Definition ScopedRemover_appendListener (k : K) (c : C) := add_scoped (host_append k c) k.
Definition ScopedRemover_prependListener (k : K) (c : C) := add_scoped (host_prepend k c) k.
Definition ScopedRemover_insertListener (pins : list nat) (k : K) (c : C) (before : nat) :=
  add_scoped (host_insert pins k c before) k.
End Scoped.

Arguments ScopedRemover : clear implicits.
Arguments Item : clear implicits.
