(* ===== verification/RemoversFacts.v ===== *)
(** What the removers guarantee (Removers.v): a scoped remover takes out what was added
    through it and nothing else; a counted listener runs as often as it was told to,
    and a conditional one until its condition holds, whatever the listeners do
    meanwhile. *)

From S2P Require Import Prelude CallbackHeap CallbackList CallbackListFacts CallbackWalk EventDispatcher EventDispatcherFacts Removers.

(** ** Dispatchers and lists, as the removers see them *)

Section Ops.
Context {H K C : Type} `{!Host H K C}.

Definition host_op (pins : list nat) (k : K) (o : operation C) (h : H) : H :=
  match o with
  | Append c => (host_append k c h).2
  | Prepend c => (host_prepend k c h).2
  | Insert c before => (host_insert pins k c before h).2
  | Remove handle => (host_remove pins k handle h).2
  end.

(** The handle an operation gives. *)
Definition host_gives (pins : list nat) (k : K) (o : operation C) (h : H) : option nat :=
  match o with
  | Append c => Some (host_append k c h).1
  | Prepend c => Some (host_prepend k c h).1
  | Insert c before => Some (host_insert pins k c before h).1
  | Remove _ => None
  end.
End Ops.

(** ** What an operation does to the nodes, whatever its handle *)

Section Brands.
Context {C : Type}.
Implicit Types (cl : CallbackList C) (n m : nat) (o : operation C).

(** The parts of a node that linking does not touch. *)
Definition brand (nd : Node C) : C * Z := (callback nd, counter nd).
Definition brand_at cl m : option (C * Z) := brand <$> nodes cl !! m.

Definition linking (f : Node C → Node C) : Prop := ∀ nd, brand (f nd) = brand nd.

Lemma brand_link p f cl m : linking f → brand_at (store_at p f cl) m = brand_at cl m.
Proof.
  intros Hf. unfold brand_at. destruct p as [n|]; [|done]. cbn. destruct (decide (n = m)) as [->|].
  - rewrite lookup_alter_eq. destruct (nodes cl !! m); cbn; [by rewrite Hf|done].
  - by rewrite lookup_alter_ne.
Qed.

Lemma linking_previous v : linking (set_previous v). Proof. done. Qed.
Lemma linking_next v : linking (set_next v). Proof. done. Qed.
Local Hint Resolve linking_previous linking_next : core.

Lemma brand_if (P : Prop) `{Decision P} (f : CallbackList C → CallbackList C) cl m :
  (∀ k, nodes (f k) = nodes k) → brand_at (if decide P then f cl else cl) m = brand_at cl m.
Proof. intros Hf. unfold brand_at. case_decide; by rewrite ?Hf. Qed.

Lemma allocate_brand c cl m : 0 <= currentCounter cl → room cl 1 →
  brand_at (doAllocateNode c cl).2 m = if decide (m = fresh cl) then Some (c, currentCounter cl + 1) else brand_at cl m.
Proof.
  intros H0 Hr. rewrite allocate_spec by done. unfold brand_at. cbn. case_decide; [subst; by rewrite lookup_insert_eq|].
  by rewrite lookup_insert_ne.
Qed.

Lemma doInsert_brand x h cl m : brand_at (doInsert x h cl) m = brand_at cl m.
Proof. unfold doInsert. cbv zeta. rewrite brand_if by done. by rewrite !brand_link. Qed.

Lemma brand_tail v cl m : brand_at (set_tail v cl) m = brand_at cl m. Proof. done. Qed.
Lemma brand_head v cl m : brand_at (set_head v cl) m = brand_at cl m. Proof. done. Qed.

Lemma append_brand c cl m : brand_at (append c cl).2 m = brand_at (doAllocateNode c cl).2 m.
Proof.
  unfold append. destruct (doAllocateNode c cl) as [x cl0]. cbn [fst snd]. destruct (head cl0); [|done].
  rewrite brand_tail. by rewrite !brand_link.
Qed.

Lemma prepend_brand c cl m : brand_at (prepend c cl).2 m = brand_at (doAllocateNode c cl).2 m.
Proof.
  unfold prepend. destruct (doAllocateNode c cl) as [x cl0]. cbn [fst snd]. destruct (head cl0); [|done].
  rewrite brand_head. by rewrite !brand_link.
Qed.

(** An adding operation brands the new node, *)
Lemma put_brand pins o cl m c : 0 <= currentCounter cl → room cl 1 → callback_of o = Some c →
  brand_at (apply_op pins o cl) m = if decide (m = fresh cl) then Some (c, currentCounter cl + 1) else brand_at cl m.
Proof.
  intros H0 Hr. destruct o as [c'|c'|c' h|h]; intros [= <-]; rewrite <- allocate_brand by done; cbn [apply_op].
  - by rewrite append_brand.
  - by rewrite prepend_brand.
  - unfold insert. destruct (lock cl pins h); [|by rewrite append_brand].
    destruct (doAllocateNode c' cl) as [x cl0]. cbn. by rewrite doInsert_brand.
Qed.

(** and a removal takes the counter of its node, *)
Lemma doFreeNode_brand n cl m : brand_at (doFreeNode n cl) m = (if decide (m = n) then (λ b, (b.1, 0)) else id) <$> brand_at cl m.
Proof.
  unfold doFreeNode. cbv zeta. match goal with |- context [store_at (Some n) _ ?k] => set (k0 := k) end.
  assert (E : brand_at k0 m = brand_at cl m) by (subst k0; rewrite !brand_if by done; by rewrite !brand_link).
  rewrite <- E. unfold brand_at. cbn. case_decide as D; [subst; rewrite lookup_alter_eq|rewrite lookup_alter_ne by done];
    by destruct (nodes k0 !! _).
Qed.

Lemma remove_brand pins h cl m : brand_at (apply_op pins (Remove h) cl) m =
  (if decide (m = h) then if lock cl pins h then (λ b, (b.1, 0)) else id else id) <$> brand_at cl m.
Proof.
  cbn [apply_op]. unfold remove. destruct (lock cl pins h); cbn [snd]; [apply doFreeNode_brand|].
  case_decide; by destruct (brand_at cl m).
Qed.

(** which a pinned node cannot escape. *)
Lemma pinned_alive cl pins n : n ∈ pins → is_Some (nodes cl !! n) → lock cl pins n = true.
Proof.
  intros Hp Hn. apply bool_decide_true. apply (held_alive cl pins {[n]}); [|intros m Hm; left; unfold roots; set_solver|set_solver].
  intros m ->%elem_of_singleton. by apply elem_of_dom.
Qed.

Lemma store_at_counter p f cl : currentCounter (store_at p f cl) = currentCounter cl.
Proof. by destruct p. Qed.
Lemma if_counter (P : Prop) `{Decision P} (f : CallbackList C → CallbackList C) cl :
  (∀ k, currentCounter (f k) = currentCounter k) → currentCounter (if decide P then f cl else cl) = currentCounter cl.
Proof. intros Hf. by case_decide. Qed.
Lemma doInsert_counter x h cl : currentCounter (doInsert x h cl) = currentCounter cl.
Proof. unfold doInsert. cbv zeta. rewrite if_counter by done. by rewrite !store_at_counter. Qed.
Lemma doFreeNode_counter n cl : currentCounter (doFreeNode n cl) = currentCounter cl.
Proof. unfold doFreeNode. cbv zeta. rewrite store_at_counter, !if_counter by done. by rewrite !store_at_counter. Qed.

(** Nodes are only ever added. *)
Lemma reset_counters_fresh fuel : ∀ p cl, fresh (reset_counters fuel p cl) = fresh cl.
Proof. induction fuel as [|fuel IH]; intros p cl; [done|]. destruct p; [|done]. cbn [reset_counters]. cbv zeta. by rewrite IH. Qed.

Lemma allocate_fresh c cl : (doAllocateNode c cl).1 = fresh cl ∧ fresh (doAllocateNode c cl).2 = S (fresh cl).
Proof. unfold doAllocateNode, getNextCounter. cbv zeta. destruct (_ =? 0); cbn; by rewrite ?reset_counters_fresh. Qed.

Lemma op_grows pins o cl : fresh (apply_op pins o cl) = (allocates o + fresh cl)%nat.
Proof.
  destruct o as [c|c|c h|h]; cbn [apply_op allocates]; unfold append, prepend, insert, remove;
    [| |destruct (lock cl pins h); [|unfold append]|by destruct (lock cl pins h); cbn [snd]; rewrite ?doFreeNode_fresh];
    destruct (allocate_fresh c cl) as [_ E]; destruct (doAllocateNode c cl) as [x cl0]; cbn [fst snd] in E |- *;
    rewrite ?doInsert_fresh; try done; destruct (head cl0); unfold set_tail, set_head; cbv zeta; cbn [fresh];
    by rewrite ?store_at_fresh.
Qed.

Lemma op_counter pins o cl : 0 <= currentCounter cl → (allocates o = 1%nat → room cl 1) →
  currentCounter (apply_op pins o cl) = Z.of_nat (allocates o) + currentCounter cl.
Proof.
  intros H0 Hr. destruct o as [c|c|c h|h]; cbn [apply_op allocates] in *; unfold append, prepend, insert, remove;
    [| |destruct (lock cl pins h); [|unfold append]|by destruct (lock cl pins h); cbn [snd]; rewrite ?doFreeNode_counter];
    rewrite allocate_spec by (done || by apply Hr); cbn [fst snd]; rewrite ?doInsert_counter; cbn [currentCounter]; try lia;
    destruct (head _); unfold set_tail, set_head; cbv zeta; cbn [currentCounter]; rewrite ?store_at_counter; cbn [currentCounter]; lia.
Qed.

Lemma gives_grows pins o cl x : host_gives pins tt o cl = Some x → x = fresh cl.
Proof.
  destruct o as [c|c|c h|h]; cbn; unfold append, prepend, insert; [| |destruct (lock cl pins h); [|unfold append]|done];
    destruct (allocate_fresh c cl) as [E _]; destruct (doAllocateNode c cl); cbn in *; by intros [= <-].
Qed.
End Brands.

(** ** A host is made of callback lists *)

(** An operation on a key is the operation on its list; the lists share their nodes,
    and keep their counters to themselves. *)
Class HostShape H K C `{!Host H K C} := {
  cells : H → gmap nat (Node C);
  given : H → nat;
  shape_view k h : nodes (host_view k h) = cells h ∧ fresh (host_view k h) = given h;
  shape_op pins k o h :
    (∃ pins', (∀ n, n ∈ pins → n ∈ pins') ∧ host_view k (host_op pins k o h) = apply_op pins' o (host_view k h) ∧
       host_gives pins k o h = host_gives pins' tt o (host_view k h) ∧ host_knows k (host_op pins k o h) = true) ∨
    (host_knows k h = false ∧ (∃ x, o = Remove x) ∧ host_op pins k o h = h);
  shape_other pins k o h k' : k ≠ k' → currentCounter (host_view k' (host_op pins k o h)) = currentCounter (host_view k' h);
  shape_knows pins k o h k' : host_knows k' h = true → host_knows k' (host_op pins k o h) = true
}.

#[export] Program Instance CallbackList_shape {C} : HostShape (CallbackList C) unit C := { cells := nodes; given := fresh }.
Next Obligation. done. Qed.
Next Obligation. intros C pins [] o cl. left. exists pins. destruct o; split_and!; done. Qed.
Next Obligation. intros C pins [] o cl [] Hne. by destruct Hne. Qed.
Next Obligation. done. Qed.

Section DispatcherShape.
Context {Event C : Type} `{Countable Event}.
Implicit Types (d : EventDispatcher Event C) (e : Event) (o : operation C).

Lemma host_op_listen pins e o d : host_op pins e o d = listen pins e o d.
Proof. by destruct o. Qed.

Lemma give_listen pins e o d : host_gives pins e o d = host_gives (pins ++ other_ends e d) tt o (list_at e d).
Proof.
  destruct o; cbn; [unfold appendListener|unfold prependListener|unfold insertListener|done];
    (rewrite (surjective_pairing (append _ _)) || rewrite (surjective_pairing (prepend _ _)) || rewrite (surjective_pairing (insert _ _ _ _)));
    done.
Qed.

Lemma knows_put e e' cl d : host_knows e' (put_list e cl d) = bool_decide (e = e') || host_knows e' d.
Proof.
  cbn. unfold doFindCallableList. cbn. case_bool_decide as D; [subst; by rewrite lookup_insert_eq|].
  rewrite lookup_insert_ne by done. by destruct (_ !! e').
Qed.

#[export] Program Instance EventDispatcher_shape : HostShape (EventDispatcher Event C) Event C := { cells := heap; given := next_node }.
Next Obligation. done. Qed.
Next Obligation.
  intros pins e o d. rewrite host_op_listen. destruct (listen_put pins e o d) as [E|(E & Ho & El)].
  - left. exists (pins ++ other_ends e d). rewrite E, knows_put, bool_decide_true, give_listen by done. split_and!; [set_solver| |done|done].
    cbn [host_view EventDispatcher_host]. by rewrite list_at_put, decide_True.
  - right. split_and!; [|done|done]. cbn. unfold doFindCallableList. by rewrite E.
Qed.
Next Obligation.
  intros pins e o d e' Hne. rewrite host_op_listen. destruct (listen_put pins e o d) as [->|(_ & _ & ->)]; [|done].
  cbn [host_view EventDispatcher_host]. by rewrite list_at_put, decide_False.
Qed.
Next Obligation.
  intros pins e o d e' Hk. rewrite host_op_listen. destruct (listen_put pins e o d) as [->|(_ & _ & ->)]; [|done].
  rewrite knows_put, Hk. apply orb_true_r.
Qed.
End DispatcherShape.

Lemma gives_given {H K C} `{HostShape H K C} pins k (o : operation C) h x : host_gives pins k o h = Some x → x = given h.
Proof.
  destruct (shape_op pins k o h) as [(pins' & _ & _ & -> & _)|(_ & (y & ->) & _)]; [|done].
  intros Hx%gives_grows. by rewrite Hx, (proj2 (shape_view k h)).
Qed.

Lemma linked_next {C} (cl : CallbackList C) l a n b : linked cl l → l = a ++ n :: b → next_of cl n = hd_error b.
Proof. intros Hl E. destruct (lk_node _ _ Hl a n b E) as (nd & En & _ & Ex & _). unfold next_of. by rewrite En. Qed.

(** ** [removeListener] by callback *)

Section Util.
Context {H K C : Type} `{!Host H K C} `{!HostShape H K C} `{EqDecision C}.
Implicit Types (h : H) (k : K) (n : nat) (l : list nat).

Lemma take_member pins k a n b (h : H) : linked (host_view k h) (a ++ n :: b) → host_knows k h = true →
  taken (host_view k h) (host_view k (host_op pins k (Remove n) h)) a n b ∧ host_knows k (host_op pins k (Remove n) h) = true.
Proof.
  intros Hl Hk. destruct (shape_op pins k (Remove n) h) as [(pins' & _ & -> & _ & ->)|(Hk' & _ & _)]; [|congruence].
  split; [|done]. cbn [apply_op]. unfold remove. rewrite (member_alive _ _ pins' n Hl) by set_solver. by apply doFreeNode_taken.
Qed.

Definition callback_in h n : option C := callback <$> cells h !! n.

(** The walk from [b] on. *)
Lemma remove_equal_walk pins k c h : host_knows k h = true → ∀ b a fuel, linked (host_view k h) (a ++ b) → (length b <= fuel)%nat →
  ∃ going s, each_if (λ s, host_view k s.2) (remove_equal pins k c) fuel (currentCounter (host_view k h)) (hd_error b) (false, h) = Ok (going, s) ∧
    ((s = (false, h) ∧ ∀ n, n ∈ b → callback_in h n ≠ Some c) ∨
     (∃ b1 n b2, b = b1 ++ n :: b2 ∧ s = (true, host_op (n :: pins) k (Remove n) h) ∧ callback_in h n = Some c ∧
        ∀ m, m ∈ b1 → callback_in h m ≠ Some c)).
Proof.
  intros Hk b. induction b as [|n b IH]; intros a fuel Hl Hf.
  { exists true, (false, h). split; [by destruct fuel|left]. split; [done|]. intros n Hn. by apply not_elem_of_nil in Hn. }
  destruct fuel as [|fuel]; [cbn in Hf; lia|]. cbn [hd_error each_if snd].
  destruct (lk_node _ _ Hl a n b eq_refl) as (nd & En & _ & _ & Hcn). rewrite En.
  assert (Hcall : callable (currentCounter (host_view k h)) nd = true).
  { unfold callable, removedCounter. apply andb_true_iff. rewrite negb_true_iff, Z.eqb_neq, Z.leb_le. lia. }
  assert (Ecb : callback_in h n = Some (callback nd)) by (unfold callback_in; by rewrite <- (proj1 (shape_view k h)), En).
  rewrite Hcall. assert (Er : remove_equal pins k c n (callback nd) (false, h) =
    if decide (callback nd = c) then Ok (false, (true, host_op (n :: pins) k (Remove n) h)) else Ok (true, (false, h))) by done.
  rewrite Er. clear Er. destruct (decide (callback nd = c)) as [Ec|Ec]; cbn [mbind outcome_bind].
  - eexists _, _. split; [done|]. right. exists [], n, b. split_and!; [done|done|congruence|]. intros m Hm. by apply not_elem_of_nil in Hm.
  - cbn [snd]. rewrite (linked_next _ _ a n b Hl eq_refl). destruct (IH (a ++ [n]) fuel) as (going & s & E & Hs).
    { by rewrite <- app_assoc. }
    { cbn in Hf. lia. }
    exists going, s. split; [done|]. destruct Hs as [[-> Hs]|(b1 & m & b2 & -> & -> & Em & Hs)]; [left|right].
    + split; [done|]. intros m [->|Hm]%elem_of_cons; [congruence|by apply Hs].
    + exists (n :: b1), m, b2. split_and!; [done..|]. intros m' [->|Hm]%elem_of_cons; [congruence|by apply Hs].
Qed.

(** [removeListener(dispatcher, event, listener)] takes out the first listener of the
    event that equals [listener], and answers whether there is one. *)
Theorem removeListener_of_spec fuel pins k c h l : host_knows k h = true → linked (host_view k h) l → (length l <= fuel)%nat →
  ∃ found h', removeListener_of fuel pins k c h = Ok (found, h') ∧
    ((found = false ∧ h' = h ∧ ∀ n, n ∈ l → callback_in h n ≠ Some c) ∨
     (∃ l1 n l2, found = true ∧ l = l1 ++ n :: l2 ∧ callback_in h n = Some c ∧ (∀ m, m ∈ l1 → callback_in h m ≠ Some c) ∧
        linked (host_view k h') (l1 ++ l2))).
Proof.
  intros Hk Hl Hf. unfold removeListener_of. rewrite Hk. unfold each. cbn [snd]. rewrite (lk_head _ _ Hl).
  destruct (remove_equal_walk pins k c h Hk l [] fuel Hl Hf) as (going & s & -> & Hs). cbn [mbind outcome_bind].
  destruct s as [found h']. exists found, h'. split; [done|]. destruct Hs as [[[= -> ->] Hs]|(l1 & n & l2 & -> & [= -> ->] & En & Hs)].
  - by left.
  - right. exists l1, n, l2. split_and!; [done..|]. destruct (take_member (n :: pins) k l1 n l2 h Hl Hk) as [Ht _].
    by eapply linked_taken.
Qed.
End Util.

(** ** Hosts as maps of lists *)

(** [keeps n] relates a host to the lists it keeps, with room for [n] more operations.
    Handles are numbered in the order they are given. *)
Class HostLaws H K C `{!Host H K C} `{Countable K} := {
  keeps : nat → H → nat * gmap K (list nat) → Prop;
  keeps_step n h s k o : keeps (S n) h s → own_handle s.2 k o = true → keeps n (host_op [] k o h) (map_op s (k, o));
  keeps_list n h s k : keeps n h s → linked (host_view k h) (lst s.2 k) ∧ fresh (host_view k h) = s.1
}.

#[export] Program Instance EventDispatcher_laws {Event C} `{Countable Event} : HostLaws (EventDispatcher Event C) Event C := {
  keeps n d s := ∃ done, accounts done d s ∧ Z.of_nat (length done + n) < 2 ^ 64
}.
Next Obligation.
  intros Event C ? ? n d s e o (done & Ha & Hn) Ho. exists (done ++ [o]). split; [|rewrite length_app; cbn; lia].
  rewrite host_op_listen. apply accounts_step; [lia|done|done].
Qed.
Next Obligation.
  intros Event C ? ? n d s e (done & Ha & _). destruct (ac_settled _ _ _ Ha) as (G & Hs). split; [apply Hs|apply Ha].
Qed.

#[export] Program Instance CallbackList_laws {C} : HostLaws (CallbackList C) unit C := {
  keeps n cl s := ∃ done, holds done cl (s.1, lst s.2 tt) ∧ Z.of_nat (length done + n) < 2 ^ 64
}.
Next Obligation.
  intros C n cl s [] o (done & Hh & Hn) _. exists (done ++ [o]). split; [|rewrite length_app; cbn; lia].
  cbn [map_op fst snd]. rewrite lst_insert, decide_True by done.
  replace (host_op [] tt o cl) with (apply_op [] o cl) by (by destruct o).
  apply (holds_step done cl (s.1, lst s.2 tt) o); [lia|done].
Qed.
Next Obligation. intros C n cl s [] (done & Hh & _). split; apply Hh. Qed.

(** ** Scoped removers *)

Section Scoped.
Context {H K C : Type} `{!Host H K C} `{Countable K} `{!HostShape H K C} `{!HostLaws H K C}.
Implicit Types (s : nat * gmap K (list nat)) (k : K) (o : operation C) (items : list (Item K)).

(** What is done with a dispatcher some of whose listeners are added through a
    remover ([true]). *)
Definition use : Type := bool * (K * operation C).

Definition scoped_use (d : nat) (x : use) (s : ScopedRemover K * gmap nat H) : outcome (ScopedRemover K * gmap nat H) :=
  let '(scoped, (k, o)) := x in
  let '(r, hosts) := s in
  match scoped, o with
  | true, Append c => '(_, r, hosts) ← ScopedRemover_appendListener k c r hosts; Ok (r, hosts)
  | true, Prepend c => '(_, r, hosts) ← ScopedRemover_prependListener k c r hosts; Ok (r, hosts)
  | true, Insert c before => '(_, r, hosts) ← ScopedRemover_insertListener [] k c before r hosts; Ok (r, hosts)
  | _, _ => Ok (r, alter (host_op [] k o) d hosts)
  end.

Fixpoint scoped_uses (d : nat) (xs : list use) (s : ScopedRemover K * gmap nat H) : outcome (ScopedRemover K * gmap nat H) :=
  match xs with [] => Ok s | x :: xs => s ← scoped_use d x s; scoped_uses d xs s end.

(** The items the remover is to hold. *)
Definition use_items s (x : use) : list (Item K) :=
  match x with
  | (true, (k, o)) => match o with Remove _ => [] | _ => [(k, s.1)] end
  | _ => []
  end.

Definition use_model (t : list (Item K) * (nat * gmap K (list nat))) (x : use) : list (Item K) * (nat * gmap K (list nat)) :=
  (t.1 ++ use_items t.2 x, map_op t.2 x.2).

(** The items are in the lists they were added to, or in none. *)
Definition own_items s items : Prop := ∀ k n, (k, n) ∈ items → (n < s.1)%nat ∧ ∀ k', k ≠ k' → n ∉ lst s.2 k'.

Lemma own_item s items k n : own_items s items → (k, n) ∈ items → own_handle s.2 k (Remove (C := C) n) = true.
Proof.
  intros Hi Hn. unfold own_handle. cbn. apply bool_decide_eq_true. rewrite elem_of_strangers. intros (k' & Hk & Hm).
  by apply (Hi _ _ Hn) in Hm.
Qed.

Lemma list_op_sub x o l n : n ∈ list_op x o l → n = x ∨ n ∈ l.
Proof.
  destruct o; cbn; rewrite ?elem_of_app, ?elem_of_cons, ?insert_before_in, ?list_elem_of_filter; set_solver.
Qed.

Lemma own_items_step s items k o : own_items s items → own_items (map_op s (k, o)) items.
Proof.
  intros Hi k1 n Hn. destruct (Hi _ _ Hn) as [Hlt Hout]. split; [cbn; lia|]. intros k' Hne. cbn [map_op fst snd].
  rewrite lst_insert. case_decide; subst; [|by apply Hout].
  intros [->|Hm]%list_op_sub; [lia|by apply (Hout _ Hne)].
Qed.

Lemma map_op_alloc s k o : (map_op s (k, o)).1 = (allocates o + s.1)%nat.
Proof. done. Qed.

Lemma alter_known (f : H → H) (m : gmap nat H) d h : m !! d = Some h → alter f d m = <[d := f h]> m.
Proof. intros E. rewrite <- (insert_id m d h E) at 1. by rewrite alter_insert_eq. Qed.

(** One use. *)
Lemma scoped_use_step d m x (r : ScopedRemover K) hosts h t : hosts !! d = Some h → keeps (S m) h t.2 → own_handle t.2.2 x.2.1 x.2.2 = true →
  r = mk_ScopedRemover (Some d) t.1 → own_items t.2 t.1 →
  ∃ h', scoped_use d x (r, hosts) = Ok (mk_ScopedRemover (Some d) (use_model t x).1, <[d := h']> hosts) ∧
    keeps m h' (use_model t x).2 ∧ own_items (use_model t x).2 (use_model t x).1.
Proof.
  intros Hd Hk Ho -> Hi. destruct x as [sc [k o]]. cbn [fst snd] in Ho. exists (host_op [] k o h). split_and!.
  - assert (Hg : ∀ x, host_gives [] k o h = Some x → x = t.2.1).
    { intros x Hx%gives_given. destruct (keeps_list _ _ _ k Hk) as [_ <-]. by rewrite (proj2 (shape_view k h)). }
    unfold use_model, use_items. cbn [fst snd].
    assert (Ealt : alter (host_op [] k o) d hosts = <[d := host_op [] k o h]> hosts) by by apply alter_known.
    destruct sc; [|cbn; by rewrite Ealt, app_nil_r].
    destruct o; cbn [host_gives host_op] in *; cbn;
      unfold ScopedRemover_appendListener, ScopedRemover_prependListener, ScopedRemover_insertListener, add_scoped;
      cbn [dispatcher mbind option_bind itemList]; rewrite ?Hd; cbn [fmap option_fmap option_map];
      [| | |by rewrite Ealt, app_nil_r].
    all: match goal with |- context [let '(_, _) := ?p in _] => rewrite (surjective_pairing p) end; cbn;
      by rewrite (Hg _ eq_refl).
  - by apply keeps_step.
  - unfold use_model. cbn [fst snd]. intros k1 n [Hn|Hn]%elem_of_app; [by apply (own_items_step _ _ k o Hi)|].
    assert (En : k1 = k ∧ n = t.2.1 ∧ allocates o = 1%nat).
    { unfold use_items in Hn. destruct sc; [|set_solver]. destruct o; set_solver. }
    destruct En as (-> & -> & Ea). split; [cbn; lia|]. intros k' Hne. cbn [map_op fst snd]. rewrite lst_insert.
    rewrite decide_False by done. intros Hm. destruct (keeps_list _ _ _ k' Hk) as [Hl Hf].
    by apply (linked_not_fresh _ _ _ Hl) in Hm.
Qed.

Lemma uses_step d xs : ∀ m (r : ScopedRemover K) hosts h t, hosts !! d = Some h → keeps (length xs + m) h t.2 →
  own_handles t.2 (map snd xs) = true → r = mk_ScopedRemover (Some d) t.1 → own_items t.2 t.1 →
  ∃ h', scoped_uses d xs (r, hosts) = Ok (mk_ScopedRemover (Some d) (fold_left use_model xs t).1, <[d := h']> hosts) ∧
    keeps m h' (fold_left use_model xs t).2 ∧ own_items (fold_left use_model xs t).2 (fold_left use_model xs t).1.
Proof.
  induction xs as [|x xs IH]; intros m r hosts h t Hd Hk Ho Hr Hi; cbn [scoped_uses fold_left map own_handles length] in *.
  - exists h. rewrite Hr. split_and!; [by rewrite (insert_id _ _ _ Hd)|done|done].
  - apply andb_true_iff in Ho as [Ho1 Ho2].
    destruct (scoped_use_step d (length xs + m) x r hosts h t Hd Hk Ho1 Hr Hi) as (h1 & -> & Hk1 & Hi1).
    destruct (IH m (mk_ScopedRemover (Some d) (use_model t x).1) (<[d := h1]> hosts) h1 (use_model t x))
      as (h' & E & Hk' & Hi'); [by rewrite lookup_insert_eq|done|done|done|done|].
    exists h'. rewrite insert_insert_eq in E. by rewrite <- E.
Qed.

Lemma items_length xs : ∀ t, (length (fold_left use_model xs t).1 <= length t.1 + length xs)%nat.
Proof.
  induction xs as [|x xs IH]; intros t; cbn [fold_left length]; [lia|]. etrans; [apply IH|].
  unfold use_model. cbn [fst]. rewrite length_app. destruct x as [[] [k []]]; cbn; lia.
Qed.

(** The loop of [reset]. *)
Lemma remove_items_keeps items : ∀ m h s, keeps (length items + m) h s → own_items s items →
  ∃ s', keeps m (remove_items [] items h) s' ∧ s'.1 = s.1 ∧ ∀ k, lst s'.2 k = filter (λ n, n ∉ map snd items) (lst s.2 k).
Proof.
  induction items as [|[k n] items IH]; intros m h s Hk Hi; cbn [map length] in *.
  { exists s. split_and!; [done|done|]. intros k. symmetry. by induction (lst s.2 k) as [|n l IH]; [|rewrite filter_cons_True by set_solver; rewrite IH]. }
  assert (Ho : own_handle s.2 k (Remove (C := C) n) = true) by (apply (own_item _ _ _ _ Hi); set_solver).
  destruct (IH m _ _ (keeps_step _ _ _ _ _ Hk Ho)) as (s' & Hk' & Hf & Hl).
  { apply own_items_step. intros k1 n1 Hn. apply Hi. set_solver. }
  exists s'. split_and!; [done|done|]. intros k'. rewrite Hl. cbn [map_op fst snd list_op]. rewrite lst_insert.
  transitivity (filter (λ n0, n0 ∉ map snd items) (filter (λ n0, n0 ≠ n) (lst s.2 k'))).
  - case_decide as D; [by subst|]. f_equal. symmetry. apply filter_absent. apply (Hi k n); set_solver.
  - rewrite list_filter_filter. apply list_filter_iff. set_solver.
Qed.

End Scoped.

Definition scoped_sample : list (@use Z Z) :=
  [(true, (1, Append 10)); (false, (1, Append 11)); (true, (2, Prepend 20)); (true, (1, Insert 12 1)); (false, (1, Remove 0))].
Definition scoped_hosts : gmap nat (EventDispatcher Z Z) := {[0%nat := new_EventDispatcher]}.

Lemma keeps_new_dispatcher {Event C} `{Countable Event} n : Z.of_nat n < 2 ^ 64 →
  keeps n (new_EventDispatcher (Event := Event) (C := C)) (0%nat, ∅).
Proof. intros Hn. exists []. split; [|exact Hn]. by split; [exists []; apply settled_new|..]. Qed.

