(* ===== verification/RemoversRun.v ===== *)
(** How often the listeners of counter and condition removers run, whatever the
    listeners do: register, remove, trigger again from inside (Removers.v). *)

From S2P Require Import Prelude CallbackHeap CallbackList CallbackListFacts CallbackWalk EventDispatcher EventDispatcherFacts Removers RemoversFacts.

#[global] Instance seen_eq_dec : EqDecision seen.
Proof. solve_decision. Defined.

(** ** What is seen of a node *)

Definition node_of (e : seen) : nat := match e with Asked n _ | Ran n => n end.
Definition about (n : nat) (l : list seen) : list seen := filter (λ e, node_of e = n) l.
(** How often the listener of [n] ran. *)
Definition ran (n : nat) (l : list seen) : Z := zlen (filter (λ e, e = Ran n) l).

(** A condition that says yes is the last one asked: its listener runs once more. *)
Definition final_yes (n : nat) (l : list seen) : Prop := ∀ l1 l2, l = l1 ++ Asked n true :: l2 → about n l2 = [Ran n].

Lemma about_app n l k : about n (l ++ k) = about n l ++ about n k.
Proof. apply filter_app. Qed.

Lemma about_nil n l e : about n l = [] → e ∈ l → node_of e ≠ n.
Proof.
  intros E He En. assert (Hin : e ∈ about n l) by (by apply list_elem_of_filter). rewrite E in Hin. by apply not_elem_of_nil in Hin.
Qed.

Lemma about_none n l : (∀ e, e ∈ l → node_of e ≠ n) → about n l = [].
Proof.
  intros Hl. destruct (about n l) as [|e k] eqn:E; [done|]. assert (He : e ∈ about n l) by (rewrite E; set_solver).
  apply list_elem_of_filter in He as [? ?]. by destruct (Hl e).
Qed.

Lemma ran_app n l k : ran n (l ++ k) = ran n l + ran n k.
Proof. unfold ran. by rewrite filter_app, zlen_app. Qed.

Lemma ran_none n l : about n l = [] → ran n l = 0.
Proof.
  intros E. unfold ran. destruct (filter (λ e, e = Ran n) l) as [|e k] eqn:F; [done|].
  assert (He : e ∈ filter (λ e, e = Ran n) l) by (rewrite F; set_solver). apply list_elem_of_filter in He as [-> He].
  by destruct (about_nil _ _ _ E He).
Qed.

Lemma final_none n l : about n l = [] → final_yes n l.
Proof. intros E l1 l2 ->. by destruct (about_nil _ _ (Asked n true) E); [set_solver|]. Qed.

Lemma final_app n l k : final_yes n l → final_yes n k → (Asked n true ∈ l → about n k = []) → final_yes n (l ++ k).
Proof.
  intros Hl Hk Hlk l1 l2 E. apply app_split in E as [(r & -> & ->)|(r & -> & ->)].
  - rewrite about_app, (Hlk ltac:(set_solver)), app_nil_r. by apply (Hl l1).
  - by apply (Hk r).
Qed.

(** ** Operations keep the shape *)

Section Calm.
Context {H K C : Type} `{EqDecision K} `{!Host H K C} `{!HostShape H K C}.
Implicit Types (h : H) (k : K) (o : operation C) (n m : nat).

(** Counters do not exceed the number of nodes, and nodes are numbered. *)
Record calm h : Prop := {
  calm_counter k : 0 <= currentCounter (host_view k h) <= Z.of_nat (given h);
  calm_cells n : is_Some (cells h !! n) → (n < given h)%nat
}.

Definition host_brand h m : option (C * Z) := brand <$> cells h !! m.

Lemma brand_view k h m : brand_at (host_view k h) m = host_brand h m.
Proof. unfold brand_at, host_brand. by rewrite (proj1 (shape_view k h)). Qed.

Lemma given_view k h : fresh (host_view k h) = given h.
Proof. apply shape_view. Qed.

Lemma given_op pins k o h : given (host_op pins k o h) = (allocates o + given h)%nat.
Proof.
  destruct (shape_op pins k o h) as [(pins' & _ & E & _ & _)|(_ & (x & ->) & ->)]; [|done].
  by rewrite <- !(given_view k), E, op_grows.
Qed.
Lemma counter_op pins k o h k' : calm h → Z.of_nat (given (host_op pins k o h)) < 2 ^ 64 →
  0 <= currentCounter (host_view k' (host_op pins k o h)) <= Z.of_nat (given (host_op pins k o h)).
Proof.
  intros Hc Hg. rewrite given_op in *. pose proof (calm_counter _ Hc k) as Hk. pose proof (calm_counter _ Hc k') as Hk'.
  destruct (shape_op pins k o h) as [(pins' & _ & E & _ & _)|(_ & (x & ->) & ->)]; [|cbn; lia].
  assert (Ek : currentCounter (host_view k (host_op pins k o h)) = Z.of_nat (allocates o) + currentCounter (host_view k h)).
  { rewrite E. apply op_counter; [lia|]. intros Ea. rewrite Ea in Hg. unfold room. lia. }
  destruct (decide (k = k')) as [<-|Hne]; [lia|]. rewrite (shape_other pins k o h k') by done. lia.
Qed.

Lemma put_calm pins k o c h : calm h → callback_of o = Some c → Z.of_nat (given (host_op pins k o h)) < 2 ^ 64 →
  calm (host_op pins k o h) ∧
  ∃ v, 0 < v ∧ ∀ m, host_brand (host_op pins k o h) m = if decide (m = given h) then Some (c, v) else host_brand h m.
Proof.
  intros Hc Ho Hg. assert (Ea : allocates o = 1%nat) by (by destruct o).
  assert (Hb : ∃ v, 0 < v ∧ ∀ m, host_brand (host_op pins k o h) m = if decide (m = given h) then Some (c, v) else host_brand h m).
  { destruct (shape_op pins k o h) as [(pins' & _ & E & _ & _)|(_ & (x & ->) & _)]; [|done].
    pose proof (calm_counter _ Hc k) as Hk. rewrite given_op, Ea in Hg. exists (currentCounter (host_view k h) + 1). split; [lia|].
    intros m. rewrite <- !(brand_view k), E, (put_brand pins' o _ m c) by (unfold room; lia || done). by rewrite given_view. }
  split; [|done]. destruct Hb as (v & _ & Hb). split; [intros k'; by apply counter_op|].
  intros n Hn. rewrite given_op, Ea. specialize (Hb n). unfold host_brand in Hb. destruct Hn as [nd E]. rewrite E in Hb. cbn in Hb.
  case_decide; [lia|]. destruct (cells h !! n) eqn:En; [|done]. pose proof (calm_cells _ Hc n (mk_is_Some _ _ En)). lia.
Qed.

(** A removal leaves the other nodes; its own loses the counter if it is held. *)
Lemma take_calm pins k x h : calm h → Z.of_nat (given h) < 2 ^ 64 →
  let h' := host_op pins k (Remove x) h in
  calm h' ∧ (∀ m, m ≠ x → host_brand h' m = host_brand h m) ∧
  (host_brand h' x = host_brand h x ∨ host_brand h' x = (λ b, (b.1, 0)) <$> host_brand h x) ∧
  (x ∈ pins → host_knows k h = true → is_Some (cells h !! x) → host_brand h' x = (λ b, (b.1, 0)) <$> host_brand h x).
Proof.
  intros Hc Hg h'.
  assert (Hb : ∃ f : C * Z → C * Z, (∀ m, host_brand h' m = (if decide (m = x) then f else id) <$> host_brand h m) ∧
    (f = id ∨ f = λ b, (b.1, 0)) ∧ (x ∈ pins → host_knows k h = true → is_Some (cells h !! x) → f = λ b, (b.1, 0))).
  { destruct (shape_op pins k (Remove x) h) as [(pins' & Hp & E & _ & _)|(Hk & _ & E)].
    - exists (if lock (host_view k h) pins' x then λ b, (b.1, 0) else id). split_and!.
      + intros m. subst h'. by rewrite <- !(brand_view k), E, remove_brand.
      + destruct (lock _ _ _); tauto.
      + intros Hx _ Hs. rewrite pinned_alive; [done|by apply Hp|by rewrite (proj1 (shape_view k h))].
    - exists id. subst h'. rewrite E. split_and!; [|tauto|by rewrite Hk]. intros m. case_decide; by destruct (host_brand h m). }
  destruct Hb as (f & Hb & Hf & Hfx). split_and!.
  - split; [intros k'; apply counter_op; [done|subst h'; by rewrite given_op]|].
    intros n [nd E]. subst h'. rewrite given_op. cbn. apply (calm_cells _ Hc). specialize (Hb n). unfold host_brand in Hb.
    rewrite E in Hb. by destruct (cells h !! n).
  - intros m Hm. rewrite Hb, decide_False by done. by destruct (host_brand h m).
  - rewrite Hb, decide_True by done. destruct Hf as [->| ->]; [left|by right]. by destruct (host_brand h x).
  - intros Hx Hk Hs. rewrite Hb, decide_True by done. by rewrite (Hfx Hx Hk Hs).
Qed.
End Calm.

(** ** What becomes of a node *)

Section Limits.
Context {K L Q U H : Type} `{EqDecision K} `{!Host H K (Callback L)} `{!HostShape H K (Callback L)}.
Context (body : L → U → list (command K L Q) * U) (ask : Q → U → bool * U).
Local Abbreviation World := (World K L Q U H).
Implicit Types (w : World) (n m data : nat) (l : list seen).

Definition brand_in w n : option (Callback L * Z) := host_brand (host w) n.
Definition bound w : nat := given (host w).

(** Every wrapper in the list finds its [Data], which knows where the wrapper is. *)
Record sound w : Prop := {
  so_calm : calm (host w);
  so_counter n data v : brand_in w n = Some (CounterWrapper data, v) →
    ∃ d, counters w !! data = Some d ∧ counter_handle d = Some n ∧ host_knows (counter_event d) (host w) = true;
  so_condition n data v : brand_in w n = Some (ItemByCondition data, v) →
    ∃ d, conditions w !! data = Some d ∧ condition_handle d = Some n ∧ host_knows (condition_event d) (host w) = true
}.

(** The node is out of its list for good. *)
Definition spent n w : Prop := ∃ c, brand_in w n = Some (c, 0).

(** How often a counted listener may still run. *)
Definition left_of n w : Z :=
  match brand_in w n with
  | Some (CounterWrapper data, v) =>
      if v =? 0 then 0 else match counters w !! data with Some d => Z.max 1 (triggerCount d) | None => 0 end
  | _ => 0
  end.

(** What is seen of a node ([l]) between two states. *)
Record fate n l w w' : Prop := {
  ft_callback : fst <$> brand_in w' n = fst <$> brand_in w n;
  ft_spent : spent n w → spent n w' ∧ about n l = [];
  ft_final : final_yes n l;
  ft_yes : Asked n true ∈ l → spent n w';
  ft_left data v : brand_in w n = Some (CounterWrapper data, v) → ran n l + left_of n w' <= left_of n w
}.

Lemma fate_trans n l l' w w1 w2 : fate n l w w1 → fate n l' w1 w2 → fate n (l ++ l') w w2.
Proof.
  intros [Hc Hs Hf Hy Hl] [Hc' Hs' Hf' Hy' Hl']. split.
  - congruence.
  - intros [H1 E]%Hs. destruct (Hs' H1) as [H2 E']. split; [done|]. by rewrite about_app, E, E'.
  - apply final_app; [done..|]. intros Ha. apply Hs', Hy, Ha.
  - intros [Ha|Ha]%elem_of_app; [by apply Hs', Hy|by apply Hy'].
  - intros data v E. rewrite ran_app. specialize (Hl _ _ E). rewrite E in Hc.
    destruct (brand_in w1 n) as [[c v1]|] eqn:E1; [|done]. cbn in Hc. injection Hc as ->. specialize (Hl' _ _ eq_refl). lia.
Qed.

(** Nothing is seen of it, and it may be taken out. *)
Lemma fate_quiet n l w w' : about n l = [] →
  brand_in w' n = brand_in w n ∨ brand_in w' n = (λ b, (b.1, 0)) <$> brand_in w n →
  (∀ data v, brand_in w n = Some (CounterWrapper data, v) → counters w' !! data = counters w !! data) → fate n l w w'.
Proof.
  intros Ea Hb Hd. split.
  - destruct Hb as [->| ->]; [done|]. by destruct (brand_in w n).
  - intros [c E]. split; [|done]. exists c. destruct Hb as [->| ->]; rewrite E; done.
  - by apply final_none.
  - intros Hin. by destruct (about_nil _ _ _ Ea Hin).
  - intros data v E. rewrite (ran_none _ _ Ea). unfold left_of. rewrite E. destruct Hb as [Hb|Hb]; rewrite Hb, E; cbn.
    + rewrite (Hd _ _ E). lia.
    + destruct (v =? 0); [lia|]. destruct (counters w !! data); lia.
Qed.

(** [R]: a stretch of a run, as long as nodes can be numbered. *)
Record evolves l w w' : Prop := {
  ev_log : log w' = log w ++ l;
  ev_fate n : (n < bound w)%nat → fate n l w w'
}.

Definition R w w' : Prop := (bound w <= bound w')%nat ∧
  (Z.of_nat (bound w') < 2 ^ 64 → sound w → sound w' ∧ ∃ l, evolves l w w').

Lemma R_refl w : R w w.
Proof.
  split; [done|]. intros _ Hs. split; [done|]. exists []. split; [by rewrite app_nil_r|].
  intros n _. apply fate_quiet; [done|by left|done].
Qed.

Lemma R_trans w w1 w2 : R w w1 → R w1 w2 → R w w2.
Proof.
  intros [H1 R1] [H2 R2]. split; [lia|]. intros Hb Hs. destruct (R1 ltac:(lia) Hs) as (Hs1 & l & El & Fl).
  destruct (R2 Hb Hs1) as (Hs2 & l' & El' & Fl'). split; [done|]. exists (l ++ l'). split; [by rewrite El', El, app_assoc|].
  intros n Hn. eapply fate_trans; [by apply Fl|apply Fl'; lia].
Qed.

Lemma sound_keep w w' : sound w → calm (host w') →
  (∀ n c v', brand_in w' n = Some (c, v') → ∃ v, brand_in w n = Some (c, v)) →
  (∀ k, host_knows k (host w) = true → host_knows k (host w') = true) →
  (∀ data d, counters w !! data = Some d → ∃ d', counters w' !! data = Some d' ∧
     counter_handle d' = counter_handle d ∧ counter_event d' = counter_event d) →
  conditions w' = conditions w → sound w'.
Proof.
  intros Hs Hc Hb Hk Hd Ec. split; [done| |].
  - intros n data v' E. apply Hb in E as (v & E). destruct (so_counter _ Hs _ _ _ E) as (d & Ed & Eh & Hkd).
    destruct (Hd _ _ Ed) as (d' & Ed' & Eh' & Ee). exists d'. rewrite Eh', Ee. auto.
  - intros n data v' E. apply Hb in E as (v & E). destruct (so_condition _ Hs _ _ _ E) as (d & Ed & Eh & Hkd).
    exists d. rewrite Ec. auto.
Qed.

(** *** Registering *)

(** What a registration stores: the callback, and its [Data]. *)
Definition stored (r : remover Q) (k : K) (f : L) w : Callback L * list (CounterData K L) * list (ConditionData K L Q) :=
  match r with
  | Always => (Listener f, [], [])
  | Times count => (CounterWrapper (length (counters w)), [mk_CounterData count k f (Some (bound w))], [])
  | Until q => (ItemByCondition (length (conditions w)), [], [mk_ConditionData q k f (Some (bound w))])
  end.

Lemma register_shape pins r p k f w : ∃ o, callback_of o = Some (stored r k f w).1.1 ∧
  register pins r p k f w = (bound w, mk_World (host_op pins k o (host w)) (counters w ++ (stored r k f w).1.2)
    (conditions w ++ (stored r k f w).2) (user w) (log w)).
Proof.
  exists (match p with AtEnd => Append | AtFront => Prepend | Before h => λ c, Insert c h end (stored r k f w).1.1).
  split; [by destruct p|].
  assert (Eg := gives_given pins k (match p with AtEnd => Append | AtFront => Prepend | Before h => λ c, Insert c h end (stored r k f w).1.1) (host w)).
  destruct r, p; cbn [stored fst snd register] in *; unfold add_listener, CounterRemover_appendListener, CounterRemover_prependListener,
    CounterRemover_insertListener, ConditionalRemover_appendListener, ConditionalRemover_prependListener,
    ConditionalRemover_insertListener, add_counted, add_conditional;
    cbn [host_gives host_op] in *;
    match goal with |- context [let '(_, _) := ?p in _] => rewrite (surjective_pairing p) end;
    rewrite (Eg _ eq_refl), ?app_nil_r; by destruct w.
Qed.

Lemma counters_app_old w n data v d : sound w → brand_in w n = Some (CounterWrapper data, v) →
  (counters w ++ d) !! data = counters w !! data.
Proof.
  intros Hs E. destruct (so_counter _ Hs _ _ _ E) as (d' & Ed & _). rewrite Ed. apply lookup_app_l_Some. done.
Qed.

Lemma R_register pins r p k f w : R w (register pins r p k f w).2.
Proof.
  destruct (register_shape pins r p k f w) as (o & Ho & ->). cbn [snd].
  assert (Ea : allocates o = 1%nat) by (by destruct o).
  split; [unfold bound; cbn [host]; rewrite given_op; lia|]. intros Hb Hs. unfold bound in Hb. cbn [host] in Hb.
  destruct (put_calm pins k o _ (host w) (so_calm _ Hs) Ho Hb) as (Hc & v & Hv & Hbr).
  assert (Hkn : host_knows k (host_op pins k o (host w)) = true).
  { destruct (shape_op pins k o (host w)) as [(? & _ & _ & _ & Hk)|(_ & (x & ->) & _)]; done. }
  assert (Hlt : ∀ n c v', brand_in w n = Some (c, v') → n ≠ bound w).
  { intros n c v' E ->. unfold brand_in, host_brand in E. destruct (cells (host w) !! bound w) eqn:Ec; [|done].
    pose proof (calm_cells _ (so_calm _ Hs) _ (mk_is_Some _ _ Ec)). unfold bound in *. lia. }
  split.
  - split; [done| |]; intros n data v'; unfold brand_in at 1; cbn [host counters conditions]; rewrite Hbr; case_decide as D.
    + intros [= E E']. destruct r; cbn [stored fst snd] in E |- *; [done| |done]. injection E as <-. eexists. split_and!.
      * by rewrite list_lookup_middle.
      * by subst.
      * done.
    + intros E. destruct (so_counter _ Hs _ _ _ E) as (d & Ed & Eh & Hk). exists d. split_and!; [by apply lookup_app_l_Some|done|by apply shape_knows].
    + intros [= E E']. destruct r; cbn [stored fst snd] in E |- *; [done|done|]. injection E as <-. eexists. split_and!.
      * by rewrite list_lookup_middle.
      * by subst.
      * done.
    + intros E. destruct (so_condition _ Hs _ _ _ E) as (d & Ed & Eh & Hk). exists d. split_and!; [by apply lookup_app_l_Some|done|by apply shape_knows].
  - exists []. split; [by rewrite app_nil_r|]. intros n Hn. apply fate_quiet; [done|left|].
    + unfold brand_in at 1. cbn [host]. rewrite Hbr, decide_False; [done|]. unfold bound in Hn. lia.
    + intros data v' E. cbn [counters]. by eapply counters_app_old.
Qed.

(** *** Removing *)

Lemma bound_unregister pins k handle w : bound (unregister pins k handle w) = bound w.
Proof. destruct handle as [x|]; [|done]. apply (given_op pins k (Remove x)). Qed.

Lemma bound_seen u e w : bound (with_user u (saw e w)) = bound w.
Proof. done. Qed.

Lemma R_unregister pins k handle w : R w (unregister pins k handle w).
Proof.
  destruct handle as [x|]; [|apply R_refl]. cbn [unregister].
  change (host_remove pins k x (host w)).2 with (host_op pins k (Remove x) (host w)).
  split; [unfold bound; cbn [host with_host]; rewrite given_op; lia|]. unfold bound. cbn [host with_host]. rewrite given_op.
  intros Hb Hs. destruct (take_calm pins k x (host w) (so_calm _ Hs) Hb) as (Hc & Ho & Hx & _).
  assert (Hbr : ∀ n, brand_in (with_host (host_op pins k (Remove x) (host w)) w) n = brand_in w n ∨
    brand_in (with_host (host_op pins k (Remove x) (host w)) w) n = (λ b, (b.1, 0)) <$> brand_in w n).
  { intros n. unfold brand_in. cbn [host with_host]. destruct (decide (n = x)) as [->|Hn]; [done|left; by apply Ho]. }
  split.
  - apply (sound_keep w); [done|done| |intros k'; by apply shape_knows|eauto|done].
    intros n c v' E. destruct (Hbr n) as [Eb|Eb]; rewrite Eb in E; [by eexists|].
    destruct (brand_in w n) as [[c' v]|]; cbn in E; [|done]. injection E as -> <-. by eexists.
  - exists []. split; [by rewrite app_nil_r|]. intros n _. by apply fate_quiet.
Qed.

Lemma held_take pins k x w : sound w → Z.of_nat (bound w) < 2 ^ 64 → x ∈ pins → host_knows k (host w) = true →
  is_Some (brand_in w x) → let h' := host_op pins k (Remove x) (host w) in
  calm h' ∧ (∀ m, m ≠ x → host_brand h' m = brand_in w m) ∧ host_brand h' x = (λ b, (b.1, 0)) <$> brand_in w x.
Proof.
  intros Hs Hb Hx Hk Hi h'. destruct (take_calm pins k x (host w) (so_calm _ Hs) Hb) as (Hc & Ho & _ & Hx').
  split_and!; [done|done|]. apply Hx'; [done|done|]. unfold brand_in, host_brand in Hi. by rewrite fmap_is_Some in Hi.
Qed.

(** *** Calling *)

Lemma evolves_at n l w w' : log w' = log w ++ l → (∀ e, e ∈ l → node_of e = n) → (∀ m, m ≠ n → brand_in w' m = brand_in w m) →
  (∀ m data v, m ≠ n → brand_in w m = Some (CounterWrapper data, v) → counters w' !! data = counters w !! data) →
  fate n l w w' → evolves l w w'.
Proof.
  intros El Hl Hb Hd Hf. split; [done|]. intros m _. destruct (decide (m = n)) as [->|Hne]; [done|].
  apply fate_quiet; [|left; by apply Hb|by eauto]. apply about_none. intros e He E. apply Hl in He. congruence.
Qed.

(** A node that is called is not spent; what is seen of it now may be all. *)
Lemma fate_called n l w w' c v : brand_in w n = Some (c, v) → v ≠ 0 → fst <$> brand_in w' n = Some c → final_yes n l →
  (Asked n true ∈ l → spent n w') → (∀ data, c = CounterWrapper data → ran n l + left_of n w' <= left_of n w) → fate n l w w'.
Proof.
  intros E Hv Ec Hf Hy Hl. split; [by rewrite Ec, E| |done|done|].
  - intros [c' E']. congruence.
  - intros data v' E'. apply (Hl data). congruence.
Qed.

Lemma final_ran n a : final_yes n [Asked n a; Ran n].
Proof.
  intros [|e [|e' l1]] l2 E; [injection E as -> <-; cbn; by rewrite decide_True|discriminate E|].
  injection E as _ _ E. by destruct l1.
Qed.

Lemma zeroed_spent n w w' c v : brand_in w n = Some (c, v) → brand_in w' n = (λ b, (b.1, 0)) <$> brand_in w n → spent n w'.
Proof. intros E Eb. exists c. by rewrite Eb, E. Qed.

Lemma final_one n : final_yes n [Ran n].
Proof. intros [|? []] l2 E; discriminate E. Qed.

(** A wrapper counts down and its listener runs; the node may be taken out, and is
    when the count is used up. *)
Lemma counted_step n data d v v' w w' :
  let d' := mk_CounterData (triggerCount d - 1) (counter_event d) (counter_listener d) (counter_handle d) in
  sound w → brand_in w n = Some (CounterWrapper data, v) → v ≠ 0 → counters w !! data = Some d →
  log w' = log w ++ [Ran n] → counters w' = <[data := d']> (counters w) → conditions w' = conditions w →
  calm (host w') → (∀ k, host_knows k (host w) = true → host_knows k (host w') = true) →
  (∀ m, m ≠ n → brand_in w' m = brand_in w m) → brand_in w' n = Some (CounterWrapper data, v') →
  (v' = 0 ∨ 1 < triggerCount d) → sound w' ∧ evolves [Ran n] w w'.
Proof.
  intros d' Hs E Hv Ed El Ec Eq Hc Hk Hb Hn Hcount.
  assert (Eh : counter_handle d = Some n) by (destruct (so_counter _ Hs _ _ _ E) as (d1 & Ed1 & Eh & _); congruence).
  assert (Ed' : counters w' !! data = Some d') by (rewrite Ec, list_lookup_insert_eq; [done|by eapply lookup_lt_Some]).
  split.
  - apply (sound_keep w); [done..| | | |done].
    + intros m c v1 Em. destruct (decide (m = n)) as [->|Hne]; [rewrite Hn in Em; injection Em as <- <-|rewrite Hb in Em by done]; by eexists.
    + done.
    + intros dt d0 E0. destruct (decide (dt = data)) as [->|Hne].
      * exists d'. split; [done|]. rewrite Ed in E0. by injection E0 as <-.
      * exists d0. by rewrite Ec, list_lookup_insert_ne.
  - apply (evolves_at n); [done|intros e ->%list_elem_of_singleton; done|done| |].
    + intros m data' v1 Hm Em. rewrite Ec. apply list_lookup_insert_ne. intros ->.
      destruct (so_counter _ Hs _ _ _ Em) as (d2 & Ed2 & Eh2 & _). congruence.
    + eapply fate_called; [exact E|done|by rewrite Hn|apply final_one|intros Hin; set_solver|]. intros _ _.
      unfold ran, left_of. rewrite E, Hn, Ed, Ed'. destruct (Z.eqb_spec v 0) as [|_]; [done|].
      cbn. rewrite decide_True by done. unfold zlen. cbn. destruct (Z.eqb_spec v' 0); lia.
Qed.

Lemma R_counter pins n data v w f w1 u : brand_in w n = Some (CounterWrapper data, v) → v ≠ 0 → n ∈ pins →
  counter_call pins data w = Ok (f, w1) → R w (with_user u (saw (Ran n) w1)).
Proof.
  intros E Hv Hn. unfold counter_call. destruct (counters w !! data) as [d|] eqn:Ed; [|done].
  destruct (triggerCount d =? INT_MIN); [done|]. cbn [triggerCount counter_event counter_handle]. intros [= <- <-].
  assert (Hbd : ∀ b : bool, bound (if b then unregister pins (counter_event d) (counter_handle d)
    (with_counters (<[data := mk_CounterData (triggerCount d - 1) (counter_event d) (counter_listener d) (counter_handle d)]> (counters w)) w)
    else with_counters (<[data := mk_CounterData (triggerCount d - 1) (counter_event d) (counter_listener d) (counter_handle d)]> (counters w)) w) = bound w).
  { intros []; by rewrite ?bound_unregister. }
  split; [by rewrite bound_seen, Hbd|]. intros Hb Hs. rewrite bound_seen, Hbd in Hb. clear Hbd.
  destruct (so_counter _ Hs _ _ _ E) as (d1 & Ed1 & Eh & Hk). rewrite Ed in Ed1. injection Ed1 as <-.
  destruct (Z.leb_spec (triggerCount d - 1) 0) as [Hle|Hgt].
  - rewrite Eh. cbn [unregister]. destruct (held_take pins (counter_event d) n w Hs Hb Hn Hk) as (Hc & Ho & Hx); [by rewrite E|].
    edestruct (counted_step n data d v 0 w) as [Hs' Hev]; [..|split; [exact Hs'|exists [Ran n]; exact Hev]]; try done.
    + by rewrite Eh.
    + intros k. apply (shape_knows pins (counter_event d) (Remove n)).
    + rewrite E in Hx. exact Hx.
    + by left.
  - edestruct (counted_step n data d v v w) as [Hs' Hev]; [..|split; [exact Hs'|exists [Ran n]; exact Hev]]; try done; [apply Hs|right; lia].
Qed.

Lemma R_condition pins n data v w f w1 u : brand_in w n = Some (ItemByCondition data, v) → v ≠ 0 → n ∈ pins →
  condition_call ask pins n data w = Ok (f, w1) → R w (with_user u (saw (Ran n) w1)).
Proof.
  intros E Hv Hn. unfold condition_call. destruct (conditions w !! data) as [d|] eqn:Ed; [|done].
  destruct (ask (shouldRemove d) (user w)) as [answer u1]. intros [= <- <-].
  split; [rewrite bound_seen; destruct answer; by rewrite ?bound_unregister|].
  intros Hb Hs. rewrite bound_seen in Hb. assert (Hb' : Z.of_nat (bound w) < 2 ^ 64) by (destruct answer; by rewrite ?bound_unregister in Hb).
  destruct (so_condition _ Hs _ _ _ E) as (d1 & Ed1 & Eh & Hk). rewrite Ed in Ed1. injection Ed1 as <-.
  destruct answer; [rewrite Eh; cbn [unregister]|].
  - destruct (held_take pins (condition_event d) n w Hs Hb' Hn Hk) as (Hc & Ho & Hx); [by rewrite E|]. split.
    + apply (sound_keep w); [done|done| |intros k; apply (shape_knows pins (condition_event d) (Remove n))|eauto|done].
      intros m c v' Em. destruct (decide (m = n)) as [->|Hne].
      * exists v. unfold brand_in in Em. cbn [host with_host with_user saw] in Em. rewrite E in Hx. cbn in Hx. unfold host_op in Hx.
        rewrite Hx in Em. by injection Em as <- _.
      * exists v'. by rewrite <- Ho.
    + exists [Asked n true; Ran n]. apply (evolves_at n).
      * cbn. by rewrite <- app_assoc.
      * intros e He. set_solver.
      * intros m Hm. by apply Ho.
      * done.
      * match goal with |- fate n _ w ?w' => assert (Ez : brand_in w' n = (λ b, (b.1, 0)) <$> brand_in w n) by exact Hx end.
        eapply fate_called; [exact E|done|by rewrite Ez, E|apply final_ran| |done]. intros _. by eapply zeroed_spent.
  - split; [by apply (sound_keep w); [done|apply Hs|eauto..|done]|]. exists [Asked n false; Ran n]. apply (evolves_at n).
    + cbn. by rewrite <- app_assoc.
    + intros e He. set_solver.
    + done.
    + done.
    + eapply fate_called; [exact E|done| |apply final_ran|intros Hin; set_solver|done]. unfold brand_in in E |- *. cbn. by rewrite E.
Qed.

Lemma R_plain n f v w u : brand_in w n = Some (Listener f, v) → v ≠ 0 → R w (with_user u (saw (Ran n) w)).
Proof.
  intros E Hv. split; [done|]. intros _ Hs. split; [by apply (sound_keep w); [done|apply Hs|eauto..|done]|].
  exists [Ran n]. apply (evolves_at n); [done|intros e ->%list_elem_of_singleton; done|done|done|].
  eapply fate_called; [exact E|done| |apply final_one|intros Hin; set_solver|done]. unfold brand_in in E |- *. cbn. by rewrite E.
Qed.

(** *** Walking and running *)

Lemma each_R {S C} (view : S → CallbackList C) (f : nat → C → S → outcome (bool * S)) (P : S → S → Prop) :
  (∀ s, P s s) → (∀ s1 s2 s3, P s1 s2 → P s2 s3 → P s1 s3) →
  (∀ n nd snapshot s b s', nodes (view s) !! n = Some nd → callable snapshot nd = true → f n (callback nd) s = Ok (b, s') → P s s') →
  ∀ fuel snapshot node s b s', each_if view f fuel snapshot node s = Ok (b, s') → P s s'.
Proof.
  intros Hr Ht Hf fuel. induction fuel as [|fuel IH]; intros snapshot node s b s'; cbn [each_if].
  { destruct node; [done|]. by intros [= <- <-]. }
  destruct node as [n|]; [|by intros [= <- <-]]. destruct (nodes (view s) !! n) as [nd|] eqn:En; [|done].
  destruct (callable snapshot nd) eqn:Ec; [|by apply IH].
  destruct (f n (callback nd) s) as [[b1 s1]| |] eqn:Ef; cbn; [|done..].
  specialize (Hf _ _ _ _ _ _ En Ec Ef). destruct b1; [|by intros [= <- <-]]. intros E. eapply Ht; [exact Hf|by eapply IH].
Qed.

Definition steady_emit (emit : list nat → K → World → outcome World) : Prop := ∀ pins k w w', emit pins k w = Ok w' → R w w'.

Lemma R_commands emit : steady_emit emit → ∀ cs pins w w', do_commands emit pins cs w = Ok w' → R w w'.
Proof.
  intros He cs. induction cs as [|c cs IH]; intros pins w w'; cbn [do_commands]; [intros [= <-]; apply R_refl|].
  destruct (do_command emit pins c w) as [w1| |] eqn:Ec; cbn; [|done..]. intros E. eapply R_trans; [|by eapply IH].
  destruct c; cbn in Ec; [injection Ec as <-; apply R_register|injection Ec as <-; apply (R_unregister pins k (Some handle))|by eapply He].
Qed.

Lemma R_callback emit : steady_emit emit → ∀ k pins n nd snapshot w b w', nodes (host_view k (host w)) !! n = Some nd →
  callable snapshot nd = true → run_callback body ask emit pins n (callback nd) w = Ok (b, w') → R w w'.
Proof.
  intros He k pins n nd snapshot w b w' En Hc. unfold run_callback.
  destruct (wrapper_call ask (n :: pins) n (callback nd) w) as [[f w1]| |] eqn:Ew; cbn; [|done..].
  destruct (body f (user w1)) as [cs u]. destruct (do_commands _ _ _ _) as [w2| |] eqn:Ed; cbn; [|done..]. intros [= <- <-].
  eapply R_trans; [|by eapply R_commands]. rewrite (proj1 (shape_view k (host w))) in En.
  assert (E : brand_in w n = Some (callback nd, counter nd)) by (unfold brand_in, host_brand; by rewrite En).
  assert (Hv : counter nd ≠ 0) by (unfold callable in Hc; zbool; done).
  destruct (callback nd) as [g|data|data]; cbn in Ew.
  - injection Ew as <- <-. by eapply R_plain.
  - eapply R_counter; [exact E|done|by left|exact Ew].
  - eapply R_condition; [exact E|done|by left|exact Ew].
Qed.

Lemma R_trigger fuel : steady_emit (trigger body ask fuel).
Proof.
  induction fuel as [|fuel IH]; intros pins k w w'; cbn [trigger]; [done|].
  destruct (host_knows k (host w)); [|intros [= <-]; apply R_refl]. unfold each.
  destruct (each_if _ _ _ _ _ _) as [[b w1]| |] eqn:Ee; cbn; [|done..]. intros [= <-].
  revert Ee. apply (each_R _ _ R); [apply R_refl|intros ? ? ?; apply R_trans|].
  intros n nd snapshot s b' s' En Hc Ef. by eapply (R_callback _ IH).
Qed.

(** ** Limits *)

(** A dispatcher or list nothing was added to. *)
Definition pristine (h : H) : Prop := cells h = ∅ ∧ ∀ k, currentCounter (host_view k h) = 0.

Lemma sound_new h u : pristine h → sound (new_World h u).
Proof.
  intros [Hc Hk].
  assert (Hb : ∀ n, brand_in (new_World h u) n = None) by (intros n; unfold brand_in, host_brand; cbn; by rewrite Hc).
  split; [split|intros n data v E; by rewrite Hb in E..].
  - intros k. rewrite Hk. lia.
  - intros n [nd E]. cbn in E. by rewrite Hc, lookup_empty in E.
Qed.

(** However listeners behave - they may register and remove, by any handles, and
    trigger events from inside of events - the listener of a counter remover runs at
    most as often as it was told to, once if it was told less; and when the condition
    of a conditional remover has said yes, its listener runs that once more, and the
    condition is not asked again. *)
Theorem remover_limits h u fuel fuel' cs cs' r p k f w w' handle w'' : pristine h →
  run body ask fuel cs (new_World h u) = Ok w → register [] r p k f w = (handle, w') →
  run body ask fuel' cs' w' = Ok w'' → Z.of_nat (bound w'') < 2 ^ 64 →
  ∃ l, log w'' = log w ++ l ∧
    match r with
    | Always => True
    | Times count => ran handle l <= Z.max 1 count
    | Until _ => final_yes handle l
    end.
Proof.
  intros Hh Hrun Hreg Hrun' Hb. pose proof (R_commands _ (R_trigger fuel) _ _ _ _ Hrun) as [Hm1 R1].
  pose proof (R_commands _ (R_trigger fuel') _ _ _ _ Hrun') as [Hm3 R3].
  pose proof (R_register [] r p k f w) as [Hm2 R2]. destruct (register_shape [] r p k f w) as (o & Ho & Er).
  rewrite Hreg in Hm2, R2, Er. cbn [snd] in Hm2, R2. injection Er as -> Ew.
  destruct (R1 ltac:(lia) (sound_new _ _ Hh)) as (Hs & _). destruct (R2 ltac:(lia) Hs) as (Hs' & _).
  destruct (R3 Hb Hs') as (Hs'' & l & El & Fl).
  assert (Hlt : (bound w < bound w')%nat).
  { rewrite Ew. unfold bound. cbn [host]. rewrite given_op. assert (allocates o = 1%nat) as -> by (by destruct o). lia. }
  exists l. split; [by rewrite El, Ew|]. destruct (Fl _ Hlt) as [_ _ Hf _ Hl].
  destruct r as [|count|q]; [done| |done].
  destruct (put_calm [] k o _ (host w) (so_calm _ Hs) Ho) as (_ & v & Hv & Hbr).
  { rewrite Ew in Hm3. unfold bound in *. cbn [host] in Hm3. lia. }
  assert (E : brand_in w' (bound w) = Some (CounterWrapper (length (counters w)), v)).
  { rewrite Ew. unfold brand_in. cbn [host]. by rewrite Hbr, decide_True. }
  specialize (Hl _ _ E). assert (Hl0 : left_of (bound w) w' = Z.max 1 count).
  { unfold left_of. rewrite E. destruct (Z.eqb_spec v 0); [lia|]. rewrite Ew. cbn [counters stored fst snd].
    by rewrite list_lookup_middle. }
  assert (0 <= left_of (bound w) w''); [|lia].
  unfold left_of. destruct (brand_in w'' (bound w)) as [[[] ?]|]; try done. destruct (_ =? 0); [done|]. destruct (counters w'' !! data); lia.
Qed.
End Limits.

(** ** Listeners that leave the lists alone *)

Section Quiet.
Context {K L Q U H : Type} `{EqDecision K} `{!Host H K (Callback L)} `{!HostShape H K (Callback L)}.
Context (body : L → U → list (command K L Q) * U) (ask : Q → U → bool * U).
Local Abbreviation World := (World K L Q U H).
Implicit Types (w : World) (n m data : nat) (l : list nat) (k : K).

Definition quiet : Prop := ∀ f u, (body f u).1 = [].

(** What is left of the count of a node's wrapper, when it has one. *)
Definition count_in w n : option Z :=
  match brand_in w n with
  | Some (CounterWrapper data, _) => triggerCount <$> counters w !! data
  | _ => None
  end.

(** The node is called the [i]-th time from now (from 0). *)
Definition due w (i : nat) n : bool :=
  match count_in w n with Some c => Z.of_nat i <? Z.max 1 c | None => true end.

(** The list of the key, of listeners and counter wrappers. *)
Definition wired w k n : Prop :=
  match brand_in w n with
  | Some (Listener _, _) => True
  | Some (CounterWrapper data, _) =>
      ∃ d, counters w !! data = Some d ∧ counter_handle d = Some n ∧ counter_event d = k ∧ INT_MIN < triggerCount d
  | _ => False
  end.

Record watched k l w : Prop := {
  wd_linked : linked (host_view k (host w)) l;
  wd_knows : host_knows k (host w) = true;
  wd_wired n : n ∈ l → wired w k n
}.

Lemma taken_brand k (h h' : H) a n b : taken (host_view k h) (host_view k h') a n b →
  (∀ m, m ≠ n → host_brand h' m = host_brand h m) ∧ host_brand h' n = (λ b, (b.1, 0)) <$> host_brand h n.
Proof.
  intros Ht. unfold host_brand. rewrite <- (proj1 (shape_view k h)), <- (proj1 (shape_view k h')). split.
  - intros m Hm. rewrite (tk_other _ _ _ _ _ Ht m Hm). destruct (nodes (host_view k h) !! m); cbn; [|done].
    unfold brand. by rewrite take_out_counter, take_out_callback.
  - rewrite (tk_node _ _ _ _ _ Ht). by destruct (nodes (host_view k h) !! n).
Qed.

(** What a call leaves: the node is seen, its count is one less, and it stays if it
    is due again. *)
Record stepped k a n b w w' : Prop := {
  sd_log : log w' = log w ++ [Ran n];
  sd_watched : watched k (a ++ (if due w 1 n then [n] else []) ++ b) w';
  sd_next : next_of (host_view k (host w')) n = hd_error b;
  sd_counter : currentCounter (host_view k (host w')) = currentCounter (host_view k (host w));
  sd_count m : m ∈ a ++ n :: b → count_in w' m = (if decide (m = n) then Z.pred else id) <$> count_in w m
}.

Lemma stepped_same k a n b w u : watched k (a ++ n :: b) w → count_in w n = None → stepped k a n b w (with_user u (saw (Ran n) w)).
Proof.
  intros Hw Hc. split; try done.
  - unfold due. rewrite Hc. cbn [app]. by destruct Hw; split.
  - by eapply linked_next; [apply Hw|].
  - intros m _. change (count_in (with_user u (saw (Ran n) w)) m) with (count_in w m).
    case_decide; [subst; by rewrite Hc|by destruct (count_in w m)].
Qed.

(** The counts of the others do not change with the [Data] of a node. *)
Lemma wired_data w k n m data d : wired w k m → counters w !! data = Some d → counter_handle d = Some n → m ≠ n →
  ∀ data' v, brand_in w m = Some (CounterWrapper data', v) → data' ≠ data.
Proof. unfold wired. intros Hm Ed Eh Hne data' v E ->. rewrite E in Hm. destruct Hm as (d' & Ed' & Eh' & _). congruence. Qed.

Lemma stepped_data k a n b w w' data d v v' :
  let d' := mk_CounterData (triggerCount d - 1) (counter_event d) (counter_listener d) (counter_handle d) in
  watched k (a ++ n :: b) w → brand_in w n = Some (CounterWrapper data, v) → counters w !! data = Some d →
  counter_handle d = Some n → counter_event d = k → log w' = log w ++ [Ran n] → counters w' = <[data := d']> (counters w) →
  (∀ m, m ≠ n → brand_in w' m = brand_in w m) → brand_in w' n = Some (CounterWrapper data, v') →
  linked (host_view k (host w')) (a ++ (if 1 <? triggerCount d then [n] else []) ++ b) → host_knows k (host w') = true →
  next_of (host_view k (host w')) n = hd_error b →
  currentCounter (host_view k (host w')) = currentCounter (host_view k (host w)) → stepped k a n b w w'.
Proof.
  intros d' Hw E Ed Eh Ee El Ec Ho En Hl Hk Hn Hcc.
  assert (Ed' : counters w' !! data = Some d') by (rewrite Ec, list_lookup_insert_eq; [done|by eapply lookup_lt_Some]).
  assert (Hother : ∀ m, m ∈ a ++ n :: b → m ≠ n → ∀ dt v0, brand_in w m = Some (CounterWrapper dt, v0) → counters w' !! dt = counters w !! dt).
  { intros m Hm Hne dt v0 Em. rewrite Ec. apply list_lookup_insert_ne. intros ->.
    by eapply (wired_data w k n m dt d); [by apply Hw|..]. }
  assert (Hdue : due w 1 n = (1 <? triggerCount d)).
  { unfold due, count_in. rewrite E, Ed. cbn [fmap option_fmap option_map]. change (Z.of_nat 1) with 1.
    apply eq_true_iff_eq. rewrite !Z.ltb_lt. lia. }
  split; [done| |done|done|].
  - rewrite Hdue. split; [done|done|]. intros m Hm. destruct (decide (m = n)) as [->|Hne].
    + unfold wired. rewrite En. exists d'. split_and!; [done|done|done|]. unfold INT_MIN. cbn.
      destruct (Z.ltb_spec 1 (triggerCount d)); [lia|]. exfalso. pose proof (lk_nodup _ _ (wd_linked _ _ _ Hw)) as Hd.
      apply NoDup_middle in Hd as (Ha & Hb & _). set_solver.
    + assert (Hin : m ∈ a ++ n :: b) by (destruct (1 <? triggerCount d); set_solver).
      pose proof (wd_wired _ _ _ Hw m Hin) as Hm'. unfold wired in *. rewrite (Ho m Hne).
      destruct (brand_in w m) as [[[f|dt|dt] v0]|] eqn:Em; try done. by rewrite (Hother m Hin Hne dt v0 Em).
  - intros m Hm. unfold count_in. case_decide as D; [subst; by rewrite En, E, Ed, Ed'|]. rewrite (Ho m D).
    destruct (brand_in w m) as [[[f|dt|dt] v0]|] eqn:Em; try done. rewrite (Hother m Hm D dt v0 Em). by destruct (counters w !! dt).
Qed.

(** The callback of a node that is reached. *)
Lemma callback_stepped emit pins k a n b w nd : quiet → watched k (a ++ n :: b) w → nodes (host_view k (host w)) !! n = Some nd →
  ∃ w', run_callback body ask emit pins n (callback nd) w = Ok (true, w') ∧ stepped k a n b w w'.
Proof.
  intros Hquiet Hw En. pose proof (wd_wired _ _ _ Hw n ltac:(set_solver)) as Hn. unfold wired in Hn.
  assert (E : brand_in w n = Some (callback nd, counter nd)).
  { unfold brand_in, host_brand. by rewrite <- (proj1 (shape_view k (host w))), En. }
  rewrite E in Hn. unfold run_callback. destruct (callback nd) as [f|data|data] eqn:Ec; [| |done]; cbn [wrapper_call].
  - cbn [mbind outcome_bind]. specialize (Hquiet f (user w)). destruct (body f (user w)) as [cs u]. cbn in Hquiet. subst cs.
    eexists. split; [done|]. apply (stepped_same k a n b w u Hw). unfold count_in. by rewrite E.
  - destruct Hn as (d & Ed & Eh & Ee & Hmin). unfold counter_call. rewrite Ed. destruct (Z.eqb_spec (triggerCount d) INT_MIN) as [|_]; [lia|].
    cbn [triggerCount counter_event counter_handle counter_listener mbind outcome_bind]. match goal with |- context [body _ (user ?w1)] =>
      specialize (Hquiet (counter_listener d) (user w1)); destruct (body (counter_listener d) (user w1)) as [cs u] end.
    cbn [fst] in Hquiet. subst cs. eexists. split; [done|].
    destruct (take_member (n :: pins) k a n b (host w) (wd_linked _ _ _ Hw) (wd_knows _ _ _ Hw)) as [Ht Hk].
    destruct (Z.leb_spec (triggerCount d - 1) 0) as [Hle|Hgt].
    + replace (unregister (n :: pins) (counter_event d) (counter_handle d)) with (unregister (L := L) (Q := Q) (U := U) (n :: pins) k (Some n))
        by (by rewrite Eh, Ee).
      eapply (stepped_data _ _ _ _ _ _ data d (counter nd) 0); try done.
      * intros m Hm. by apply (taken_brand k _ _ _ _ _ Ht).
      * pose proof (proj2 (taken_brand k _ _ _ _ _ Ht)) as Eb. unfold brand_in in E. rewrite E in Eb. exact Eb.
      * zdec. cbn [app]. by eapply linked_taken; [apply Hw|exact Ht].
      * by eapply (taken_next _ _ a n b); [apply Hw|exact Ht].
      * apply Ht.
    + eapply (stepped_data _ _ _ _ _ _ data d (counter nd) (counter nd)); try done. 
      * zdec. apply Hw.
      * apply Hw.
      * by eapply linked_next; [apply Hw|].
Qed.

Lemma due_next w w' n i : count_in w' n = Z.pred <$> count_in w n → due w 0 n = true →
  due w (S i) n = due w 1 n && due w' i n.
Proof.
  unfold due. intros ->. destruct (count_in w n) as [c|]; [|done]. cbn [fmap option_fmap option_map]. intros H0.
  apply eq_true_iff_eq. rewrite andb_true_iff, !Z.ltb_lt. lia.
Qed.

Lemma filter_due_cons w i n l : filter (due w i) (n :: l) = (if due w i n then [n] else []) ++ filter (due w i) l.
Proof. rewrite filter_cons. by destruct (due w i n). Qed.

Lemma due_count w w' i n : count_in w' n = count_in w n → due w' i n = due w i n.
Proof. unfold due. by intros ->. Qed.

Lemma filter_due_ext w w' i l : (∀ m, m ∈ l → count_in w' m = count_in w m) → filter (due w' i) l = filter (due w i) l.
Proof.
  intros E. induction l as [|m l IH]; [done|]. rewrite !filter_due_cons, IH by set_solver.
  by rewrite (due_count w w') by (apply E; set_solver).
Qed.

(** A walk over what is left ([b]) of a list. *)
Lemma walk_stepped emit pins k snapshot : quiet → ∀ b a fuel w, (length b <= fuel)%nat → watched k (a ++ b) w →
  currentCounter (host_view k (host w)) = snapshot →
  ∃ w', each_if (λ w, host_view k (host w)) (run_callback body ask emit pins) fuel snapshot (hd_error b) w = Ok (true, w') ∧
    log w' = log w ++ map Ran b ∧ watched k (a ++ filter (due w 1) b) w' ∧
    ∀ m, m ∈ a ++ filter (due w 1) b → count_in w' m = (if decide (m ∈ b) then Z.pred else id) <$> count_in w m.
Proof.
  intros Hquiet b. induction b as [|n b IH]; intros a fuel w Hf Hw Hc.
  { exists w. split_and!; [by destruct fuel|by rewrite app_nil_r|done|].
    intros m _. rewrite decide_False by set_solver. by destruct (count_in w m). }
  destruct fuel as [|fuel]; [cbn in Hf; lia|]. cbn [hd_error each_if].
  destruct (lk_node _ _ (wd_linked _ _ _ Hw) a n b eq_refl) as (nd & En & _ & _ & Hcn). rewrite En.
  assert (Hcall : callable snapshot nd = true).
  { unfold callable, removedCounter. rewrite <- Hc. apply andb_true_iff. rewrite negb_true_iff, Z.eqb_neq, Z.leb_le. lia. }
  rewrite Hcall. destruct (callback_stepped emit pins k a n b w nd Hquiet Hw En) as (w1 & -> & Hsd). cbn [mbind outcome_bind].
  pose proof (lk_nodup _ _ (wd_linked _ _ _ Hw)) as Hnd. apply NoDup_middle in Hnd as (Hna & Hnb & _).
  rewrite (sd_next _ _ _ _ _ _ Hsd). destruct (IH (a ++ if due w 1 n then [n] else []) fuel w1) as (w' & -> & El & Hw' & Hcnt).
  { cbn in Hf. lia. }
  { rewrite <- app_assoc. apply Hsd. }
  { by rewrite (sd_counter _ _ _ _ _ _ Hsd). }
  pose proof (sd_count _ _ _ _ _ _ Hsd) as Hcnt1. exists w'. split_and!; [done| | |].
  - rewrite El, (sd_log _ _ _ _ _ _ Hsd), <- app_assoc. done.
  - rewrite filter_due_cons. rewrite <- app_assoc in Hw'. rewrite (filter_due_ext w w1) in Hw'; [done|].
    intros m Hm. rewrite Hcnt1 by set_solver. rewrite decide_False by set_solver. by destruct (count_in w m).
  - rewrite filter_due_cons, (filter_due_ext w1 w) in * by (intros m Hm; rewrite Hcnt1, decide_False by set_solver; by destruct (count_in w m)).
    intros m Hm. rewrite Hcnt by (rewrite <- app_assoc; exact Hm). assert (Hin : m ∈ a ++ n :: b).
    { rewrite !elem_of_app, list_elem_of_filter in Hm. rewrite elem_of_app, elem_of_cons.
      destruct Hm as [Hm|[Hm|[_ Hm]]]; [tauto| |tauto]. destruct (due w 1 n); [|by apply not_elem_of_nil in Hm].
      apply list_elem_of_singleton in Hm. tauto. }
    rewrite Hcnt1 by done. clear Hm Hin. destruct (decide (m = n)) as [->|Hne].
    + rewrite decide_False, decide_True by (done || by left). by destruct (count_in w n).
    + rewrite (decide_ext (m ∈ n :: b) (m ∈ b)) by (rewrite elem_of_cons; tauto). by destruct (count_in w m).
Qed.

Lemma due_now w n : due w 0 n = true.
Proof. unfold due. destruct (count_in w n); [|done]. apply Z.ltb_lt. lia. Qed.

Lemma filter_due_now w l : filter (due w 0) l = l.
Proof. induction l as [|n l IH]; [done|]. rewrite filter_due_cons, due_now, IH. done. Qed.

Lemma filter_due_next w w' i l : (∀ m, m ∈ filter (due w 1) l → count_in w' m = Z.pred <$> count_in w m) →
  filter (due w' i) (filter (due w 1) l) = filter (due w (S i)) l.
Proof.
  induction l as [|n l IH]; intros Hm; [done|]. rewrite filter_due_cons in Hm. rewrite !filter_due_cons, filter_app.
  rewrite IH by (intros m Hin; apply Hm; set_solver). f_equal. destruct (due w 1 n) eqn:E1.
  - rewrite (due_next w w' n i), E1 by (apply Hm || apply due_now; left). cbn [app]. rewrite filter_due_cons. by rewrite app_nil_r.
  - assert (due w (S i) n = false) as ->; [|done]. unfold due in *. destruct (count_in w n); [|done]. rewrite Z.ltb_ge in *. lia.
Qed.

Lemma trigger_stepped fuel k l w : quiet → watched k l w → (length l <= fuel)%nat →
  ∃ w', trigger body ask (S fuel) [] k w = Ok w' ∧ log w' = log w ++ map Ran l ∧ watched k (filter (due w 1) l) w' ∧
    ∀ m, m ∈ filter (due w 1) l → count_in w' m = Z.pred <$> count_in w m.
Proof.
  intros Hquiet Hw Hf. destruct (walk_stepped (trigger body ask fuel) [] k _ Hquiet l [] fuel w Hf Hw eq_refl) as (w' & E & El & Hw' & Hc).
  exists w'. split_and!; [|done|done|].
  - cbn [trigger]. rewrite (wd_knows _ _ _ Hw). unfold each. by rewrite (lk_head _ _ (wd_linked _ _ _ Hw)), E.
  - intros m Hm. rewrite Hc by done. rewrite decide_True; [done|]. by apply list_elem_of_filter in Hm as [_ Hm].
Qed.

(** The event is triggered [j] times. *)
Fixpoint triggers (fuel : nat) k (j : nat) w : outcome World :=
  match j with
  | O => Ok w
  | S j => w ← trigger body ask fuel [] k w; triggers fuel k j w
  end.

End Quiet.

(** ** Samples *)

(** Listener 7 triggers the list it is called from; the others do nothing.  A
    condition holds when the user's number has reached it. *)
Definition sample_body (f u : Z) : list (command unit Z Z) * Z := (if f =? 7 then [Trigger tt] else [], u + 1).
Definition sample_ask (q u : Z) : bool * Z := (q <=? u, u).
Definition quiet_body (f u : Z) : list (command unit Z Z) * Z := ([], u).

Abbreviation sample_world := (World unit Z Z Z (CallbackList (Callback Z))).
Definition sample_start : sample_world := new_World new_CallbackList 0.
Definition ok_or {A} (d : A) (o : outcome A) : A := match o with Ok a => a | _ => d end.

Definition limits_before : sample_world := ok_or sample_start (run sample_body sample_ask 9 [Register Always AtEnd tt 5] sample_start).
Definition limits_added (r : remover Z) : nat * sample_world := register [] r AtFront tt 7 limits_before.
Definition limits_after (r : remover Z) : sample_world :=
  ok_or sample_start (run sample_body sample_ask 9 [Trigger tt; Trigger tt] (limits_added r).2).

Lemma remover_limits_witness :
  (∃ l, log (limits_after (Times 2)) = log limits_before ++ l ∧ ran (limits_added (Times 2)).1 l <= 2) ∧
  (∃ l, log (limits_after (Until 3)) = log limits_before ++ l ∧ final_yes (limits_added (Until 3)).1 l) ∧
  log (limits_after (Times 2)) = [Ran 1; Ran 1; Ran 0; Ran 0; Ran 0; Ran 0]%nat ∧
  log (limits_after (Until 3)) = [Asked 1 false; Ran 1; Asked 1 false; Ran 1; Asked 1 false; Ran 1; Asked 1 true; Ran 1;
    Ran 0; Ran 0; Ran 0; Ran 0; Ran 0; Ran 0]%nat.
Proof.
  split_and!; [| |by vm_compute|by vm_compute].
  - by apply (remover_limits sample_body sample_ask new_CallbackList 0 9 9 [Register Always AtEnd tt 5] [Trigger tt; Trigger tt]
      (Times 2) AtFront tt 7 limits_before (limits_added (Times 2)).2 (limits_added (Times 2)).1 (limits_after (Times 2)));
      vm_compute.
  - by apply (remover_limits sample_body sample_ask new_CallbackList 0 9 9 [Register Always AtEnd tt 5] [Trigger tt; Trigger tt]
      (Until 3) AtFront tt 7 limits_before (limits_added (Until 3)).2 (limits_added (Until 3)).1 (limits_after (Until 3)));
      vm_compute.
Defined.

Definition exact_world : sample_world :=
  ok_or sample_start (run quiet_body sample_ask 9
    [Register (Times 2) AtEnd tt 5; Register Always AtEnd tt 6; Register (Times 0) AtFront tt 8] sample_start).

Lemma exact_watched : watched tt [2; 0; 1]%nat exact_world.
Proof.
  split; [|done|].
  - replace (host_view tt (host exact_world)) with
      (apply_ops [] [Append (CounterWrapper 0); Append (Listener 6); Prepend (CounterWrapper 1)] (@new_CallbackList (Callback Z)))
      by (by vm_compute).
    exact (h_linked _ _ _ (holds_ops [Append (CounterWrapper 0); Append (Listener 6); Prepend (CounterWrapper 1)] eq_refl)).
  - intros n Hn. rewrite !elem_of_cons, elem_of_nil in Hn. destruct Hn as [->|[->|[->|[]]]]; vm_compute; [|by eauto 10|done].
    all: by eexists.
Qed.

