(* ===== verification/TcpConnection.v ===== *)
(** A server connection on its event loop (src/MiniProtobufServer/TcpServer.{h,cpp},
    src/Shared/code/utility/BaseSocketConnection.cpp) with the composed operations
    of asio it starts (src/Shared/asio/asio/include/asio: impl/write.hpp,
    impl/read.hpp, basic_streambuf.hpp).

    [io_context::run] is called by one thread, so handlers run one at a time, in
    the order they were posted.  The socket belongs to the environment: when a
    read delivers, how much a write takes and when either completes is an event of
    the schedule.  A write hands the bytes to the socket as they are when it is
    started. *)

From S2P Require Import Prelude CodedStream WireFormat BaseCmd Messages MessageRoute.

(** [detail::write_op]: the bytes still to be written, and how many have been. *)
Record write_op := mk_write_op { wo_buffers : bytes; wo_total_consumed : Z }.

(** Posted functions and completions waiting in the [io_context]. *)
Inductive handler :=
  | H_start_read
  | H_Process
  | H_Send
  | H_read_some (ec : bool) (data : bytes)
  | H_write_some (op : write_op) (ec : bool) (bytes_transferred : Z).

Section Connection.
Context {W : Type} (linked : bytes → bool) (dispatcher : option (ProcessorMap W)).

(** A [TcpConnection] with the part of its [io_context] and socket it uses:
    [ready] are the handlers to run, [reading] and [writing] the operations the
    socket has not completed, [incoming] what the peer has sent and no read has
    taken yet, [wire] what the socket has taken for the peer. *)
Record Session := mk_Session {
  app : W;
  m_spMessageRoute : MessageRoute;
  input_buffer_ : bytes;
  totalrec : Z;
  error : bool;
  ready : list handler;
  reading : bool;
  writing : list write_op;
  incoming : bytes;
  wire : bytes
}.

Definition set_app (v : W) (s : Session) : Session :=
  mk_Session v (m_spMessageRoute s) (input_buffer_ s) (totalrec s) (error s) (ready s) (reading s) (writing s) (incoming s) (wire s).
Definition set_route (v : MessageRoute) (s : Session) : Session :=
  mk_Session (app s) v (input_buffer_ s) (totalrec s) (error s) (ready s) (reading s) (writing s) (incoming s) (wire s).
Definition set_input (v : bytes) (s : Session) : Session :=
  mk_Session (app s) (m_spMessageRoute s) v (totalrec s) (error s) (ready s) (reading s) (writing s) (incoming s) (wire s).
Definition set_totalrec (v : Z) (s : Session) : Session :=
  mk_Session (app s) (m_spMessageRoute s) (input_buffer_ s) v (error s) (ready s) (reading s) (writing s) (incoming s) (wire s).
Definition set_error (v : bool) (s : Session) : Session :=
  mk_Session (app s) (m_spMessageRoute s) (input_buffer_ s) (totalrec s) v (ready s) (reading s) (writing s) (incoming s) (wire s).
Definition set_ready (v : list handler) (s : Session) : Session :=
  mk_Session (app s) (m_spMessageRoute s) (input_buffer_ s) (totalrec s) (error s) v (reading s) (writing s) (incoming s) (wire s).
Definition set_reading (v : bool) (s : Session) : Session :=
  mk_Session (app s) (m_spMessageRoute s) (input_buffer_ s) (totalrec s) (error s) (ready s) v (writing s) (incoming s) (wire s).
Definition set_writing (v : list write_op) (s : Session) : Session :=
  mk_Session (app s) (m_spMessageRoute s) (input_buffer_ s) (totalrec s) (error s) (ready s) (reading s) v (incoming s) (wire s).
Definition set_incoming (v : bytes) (s : Session) : Session :=
  mk_Session (app s) (m_spMessageRoute s) (input_buffer_ s) (totalrec s) (error s) (ready s) (reading s) (writing s) v (wire s).
Definition set_wire (v : bytes) (s : Session) : Session :=
  mk_Session (app s) (m_spMessageRoute s) (input_buffer_ s) (totalrec s) (error s) (ready s) (reading s) (writing s) (incoming s) v.

(** A connection made for a fresh route. *)
Definition new_TcpConnection (w : W) (spmr : MessageRoute) (garbage : Z) (incoming : bytes) : Session :=
  mk_Session w spmr [] garbage false [] false [] incoming [].

(** [io_context_.post]. *)
Definition post (h : handler) (s : Session) : Session := set_ready (ready s ++ [h]) s.

Definition start (s : Session) : Session := post H_Process (post H_start_read (set_totalrec 0 s)).

Definition start_read (s : Session) : Session := set_reading true s.

Definition SendData (s : Session) : Session := if error s then s else post H_Send s.

(** [Send]: [async_write] of the route's send buffer. *)
Definition Send (s : Session) : Session :=
  set_writing (writing s ++ [mk_write_op (mDataStreamSend (m_spMessageRoute s)) 0]) s.

Definition ReadData (s : Session) : Session :=
  let '(buf, r) := Receive (input_buffer_ s) (m_spMessageRoute s) in set_input buf (set_route r s).

Definition handle_read (ec : bool) (s : Session) : Session :=
  if ec then set_error true s
  else
    let s := set_totalrec (u32 (totalrec s + zlen (input_buffer_ s))) s in
    let s := ReadData s in
    if error s then s else post H_start_read s.

Definition Process (s : Session) : outcome Session :=
  '(_, w, r) ← ProcessRecv linked dispatcher (app s) (m_spMessageRoute s);
  let '(_, s, r) := ProcessSend (λ s r, (SendData s, r)) (set_app w s) r in
  let s := set_route r s in
  Ok (if error s then s else post H_Process s).

(** *** asio's composed operations *)

(** [basic_streambuf::consume]. *)
Definition consume (n : Z) (buf : bytes) : bytes := drop (Z.to_nat (Z.min n (zlen buf))) buf.

(** [read_dynbuf_op] with [transfer_at_least(1)]: one [async_read_some] is enough. *)
Definition read_dynbuf_op (ec : bool) (data : bytes) (s : Session) : Session :=
  handle_read ec (set_input (input_buffer_ s ++ data) s).

(** The end of [write_dynbuf_op]; [handle_write] does nothing. *)
Definition write_dynbuf_op (bytes_transferred : Z) (s : Session) : Session :=
  let r := m_spMessageRoute s in
  set_route (set_send (consume bytes_transferred (mDataStreamSend r)) r) s.

(** [write_op::operator()] with [transfer_all]: the step that has ended is counted
    in, and either the write is over or the next [async_write_some] starts. *)
Definition advance_write_op (op : write_op) (bytes_transferred : Z) : write_op :=
  mk_write_op (drop (Z.to_nat bytes_transferred) (wo_buffers op)) (wo_total_consumed op + bytes_transferred).

Definition write_over (op : write_op) (ec : bool) (bytes_transferred : Z) : bool :=
  (negb ec && (bytes_transferred =? 0)) || (zlen (wo_buffers (advance_write_op op bytes_transferred)) =? 0) || ec.

Definition resume_write_op (op : write_op) (ec : bool) (bytes_transferred : Z) (s : Session) : Session :=
  if write_over op ec bytes_transferred
  then write_dynbuf_op (wo_total_consumed (advance_write_op op bytes_transferred)) s
  else set_writing (writing s ++ [advance_write_op op bytes_transferred]) s.

(** *** The event loop *)

Definition run_handler (h : handler) (s : Session) : outcome Session :=
  match h with
  | H_start_read => Ok (start_read s)
  | H_Process => Process s
  | H_Send => Ok (Send s)
  | H_read_some ec data => Ok (read_dynbuf_op ec data s)
  | H_write_some op ec n => Ok (resume_write_op op ec n s)
  end.

(** What can happen next: the loop runs its first handler, the pending read
    delivers [n] bytes or fails, a pending write takes [n] bytes (at most 65536, at
    least one unless there is none) or fails. *)
Inductive io_event :=
  | Run
  | Arrives (n : nat)
  | ReadFails
  | Transfers (i : nat) (n : Z)
  | WriteFails (i : nat).

Definition takes (op : write_op) (n : Z) : bool :=
  (n <=? Z.min 65536 (zlen (wo_buffers op))) && ((1 <=? n) || ((n =? 0) && (zlen (wo_buffers op) =? 0))).

(** An event that cannot happen changes nothing. *)
Definition step (e : io_event) (s : Session) : outcome Session :=
  match e with
  | Run =>
      match ready s with
      | h :: hs => run_handler h (set_ready hs s)
      | [] => Ok s
      end
  | Arrives n =>
      Ok (if reading s && (0 <? zlen (take n (incoming s))) then
            post (H_read_some false (take n (incoming s)))
              (set_incoming (drop n (incoming s)) (set_reading false s))
          else s)
  | ReadFails => Ok (if reading s then post (H_read_some true []) (set_reading false s) else s)
  | Transfers i n =>
      match writing s !! i with
      | Some op =>
          Ok (if takes op n then
                post (H_write_some op false n)
                  (set_writing (delete i (writing s)) (set_wire (wire s ++ take (Z.to_nat n) (wo_buffers op)) s))
              else s)
      | None => Ok s
      end
  | WriteFails i =>
      match writing s !! i with
      | Some op => Ok (post (H_write_some op true 0) (set_writing (delete i (writing s)) s))
      | None => Ok s
      end
  end.

Fixpoint run_loop (evs : list io_event) (s : Session) : outcome Session :=
  match evs with
  | [] => Ok s
  | e :: evs => s ← step e s; run_loop evs s
  end.

End Connection.

Arguments Session : clear implicits.
