(* ===== verification/TcpConnectionFacts.v ===== *)
(** A server connection answers over its socket what its dispatcher answers: the
    invariant that ties the socket's bytes to the route's buffers, for every
    schedule in which a write has completed before the loop gets to the next
    [Send]; what happens when it has not; and how a connection ends. *)

From S2P Require Import Prelude CodedStream WireFormat BaseCmd BaseCmdFacts Messages MessageRoute MessageRouteFacts.
From S2P Require Import ServerDispatch TcpConnection.

Section Facts.
Context {W : Type} (linked : bytes → bool) (dispatcher : option (ProcessorMap W)).
Implicit Types s : Session W.

(** ** Bytes on their way *)

(** Received bytes whose completion has not run. *)
Definition handler_data (h : handler) : bytes := match h with H_read_some _ data => data | _ => [] end.
Definition read_ahead s : bytes := concat (map handler_data (ready s)).

(** Writes that are not finished, with what the socket took in the running step. *)
Definition handler_write (h : handler) : option (write_op * Z) :=
  match h with H_write_some op _ n => Some (op, n) | _ => None end.
Definition outstanding s : list (write_op * Z) := map (λ op, (op, 0)) (writing s) ++ omap handler_write (ready s).

(** The schedules considered: no failures, and [Send] runs only when no write is
    outstanding. *)
Definition paced (e : io_event) s : bool :=
  match e with
  | Run => match ready s with H_Send :: _ => bool_decide (length (outstanding s) = 0%nat) | _ => true end
  | ReadFails | WriteFails _ => false
  | _ => true
  end.

Fixpoint paced_run (evs : list io_event) s : bool :=
  match evs with
  | [] => true
  | e :: evs =>
      paced e s && match step linked dispatcher e s with Ok s' => paced_run evs s' | _ => true end
  end.

(** ** The invariant *)

(** Of the send buffer [stream], the first [k] bytes are on the wire and not yet
    consumed. *)
Inductive flight (stream : bytes) : list (write_op * Z) → nat → Prop :=
  | flight_none : flight stream [] 0
  | flight_one op k sent tail :
      stream = sent ++ wo_buffers op ++ tail → wo_total_consumed op = zlen sent → (k <= length (wo_buffers op))%nat →
      flight stream [(op, Z.of_nat k)] (length sent + k).

Lemma flight_extend stream new ops k : flight stream ops k →
  flight (stream ++ new) ops k ∧ take k (stream ++ new) = take k stream.
Proof.
  intros [|op j sent tail E Ht Hj]; [by split; [constructor|]|]. split.
  - apply (flight_one _ op j sent (tail ++ new)); [|done|done]. by rewrite E, <- !app_assoc.
  - apply take_app_le. rewrite E, !length_app. lia.
Qed.

Context (P : AnyMessage → Prop) (HP : ∀ x, P x → sendable x).
Context (answer : W → AnyMessage → W * bytes).

(** The outside step of a dispatcher that appends its answers. *)
Definition out_step (o : W * bytes) (x : AnyMessage) : W * bytes :=
  let '(w, out) := answer (fst o) x in (w, snd o ++ out).

Context (Hstep : handles dispatcher P out_step) (rest : bytes).

(** After the messages behind [o] have been handled and with [todo] to come, [c]
    being the bytes consumed from the send buffer, [rest] what the peer has not
    sent yet. *)
Record good (o : W * bytes) (todo : list AnyMessage) (c : bytes) (k : nat) s : Prop := {
  g_route : route_ok (m_spMessageRoute s);
  g_todo : Forall P todo;
  g_in : pending (m_spMessageRoute s) ++ input_buffer_ s ++ read_ahead s ++ incoming s ++ rest = concat (map frame todo);
  g_flight : flight (mDataStreamSend (m_spMessageRoute s)) (outstanding s) k;
  g_wire : wire s = c ++ take k (mDataStreamSend (m_spMessageRoute s));
  g_out : (app s, c ++ mDataStreamSend (m_spMessageRoute s)) = o;
  g_error : error s = false;
  g_reads : Forall (λ h, match h with H_read_some ec _ | H_write_some _ ec _ => ec = false | _ => True end) (ready s)
}.

Lemma read_ahead_post h s : read_ahead (post h s) = read_ahead s ++ handler_data h.
Proof. unfold read_ahead, post. cbn. rewrite map_app, concat_app. cbn. by rewrite app_nil_r. Qed.

Lemma outstanding_post h s : outstanding (post h s) = outstanding s ++ option_list (handler_write h).
Proof. unfold outstanding, post. cbn. rewrite omap_app, app_assoc. by f_equal. Qed.

(** *** The loop takes its first handler *)

Lemma popped_read_ahead h hs s : ready s = h :: hs → read_ahead s = handler_data h ++ read_ahead (set_ready hs s).
Proof. unfold read_ahead. by intros ->. Qed.

Lemma popped_outstanding h hs s : ready s = h :: hs → handler_write h = None →
  outstanding (set_ready hs s) = outstanding s.
Proof. intros E Hw. unfold outstanding. rewrite E. cbn. by rewrite Hw. Qed.

Lemma flight_single stream ops k x : flight stream ops k → x ∈ ops → ops = [x].
Proof. intros [|op j sent tail _ _ _] Hx; [set_solver|]. by apply list_elem_of_singleton in Hx as ->. Qed.

Lemma popped_write op n hs s stream k : ready s = H_write_some op false n :: hs → flight stream (outstanding s) k →
  writing s = [] ∧ outstanding (set_ready hs s) = [] ∧ outstanding s = [(op, n)].
Proof.
  intros E Hf. assert (Ho : outstanding s = [(op, n)]).
  { apply (flight_single _ _ _ _ Hf). unfold outstanding. rewrite E. cbn. set_solver. }
  split_and!; [| |done]; unfold outstanding in Ho |- *; rewrite E in Ho; cbn in Ho |- *.
  - destruct (writing s) as [|op' ops]; [done|]. cbn in Ho. by destruct ops.
  - destruct (writing s) as [|op' ops]; cbn in Ho |- *; [by injection Ho|]. by destruct ops.
Qed.

(** A handler that touches neither buffer nor pending write. *)
Lemma good_pop o todo c k h hs s : good o todo c k s → ready s = h :: hs → handler_data h = [] → handler_write h = None →
  good o todo c k (set_ready hs s).
Proof.
  intros [] E Hd Hw. split; try done.
  - rewrite (popped_read_ahead _ _ _ E), Hd in g_in0. done.
  - by rewrite (popped_outstanding _ _ _ E Hw).
  - rewrite E in g_reads0. by inversion g_reads0.
Qed.

Lemma good_post o todo c k h s : good o todo c k s → handler_data h = [] → handler_write h = None →
  match h with H_read_some ec _ | H_write_some _ ec _ => ec = false | _ => True end →
  good o todo c k (post h s).
Proof.
  intros [] Hd Hw He. split; try done.
  - rewrite read_ahead_post, Hd, app_nil_r. done.
  - rewrite outstanding_post, Hw. cbn. by rewrite app_nil_r.
  - apply Forall_app. by split; [|constructor].
Qed.

(** *** The handlers *)

Lemma good_start_read o todo c k s : good o todo c k s → good o todo c k (start_read s).
Proof. by intros []. Qed.

Lemma good_SendData o todo c k s : good o todo c k s → good o todo c k (SendData s).
Proof. intros Hg. unfold SendData. rewrite (g_error _ _ _ _ _ Hg). by apply good_post. Qed.

(** What follows [ProcessRecv] keeps the invariant. *)
Lemma good_send_and_repost o todo c k w r s : good o todo c k (set_route r (set_app w s)) →
  ∃ s', (let '(_, s1, r1) := ProcessSend (λ s r, (SendData s, r)) (set_app w s) r in
         let s2 := set_route r1 s1 in Ok (if error s2 then s2 else post H_Process s2)) = Ok s' ∧ good o todo c k s'.
Proof.
  intros Hg. pose proof (g_error _ _ _ _ _ Hg) as He. cbn in He. unfold ProcessSend.
  destruct (zlen (mDataStreamSend r) =? 0); cbn; rewrite ?He; eexists; (split; [reflexivity|]).
  - by apply good_post.
  - unfold SendData. cbn. rewrite He. cbn. rewrite He. apply good_post; [|done..].
    by apply (good_post _ _ _ _ H_Send) in Hg.
Qed.

Lemma out_step_frame c w out x : out_step (w, c ++ out) x = ((out_step (w, out) x).1, c ++ (out_step (w, out) x).2).
Proof. unfold out_step. cbn. destruct (answer w x). cbn. by rewrite app_assoc. Qed.

Lemma good_Process o todo c k s : good o todo c k s →
  ∃ s', Process linked dispatcher s = Ok s' ∧
    (good o todo c k s' ∨ ∃ x todo', todo = x :: todo' ∧ good (out_step o x) todo' c k s').
Proof.
  intros Hg. pose proof Hg as [Hr Ht Hi Hf Hw Ho He Hh]. unfold Process.
  destruct (tick_cases linked dispatcher P HP out_step Hstep todo (input_buffer_ s ++ read_ahead s ++ incoming s ++ rest) (app s)
    (m_spMessageRoute s) Ht Hr Hi) as (b & w' & r' & -> & Hr' & Hcase). cbn [mbind outcome_bind].
  destruct Hcase as [(x & todo' & -> & Eo & Ep)|(Eo & Ep & _)].
  - assert (Hgood : good (out_step o x) todo' c k (set_route r' (set_app w' s))).
    { subst o. rewrite out_step_frame. unfold outside in Eo. rewrite <- Eo. cbn [fst snd].
      unfold out_step in Eo. cbn [fst snd] in Eo. destruct (answer (app s) x) as [w2 out]. injection Eo as -> Es.
      split; try done.
      - by inversion Ht.
      - cbn. rewrite Es. by apply (flight_extend _ out).
      - cbn. rewrite Es. by rewrite (proj2 (flight_extend _ out _ _ Hf)). }
    destruct (good_send_and_repost _ _ _ _ _ _ _ Hgood) as (s' & E & Hg'). exists s'. split; [exact E|right; by eexists _, _].
  - assert (Hgood : good o todo c k (set_route r' (set_app w' s))).
    { unfold outside in Eo. injection Eo as -> Es. split; cbn; rewrite ?Es; try done. by rewrite Ep. }
    destruct (good_send_and_repost _ _ _ _ _ _ _ Hgood) as (s' & E & Hg'). exists s'. split; [exact E|by left].
Qed.

Lemma good_Send o todo c k s : good o todo c k s → outstanding s = [] → good o todo c k (Send s).
Proof.
  intros [] E. rewrite E in g_flight0. inversion g_flight0; subst k. split; try done.
  unfold outstanding in *. cbn. apply app_eq_nil in E as [E1 E2]. apply map_eq_nil in E1. rewrite E1, E2. cbn.
  apply (flight_one _ (mk_write_op _ 0) 0 [] []); cbn; [by rewrite app_nil_r|done|lia].
Qed.

Lemma good_ReadData o todo c k t data hs s : good o todo c k s → ready s = H_read_some false data :: hs →
  good o todo c k (ReadData (set_totalrec t (set_input (input_buffer_ s ++ data) (set_ready hs s)))).
Proof.
  intros [] E. rewrite E in g_reads0. apply Forall_cons in g_reads0 as [_ Hh].
  unfold ReadData. cbn [input_buffer_ set_input set_totalrec m_spMessageRoute set_ready].
  pose proof (Receive_pending (input_buffer_ s ++ data) (m_spMessageRoute s)) as Hp.
  destruct (Receive_spec (input_buffer_ s ++ data) (m_spMessageRoute s)) as (temp & ER). rewrite ER in Hp |- *.
  cbn [snd] in Hp. split; try done.
  - rewrite (popped_read_ahead _ _ _ E) in g_in0.
    change (pending (set_receive (mDataStreamReceive (m_spMessageRoute s) ++ input_buffer_ s ++ data)
      (set_temp temp (m_spMessageRoute s))) ++ read_ahead (set_ready hs s) ++ incoming s ++ rest = concat (map frame todo)).
    by rewrite Hp, <- g_in0, <- !app_assoc.
  - rewrite <- (popped_outstanding _ _ _ E eq_refl) in g_flight0. exact g_flight0.
Qed.

Lemma ReadData_error s : error (ReadData s) = error s.
Proof. unfold ReadData. by destruct (Receive (input_buffer_ s) (m_spMessageRoute s)). Qed.

Lemma good_read o todo c k data hs s : good o todo c k s → ready s = H_read_some false data :: hs →
  good o todo c k (read_dynbuf_op false data (set_ready hs s)).
Proof.
  intros Hg E. unfold read_dynbuf_op, handle_read. rewrite ReadData_error. cbn [error set_totalrec set_input set_ready].
  rewrite (g_error _ _ _ _ _ Hg). apply good_post; [|done..]. by apply (good_ReadData _ _ _ _ _ data hs s).
Qed.

(** The running step of a write: its bytes are consumed when it ends. *)
Lemma consume_spec n buf : 0 <= n → consume n buf = drop (Z.to_nat n) buf.
Proof.
  intros Hn. unfold consume. destruct (Z.le_gt_cases n (zlen buf)) as [Hl|Hl]; [by rewrite Z.min_l|].
  rewrite Z.min_r by lia. unfold zlen in *. by rewrite !drop_ge by lia.
Qed.

Lemma good_write o todo c k op n hs s : good o todo c k s → ready s = H_write_some op false n :: hs →
  ∃ c' k', good o todo c' k' (resume_write_op op false n (set_ready hs s)).
Proof.
  intros [] E. destruct (popped_write _ _ _ _ _ _ E g_flight0) as (Ew & Eo & Es). rewrite Es in g_flight0.
  inversion g_flight0 as [|op' j sent tail Estr Etot Hj]; subst op' n k.
  pose proof E as Er. rewrite E in g_reads0. apply Forall_cons in g_reads0 as [_ Hh].
  pose proof (popped_read_ahead _ _ _ E) as Ed. rewrite Ed in g_in0. cbn [handler_data app] in g_in0.
  unfold resume_write_op, write_over, advance_write_op. rewrite Nat2Z.id. cbn [wo_buffers wo_total_consumed].
  replace (wo_total_consumed op + Z.of_nat j) with (Z.of_nat (length sent + j)) by (unfold zlen in Etot; lia).
  set (stream := mDataStreamSend (m_spMessageRoute s)) in *.
  destruct ((negb false && (Z.of_nat j =? 0)) || (zlen (drop j (wo_buffers op)) =? 0) || false).
  - exists (c ++ take (length sent + j) stream), 0%nat. unfold write_dynbuf_op. rewrite consume_spec, Nat2Z.id by lia.
    split; try done.
    + change (flight (drop (length sent + j) stream) (outstanding (set_ready hs s)) 0). rewrite Eo. constructor.
    + cbn. by rewrite take_0, app_nil_r.
    + cbn. rewrite <- app_assoc. fold stream. by rewrite take_drop.
  - exists c, (length sent + j)%nat. split; try done.
    unfold outstanding in Eo |- *. apply app_eq_nil in Eo as [_ Eo]. cbn [writing ready set_writing set_ready] in Eo |- *.
    rewrite Ew, Eo. cbn [map app].
    replace (length sent + j)%nat with (length (sent ++ take j (wo_buffers op)) + 0)%nat
      by (rewrite length_app, length_take; lia).
    apply (flight_one _ _ 0 _ tail); cbn [wo_buffers wo_total_consumed]; [|unfold zlen; rewrite length_app, length_take; lia|lia].
    rewrite <- app_assoc, (app_assoc (take _ _)), take_drop. exact Estr.
Qed.

(** *** Events *)

Lemma good_Transfers o todo c k i n op s : good o todo c k s → writing s !! i = Some op → takes op n = true →
  ∃ k', good o todo c k'
    (post (H_write_some op false n)
       (set_writing (delete i (writing s)) (set_wire (wire s ++ take (Z.to_nat n) (wo_buffers op)) s))).
Proof.
  intros [] Ei Hn. assert (Ho : outstanding s = [(op, 0)]).
  { apply (flight_single _ _ _ _ g_flight0). unfold outstanding. apply elem_of_app. left.
    apply list_elem_of_fmap. exists op. split; [done|]. by apply list_elem_of_lookup_2 in Ei. }
  rewrite Ho in g_flight0. inversion g_flight0 as [|op' j sent tail Estr Etot Hj Eop Ek]; subst op' k.
  assert (j = 0%nat) as -> by lia. unfold takes in Hn. pose proof (zlen_nonneg (wo_buffers op)).
  apply andb_true_iff in Hn as [Hn1 Hn2]. apply Z.leb_le in Hn1.
  assert (Hn : 0 <= n) by (destruct (Z.leb_spec 1 n); [lia|]; destruct (Z.eqb_spec n 0); [lia|done]).
  assert (Ew : writing s = [op] ∧ omap handler_write (ready s) = []).
  { unfold outstanding in Ho. destruct (writing s) as [|op1 [|op2 ops]]; cbn in Ho; [by destruct i| |done].
    injection Ho as -> Ho. done. }
  destruct Ew as [Ew Er]. rewrite Ew in Ei |- *. destruct i; [|by destruct i]. cbn [delete list_delete].
  exists (length sent + Z.to_nat n)%nat. set (stream := mDataStreamSend (m_spMessageRoute s)) in *.
  split; try done.
  - rewrite read_ahead_post. cbn [handler_data]. rewrite app_nil_r. done.
  - rewrite outstanding_post. unfold outstanding. cbn [writing ready set_writing set_wire handler_write option_list].
    rewrite Er. cbn [map app option_list option_rect]. replace [(op, n)] with [(op, Z.of_nat (Z.to_nat n))] by (by rewrite Z2Nat.id).
    apply (flight_one _ _ _ _ tail); [exact Estr|done|unfold zlen in *; lia].
  - cbn [wire post set_ready set_writing set_wire m_spMessageRoute]. fold stream. rewrite g_wire0, <- app_assoc. f_equal.
    rewrite Nat.add_0_r, Estr, take_app_length, take_app_add, take_app_le by (unfold zlen in *; lia). done.
  - cbn. apply Forall_app. by split; [|constructor].
Qed.

Lemma good_step e o todo c k s : good o todo c k s → paced e s = true →
  ∃ s' c' k', step linked dispatcher e s = Ok s' ∧
    (good o todo c' k' s' ∨ ∃ x todo', todo = x :: todo' ∧ good (out_step o x) todo' c' k' s').
Proof.
  intros Hg Hp. destruct e as [|n| |i n|i]; cbn [step paced] in *; try done.
  - destruct (ready s) as [|h hs] eqn:E; [by exists s, c, k; split; [|left]|].
    pose proof (g_reads _ _ _ _ _ Hg) as Hh. rewrite E in Hh. apply Forall_cons in Hh as [Hh _].
    destruct h as [| | |ec data|op ec n]; cbn [run_handler].
    + eexists _, c, k. split; [done|left]. apply good_start_read. by eapply good_pop.
    + destruct (good_Process o todo c k (set_ready hs s)) as (s' & E' & Hc); [by eapply good_pop|]. by exists s', c, k.
    + eexists _, c, k. split; [done|left]. apply bool_decide_eq_true, nil_length_inv in Hp.
      apply good_Send; [by eapply good_pop|]. by rewrite (popped_outstanding _ _ _ E).
    + subst ec. eexists _, c, k. split; [done|left]. by apply good_read.
    + subst ec. destruct (good_write _ _ _ _ _ _ _ _ Hg E) as (c' & k' & Hg'). eexists _, c', k'. split; [done|by left].
  - destruct (reading s && _); [|by exists s, c, k; split; [|left]]. eexists _, c, k. split; [done|left].
    destruct Hg. split; try done.
    + rewrite read_ahead_post. cbn [handler_data].
      change (pending (m_spMessageRoute s) ++ input_buffer_ s ++ (read_ahead s ++ take n (incoming s)) ++ drop n (incoming s) ++ rest
        = concat (map frame todo)).
      by rewrite <- (app_assoc (read_ahead s)), (app_assoc (take _ _)), take_drop.
    + rewrite outstanding_post. cbn [handler_write option_list option_rect]. rewrite app_nil_r. exact g_flight0.
    + cbn. apply Forall_app. by split; [|constructor].
  - destruct (writing s !! i) as [op|] eqn:E; [|by exists s, c, k; split; [|left]].
    destruct (takes op n) eqn:Et; [|by exists s, c, k; split; [|left]].
    destruct (good_Transfers _ _ _ _ _ _ _ _ Hg E Et) as (k' & Hg'). eexists _, c, k'. split; [done|by left].
Qed.

Lemma good_run evs o todo c k s : good o todo c k s → paced_run evs s = true →
  ∃ dn td s' c' k', todo = dn ++ td ∧ run_loop linked dispatcher evs s = Ok s' ∧
    good (fold_left out_step dn o) td c' k' s'.
Proof.
  revert o todo c k s. induction evs as [|e evs IH]; intros o todo c k s Hg Hp; [by exists [], todo, s, c, k|].
  cbn [paced_run run_loop] in *. apply andb_true_iff in Hp as [Hp1 Hp2].
  destruct (good_step e _ _ _ _ _ Hg Hp1) as (s1 & c1 & k1 & E & [Hg1|(x & todo' & -> & Hg1)]);
    rewrite E in Hp2 |- *; cbn [mbind outcome_bind];
    destruct (IH _ _ _ _ _ Hg1 Hp2) as (dn & td & s' & c' & k' & -> & Er & Hg').
  - by exists dn, td, s', c', k'.
  - by exists (x :: dn), td, s', c', k'.
Qed.

Lemma good_start w r garbage todo inc : Forall P todo → mPreRecivesTotalLen r = 0 → mDataStreamReceive r = [] →
  mDataStreamSend r = [] → inc ++ rest = concat (map frame todo) →
  good (w, []) todo [] 0 (start (new_TcpConnection w r garbage inc)).
Proof.
  intros Ht Hp Hr Hs Hi. split; cbn; rewrite ?Hs; try done.
  - unfold route_ok. rewrite Hp. znorm. lia.
  - unfold pending. by rewrite Hp, Hr.
  - constructor.
  - repeat constructor.
Qed.
End Facts.

(** ** The server's connection *)

Definition server_answer (w : console) (x : AnyMessage) : console * bytes :=
  match reply x with Some (line, y) => (w ++ [line], frame y) | None => (w, []) end.

Lemma server_out_step o x : out_step server_answer o x = server_step o x.
Proof.
  destruct o as [w out]. unfold out_step, server_answer, server_step. destruct (reply x) as [[line y]|]; [done|].
  cbn. by rewrite app_nil_r.
Qed.

Lemma server_out_handles : handles (Some ServerMessageDispatcher) servable (out_step server_answer).
Proof. intros x w r Hx. rewrite server_out_step. by apply server_handles. Qed.

Lemma server_out_fold ms w out :
  fold_left (out_step server_answer) ms (w, out) = (w ++ printed ms, out ++ concat (map frame (replies ms))).
Proof.
  rewrite <- server_fold. generalize (w, out) as o. induction ms as [|x ms IH]; intros o; [done|].
  cbn [fold_left]. by rewrite server_out_step, IH.
Qed.

(** Everything received has been processed and everything to send has been sent. *)
Definition settled {W} (s : Session W) : Prop :=
  incoming s = [] ∧ read_ahead s = [] ∧ input_buffer_ s = [] ∧ pending (m_spMessageRoute s) = [] ∧
  mDataStreamSend (m_spMessageRoute s) = [].

Lemma frames_nil ms : concat (map frame ms) = [] → ms = [].
Proof. by destruct ms. Qed.

(** A connection on its event loop, from the socket to the bytes the peer reads: in
    any paced schedule the wire holds a prefix of the replies to the requests handled
    so far, and all of them once everything has been received and sent. *)
Lemma run_served linked ms evs w s0 rest :
  good servable rest (w, []) ms [] 0 s0 → paced_run linked (Some ServerMessageDispatcher) evs s0 = true →
  ∃ dn td s, ms = dn ++ td ∧ run_loop linked (Some ServerMessageDispatcher) evs s0 = Ok s ∧
    app s = w ++ printed dn ∧
    (∃ unsent, wire s ++ unsent = concat (map frame (replies dn))) ∧
    (settled s → rest = [] → app s = w ++ printed ms ∧ wire s = concat (map frame (replies ms))).
Proof.
  intros Hg Hpaced.
  destruct (good_run linked (Some ServerMessageDispatcher) servable (λ x H, proj1 H) server_answer server_out_handles
    rest evs _ _ _ _ _ Hg Hpaced) as (dn & td & s & c & k & -> & E & [Hrt _ Hi _ Hw Ho _ _]).
  rewrite server_out_fold in Ho. injection Ho as Ha Hc. exists dn, td, s. split_and!; [done|done|done| |].
  - exists (drop k (mDataStreamSend (m_spMessageRoute s))). by rewrite Hw, <- app_assoc, take_drop.
  - intros (H1 & H2 & H3 & H4 & H5) H6. rewrite H1, H2, H3, H4, H6 in Hi. symmetry in Hi. apply frames_nil in Hi as ->.
    rewrite app_nil_r. split; [done|]. rewrite Hw, <- Hc, H5. by rewrite take_nil.
Qed.

(** The loop over one request, with a socket that takes the reply at once. *)
Definition prompt_schedule : list io_event :=
  [Run; Arrives 20; Run; Run; Run; Run; Arrives 100; Run; Run; Run; Run; Run; Transfers 0 68; Run; Run; Run; Run; Run].


(** ** The end of a connection *)

Section Lost.
Context {W : Type} (linked : bytes → bool) (dispatcher : option (ProcessorMap W)).
Context (Htame : tame dispatcher).
Implicit Types s : Session W.

Definition lost s : Prop := error s = true ∧ temp_ok (m_spMessageRoute s).

Lemma Receive_temp_ok buf r : temp_ok r → temp_ok (snd (Receive buf r)).
Proof. by destruct (Receive_spec buf r) as (temp & ->). Qed.

(** A handler of a lost connection posts nothing. *)
Lemma lost_handler h s : lost s →
  match run_handler linked dispatcher h s with
  | Ok s' => ready s' = ready s ∧ lost s'
  | Undefined => True
  | NoFuel => False
  end.
Proof.
  intros [He Ht]. destruct h as [| | |ec data|op ec n]; cbn [run_handler].
  - done.
  - unfold Process. pose proof (ProcessRecv_safe linked dispatcher (app s) _ Htame Ht) as Hs.
    destruct (ProcessRecv linked dispatcher (app s) (m_spMessageRoute s)) as [[[b w] r]| |]; [|done|done].
    cbn [mbind outcome_bind]. unfold ProcessSend, SendData.
    destruct (zlen (mDataStreamSend r) =? 0); cbn; rewrite He; cbn; by rewrite ?He.
  - done.
  - unfold read_dynbuf_op, handle_read. destruct ec; [done|]. unfold ReadData. cbn [input_buffer_ set_input set_totalrec].
    pose proof (Receive_temp_ok (input_buffer_ s ++ data) _ Ht) as Hr. cbn.
    destruct (Receive (input_buffer_ s ++ data) (m_spMessageRoute s)) as [buf r]. cbn. by rewrite He.
  - unfold resume_write_op, write_dynbuf_op. by case_match.
Qed.

End Lost.

