(* ===== verification/TcpClient.v ===== *)
(** The client's connection (src/MiniProtobufClient/TcpClient.{h,cpp}) on its event
    loop, next to the application thread that queues requests ([clientStart] of
    main.cpp).  The asynchronous operations are those of TcpConnection.v; until the
    connection is made nothing else is on the loop, so resolving and connecting are
    a stage and their handlers run when they complete. *)

From S2P Require Import Prelude CodedStream WireFormat BaseCmd Messages MessageRoute TcpConnection.

Inductive stage := Unconnected | Resolving | Connecting | Online.

Section Client.
Context {W : Type} (linked : bytes → bool) (dispatcher : option (ProcessorMap W)).

(** [conn] holds the route, the buffers and the socket; its [error] and [totalrec]
    are the server's and stay as they are. *)
Record TcpClient := mk_TcpClient {
  conn : Session W;
  at_stage : stage;
  closed : bool;
  connected : bool;
  stopped : bool;
  totlasendwill : Z;
  totlasend : Z
}.

Definition set_conn (v : Session W) (c : TcpClient) : TcpClient :=
  mk_TcpClient v (at_stage c) (closed c) (connected c) (stopped c) (totlasendwill c) (totlasend c).
Definition set_stage (v : stage) (c : TcpClient) : TcpClient :=
  mk_TcpClient (conn c) v (closed c) (connected c) (stopped c) (totlasendwill c) (totlasend c).
Definition set_closed (v : bool) (c : TcpClient) : TcpClient :=
  mk_TcpClient (conn c) (at_stage c) v (connected c) (stopped c) (totlasendwill c) (totlasend c).
Definition set_connected (v : bool) (c : TcpClient) : TcpClient :=
  mk_TcpClient (conn c) (at_stage c) (closed c) v (stopped c) (totlasendwill c) (totlasend c).
Definition set_totals (will done : Z) (c : TcpClient) : TcpClient :=
  mk_TcpClient (conn c) (at_stage c) (closed c) (connected c) (stopped c) will done.

(** The constructor leaves [closed] and [connected] as the memory was. *)
Definition new_TcpClient (w : W) (spmr : MessageRoute) (incoming : bytes) (closed connected : bool) : TcpClient :=
  mk_TcpClient (mk_Session w spmr [] 0 false [] false [] incoming []) Unconnected closed connected false 0 0.

Definition Connect (c : TcpClient) : TcpClient := set_stage Resolving (set_closed false c).

Definition resolve_handler (ec : bool) (c : TcpClient) : TcpClient :=
  set_stage (if ec then Unconnected else Connecting) c.

(** [ec] is not looked at. *)
Definition connect_handler (ec : bool) (c : TcpClient) : TcpClient :=
  let c := set_connected true c in
  set_stage Online (set_conn (post H_Process (post H_start_read (conn c))) c).

(** [closed = true; io_context_.stop()]. *)
Definition Close (c : TcpClient) : TcpClient :=
  mk_TcpClient (conn c) (at_stage c) true (connected c) true (totlasendwill c) (totlasend c).

Definition SendData (c : TcpClient) : TcpClient := set_conn (post H_Send (conn c)) c.

Definition Send (c : TcpClient) : TcpClient :=
  let size := zlen (mDataStreamSend (m_spMessageRoute (conn c))) in
  set_conn (TcpConnection.Send (conn c)) (set_totals (u32 (totlasendwill c + size)) (totlasend c) c).

Definition Receive (c : TcpClient) : TcpClient := set_conn (set_reading true (conn c)) c.

Definition Process (c : TcpClient) : outcome TcpClient :=
  '(_, w, r) ← ProcessRecv linked dispatcher (app (conn c)) (m_spMessageRoute (conn c));
  let '(_, c, r) := ProcessSend (λ c r, (SendData c, r)) (set_conn (set_app w (conn c)) c) r in
  let c := set_conn (set_route r (conn c)) c in
  Ok (if closed c && connected c then c else set_conn (post H_Process (conn c)) c).

(** The bytes are in [receivebuf]; [ec] is not looked at. *)
Definition read_handler (ec : bool) (data : bytes) (c : TcpClient) : TcpClient :=
  let s := set_input (input_buffer_ (conn c) ++ data) (conn c) in
  let c := set_conn (ReadData s) c in
  if closed c && connected c then c else set_conn (post H_start_read (conn c)) c.

(** The completion of a write and, when it is the last one, [write_handler]. *)
Definition write_completion (op : write_op) (ec : bool) (n : Z) (c : TcpClient) : TcpClient :=
  let c := if write_over op ec n && negb ec
           then set_totals (totlasendwill c) (u32 (totlasend c + wo_total_consumed (advance_write_op op n))) c
           else c in
  set_conn (resume_write_op op ec n (conn c)) c.

Definition run_client_handler (h : handler) (c : TcpClient) : outcome TcpClient :=
  match h with
  | H_start_read => Ok (Receive c)
  | H_Process => Process c
  | H_Send => Ok (Send c)
  | H_read_some ec data => Ok (read_handler ec data c)
  | H_write_some op ec n => Ok (write_completion op ec n c)
  end.

(** The socket and the loop as for the server; resolving and connecting end; the
    application queues a request or closes the client. *)
Inductive client_event :=
  | Io (e : io_event)
  | Resolved (ec : bool)
  | Connected (ec : bool)
  | AppSend (msg : AnyMessage)
  | AppClose.

Definition client_step (e : client_event) (c : TcpClient) : outcome TcpClient :=
  match e with
  | Io Run =>
      if stopped c then Ok c
      else match ready (conn c) with
           | h :: hs => run_client_handler h (set_conn (set_ready hs (conn c)) c)
           | [] => Ok c
           end
  | Io e => s ← step linked dispatcher e (conn c); Ok (set_conn s c)
  | Resolved ec => Ok (match at_stage c with Resolving => resolve_handler ec c | _ => c end)
  | Connected ec => Ok (match at_stage c with Connecting => connect_handler ec c | _ => c end)
  | AppSend msg =>
      Ok (set_conn (set_route (snd (MessageRoute.Send msg (m_spMessageRoute (conn c)))) (conn c)) c)
  | AppClose => Ok (Close c)
  end.

Fixpoint run_client (evs : list client_event) (c : TcpClient) : outcome TcpClient :=
  match evs with
  | [] => Ok c
  | e :: evs => c ← client_step e c; run_client evs c
  end.

End Client.

Arguments TcpClient : clear implicits.
