(* ===== verification/TcpClientFacts.v ===== *)
(** What a client puts on the wire is what its application queued, and a client and
    a server connected by their sockets do what the two programs mean to do, from
    the application's calls to the server's console and back. *)

From S2P Require Import Prelude CodedStream WireFormat BaseCmd BaseCmdFacts Messages MessageRoute MessageRouteFacts.
From S2P Require Import ServerDispatch ClientDispatch TcpConnection TcpConnectionFacts TcpClient.

(** The client's processors answer nothing. *)
Definition no_answer {W} (w : W) (x : AnyMessage) : W * bytes := (w, []).

Lemma no_out_step {W} (o : W * bytes) x : out_step no_answer o x = o.
Proof. destruct o as [w out]. unfold out_step. cbn. by rewrite app_nil_r. Qed.

Lemma no_out_fold {W} (o : W * bytes) ms : fold_left (out_step no_answer) ms o = o.
Proof. induction ms as [|x ms IH]; [done|]. cbn [fold_left]. by rewrite no_out_step. Qed.

Section Facts.
Context {W : Type} (linked : bytes → bool) (rest : bytes).
Implicit Types c : TcpClient W.

Let dispatcher : option (ProcessorMap W) := Some ClientMessageDispatcher.

Lemma client_out_handles : handles dispatcher sendable (out_step no_answer).
Proof.
  intros x w r Hx. destruct (client_handles W x w r Hx) as (w' & r' & E & Eo & Er). exists w', r'.
  split_and!; [done|by rewrite no_out_step|done].
Qed.

(** As for the server, and no error while resolving and connecting. *)
Definition paced_client (e : client_event) c : bool :=
  match e with
  | Io e => paced e (conn c)
  | Resolved ec | Connected ec => negb ec
  | AppSend _ => true
  | AppClose => false
  end.

Fixpoint paced_client_run (evs : list client_event) c : bool :=
  match evs with
  | [] => true
  | e :: evs =>
      paced_client e c &&
      match client_step linked dispatcher e c with Ok c' => paced_client_run evs c' | _ => true end
  end.

Definition sent (evs : list client_event) : list AnyMessage :=
  omap (λ e, match e with AppSend x => Some x | _ => None end) evs.

(** The invariant of the server's connection, for an open client. *)
Definition good_client (o : W * bytes) (todo : list AnyMessage) (consumed : bytes) (k : nat) c : Prop :=
  good sendable rest o todo consumed k (conn c) ∧ closed c = false ∧ stopped c = false.

Lemma client_Process c : error (conn c) = false → closed c = false →
  Process linked dispatcher c = s ← TcpConnection.Process linked dispatcher (conn c); Ok (set_conn s c).
Proof.
  intros He Hc. unfold Process, TcpConnection.Process.
  destruct (ProcessRecv linked dispatcher (app (conn c)) (m_spMessageRoute (conn c))) as [[[b w] r]| |]; [|done|done].
  cbn [mbind outcome_bind]. unfold ProcessSend, SendData, TcpConnection.SendData.
  destruct (zlen (mDataStreamSend r) =? 0); cbn; rewrite Hc, He; cbn; by rewrite ?He.
Qed.

Lemma client_handler h hs o todo consumed k c :
  good_client o todo consumed k c → ready (conn c) = h :: hs → paced Run (conn c) = true →
  ∃ c' consumed' k' todo',
    run_client_handler linked dispatcher h (set_conn (set_ready hs (conn c)) c) = Ok c' ∧
    good_client o todo' consumed' k' c' ∧ (todo' = todo ∨ ∃ x, todo = x :: todo').
Proof.
  intros (Hg & Hc & Hs) E Hp. cbn [paced] in Hp. rewrite E in Hp.
  pose proof (g_reads _ _ _ _ _ _ _ Hg) as Hh. rewrite E in Hh. apply Forall_cons in Hh as [Hh _].
  destruct h as [| | |ec data|op ec n]; cbn [run_client_handler].
  - eexists _, consumed, k, todo. split; [done|]. split; [|by left]. split; [|done].
    apply good_start_read. by eapply good_pop.
  - assert (Hg' : good sendable rest o todo consumed k (set_ready hs (conn c))) by (by eapply good_pop).
    rewrite client_Process; [|exact (g_error _ _ _ _ _ _ _ Hg)|done]. cbn [conn set_conn].
    destruct (good_Process linked dispatcher sendable (λ _ H, H) no_answer client_out_handles rest _ _ _ _ _ Hg')
      as (s' & -> & [Hg2|(x & todo' & -> & Hg2)]); cbn [mbind outcome_bind];
      [eexists _, consumed, k, todo|eexists _, consumed, k, todo']; (split; [done|]).
    + by split; [|left].
    + rewrite no_out_step in Hg2. split; [done|]. right. by exists x.
  - eexists _, consumed, 0%nat, todo. split; [done|]. split; [|by left]. split; [|done].
    apply bool_decide_eq_true, nil_length_inv in Hp.
    pose proof (popped_outstanding H_Send hs (conn c) E eq_refl) as Eo. rewrite Hp in Eo.
    pose proof (g_flight _ _ _ _ _ _ _ Hg) as Hf. rewrite Hp in Hf. inversion Hf; subst k.
    apply good_Send; [by eapply good_pop|done].
  - subst ec. eexists _, consumed, k, todo. split; [done|]. split; [|by left]. unfold read_handler.
    cbn [closed connected set_conn conn]. rewrite Hc. cbn [andb conn set_conn]. split; [|done].
    apply good_post; [|done..]. by apply (good_ReadData _ _ _ _ _ _ _ data hs (conn c)).
  - subst ec. destruct (good_write linked dispatcher sendable (λ _ H, H) no_answer client_out_handles rest
      _ _ _ _ _ _ _ _ Hg E) as (consumed' & k' & Hg').
    eexists _, consumed', k', todo. split; [done|]. split; [|by left]. unfold write_completion. by case_match.
Qed.

Lemma good_AppSend o todo consumed k x (s : Session W) : sendable x → good sendable rest o todo consumed k s →
  good sendable rest (o.1, o.2 ++ frame x) todo consumed k
    (set_route (snd (MessageRoute.Send x (m_spMessageRoute s))) s).
Proof.
  intros Hx [Hr Ht Hi Hf Hw Ho He Hh]. apply sendable_typed in Hx as [Hty Hl]. rewrite Send_spec by done.
  split; try done.
  - by apply (flight_extend _ (frame x)).
  - change (wire s = consumed ++ take k (mDataStreamSend (m_spMessageRoute s) ++ frame x)).
    by rewrite (proj2 (flight_extend _ (frame x) _ _ Hf)).
  - change ((app s, consumed ++ mDataStreamSend (m_spMessageRoute s) ++ frame x) = (o.1, o.2 ++ frame x)).
    rewrite app_assoc. by rewrite <- Ho.
Qed.
Lemma good_client_step e o todo consumed k c :
  good_client o todo consumed k c → paced_client e c = true → Forall sendable (sent [e]) →
  ∃ c' consumed' k' todo', client_step linked dispatcher e c = Ok c' ∧
    good_client (o.1, o.2 ++ concat (map frame (sent [e]))) todo' consumed' k' c' ∧
    (todo' = todo ∨ ∃ x, todo = x :: todo').
Proof.
  intros (Hg & Hc & Hs) Hp Hx.
  assert (Eo : (o.1, o.2 ++ []) = o) by (destruct o; cbn; by rewrite app_nil_r).
  destruct e as [e|ec|ec|x|]; cbn [client_step paced_client sent omap list_omap map concat] in *; rewrite ?Eo; [| | | |done].
  - assert (Hio : ∃ c' consumed' k' todo', (s ← step linked dispatcher e (conn c); Ok (set_conn s c)) = Ok c' ∧
      good_client o todo' consumed' k' c' ∧ (todo' = todo ∨ ∃ x, todo = x :: todo')).
    { destruct (good_step linked dispatcher sendable (λ _ H, H) no_answer client_out_handles rest e _ _ _ _ _ Hg Hp)
        as (s' & c' & k' & -> & [Hg'|(x & todo' & -> & Hg')]).
      - exists (set_conn s' c), c', k', todo. split; [done|]. split; [by split|by left].
      - rewrite no_out_step in Hg'. exists (set_conn s' c), c', k', todo'. split; [done|]. split; [by split|]. right. by exists x. }
    destruct e as [|n| |i n|i]; [|exact Hio..]. rewrite Hs.
    destruct (ready (conn c)) as [|h hs] eqn:E; [by exists c, consumed, k, todo; split; [|split; [|left]]|].
    apply (client_handler h hs _ _ _ _ _ (conj Hg (conj Hc Hs)) E). exact Hp.
  - eexists _, consumed, k, todo. split; [done|]. split; [|by left]. by destruct (at_stage c).
  - destruct ec; [done|]. eexists _, consumed, k, todo. split; [done|]. split; [|by left].
    destruct (at_stage c); try done. split; [|done]. cbn [conn connect_handler set_stage set_conn set_connected].
    apply good_post; [|done..]. by apply good_post.
  - eexists _, consumed, k, todo. split; [done|]. split; [|by left]. split; [|done]. cbn [sent omap list_omap map concat].
    rewrite app_nil_r. apply good_AppSend; [by inversion Hx|done].
Qed.
Lemma sent_cons e evs : sent (e :: evs) = sent [e] ++ sent evs.
Proof. unfold sent. by destruct e. Qed.

Lemma good_client_run evs o todo consumed k c :
  good_client o todo consumed k c → paced_client_run evs c = true → Forall sendable (sent evs) →
  ∃ c' consumed' k' dn td, todo = dn ++ td ∧ run_client linked dispatcher evs c = Ok c' ∧
    good_client (o.1, o.2 ++ concat (map frame (sent evs))) td consumed' k' c'.
Proof.
  revert o todo consumed k c. induction evs as [|e evs IH]; intros o todo consumed k c Hg Hp Hs.
  - exists c, consumed, k, [], todo. split_and!; [done|done|]. cbn. rewrite app_nil_r. by destruct o.
  - cbn [paced_client_run run_client] in *. apply andb_true_iff in Hp as [Hp1 Hp2].
    rewrite sent_cons in Hs |- *. apply Forall_app in Hs as [Hs1 Hs2].
    destruct (good_client_step e _ _ _ _ _ Hg Hp1 Hs1) as (c1 & consumed1 & k1 & todo1 & E & Hg1 & Ht).
    fold dispatcher in Hp2. rewrite E in Hp2 |- *. cbn [mbind outcome_bind].
    destruct (IH _ _ _ _ _ Hg1 Hp2 Hs2) as (c' & consumed' & k' & dn & td & -> & Er & Hg'). cbn [fst snd] in Hg'.
    rewrite map_app, concat_app, app_assoc. exists c', consumed', k'.
    destruct Ht as [Ht|(x & ->)]; [exists dn, td|exists (x :: dn), td]; by split_and!.
Qed.

Lemma good_client_start w r inc g1 g2 todo : Forall sendable todo →
  mPreRecivesTotalLen r = 0 → mDataStreamReceive r = [] → mDataStreamSend r = [] →
  inc ++ rest = concat (map frame todo) →
  good_client (w, []) todo [] 0 (Connect (new_TcpClient w r inc g1 g2)).
Proof.
  intros Ht Hp Hr Hs Hi. split; [|done]. split; cbn; rewrite ?Hs; try done.
  - unfold route_ok. rewrite Hp. znorm. lia.
  - unfold pending. by rewrite Hp, Hr.
  - constructor.
Qed.

(** What a client's run has put on the wire. *)
Lemma client_sends evs resps w r inc g1 g2 : Forall sendable resps →
  mPreRecivesTotalLen r = 0 → mDataStreamReceive r = [] → mDataStreamSend r = [] →
  inc ++ rest = concat (map frame resps) → Forall sendable (sent evs) →
  paced_client_run evs (Connect (new_TcpClient w r inc g1 g2)) = true →
  ∃ c, run_client linked dispatcher evs (Connect (new_TcpClient w r inc g1 g2)) = Ok c ∧ app (conn c) = w ∧
    ∃ unsent, wire (conn c) ++ unsent = concat (map frame (sent evs)) ∧
      (mDataStreamSend (m_spMessageRoute (conn c)) = [] → unsent = []).
Proof.
  intros Ht Hp Hr Hs Hi Hx Hpaced.
  destruct (good_client_run evs _ _ _ _ _ (good_client_start w r inc g1 g2 resps Ht Hp Hr Hs Hi) Hpaced Hx)
    as (c & consumed & k & dn & td & _ & E & ([_ _ _ _ Hw Ho _ _] & _)).
  cbn [fst snd app] in Ho. injection Ho as Ha Ho. exists c. split_and!; [done|done|].
  exists (drop k (mDataStreamSend (m_spMessageRoute (conn c)))). rewrite Hw, <- app_assoc, take_drop. split; [done|].
  intros ->. by rewrite drop_nil.
Qed.
End Facts.

Lemma servable_sendable ms : Forall servable ms → Forall sendable ms.
Proof. intros H. eapply Forall_impl; [exact H|]. by intros x []. Qed.


(** The client's part of a session with one request, and the server's. *)
Definition sample_client_events : list client_event :=
  [Resolved false; AppSend sample_move; Connected false; Io Run; Io Run; Io Run; Io (Transfers 0 41); Io Run; Io Run].


(** ** A client that is not closed *)

Section Open.
Context {W : Type} (linked : bytes → bool).
Implicit Types (c : TcpClient W) (s : Session W).

Let dispatcher : option (ProcessorMap W) := Some ClientMessageDispatcher.

(** A read is pending, about to start, or has ended and its handler is due. *)
Definition reader (reading : bool) (hs : list handler) : Prop :=
  reading = true ∨ H_start_read ∈ hs ∨ ∃ ec data, H_read_some ec data ∈ hs.

Definition open c : Prop :=
  temp_ok (m_spMessageRoute (conn c)) ∧ closed c = false ∧ stopped c = false ∧
  (at_stage c = Online → H_Process ∈ ready (conn c) ∧ reader (reading (conn c)) (ready (conn c))).

Lemma reader_mono (b b' : bool) (hs hs' : list handler) :
  (b = true → b' = true) → (∀ h, h ∈ hs → h ∈ hs') → reader b hs → reader b' hs'.
Proof. intros Hb Hh [?|[?|(ec & data & ?)]]; [left|right; left|right; right; exists ec, data]; auto. Qed.

Lemma MessageRoute_Send_temp x r : mTempBufferProcess (snd (MessageRoute.Send x r)) = mTempBufferProcess r.
Proof. unfold MessageRoute.Send. by repeat (case_match; cbn). Qed.

(** What a handler does to the queue: it is off it, and leaves its successor. *)
Lemma open_handler h c : temp_ok (m_spMessageRoute (conn c)) → closed c = false → stopped c = false →
  ∃ c' extra, run_client_handler linked dispatcher h c = Ok c' ∧ temp_ok (m_spMessageRoute (conn c')) ∧
    closed c' = false ∧ stopped c' = false ∧ at_stage c' = at_stage c ∧ ready (conn c') = ready (conn c) ++ extra ∧
    (reading (conn c) = true → reading (conn c') = true) ∧
    match h with
    | H_Process => H_Process ∈ extra
    | H_start_read => reading (conn c') = true
    | H_read_some _ _ => H_start_read ∈ extra
    | _ => True
    end.
Proof.
  intros Ht Hc Hs. destruct h as [| | |ec data|op ec n]; cbn [run_client_handler].
  - exists (Receive c), []. rewrite app_nil_r. by split_and!.
  - destruct (ProcessRecv_client linked (app (conn c)) (m_spMessageRoute (conn c)) Ht) as (b & r & E & Ht' & _).
    unfold Process. fold dispatcher in E. rewrite E. cbn [mbind outcome_bind]. unfold ProcessSend, SendData.
    destruct (zlen (mDataStreamSend r) =? 0); cbn; rewrite Hc; cbn.
    + eexists _, [H_Process]. split; [reflexivity|]. split_and!; try done. set_solver.
    + eexists _, [H_Send; H_Process]. split; [reflexivity|]. cbn. rewrite <- app_assoc. split_and!; try done. set_solver.
  - exists (Send c), []. rewrite app_nil_r. by split_and!.
  - eexists _, [H_start_read]. split; [done|]. unfold read_handler, ReadData. cbn [input_buffer_ set_input m_spMessageRoute].
    pose proof (Receive_temp_ok (input_buffer_ (conn c) ++ data) _ Ht) as Hr.
    destruct (MessageRoute.Receive (input_buffer_ (conn c) ++ data) (m_spMessageRoute (conn c))) as [buf r].
    cbn [closed set_conn]. rewrite Hc. cbn. split_and!; try done. set_solver.
  - eexists _, []. rewrite app_nil_r. split; [done|]. unfold write_completion, resume_write_op, write_dynbuf_op.
    repeat case_match; by split_and!.
Qed.
(** Popping [h] and running it keeps a processing step and a reader on the loop. *)
Lemma open_run h hs c : open c → ready (conn c) = h :: hs →
  ∃ c', run_client_handler linked dispatcher h (set_conn (set_ready hs (conn c)) c) = Ok c' ∧ open c'.
Proof.
  intros (Ht & Hc & Hs & Ho) E.
  destruct (open_handler h (set_conn (set_ready hs (conn c)) c) Ht Hc Hs)
    as (c' & extra & Er & Ht' & Hc' & Hs' & Hst & Hrd & Hb & Hh).
  exists c'. split; [done|]. split_and!; [done|done|done|]. rewrite Hst. cbn [at_stage set_conn]. intros Hon.
  destruct (Ho Hon) as [Hp Hr]. rewrite Hrd. cbn [conn set_conn ready set_ready reading] in *. rewrite E in Hp, Hr. split.
  - apply elem_of_cons in Hp as [<-|Hp]; set_solver.
  - destruct Hr as [Hr|[Hr|(ec & data & Hr)]]; [left; by apply Hb| |]; apply elem_of_cons in Hr as [<-|Hr].
    + by left.
    + right; left. set_solver.
    + right; left. set_solver.
    + right; right. exists ec, data. set_solver.
Qed.

Lemma open_step e c : open c → e ≠ AppClose → ∃ c', client_step linked dispatcher e c = Ok c' ∧ open c'.
Proof.
  intros Hc He. destruct e as [[|n| |i n|i]|ec|ec|x|]; cbn [client_step step]; [| | | | | | | |done].
  - rewrite (proj1 (proj2 (proj2 Hc))). destruct (ready (conn c)) as [|h hs] eqn:E; [by exists c|]. by eapply open_run.
  - eexists. split; [reflexivity|]. pose proof Hc as (Ht & Hcl & Hs & Ho). case_match; [|done].
    split_and!; [done|done|done|]. intros Hon. destruct (Ho Hon) as [Hp Hr]. cbn. split; [set_solver|].
    right; right. eexists _, _. apply elem_of_app. right. by apply list_elem_of_singleton.
  - eexists. split; [reflexivity|]. pose proof Hc as (Ht & Hcl & Hs & Ho). case_match; [|done].
    split_and!; [done|done|done|]. intros Hon. destruct (Ho Hon) as [Hp Hr]. cbn. split; [set_solver|].
    right; right. eexists _, _. apply elem_of_app. right. by apply list_elem_of_singleton.
  - pose proof Hc as (Ht & Hcl & Hs & Ho). destruct (writing (conn c) !! i) as [op|]; [|eexists; split; [reflexivity|exact Hc]].
    eexists. split; [reflexivity|]. case_match; [|done].
    split_and!; [done|done|done|]. intros Hon. destruct (Ho Hon) as [Hp Hr]. cbn. split; [set_solver|].
    revert Hr. by apply reader_mono; [done|set_solver].
  - pose proof Hc as (Ht & Hcl & Hs & Ho). destruct (writing (conn c) !! i) as [op|]; [|eexists; split; [reflexivity|exact Hc]].
    eexists. split; [reflexivity|].
    split_and!; [done|done|done|]. intros Hon. destruct (Ho Hon) as [Hp Hr]. cbn. split; [set_solver|].
    revert Hr. by apply reader_mono; [done|set_solver].
  - eexists. split; [reflexivity|]. pose proof Hc as (Ht & Hcl & Hs & Ho). destruct (at_stage c) eqn:Est;
      split_and!; try done; cbn; rewrite ?Est; try done. by destruct ec.
  - eexists. split; [reflexivity|]. pose proof Hc as (Ht & Hcl & Hs & Ho). destruct (at_stage c) eqn:Est;
      split_and!; try done; cbn; rewrite ?Est; try done. intros _. split; [set_solver|right; left; set_solver].
  - eexists. split; [reflexivity|]. pose proof Hc as (Ht & Hcl & Hs & Ho). split_and!; [|done|done|done].
    unfold temp_ok. cbn [conn set_conn m_spMessageRoute set_route]. by rewrite MessageRoute_Send_temp.
Qed.

End Open.

(** An open client survives anything and notices nothing: whatever bytes the
    peer sends, whatever the application queues, and whether resolving, connecting,
    reads and writes succeed or fail, every handler returns, the receive buffer is
    kept within bounds, and once past [connect_handler] there is at any time a
    [Process] to run and a read pending or due.  In particular a client whose
    connection was refused or lost goes round its loop for ever. *)
Theorem client_open_forever {W} linked evs (w : W) r inc g1 g2 :
  temp_ok r → AppClose ∉ evs →
  ∃ c, run_client linked (Some ClientMessageDispatcher) evs (Connect (new_TcpClient w r inc g1 g2)) = Ok c ∧
    temp_ok (m_spMessageRoute (conn c)) ∧
    (at_stage c = Online → H_Process ∈ ready (conn c) ∧ reader (reading (conn c)) (ready (conn c))).
Proof.
  intros Ht He. assert (Hc : open (Connect (new_TcpClient w r inc g1 g2))) by done.
  revert Hc. generalize (Connect (new_TcpClient w r inc g1 g2)) as c. induction evs as [|e evs IH]; intros c Hc.
  - exists c. by destruct Hc as (? & _ & _ & ?).
  - cbn [run_client]. destruct (open_step linked e c Hc) as (c1 & E & Hc1); [set_solver|]. rewrite E.
    cbn [mbind outcome_bind]. apply IH; [set_solver|done].
Qed.

(** A refused connection, then a failing read. *)
Lemma client_open_forever_witness :
  ∃ c, run_client (λ _, false) (Some ClientMessageDispatcher)
         [Resolved false; Connected true; Io Run; Io ReadFails; Io Run; Io Run]
         (Connect (new_TcpClient tt empty_route [] true true)) = Ok c ∧
    temp_ok (m_spMessageRoute (conn c)) ∧
    (at_stage c = Online → H_Process ∈ ready (conn c) ∧ reader (reading (conn c)) (ready (conn c))).
Proof.
  apply (client_open_forever (λ _, false) [Resolved false; Connected true; Io Run; Io ReadFails; Io Run; Io Run]
    tt empty_route [] true true).
  - reflexivity.
  - rewrite !not_elem_of_cons. repeat split; try discriminate. apply not_elem_of_nil.
Defined.
