(* ===== verification/TcpServer.v ===== *)
(** The accepting server (class [TcpServer] of src/MiniProtobufServer/TcpServer.h):
    its accept loop and the connections that share its event loop.

    The order in which the shared loop interleaves the handlers of different
    connections is part of the schedule; each connection has a route, a dispatcher
    and a socket of its own, and the console, which they share, is kept apart by
    connection. *)

From S2P Require Import Prelude CodedStream WireFormat BaseCmd BaseCmdFacts Messages MessageRoute MessageRouteFacts.
From S2P Require Import ServerDispatch TcpConnection TcpConnectionFacts.

(** [accepting]: an [async_accept] is pending, with a fresh connection bound to its
    handler. *)
Record TcpServer := mk_TcpServer {
  connections : list (Session console);
  accepting : bool
}.

Definition start_accept (srv : TcpServer) : TcpServer := mk_TcpServer (connections srv) true.

(** [start]: the posted [TcpServer::Process] only posts itself again. *)
Definition start_server : TcpServer := start_accept (mk_TcpServer [] false).

(** The memory an accepted connection is made in, and what its peer will send. *)
Record accepted := mk_accepted {
  garbage_len : Z;
  garbage1 : bytes;
  garbage2 : bytes;
  garbage_totalrec : Z;
  peer_sends : bytes
}.

Definition new_connection (a : accepted) : Session console :=
  new_TcpConnection [] (new_MessageRoute (garbage_len a) (garbage1 a) (garbage2 a)) (garbage_totalrec a) (peer_sends a).

(** [sp_new_connection] has been reset before, so the loop on its use count ends
    at once. *)
Definition handle_accept (sp : Session console) (error : bool) (srv : TcpServer) : TcpServer :=
  let srv := mk_TcpServer (connections srv) false in
  let srv := if error then srv else mk_TcpServer (connections srv ++ [start sp]) false in
  start_accept srv.

Inductive server_event :=
  | Accept (error : bool) (a : accepted)
  | On (i : nat) (e : io_event).

Section Server.
Context (linked : bytes → bool).

Definition server_event_step (e : server_event) (srv : TcpServer) : outcome TcpServer :=
  match e with
  | Accept error a => Ok (if accepting srv then handle_accept (new_connection a) error srv else srv)
  | On i e =>
      match connections srv !! i with
      | Some s =>
          s ← step linked (Some ServerMessageDispatcher) e s;
          Ok (mk_TcpServer (<[i := s]> (connections srv)) (accepting srv))
      | None => Ok srv
      end
  end.

Fixpoint run_server (evs : list server_event) (srv : TcpServer) : outcome TcpServer :=
  match evs with
  | [] => Ok srv
  | e :: evs => srv ← server_event_step e srv; run_server evs srv
  end.

(** ** Every connection is served *)

(** The connections a run accepts, and what happens on the [i]-th of them, [n]
    being how many there are. *)
Definition peers (evs : list server_event) : list accepted :=
  omap (λ e, match e with Accept false a => Some a | _ => None end) evs.

Fixpoint own (i n : nat) (evs : list server_event) : list io_event :=
  match evs with
  | [] => []
  | Accept error _ :: evs => own i (if error then n else S n) evs
  | On j e :: evs => if decide (j = i ∧ (i < n)%nat) then e :: own i n evs else own i n evs
  end.

Lemma handle_accept_spec a error srv : handle_accept (new_connection a) error srv =
  mk_TcpServer (connections srv ++ (if error then [] else [start (new_connection a)])) true.
Proof. unfold handle_accept, start_accept. destruct error; cbn; by rewrite ?app_nil_r. Qed.

Definition run_own i n (evs : list server_event) : Session console → outcome (Session console) :=
  run_loop linked (Some ServerMessageDispatcher) (own i n evs).

(** The connections there are and those that will be accepted. *)
Definition all_sessions (evs : list server_event) (srv : TcpServer) : list (Session console) :=
  connections srv ++ ((λ a, start (new_connection a)) <$> peers evs).

(** A run of the server is, for each connection, a run of its own. *)
Lemma run_server_own evs srv : accepting srv = true →
  (∀ i s, all_sessions evs srv !! i = Some s → ∃ s', run_own i (length (connections srv)) evs s = Ok s') →
  ∃ srv', run_server evs srv = Ok srv' ∧ accepting srv' = true ∧
    length (connections srv') = length (all_sessions evs srv) ∧
    ∀ i s, all_sessions evs srv !! i = Some s →
      ∃ s', connections srv' !! i = Some s' ∧ run_own i (length (connections srv)) evs s = Ok s'.
Proof.
  unfold run_own. revert srv. induction evs as [|[error a|j e] evs IH]; intros srv Hacc Hall.
  - exists srv. unfold all_sessions. cbn. rewrite app_nil_r. split_and!; [done|done|done|intros i s E; by exists s].
  - cbn [run_server server_event_step]. rewrite Hacc, handle_accept_spec. cbn [mbind outcome_bind].
    set (srv1 := mk_TcpServer (connections srv ++ if error then [] else [start (new_connection a)]) true).
    assert (Es : all_sessions (Accept error a :: evs) srv = all_sessions evs srv1).
    { unfold all_sessions, srv1. destruct error; cbn; [by rewrite app_nil_r|by rewrite <- app_assoc]. }
    assert (En : length (connections srv1) = if error then length (connections srv) else S (length (connections srv))).
    { unfold srv1. destruct error; cbn [connections]; rewrite length_app; cbn; lia. }
    cbn [own] in Hall |- *. rewrite <- En in Hall |- *. rewrite Es in Hall |- *. by apply (IH srv1).
  - cbn [run_server server_event_step own] in Hall |- *.
    change (all_sessions (On j e :: evs) srv) with (all_sessions evs srv) in *.
    destruct (connections srv !! j) as [s|] eqn:Ej.
    + pose proof (lookup_lt_Some _ _ _ Ej) as Hj.
      assert (Es : all_sessions evs srv !! j = Some s) by (by apply lookup_app_l_Some).
      destruct (Hall j s Es) as (s' & Er). rewrite decide_True in Er by done. cbn [run_loop] in Er.
      destruct (step linked (Some ServerMessageDispatcher) e s) as [s1| |] eqn:Est; [|done|done].
      cbn [mbind outcome_bind] in Er |- *. set (srv1 := mk_TcpServer (<[j:=s1]> (connections srv)) (accepting srv)).
      assert (Ea : all_sessions evs srv1 = <[j:=s1]> (all_sessions evs srv)) by (unfold all_sessions; by rewrite insert_app_l).
      assert (En : length (connections srv1) = length (connections srv)) by apply length_insert.
      destruct (IH srv1 Hacc) as (srv' & E & Ha & Hlen & Hi).
      * intros i si. rewrite En, Ea. destruct (decide (j = i)) as [<-|Hne].
        -- rewrite list_lookup_insert_eq by (by eapply lookup_lt_Some). intros [= <-]. by exists s'.
        -- rewrite list_lookup_insert_ne by done. intros Esi. destruct (Hall i si Esi) as (s2 & E2). exists s2.
           by rewrite decide_False in E2 by tauto.
      * exists srv'. split_and!; [done|done|by rewrite Hlen, Ea, length_insert|]. intros i si Esi.
        rewrite En, Ea in Hi. destruct (decide (j = i)) as [<-|Hne].
        -- destruct (Hi j s1) as (s2 & E2 & E3); [by apply list_lookup_insert_eq; eapply lookup_lt_Some|].
           exists s2. split; [done|]. rewrite decide_True by done. cbn [run_loop]. simplify_eq. by rewrite Est.
        -- destruct (Hi i si) as (s2 & E2 & E3); [by rewrite list_lookup_insert_ne|].
           exists s2. split; [done|]. by rewrite decide_False by tauto.
    + cbn [mbind outcome_bind]. assert (Hj : (length (connections srv) <= j)%nat) by (by apply lookup_ge_None_1).
      assert (Hown : ∀ i, (if decide (j = i ∧ (i < length (connections srv))%nat) then e :: own i (length (connections srv)) evs
        else own i (length (connections srv)) evs) = own i (length (connections srv)) evs).
      { intros i. rewrite decide_False; [done|]. lia. }
      destruct (IH srv Hacc) as (srv' & E & Ha & Hlen & Hi); [intros i s; rewrite <- Hown; apply Hall|].
      exists srv'. split_and!; [done|done|done|]. intros i s. rewrite Hown. apply Hi.
Qed.
End Server.


