(* ===== verification/EventQueue.v ===== *)
(** The event queue of eventpp (src/Shared/code/eventpp/eventqueue.h): producers
    enqueue events into recycled items, consumers take them off in batches and
    dispatch them, waiters sleep until there is something to do.

    A call is a sequence of steps, one per critical section and one per condition or
    access outside of the mutexes ([empty] and [doCanProcess] read the list and the
    counters in one step), and threads interleave between any two.  What a
    listener does during a dispatch is an interleaving like any other.  The queue's
    two atomic counters, its lists of items and the mutex a waiter holds are shared;
    the lists a call works on are its own.  The [assert]s of [QueuedItem] and the
    decrement of [begin()] in [processIf] are [Undefined]. *)

From S2P Require Import Prelude.

Section EventQueue.
Context {E : Type}.

(** [QueuedItem]: [Some] when [allocated]. *)
Definition QueuedItem := option E.

Definition item_set (it : QueuedItem) (item : E) : outcome QueuedItem :=
  match it with None => Ok (Some item) | Some _ => Undefined end.
Definition item_get (it : QueuedItem) : outcome E :=
  match it with Some e => Ok e | None => Undefined end.
Definition item_clear (it : QueuedItem) : outcome QueuedItem :=
  match it with Some _ => Ok None | None => Undefined end.

Record EventQueue := mk_EventQueue {
  queueList : list QueuedItem;
  freeList : list QueuedItem;
  queueEmptyCounter : Z;
  queueNotifyCounter : Z;
  queueListMutex : bool
}.

Definition new_EventQueue : EventQueue := mk_EventQueue [] [] 0 0 false.

Definition set_queueList (v : list QueuedItem) (q : EventQueue) : EventQueue :=
  mk_EventQueue v (freeList q) (queueEmptyCounter q) (queueNotifyCounter q) (queueListMutex q).
Definition set_freeList (v : list QueuedItem) (q : EventQueue) : EventQueue :=
  mk_EventQueue (queueList q) v (queueEmptyCounter q) (queueNotifyCounter q) (queueListMutex q).
Definition set_emptyCounter (v : Z) (q : EventQueue) : EventQueue :=
  mk_EventQueue (queueList q) (freeList q) v (queueNotifyCounter q) (queueListMutex q).
Definition set_notifyCounter (v : Z) (q : EventQueue) : EventQueue :=
  mk_EventQueue (queueList q) (freeList q) (queueEmptyCounter q) v (queueListMutex q).
Definition set_mutex (v : bool) (q : EventQueue) : EventQueue :=
  mk_EventQueue (queueList q) (freeList q) (queueEmptyCounter q) (queueNotifyCounter q) v.

Definition empty (q : EventQueue) : bool :=
  match queueList q with [] => queueEmptyCounter q =? 0 | _ => false end.

Definition doCanNotifyQueueAvailable (q : EventQueue) : bool := queueNotifyCounter q =? 0.
Definition doCanProcess (q : EventQueue) : bool := negb (empty q) && doCanNotifyQueueAvailable q.

(** *** Calls and their steps *)

(** [process], [processOne], [processIf]. *)
Inductive mode := All | One | If (func : E → bool).

Inductive call :=
  | C_enqueue (e : E)
  | C_process (k : mode)
  | C_clearEvents
  | C_takeEvent
  | C_peekEvent
  | C_wait
  | C_waitFor
  | C_disableNotify
  | C_enableNotify.

(** Where a thread is. *)
Inductive task :=
  | Idle
  | Enqueue_check (e : E)
  | Enqueue_pop (e : E)
  | Enqueue_push (it : QueuedItem)
  | Notify
  | Process_check (k : mode)
  | Process_guard (k : mode)
  | Process_grab (k : mode)
  | Process_work (k : mode) (temp kept idle : list QueuedItem)
  | Process_give_back (kept idle : list QueuedItem)
  | Process_recycle (idle : list QueuedItem)
  | Process_unguard (result : bool)
  | Clear_check
  | Clear_grab
  | Take_check
  | Take_grab
  | Peek_check
  | Peek_read
  | Recycle (items : list QueuedItem)
  | Wait_lock (timed : bool)
  | Wait_checked (timed : bool)
  | Asleep (timed : bool)
  | Disable
  | Enable
  | Enable_notify.

Definition begin_call (c : call) : task :=
  match c with
  | C_enqueue e => Enqueue_check e
  | C_process k => Process_check k
  | C_clearEvents => Clear_check
  | C_takeEvent => Take_check
  | C_peekEvent => Peek_check
  | C_wait => Wait_lock false
  | C_waitFor => Wait_lock true
  | C_disableNotify => Disable
  | C_enableNotify => Enable
  end.

(** What happens to events, and what the calls that have a result return. *)
Inductive logged :=
  | Entered (e : E) | Dispatched (e : E) | Cleared (e : E) | Taken (e : E) | Peeked (e : E) | Returned (result : bool).

(** A step: the thread's next task, the queue, what happened, and whether
    [notify_one] is called. *)
Record effect := mk_effect { next_task : task; new_queue : EventQueue; happened : list logged; notifies : bool }.

Definition go (t : task) (q : EventQueue) : outcome effect := Ok (mk_effect t q [] false).
Definition give (result : bool) (q : EventQueue) : outcome effect := Ok (mk_effect Idle q [Returned result] false).

(** A step that locks [queueListMutex] waits while a waiter holds it. *)
Definition locked (t : task) (q : EventQueue) (k : outcome effect) : outcome effect :=
  if queueListMutex q then go t q else k.

Fixpoint clear_items (items : list QueuedItem) : outcome (list E * list QueuedItem) :=
  match items with
  | [] => Ok ([], [])
  | it :: items =>
      e ← item_get it; it ← item_clear it; '(es, items) ← clear_items items; Ok (e :: es, it :: items)
  end.

Definition accepts (k : mode) (e : E) : bool := match k with If func => func e | _ => true end.

(** [doEnqueue] and [enqueue]. *)
Definition step_enqueue (t : task) (q : EventQueue) : outcome effect :=
  match t with
  | Enqueue_check e =>
      match freeList q with
      | [] => it ← item_set None e; go (Enqueue_push it) q
      | _ => go (Enqueue_pop e) q
      end
  | Enqueue_pop e =>
      match freeList q with
      | [] => it ← item_set None e; go (Enqueue_push it) q
      | it :: items => it ← item_set it e; go (Enqueue_push it) (set_freeList items q)
      end
  | Enqueue_push it =>
      locked t q (
        e ← item_get it;
        Ok (mk_effect Notify (set_queueList (queueList q ++ [it]) q) [Entered e] false))
  | Notify => Ok (mk_effect Idle q [] (doCanProcess q))
  | _ => go t q
  end.

(** [process], [processOne] and [processIf]. *)
Definition step_process (t : task) (q : EventQueue) : outcome effect :=
  match t with
  | Process_check k => match queueList q with [] => give false q | _ => go (Process_guard k) q end
  | Process_guard k => go (Process_grab k) (set_emptyCounter (queueEmptyCounter q + 1) q)
  | Process_grab k =>
      locked t q (
        let '(tempList, rest) :=
          match k, queueList q with One, it :: items => ([it], items) | One, [] => ([], []) | _, items => (items, []) end in
        go (match tempList with [] => Process_unguard false | _ => Process_work k tempList [] [] end) (set_queueList rest q))
  | Process_work k [] kept idle =>
      go (match k with If _ => Process_give_back kept idle | _ => Process_recycle idle end) q
  | Process_work k (it :: temp) kept idle =>
      e ← item_get it;
      if accepts k e then
        it ← item_clear it;
        match k, kept with
        | If _, [] => Undefined
        | _, _ => Ok (mk_effect (Process_work k temp kept (idle ++ [it])) q [Dispatched e] false)
        end
      else go (Process_work k temp (kept ++ [it]) idle) q
  | Process_give_back kept idle =>
      match kept with
      | [] => go (Process_recycle idle) q
      | _ => locked t q (go (Process_recycle idle) (set_queueList (kept ++ queueList q) q))
      end
  | Process_recycle idle =>
      go (Process_unguard (match idle with [] => false | _ => true end)) (set_freeList (freeList q ++ idle) q)
  | Process_unguard result => give result (set_emptyCounter (queueEmptyCounter q - 1) q)
  | _ => go t q
  end.

(** [clearEvents], [takeEvent] and [peekEvent]; only the latter two return something. *)
Definition step_remove (t : task) (q : EventQueue) : outcome effect :=
  match t with
  | Clear_check => go (match queueList q with [] => Idle | _ => Clear_grab end) q
  | Clear_grab =>
      locked t q (
        '(es, items) ← clear_items (queueList q);
        Ok (mk_effect (match items with [] => Idle | _ => Recycle items end) (set_queueList [] q) (map Cleared es) false))
  | Take_check => match queueList q with [] => give false q | _ => go Take_grab q end
  | Take_grab =>
      locked t q (
        match queueList q with
        | [] => give false q
        | it :: items =>
            e ← item_get it; it ← item_clear it;
            Ok (mk_effect (Recycle [it]) (set_queueList items q) [Taken e; Returned true] false)
        end)
  | Peek_check => match queueList q with [] => give false q | _ => go Peek_read q end
  | Peek_read =>
      locked t q (
        match queueList q with
        | [] => give false q
        | it :: _ => e ← item_get it; Ok (mk_effect Idle q [Peeked e; Returned true] false)
        end)
  | Recycle items => go Idle (set_freeList (freeList q ++ items) q)
  | _ => go t q
  end.

(** [wait] and [waitFor].  The predicate is evaluated under the
    mutex, which a waiter gives up when it goes to sleep; when it is woken it
    evaluates it again.  The time of a [timed] one is up when it makes a step in its
    sleep; it then returns what the predicate says. *)
Definition step_wait (t : task) (q : EventQueue) : outcome effect :=
  match t with
  | Wait_lock timed =>
      locked t q (
        if doCanProcess q then (if timed then give true q else go Idle q)
        else go (Wait_checked timed) (set_mutex true q))
  | Wait_checked timed => go (Asleep timed) (set_mutex false q)
  | Asleep true => locked t q (give (doCanProcess q) q)
  | _ => go t q
  end.

(** [DisableQueueNotify]: constructor and destructor. *)
Definition step_disable (t : task) (q : EventQueue) : outcome effect :=
  match t with
  | Disable => go Idle (set_notifyCounter (queueNotifyCounter q + 1) q)
  | Enable => go Enable_notify (set_notifyCounter (queueNotifyCounter q - 1) q)
  | Enable_notify => Ok (mk_effect Idle q [] (doCanNotifyQueueAvailable q && negb (empty q)))
  | _ => go t q
  end.

Definition step_task (t : task) (q : EventQueue) : outcome effect :=
  match t with
  | Enqueue_check _ | Enqueue_pop _ | Enqueue_push _ | Notify => step_enqueue t q
  | Process_check _ | Process_guard _ | Process_grab _ | Process_work _ _ _ _
  | Process_give_back _ _ | Process_recycle _ | Process_unguard _ => step_process t q
  | Clear_check | Clear_grab | Take_check | Take_grab | Peek_check | Peek_read | Recycle _ => step_remove t q
  | Wait_lock _ | Wait_checked _ | Asleep _ => step_wait t q
  | Disable | Enable | Enable_notify => step_disable t q
  | Idle => go t q
  end.

(** *** Threads *)

Record thread := mk_thread { at_task : task; calls : list call }.

Record world := mk_world { queue : EventQueue; threads : list thread; history : list logged }.

(** [notify_one] wakes a sleeping thread, here the first. *)
Fixpoint wake_one (ts : list thread) : list thread :=
  match ts with
  | [] => []
  | th :: ts =>
      match at_task th with
      | Asleep timed => mk_thread (Wait_lock timed) (calls th) :: ts
      | _ => th :: wake_one ts
      end
  end.

(** Thread [i] makes a step; an idle one begins its next call. *)
Definition step_thread (i : nat) (w : world) : outcome world :=
  match threads w !! i with
  | None => Ok w
  | Some th =>
      match at_task th, calls th with
      | Idle, c :: cs => Ok (mk_world (queue w) (<[i := mk_thread (begin_call c) cs]> (threads w)) (history w))
      | t, _ =>
          ef ← step_task t (queue w);
          let ts := <[i := mk_thread (next_task ef) (calls th)]> (threads w) in
          Ok (mk_world (new_queue ef) (if notifies ef then wake_one ts else ts) (history w ++ happened ef))
      end
  end.

Fixpoint run_threads (schedule : list nat) (w : world) : outcome world :=
  match schedule with
  | [] => Ok w
  | i :: schedule => w ← step_thread i w; run_threads schedule w
  end.

Definition start_threads (programs : list (list call)) : world :=
  mk_world new_EventQueue (map (mk_thread Idle) programs) [].

End EventQueue.

Arguments EventQueue : clear implicits.
Arguments call : clear implicits.
Arguments task : clear implicits.
Arguments mode : clear implicits.
Arguments logged : clear implicits.
Arguments thread : clear implicits.
Arguments world : clear implicits.
Arguments effect : clear implicits.
