(* ===== verification/EventQueueFacts.v ===== *)
(** The event queue loses and repeats nothing, whatever the threads and their
    interleaving; a single consumer sees the events in the order they entered;
    [empty] does not hold while a consumer works; and a notification can be lost. *)

From S2P Require Import Prelude EventQueue.

Section Facts.
Context {E : Type}.
Implicit Types (q : EventQueue E) (t : task E) (w : world E).

(** ** Where events are *)

Definition entered (h : list (logged E)) : list E := omap (λ l, match l with Entered e => Some e | _ => None end) h.
Definition gone (h : list (logged E)) : list E :=
  omap (λ l, match l with Dispatched e | Cleared e | Taken e => Some e | _ => None end) h.

Definition events (items : list (option E)) : list E := omap id items.

(** Events a call has taken off the queue and not dealt with yet. *)
Definition held t : list E :=
  match t with
  | Process_work _ temp kept _ => events (kept ++ temp)
  | Process_give_back kept _ => events kept
  | _ => []
  end.

(** Queued items are allocated, recycled ones are not. *)
Definition full (items : list (option E)) : Prop := Forall is_Some items.
Definition free (items : list (option E)) : Prop := Forall (.= None) items.

Definition ok_queue q : Prop := full (queueList q) ∧ free (freeList q).

Definition ok_task t : Prop :=
  match t with
  | Enqueue_push it => is_Some it
  | Process_work _ temp kept idle => full temp ∧ full kept ∧ free idle
  | Process_give_back kept idle => full kept ∧ free idle
  | Process_recycle idle | Recycle idle => free idle
  | _ => True
  end.

(** Tasks of [processIf]. *)
Definition selective t : bool :=
  match t with
  | Process_check (If _) | Process_guard (If _) | Process_grab (If _) | Process_work (If _) _ _ _
  | Process_give_back _ _ => true
  | _ => false
  end.

(** A batch of [process] or [processOne] keeps nothing back. *)
Definition no_kept t : Prop :=
  match t with Process_work (If _) _ _ _ => True | Process_work _ _ kept _ => kept = [] | _ => True end.

Lemma events_app a b : events (a ++ b) = events a ++ events b.
Proof. apply omap_app. Qed.

Lemma full_app a b : full (a ++ b) ↔ full a ∧ full b.
Proof. apply Forall_app. Qed.
Lemma free_app a b : free (a ++ b) ↔ free a ∧ free b.
Proof. apply Forall_app. Qed.

Lemma full_cons it items : full (it :: items) ↔ is_Some it ∧ full items.
Proof. apply Forall_cons. Qed.

(** Clearing allocated items is defined. *)
Lemma clear_items_full items : full items → ∃ idle, clear_items items = Ok (events items, idle) ∧ free idle ∧
  (items = [] ↔ idle = []).
Proof.
  induction items as [|it items IH]; intros Hf; [by exists []; split_and!; [|constructor|]|].
  apply full_cons in Hf as [(e & ->) Hf]. destruct (IH Hf) as (idle & Ec & Hi & _).
  exists (None :: idle). cbn. rewrite Ec. cbn. split_and!; [done|by constructor|done].
Qed.

(** ** One step *)

(** What a step preserves: the items' states, and the account of events. *)
Record sound_step t q (ef : effect E) : Prop := {
  ss_task : ok_task (next_task ef);
  ss_queue : ok_queue (new_queue ef);
  ss_kept : no_kept (next_task ef);
  ss_account : gone (happened ef) ++ held (next_task ef) ++ events (queueList (new_queue ef)) ≡ₚ
               held t ++ events (queueList q) ++ entered (happened ef);
  ss_order : selective t = false → selective (next_task ef) = false ∧
             gone (happened ef) ++ held (next_task ef) ++ events (queueList (new_queue ef)) =
             held t ++ events (queueList q) ++ entered (happened ef)
}.

(** A step that leaves the events where they are. *)
Lemma sound_go t t' q q' : go t' q' = Ok (mk_effect t' q' [] false) ∧
  (ok_task t' → ok_queue q' → no_kept t' → queueList q' = queueList q → held t' = held t →
   (selective t = false → selective t' = false) → ∀ b h, entered h = [] → gone h = [] → sound_step t q (mk_effect t' q' h b)).
Proof.
  split; [done|]. intros Ht Hq Hk Eq Eh Hs b h Ee Eg. split; cbn [happened next_task new_queue]; rewrite ?Ee, ?Eg, ?app_nil_r, ?Eq, ?Eh; auto.
Qed.

Definition step_ok t q (o : outcome (effect E)) : Prop :=
  match o with
  | Ok ef => sound_step t q ef
  | Undefined => ∃ func temp kept idle, t = Process_work (If func) temp kept idle
  | NoFuel => False
  end.

Ltac quiet := cbn [step_ok]; apply sound_go; cbn; try done; try tauto; try (by eexists); try (by split).

Lemma locked_ok t q o : ok_task t → ok_queue q → no_kept t → step_ok t q o → step_ok t q (locked t q o).
Proof. intros Ht Hq Hk Ho. unfold locked. destruct (queueListMutex q); [by quiet|done]. Qed.

Lemma step_enqueue_ok t q : ok_task t → ok_queue q → no_kept t →
  match t with Enqueue_check _ | Enqueue_pop _ | Enqueue_push _ | Notify => True | _ => False end →
  step_ok t q (step_enqueue t q).
Proof.
  intros Ht Hok Hk Hs. pose proof Hok as [Hq Hf]. destruct t; try done; cbn [step_enqueue].
  - destruct (freeList q); cbn; quiet.
  - destruct (freeList q) as [|it items] eqn:Ef; cbn; [quiet|].
    apply Forall_cons in Hf as [-> Hf]. cbn. quiet.
  - apply locked_ok; [done|by split|done|]. destruct Ht as (e & ->). cbn. split; cbn; try done.
    + split; [|done]. apply full_app. split; [done|]. by repeat constructor.
    + by rewrite events_app.
    + intros _. by rewrite events_app.
  - quiet.
Qed.

Lemma step_wait_ok t q : ok_task t → ok_queue q → no_kept t →
  match t with Wait_lock _ | Wait_checked _ | Asleep _ => True | _ => False end →
  step_ok t q (step_wait t q).
Proof.
  intros Ht Hok Hk Hs. destruct t as [| | | | | | | | | | | | | | | | | | |timed|timed|timed| | |]; try done; cbn [step_wait].
  - apply locked_ok; [done..|]. destruct (doCanProcess q), timed; quiet.
  - quiet.
  - destruct timed; [|quiet]. apply locked_ok; [done..|]. quiet.
Qed.

Lemma step_disable_ok t q : ok_task t → ok_queue q → no_kept t →
  match t with Disable | Enable | Enable_notify => True | _ => False end → step_ok t q (step_disable t q).
Proof. intros Ht Hok Hk Hs. destruct t; try done; cbn [step_disable]; quiet. Qed.

Lemma free_recycle q idle : ok_queue q → free idle → ok_queue (set_freeList (freeList q ++ idle) q).
Proof. intros [Hq Hf] Hi. split; [done|]. by apply free_app. Qed.

Lemma step_remove_ok t q : ok_task t → ok_queue q → no_kept t →
  match t with Clear_check | Clear_grab | Take_check | Take_grab | Peek_check | Peek_read | Recycle _ => True | _ => False end →
  step_ok t q (step_remove t q).
Proof.
  intros Ht Hok Hk Hs. pose proof Hok as [Hq Hf]. destruct t; try done; cbn [step_remove].
  - destruct (queueList q) eqn:Eq; quiet.
  - apply locked_ok; [done..|]. destruct (clear_items_full _ Hq) as (idle & -> & Hi & _). cbn.
    assert (Hg : gone (map Cleared (events (queueList q))) = events (queueList q) ∧
      entered (map Cleared (events (queueList q))) = []).
    { unfold gone, entered. generalize (events (queueList q)) as l. induction l as [|e l [IH1 IH2]]; [done|].
      cbn. by rewrite IH1, IH2. }
    destruct Hg as [Hg He].
    assert (Hq' : ok_queue (set_queueList [] q)) by (by split; [constructor|]).
    destruct idle; split; cbn -[gone entered]; rewrite ?Hg, ?He, ?app_nil_r; done.
  - destruct (queueList q) eqn:Eq; quiet.
  - apply locked_ok; [done..|]. destruct (queueList q) as [|it items] eqn:Eq; [quiet|].
    apply full_cons in Hq as [(e & ->) Hq]. cbn. split; cbn; rewrite ?Eq, ?app_nil_r; try done.
    by repeat constructor.
  - destruct (queueList q) eqn:Eq; quiet.
  - apply locked_ok; [done..|]. destruct (queueList q) as [|it items] eqn:Eq; [quiet|].
    apply full_cons in Hq as [(e & ->) Hq]. quiet.
  - quiet. by apply free_recycle.
Qed.

(** A batch: its next item. *)
Lemma step_work_ok k it temp kept idle q : ok_task (Process_work k (it :: temp) kept idle) → ok_queue q →
  no_kept (Process_work k (it :: temp) kept idle) →
  step_ok (Process_work k (it :: temp) kept idle) q (step_process (Process_work k (it :: temp) kept idle) q).
Proof.
  intros (Ht & Hkp & Hi) Hok Hk. apply full_cons in Ht as [(e & ->) Ht]. cbn [step_process item_get mbind outcome_bind].
  assert (Hi' : free (idle ++ [None])) by (apply free_app; by repeat constructor).
  assert (Hkp' : full (kept ++ [Some e])) by (apply full_app; by repeat constructor).
  destruct k as [| |func]; cbn [accepts item_clear mbind outcome_bind]; [cbn in Hk; subst kept..|].
  - split; cbn; rewrite ?app_nil_r; done.
  - split; cbn; rewrite ?app_nil_r; done.
  - destruct (func e).
    + destruct kept as [|it' kept]; [by eexists _, _, _, _|]. split; [done|done|done| |done].
      cbn [happened next_task new_queue held gone entered omap list_omap].
      rewrite app_nil_r, !events_app. cbn. rewrite <- Permutation_middle. done.
    + split; [done|done|done| |done]. cbn. rewrite app_nil_r, !events_app. cbn. by rewrite <- (app_assoc (events kept)).
Qed.

Lemma step_process_ok t q : ok_task t → ok_queue q → no_kept t →
  match t with
  | Process_check _ | Process_guard _ | Process_grab _ | Process_work _ _ _ _
  | Process_give_back _ _ | Process_recycle _ | Process_unguard _ => True
  | _ => False
  end → step_ok t q (step_process t q).
Proof.
  intros Ht Hok Hk Hs. pose proof Hok as [Hq Hf].
  destruct t as [| | | | |k|k|k|k temp kept idle|kept idle|idle|result| | | | | | | | | | | | |]; try done.
  - cbn [step_process]. destruct (queueList q) eqn:Eq; quiet.
  - cbn [step_process]. quiet.
  - cbn [step_process]. apply locked_ok; [done..|].
    destruct k as [| |func], (queueList q) as [|it items] eqn:Eq; cbn; try (by quiet);
      try (apply full_cons in Hq as [(e & ->) Hq]).
    + split; cbn; rewrite ?Eq, ?app_nil_r; try done. split_and!; [by apply full_cons|constructor|constructor].
      by split; [constructor|].
    + split; cbn; rewrite ?Eq, ?app_nil_r; try done. split_and!; [by repeat constructor|constructor|constructor].
    + split; cbn; rewrite ?Eq, ?app_nil_r; try done. split_and!; [by apply full_cons|constructor|constructor].
      by split; [constructor|].
  - destruct temp as [|it temp]; [|by apply step_work_ok]. destruct Ht as (_ & Hkp & Hi).
    cbn [step_process]. destruct k; cbn in Hk; subst; quiet. by rewrite app_nil_r.
  - cbn [step_process]. destruct Ht as [Hkp Hi]. destruct kept as [|it kept]; [quiet|].
    apply locked_ok; [done..|]. generalize dependent (it :: kept). clear it kept. intros items Hkp Hk.
    split; cbn; try done.
    + split; [by apply full_app|done].
    + by rewrite events_app, app_nil_r.
  - cbn [step_process]. quiet. by apply free_recycle.
  - cbn [step_process]. quiet.
Qed.

Lemma step_task_ok t q : ok_task t → ok_queue q → no_kept t → step_ok t q (step_task t q).
Proof.
  intros Ht Hq Hk. destruct t; cbn [step_task];
    first [by apply step_enqueue_ok|by apply step_process_ok|by apply step_remove_ok|by apply step_wait_ok|by apply step_disable_ok|quiet].
Qed.
(** The counter [empty] looks at counts the consumers at work. *)
Definition guarded t : bool :=
  match t with
  | Process_grab _ | Process_work _ _ _ _ | Process_give_back _ _ | Process_recycle _ | Process_unguard _ => true
  | _ => false
  end.

Definition guards t : Z := if guarded t then 1 else 0.

Lemma step_guards t q ef : step_task t q = Ok ef →
  queueEmptyCounter (new_queue ef) - guards (next_task ef) = queueEmptyCounter q - guards t.
Proof.
  intros Hs. destruct t; cbn in Hs; unfold locked, go, give, item_set, item_get, item_clear in Hs;
    repeat (case_match; cbn in Hs); try (destruct (clear_items (queueList q)) as [[es items]| |]; cbn in Hs);
    repeat (case_match; cbn in Hs); simplify_eq; cbn; unfold guards; cbn; lia.
Qed.

Lemma unguarded_held t : guarded t = false → held t = [].
Proof. by destruct t. Qed.

(** ** Threads *)

Lemma insert_split {A} (l : list A) i x : l !! i = Some x →
  ∃ a b, l = a ++ x :: b ∧ length a = i ∧ ∀ y, <[i:=y]> l = a ++ y :: b.
Proof.
  intros Hx. apply list_elem_of_split_length in Hx as (a & b & -> & ->). exists a, b.
  split_and!; [done|done|]. intros y. by rewrite insert_app_r_alt, Nat.sub_diag by done.
Qed.

Definition total {A} (f : task E → list A) (ts : list (thread E)) : list A := concat (map (λ th, f (at_task th)) ts).
Definition guards_of (ts : list (thread E)) : Z := foldr (λ th n, guards (at_task th) + n) 0 ts.

Lemma total_middle {A} (f : task E → list A) a th b : total f (a ++ th :: b) ≡ₚ f (at_task th) ++ total f (a ++ b).
Proof.
  unfold total. rewrite !map_app, !concat_app. cbn [map concat].
  rewrite !app_assoc. f_equiv. apply Permutation_app_comm.
Qed.

Lemma guards_middle a th b : guards_of (a ++ th :: b) = guards (at_task th) + guards_of (a ++ b).
Proof. unfold guards_of. induction a as [|th' a IH]; cbn; [done|]. rewrite IH. lia. Qed.

Lemma guards_nonneg ts : 0 <= guards_of ts.
Proof. unfold guards_of. induction ts as [|th ts IH]; cbn; [lia|]. unfold guards in *. case_match; lia. Qed.

Lemma guards_zero ts th : guards_of ts = 0 → th ∈ ts → guarded (at_task th) = false.
Proof.
  intros Hz Hin. apply list_elem_of_split in Hin as (a & b & ->). rewrite guards_middle in Hz.
  pose proof (guards_nonneg (a ++ b)). unfold guards in Hz. case_match; [lia|done].
Qed.

(** Waking a thread changes nothing but where it waits. *)
Lemma wake_split (ts : list (thread E)) : wake_one ts = ts ∨
  ∃ a timed cs b, ts = a ++ mk_thread (Asleep timed) cs :: b ∧ wake_one ts = a ++ mk_thread (Wait_lock timed) cs :: b.
Proof.
  induction ts as [|th ts IH]; [by left|]. cbn. destruct (at_task th) eqn:Et;
    try (destruct IH as [->|(a & timed' & cs' & b & -> & ->)]; [by left|right; by exists (th :: a), timed', cs', b]).
  right. destruct th as [t cs]. cbn in Et. subst t. by exists [], timed, cs, ts.
Qed.
(** ** The account of a whole run *)

(** [selects] holds when some thread may call [processIf]. *)
Record sound (selects : Prop) w : Prop := {
  so_tasks : Forall (λ th, ok_task (at_task th) ∧ no_kept (at_task th)) (threads w);
  so_queue : ok_queue (queue w);
  so_account : entered (history w) ≡ₚ gone (history w) ++ total held (threads w) ++ events (queueList (queue w));
  so_guards : queueEmptyCounter (queue w) = guards_of (threads w);
  so_select : Forall (λ th, (selective (at_task th) = true → selects) ∧
                            (∀ func, C_process (If func) ∈ calls th → selects)) (threads w)
}.

Lemma sound_wake selects w : sound selects w → sound selects (mk_world (queue w) (wake_one (threads w)) (history w)).
Proof.
  intros [Ht Hq Ha Hg Hs]. destruct (wake_split (threads w)) as [->|(a & timed & cs & b & E1 & ->)]; [by split|].
  rewrite E1 in Ht, Ha, Hg, Hs. split; cbn [threads queue history]; try done.
  - apply Forall_app in Ht as [Ht1 Ht2]. apply Forall_app. split; [done|]. by inversion Ht2; constructor.
  - by rewrite total_middle in Ha |- *.
  - by rewrite guards_middle in Hg |- *.
  - apply Forall_app in Hs as [Hs1 Hs2]. apply Forall_app. split; [done|].
    apply Forall_cons in Hs2 as [[_ Hs2] Hs3]. constructor; [by split|done].
Qed.

Lemma entered_app h h' : entered (h ++ h') = entered h ++ entered h'.
Proof. apply omap_app. Qed.
Lemma gone_app h h' : gone (h ++ h') = gone h ++ gone h'.
Proof. apply omap_app. Qed.

(** A thread's step, before anybody is woken. *)
Lemma sound_advance selects w i th ef : sound selects w → threads w !! i = Some th →
  step_task (at_task th) (queue w) = Ok ef → sound_step (at_task th) (queue w) ef →
  sound selects (mk_world (new_queue ef) (<[i:=mk_thread (next_task ef) (calls th)]> (threads w)) (history w ++ happened ef)).
Proof.
  intros [Ht Hq Ha Hg Hs] Hi Est [St Sq Sk Sa So].
  destruct (insert_split _ _ _ Hi) as (a & b & E1 & _ & E2). rewrite E2. rewrite E1 in Ht, Ha, Hg, Hs.
  apply Forall_app in Ht as [Ht1 Ht2]. apply Forall_cons in Ht2 as [_ Ht2].
  apply Forall_app in Hs as [Hs1 Hs2]. apply Forall_cons in Hs2 as [[Hs3 Hs4] Hs2].
  split; cbn [threads queue history].
  - apply Forall_app. split; [done|]. by constructor.
  - done.
  - rewrite entered_app, gone_app, Ha, !total_middle. cbn [at_task].
    transitivity (gone (history w) ++ total held (a ++ b) ++
      (held (at_task th) ++ events (queueList (queue w)) ++ entered (happened ef))); [solve_Permutation|].
    rewrite <- Sa. solve_Permutation.
  - rewrite guards_middle in Hg |- *. cbn [at_task]. pose proof (step_guards _ _ _ Est). lia.
  - apply Forall_app. split; [done|]. constructor; [|done]. cbn. split; [|done]. intros Hsel. apply Hs3.
    destruct (selective (at_task th)) eqn:Es; [done|]. destruct (So eq_refl) as [So' _]. congruence.
Qed.
Lemma begin_call_quiet c : ok_task (begin_call c) ∧ no_kept (begin_call c) ∧ held (begin_call c) = [] ∧
  guarded (begin_call c) = false.
Proof. by destruct c as [|[]| | | | | | |]. Qed.

(** A thread begins its next call. *)
Lemma sound_begin selects w i c cs : sound selects w → threads w !! i = Some (mk_thread Idle (c :: cs)) →
  sound selects (mk_world (queue w) (<[i:=mk_thread (begin_call c) cs]> (threads w)) (history w)).
Proof.
  intros [Ht Hq Ha Hg Hs] Hi. destruct (insert_split _ _ _ Hi) as (a & b & E1 & _ & E2). rewrite E2.
  rewrite E1 in Ht, Ha, Hg, Hs. destruct (begin_call_quiet c) as (Hok & Hk & Hh & Hgd).
  apply Forall_app in Ht as [Ht1 Ht2]. apply Forall_cons in Ht2 as [_ Ht2].
  apply Forall_app in Hs as [Hs1 Hs2]. apply Forall_cons in Hs2 as [[_ Hs4] Hs2]. cbn [calls] in Hs4.
  split; cbn [threads queue history].
  - apply Forall_app. split; [done|]. by constructor.
  - done.
  - rewrite Ha, !total_middle. cbn [at_task]. by rewrite Hh.
  - rewrite guards_middle in Hg |- *. cbn [at_task] in *. unfold guards in *. by rewrite Hgd.
  - apply Forall_app. split; [done|]. constructor; [|done]. split; cbn [at_task calls].
    + destruct c as [|[| |func]| | | | | | |]; try done. intros _. apply (Hs4 func). by left.
    + intros func Hf. apply (Hs4 func). by right.
Qed.

Lemma sound_step_thread selects w i : sound selects w →
  match step_thread i w with Ok w' => sound selects w' | Undefined => selects | NoFuel => False end.
Proof.
  intros Hw. unfold step_thread. destruct (threads w !! i) as [th|] eqn:Ei; [|done].
  pose proof Hw as [Ht Hq _ _ Hs]. pose proof (Forall_lookup_1 _ _ _ _ Ht Ei) as [Hok Hk].
  pose proof (Forall_lookup_1 _ _ _ _ Hs Ei) as [Hsel _].
  assert (Hstep : match (ef ← step_task (at_task th) (queue w);
    let ts := <[i := mk_thread (next_task ef) (calls th)]> (threads w) in
    Ok (mk_world (new_queue ef) (if notifies ef then wake_one ts else ts) (history w ++ happened ef))) with
    | Ok w' => sound selects w' | Undefined => selects | NoFuel => False end).
  { pose proof (step_task_ok _ _ Hok Hq Hk) as Hst.
    destruct (step_task (at_task th) (queue w)) as [ef| |] eqn:Est; [| |done].
    - pose proof (sound_advance _ _ _ _ _ Hw Ei Est Hst) as Ha. cbn [mbind outcome_bind].
      destruct (notifies ef); [|done]. exact (sound_wake _ _ Ha).
    - destruct Hst as (func & temp & kept & idle & Et). apply Hsel. by rewrite Et. }
  destruct th as [t cs]. cbn [at_task calls] in *. destruct t; try exact Hstep.
  destruct cs as [|c cs]; [exact Hstep|]. by apply sound_begin.
Qed.

Lemma sound_run selects schedule w : sound selects w →
  match run_threads schedule w with Ok w' => sound selects w' | Undefined => selects | NoFuel => False end.
Proof.
  revert w. induction schedule as [|i schedule IH]; intros w Hw; [done|]. cbn [run_threads].
  pose proof (sound_step_thread selects w i Hw) as Hs. destruct (step_thread i w) as [w1| |]; cbn; [by apply IH|done|done].
Qed.

Lemma sound_start programs : sound (∃ func prog, prog ∈ programs ∧ C_process (If func) ∈ prog) (start_threads programs).
Proof.
  assert (Hidle : Forall (λ th, at_task th = Idle) (map (mk_thread (E := E) Idle) programs)).
  { apply Forall_forall. intros th Hin. by apply list_elem_of_fmap in Hin as (p & -> & _). }
  unfold start_threads. split; cbn [threads queue history].
  - eapply Forall_impl; [exact Hidle|]. by intros th ->.
  - by split; constructor.
  - cbn. rewrite app_nil_r. induction programs as [|p ps IH]; [done|]. cbn. apply IH. by inversion Hidle.
  - clear. unfold guards_of. induction programs as [|p ps IH]; [done|]. cbn in IH |- *. by rewrite <- IH.
  - apply Forall_forall. intros th Hin. apply list_elem_of_fmap in Hin as (p & -> & Hp). cbn. split; [done|].
    intros func Hf. by exists func, p.
Qed.

(** ** One consumer *)

Definition produces (c : call E) : bool :=
  match c with C_enqueue _ | C_peekEvent | C_wait | C_waitFor | C_disableNotify | C_enableNotify => true | _ => false end.

Definition producer t : bool :=
  match t with
  | Idle | Enqueue_check _ | Enqueue_pop _ | Enqueue_push _ | Notify | Peek_check | Peek_read
  | Wait_lock _ | Wait_checked _ | Asleep _ | Disable | Enable | Enable_notify => true
  | _ => false
  end.

Lemma producer_step t q ef : producer t = true → step_task t q = Ok ef →
  producer (next_task ef) = true ∧ gone (happened ef) = [].
Proof.
  intros Hp Hs. destruct t; try done; cbn in Hs; unfold locked, go, give, item_set, item_get in Hs;
    repeat (case_match; cbn in Hs); by simplify_eq.
Qed.

Lemma producer_held t : producer t = true → held t = [].
Proof. by destruct t. Qed.

(** What thread [c] has in hand. *)
Definition in_hand (c : nat) w : list E := default [] ((λ th, held (at_task th)) <$> threads w !! c).

Record fifo (c : nat) w : Prop := {
  fi_sound : sound False w;
  fi_others j th : threads w !! j = Some th → j ≠ c → producer (at_task th) = true ∧ forallb produces (calls th) = true;
  fi_order : entered (history w) = gone (history w) ++ in_hand c w ++ events (queueList (queue w))
}.

Lemma fifo_wake c w : fifo c w → fifo c (mk_world (queue w) (wake_one (threads w)) (history w)).
Proof.
  intros [Hs Ho Hor]. pose proof (sound_wake _ _ Hs) as Hs'. revert Hs'.
  destruct (wake_split (threads w)) as [->|(a & timed & cs & b & E1 & ->)]; [by split|]. intros Hs'.
  assert (Hlook : ∀ j, threads w !! j = (a ++ mk_thread (Wait_lock timed) cs :: b) !! j ∨
    (threads w !! j = Some (mk_thread (Asleep timed) cs) ∧ (a ++ mk_thread (Wait_lock timed) cs :: b) !! j = Some (mk_thread (Wait_lock timed) cs))).
  { intros j. rewrite E1. destruct (decide (j = length a)) as [->|Hne].
    - right. by rewrite !list_lookup_middle.
    - left. destruct (decide (j < length a)%nat); [by rewrite !lookup_app_l by lia|].
      rewrite !lookup_app_r by lia. by destruct (j - length a)%nat as [|k] eqn:Ej; [lia|]. }
  split; [done| |].
  - cbn [threads]. intros j th Ej Hj. destruct (Hlook j) as [El|[El El']].
    + rewrite <- El in Ej. by apply (Ho j).
    + rewrite El' in Ej. injection Ej as <-. destruct (Ho j _ El Hj) as [_ Hc]. done.
  - unfold in_hand in *. cbn [threads queue history]. rewrite Hor. destruct (Hlook c) as [El|[El El']]; [by rewrite El|].
    by rewrite El, El'.
Qed.

Lemma fifo_step_thread c w i : fifo c w → ∃ w', step_thread i w = Ok w' ∧ fifo c w'.
Proof.
  intros Hw. pose proof Hw as [Hs Ho Hor]. pose proof (sound_step_thread False w i Hs) as Hsnd. revert Hsnd.
  unfold step_thread. destruct (threads w !! i) as [th|] eqn:Ei; [|intros _; by exists w].
  pose proof (so_tasks _ _ Hs) as Ht. pose proof (Forall_lookup_1 _ _ _ _ Ht Ei) as [Hok Hk].
  pose proof (Forall_lookup_1 _ _ _ _ (so_select _ _ Hs) Ei) as [Hsel _].
  assert (Hfi : ∀ t' cs' q' h', (i ≠ c → producer t' = true ∧ forallb produces cs' = true) →
    entered h' = gone h' ++ (if decide (i = c) then held t' else in_hand c w) ++ events (queueList q') →
    sound False (mk_world q' (<[i:=mk_thread t' cs']> (threads w)) h') →
    fifo c (mk_world q' (<[i:=mk_thread t' cs']> (threads w)) h')).
  { intros t' cs' q' h' Hp Hor' Hs'. split; [done| |].
    - cbn [threads]. intros j thj. destruct (decide (i = j)) as [->|Hne].
      + rewrite list_lookup_insert_eq by (by eapply lookup_lt_Some). intros [= <-] Hj. by apply Hp.
      + rewrite list_lookup_insert_ne by done. apply Ho.
    - cbn [history queue]. rewrite Hor'. unfold in_hand. cbn [threads]. case_decide as D.
      + subst c. by rewrite list_lookup_insert_eq by (by eapply lookup_lt_Some).
      + by rewrite list_lookup_insert_ne by done. }
  assert (Hstep : ∃ w', (ef ← step_task (at_task th) (queue w);
    let ts := <[i := mk_thread (next_task ef) (calls th)]> (threads w) in
    Ok (mk_world (new_queue ef) (if notifies ef then wake_one ts else ts) (history w ++ happened ef))) = Ok w' ∧ fifo c w').
  { pose proof (step_task_ok _ _ Hok (so_queue _ _ Hs) Hk) as Hst.
    destruct (step_task (at_task th) (queue w)) as [ef| |] eqn:Est; [| |done].
    2: { exfalso. destruct Hst as (func & temp & kept & idle & Et). apply Hsel. by rewrite Et. }
    pose proof (sound_advance _ _ _ _ _ Hs Ei Est Hst) as Ha. eexists. split; [reflexivity|].
    assert (Hf : fifo c (mk_world (new_queue ef) (<[i:=mk_thread (next_task ef) (calls th)]> (threads w)) (history w ++ happened ef))).
    { assert (Hns : selective (at_task th) = false) by (destruct (selective (at_task th)); [by destruct Hsel|done]).
      destruct (ss_order _ _ _ Hst Hns) as [_ Hord]. apply Hfi; [| |done].
      - intros Hne. destruct (Ho i th Ei Hne) as [Hp Hc]. by destruct (producer_step _ _ _ Hp Est).
      - rewrite entered_app, gone_app, Hor. case_decide as D.
        + subst c. unfold in_hand. rewrite Ei. cbn [fmap option_fmap option_map default].
          rewrite <- !app_assoc. f_equal. cbn in Hord |- *. by rewrite Hord.
        + destruct (Ho i th Ei D) as [Hp _]. destruct (producer_step _ _ _ Hp Est) as [Hp' Hg].
          rewrite Hg, (producer_held _ Hp), (producer_held _ Hp') in Hord. cbn [app] in Hord. rewrite Hg, Hord.
          by rewrite app_nil_r, <- !app_assoc. }
    destruct (notifies ef); [|done]. exact (fifo_wake _ _ Hf). }
  destruct th as [t cs]. cbn [at_task calls] in *. destruct t; try (intros _; exact Hstep).
  destruct cs as [|cl cs]; [intros _; exact Hstep|]. intros Hsnd. eexists. split; [reflexivity|].
  destruct (begin_call_quiet cl) as (_ & _ & Hh & _). apply Hfi; [| |exact Hsnd].
  - intros Hne. destruct (Ho i _ Ei Hne) as [_ Hc]. cbn in Hc. apply andb_true_iff in Hc as [Hc1 Hc2].
    split; [by destruct cl|done].
  - rewrite Hor, Hh. case_decide as D; [|done]. subst c. unfold in_hand. by rewrite Ei.
Qed.

Lemma fifo_run c schedule w : fifo c w → ∃ w', run_threads schedule w = Ok w' ∧ fifo c w'.
Proof.
  revert w. induction schedule as [|i schedule IH]; intros w Hw; [by exists w|]. cbn [run_threads].
  destruct (fifo_step_thread c w i Hw) as (w1 & -> & Hw1). by apply IH.
Qed.

Definition unselective (c : call E) : bool := match c with C_process (If _) => false | _ => true end.

End Facts.


(** ** What goes wrong *)

(** [processIf] decrements the iterator of an item it has dispatched; of the first
    item this is undefined. *)
Lemma process_if_first_undefined {E} (func : E → bool) e : func e = true →
  run_threads (replicate 9 0%nat) (start_threads [[C_enqueue e; C_process (If func)]]) = Undefined.
Proof. intros Hf. cbv -[Z.add]. by rewrite Hf. Qed.

(** C40: a wake-up can be lost for ever.  The destructor of [DisableQueueNotify]
    counts down and notifies without holding [queueListMutex], so it can do both
    between a waiter's look at the counter and its going to sleep: the waiter then
    sleeps although there is an event and notification is enabled, and when the other
    thread has made its calls nothing wakes it again. *)
Theorem lost_wakeup {E} (e : E) : ∃ schedule w,
  run_threads schedule (start_threads [[C_wait]; [C_disableNotify; C_enqueue e; C_enableNotify]]) = Ok w ∧
  at_task <$> threads w = [Asleep false; Idle] ∧ doCanProcess (queue w) = true ∧
  ∀ schedule', run_threads schedule' w = Ok w.
Proof.
  exists [1; 1; 1; 1; 1; 1; 0; 0; 1; 1; 1; 0]%nat,
    (mk_world (mk_EventQueue [Some e] [] 0 0 false) [mk_thread (Asleep false) []; mk_thread Idle []] [Entered e]).
  split; [vm_compute; reflexivity|]. split_and!; [reflexivity..|].
  intros schedule'. induction schedule' as [|[|[|i]] schedule' IH]; [reflexivity|exact IH..].
Qed.
