(* ===== verification/Demos.v ===== *)
(** The demonstrations of the client (src/MiniProtobufClient/main.cpp): the functions
    besides [clientStart] that show how the callback list, the dispatcher, the queue and
    the streams are used.  [main] calls none of them.  What they print is a string, with
    [endl] a newline and [ends] a zero character. *)

From stdpp Require Import pretty.
From S2P Require Import Prelude CodedStream ZeroCopyOutput CallbackList EventDispatcher EventQueue.

Module Demos.
#[local] Open Scope string_scope.

Definition endl : string := String (Ascii.ascii_of_nat 10) "".
Definition ends : string := String Ascii.zero "".
Definition boolalpha (b : bool) : string := if b then "true" else "false".

(** ** Callbacks *)

(** What the callbacks print that a walk called, in turn. *)
Definition printed {A O} (cl : CallbackList (A → string)) (arg : A) (seen : list (event O)) : string :=
  String.concat "" (omap (λ ev, match ev with Called n => (λ nd, callback nd arg) <$> nodes cl !! n | Did _ => None end) seen).

(** The second callback takes the flag as an [int]. *)
Definition callback_list_demo : outcome string :=
  let '(_, cl) := append (λ '(s, b), "Got callback 1, s is " ++ s ++ " b is " ++ boolalpha b ++ endl) new_CallbackList in
  let '(_, cl) := append (λ '(s, b), "Got callback 2, s is " ++ s ++ " b is " ++ pretty (Z.b2z b) ++ endl) cl in
  '(seen, _, _) ← forEachIf 2 [] cl;
  Ok (printed cl ("Hello world", true) seen).

(** A dispatch to listeners that print. *)
Definition dispatch_printing {A} (e : Z) (arg : A) (m : MixinFilter Z (A → string) unit) : outcome string :=
  '(_, seen, m) ← doDispatch (size (heap (base m))) e [] [] m;
  Ok (printed (list_at e (base m)) arg seen).

Definition listening {A} (listeners : list (Z * (A → string))) : MixinFilter Z (A → string) unit :=
  mk_MixinFilter (fold_left (λ d '(e, c), snd (appendListener e c d)) listeners new_EventDispatcher) new_CallbackList.

Definition event_dispatcher_demo : outcome string :=
  let m := listening [(3, λ _ : unit, "Got event 3." ++ endl); (5, λ _, "Got event 5." ++ endl); (5, λ _, "Got another event 5." ++ endl)] in
  first ← dispatch_printing 3 () m; second ← dispatch_printing 5 () m; Ok (first ++ second).

Definition func1 : string * bool → string := λ '(s, b), "Got event 3, s is " ++ s ++ " b is " ++ boolalpha b ++ endl.

(** Everything on one thread; [process] dispatches the events it takes out. *)
Fixpoint dispatch_all {A} (m : MixinFilter Z (A → string) unit) (history : list (logged (Z * A))) : outcome string :=
  match history with
  | [] => Ok ""
  | Dispatched (e, arg) :: history => s ← dispatch_printing e arg m; rest ← dispatch_all m history; Ok (s ++ rest)
  | _ :: history => dispatch_all m history
  end.

Definition event_queue_demo : outcome string :=
  let m := listening [(3, func1); (5, λ '(s, b), "Got event 5, s is " ++ s ++ " b is " ++ boolalpha b ++ endl)] in
  w ← run_threads (replicate 24 0%nat) (start_threads [[C_enqueue (3, ("Hello", true)); C_enqueue (5, ("World", false)); C_process All]]);
  dispatch_all m (history w).

(** ** Bound arguments, objects and their owners *)

(** [fun]: reading beyond the array is undefined. *)
Fixpoint print_greater (array : list Z) (n : nat) (num : Z) : outcome string :=
  match n, array with
  | 0%nat, _ => Ok endl
  | S n, x :: array => rest ← print_greater array n num; Ok ((if (num <? x)%Z then pretty x ++ ends else "") ++ rest)
  | S _, [] => Undefined
  end.

Definition bindfunc : outcome string :=
  let fun1 array n := print_greater array n 5 in fun1 [1; 3; 5; 7; 9] 5%nat.

(** [endswap] of an object's bytes. *)
Definition endswap (obj : bytes) : bytes := rev obj.

(** The living [Test] objects and what has been printed. *)
Record tests := mk_tests { living : gmap nat string; made : nat; out : string }.

Definition print (s : string) (w : tests) : tests := mk_tests (living w) (made w) (out w ++ s).
Definition new_Test (s : string) (w : tests) : nat * tests :=
  (made w, print ("Test creat" ++ endl) (mk_tests (<[made w := s]> (living w)) (S (made w)) (out w))).
Definition delete_Test (n : nat) (w : tests) : outcome tests :=
  match living w !! n with
  | Some s => Ok (print ("Test delete:" ++ s ++ endl) (mk_tests (delete n (living w)) (made w) (out w)))
  | None => Undefined
  end.
Definition getStr (n : nat) (w : tests) : outcome string := match living w !! n with Some s => Ok s | None => Undefined end.
Definition setStr (s : string) (n : nat) (w : tests) : outcome tests :=
  _ ← getStr n w; Ok (mk_tests (<[n := s]> (living w)) (made w) (out w)).
Definition print_Test (n : nat) (w : tests) : outcome tests := s ← getStr n w; Ok (print (s ++ endl) w).

(** [ptest] is the only owner of its object; [reset] makes the new object before it
    deletes the old one.  The object behind [p] keeps its owner on the heap. *)
Definition shared_ptr_test (w : tests) : outcome tests :=
  let '(ptest, w) := new_Test "123" w in
  w ← setStr "hello " ptest w; w ← print_Test ptest w; w ← print_Test ptest w;
  s ← getStr ptest w; w ← setStr (s ++ "world !") ptest w; w ← print_Test ptest w;
  let '(other, w) := new_Test "123" w in
  w ← delete_Test ptest w; w ← print_Test other w;
  let '(p, w) := new_Test "1235" w in
  w ← print_Test p w;
  delete_Test other w.

(** ** Streams *)

Definition BUFF_SIZE : Z := 32.

Definition deref {A} (p : option A) : outcome A := match p with Some a => Ok a | None => Undefined end.

Section Streams.
Import ZeroCopyOutput CodedOver.

(** A coded stream over the holder is made, written to, and deleted with the stream below it. *)
Definition write_two (a b : Z) (oshold : ostream) : outcome ostream :=
  cos ← new_CodedOutputStream true (new_OstreamOutputStream oshold (-1));
  cos ← WriteLittleEndian32 a cos; cos ← WriteLittleEndian32 b cos;
  oos ← destroy_CodedOutputStream cos; destroy_OstreamOutputStream oos.

(** [while (sb.size() > 0)]: blocks of the content go to [cos]. *)
Fixpoint copy_content (fuel : nat) (content : bytes) (cos : option (CodedOutputStream OstreamOutputStream))
  : outcome (option (CodedOutputStream OstreamOutputStream)) :=
  match content, fuel with
  | [], _ => Ok cos
  | _, 0%nat => NoFuel
  | _, S fuel =>
      let readSize := Z.min (zlen content) BUFF_SIZE in
      c ← deref cos; c ← WriteRaw (take (Z.to_nat readSize) content) c;
      copy_content fuel (drop (Z.to_nat readSize) content) (Some c)
  end.

Fixpoint read_ints (n : nat) (s : CodedInput.CodedInputStream) : list (option Z) * CodedInput.CodedInputStream :=
  match n with
  | 0%nat => ([], s)
  | S n => let '(x, s) := CodedInput.ReadLittleEndian32 s in let '(xs, s) := read_ints n s in (x :: xs, s)
  end.

(** [content] is what has been written to [sb]; [cos] was deleted before the loop and
    has not been made again.  The integers read back are the result; a second stream
    over what the first has not taken from the holder then reads two varints. *)
Definition streamReadWrite (content : bytes) : outcome (list (option Z)) :=
  oshold ← write_two 0x000000ff 0xff000000 (mk_ostream [] INT_MAX true);
  oshold ← write_two 123 456 oshold;
  _ ← copy_content (length content) content None;
  let ishold := CodedInput.Istream (taken oshold) false in
  let '(ints, cis) := read_ints 4 (CodedInput.of_stream (CodedInput.mk_IstreamInputStream ishold 16)) in
  ishold ← deref (CodedInput.ad_stream <$> CodedInput.input_ cis);
  let cis := CodedInput.of_stream (CodedInput.mk_IstreamInputStream ishold 4) in
  let '(v, cis) := CodedInput.ReadVarint32 cis in let '(v', _) := CodedInput.ReadVarint32 cis in
  Ok (ints ++ [v; v'])%list.
End Streams.

(** ** What they do *)

Definition lines (ls : list string) : string := String.concat "" (map (λ l, l ++ endl) ls).

Lemma demos_print :
  callback_list_demo = Ok (lines ["Got callback 1, s is Hello world b is true"; "Got callback 2, s is Hello world b is 1"]) ∧
  event_dispatcher_demo = Ok (lines ["Got event 3."; "Got event 5."; "Got another event 5."]) ∧
  event_queue_demo = Ok (lines ["Got event 3, s is Hello b is true"; "Got event 5, s is World b is false"]) ∧
  bindfunc = Ok ("7" ++ ends ++ "9" ++ ends ++ endl).
Proof. split_and!; by vm_compute. Qed.

(** The last object made is never deleted. *)
Lemma shared_ptr_leaks : ∃ w, shared_ptr_test (mk_tests ∅ 0 "") = Ok w ∧ living w = {[2%nat := "1235"]} ∧
  out w = lines ["Test creat"; "hello "; "hello "; "hello world !"; "Test creat"; "Test delete:hello world !"; "123"; "Test creat"; "1235"; "Test delete:123"].
Proof. eexists. split; [by vm_compute|by split; vm_compute]. Qed.

Lemma endswap_involutive obj : endswap (endswap obj) = obj.
Proof. apply rev_involutive. Qed.

(** The integers come back in order; with anything to copy, the deleted stream is used. *)
Lemma stream_demo content :
  streamReadWrite content = match content with [] => Ok [Some 0xff; Some 0xff000000; Some 123; Some 456; None; None] | _ => Undefined end.
Proof. destruct content as [|b content]; [by vm_compute|]. unfold streamReadWrite. by vm_compute. Qed.
End Demos.
