(* ===== verification/Singleton.v ===== *)
(** The singleton template (src/Shared/code/utility/Singleton.h).  [Instance] makes the
    object at its first call and has it destroyed at exit; its second check is under no
    lock, so two threads may both make one. *)

From S2P Require Import Prelude.

Module CSingleton.

(** [m_pInstance], the objects there are, the next address, and how many handlers
    [atexit] has. *)
Record singleton := mk_singleton { m_pInstance : option nat; objects : gset nat; next_address : nat; handlers : nat }.

Definition new_singleton : singleton := mk_singleton None ∅ 0 0.

(** Where a call of [Instance] is. *)
Inductive call := First_check | Second_check | New | Atexit | Return | Returned (p : option nat).

Definition step (t : call) (s : singleton) : call * singleton :=
  match t with
  | First_check => (match m_pInstance s with None => Second_check | Some _ => Return end, s)
  | Second_check => (match m_pInstance s with None => New | Some _ => Return end, s)
  | New => (Atexit, mk_singleton (Some (next_address s)) ({[next_address s]} ∪ objects s) (S (next_address s)) (handlers s))
  | Atexit => (Return, mk_singleton (m_pInstance s) (objects s) (next_address s) (S (handlers s)))
  | Return => (Returned (m_pInstance s), s)
  | Returned p => (Returned p, s)
  end.

(** A call that nothing interrupts. *)
Fixpoint finish (fuel : nat) (t : call) (s : singleton) : option nat * singleton :=
  match t, fuel with
  | Returned p, _ => (p, s)
  | _, 0%nat => (None, s)
  | _, S fuel => let '(t, s) := step t s in finish fuel t s
  end.
Definition Instance_ (s : singleton) : option nat * singleton := finish 5 First_check s.

Fixpoint calls (n : nat) (s : singleton) : list (option nat) * singleton :=
  match n with
  | 0%nat => ([], s)
  | S n => let '(p, s) := Instance_ s in let '(ps, s) := calls n s in (p :: ps, s)
  end.

(** [Destory], and the exit of the program, which runs it as often as it was registered. *)
Definition Destory (s : singleton) : singleton :=
  match m_pInstance s with
  | Some p => mk_singleton None (objects s ∖ {[p]}) (next_address s) (handlers s)
  | None => s
  end.
Definition exit (s : singleton) : singleton := Nat.iter (handlers s) Destory s.

(** Two threads that make one call each. *)
Fixpoint interleave (schedule : list bool) (a b : call) (s : singleton) : call * call * singleton :=
  match schedule with
  | [] => (a, b, s)
  | true :: schedule => let '(a, s) := step a s in interleave schedule a b s
  | false :: schedule => let '(b, s) := step b s in interleave schedule a b s
  end.

Lemma calls_made p s : m_pInstance s = Some p → ∀ n, calls n s = (replicate n (Some p), s).
Proof.
  intros Hp. assert (E : Instance_ s = (Some p, s)) by (unfold Instance_; cbn; rewrite Hp; cbn; by rewrite Hp).
  induction n as [|n IH]; [done|]. cbn [calls]. by rewrite E, IH.
Qed.

(** One thread gets the same object from every call; at exit it is destroyed, and nothing is left. *)
Lemma one_instance n : ∃ s, calls (S n) new_singleton = (replicate (S n) (Some 0%nat), s) ∧ objects s = {[0%nat]} ∧ handlers s = 1%nat ∧ objects (exit s) = ∅.
Proof.
  set (s1 := mk_singleton (Some 0%nat) ({[0%nat]} ∪ ∅) 1 1). exists s1.
  split; [change (calls (S n) new_singleton) with (let '(ps, s) := calls n s1 in (Some 0%nat :: ps, s)); by rewrite (calls_made 0)|].
  cbn. rewrite union_empty_r_L. split_and!; [done|done|]. by rewrite difference_diag_L.
Qed.

(** Two threads may get different objects, of which one is never destroyed. *)
Lemma two_instances : ∃ schedule s, interleave schedule First_check First_check new_singleton = (Returned (Some 0%nat), Returned (Some 1%nat), s) ∧
  objects (exit s) = {[0%nat]}.
Proof. exists [true; true; false; false; true; true; true; false; false; false]. eexists. split; [reflexivity|]. by vm_compute. Qed.
End CSingleton.
